(* ===== verification/_CoqProject ===== *)
-Q . S2P
Prelude.v
Totals.v
Http.v
HeaderText.v
HttpResponse.v
HttpRequest.v
HttpParser.v
HeaderBlock.v
RequestParser.v
RequestGrammar.v
RequestRoundTrip.v
ResponseParser.v
ChunkedBody.v
ResponseRoundTrip.v
ByteArray.v
ByteArrayProofs.v
ByteArrayRefinement.v
ByteArrayCodec.v
Timer.v
TimerProofs.v
TimerLifecycle.v
Uri.v
UriRoundTrip.v
Stream.v
StreamProofs.v
HttpSession.v
SessionProofs.v
Servlet.v
ServerProofs.v
HttpConnection.v
ClientProofs.v
ClientExchange.v
ConnectionPool.v
PoolInvariant.v
PoolProofs.v
Fiber.v
ContextSwitch.v
ContextSwitchProofs.v
FiberSwitch.v
FiberSwitchProofs.v
Scheduler.v
SchedulerProofs.v
SchedulerRuns.v
SchedulerOrder.v
IOManager.v
IOManagerProofs.v
IOManagerRuns.v
IOManagerWaking.v
IOManagerLifecycle.v
Address.v
AddressProofs.v
TcpServer.v
TcpServerProofs.v
Hook.v
HookProofs.v
HookFlags.v
Sleeping.v
SleepingProofs.v
FdManagerProofs.v
Sockets.v
SocketsProofs.v
SocketStreams.v
StringUtils.v
StringUtilsProofs.v
LogFormat.v
LogFormatProofs.v
Logger.v
LoggerProofs.v
Appenders.v
AppendersProofs.v
Convert.v
ConvertProofs.v
ConfigVar.v
ConfigVarProofs.v
Config.v
ConfigProofs.v
Reports.v
SystemUtils.v
Mutex.v
MutexProofs.v
