(* ===== verification/Prelude.v ===== *)
(** * Verification of the droplet networking library

    droplet is a C++ networking library: fibers and the threads that run them,
    an event loop on epoll with timers and hooked system calls, sockets and byte
    streams, and on top of them HTTP - messages, parsers, sessions and servlets
    on the server's side, connections and a pool of them on the client's side.
    This library translates that code into executable definitions and proves
    what they keep.  Paths below are relative to [src/droplet/src/] (headers:
    [src/droplet/include/droplet/]).

    ** How the parts of the program fit together

    A [TcpServer] accepts clients in fibers of an [IOManager] and hands each to
    [HttpServer::handleClient], which wraps the socket into an [HttpSession], a
    [SocketStream], and serves requests through a [ServletDispatch].  The
    session feeds what it reads to an [HttpRequestParser] and prints responses
    with [HttpResponse::dump].  On the other side an [HttpConnection], also a
    [SocketStream], prints requests and feeds an [HttpResponseParser];
    [HttpConnectionPool] shares connections among callers; a [Uri] says where to
    connect, an [Address] with which structure.  Reads and writes of sockets go
    through hooks ([DoIo]) that let a fiber wait in the [IOManager] (a
    [Scheduler] and a [TimerManager]) until epoll or a timer wakes it.
    [ByteArray] is the buffer for binary data streams fill and empty.  Values of
    the configuration ([ConfigVar], filled from YAML documents by [Config]) set
    stack sizes and timeouts, and every part writes records through [Logger].

    ** The files

    Shared: [Prelude] (bytes, byte strings with the searching and slicing of
    [std::string_view], machine integers with their wrap-around, decimal text,
    tactics and the hint database [droplet]) and [Totals] (sums and collections
    over the values of a finite map).

    HTTP messages: [Http] ([http/http.cc]: methods, statuses, the header map as
    an ordered association list), [HeaderText] (helpers of [http_request.cc] and
    [http_response.cc]), [HttpResponse], [HttpRequest] (data, accessors, lazily
    parsed parameters and cookies, [dump]).

    HTTP parsers ([http/http_parser.cc]): [HttpParser] (limits, errors, lexical
    helpers), [HeaderBlock] (the header section both parsers share),
    [RequestParser], [ResponseParser]; proofs in [RequestGrammar],
    [RequestRoundTrip], [ChunkedBody], [ResponseRoundTrip].  A parser object is a
    record; [execute] takes the bytes available and says how many it has consumed.

    Binary data: [ByteArray] ([stream/bytearray.cc]; blocks, cursor, codecs; an
    operation returns a value or the exception together with the state left
    behind); proofs in [ByteArrayProofs], [ByteArrayRefinement] (the contract: a
    flat buffer with a cursor) and [ByteArrayCodec] (the class [Codec]).

    Timers: [Timer] ([scheduler/timer.cc]; a heap of timer objects and the
    ordered set of pointers, one definition per critical section); proofs in
    [TimerProofs] and [TimerLifecycle].

    URIs: [Uri] ([http/uri.cc]); proofs in [UriRoundTrip].

    Streams: [Stream] ([stream/stream.cc], [stream/socket_stream.cc]) with the
    classes [Socket] (the calls of [Socket] the program makes) and [SocketLaws]
    (what [recv] and [send] document: at most the requested number of bytes);
    proofs in [StreamProofs].  [SocketStreams] shows that the objects of [Sockets]
    discharge the interface over a lawful kernel.

    Sockets: [Sockets] ([socket/socket.cc]; a state monad over the object, the
    table of descriptor contexts and a kernel, the class [Kernel]); proofs in
    [SocketsProofs].  [Reports] has what sockets and servers print of themselves, and
    cancelling what waits on a socket over [IOManager].

    The server's side: [HttpSession] and [Servlet] ([http/http_session.cc],
    [servlet.cc], [http_server.cc]); proofs in [SessionProofs] and
    [ServerProofs].  [TcpServer] ([tcpserver/tcp_server.cc]); proofs in
    [TcpServerProofs].

    The client's side: [HttpConnection] ([http/http_connection.cc]) with the
    classes [Network] and [NetworkLaws] (resolving, connecting), proofs in
    [ClientProofs] and [ClientExchange]; [ConnectionPool] (same file), whose
    operations are cut at the points where other threads can act, with
    [PoolInvariant] (the step relation of many callers) and [PoolProofs].

    Fibers, in three layers: [ContextSwitch] ([fiber/fcontext/]; the two assembly
    routines as programs of the instructions they use, on a machine with registers
    and bytes of memory, and the module [Contexts], the contract of a switch: a map
    from pointers to what is suspended), proofs in [ContextSwitchProofs];
    [FiberSwitch] ([fiber/fiber.cc] over that contract: context pointers, the current
    fiber of a thread, the code behind each jump, who keeps a fiber alive), proofs in
    [FiberSwitchProofs]; and, for the schedulers, [Fiber] (same file; a callback is a
    tree of the calls it makes, and the saved context is a value that is absent while
    a fiber runs).  The module [FiberLayers] at the end of [FiberSwitchProofs] shows
    that the two agree.

    Concurrency:
    [Scheduler] ([scheduler/scheduler*.cc]; one step per critical section, call
    or context switch), [SchedulerProofs], [SchedulerRuns], [SchedulerOrder];
    [IOManager] ([scheduler/iomanager*.cc]; the table of descriptors, an
    operation in flight is a value of [flight]), [IOManagerProofs],
    [IOManagerRuns], [IOManagerWaking], [IOManagerLifecycle] (constructor and
    destructor); [Hook] ([hook/hook.cc], [socket/fd_manager.cc]; contexts of
    descriptors, the interposed calls, and the loop of [DoIo] with the wait of
    [connect_with_timeout] as a machine with its timers, over the definitions of
    [IOManager], every operation of its own timers and of other threads cut behind
    its critical section), [HookProofs], [FdManagerProofs], [HookFlags] (the non-blocking
    flag as the program sees it); [Sleeping] (the sleeping hooks over [Timer] and
    the queue), [SleepingProofs]; [Mutex] ([mutex.h]; the three locks as one step
    machine over an atomic word), [MutexProofs].

    Addresses: [Address] ([socket/address.cc]; an address is the memory of its
    structure); proofs in [AddressProofs].

    Configuration: [Convert] ([config/convert.h], [config/convert.cc]; the values
    of a type as a dependent type over the types the templates cover, conversion
    from and to nodes over the class [Yaml]), [ConvertProofs]; [ConfigVar]
    ([config/config_var.h]; one variable with its listeners, cut at the critical
    sections of many threads), [ConfigVarProofs]; [Config] ([config/config.cc],
    [utils/fs_utils.cc]; the registry, documents, files and directories),
    [ConfigProofs].

    Logging: [LogFormat] ([logger/formatter.cc], [logger/log_level.cc]; patterns
    and what they print), [LogFormatProofs]; [Logger] ([logger/logger.cc],
    [logger/appender.cc], [logger/log_line.cc], [logger/buffer.h]; loggers,
    appenders, the line and its buffer), [LoggerProofs]; [Appenders]
    ([logger/appender.cc]; the streams and files behind the appenders, with the
    buffers of the C library and a system that may refuse), [AppendersProofs].

    Texts: [StringUtils] ([utils/string_utils.cc]; trimming, URL encoding, UTF-8
    and wide strings), [StringUtilsProofs]; [SystemUtils] ([type_name.h],
    [utils/system_utils.cc], [utils/thread_utils.cc]; names of types and threads,
    backtraces).

    ** What the theorems show

    - Messages: what is printed is parsed back exactly, with whatever follows
      left alone ([request_round_trip], [response_round_trip]); what is accepted
      has the grammar and the framing it claims ([accepted_request_framing],
      [chunked_framing_exactly]); verdicts do not depend on how the bytes were
      cut ([execute_prefix_verdict], [response_prefix_verdict]) and always come
      ([execute_decides], [response_execute_bounds]).
    - Calls of the program through the hooks: a socket looks as if it blocked
      ([flags_look_untouched], [timeout_governs_calls]) - unless the kernel
      refuses a change of its flags ([refused_setfl_shows]) -, sleeps are long enough
      and end ([sleeps_long_enough], [sleeper_wakes]) - though
      [usleep_returns_early] shows how close the bound is - and no descriptor is
      lost ([descriptors_conserved], [descriptors_of_manager]).
    - Connections: requests and responses cross a connection in order and whole
      ([pipelined_requests], [serves_in_order], [recvResponse_behind_interim],
      [client_server_exchange]), receiving ends ([recvResponse_ends]); the answer
      to HEAD announces no length ([head_announces_no_length]).
    - Sharing: who owns what under any interleaving ([pool_ownership],
      [handlers_conserved], [listeners_conserved], [waiting_call_in_one_place],
      [disciplined_never_faults]), what is never lost ([no_wakeup_lost], for tasks
      any thread may take; [stopping_abandons_nothing]; [timeout_ends_wait], if
      [epoll_ctl] does not fail; [pool_callers_finish]),
      and what can be: the runs of [early_wakeup_races], [pinned_wakeup_lost],
      [stale_timer_loses_timeout], [close_misses_waiter], [start_overtakes_stop],
      [cancel_races_with_stop].  A destroyed manager is silent
      ([destroyed_manager_is_silent]), but the fibers that wait in it stay
      ([waiters_leak]).
    - Locks and variables: [mutual_exclusion], [lock_is_taken]; one variable for
      a name ([one_variable_per_name]), listeners that are told every change once
      ([listeners_told_once]) in a chain of changes ([changes_form_chain]) - but
      not always in its order ([last_told_not_last]); what a document does
      ([load_effect]) and that loading it again does nothing
      ([reload_does_nothing]).
    - The ground fibers stand on: the assembly implements the contract of a context
      switch ([routines_implement_contract]), a jump is an ordinary call for its
      caller ([suspended_call_returns]) and enters a new context properly
      ([new_context_enters_function]), in its stack ([first_frame_in_stack]); over
      the contract the pointers of fibers are a stack of fibers per thread
      ([switching_is_calling]) and keep alive what is in use
      ([unheld_fiber_is_at_rest]), and the values the schedulers handle follow them
      ([disciplined_runs_followed]); a fiber resumed too early is the run of
      [early_resume_is_stale].
    - Refinement: [ByteArray] is a flat buffer, the scheduler with one thread a
      round-robin queue ([one_thread_round_robin]; for tasks that are not pinned,
      see [pinned_task_not_preferred]), a request through the pool a
      run of its interleaving ([pool_requests_are_runs]), routing the history of
      registrations ([routing_follows_history]).
    - Data: codecs ([fields_round_trip]), URIs ([uri_print_parse],
      [Create_sound]; not [bracket_host_not_reparsed]), prefixes of addresses bit by bit ([prefix_arithmetic]),
      timers with intervals below 2^63 ms ([timer_lifecycle], [expiry_scan_exact];
      beyond, [recurring_overflow_never_ends]), caches
      ([lazy_caches_never_stale]), values and texts of the configuration
      ([conversion_round_trip], [integer_texts]), wide strings
      ([utf8_wide_inverse]), patterns of the log ([pattern_round_trip]), the
      effect of a record ([submitted_as_announced], [printf_message]) and the file it
      ends up in ([file_holds_records], [make_file_outcomes]) - unless the system
      refuses ([torn_record]) or two appenders share it
      ([shared_file_tears_records]).

    ** Modelling choices

    A [std::string] is a list of bytes, sizes of texts are [nat] or [Z], and an
    integer whose overflow can matter is a [Z] with its wrap-around written out
    ([wrap]).  Objects that are shared are in a store and are named by pointers
    ([positive]).  Assertions and exceptions are error values.  What runs
    concurrently is cut at the boundaries of critical sections, atomic
    operations and calls into other components; step relations say which pieces
    may follow each other, and invariants are proved by induction over runs.
    Memory is sequentially consistent.

    Loops that are not structural carry fuel.  The parser loops are called with
    one more unit than there are bytes in their input, every round consumes a
    byte, and [OutOfFuel] is proved never to be returned.  The receive loops and
    the loop of a server take fuel as an argument: as many units as there are
    reads left and bytes at hand are proved to be enough.  The printing of
    decimals takes the number of bits, the expiry scan of timers the number of
    timers.  [CollectMembers] takes the depth of the document, which is what the
    code recurses on: without a bound - an alias that contains itself - the code
    does not end either.

    Arguments stand for what the repository does not contain: the kernel's
    answers (epoll, accept, the flags and timeouts of a socket), the clock, the
    resolver and the list of interfaces, [fnmatch], [inet_pton]/[inet_ntop], the
    conversion of [std::stringstream], the YAML library and the file system, the
    demangler and the line tables, the order of hashed containers, the answers of
    [fwrite], [fflush] and [fdatasync], the addresses of linked code and the callbacks
    of applications.  Hypotheses on them are the laws of [SocketLaws],
    [TransferLaws], [NetworkLaws], [FlagLaws] and [YamlLaws], or named in the
    statement, and every witness instantiates them.

    ** What is not modelled

    The table of original functions found with [dlsym] is an argument of the
    hooks that says whether a function is there, and the switch of a thread
    another.  Of the assembly of the context switch the branches for shadow stacks,
    transactional memory and the stack protector, which are not compiled in, are left out,
    and so are the flags of the processor and the segment registers.  The trees of
    calls of [Fiber] leave out [resume]s inside fibers, which [FiberSwitch] has; the end
    of a thread, which destroys its main fiber, is in neither.  The texts of assertions and of error reports and
    the branches for other systems are left out.  The spin lock that glibc offers, the identifiers of threads, [fdatasync] and the clock are calls of the
    system. *)

From stdpp Require Export base tactics list option gmap strings.
From Stdlib Require Export ZArith Lia.
From Stdlib Require Export Init.Byte Strings.Byte.

#[global] Open Scope Z_scope.

(** ** Bytes and byte strings

    [char]/[unsigned char] is [Byte.byte], intrinsically 8 bits wide; a
    [std::string] or [std::string_view] is the list of its bytes. *)

Abbreviation byte := Byte.byte.
Abbreviation str := (list Byte.byte).

Declare Scope bytes_scope.
Delimit Scope bytes_scope with bytes.
#[global] Open Scope bytes_scope.

Definition lit (s : string) : str := String.list_byte_of_string s.
Notation "$ s" := (lit s%string) (at level 1, format "$ s") : bytes_scope.

#[export] Instance byte_eq_dec : EqDecision byte := Byte.byte_eq_dec.

#[export] Program Instance byte_countable : Countable byte :=
  inj_countable Byte.to_N Byte.of_N _.
Next Obligation. intros x. apply Byte.of_to_N. Qed.

(** The numeric value of a byte, and the byte a [static_cast] produces. *)
Definition code (b : byte) : Z := Z.of_N (Byte.to_N b).
Definition chr (z : Z) : byte :=
  default Byte.x00 (Byte.of_N (Z.to_N (z mod 256))).

(** The bytes of the CR LF pair, the horizontal tab and the double quote. *)
Definition CR : byte := Byte.x0d.
Definition LF : byte := Byte.x0a.
Definition TAB : byte := Byte.x09.
Definition CRLF : str := [CR; LF].

(** ** Tactics shared by the development *)

(** Proves a property of one byte by evaluating it on all 256. *)
Ltac byte_cases b := destruct b; vm_compute; try done; try (intros; congruence).

(** Splits every boolean conjunction and disjunction of the context. *)
Ltac split_bools :=
  repeat match goal with
  | H : (_ && _)%bool = true |- _ => apply andb_true_iff in H as [? ?]
  | H : (_ || _)%bool = false |- _ => apply orb_false_iff in H as [? ?]
  | H : negb _ = true |- _ => apply negb_true_iff in H
  | H : negb _ = false |- _ => apply negb_false_iff in H
  end.

(** Case analysis on the first scrutinee of the goal, keeping the equation. *)
Ltac case_goal :=
  match goal with
  | |- context [match ?x with _ => _ end] =>
      lazymatch x with
      | context [match _ with _ => _ end] => fail
      | _ => destruct x eqn:?
      end
  end.

(** The same on a hypothesis. *)
Ltac case_in H :=
  match type of H with
  | context [match ?x with _ => _ end] =>
      lazymatch x with
      | context [match _ with _ => _ end] => fail
      | _ => destruct x eqn:?
      end
  end.

(** ** Facts on bytes *)

Lemma code_range b : 0 <= code b < 256.
Proof. unfold code. pose proof (Byte.to_N_bounded b). lia. Qed.

Lemma code_inj b c : code b = code c → b = c.
Proof.
  unfold code. intros H. assert (Byte.to_N b = Byte.to_N c) as E by lia.
  apply (f_equal Byte.of_N) in E. rewrite !Byte.of_to_N in E. congruence.
Qed.

Lemma chr_code b : chr (code b) = b.
Proof.
  unfold chr. rewrite Z.mod_small by apply code_range.
  unfold code. rewrite N2Z.id, Byte.of_to_N. done.
Qed.

Lemma code_chr z : code (chr z) = z mod 256.
Proof.
  unfold chr, code. pose proof (Z.mod_pos_bound z 256 ltac:(lia)) as Hm.
  destruct (Byte.of_N (Z.to_N (z mod 256))) as [b|] eqn:E; simpl.
  - apply Byte.to_of_N in E. rewrite E. lia.
  - apply Byte.of_N_None_iff in E. lia.
Qed.

Lemma code_chr_small z : 0 <= z < 256 → code (chr z) = z.
Proof. intros. rewrite code_chr. by apply Z.mod_small. Qed.

Lemma byte_eqb_eq b c : Byte.eqb b c = true ↔ b = c.
Proof.
  split; [apply Byte.byte_dec_bl|intros ->; apply Byte.byte_dec_lb; done].
Qed.

Lemma byte_eqb_refl b : Byte.eqb b b = true.
Proof. by apply byte_eqb_eq. Qed.

Lemma byte_eqb_neq b c : Byte.eqb b c = false ↔ b ≠ c.
Proof. rewrite <- byte_eqb_eq. by destruct (Byte.eqb b c). Qed.

(** ** Searching and slicing, as [std::string_view] does

    A position that [find] returns is [Some i]; [npos] is [None].  A search
    that starts behind the end finds nothing, as in the C++ library.
    [substr] is used by the code only with a position inside the string. *)

Fixpoint find_char (c : byte) (s : str) : option nat :=
  match s with
  | [] => None
  | b :: s' => if Byte.eqb b c then Some 0%nat else S <$> find_char c s'
  end.

Definition find_char_at (c : byte) (s : str) (pos : nat) : option nat :=
  Nat.add pos <$> find_char c (drop pos s).

Fixpoint rfind_char (c : byte) (s : str) : option nat :=
  match s with
  | [] => None
  | b :: s' =>
      match rfind_char c s' with
      | Some i => Some (S i)
      | None => if Byte.eqb b c then Some 0%nat else None
      end
  end.

Fixpoint starts_with (p s : str) : bool :=
  match p, s with
  | [], _ => true
  | _ :: _, [] => false
  | a :: p', b :: s' => Byte.eqb a b && starts_with p' s'
  end.

Fixpoint find_sub (p s : str) : option nat :=
  if starts_with p s then Some 0%nat
  else match s with
       | [] => None
       | _ :: s' => S <$> find_sub p s'
       end.

Definition find_sub_at (p s : str) (pos : nat) : option nat :=
  Nat.add pos <$> find_sub p (drop pos s).

Definition substr (s : str) (pos n : nat) : str := take n (drop pos s).

Fixpoint str_eqb (s t : str) : bool :=
  match s, t with
  | [], [] => true
  | a :: s', b :: t' => Byte.eqb a b && str_eqb s' t'
  | _, _ => false
  end.

(** [remove_prefix(1)] while the front satisfies [p], and the same at the
    back with [remove_suffix(1)]. *)
Fixpoint drop_front (p : byte → bool) (s : str) : str :=
  match s with
  | b :: s' => if p b then drop_front p s' else s
  | [] => []
  end.

Fixpoint drop_back (p : byte → bool) (s : str) : str :=
  match s with
  | b :: s' =>
      match drop_back p s' with
      | [] => if p b then [] else [b]
      | r => b :: r
      end
  | [] => []
  end.

(** ** Machine integers *)

Definition wrap (w z : Z) : Z := z mod 2 ^ w.
Definition to_signed (w z : Z) : Z :=
  if z <? 2 ^ (w - 1) then z else z - 2 ^ w.
Definition u64_max : Z := 2 ^ 64 - 1.
Definition u32_max : Z := 2 ^ 32 - 1.
Definition u16_max : Z := 2 ^ 16 - 1.
Definition size_max : Z := u64_max.
Definition size (s : str) : Z := Z.of_nat (length s).

(** ** [std::from_chars] and decimal output for unsigned integers *)

Definition digit_value (base : Z) (b : byte) : option Z :=
  let c := code b in
  let d :=
    if (48 <=? c) && (c <=? 57) then Some (c - 48)
    else if (97 <=? c) && (c <=? 122) then Some (c - 97 + 10)
    else if (65 <=? c) && (c <=? 90) then Some (c - 65 + 10)
    else None in
  match d with
  | Some v => if v <? base then Some v else None
  | None => None
  end.

(** The longest run of digits: its value and its length. *)
Fixpoint scan_digits (base acc : Z) (n : nat) (s : str) : Z * nat :=
  match s with
  | [] => (acc, n)
  | b :: s' =>
      match digit_value base b with
      | Some d => scan_digits base (acc * base + d) (S n) s'
      | None => (acc, n)
      end
  end.

(** [from_chars] on a [w]-bit unsigned type: the value and the number of
    characters read, or [None] for [invalid_argument] (no digit) and
    [result_out_of_range] (the value does not fit). *)
Definition from_chars (w base : Z) (s : str) : option (Z * nat) :=
  let '(v, n) := scan_digits base 0 0 s in
  if Nat.eqb n 0 then None
  else if 2 ^ w <=? v then None
  else Some (v, n).

(** [error == std::errc{} && position == end], the check every caller makes. *)
Definition from_chars_all (w base : Z) (s : str) : option Z :=
  match from_chars w base s with
  | Some (v, n) => if Nat.eqb n (length s) then Some v else None
  | None => None
  end.

(** [std::to_string] / [operator<<] of an unsigned integer. *)
Fixpoint dec_digits (fuel : nat) (z : Z) (acc : str) : str :=
  match fuel with
  | O => acc
  | S f =>
      let acc' := chr (48 + z mod 10) :: acc in
      if z <? 10 then acc' else dec_digits f (z / 10) acc'
  end.

Definition to_dec (z : Z) : str := dec_digits (S (Z.to_nat (Z.log2 z))) z [].

(** ** Lemmas on searching *)

Lemma str_eqb_eq s t : str_eqb s t = true ↔ s = t.
Proof.
  revert t. induction s as [|a s IH]; intros [|b t]; simpl; try done.
  rewrite andb_true_iff, byte_eqb_eq, IH. naive_solver.
Qed.

Lemma str_eqb_refl s : str_eqb s s = true.
Proof. by apply str_eqb_eq. Qed.

Lemma str_eqb_neq s t : str_eqb s t = false ↔ s ≠ t.
Proof. rewrite <- str_eqb_eq. by destruct (str_eqb s t). Qed.

Lemma starts_with_spec p s : starts_with p s = true ↔ ∃ r, s = p ++ r.
Proof.
  revert s. induction p as [|a p IH]; intros s; simpl.
  - split; [by exists s|done].
  - destruct s as [|b s]; [naive_solver|].
    rewrite andb_true_iff, byte_eqb_eq, IH. naive_solver.
Qed.

Lemma starts_with_app p r : starts_with p (p ++ r) = true.
Proof. apply starts_with_spec. by exists r. Qed.

Lemma starts_with_length p s :
  starts_with p s = true → (length p ≤ length s)%nat.
Proof. intros [r ->]%starts_with_spec. rewrite length_app. lia. Qed.

Lemma find_char_None c s : find_char c s = None ↔ c ∉ s.
Proof.
  induction s as [|b s IH]; simpl; [split; [set_solver|done]|].
  rewrite not_elem_of_cons.
  destruct (Byte.eqb b c) eqn:E.
  - apply byte_eqb_eq in E as ->. naive_solver.
  - apply byte_eqb_neq in E. rewrite fmap_None, IH. naive_solver.
Qed.

Lemma find_char_Some c s i :
  find_char c s = Some i ↔
  ∃ p r, s = p ++ c :: r ∧ length p = i ∧ c ∉ p.
Proof.
  revert i. induction s as [|b s IH]; intros i; simpl.
  - split; [done|]. by intros ([|??]&?&?&?).
  - destruct (Byte.eqb b c) eqn:E.
    + apply byte_eqb_eq in E as ->. split.
      * intros [= <-]. exists [], s. split_and!; [done..|set_solver].
      * intros ([|d p]&r&Hs&Hl&Hn); simplify_eq/=; [done|]. set_solver.
    + apply byte_eqb_neq in E. rewrite fmap_Some. setoid_rewrite IH. split.
      * intros (j&(p&r&->&<-&Hp)&->).
        exists (b :: p), r. split_and!; [done..|set_solver].
      * intros ([|d p]&r&Hs&Hl&Hn); simplify_eq/=.
        eexists. split; [|done]. exists p, r.
        split_and!; [done..|set_solver].
Qed.

Lemma find_char_lt c s i : find_char c s = Some i → (i < length s)%nat.
Proof.
  intros (p&r&->&<-&_)%find_char_Some. rewrite length_app. simpl. lia.
Qed.

Lemma find_char_app_l c s t i :
  find_char c s = Some i → find_char c (s ++ t) = Some i.
Proof.
  rewrite !find_char_Some. intros (p&r&->&?&?).
  exists p, (r ++ t). by rewrite <- app_assoc.
Qed.

Lemma find_char_skip c p r :
  c ∉ p → find_char c (p ++ r) = Nat.add (length p) <$> find_char c r.
Proof.
  induction p as [|b p IH]; simpl; intros Hc.
  - by destruct (find_char c r).
  - apply not_elem_of_cons in Hc as [Hb Hp].
    rewrite (proj2 (byte_eqb_neq b c)) by congruence.
    rewrite IH by done. by destruct (find_char c r).
Qed.

Lemma find_char_here c p r :
  c ∉ p → find_char c (p ++ c :: r) = Some (length p).
Proof.
  intros. rewrite find_char_skip by done. simpl.
  rewrite byte_eqb_refl. simpl. f_equal. lia.
Qed.

Lemma find_char_at_0 c s : find_char_at c s 0 = find_char c s.
Proof. unfold find_char_at. rewrite drop_0. by destruct (find_char c s). Qed.

Lemma find_char_at_bounds c s pos i :
  find_char_at c s pos = Some i → (pos ≤ i < length s)%nat.
Proof.
  unfold find_char_at. intros (j&Hj&->)%fmap_Some.
  apply find_char_lt in Hj. rewrite length_drop in Hj. lia.
Qed.

Lemma rfind_char_None c s : rfind_char c s = None ↔ c ∉ s.
Proof.
  induction s as [|b s IH]; simpl; [split; [set_solver|done]|].
  rewrite not_elem_of_cons. destruct (rfind_char c s).
  - split; [done|]. intros [_ H]. by apply IH in H.
  - destruct (Byte.eqb b c) eqn:E.
    + apply byte_eqb_eq in E as ->. naive_solver.
    + apply byte_eqb_neq in E. naive_solver.
Qed.

Lemma rfind_char_Some c s i :
  rfind_char c s = Some i ↔
  ∃ p r, s = p ++ c :: r ∧ length p = i ∧ c ∉ r.
Proof.
  revert i. induction s as [|b s IH]; intros i; simpl.
  - split; [done|]. by intros ([|??]&?&?&?).
  - destruct (rfind_char c s) as [j|] eqn:Ej.
    + destruct (proj1 (IH j) eq_refl) as (p&r&->&<-&Hr). split.
      * intros [= <-]. by exists (b :: p), r.
      * intros ([|d q]&r'&Hs&Hl&Hn); simplify_eq/=; [set_solver|].
        f_equal. f_equal. assert (Some (length p) = Some (length q)); [|congruence].
        apply IH. naive_solver.
    + apply rfind_char_None in Ej.
      destruct (Byte.eqb b c) eqn:E.
      * apply byte_eqb_eq in E as ->. split.
        -- intros [= <-]. by exists [], s.
        -- intros ([|d q]&r'&Hs&Hl&Hn); simplify_eq/=; [done|set_solver].
      * apply byte_eqb_neq in E. split; [done|].
        intros ([|d q]&r'&Hs&Hl&Hn); simplify_eq/=. set_solver.
Qed.

Lemma find_sub_bounds p s i :
  find_sub p s = Some i → (i + length p ≤ length s)%nat.
Proof.
  revert i. induction s as [|b s IH]; intros i; simpl.
  - destruct (starts_with p []) eqn:E; [|done].
    apply starts_with_length in E. intros [= <-]. simpl in *. lia.
  - destruct (starts_with p (b :: s)) eqn:E.
    + apply starts_with_length in E. intros [= <-]. simpl in *. lia.
    + intros (j&Hj&->)%fmap_Some. apply IH in Hj. lia.
Qed.

Lemma starts_with_app_l p s t :
  starts_with p s = true → starts_with p (s ++ t) = true.
Proof.
  rewrite !starts_with_spec. intros [r ->]. exists (r ++ t).
  by rewrite app_assoc.
Qed.

Lemma starts_with_app_inv p s t :
  (length p ≤ length s)%nat → starts_with p (s ++ t) = starts_with p s.
Proof.
  revert s. induction p as [|a p IH]; intros [|b s] Hl; simpl in *; try done.
  - lia.
  - f_equal. apply IH. lia.
Qed.

Lemma find_sub_app_l p s t i :
  find_sub p s = Some i → find_sub p (s ++ t) = Some i.
Proof.
  revert i. induction s as [|b s IH]; intros i Hf.
  - simpl in Hf. destruct (starts_with p []) eqn:E; [|done]. simplify_eq.
    apply (starts_with_app_l _ _ t) in E. simpl in E. destruct t; simpl.
    + by rewrite E.
    + by rewrite E.
  - pose proof (find_sub_bounds _ _ _ Hf) as Hb.
    cbn [find_sub] in Hf. change ((b :: s) ++ t) with (b :: (s ++ t)).
    cbn [find_sub]. rewrite <- (starts_with_app_inv p (b :: s) t) in Hf by lia.
    change ((b :: s) ++ t) with (b :: (s ++ t)) in Hf.
    destruct (starts_with p (b :: s ++ t)); [done|].
    apply fmap_Some in Hf as (j&Hj&->). by rewrite (IH _ Hj).
Qed.

Lemma find_sub_here p r : find_sub p (p ++ r) = Some 0%nat.
Proof.
  assert (starts_with p (p ++ r) = true) as H by apply starts_with_app.
  destruct (p ++ r); simpl in *; by rewrite H.
Qed.

(** A pattern that starts with [c] is not found inside a part without [c]. *)
Lemma find_sub_skip c q p r :
  c ∉ p → find_sub (c :: q) (p ++ r) = Nat.add (length p) <$> find_sub (c :: q) r.
Proof.
  induction p as [|b p IH]; intros Hc.
  - simpl. by destruct (find_sub (c :: q) r).
  - apply not_elem_of_cons in Hc as [Hb Hp].
    change ((b :: p) ++ r) with (b :: (p ++ r)). cbn [find_sub starts_with].
    rewrite (proj2 (byte_eqb_neq c b)) by congruence. simpl.
    rewrite IH by done. by destruct (find_sub (c :: q) r).
Qed.

Lemma find_sub_at_here c q p r :
  c ∉ p → find_sub (c :: q) (p ++ c :: q ++ r) = Some (length p).
Proof.
  intros. rewrite find_sub_skip by done.
  change (c :: q ++ r) with ((c :: q) ++ r). rewrite find_sub_here. simpl.
  f_equal. lia.
Qed.

Lemma find_sub_at_bounds p s pos i :
  (pos ≤ length s)%nat →
  find_sub_at p s pos = Some i → (pos ≤ i ∧ i + length p ≤ length s)%nat.
Proof.
  unfold find_sub_at. intros Hpos (j&Hj&->)%fmap_Some.
  apply find_sub_bounds in Hj. rewrite length_drop in Hj. lia.
Qed.

Lemma find_sub_at_app_l p s t pos i :
  (pos ≤ length s)%nat →
  find_sub_at p s pos = Some i → find_sub_at p (s ++ t) pos = Some i.
Proof.
  unfold find_sub_at. intros Hpos (j&Hj&->)%fmap_Some.
  rewrite drop_app_le by done. by rewrite (find_sub_app_l _ _ _ _ Hj).
Qed.

(** Where a match is known to be, the search stops there at the latest. *)
Lemma find_sub_le p s i :
  starts_with p (drop i s) = true →
  ∃ j, find_sub p s = Some j ∧ (j ≤ i)%nat.
Proof.
  revert s. induction i as [|i IH]; intros s Hs.
  - rewrite drop_0 in Hs. exists 0%nat. split; [|done].
    destruct s; simpl in *; by rewrite Hs.
  - destruct s as [|b s].
    + exists 0%nat. simpl in Hs. split; [|lia]. simpl. by rewrite Hs.
    + simpl in Hs. apply IH in Hs as (j&Hj&?). cbn [find_sub].
      destruct (starts_with p (b :: s)); [exists 0%nat; split; [done|lia]|].
      exists (S j). rewrite Hj. split; [done|lia].
Qed.

Lemma find_sub_match p s i :
  find_sub p s = Some i → starts_with p (drop i s) = true.
Proof.
  revert i. induction s as [|b s IH]; intros i; simpl.
  - destruct (starts_with p []) eqn:E; [|done]. by intros [= <-].
  - destruct (starts_with p (b :: s)) eqn:E.
    + by intros [= <-].
    + intros (j&Hj&->)%fmap_Some. by apply IH.
Qed.

Lemma substr_app_l s t pos n :
  (pos + n ≤ length s)%nat → substr (s ++ t) pos n = substr s pos n.
Proof.
  intros. unfold substr. rewrite drop_app_le by lia.
  rewrite take_app_le; [done|]. rewrite length_drop. lia.
Qed.

Lemma length_substr s pos n :
  (pos + n ≤ length s)%nat → length (substr s pos n) = n.
Proof. intros. unfold substr. rewrite length_take, length_drop. lia. Qed.

Lemma substr_at p s r :
  substr (p ++ s ++ r) (length p) (length s) = s.
Proof.
  unfold substr. rewrite drop_app_length, take_app_length. done.
Qed.

(** ** Lemmas on trimming *)

Lemma drop_front_id p s :
  (∀ b s', s = b :: s' → p b = false) → drop_front p s = s.
Proof. destruct s as [|b s]; simpl; [done|]. intros H. by rewrite (H b s). Qed.

Lemma drop_back_app_id p s b : p b = false → drop_back p (s ++ [b]) = s ++ [b].
Proof.
  intros Hb. induction s as [|c s IH]; simpl; [by rewrite Hb|].
  rewrite IH. by destruct s.
Qed.

Lemma drop_back_id p s :
  (∀ b s', s = s' ++ [b] → p b = false) → drop_back p s = s.
Proof.
  induction s as [|b s' _] using rev_ind; [done|].
  intros H. apply drop_back_app_id. by apply (H b s').
Qed.

(** ** Lemmas on integers and decimal text *)

Lemma size_app s t : size (s ++ t) = size s + size t.
Proof. unfold size. rewrite length_app. lia. Qed.

Lemma size_nonneg s : 0 <= size s.
Proof. unfold size. lia. Qed.

(** Clearing the low bits rounds down to a multiple. *)
Lemma land_align w k z :
  0 <= k <= w → 0 <= z < 2 ^ w → Z.land z (Z.ldiff (Z.ones w) (Z.ones k)) = z - z mod 2 ^ k.
Proof.
  intros Hk Hz.
  assert (Z.land z (Z.ones w) = z) as E by (rewrite Z.land_ones by lia; by apply Z.mod_small).
  assert (Z.land z (Z.ldiff (Z.ones w) (Z.ones k)) = Z.ldiff z (Z.ones k)) as ->.
  { rewrite <- E at 2. apply Z.bits_inj'. intros n Hn.
    rewrite Z.land_spec, !Z.ldiff_spec, Z.land_spec. by destruct (Z.testbit z n), (Z.testbit (Z.ones w) n). }
  rewrite Z.ldiff_ones_r, Z.shiftr_div_pow2, Z.shiftl_mul_pow2 by lia.
  pose proof (Z.div_mod z (2 ^ k) ltac:(lia)). lia.
Qed.

Lemma wrap_range w z : 0 <= w → 0 <= wrap w z < 2 ^ w.
Proof. intros. apply Z.mod_pos_bound. by apply Z.pow_pos_nonneg. Qed.

Lemma wrap_small w z : 0 <= z < 2 ^ w → wrap w z = z.
Proof. apply Z.mod_small. Qed.

Lemma digit_value_dec d : 0 <= d < 10 → digit_value 10 (chr (48 + d)) = Some d.
Proof.
  intros. unfold digit_value. rewrite code_chr_small by lia.
  rewrite (proj2 (Z.leb_le 48 (48 + d))) by lia.
  rewrite (proj2 (Z.leb_le (48 + d) 57)) by lia. cbn [andb].
  replace (48 + d - 48) with d by lia.
  by rewrite (proj2 (Z.ltb_lt d 10)) by lia.
Qed.

Lemma scan_digits_app base acc n s t :
  (∀ b, b ∈ s → is_Some (digit_value base b)) →
  scan_digits base acc n (s ++ t) =
  let '(v, m) := scan_digits base acc n s in scan_digits base v m t.
Proof.
  revert acc n. induction s as [|b s IH]; intros acc n Hs; simpl; [done|].
  destruct (Hs b) as [d Hd]; [set_solver|]. rewrite Hd.
  apply IH. set_solver.
Qed.

(** [dec_digits] prepends the digits of [z], so scanning them reads [z]. *)
Lemma scan_dec_digits fuel z acc a n :
  0 <= z < 10 ^ Z.of_nat fuel → (0 < fuel)%nat →
  ∃ k : nat, (0 < k)%nat ∧
    length (dec_digits fuel z acc) = (k + length acc)%nat ∧
    scan_digits 10 a n (dec_digits fuel z acc) =
    scan_digits 10 (a * 10 ^ Z.of_nat k + z) (n + k) acc.
Proof.
  revert z acc a n. induction fuel as [|fuel IH]; intros z acc a n Hz Hf; [lia|].
  cbn [dec_digits]. pose proof (Z.mod_pos_bound z 10 ltac:(lia)).
  destruct (z <? 10) eqn:E.
  - apply Z.ltb_lt in E. exists 1%nat. split_and!; [lia|done|].
    cbn [scan_digits]. rewrite digit_value_dec by lia.
    rewrite Z.mod_small by lia. f_equal; lia.
  - apply Z.ltb_ge in E.
    destruct (decide (fuel = 0%nat)) as [->|Hf0]; [simpl in Hz; lia|].
    rewrite Nat2Z.inj_succ, Z.pow_succ_r in Hz by lia.
    destruct (IH (z / 10) (chr (48 + z mod 10) :: acc) a n)
      as (k&Hk&Hlen&Hs); [|lia|].
    { split; [apply Z.div_pos; lia|apply Z.div_lt_upper_bound; lia]. }
    exists (S k). split_and!; [lia|rewrite Hlen; simpl; lia|].
    rewrite Hs. cbn [scan_digits]. rewrite digit_value_dec by lia.
    rewrite Nat2Z.inj_succ, Z.pow_succ_r by lia.
    replace (n + S k)%nat with (S (n + k)) by lia. f_equal.
    pose proof (Z_div_mod_eq_full z 10). nia.
Qed.

Lemma to_dec_fuel z : 0 <= z → z < 10 ^ Z.of_nat (S (Z.to_nat (Z.log2 z))).
Proof.
  intros Hz. destruct (decide (z = 0)) as [->|]; [done|].
  rewrite Nat2Z.inj_succ, Z2Nat.id by apply Z.log2_nonneg.
  pose proof (Z.log2_spec z ltac:(lia)) as [_ Hlt].
  pose proof (Z.log2_nonneg z).
  assert (2 ^ Z.succ (Z.log2 z) <= 10 ^ Z.succ (Z.log2 z)); [|lia].
  apply Z.pow_le_mono_l. lia.
Qed.

Lemma scan_to_dec z :
  0 <= z →
  ∃ k : nat, (0 < k)%nat ∧ length (to_dec z) = k ∧
    scan_digits 10 0 0 (to_dec z) = (z, k).
Proof.
  intros Hz. unfold to_dec.
  destruct (scan_dec_digits (S (Z.to_nat (Z.log2 z))) z [] 0 0)
    as (k&Hk&Hl&Hs); [split; [done|by apply to_dec_fuel]|lia|].
  exists k. rewrite Hl, Hs. simpl. split_and!; [done|lia|]. f_equal; lia.
Qed.

(** Printing in decimal and reading back is the identity on [w]-bit values. *)
Lemma from_chars_to_dec w z :
  0 <= z < 2 ^ w → from_chars_all w 10 (to_dec z) = Some z.
Proof.
  intros Hz. destruct (scan_to_dec z ltac:(lia)) as (k&Hk&Hl&Hs).
  unfold from_chars_all, from_chars. rewrite Hs, Hl.
  rewrite (proj2 (Nat.eqb_neq k 0)) by lia.
  rewrite (proj2 (Z.leb_gt (2 ^ w) z)) by lia.
  by rewrite Nat.eqb_refl.
Qed.

Lemma to_dec_digits z : 0 <= z → Forall (λ b, is_Some (digit_value 10 b)) (to_dec z).
Proof.
  intros Hz. unfold to_dec.
  assert (∀ fuel z acc, 0 <= z → Forall (λ b, is_Some (digit_value 10 b)) acc →
    Forall (λ b, is_Some (digit_value 10 b)) (dec_digits fuel z acc)) as H.
  { clear. induction fuel as [|fuel IH]; intros z acc Hz Ha; simpl; [done|].
    assert (Forall (λ b, is_Some (digit_value 10 b)) (chr (48 + z mod 10) :: acc)).
    { constructor; [|done]. rewrite digit_value_dec; [by eexists|].
      apply Z.mod_pos_bound. lia. }
    destruct (z <? 10); [done|]. apply IH; [|done]. apply Z.div_pos; lia. }
  by apply H.
Qed.

Lemma from_chars_range w base s v n :
  0 <= base → from_chars w base s = Some (v, n) → 0 <= v < 2 ^ w.
Proof.
  intros Hb. unfold from_chars.
  assert (∀ acc m, 0 <= acc → 0 <= (scan_digits base acc m s).1) as Hpos.
  { induction s as [|b s IH]; intros acc m Ha; simpl; [done|].
    destruct (digit_value base b) as [d|] eqn:Ed; [|done].
    apply IH. assert (0 <= d); [|nia].
    unfold digit_value in Ed. repeat case_in Ed; simplify_eq; lia. }
  specialize (Hpos 0 0%nat ltac:(lia)).
  destruct (scan_digits base 0 0 s) as [v' n'] eqn:E. simpl in Hpos.
  destruct (Nat.eqb n' 0); [done|].
  destruct (2 ^ w <=? v') eqn:El; [done|]. intros [= <- <-]. lia.
Qed.

Lemma from_chars_all_range w base s v :
  0 <= base → from_chars_all w base s = Some v → 0 <= v < 2 ^ w.
Proof.
  intros Hb. unfold from_chars_all.
  destruct (from_chars w base s) as [[v' n]|] eqn:E; [|done].
  destruct (Nat.eqb n (length s)); [|done]. intros [= <-].
  by eapply from_chars_range.
Qed.

Create HintDb droplet discriminated.
#[export] Hint Resolve code_range size_nonneg find_char_lt : droplet.
#[export] Hint Rewrite byte_eqb_refl str_eqb_refl size_app : droplet.
