(* ===== verification/Totals.v ===== *)
(** Totals over the values of a finite map: the list of everything the values
    hold, up to its order, and sums.  Shared by the components in which many
    callers or threads own parts of a common state. *)

From stdpp Require Import gmap.
From S2P Require Import Prelude.

Module Totals.
Section totals.
Context `{Countable K} {V : Type}.
Implicit Types (m : gmap K V) (i : K) (a : V).

Definition collect {B} (f : V → list B) m : list B := mjoin ((λ q, f q.2) <$> map_to_list m).
Definition count (f : V → nat) m : nat := sum_list ((λ q, f q.2) <$> map_to_list m).

Lemma collect_empty {B} (f : V → list B) : collect f ∅ = [].
Proof. unfold collect. by rewrite map_to_list_empty. Qed.
Lemma count_empty f : count f ∅ = 0%nat.
Proof. unfold count. by rewrite map_to_list_empty. Qed.

Lemma collect_insert {B} (f : V → list B) m i a :
  m !! i = None → collect f (<[i := a]> m) ≡ₚ f a ++ collect f m.
Proof. intros E. unfold collect. by rewrite map_to_list_insert by done. Qed.
Lemma count_insert f m i a :
  m !! i = None → count f (<[i := a]> m) = (f a + count f m)%nat.
Proof. intros E. unfold count. by rewrite map_to_list_insert by done. Qed.

(** Takes one value out of the total. *)
Lemma collect_lookup {B} (f : V → list B) m i a :
  m !! i = Some a → collect f m ≡ₚ f a ++ collect f (delete i m).
Proof.
  intros E. rewrite <- (insert_delete_id m i a) at 1 by done.
  apply collect_insert, lookup_delete_eq.
Qed.
Lemma count_lookup f m i a :
  m !! i = Some a → count f m = (f a + count f (delete i m))%nat.
Proof.
  intros E. rewrite <- (insert_delete_id m i a) at 1 by done.
  apply count_insert, lookup_delete_eq.
Qed.

(** The total after one value has been replaced. *)
Lemma collect_update {B} (f : V → list B) m i a :
  collect f (<[i := a]> m) ≡ₚ f a ++ collect f (delete i m).
Proof. rewrite <- insert_delete_eq. apply collect_insert, lookup_delete_eq. Qed.
Lemma count_update f m i a :
  count f (<[i := a]> m) = (f a + count f (delete i m))%nat.
Proof. rewrite <- insert_delete_eq. apply count_insert, lookup_delete_eq. Qed.

Lemma collect_elem {B} (f : V → list B) m b :
  b ∈ collect f m ↔ ∃ i a, m !! i = Some a ∧ b ∈ f a.
Proof.
  unfold collect. rewrite list_elem_of_join. split.
  - intros (l&Hb&Hl). apply list_elem_of_fmap in Hl as ([i a]&->&Hin).
    exists i, a. split; [by apply elem_of_map_to_list|done].
  - intros (i&a&Hi&Hb). exists (f a). split; [done|].
    apply list_elem_of_fmap. exists (i, a). split; [done|]. by apply elem_of_map_to_list.
Qed.
End totals.
End Totals.
