(* ===== verification/Http.v ===== *)
(** HTTP vocabulary ([droplet/src/http/http.cc], [droplet/include/droplet/http/http.h]):
    the request methods and their names, the status codes and their names,
    the case-insensitive order on header names, and [HttpMap], the
    [std::map<std::string, std::string, CaseInsensitiveLess>] that holds
    headers, parameters and cookies. *)

From stdpp Require Import sorting.
From S2P Require Import Prelude.

Module Http.

(** ** Methods *)

Inductive HttpMethod : Set :=
  | DELETE | GET | HEAD | POST | PUT | CONNECT | OPTIONS | TRACE | COPY
  | LOCK | MKCOL | MOVE | PROPFIND | PROPPATCH | SEARCH | UNLOCK | BIND
  | REBIND | UNBIND | ACL | REPORT | MKACTIVITY | CHECKOUT | MERGE | MSEARCH
  | NOTIFY | SUBSCRIBE | UNSUBSCRIBE | PATCH | PURGE | MKCALENDAR | LINK
  | UNLINK | SOURCE | INVALID_METHOD.

#[export] Instance HttpMethod_eq_dec : EqDecision HttpMethod.
Proof. solve_decision. Defined.

(** The enumerators in their order: [static_cast<HttpMethod>(i)] is entry [i]. *)
Definition method_order : list HttpMethod :=
  [DELETE; GET; HEAD; POST; PUT; CONNECT; OPTIONS; TRACE; COPY;
   LOCK; MKCOL; MOVE; PROPFIND; PROPPATCH; SEARCH; UNLOCK; BIND;
   REBIND; UNBIND; ACL; REPORT; MKACTIVITY; CHECKOUT; MERGE; MSEARCH;
   NOTIFY; SUBSCRIBE; UNSUBSCRIBE; PATCH; PURGE; MKCALENDAR; LINK;
   UNLINK; SOURCE; INVALID_METHOD].

Definition kMethodNames : list str :=
  [$"DELETE"; $"GET"; $"HEAD"; $"POST"; $"PUT";
   $"CONNECT"; $"OPTIONS"; $"TRACE"; $"COPY"; $"LOCK";
   $"MKCOL"; $"MOVE"; $"PROPFIND"; $"PROPPATCH"; $"SEARCH";
   $"UNLOCK"; $"BIND"; $"REBIND"; $"UNBIND"; $"ACL";
   $"REPORT"; $"MKACTIVITY"; $"CHECKOUT"; $"MERGE"; $"M-SEARCH";
   $"NOTIFY"; $"SUBSCRIBE"; $"UNSUBSCRIBE"; $"PATCH"; $"PURGE";
   $"MKCALENDAR"; $"LINK"; $"UNLINK"; $"SOURCE"].

(** [std::find] over the names, as the distance from the beginning. *)
Fixpoint find_name (method : str) (names : list str) : option nat :=
  match names with
  | [] => None
  | n :: names' =>
      if str_eqb n method then Some 0%nat else S <$> find_name method names'
  end.

Fixpoint method_position (method : HttpMethod) (l : list HttpMethod) : nat :=
  match l with
  | [] => 0
  | m :: l' => if decide (m = method) then 0 else S (method_position method l')
  end.

Definition StringToHttpMethod (method : str) : HttpMethod :=
  match find_name method kMethodNames with
  | None => INVALID_METHOD
  | Some i => default INVALID_METHOD (method_order !! i)
  end.

Definition CharsToHttpMethod (method : option str) : HttpMethod :=
  match method with
  | None => INVALID_METHOD
  | Some s => StringToHttpMethod s
  end.

Definition HttpMethodToString (method : HttpMethod) : str :=
  let index := method_position method method_order in
  match kMethodNames !! index with
  | Some n => n
  | None => $"INVALID_METHOD"
  end.

(** ** Status codes

    [HttpStatus] is an enumeration over [u16] that the parser also fills with
    numbers that have no enumerator, so a status is its number. *)

Abbreviation HttpStatus := Z.
Definition SWITCHING_PROTOCOLS : HttpStatus := 101.
Definition OK : HttpStatus := 200.
Definition NO_CONTENT : HttpStatus := 204.
Definition FOUND : HttpStatus := 302.
Definition NOT_MODIFIED : HttpStatus := 304.
Definition NOT_FOUND : HttpStatus := 404.
Definition INTERNAL_SERVER_ERROR : HttpStatus := 500.

Definition kStatusNames : list (HttpStatus * str) :=
  [(100, $"Continue"); (101, $"Switching Protocols"); (102, $"Processing");
   (103, $"Early Hints"); (200, $"OK"); (201, $"Created"); (202, $"Accepted");
   (203, $"Non-Authoritative Information"); (204, $"No Content");
   (205, $"Reset Content"); (206, $"Partial Content"); (207, $"Multi-Status");
   (208, $"Already Reported"); (226, $"IM Used"); (300, $"Multiple Choices");
   (301, $"Moved Permanently"); (302, $"Found"); (303, $"See Other");
   (304, $"Not Modified"); (305, $"Use Proxy"); (307, $"Temporary Redirect");
   (308, $"Permanent Redirect"); (400, $"Bad Request");
   (401, $"Unauthorized"); (402, $"Payment Required"); (403, $"Forbidden");
   (404, $"Not Found"); (405, $"Method Not Allowed");
   (406, $"Not Acceptable"); (407, $"Proxy Authentication Required");
   (408, $"Request Timeout"); (409, $"Conflict"); (410, $"Gone");
   (411, $"Length Required"); (412, $"Precondition Failed");
   (413, $"Payload Too Large"); (414, $"URI Too Long");
   (415, $"Unsupported Media Type"); (416, $"Range Not Satisfiable");
   (417, $"Expectation Failed"); (418, $"I'm a Teapot");
   (421, $"Misdirected Request"); (422, $"Unprocessable Entity");
   (423, $"Locked"); (424, $"Failed Dependency"); (425, $"Too Early");
   (426, $"Upgrade Required"); (428, $"Precondition Required");
   (429, $"Too Many Requests"); (431, $"Request Header Fields Too Large");
   (451, $"Unavailable For Legal Reasons"); (500, $"Internal Server Error");
   (501, $"Not Implemented"); (502, $"Bad Gateway");
   (503, $"Service Unavailable"); (504, $"Gateway Timeout");
   (505, $"HTTP Version Not Supported"); (506, $"Variant Also Negotiates");
   (507, $"Insufficient Storage"); (508, $"Loop Detected");
   (510, $"Not Extended"); (511, $"Network Authentication Required")].

Fixpoint find_status (status : HttpStatus) (l : list (HttpStatus * str)) : option str :=
  match l with
  | [] => None
  | (s, n) :: l' => if s =? status then Some n else find_status status l'
  end.

Definition HttpStatusToString (status : HttpStatus) : str :=
  match find_status status kStatusNames with
  | None => $"Unknown"
  | Some n => n
  end.

(** ** The order on names *)

Definition AsciiLower (value : byte) : byte :=
  if (65 <=? code value) && (code value <=? 90)
  then chr (code value + (97 - 65)) else value.

(** [std::lexicographical_compare] with the comparison of lowered bytes. *)
Fixpoint CaseInsensitiveLess (lhs rhs : str) : bool :=
  match lhs, rhs with
  | _, [] => false
  | [], _ :: _ => true
  | l :: lhs', r :: rhs' =>
      if code (AsciiLower l) <? code (AsciiLower r) then true
      else if code (AsciiLower r) <? code (AsciiLower l) then false
      else CaseInsensitiveLess lhs' rhs'
  end.

(** ** [HttpMap]

    A [std::map] as the list of its entries in iteration order.  [find] is
    [lower_bound] followed by the test that the entry found is not greater;
    [insert_or_assign] keeps the spelling of a key that is already there. *)

Abbreviation HttpMap := (list (str * str)).

Fixpoint map_find (key : str) (m : HttpMap) : option str :=
  match m with
  | [] => None
  | (k, v) :: m' =>
      if CaseInsensitiveLess k key then map_find key m'
      else if CaseInsensitiveLess key k then None
      else Some v
  end.

Fixpoint insert_or_assign (key value : str) (m : HttpMap) : HttpMap :=
  match m with
  | [] => [(key, value)]
  | (k, v) :: m' =>
      if CaseInsensitiveLess k key then (k, v) :: insert_or_assign key value m'
      else if CaseInsensitiveLess key k then (key, value) :: m
      else (k, value) :: m'
  end.

Fixpoint try_emplace (key value : str) (m : HttpMap) : HttpMap :=
  match m with
  | [] => [(key, value)]
  | (k, v) :: m' =>
      if CaseInsensitiveLess k key then (k, v) :: try_emplace key value m'
      else if CaseInsensitiveLess key k then (key, value) :: m
      else m
  end.

Fixpoint map_erase (key : str) (m : HttpMap) : HttpMap :=
  match m with
  | [] => []
  | (k, v) :: m' =>
      if CaseInsensitiveLess k key then (k, v) :: map_erase key m'
      else if CaseInsensitiveLess key k then m
      else m'
  end.

(** [detail::CheckGetAs]: the value and whether the key was there and could
    be converted; [convert] is the stream extraction of the type [T]. *)
Definition CheckGetAs {T} (convert : str → option T) (values : HttpMap)
    (key : str) (default_value : T) : bool * T :=
  match map_find key values with
  | None => (false, default_value)
  | Some text =>
      match convert text with
      | None => (false, default_value)
      | Some converted => (true, converted)
      end
  end.

Definition GetAs {T} (convert : str → option T) (values : HttpMap)
    (key : str) (default_value : T) : T :=
  (CheckGetAs convert values key default_value).2.

(** The map invariant: the keys increase strictly, so no two are equivalent. *)
Definition map_wf (m : HttpMap) : Prop :=
  StronglySorted (λ p q, CaseInsensitiveLess p.1 q.1 = true) m.

(** ** Lemmas: the order *)

Definition lower (s : str) : str := AsciiLower <$> s.

(** The names the map identifies. *)
Definition ci_equiv (s t : str) : Prop := lower s = lower t.

#[export] Instance ci_equiv_equivalence : Equivalence ci_equiv.
Proof. unfold ci_equiv. split; [by intros ?|by intros ??|intros ???; congruence]. Qed.

#[export] Instance ci_equiv_dec s t : Decision (ci_equiv s t).
Proof. unfold ci_equiv. apply _. Defined.

Lemma AsciiLower_idemp b : AsciiLower (AsciiLower b) = AsciiLower b.
Proof. byte_cases b. Qed.

Lemma lower_idemp s : lower (lower s) = lower s.
Proof.
  unfold lower. rewrite <- list_fmap_compose. apply list_fmap_ext.
  intros ???. apply AsciiLower_idemp.
Qed.

Lemma length_lower s : length (lower s) = length s.
Proof. apply length_fmap. Qed.

Lemma less_lower s t :
  CaseInsensitiveLess s t = CaseInsensitiveLess (lower s) (lower t).
Proof.
  revert t. induction s as [|a s IH]; intros [|b t]; simpl; try done.
  by rewrite !AsciiLower_idemp, IH.
Qed.

Lemma less_irrefl s : CaseInsensitiveLess s s = false.
Proof. induction s; simpl; [done|]. by rewrite Z.ltb_irrefl. Qed.

Lemma less_trans s t u :
  CaseInsensitiveLess s t = true → CaseInsensitiveLess t u = true →
  CaseInsensitiveLess s u = true.
Proof.
  revert t u. induction s as [|a s IH]; intros [|b t] [|c u]; simpl; try done.
  destruct (Z.ltb_spec (code (AsciiLower a)) (code (AsciiLower b)));
  destruct (Z.ltb_spec (code (AsciiLower b)) (code (AsciiLower a)));
  destruct (Z.ltb_spec (code (AsciiLower b)) (code (AsciiLower c)));
  destruct (Z.ltb_spec (code (AsciiLower c)) (code (AsciiLower b)));
  destruct (Z.ltb_spec (code (AsciiLower a)) (code (AsciiLower c)));
  destruct (Z.ltb_spec (code (AsciiLower c)) (code (AsciiLower a)));
  try lia; try done. apply IH.
Qed.

Lemma less_asym s t :
  CaseInsensitiveLess s t = true → CaseInsensitiveLess t s = false.
Proof.
  intros H. destruct (CaseInsensitiveLess t s) eqn:E; [|done].
  pose proof (less_trans _ _ _ H E) as Hs. by rewrite less_irrefl in Hs.
Qed.

(** Neither name is less exactly when they differ only in case. *)
Lemma less_total s t :
  CaseInsensitiveLess s t = false → CaseInsensitiveLess t s = false →
  ci_equiv s t.
Proof.
  unfold ci_equiv. revert t. induction s as [|a s IH]; intros [|b t]; simpl; try done.
  destruct (Z.ltb_spec (code (AsciiLower a)) (code (AsciiLower b))); [done|].
  destruct (Z.ltb_spec (code (AsciiLower b)) (code (AsciiLower a))); [done|].
  intros H1 H2. unfold lower. simpl. f_equal; [|by apply IH].
  apply code_inj. lia.
Qed.

#[export] Instance less_proper :
  Proper (ci_equiv ==> ci_equiv ==> eq) CaseInsensitiveLess.
Proof.
  intros s s' Hs t t' Ht. rewrite (less_lower s), (less_lower s').
  by rewrite Hs, Ht.
Qed.

Lemma ci_equiv_less_l s t : ci_equiv s t → CaseInsensitiveLess s t = false.
Proof. intros ->. apply less_irrefl. Qed.

Lemma ci_equiv_less_r s t : ci_equiv s t → CaseInsensitiveLess t s = false.
Proof. intros ->. apply less_irrefl. Qed.

(** The three-way case analysis every map operation makes. *)
Lemma less_cases k key :
  (CaseInsensitiveLess k key = true ∧ CaseInsensitiveLess key k = false
     ∧ ¬ ci_equiv k key) ∨
  (CaseInsensitiveLess k key = false ∧ CaseInsensitiveLess key k = true
     ∧ ¬ ci_equiv k key) ∨
  (CaseInsensitiveLess k key = false ∧ CaseInsensitiveLess key k = false
     ∧ ci_equiv k key).
Proof.
  destruct (CaseInsensitiveLess k key) eqn:E1.
  - left. split_and!; [done|by apply less_asym|].
    intros H. by rewrite (ci_equiv_less_l _ _ H) in E1.
  - destruct (CaseInsensitiveLess key k) eqn:E2; right; [left|right].
    + split_and!; [done..|]. intros H. by rewrite (ci_equiv_less_r _ _ H) in E2.
    + split_and!; [done..|]. by apply less_total.
Qed.

Ltac compare_keys k key :=
  destruct (less_cases k key) as [(Hkl&Hkr&Hke)|[(Hkl&Hkr&Hke)|(Hkl&Hkr&Hke)]];
  rewrite ?Hkl, ?Hkr.

(** ** Lemmas: [HttpMap] refines a finite map keyed by lowered names *)

Definition absmap (m : HttpMap) : gmap str str :=
  list_to_map ((λ p, (lower p.1, p.2)) <$> m).

Lemma map_wf_nil : map_wf [].
Proof. constructor. Qed.

Lemma map_wf_cons_inv k v m :
  map_wf ((k, v) :: m) →
  map_wf m ∧ ∀ p, p ∈ m → CaseInsensitiveLess k p.1 = true.
Proof.
  intros H. apply StronglySorted_inv in H as [Hm Hall]. split; [done|].
  intros p Hp. rewrite Forall_forall in Hall. by apply Hall.
Qed.

Lemma map_wf_cons k v m :
  map_wf m → (∀ p, p ∈ m → CaseInsensitiveLess k p.1 = true) →
  map_wf ((k, v) :: m).
Proof. intros. constructor; [done|]. by rewrite Forall_forall. Qed.

(** A key below the first entry is not in the map. *)
Lemma absmap_below key m :
  (∀ p, p ∈ m → CaseInsensitiveLess key p.1 = true) →
  absmap m !! lower key = None.
Proof.
  intros H. unfold absmap. apply not_elem_of_list_to_map.
  intros (p&Hp&Hin)%list_elem_of_fmap. apply list_elem_of_fmap in Hin as (q&->&Hq).
  simpl in Hp. pose proof (H q Hq) as Hl.
  rewrite (ci_equiv_less_l key q.1 Hp) in Hl. done.
Qed.

Lemma absmap_cons k v m : absmap ((k, v) :: m) = <[lower k := v]> (absmap m).
Proof. done. Qed.

Lemma map_wf_below key k v m :
  map_wf ((k, v) :: m) → CaseInsensitiveLess key k = true →
  ∀ p, p ∈ (k, v) :: m → CaseInsensitiveLess key p.1 = true.
Proof.
  intros [_ Hm]%map_wf_cons_inv Hk p [->|Hp]%elem_of_cons; [done|].
  eapply less_trans; [done|]. by apply Hm.
Qed.

Lemma map_find_absmap key m :
  map_wf m → map_find key m = absmap m !! lower key.
Proof.
  induction m as [|[k v] m IH]; intros Hwf; [done|].
  pose proof (map_wf_cons_inv _ _ _ Hwf) as [Hm Hall].
  cbn [map_find]. rewrite absmap_cons. compare_keys k key.
  - rewrite lookup_insert_ne by done. by apply IH.
  - symmetry. rewrite <- (absmap_cons k v m).
    by apply absmap_below, (map_wf_below key k v).
  - by rewrite Hke, lookup_insert_eq.
Qed.

(** Entries of the result come from the key inserted or from the map. *)
Lemma insert_or_assign_keys key value m p :
  p ∈ insert_or_assign key value m → p.1 = key ∨ ∃ q, q ∈ m ∧ p.1 = q.1.
Proof.
  induction m as [|[k v] m IH]; cbn [insert_or_assign].
  - rewrite list_elem_of_singleton. intros ->. by left.
  - compare_keys k key; rewrite elem_of_cons; intros [->|Hp].
    + right. exists (k, v). split; [set_solver|done].
    + apply IH in Hp as [?|(q&?&?)]; [by left|right]. exists q. set_solver.
    + by left.
    + right. by exists p.
    + right. exists (k, v). split; [set_solver|done].
    + right. exists p. set_solver.
Qed.

Lemma insert_or_assign_wf key value m :
  map_wf m → map_wf (insert_or_assign key value m).
Proof.
  induction m as [|[k v] m IH]; intros Hwf; cbn [insert_or_assign].
  - apply map_wf_cons; [constructor|]. set_solver.
  - pose proof (map_wf_cons_inv _ _ _ Hwf) as [Hm Hall].
    compare_keys k key.
    + apply map_wf_cons; [by apply IH|].
      intros p [->|(q&Hq&->)]%insert_or_assign_keys; [done|by apply Hall].
    + apply map_wf_cons; [done|]. by eapply map_wf_below.
    + by apply map_wf_cons.
Qed.

Lemma insert_or_assign_absmap key value m :
  map_wf m →
  absmap (insert_or_assign key value m) = <[lower key := value]> (absmap m).
Proof.
  induction m as [|[k v] m IH]; intros Hwf; cbn [insert_or_assign]; [done|].
  pose proof (map_wf_cons_inv _ _ _ Hwf) as [Hm _].
  compare_keys k key; rewrite !absmap_cons.
  - rewrite IH by done. by rewrite insert_insert_ne.
  - done.
  - by rewrite Hke, insert_insert_eq.
Qed.

Lemma try_emplace_keys key value m p :
  p ∈ try_emplace key value m → p.1 = key ∨ p ∈ m.
Proof.
  induction m as [|[k v] m IH]; cbn [try_emplace].
  - rewrite list_elem_of_singleton. intros ->. by left.
  - compare_keys k key; rewrite ?elem_of_cons; naive_solver.
Qed.

Lemma try_emplace_wf key value m : map_wf m → map_wf (try_emplace key value m).
Proof.
  induction m as [|[k v] m IH]; intros Hwf; cbn [try_emplace].
  - apply map_wf_cons; [constructor|]. set_solver.
  - pose proof (map_wf_cons_inv _ _ _ Hwf) as [Hm Hall].
    compare_keys k key; [..|done].
    + apply map_wf_cons; [by apply IH|].
      intros p [->|Hp]%try_emplace_keys; [done|by apply Hall].
    + apply map_wf_cons; [done|]. by eapply map_wf_below.
Qed.

(** [try_emplace] keeps the first value. *)
Lemma try_emplace_absmap key value m :
  map_wf m →
  absmap (try_emplace key value m) =
  match absmap m !! lower key with
  | Some _ => absmap m
  | None => <[lower key := value]> (absmap m)
  end.
Proof.
  induction m as [|[k v] m IH]; intros Hwf; cbn [try_emplace]; [done|].
  pose proof (map_wf_cons_inv _ _ _ Hwf) as [Hm _].
  pose proof (map_find_absmap key _ Hwf) as Hf. cbn [map_find] in Hf.
  compare_keys k key; rewrite ?Hkl, ?Hkr in Hf.
  - rewrite !absmap_cons, IH, lookup_insert_ne by done.
    destruct (absmap m !! lower key); [done|]. by rewrite insert_insert_ne.
  - by rewrite <- Hf.
  - by rewrite <- Hf.
Qed.

Lemma map_erase_sub key m p : p ∈ map_erase key m → p ∈ m.
Proof.
  induction m as [|[k v] m IH]; cbn [map_erase]; [done|].
  compare_keys k key; rewrite ?elem_of_cons; naive_solver.
Qed.

Lemma map_erase_wf key m : map_wf m → map_wf (map_erase key m).
Proof.
  induction m as [|[k v] m IH]; intros Hwf; cbn [map_erase]; [done|].
  pose proof (map_wf_cons_inv _ _ _ Hwf) as [Hm Hall].
  compare_keys k key; [|done..].
  apply map_wf_cons; [by apply IH|].
  intros p Hp%map_erase_sub. by apply Hall.
Qed.

Lemma map_erase_absmap key m :
  map_wf m → absmap (map_erase key m) = delete (lower key) (absmap m).
Proof.
  induction m as [|[k v] m IH]; intros Hwf; cbn [map_erase].
  - unfold absmap. simpl. by rewrite delete_empty.
  - pose proof (map_wf_cons_inv _ _ _ Hwf) as [Hm Hall].
    compare_keys k key; rewrite ?absmap_cons.
    + rewrite IH by done. by rewrite delete_insert_ne.
    + rewrite delete_id; [done|]. rewrite <- (absmap_cons k v m).
      apply absmap_below. by eapply map_wf_below.
    + rewrite Hke, delete_insert_id; [done|]. rewrite <- Hke.
      by apply absmap_below.
Qed.

#[export] Hint Resolve map_wf_nil insert_or_assign_wf try_emplace_wf map_erase_wf
  : droplet.

Lemma map_find_insert key key' value m :
  map_wf m →
  map_find key (insert_or_assign key' value m) =
  if decide (ci_equiv key key') then Some value else map_find key m.
Proof.
  intros. rewrite !map_find_absmap by auto with droplet.
  rewrite insert_or_assign_absmap by done. unfold ci_equiv.
  rewrite lookup_insert. repeat case_decide; congruence.
Qed.

Lemma map_find_erase key key' m :
  map_wf m →
  map_find key (map_erase key' m) =
  if decide (ci_equiv key key') then None else map_find key m.
Proof.
  intros. rewrite !map_find_absmap by auto with droplet.
  rewrite map_erase_absmap by done. unfold ci_equiv.
  rewrite lookup_delete. repeat case_decide; congruence.
Qed.

(** Two well-formed maps with the same entries in the same spelling are the
    same list: an [HttpMap] has one representation. *)
Lemma insert_or_assign_greatest key value m :
  (∀ p, p ∈ m → CaseInsensitiveLess p.1 key = true) →
  insert_or_assign key value m = m ++ [(key, value)].
Proof.
  induction m as [|[k v] m IH]; intros H; cbn [insert_or_assign app]; [done|].
  pose proof (H (k, v) ltac:(set_solver)) as Hk. simpl in Hk.
  rewrite Hk, IH; [done|]. set_solver.
Qed.

(** Inserting the entries of a well-formed map one by one, in order, into the
    empty map rebuilds it. *)
Lemma insert_all_wf m0 m :
  map_wf (m0 ++ m) →
  foldl (λ acc p, insert_or_assign p.1 p.2 acc) m0 m = m0 ++ m.
Proof.
  revert m0. induction m as [|[k v] m IH]; intros m0 Hwf; simpl.
  - by rewrite app_nil_r.
  - rewrite insert_or_assign_greatest.
    + rewrite IH; rewrite <- app_assoc; done.
    + intros p Hp.
      apply (StronglySorted_app_1_elem_of _ _ _ p (k, v) Hwf); set_solver.
Qed.

(** ** Lemmas: methods *)

Lemma StringToHttpMethod_ToString method :
  method ≠ INVALID_METHOD →
  StringToHttpMethod (HttpMethodToString method) = method.
Proof. by destruct method. Qed.

(** ** Lemmas: filtering *)

Lemma map_wf_filter (P : str * str → Prop) `{HP : ∀ p, Decision (P p)} m :
  map_wf m → map_wf (filter P m).
Proof.
  induction m as [|[k v] m IH]; intros H; [constructor|].
  apply map_wf_cons_inv in H as [Hm Hall]. rewrite filter_cons.
  case_decide; [|by apply IH]. apply map_wf_cons; [by apply IH|].
  intros p [_ Hp]%list_elem_of_filter. by apply Hall.
Qed.

Lemma map_find_elem key m v :
  map_wf m → map_find key m = Some v ↔ ∃ k, (k, v) ∈ m ∧ ci_equiv key k.
Proof.
  induction m as [|[k v'] m IH]; intros H; cbn [map_find].
  { split; [done|]. intros (?&?%not_elem_of_nil&_). done. }
  pose proof (map_wf_cons_inv _ _ _ H) as [Hm Hall].
  assert (∀ k' w, (k', w) ∈ m → ci_equiv key k' → CaseInsensitiveLess k key = true) as Hin.
  { intros k' w Hp Hk. rewrite Hk. by apply (Hall (k', w)). }
  compare_keys k key.
  - rewrite IH by done. split.
    + intros (k'&?&?). exists k'. split; [set_solver|done].
    + intros (k'&[Heq|Hp]%elem_of_cons&Hk); [|by exists k'].
      injection Heq as <- <-. exfalso. apply Hke. by symmetry.
  - split; [done|]. intros (k'&[Heq|Hp]%elem_of_cons&Hk).
    + injection Heq as <- <-. exfalso. apply Hke. by symmetry.
    + apply Hin in Hp; [congruence|done].
  - split.
    + intros [= <-]. exists k. split; [set_solver|by symmetry].
    + intros (k'&[Heq|Hp]%elem_of_cons&Hk); [congruence|].
      apply Hin in Hp; [congruence|done].
Qed.

Lemma map_find_filter (P : str → Prop) `{HD : ∀ k, Decision (P k)} key m :
  (∀ k k', ci_equiv k k' → P k ↔ P k') → map_wf m →
  map_find key (filter (λ p, P p.1) m) = if decide (P key) then map_find key m else None.
Proof.
  intros HP Hm. apply option_eq. intros v.
  rewrite map_find_elem by (by apply map_wf_filter).
  case_decide as Hk.
  - rewrite map_find_elem by done. split.
    + intros (k&[_ ?]%list_elem_of_filter&?). by exists k.
    + intros (k&?&He). exists k. split; [|done]. apply list_elem_of_filter.
      split; [|done]. simpl. by rewrite <- (HP key k).
  - split; [|done]. intros (k&[Hp _]%list_elem_of_filter&He). simpl in Hp.
    exfalso. apply Hk. by rewrite (HP key k).
Qed.

(** ** Main theorem *)

(** The header and parameter container is a finite map on names without
    case. On a well-formed container the lookup, [insert_or_assign],
    [try_emplace] and [erase] are the operations of the finite map from
    lowered keys, and the container stays well-formed. *)
Theorem HttpMap_refines_finite_map m key value :
  map_wf m →
  map_find key m = absmap m !! lower key ∧
  (map_wf (insert_or_assign key value m) ∧
   absmap (insert_or_assign key value m) = <[lower key := value]> (absmap m)) ∧
  (map_wf (try_emplace key value m) ∧
   absmap (try_emplace key value m) =
     match absmap m !! lower key with
     | Some _ => absmap m | None => <[lower key := value]> (absmap m) end) ∧
  (map_wf (map_erase key m) ∧
   absmap (map_erase key m) = delete (lower key) (absmap m)).
Proof.
  intros H. split_and!; auto using map_find_absmap, insert_or_assign_wf,
    insert_or_assign_absmap, try_emplace_wf, try_emplace_absmap, map_erase_wf,
    map_erase_absmap.
Qed.

Lemma HttpMap_refines_finite_map_witness :
  let m := insert_or_assign $"Host" $"a" (insert_or_assign $"Accept" $"b" []) in
  map_wf m ∧ map_find $"HOST" m = absmap m !! lower $"HOST".
Proof.
  intros m. assert (map_wf m) as H
    by (do 2 apply insert_or_assign_wf; apply map_wf_nil).
  split; [exact H|]. apply (HttpMap_refines_finite_map m $"HOST" $"x" H).
Defined.

End Http.
