(* ===== verification/HeaderText.v ===== *)
(** Text helpers of the HTTP layer (the anonymous namespaces of
    [droplet/src/http/http_request.cc] and [http_response.cc]): trimming,
    comparison of names without case, and the loop over the parts of a
    separated list, with the [split_on] reference it is proved equal to. *)

From S2P Require Import Prelude Http.
Import Http.

Module HeaderText.

(** ** Comparison and trimming *)

(** [std::equal] over the two ranges with the comparison of lowered bytes. *)
Fixpoint equal_lowered (lhs rhs : str) : bool :=
  match lhs, rhs with
  | l :: lhs', r :: rhs' =>
      Byte.eqb (AsciiLower l) (AsciiLower r) && equal_lowered lhs' rhs'
  | _, _ => true
  end.

Definition CaseInsensitiveEqual (lhs rhs : str) : bool :=
  if negb (Nat.eqb (length lhs) (length rhs)) then false
  else equal_lowered lhs rhs.

Definition is_blank (b : byte) : bool := Byte.eqb b " "%byte || Byte.eqb b TAB.

Definition Trim (value : str) : str := drop_back is_blank (drop_front is_blank value).

(** ** The loop over separated parts

    [for (begin = 0; begin <= input.size(); begin = end + 1)] over the parts
    that end at [separator] or at the end of the input.  The body returns
    from the function ([inl]) or goes on with a new accumulator ([inr]). *)

Section parts.
Context {A R : Type} (separator : byte) (input : str) (body : A → str → R + A).

Fixpoint for_parts (fuel begin : nat) (acc : A) : R + A :=
  match fuel with
  | O => inr acc
  | S fuel' =>
      if (begin <=? length input)%nat then
        let end_ := find_char_at separator input begin in
        let part := substr input begin
          (match end_ with
           | None => (length input - begin)%nat
           | Some e => (e - begin)%nat
           end) in
        match body acc part with
        | inl r => inl r
        | inr acc' =>
            match end_ with
            | None => inr acc'
            | Some e => for_parts fuel' (e + 1) acc'
            end
        end
      else inr acc
  end.

(** The reference: a left fold that can stop early. *)
Fixpoint fold_parts (parts : list str) (acc : A) : R + A :=
  match parts with
  | [] => inr acc
  | p :: parts' =>
      match body acc p with
      | inl r => inl r
      | inr acc' => fold_parts parts' acc'
      end
  end.
End parts.

Fixpoint split_on (c : byte) (s : str) : list str :=
  match s with
  | [] => [[]]
  | b :: s' =>
      if Byte.eqb b c then [] :: split_on c s'
      else match split_on c s' with
           | p :: ps => (b :: p) :: ps
           | [] => [[b]]
           end
  end.

(** The number of iterations is at most one more than the length. *)
Definition each_part {A R} (separator : byte) (input : str)
    (body : A → str → R + A) (acc : A) : R + A :=
  for_parts separator input body (S (length input)) 0 acc.

Definition HeaderContainsToken (header token : str) : bool :=
  match each_part ","%byte header
          (λ (_ : unit) part,
             if CaseInsensitiveEqual (Trim part) token then inl tt else inr tt) tt with
  | inl _ => true
  | inr _ => false
  end.

(** ** Lemmas: comparison *)

Lemma CaseInsensitiveEqual_spec s t :
  CaseInsensitiveEqual s t = true ↔ ci_equiv s t.
Proof.
  unfold CaseInsensitiveEqual, ci_equiv, lower.
  destruct (Nat.eqb_spec (length s) (length t)) as [Hl|Hl]; simpl.
  - revert t Hl. induction s as [|a s IH]; intros [|b t] Hl; simpl in *; [done|lia|lia|].
    rewrite andb_true_iff, byte_eqb_eq, IH by lia.
    split; [intros [? ?]; by f_equal|intros H; by injection H].
  - split; [done|]. intros H%(f_equal length). by rewrite !length_fmap in H.
Qed.

#[export] Instance CaseInsensitiveEqual_proper :
  Proper (ci_equiv ==> ci_equiv ==> eq) CaseInsensitiveEqual.
Proof.
  intros s s' Hs t t' Ht. apply eq_true_iff_eq.
  rewrite !CaseInsensitiveEqual_spec. by rewrite Hs, Ht.
Qed.

Lemma CaseInsensitiveEqual_refl s : CaseInsensitiveEqual s s = true.
Proof. by apply CaseInsensitiveEqual_spec. Qed.

Lemma CaseInsensitiveEqual_false s t :
  CaseInsensitiveEqual s t = false ↔ ¬ ci_equiv s t.
Proof.
  rewrite <- CaseInsensitiveEqual_spec. by destruct (CaseInsensitiveEqual s t).
Qed.

(** ** Lemmas: splitting *)

Lemma split_on_none c s : c ∉ s → split_on c s = [s].
Proof.
  induction s as [|b s IH]; simpl; [done|]. intros [Hb Hs]%not_elem_of_cons.
  rewrite (proj2 (byte_eqb_neq b c)) by congruence. by rewrite IH.
Qed.

Lemma split_on_app c p s : c ∉ p → split_on c (p ++ c :: s) = p :: split_on c s.
Proof.
  induction p as [|b p IH]; simpl; intros Hp.
  - by rewrite byte_eqb_refl.
  - apply not_elem_of_cons in Hp as [Hb Hp].
    rewrite (proj2 (byte_eqb_neq b c)) by congruence. by rewrite IH.
Qed.

Lemma split_on_ne c s : split_on c s ≠ [].
Proof. destruct s as [|b s]; simpl; [done|]. repeat case_match; done. Qed.

Lemma length_split_on c s : (length (split_on c s) ≤ S (length s))%nat.
Proof.
  induction s as [|b s IH]; simpl; [done|].
  destruct (Byte.eqb b c); simpl; [lia|].
  destruct (split_on c s) eqn:E; simpl in *; lia.
Qed.

Lemma for_parts_split {A R} c input (body : A → str → R + A) fuel begin acc :
  (begin ≤ length input)%nat →
  (length (split_on c (drop begin input)) ≤ fuel)%nat →
  for_parts c input body fuel begin acc =
  fold_parts body (split_on c (drop begin input)) acc.
Proof.
  revert begin acc. induction fuel as [|fuel IH]; intros begin acc Hb Hf.
  { destruct (split_on c (drop begin input)) eqn:E; [by apply split_on_ne in E|].
    simpl in Hf. lia. }
  cbn [for_parts]. rewrite (proj2 (Nat.leb_le _ _)) by done.
  unfold find_char_at, substr.
  destruct (find_char c (drop begin input)) as [i|] eqn:E; simpl.
  - apply find_char_Some in E as (p&r&Hd&<-&Hp).
    rewrite Hd, split_on_app in Hf |- * by done. cbn [fold_parts].
    replace (begin + length p - begin)%nat with (length p) by lia.
    rewrite take_app_length.
    assert (drop (begin + length p + 1) input = r) as Hr.
    { replace (begin + length p + 1)%nat with (begin + (length p + 1))%nat by lia.
      rewrite <- drop_drop, Hd, <- drop_drop, drop_app_length. done. }
    assert (length p + 1 ≤ length (drop begin input))%nat as Hl.
    { rewrite Hd, length_app. simpl. lia. }
    rewrite length_drop in Hl.
    destruct (body acc p); [done|]. rewrite IH.
    + by rewrite Hr.
    + lia.
    + rewrite Hr. simpl in Hf. lia.
  - apply find_char_None in E. rewrite split_on_none by done. simpl.
    rewrite take_ge by (rewrite length_drop; lia). by destruct (body acc _).
Qed.

Lemma each_part_split {A R} c input (body : A → str → R + A) acc :
  each_part c input body acc = fold_parts body (split_on c input) acc.
Proof.
  unfold each_part. rewrite for_parts_split; rewrite ?drop_0; [done|lia|].
  apply length_split_on.
Qed.

(** A token is in a header when one of the comma-separated parts, trimmed,
    equals it up to case. *)
Lemma HeaderContainsToken_spec header token :
  HeaderContainsToken header token = true ↔
  ∃ part, part ∈ split_on ","%byte header ∧ ci_equiv (Trim part) token.
Proof.
  unfold HeaderContainsToken. rewrite each_part_split.
  induction (split_on ","%byte header) as [|p ps IH]; simpl.
  - split; [done|]. set_solver.
  - destruct (CaseInsensitiveEqual (Trim p) token) eqn:E.
    + apply CaseInsensitiveEqual_spec in E. split; [|done].
      exists p. split; [set_solver|done].
    + apply CaseInsensitiveEqual_false in E. rewrite IH. set_solver.
Qed.

(** ** Lemmas: trimming *)

Definition trimmed (s : str) : Prop :=
  (∀ b s', s = b :: s' → is_blank b = false) ∧
  (∀ b s', s = s' ++ [b] → is_blank b = false).

Lemma Trim_id s : trimmed s → Trim s = s.
Proof.
  intros [Hf Hb]. unfold Trim. rewrite drop_front_id by done.
  by apply drop_back_id.
Qed.

Lemma Trim_blank_front b s : is_blank b = true → Trim (b :: s) = Trim s.
Proof. intros Hb. unfold Trim. simpl. by rewrite Hb. Qed.

Lemma drop_front_sub p s : ∃ pre, s = pre ++ drop_front p s ∧ Forall (λ b, p b = true) pre.
Proof.
  induction s as [|b s (pre&E&Hpre)]; simpl; [by exists []|].
  destruct (p b) eqn:Hb; [|by exists []].
  exists (b :: pre). split; [simpl; congruence|by constructor].
Qed.

Lemma drop_front_first p s b s' : drop_front p s = b :: s' → p b = false.
Proof.
  induction s as [|c s IH]; simpl; [done|]. destruct (p c) eqn:E; [done|congruence].
Qed.

Lemma drop_back_sub p s : ∃ post, s = drop_back p s ++ post.
Proof.
  induction s as [|b s (post&E)]; simpl; [by exists []|].
  destruct (drop_back p s) as [|c r].
  - destruct (p b); [by exists (b :: s)|exists s; done].
  - exists post. simpl. by rewrite E at 1.
Qed.

Lemma drop_back_last p s b s' : drop_back p s = s' ++ [b] → p b = false.
Proof.
  revert s'. induction s as [|c s IH]; simpl; intros s' H.
  { by apply app_cons_not_nil in H. }
  destruct (drop_back p s) as [|d r] eqn:E.
  - destruct (p c) eqn:Ec; [by apply app_cons_not_nil in H|].
    destruct s' as [|? [|??]]; [by injection H as <-|done|done].
  - destruct s' as [|? s'']; [done|]. injection H as <- H. by eapply IH.
Qed.

Lemma Trim_trimmed s : trimmed (Trim s).
Proof.
  unfold Trim. split.
  - intros b s' E. destruct (drop_back_sub is_blank (drop_front is_blank s)) as [post Hp].
    rewrite E in Hp. by eapply drop_front_first.
  - intros b s' E. by eapply drop_back_last.
Qed.

Lemma Trim_elem b s : b ∈ Trim s → b ∈ s.
Proof.
  unfold Trim. intros H.
  destruct (drop_front_sub is_blank s) as (pre&E&_).
  destruct (drop_back_sub is_blank (drop_front is_blank s)) as [post Hp].
  rewrite E, Hp. set_solver.
Qed.

Lemma Trim_idemp s : Trim (Trim s) = Trim s.
Proof. apply Trim_id, Trim_trimmed. Qed.

End HeaderText.
