(* ===== verification/HttpResponse.v ===== *)
(** The response data model ([droplet/src/http/http_response.cc],
    [droplet/include/droplet/http/http_response.h]): the fields, their
    accessors, the cookie formatter with its HTTP date, the connection
    semantics and the serializer. *)

From S2P Require Import Prelude Http HeaderText.
Import Http HeaderText.

Module Response.

Record HttpResponse := mkHttpResponse {
  status : HttpStatus;
  version : Z;
  close : bool;
  websocket : bool;
  body : str;
  reason : str;
  headers : HttpMap;
  cookies : list str;
}.

(** [HttpResponse(version, close)]; the other members have their initializers. *)
Definition make (version : Z) (close : bool) : HttpResponse :=
  mkHttpResponse OK version close false [] [] [] [].

Definition setStatus (v : HttpStatus) (r : HttpResponse) : HttpResponse :=
  mkHttpResponse v (version r) (close r) (websocket r) (body r) (reason r)
    (headers r) (cookies r).
Definition setVersion (v : Z) (r : HttpResponse) : HttpResponse :=
  mkHttpResponse (status r) v (close r) (websocket r) (body r) (reason r)
    (headers r) (cookies r).
Definition setClose (v : bool) (r : HttpResponse) : HttpResponse :=
  mkHttpResponse (status r) (version r) v (websocket r) (body r) (reason r)
    (headers r) (cookies r).
Definition setWebsocket (v : bool) (r : HttpResponse) : HttpResponse :=
  mkHttpResponse (status r) (version r) (close r) v (body r) (reason r)
    (headers r) (cookies r).
Definition setBody (v : str) (r : HttpResponse) : HttpResponse :=
  mkHttpResponse (status r) (version r) (close r) (websocket r) v (reason r)
    (headers r) (cookies r).
Definition setReason (v : str) (r : HttpResponse) : HttpResponse :=
  mkHttpResponse (status r) (version r) (close r) (websocket r) (body r) v
    (headers r) (cookies r).
Definition setHeaders (v : HttpMap) (r : HttpResponse) : HttpResponse :=
  mkHttpResponse (status r) (version r) (close r) (websocket r) (body r)
    (reason r) v (cookies r).
Definition addCookie (v : str) (r : HttpResponse) : HttpResponse :=
  mkHttpResponse (status r) (version r) (close r) (websocket r) (body r)
    (reason r) (headers r) (cookies r ++ [v]).

(** ** Headers *)

Definition getHeader (key default_value : str) (r : HttpResponse) : str :=
  match map_find key (headers r) with
  | None => default_value
  | Some v => v
  end.

Definition setHeader (key value : str) (r : HttpResponse) : HttpResponse :=
  setHeaders (insert_or_assign key value (headers r)) r.

Definition delHeader (key : str) (r : HttpResponse) : HttpResponse :=
  setHeaders (map_erase key (headers r)) r.

(** The result and what is stored through the [value] pointer, if it is. *)
Definition hasHeader (key : str) (r : HttpResponse) : bool * option str :=
  match map_find key (headers r) with
  | None => (false, None)
  | Some v => (true, Some v)
  end.

(** [checkGetHeaderAs] and [getHeaderAs]; [convert] is the stream extraction. *)
Definition checkGetHeaderAs {T} (convert : str → option T) (key : str) (default_value : T) (r : HttpResponse) : bool * T :=
  CheckGetAs convert (headers r) key default_value.
Definition getHeaderAs {T} (convert : str → option T) (key : str) (default_value : T) (r : HttpResponse) : T :=
  GetAs convert (headers r) key default_value.

Definition setRedirect (uri : str) (r : HttpResponse) : HttpResponse :=
  setHeader $"Location" uri (setStatus FOUND r).

(** ** Cookies *)

(** The broken-down UTC time [gmtime_r] computes from seconds since 1970. *)
Record tm := mkTm {
  tm_year : Z; tm_mon : Z; tm_mday : Z;
  tm_hour : Z; tm_min : Z; tm_sec : Z; tm_wday : Z
}.

Definition gmtime (t : Z) : tm :=
  let days := t / 86400 in
  let secs := t mod 86400 in
  let z := days + 719468 in
  let era := z / 146097 in
  let doe := z mod 146097 in
  let yoe := (doe - doe / 1460 + doe / 36524 - doe / 146096) / 365 in
  let doy := doe - (365 * yoe + yoe / 4 - yoe / 100) in
  let mp := (5 * doy + 2) / 153 in
  let mon := if mp <? 10 then mp + 3 else mp - 9 in
  mkTm (yoe + era * 400 + (if mon <=? 2 then 1 else 0)) mon
    (doy - (153 * mp + 2) / 5 + 1)
    (secs / 3600) (secs mod 3600 / 60) (secs mod 60) ((days + 4) mod 7).

Definition pad2 (z : Z) : str := if z <? 10 then $"0" ++ to_dec z else to_dec z.

Definition day_names : list str :=
  [$"Sun"; $"Mon"; $"Tue"; $"Wed"; $"Thu"; $"Fri"; $"Sat"].
Definition month_names : list str :=
  [$"Jan"; $"Feb"; $"Mar"; $"Apr"; $"May"; $"Jun"; $"Jul"; $"Aug"; $"Sep";
   $"Oct"; $"Nov"; $"Dec"].

(** [strftime] with ["%a, %d %b %Y %H:%M:%S GMT"] in the C locale. *)
Definition FormatHttpDate (value : Z) : str :=
  let t := gmtime value in
  default [] (day_names !! Z.to_nat (tm_wday t)) ++ $", " ++
  pad2 (tm_mday t) ++ $" " ++
  default [] (month_names !! Z.to_nat (tm_mon t - 1)) ++ $" " ++
  to_dec (tm_year t) ++ $" " ++
  pad2 (tm_hour t) ++ $":" ++ pad2 (tm_min t) ++ $":" ++ pad2 (tm_sec t) ++
  $" GMT".

Definition nonempty (s : str) : bool := negb (Nat.eqb (length s) 0).

Definition setCookie (key value : str) (expires : Z) (path domain : str)
    (secure http_only : bool) (same_site : str) (r : HttpResponse) : HttpResponse :=
  addCookie
    (key ++ $"=" ++ value ++
     (if 0 <? expires then $"; Expires=" ++ FormatHttpDate expires else []) ++
     (if nonempty path then $"; Path=" ++ path else []) ++
     (if nonempty domain then $"; Domain=" ++ domain else []) ++
     (if secure then $"; Secure" else []) ++
     (if http_only then $"; HttpOnly" else []) ++
     (if nonempty same_site then $"; SameSite=" ++ same_site else [])) r.

(** ** Connection semantics *)

Definition initConnection (r : HttpResponse) : HttpResponse :=
  let connection := getHeader $"connection" [] r in
  let r := setClose (version r <=? 0x10) r in
  if HeaderContainsToken connection $"close" then setClose true r
  else if HeaderContainsToken connection $"keep-alive" then setClose false r
  else r.

(** ** Serialization *)

Definition ResponseAllowsBody (status : HttpStatus) : bool :=
  negb ((100 <=? status) && (status <? 200)) &&
  negb (status =? NO_CONTENT) && negb (status =? NOT_MODIFIED).

Definition header_line (p : str * str) : str := p.1 ++ $": " ++ p.2 ++ CRLF.

Definition skip_header (websocket : bool) (name : str) : bool :=
  (negb websocket && CaseInsensitiveEqual name $"connection") ||
  (negb websocket && CaseInsensitiveEqual name $"content-length").

Definition dump (r : HttpResponse) : str :=
  let allows_body := ResponseAllowsBody (status r) in
  $"HTTP/" ++ to_dec (Z.shiftr (version r) 4) ++ $"." ++ to_dec (Z.land (version r) 0x0F) ++
  $" " ++ to_dec (status r) ++ $" " ++
  (if nonempty (reason r) then reason r else HttpStatusToString (status r)) ++ CRLF ++
  mjoin ((λ p, if skip_header (websocket r) p.1 then [] else header_line p) <$> headers r) ++
  mjoin ((λ c, $"Set-Cookie: " ++ c ++ CRLF) <$> cookies r) ++
  (if websocket r then []
   else $"Connection: " ++ (if close r then $"close" else $"keep-alive") ++ CRLF ++
        (if allows_body then $"Content-Length: " ++ to_dec (size (body r)) ++ CRLF
         else [])) ++
  CRLF ++ (if allows_body then body r else []).

Definition toString (r : HttpResponse) : str := dump r.

Example FormatHttpDate_rfc :
  FormatHttpDate 784111777 = $"Sun, 06 Nov 1994 08:49:37 GMT".
Proof. vm_compute. reflexivity. Qed.

Example FormatHttpDate_leap :
  FormatHttpDate 951782400 = $"Tue, 29 Feb 2000 00:00:00 GMT".
Proof. vm_compute. reflexivity. Qed.

End Response.
