(* ===== verification/HttpRequest.v ===== *)
(** The request data model ([droplet/src/http/http_request.cc],
    [droplet/include/droplet/http/http_request.h]): the fields and accessors,
    the parameters and cookies that are parsed on first use and cached, URL
    decoding, the connection semantics and the serializer. *)

From S2P Require Import Prelude Http HeaderText HttpResponse.
Import Http HeaderText.

Module Request.

(** ** URL decoding and key-value lists *)

Definition HexValue (value : byte) : Z :=
  let c := code value in
  if (48 <=? c) && (c <=? 57) then c - 48
  else
    let lowered := code (AsciiLower value) in
    if (97 <=? lowered) && (lowered <=? 102) then lowered - 97 + 10 else -1.

(** The loop over [index]; an escape [%hh] with two hexadecimal digits inside
    the text advances by three, everything else by one. *)
Fixpoint UrlDecode (value : str) : str :=
  match value with
  | [] => []
  | c :: rest =>
      if Byte.eqb c "+"%byte then " "%byte :: UrlDecode rest
      else
        match rest with
        | h :: (l :: rest') as rest2 =>
            if Byte.eqb c "%"%byte && (0 <=? HexValue h) && (0 <=? HexValue l)
            then chr (Z.lor (Z.shiftl (HexValue h) 4) (HexValue l)) :: UrlDecode rest'
            else c :: UrlDecode rest
        | _ => c :: UrlDecode rest
        end
  end.

(** The key and the value of one part of a list: [None] when the part or its
    key is empty. *)
Definition parse_pair (trim_parts : bool) (part : str) : option (str * str) :=
  let part := if trim_parts then Trim part else part in
  if Response.nonempty part then
    let equal := find_char "="%byte part in
    let key := match equal with None => part | Some e => substr part 0 e end in
    let value := match equal with None => [] | Some e => drop (e + 1) part end in
    let key := if trim_parts then Trim key else key in
    let value := if trim_parts then Trim value else value in
    if Response.nonempty key then Some (key, value) else None
  else None.

Definition ParseKeyValueList (input : str) (separator : byte) (output : HttpMap)
    (trim_parts : bool) : HttpMap :=
  match each_part (R := Empty_set) separator input
          (λ out part,
             match parse_pair trim_parts part with
             | Some (key, value) =>
                 inr (try_emplace (UrlDecode key) (UrlDecode value) out)
             | None => inr out
             end) output with
  | inl r => match r with end
  | inr out => out
  end.

Definition ShouldSkipHeader (name : str) (websocket has_body : bool) : bool :=
  (negb websocket && CaseInsensitiveEqual name $"connection") ||
  (has_body && CaseInsensitiveEqual name $"content-length").

(** ** The record *)

Record HttpRequest := mkHttpRequest {
  method : HttpMethod;
  version : Z;
  close : bool;
  websocket : bool;
  path : str;
  query : str;
  fragment : str;
  body : str;
  headers : HttpMap;
  params : HttpMap;
  cookies : HttpMap;
  params_initialized : bool;
  cookies_initialized : bool;
}.

Definition make (version : Z) (close : bool) : HttpRequest :=
  mkHttpRequest GET version close false $"/" [] [] [] [] [] [] false false.

Definition createResponse (r : HttpRequest) : Response.HttpResponse :=
  Response.make (version r) (close r).

(** Plain member updates. *)
Definition setMethod (v : HttpMethod) (r : HttpRequest) : HttpRequest :=
  mkHttpRequest v (version r) (close r) (websocket r) (path r) (query r)
    (fragment r) (body r) (headers r) (params r) (cookies r)
    (params_initialized r) (cookies_initialized r).
Definition setVersion (v : Z) (r : HttpRequest) : HttpRequest :=
  mkHttpRequest (method r) v (close r) (websocket r) (path r) (query r)
    (fragment r) (body r) (headers r) (params r) (cookies r)
    (params_initialized r) (cookies_initialized r).
Definition setPath (v : str) (r : HttpRequest) : HttpRequest :=
  mkHttpRequest (method r) (version r) (close r) (websocket r) v (query r)
    (fragment r) (body r) (headers r) (params r) (cookies r)
    (params_initialized r) (cookies_initialized r).
Definition setFragment (v : str) (r : HttpRequest) : HttpRequest :=
  mkHttpRequest (method r) (version r) (close r) (websocket r) (path r) (query r)
    v (body r) (headers r) (params r) (cookies r)
    (params_initialized r) (cookies_initialized r).
Definition setClose (v : bool) (r : HttpRequest) : HttpRequest :=
  mkHttpRequest (method r) (version r) v (websocket r) (path r) (query r)
    (fragment r) (body r) (headers r) (params r) (cookies r)
    (params_initialized r) (cookies_initialized r).
Definition setWebsocket (v : bool) (r : HttpRequest) : HttpRequest :=
  mkHttpRequest (method r) (version r) (close r) v (path r) (query r)
    (fragment r) (body r) (headers r) (params r) (cookies r)
    (params_initialized r) (cookies_initialized r).

(** [params_.clear(); params_initialized_ = false], and for the cookies. *)
Definition clear_params (r : HttpRequest) : HttpRequest :=
  mkHttpRequest (method r) (version r) (close r) (websocket r) (path r) (query r)
    (fragment r) (body r) (headers r) [] (cookies r) false (cookies_initialized r).
Definition clear_cookies (r : HttpRequest) : HttpRequest :=
  mkHttpRequest (method r) (version r) (close r) (websocket r) (path r) (query r)
    (fragment r) (body r) (headers r) (params r) [] (params_initialized r) false.
Definition store_headers (v : HttpMap) (r : HttpRequest) : HttpRequest :=
  mkHttpRequest (method r) (version r) (close r) (websocket r) (path r) (query r)
    (fragment r) (body r) v (params r) (cookies r)
    (params_initialized r) (cookies_initialized r).

(** Updates that invalidate a cache. *)
Definition setQuery (v : str) (r : HttpRequest) : HttpRequest :=
  clear_params
    (mkHttpRequest (method r) (version r) (close r) (websocket r) (path r) v
       (fragment r) (body r) (headers r) (params r) (cookies r)
       (params_initialized r) (cookies_initialized r)).
Definition setBody (v : str) (r : HttpRequest) : HttpRequest :=
  clear_params
    (mkHttpRequest (method r) (version r) (close r) (websocket r) (path r) (query r)
       (fragment r) v (headers r) (params r) (cookies r)
       (params_initialized r) (cookies_initialized r)).
Definition setHeaders (v : HttpMap) (r : HttpRequest) : HttpRequest :=
  clear_cookies (clear_params (store_headers v r)).

(** Replacement of the cached maps. *)
Definition setParams (v : HttpMap) (r : HttpRequest) : HttpRequest :=
  mkHttpRequest (method r) (version r) (close r) (websocket r) (path r) (query r)
    (fragment r) (body r) (headers r) v (cookies r) true (cookies_initialized r).
Definition setCookies (v : HttpMap) (r : HttpRequest) : HttpRequest :=
  mkHttpRequest (method r) (version r) (close r) (websocket r) (path r) (query r)
    (fragment r) (body r) (headers r) (params r) v (params_initialized r) true.

(** ** Headers *)

Definition getHeader (key default_value : str) (r : HttpRequest) : str :=
  match map_find key (headers r) with
  | None => default_value
  | Some v => v
  end.

Definition hasHeader (key : str) (r : HttpRequest) : bool * option str :=
  match map_find key (headers r) with
  | None => (false, None)
  | Some v => (true, Some v)
  end.

(** The end of [setHeader] and [delHeader]: the caches the header feeds. *)
Definition invalidate (key : str) (r : HttpRequest) : HttpRequest :=
  let r := if CaseInsensitiveEqual key $"content-type" then clear_params r else r in
  if CaseInsensitiveEqual key $"cookie" then clear_cookies r else r.

Definition setHeader (key value : str) (r : HttpRequest) : HttpRequest :=
  invalidate key (store_headers (insert_or_assign key value (headers r)) r).

Definition delHeader (key : str) (r : HttpRequest) : HttpRequest :=
  invalidate key (store_headers (map_erase key (headers r)) r).

(** ** Lazily parsed parameters and cookies *)

Definition is_form_content_type (content_type_header : str) : bool :=
  let semicolon := find_char ";"%byte content_type_header in
  let content_type :=
    Trim (match semicolon with
          | None => content_type_header
          | Some s => substr content_type_header 0 s
          end) in
  CaseInsensitiveEqual content_type $"application/x-www-form-urlencoded".

Definition initParams (r : HttpRequest) : HttpRequest :=
  if params_initialized r then r
  else
    let p := ParseKeyValueList (query r) "&"%byte [] false in
    let p := if is_form_content_type (getHeader $"content-type" [] r)
             then ParseKeyValueList (body r) "&"%byte p false else p in
    setParams p r.

Definition initCookies (r : HttpRequest) : HttpRequest :=
  if cookies_initialized r then r
  else setCookies (ParseKeyValueList (getHeader $"cookie" [] r) ";"%byte [] true) r.

Definition getParams (r : HttpRequest) : HttpMap * HttpRequest :=
  let r := initParams r in (params r, r).
Definition getCookies (r : HttpRequest) : HttpMap * HttpRequest :=
  let r := initCookies r in (cookies r, r).

Definition getParam (key default_value : str) (r : HttpRequest) : str * HttpRequest :=
  let r := initParams r in
  (match map_find key (params r) with None => default_value | Some v => v end, r).
Definition getCookie (key default_value : str) (r : HttpRequest) : str * HttpRequest :=
  let r := initCookies r in
  (match map_find key (cookies r) with None => default_value | Some v => v end, r).

Definition hasParam (key : str) (r : HttpRequest) : (bool * option str) * HttpRequest :=
  let r := initParams r in
  (match map_find key (params r) with
   | None => (false, None) | Some v => (true, Some v) end, r).
Definition hasCookie (key : str) (r : HttpRequest) : (bool * option str) * HttpRequest :=
  let r := initCookies r in
  (match map_find key (cookies r) with
   | None => (false, None) | Some v => (true, Some v) end, r).

Definition setParam (key value : str) (r : HttpRequest) : HttpRequest :=
  let r := initParams r in setParams (insert_or_assign key value (params r)) r.
Definition setCookie (key value : str) (r : HttpRequest) : HttpRequest :=
  let r := initCookies r in setCookies (insert_or_assign key value (cookies r)) r.
Definition delParam (key : str) (r : HttpRequest) : HttpRequest :=
  let r := initParams r in setParams (map_erase key (params r)) r.
Definition delCookie (key : str) (r : HttpRequest) : HttpRequest :=
  let r := initCookies r in setCookies (map_erase key (cookies r)) r.

(** ** Typed values *)

(** [convert] is the stream extraction of the type; whether there is a value of the
    type, the value or the default, and the request with what has been parsed. *)
Section typed.
Context {T : Type} (convert : str → option T).

Definition checkGetHeaderAs (key : str) (default_value : T) (r : HttpRequest) : bool * T :=
  CheckGetAs convert (headers r) key default_value.
Definition getHeaderAs (key : str) (default_value : T) (r : HttpRequest) : T :=
  GetAs convert (headers r) key default_value.
Definition checkGetParamAs (key : str) (default_value : T) (r : HttpRequest) : (bool * T) * HttpRequest :=
  let r := initParams r in (CheckGetAs convert (params r) key default_value, r).
Definition getParamAs (key : str) (default_value : T) (r : HttpRequest) : T * HttpRequest :=
  let r := initParams r in (GetAs convert (params r) key default_value, r).
Definition checkGetCookieAs (key : str) (default_value : T) (r : HttpRequest) : (bool * T) * HttpRequest :=
  let r := initCookies r in (CheckGetAs convert (cookies r) key default_value, r).
Definition getCookieAs (key : str) (default_value : T) (r : HttpRequest) : T * HttpRequest :=
  let r := initCookies r in (GetAs convert (cookies r) key default_value, r).
End typed.

(** ** Connection semantics *)

Definition initConnection (r : HttpRequest) : HttpRequest :=
  let connection := getHeader $"connection" [] r in
  let r := setClose (version r <=? 0x10) r in
  if HeaderContainsToken connection $"close" then setClose true r
  else if HeaderContainsToken connection $"keep-alive" then setClose false r
  else r.

(** ** Serialization *)

Definition request_target (r : HttpRequest) : str :=
  (if Response.nonempty (path r) then path r else $"/") ++
  (if Response.nonempty (query r) then $"?" ++ query r else []) ++
  (if Response.nonempty (fragment r) then $"#" ++ fragment r else []).

Definition request_line (r : HttpRequest) : str :=
  HttpMethodToString (method r) ++ $" " ++ request_target r ++
  $" HTTP/" ++ to_dec (Z.shiftr (version r) 4) ++ $"." ++
  to_dec (Z.land (version r) 0x0F).

Definition dump (r : HttpRequest) : str :=
  request_line r ++ CRLF ++
  mjoin ((λ p, if ShouldSkipHeader p.1 (websocket r) (Response.nonempty (body r))
               then [] else Response.header_line p) <$> headers r) ++
  (if websocket r then []
   else $"Connection: " ++ (if close r then $"close" else $"keep-alive") ++ CRLF) ++
  (if Response.nonempty (body r)
   then $"Content-Length: " ++ to_dec (size (body r)) ++ CRLF else []) ++
  CRLF ++ body r.

Definition toString (r : HttpRequest) : str := dump r.

(** ** Lemmas: typed values *)

(** The typed accessors look at the text the plain ones return. *)
Lemma typed_accessors {T} (convert : str → option T) key (e : T) d r :
  checkGetHeaderAs convert key e r =
    match hasHeader key r with
    | (true, Some text) => match convert text with Some v => (true, v) | None => (false, e) end
    | _ => (false, e)
    end ∧
  getParamAs Some key d r = getParam key d r ∧ getCookieAs Some key d r = getCookie key d r.
Proof.
  unfold checkGetHeaderAs, hasHeader, getParamAs, getParam, getCookieAs, getCookie, GetAs, CheckGetAs.
  split_and!; by destruct (map_find key _).
Qed.

(** ** Lemmas: key-value lists *)

(** The decoded pairs of a list, in order. *)
Definition decoded_pairs (input : str) (separator : byte) (trim_parts : bool)
    : list (str * str) :=
  (λ p, (UrlDecode p.1, UrlDecode p.2)) <$>
    omap (parse_pair trim_parts) (split_on separator input).

(** The value of the first pair whose key is the one looked for, up to case. *)
Fixpoint first_value (key : str) (l : list (str * str)) : option str :=
  match l with
  | [] => None
  | (k, v) :: l' => if decide (ci_equiv key k) then Some v else first_value key l'
  end.

Lemma ParseKeyValueList_foldl input separator output trim_parts :
  ParseKeyValueList input separator output trim_parts =
  foldl (λ out p, try_emplace p.1 p.2 out) output
    (decoded_pairs input separator trim_parts).
Proof.
  unfold ParseKeyValueList, decoded_pairs. rewrite each_part_split.
  revert output. induction (split_on separator input) as [|p ps IH]; intros output.
  - done.
  - simpl. destruct (parse_pair trim_parts p) as [[k v]|]; apply IH.
Qed.

Lemma foldl_try_emplace_wf l m :
  map_wf m → map_wf (foldl (λ out p, try_emplace p.1 p.2 out) m l).
Proof.
  revert m. induction l as [|p l IH]; intros m Hm; simpl; [done|].
  apply IH. by apply try_emplace_wf.
Qed.

Lemma map_find_try_emplace key key' value m :
  map_wf m →
  map_find key (try_emplace key' value m) =
  match map_find key m with
  | Some v => Some v
  | None => if decide (ci_equiv key key') then Some value else None
  end.
Proof.
  intros. rewrite !map_find_absmap by auto with droplet.
  rewrite try_emplace_absmap by done. unfold ci_equiv.
  destruct (absmap m !! lower key') eqn:E.
  - destruct (absmap m !! lower key) eqn:E'; [done|]. case_decide; congruence.
  - rewrite lookup_insert. repeat case_decide; try congruence.
    + replace (lower key) with (lower key') by done. by rewrite E.
    + by destruct (absmap m !! lower key).
Qed.

Lemma map_find_foldl_try_emplace key l m :
  map_wf m →
  map_find key (foldl (λ out p, try_emplace p.1 p.2 out) m l) =
  match map_find key m with Some v => Some v | None => first_value key l end.
Proof.
  revert m. induction l as [|[k v] l IH]; intros m Hm; simpl.
  - by destruct (map_find key m).
  - rewrite IH by auto with droplet. rewrite map_find_try_emplace by done.
    destruct (map_find key m); [done|]. by case_decide.
Qed.

(** ** Lemmas: URL decoding *)

(** A reference encoder: letters and digits stay, all other bytes are escaped. *)
Definition unreserved (b : byte) : bool :=
  let c := code b in
  ((48 <=? c) && (c <=? 57)) || ((65 <=? c) && (c <=? 90)) ||
  ((97 <=? c) && (c <=? 122)).

Definition hex_digit (d : Z) : byte := chr (if d <? 10 then 48 + d else 55 + d).

Definition url_encode_byte (b : byte) : str :=
  if unreserved b then [b]
  else ["%"%byte; hex_digit (code b / 16); hex_digit (code b mod 16)].

Definition url_encode (s : str) : str := mjoin (url_encode_byte <$> s).

Lemma UrlDecode_plain c s :
  c ≠ "+"%byte → c ≠ "%"%byte → UrlDecode (c :: s) = c :: UrlDecode s.
Proof.
  intros Hp Hq. simpl. rewrite (proj2 (byte_eqb_neq c "+"%byte)) by done.
  rewrite (proj2 (byte_eqb_neq c "%"%byte)) by done. simpl.
  by destruct s as [|? [|??]].
Qed.

Lemma UrlDecode_escape h l s :
  0 <= HexValue h → 0 <= HexValue l →
  UrlDecode ("%"%byte :: h :: l :: s) =
  chr (Z.lor (Z.shiftl (HexValue h) 4) (HexValue l)) :: UrlDecode s.
Proof.
  intros Hh Hl. cbn [UrlDecode]. replace (Byte.eqb "%"%byte "+"%byte) with false by done.
  rewrite byte_eqb_refl, !(proj2 (Z.leb_le 0 _)) by done. done.
Qed.

Lemma unreserved_plain b : unreserved b = true → b ≠ "+"%byte ∧ b ≠ "%"%byte.
Proof. byte_cases b. Qed.

Lemma hex_escape_byte b :
  let h := hex_digit (code b / 16) in
  let l := hex_digit (code b mod 16) in
  (0 <=? HexValue h) && (0 <=? HexValue l) &&
  Byte.eqb (chr (Z.lor (Z.shiftl (HexValue h) 4) (HexValue l))) b = true.
Proof. byte_cases b. Qed.

Lemma UrlDecode_encode_byte b s : UrlDecode (url_encode_byte b ++ s) = b :: UrlDecode s.
Proof.
  unfold url_encode_byte. destruct (unreserved b) eqn:Hu.
  - apply unreserved_plain in Hu as [??]. by apply UrlDecode_plain.
  - pose proof (hex_escape_byte b) as H. cbv zeta in H. split_bools.
    cbn [app]. rewrite UrlDecode_escape by lia.
    f_equal. by apply byte_eqb_eq.
Qed.

Lemma UrlDecode_length_aux n s :
  (length s ≤ n)%nat → (length (UrlDecode s) ≤ length s)%nat.
Proof.
  revert s. induction n as [|n IH]; intros s Hn.
  { destruct s; [done|simpl in Hn; lia]. }
  destruct s as [|c s]; [done|]. simpl in Hn.
  assert (length (UrlDecode s) ≤ length s)%nat by (apply IH; lia).
  cbn [UrlDecode]. destruct (Byte.eqb c "+"%byte); [simpl; lia|].
  destruct s as [|h [|l s']]; [simpl; lia|simpl in *; lia|].
  destruct (Byte.eqb c _ && _ && _); [|simpl in *; lia].
  pose proof (IH s' ltac:(simpl in Hn; lia)). simpl. lia.
Qed.

(** ** Lemmas: the caches *)

Definition fresh_params (r : HttpRequest) : HttpMap := params (initParams (clear_params r)).
Definition fresh_cookies (r : HttpRequest) : HttpMap := cookies (initCookies (clear_cookies r)).

(** A cache that is marked initialized holds what parsing would give now. *)
Definition coherent (r : HttpRequest) : Prop :=
  map_wf (headers r) ∧
  (params_initialized r = true → params r = fresh_params r) ∧
  (cookies_initialized r = true → cookies r = fresh_cookies r).

(** The public operations that do not override the parsed maps. *)
Inductive op :=
  | SetMethod (v : HttpMethod) | SetVersion (v : Z) | SetPath (v : str)
  | SetQuery (v : str) | SetFragment (v : str) | SetBody (v : str)
  | SetClose (v : bool) | SetWebsocket (v : bool)
  | SetHeaders (v : HttpMap) | SetHeader (k v : str) | DelHeader (k : str)
  | InitConnection | GetParams | GetCookies.

Definition apply_op (o : op) (r : HttpRequest) : HttpRequest :=
  match o with
  | SetMethod v => setMethod v r | SetVersion v => setVersion v r
  | SetPath v => setPath v r | SetQuery v => setQuery v r
  | SetFragment v => setFragment v r | SetBody v => setBody v r
  | SetClose v => setClose v r | SetWebsocket v => setWebsocket v r
  | SetHeaders v => setHeaders v r | SetHeader k v => setHeader k v r
  | DelHeader k => delHeader k r | InitConnection => initConnection r
  | GetParams => (getParams r).2 | GetCookies => (getCookies r).2
  end.

(** A map handed over by the caller is a [std::map], hence well-formed. *)
Definition op_wf (o : op) : Prop :=
  match o with SetHeaders v => map_wf v | _ => True end.

(** The part of the state the caches are computed from. *)
Definition same_sources (r r' : HttpRequest) : Prop :=
  headers r = headers r' ∧ query r = query r' ∧ body r = body r'.

Lemma fresh_params_sources r r' :
  same_sources r r' → fresh_params r = fresh_params r'.
Proof.
  unfold fresh_params, initParams, getHeader. simpl. intros (->&->&->). done.
Qed.

Lemma fresh_cookies_sources r r' :
  same_sources r r' → fresh_cookies r = fresh_cookies r'.
Proof. unfold fresh_cookies, initCookies, getHeader. simpl. intros (->&_&_). done. Qed.

Lemma coherent_update r r' :
  coherent r → same_sources r r' →
  params r' = params r → params_initialized r' = params_initialized r →
  cookies r' = cookies r → cookies_initialized r' = cookies_initialized r →
  coherent r'.
Proof.
  intros (Hh&Hp&Hc) Hs Ep Epi Ec Eci. split_and!.
  - destruct Hs as (<-&_&_). done.
  - rewrite Epi, Ep. intros Hi. rewrite Hp by done. by apply fresh_params_sources.
  - rewrite Eci, Ec. intros Hi. rewrite Hc by done. by apply fresh_cookies_sources.
Qed.

(** Dropping a cache keeps coherence whatever happened to its sources. *)
Lemma coherent_clear_params r r' :
  coherent r → headers r = headers r' →
  cookies r' = cookies r → cookies_initialized r' = cookies_initialized r →
  coherent (clear_params r').
Proof.
  intros (Hh&_&Hc) Eh Ec Eci. split_and!; simpl; [by rewrite <- Eh|done|].
  rewrite Eci, Ec. intros Hi. rewrite Hc by done.
  unfold fresh_cookies, initCookies, getHeader. simpl. by rewrite Eh.
Qed.

Lemma getHeader_store key d v r :
  getHeader key d (store_headers v r) = match map_find key v with None => d | Some x => x end.
Proof. done. Qed.

(** Headers that feed no cache may change under the caches. *)
Lemma coherent_headers key v r :
  coherent r → map_wf v →
  (∀ k, ¬ ci_equiv k key → map_find k v = map_find k (headers r)) →
  coherent (invalidate key (store_headers v r)).
Proof.
  intros (Hh&Hp&Hc) Hv Hsame. unfold invalidate.
  destruct (CaseInsensitiveEqual key $"content-type") eqn:Ect;
    destruct (CaseInsensitiveEqual key $"cookie") eqn:Eck;
    try (apply CaseInsensitiveEqual_false in Ect);
    try (apply CaseInsensitiveEqual_false in Eck);
    split_and!; simpl; try done; intros Hi.
  - rewrite Hc by done. unfold fresh_cookies, initCookies, getHeader. simpl.
    rewrite Hsame; [done|]. intros H. apply Eck. by symmetry.
  - rewrite Hp by done. unfold fresh_params, initParams, getHeader. simpl.
    rewrite Hsame; [done|]. intros H. apply Ect. by symmetry.
  - rewrite Hp by done. unfold fresh_params, initParams, getHeader. simpl.
    rewrite Hsame; [done|]. intros H. apply Ect. by symmetry.
  - rewrite Hc by done. unfold fresh_cookies, initCookies, getHeader. simpl.
    rewrite Hsame; [done|]. intros H. apply Eck. by symmetry.
Qed.

Lemma initConnection_shape r : ∃ b, initConnection r = setClose b r.
Proof.
  unfold initConnection. destruct (HeaderContainsToken _ $"close"); [by eexists|].
  destruct (HeaderContainsToken _ $"keep-alive"); by eexists.
Qed.

Lemma initParams_shape r :
  initParams r = r ∨ (params_initialized r = false ∧ initParams r = setParams (fresh_params r) r).
Proof. unfold fresh_params, initParams. destruct (params_initialized r); auto. Qed.

Lemma initCookies_shape r :
  initCookies r = r ∨ (cookies_initialized r = false ∧ initCookies r = setCookies (fresh_cookies r) r).
Proof. unfold fresh_cookies, initCookies. destruct (cookies_initialized r); auto. Qed.

Lemma initParams_coherent r : coherent r → coherent (initParams r).
Proof.
  intros Hr. destruct (initParams_shape r) as [->|[_ ->]]; [done|].
  destruct Hr as (Hh&_&Hc). split_and!; simpl; [done|by intros _|].
  intros Hi. by rewrite Hc.
Qed.

Lemma initCookies_coherent r : coherent r → coherent (initCookies r).
Proof.
  intros Hr. destruct (initCookies_shape r) as [->|[_ ->]]; [done|].
  destruct Hr as (Hh&Hp&_). split_and!; simpl; [done| |by intros _].
  intros Hi. by rewrite Hp.
Qed.

Lemma apply_op_coherent o r : coherent r → op_wf o → coherent (apply_op o r).
Proof.
  intros Hr Ho. destruct o; simpl in *;
    try (by apply (coherent_update r)).
  - by apply (coherent_clear_params r).
  - by apply (coherent_clear_params r).
  - done.
  - apply coherent_headers; [done|destruct Hr as [? _]; auto with droplet|].
    intros k' Hk. rewrite map_find_insert by apply Hr. by rewrite decide_False.
  - apply coherent_headers; [done|destruct Hr as [? _]; auto with droplet|].
    intros k' Hk. rewrite map_find_erase by apply Hr. by rewrite decide_False.
  - destruct (initConnection_shape r) as [b ->]. by apply (coherent_update r).
  - by apply initParams_coherent.
  - by apply initCookies_coherent.
Qed.

Lemma make_coherent v c : coherent (make v c).
Proof. split_and!; [apply map_wf_nil|done..]. Qed.

Lemma ops_coherent ops r :
  coherent r → Forall op_wf ops → coherent (foldl (flip apply_op) r ops).
Proof.
  revert r. induction ops as [|o ops IH]; intros r Hr Ho; simpl; [done|].
  apply Forall_cons in Ho as [??]. apply IH; [|done]. by apply apply_op_coherent.
Qed.

(** ** Main theorems *)

(** The pairs [getParam] looks into, in the order of precedence. *)
Definition param_pairs (r : HttpRequest) : list (str * str) :=
  decoded_pairs (query r) "&"%byte false ++
  (if is_form_content_type (getHeader $"content-type" [] r)
   then decoded_pairs (body r) "&"%byte false else []).

Lemma first_value_app key l1 l2 :
  first_value key (l1 ++ l2) =
  match first_value key l1 with Some v => Some v | None => first_value key l2 end.
Proof. induction l1 as [|[k v] l1 IH]; simpl; [done|]. by case_decide. Qed.

Lemma fresh_params_find key r :
  map_find key (fresh_params r) = first_value key (param_pairs r).
Proof.
  unfold fresh_params, initParams, param_pairs. cbn [params_initialized clear_params].
  change (getHeader $"content-type" [] (clear_params r)) with (getHeader $"content-type" [] r).
  rewrite first_value_app, !ParseKeyValueList_foldl.
  destruct (is_form_content_type _); cbn [params setParams];
    rewrite !map_find_foldl_try_emplace
      by (try apply foldl_try_emplace_wf; apply map_wf_nil);
    cbn [map_find query body clear_params]; by destruct (first_value _ _).
Qed.

Lemma fresh_cookies_find key r :
  map_find key (fresh_cookies r) =
  first_value key (decoded_pairs (getHeader $"cookie" [] r) ";"%byte true).
Proof.
  unfold fresh_cookies, initCookies. cbn [cookies_initialized clear_cookies cookies setCookies].
  by rewrite ParseKeyValueList_foldl, map_find_foldl_try_emplace by apply map_wf_nil.
Qed.

Lemma getParams_fresh r : coherent r → params (initParams r) = fresh_params r.
Proof.
  intros (_&Hp&_). unfold initParams. destruct (params_initialized r) eqn:E; [by apply Hp|].
  done.
Qed.

Lemma getCookies_fresh r : coherent r → cookies (initCookies r) = fresh_cookies r.
Proof.
  intros (_&_&Hc). unfold initCookies. destruct (cookies_initialized r) eqn:E; [by apply Hc|].
  done.
Qed.

(** The lazily parsed parameters and cookies are never stale. After any
    sequence of public operations on a new request, getters in between
    included, [getParam] answers with the first pair of the current query
    string (then, for form content, of the current body) whose decoded key is
    the one asked for up to case, and [getCookie] with the first such pair of
    the current [Cookie] header. *)
Theorem lazy_caches_never_stale v c ops key d :
  Forall op_wf ops →
  let r := foldl (flip apply_op) (make v c) ops in
  (getParam key d r).1 = default d (first_value key (param_pairs r)) ∧
  (getCookie key d r).1 =
    default d (first_value key (decoded_pairs (getHeader $"cookie" [] r) ";"%byte true)).
Proof.
  intros H r. pose proof (ops_coherent ops (make v c) (make_coherent v c) H) as Hr.
  fold r in Hr. unfold getParam, getCookie. cbv zeta. cbn [fst].
  rewrite getParams_fresh, getCookies_fresh by done.
  rewrite fresh_params_find, fresh_cookies_find.
  by destruct (first_value key (param_pairs r)), (first_value key _).
Qed.

Lemma lazy_caches_never_stale_witness :
  let ops := [SetQuery $"a=1&b=2"; GetParams; SetHeader $"Cookie" $"s=1"; GetCookies;
              SetQuery $"b=%33&b=4"; SetHeader $"cookie" $"t=x; s=2"] in
  let r := foldl (flip apply_op) (make 0x11 false) ops in
  (getParam $"B" [] r).1 = $"3" ∧ (getCookie $"s" [] r).1 = $"2".
Proof.
  intros ops r.
  destruct (lazy_caches_never_stale 0x11 false ops $"B" []) as [E _];
    [by repeat constructor|].
  destruct (lazy_caches_never_stale 0x11 false ops $"s" []) as [_ E'];
    [by repeat constructor|].
  fold r in E, E'. rewrite E, E'. split; vm_compute; reflexivity.
Defined.

(** URL decoding undoes percent-encoding, byte for byte, and never makes
    a text longer. *)
Theorem UrlDecode_url_encode s :
  UrlDecode (url_encode s) = s ∧ (length (UrlDecode s) ≤ length s)%nat.
Proof.
  split; [|by apply (UrlDecode_length_aux (length s))].
  induction s as [|b s IH]; [done|].
  change (url_encode (b :: s)) with (url_encode_byte b ++ url_encode s).
  by rewrite UrlDecode_encode_byte, IH.
Qed.

(** The connection is closed after a request exactly when its
    [Connection] header lists the token [close], or lists no [keep-alive] and
    the version is at most HTTP/1.0; nothing else of the request changes. *)
Theorem request_connection_mode r :
  let lists token := ∃ part,
    part ∈ split_on ","%byte (getHeader $"connection" [] r) ∧ ci_equiv (Trim part) token in
  (close (initConnection r) = true ↔
     lists $"close" ∨ (¬ lists $"keep-alive" ∧ version r <= 0x10)) ∧
  setClose (close r) (initConnection r) = r.
Proof.
  cbv zeta. rewrite <- !HeaderContainsToken_spec. unfold initConnection.
  destruct (HeaderContainsToken _ $"close"); [split; [naive_solver|by destruct r]|].
  destruct (HeaderContainsToken _ $"keep-alive"); (split; [|by destruct r]); simpl.
  - naive_solver.
  - rewrite Z.leb_le. naive_solver.
Qed.

End Request.
