(* ===== verification/HttpParser.v ===== *)
(** What the two HTTP parsers share (the anonymous namespace of
    [droplet/src/http/http_parser.cc] and the types of
    [droplet/include/droplet/http/http_parser.h]): error codes, limits,
    character classes, header names and values, lengths and chunk sizes. *)

From S2P Require Import Prelude Http HeaderText.
Import Http HeaderText.

Module ParserText.

Inductive HttpParseError : Set :=
  | NONE | INVALID_METHOD_ERROR | INVALID_REQUEST_TARGET | INVALID_VERSION
  | INVALID_STATUS | INVALID_HEADER | INVALID_CONTENT_LENGTH
  | INVALID_CHUNK_SIZE | UNSUPPORTED_TRANSFER_ENCODING | HEADER_TOO_LARGE
  | BODY_TOO_LARGE.

#[export] Instance HttpParseError_eq_dec : EqDecision HttpParseError.
Proof. solve_decision. Defined.

Definition HttpParseErrorToString (error : HttpParseError) : str :=
  match error with
  | NONE => $"none"
  | INVALID_METHOD_ERROR => $"invalid method"
  | INVALID_REQUEST_TARGET => $"invalid request target"
  | INVALID_VERSION => $"invalid HTTP version"
  | INVALID_STATUS => $"invalid HTTP status"
  | INVALID_HEADER => $"invalid header"
  | INVALID_CONTENT_LENGTH => $"invalid Content-Length"
  | INVALID_CHUNK_SIZE => $"invalid chunk size"
  | UNSUPPORTED_TRANSFER_ENCODING => $"unsupported Transfer-Encoding"
  | HEADER_TOO_LARGE => $"headers too large"
  | BODY_TOO_LARGE => $"body too large"
  end.

Definition kMaxHeaderSize : Z := 64 * 1024.
Definition kMaxBodySize : Z := 64 * 1024 * 1024.

(** How a parse ends before its last statement: [return 0] with nothing set,
    or [setError(error, message); return 0].  [OutOfFuel] is the exhaustion
    of a loop's fuel; it is proved not to happen. *)
Inductive stop :=
  | NeedMore
  | Fail (error : HttpParseError) (message : str)
  | OutOfFuel.

Abbreviation result A := (stop + A)%type.

Notation "'let!' x ':=' e 'in' k" :=
  (match e with inl s => inl s | inr x => k end)
  (at level 200, x pattern, e at level 200, k at level 200) : bytes_scope.

(** ** Characters, names and values *)

Definition separators : str := $"()<>@,;:\/[]?={}" ++ [x22].

Definition IsTokenCharacter (value : byte) : bool :=
  if (code value <=? 0x20) || (0x7F <=? code value) then false
  else negb (existsb (Byte.eqb value) separators).

Definition IsValidHeaderName (name : str) : bool :=
  match name with
  | [] => false
  | _ => forallb IsTokenCharacter name
  end.

Definition invalid_value_character (character : byte) : bool :=
  ((code character <? 0x20) && negb (Byte.eqb character TAB)) ||
  (code character =? 0x7F).

Definition IsValidHeaderValue (value : str) : bool :=
  forallb (λ c, negb (invalid_value_character c)) value.

Definition TrimOptionalWhitespace (value : str) : str :=
  drop_back is_blank (drop_front is_blank value).

(** The comparison by index, with the folding of each byte written out. *)
Fixpoint compare_folded (lhs rhs : str) : bool :=
  match lhs, rhs with
  | l :: lhs', r :: rhs' =>
      let left := if (65 <=? code l) && (code l <=? 90) then code l + (97 - 65) else code l in
      let right := if (65 <=? code r) && (code r <=? 90) then code r + (97 - 65) else code r in
      if negb (left =? right) then false else compare_folded lhs' rhs'
  | _, _ => true
  end.

Definition CaseInsensitiveEqual (lhs rhs : str) : bool :=
  if negb (Nat.eqb (length lhs) (length rhs)) then false
  else compare_folded lhs rhs.

(** ** Lengths, codings and chunk sizes *)

Definition ParseContentLength (value : str) : option Z :=
  let value := TrimOptionalWhitespace value in
  match value with
  | [] => None
  | _ => from_chars_all 64 10 value
  end.

(** [saw_token], [saw_chunked] and [final_chunked] of the loop. *)
Record codings := mkCodings {
  saw_token : bool; saw_chunked : bool; final_chunked : bool
}.

Definition coding_step (st : codings) (part : str) : bool + codings :=
  let token := TrimOptionalWhitespace part in
  match token with
  | [] => inl false
  | _ =>
      let coding :=
        TrimOptionalWhitespace
          (match find_char ";"%byte token with
           | None => token
           | Some semicolon => substr token 0 semicolon
           end) in
      match coding with
      | [] => inl false
      | _ =>
          if saw_chunked st then inl false
          else
            let f := CaseInsensitiveEqual coding $"chunked" in
            inr (mkCodings true f f)
      end
  end.

Definition HeaderContainsFinalChunked (value : str) : bool :=
  match each_part ","%byte value coding_step (mkCodings false false false) with
  | inl r => r
  | inr st => saw_token st && final_chunked st
  end.

Definition ResponseHasNoBody (request_method : HttpMethod) (status : Z) : bool :=
  bool_decide (request_method = HEAD) ||
  (bool_decide (request_method = CONNECT) && (200 <=? status) && (status <? 300)) ||
  ((100 <=? status) && (status <? 200)) || (status =? 204) || (status =? 304).

Definition ParseChunkSize (line : str) : option Z :=
  let line :=
    TrimOptionalWhitespace
      (match find_char ";"%byte line with
       | None => line
       | Some semicolon => substr line 0 semicolon
       end) in
  match line with
  | [] => None
  | _ => from_chars_all 64 16 line
  end.

(** ** Lemmas *)

Lemma TrimOptionalWhitespace_Trim s : TrimOptionalWhitespace s = Trim s.
Proof. done. Qed.

Lemma compare_folded_equal_lowered s t : compare_folded s t = equal_lowered s t.
Proof.
  revert t. induction s as [|a s IH]; intros [|b t]; simpl; try done.
  assert (∀ c, code (AsciiLower c) =
    if (65 <=? code c) && (code c <=? 90) then code c + (97 - 65) else code c) as Hl.
  { intros c. unfold AsciiLower. destruct (_ && _) eqn:E; [|done].
    split_bools. apply code_chr_small. lia. }
  rewrite <- !Hl, IH.
  destruct (Z.eqb_spec (code (AsciiLower a)) (code (AsciiLower b))) as [E|E]; simpl.
  - apply code_inj in E. by rewrite E, byte_eqb_refl.
  - rewrite (proj2 (byte_eqb_neq _ _)); [done|]. congruence.
Qed.

(** The parser's own comparison is the one of the request model. *)
Lemma CaseInsensitiveEqual_eq s t :
  CaseInsensitiveEqual s t = HeaderText.CaseInsensitiveEqual s t.
Proof.
  unfold CaseInsensitiveEqual, HeaderText.CaseInsensitiveEqual.
  by rewrite compare_folded_equal_lowered.
Qed.

Lemma token_char_plain b :
  IsTokenCharacter b = true →
  is_blank b = false ∧ b ≠ CR ∧ b ≠ LF ∧ b ≠ ":"%byte.
Proof. byte_cases b. Qed.

Lemma value_char_plain b :
  invalid_value_character b = false → b ≠ CR ∧ b ≠ LF.
Proof. byte_cases b. Qed.

Lemma header_name_spec name :
  IsValidHeaderName name = true ↔ name ≠ [] ∧ Forall (λ b, IsTokenCharacter b = true) name.
Proof.
  unfold IsValidHeaderName. destruct name as [|b name]; [naive_solver|].
  rewrite forallb_forall. rewrite List.Forall_forall. naive_solver.
Qed.

Lemma header_value_spec value :
  IsValidHeaderValue value = true ↔
  Forall (λ b, invalid_value_character b = false) value.
Proof.
  unfold IsValidHeaderValue. rewrite forallb_forall, List.Forall_forall.
  setoid_rewrite negb_true_iff. done.
Qed.

Lemma header_name_no c name :
  IsValidHeaderName name = true → IsTokenCharacter c = false → c ∉ name.
Proof.
  intros [_ Hn]%header_name_spec Hc Hin. rewrite Forall_forall in Hn.
  apply Hn in Hin. congruence.
Qed.

Lemma header_value_no c value :
  IsValidHeaderValue value = true → invalid_value_character c = true → c ∉ value.
Proof.
  intros Hv%header_value_spec Hc Hin. rewrite Forall_forall in Hv.
  apply Hv in Hin. congruence.
Qed.

(** ** Lemmas: the transfer codings *)

(** The name of the coding of one part: what is before the parameters. *)
Definition coding_name (part : str) : str :=
  let token := Trim part in
  Trim (match find_char ";"%byte token with
        | None => token
        | Some semicolon => substr token 0 semicolon
        end).

Lemma coding_step_spec st part :
  coding_step st part =
  match coding_name part with
  | [] => inl false
  | _ =>
      if saw_chunked st then inl false
      else let f := HeaderText.CaseInsensitiveEqual (coding_name part) $"chunked" in
           inr (mkCodings true f f)
  end.
Proof.
  unfold coding_step, coding_name. rewrite !TrimOptionalWhitespace_Trim.
  destruct (Trim part) as [|b r] eqn:E; [done|].
  rewrite TrimOptionalWhitespace_Trim.
  destruct (Trim (match _ with _ => _ end)) as [|c q]; [done|].
  by rewrite CaseInsensitiveEqual_eq.
Qed.

Lemma fold_codings_spec parts st :
  (∃ r, fold_parts coding_step parts st = inl r ∧ r = false) ∨
  (∃ st', fold_parts coding_step parts st = inr st').
Proof.
  revert st. induction parts as [|p ps IH]; intros st; simpl; [right; by eexists|].
  rewrite coding_step_spec. destruct (coding_name p); [left; by eexists|].
  destruct (saw_chunked st); [left; by eexists|]. cbv zeta. apply IH.
Qed.

Lemma fold_codings_final parts last st :
  saw_chunked st = false →
  (∃ st', fold_parts coding_step (parts ++ [last]) st = inr st' ∧
     final_chunked st' = true) ↔
  ci_equiv (coding_name last) $"chunked" ∧
  Forall (λ p, coding_name p ≠ [] ∧ ¬ ci_equiv (coding_name p) $"chunked") parts.
Proof.
  revert st. induction parts as [|p ps IH]; intros st Hst; cbn [app fold_parts].
  - rewrite coding_step_spec, Hst.
    rewrite <- HeaderText.CaseInsensitiveEqual_spec.
    destruct (coding_name last) as [|c q] eqn:E.
    + split; [by intros (?&?&?)|]. intros [H _]. done.
    + cbv zeta. split.
      * intros (st'&[= <-]&Hf). simpl in Hf. by split.
      * intros [Hc _]. eexists. split; [done|]. simpl. done.
  - rewrite coding_step_spec, Hst, Forall_cons.
    destruct (coding_name p) as [|c q] eqn:E.
    + split; [by intros (?&?&?)|]. intros (_&[H _]&_). done.
    + cbv zeta. rewrite <- E.
      destruct (HeaderText.CaseInsensitiveEqual (coding_name p) $"chunked") eqn:Ec.
      * apply HeaderText.CaseInsensitiveEqual_spec in Ec. split.
        -- intros (st'&Hf&_). destruct ps as [|p' ps]; cbn [app fold_parts] in Hf.
           ++ rewrite coding_step_spec in Hf. cbn [saw_chunked] in Hf.
              by destruct (coding_name last).
           ++ rewrite coding_step_spec in Hf. cbn [saw_chunked] in Hf.
              by destruct (coding_name p').
        -- intros (_&[_ H]&_). done.
      * apply HeaderText.CaseInsensitiveEqual_false in Ec.
        rewrite IH by done. rewrite E in Ec |- *.
        split; [intros [? ?]; by split_and!|by intros (?&_&?)].
Qed.

Lemma fold_codings_flags parts st st' :
  parts ≠ [] → fold_parts coding_step parts st = inr st' → saw_token st' = true.
Proof.
  destruct parts as [|p ps]; [done|]. intros _. simpl. rewrite coding_step_spec.
  destruct (coding_name p); [done|]. destruct (saw_chunked st); [done|]. cbv zeta.
  assert (∀ s : codings, saw_token s = true →
    fold_parts coding_step ps s = inr st' → saw_token st' = true) as H.
  { induction ps as [|q ps IH]; intros s Hs; simpl; [by intros [= <-]|].
    rewrite coding_step_spec. destruct (coding_name q); [done|].
    destruct (saw_chunked s); [done|]. by apply IH. }
  by apply H.
Qed.

(** [chunked] is accepted exactly when it is the last coding, no earlier
    coding is [chunked] and no coding is empty. *)
Lemma HeaderContainsFinalChunked_split value :
  HeaderContainsFinalChunked value = true ↔
  ∃ parts last, split_on ","%byte value = parts ++ [last] ∧
    ci_equiv (coding_name last) $"chunked" ∧
    Forall (λ p, coding_name p ≠ [] ∧ ¬ ci_equiv (coding_name p) $"chunked") parts.
Proof.
  unfold HeaderContainsFinalChunked. rewrite each_part_split.
  pose proof (split_on_ne ","%byte value) as Hne.
  destruct (List.exists_last Hne) as (parts&last&E). rewrite E in Hne |- *.
  pose proof (fold_codings_final parts last (mkCodings false false false) eq_refl) as Hf.
  split.
  - intros H. exists parts, last. split; [done|]. apply Hf.
    destruct (fold_codings_spec (parts ++ [last]) (mkCodings false false false))
      as [(r&Hr&->)|(st'&Hst)]; [by rewrite Hr in H|].
    rewrite Hst in H. split_bools. by exists st'.
  - intros (parts'&last'&Heq&H).
    apply app_inj_2 in Heq as [<- [= <-]]; [|done].
    apply Hf in H as (st'&Hst&Hfin). rewrite Hst, Hfin.
    rewrite (fold_codings_flags _ _ _ Hne Hst). done.
Qed.

(** A [Transfer-Encoding] value selects chunked framing exactly when
    [chunked] is its last coding, no earlier coding is [chunked] and no coding
    in the list is empty. *)
Theorem final_chunked_exactly value :
  HeaderContainsFinalChunked value = true ↔
  ∃ parts last, split_on ","%byte value = parts ++ [last] ∧
    ci_equiv (coding_name last) $"chunked" ∧
    Forall (λ p, coding_name p ≠ [] ∧ ¬ ci_equiv (coding_name p) $"chunked") parts.
Proof. apply HeaderContainsFinalChunked_split. Qed.

End ParserText.
