(* ===== verification/HeaderBlock.v ===== *)
(** What the request and the response parser share: the search for the end of
    the header section, the loop over its lines, the form of a header line,
    and blocks of lines on the wire. *)

From S2P Require Import Prelude Http HeaderText HttpResponse HttpRequest HttpParser.
Import Http HeaderText ParserText.

Module HeaderBlock.

(** ** The end of the header section *)

(** The position of the empty line; [too_large] is the caller's message. *)
Definition find_header_end (too_large : str) (input : str) : result nat :=
  match find_sub (CRLF ++ CRLF) input with
  | None =>
      if kMaxHeaderSize <? size input
      then inl (Fail HEADER_TOO_LARGE too_large) else inl NeedMore
  | Some header_end =>
      if kMaxHeaderSize <? Z.of_nat header_end + 4
      then inl (Fail HEADER_TOO_LARGE too_large) else inr header_end
  end.

(** The end of the first line, which must come before the empty line. *)
Definition find_first_line (incomplete : stop) (input : str) (header_end : nat) : result nat :=
  match find_sub CRLF input with
  | None => inl incomplete
  | Some e => if (header_end <? e)%nat then inl incomplete else inr e
  end.

(** ** One line *)

(** The name before the colon and the trimmed value behind it. *)
Definition split_field (missing invalid : str) (line : str) : result (str * str) :=
  match find_char ":"%byte line with
  | None => inl (Fail INVALID_HEADER missing)
  | Some colon =>
      let name := substr line 0 colon in
      let value := TrimOptionalWhitespace (drop (colon + 1) line) in
      if negb (IsValidHeaderName name) || negb (IsValidHeaderValue value)
      then inl (Fail INVALID_HEADER invalid)
      else inr (name, value)
  end.

(** A header line: not empty, not folded, and with a name and a value. *)
Definition split_header_line (missing invalid : str) (line : str) : result (str * str) :=
  match line with
  | [] => inl (Fail INVALID_HEADER $"empty or folded HTTP header line is not supported")
  | front :: _ =>
      if is_blank front
      then inl (Fail INVALID_HEADER $"empty or folded HTTP header line is not supported")
      else split_field missing invalid line
  end.

(** ** The loop over the lines *)

Section loop.
Context {St : Type} (unterminated : str) (step : str → St → result St).

(** [while (line_begin < header_end)]. *)
Fixpoint header_loop (fuel : nat) (input : str) (header_end line_begin : nat) (st : St)
    : result St :=
  if (line_begin <? header_end)%nat then
    match fuel with
    | O => inl OutOfFuel
    | S fuel' =>
        match find_sub_at CRLF input line_begin with
        | None => inl (Fail INVALID_HEADER unterminated)
        | Some line_end =>
            if (header_end <? line_end)%nat
            then inl (Fail INVALID_HEADER unterminated)
            else
              let line := substr input line_begin (line_end - line_begin) in
              let! st := step line st in
              header_loop fuel' input header_end (line_end + 2) st
        end
    end
  else inr st.

(** The lines one after the other, with early exit. *)
Fixpoint fold_lines (lines : list str) (st : St) : result St :=
  match lines with
  | [] => inr st
  | l :: lines' => let! st' := step l st in fold_lines lines' st'
  end.
End loop.

(** ** Lemmas: the end of the header section *)

Lemma find_sub_app_None p i s h :
  find_sub p i = None → find_sub p (i ++ s) = Some h →
  (length i < h + length p)%nat.
Proof.
  intros Hn Hs. apply Nat.nle_gt. intros Hle.
  pose proof (find_sub_match _ _ _ Hs) as Hm.
  rewrite drop_app_le in Hm by lia.
  rewrite starts_with_app_inv in Hm by (rewrite length_drop; lia).
  apply find_sub_le in Hm as (j&Hj&_). congruence.
Qed.

Lemma find_header_end_stable m i s :
  find_header_end m i ≠ inl NeedMore → find_header_end m (i ++ s) = find_header_end m i.
Proof.
  unfold find_header_end. destruct (find_sub (CRLF ++ CRLF) i) as [h|] eqn:E.
  - by rewrite (find_sub_app_l _ _ s _ E).
  - destruct (kMaxHeaderSize <? size i) eqn:Es; [|done]. intros _.
    apply Z.ltb_lt in Es.
    destruct (find_sub (CRLF ++ CRLF) (i ++ s)) as [h|] eqn:E'.
    + apply (find_sub_app_None _ _ _ _ E) in E'. simpl in E'. unfold size in Es.
      by rewrite (proj2 (Z.ltb_lt _ _)) by lia.
    + rewrite size_app. pose proof (size_nonneg s).
      by rewrite (proj2 (Z.ltb_lt _ _)) by lia.
Qed.

Lemma find_header_end_inr m i h :
  find_header_end m i = inr h →
  find_sub (CRLF ++ CRLF) i = Some h ∧ Z.of_nat h + 4 <= kMaxHeaderSize.
Proof.
  unfold find_header_end. destruct (find_sub _ i) as [h'|].
  - destruct (kMaxHeaderSize <? _) eqn:E; [done|]. intros [= ->]. split; [done|lia].
  - by destruct (kMaxHeaderSize <? _).
Qed.

(** At the end of the headers there is a line end, and room for two. *)
Lemma header_end_facts i h :
  find_sub (CRLF ++ CRLF) i = Some h →
  (h + 4 ≤ length i)%nat ∧ starts_with CRLF (drop h i) = true ∧
  starts_with CRLF (drop (h + 2) i) = true.
Proof.
  intros H. pose proof (find_sub_bounds _ _ _ H). apply find_sub_match in H.
  apply starts_with_spec in H as [r Hr]. split_and!; [simpl in *; lia| |].
  - rewrite Hr, <- app_assoc. apply starts_with_app.
  - rewrite <- drop_drop, Hr, <- app_assoc. apply (starts_with_app CRLF).
Qed.

(** Inside the header section the search for a line end always succeeds. *)
Lemma line_end_found i h begin :
  find_sub (CRLF ++ CRLF) i = Some h → (begin ≤ h)%nat →
  ∃ e, find_sub_at CRLF i begin = Some e ∧ (begin ≤ e ≤ h)%nat.
Proof.
  intros H Hb. apply header_end_facts in H as (Hl&Hs&_).
  replace h with (begin + (h - begin))%nat in Hs by lia.
  rewrite <- drop_drop in Hs. apply find_sub_le in Hs as (j&Hj&?).
  exists (begin + j)%nat. unfold find_sub_at. rewrite Hj. split; [done|lia].
Qed.

Lemma first_line_found i h :
  find_sub (CRLF ++ CRLF) i = Some h →
  ∃ e, find_sub CRLF i = Some e ∧ (e ≤ h)%nat.
Proof.
  intros H. destruct (line_end_found i h 0) as (e&He&?); [done|lia|].
  unfold find_sub_at in He. rewrite drop_0 in He.
  destruct (find_sub CRLF i) as [e'|]; [|done]. exists e'. split; [done|].
  simpl in He. injection He as <-. lia.
Qed.

Lemma find_first_line_stable x i s h :
  find_sub (CRLF ++ CRLF) i = Some h →
  find_first_line x (i ++ s) h = find_first_line x i h.
Proof.
  intros Hh. destruct (first_line_found i h Hh) as (e&He&?).
  unfold find_first_line. by rewrite He, (find_sub_app_l _ _ s _ He).
Qed.

Lemma find_first_line_inr x i h :
  find_sub (CRLF ++ CRLF) i = Some h →
  ∃ e, find_first_line x i h = inr e ∧ find_sub CRLF i = Some e ∧ (e ≤ h)%nat.
Proof.
  intros Hh. destruct (first_line_found i h Hh) as (e&He&?).
  exists e. unfold find_first_line. rewrite He, (proj2 (Nat.ltb_ge _ _)) by lia. done.
Qed.

(** ** Lemmas: the header loop *)

Section loop_lemmas.
Context {St : Type} (unterminated : str) (step : str → St → result St).
Local Abbreviation loop := (header_loop unterminated step).

Lemma header_loop_unfold fuel i h begin st e :
  (begin < h)%nat → find_sub_at CRLF i begin = Some e → (e ≤ h)%nat →
  loop (S fuel) i h begin st =
  (let! st' := step (substr i begin (e - begin)) st in loop fuel i h (e + 2) st').
Proof.
  intros Hb He Hle. cbn [header_loop]. rewrite (proj2 (Nat.ltb_lt _ _)) by done.
  rewrite He. by rewrite (proj2 (Nat.ltb_ge _ _)) by lia.
Qed.

Lemma header_loop_done fuel i h begin st :
  (h ≤ begin)%nat → loop fuel i h begin st = inr st.
Proof.
  intros H. destruct fuel; cbn [header_loop];
    by rewrite (proj2 (Nat.ltb_ge _ _)) by lia.
Qed.

(** The loop is the fold over the lines it finds: whatever a property of the
    outcomes of a step, the loop has it. *)
Lemma header_loop_outcome (P : stop → Prop) fuel i h begin st :
  (∀ line st s, step line st = inl s → P s) →
  find_sub (CRLF ++ CRLF) i = Some h → (h ≤ begin + fuel)%nat →
  ∀ s, loop fuel i h begin st = inl s → P s.
Proof.
  intros Hstep H. revert begin st. induction fuel as [|fuel IH]; intros begin st Hf s.
  - by rewrite header_loop_done by lia.
  - destruct (decide (h ≤ begin)%nat) as [?|?]; [by rewrite header_loop_done|].
    destruct (line_end_found i h begin) as (e&He&?); [done|lia|].
    rewrite (header_loop_unfold _ _ _ _ _ e) by (done || lia).
    destruct (step _ st) as [s'|st'] eqn:E; [intros [= <-]; by eapply Hstep|].
    apply IH. lia.
Qed.

Lemma header_loop_stable fuel i s h begin st :
  find_sub (CRLF ++ CRLF) i = Some h →
  loop fuel (i ++ s) h begin st = loop fuel i h begin st.
Proof.
  intros H. revert begin st. induction fuel as [|fuel IH]; intros begin st; [done|].
  destruct (decide (h ≤ begin)%nat) as [?|?]; [by rewrite !header_loop_done|].
  destruct (line_end_found i h begin) as (e&He&?); [done|lia|].
  pose proof (header_end_facts _ _ H) as (?&_).
  assert (find_sub_at CRLF (i ++ s) begin = Some e) as He'
    by (apply find_sub_at_app_l; [lia|done]).
  rewrite !(header_loop_unfold _ _ _ _ _ e) by (done || lia).
  rewrite substr_app_l by lia.
  destruct (step _ st); [done|]. apply IH.
Qed.

Lemma header_loop_preserves (P : St → Prop) fuel i h begin st st' :
  (∀ line st st', step line st = inr st' → P st → P st') →
  loop fuel i h begin st = inr st' → P st → P st'.
Proof.
  intros Hstep. revert begin st. induction fuel as [|fuel IH]; intros begin st;
    cbn [header_loop]; (destruct (begin <? h)%nat; [|by intros [= <-]]); [done|].
  destruct (find_sub_at CRLF i begin) as [e|]; [|done].
  destruct (h <? e)%nat; [done|].
  destruct (step _ st) as [|st1] eqn:E; [done|]. eauto.
Qed.
End loop_lemmas.

(** ** Blocks of lines *)

Definition lines_text (lines : list str) : str := mjoin ((λ l, l ++ CRLF) <$> lines).

Lemma lines_text_cons l ls : lines_text (l :: ls) = l ++ CRLF ++ lines_text ls.
Proof. unfold lines_text. simpl. by rewrite <- app_assoc. Qed.

Lemma lines_text_app ls1 ls2 : lines_text (ls1 ++ ls2) = lines_text ls1 ++ lines_text ls2.
Proof. unfold lines_text. by rewrite fmap_app, join_app. Qed.

Lemma find_sub_cons_neq c q b s :
  b ≠ c → find_sub (c :: q) (b :: s) = S <$> find_sub (c :: q) s.
Proof.
  intros H. apply (find_sub_skip c q [b] s). set_solver.
Qed.

(** A line end followed by a line is not the empty line. *)
Lemma find_past_line_end b t :
  b ≠ CR →
  find_sub (CRLF ++ CRLF) (CRLF ++ b :: t) = Nat.add 2 <$> find_sub (CRLF ++ CRLF) (b :: t).
Proof.
  intros Hb. change (CRLF ++ b :: t) with (CR :: LF :: b :: t).
  cbn [find_sub starts_with app CRLF]. rewrite !byte_eqb_refl.
  rewrite (proj2 (byte_eqb_neq CR b)) by congruence.
  rewrite (proj2 (byte_eqb_neq CR LF)) by done. cbn [andb].
  destruct (find_sub _ t); done.
Qed.

(** The empty line that ends a block is found behind its last line. *)
Lemma find_block_end l0 ls rest :
  CR ∉ l0 → Forall (λ l, CR ∉ l ∧ l ≠ []) ls →
  find_sub (CRLF ++ CRLF) (lines_text (l0 :: ls) ++ CRLF ++ rest) =
  Some (length (lines_text (l0 :: ls)) - 2)%nat.
Proof.
  intros H0 Hls. revert l0 H0. induction Hls as [|l1 ls [H1 Hne] Hls IH]; intros l0 H0.
  - rewrite lines_text_cons. change (lines_text []) with (@nil byte).
    rewrite app_nil_r, <- app_assoc, length_app.
    change (CRLF ++ CRLF) with (CR :: [LF; CR; LF]).
    rewrite find_sub_skip by done.
    change (CRLF ++ CRLF ++ rest) with ((CR :: [LF; CR; LF]) ++ rest).
    rewrite find_sub_here. simpl. f_equal. lia.
  - rewrite (lines_text_cons l0), !length_app. rewrite <- !app_assoc.
    change (CRLF ++ CRLF) with (CR :: [LF; CR; LF]) at 1.
    rewrite find_sub_skip by done.
    change (CR :: [LF; CR; LF]) with (CRLF ++ CRLF).
    pose proof (IH l1 H1) as IH1.
    assert (∃ b t, lines_text (l1 :: ls) ++ CRLF ++ rest = b :: t ∧ b ≠ CR) as (b&t&Et&Hb).
    { destruct l1 as [|b l1]; [done|]. rewrite lines_text_cons. simpl.
      eexists _, _. split; [done|]. set_solver. }
    rewrite Et in IH1 |- *. rewrite find_past_line_end, IH1 by done. simpl. f_equal.
    assert (2 ≤ length (lines_text (l1 :: ls)))%nat; [|lia].
    rewrite lines_text_cons, !length_app. simpl. lia.
Qed.

(** The loop over a block of lines is the fold of the step over the lines. *)
Lemma header_loop_lines {St} m (step : str → St → result St) fuel pre ls rest st :
  Forall (λ l, CR ∉ l ∧ l ≠ []) ls → (length ls ≤ fuel)%nat →
  header_loop m step fuel (pre ++ lines_text ls ++ CRLF ++ rest)
    (length pre + length (lines_text ls) - 2) (length pre) st =
  fold_lines step ls st.
Proof.
  revert fuel pre st. induction ls as [|l ls IH]; intros fuel pre st Hls Hf.
  - apply header_loop_done. simpl. lia.
  - apply Forall_cons in Hls as [[Hcr Hne] Hls].
    destruct fuel as [|fuel]; [simpl in Hf; lia|].
    assert (1 ≤ length l)%nat by (destruct l; [done|simpl; lia]).
    set (h := (length pre + length (lines_text (l :: ls)) - 2)%nat).
    assert (length pre < h ∧ length pre + length l ≤ h)%nat as [Hb He].
    { subst h. rewrite lines_text_cons, !length_app. simpl. lia. }
    rewrite (header_loop_unfold _ _ _ _ _ _ _ (length pre + length l)) ; [|lia| |lia].
    + replace (length pre + length l - length pre)%nat with (length l) by lia.
      rewrite lines_text_cons, <- !app_assoc, substr_at.
      cbn [fold_lines]. destruct (step l st) as [|st']; [done|].
      specialize (IH fuel (pre ++ l ++ CRLF) st' Hls ltac:(simpl in Hf; lia)).
      rewrite <- IH. rewrite !length_app, <- !app_assoc. subst h.
      rewrite lines_text_cons, !length_app. f_equal; simpl; lia.
    + unfold find_sub_at. rewrite drop_app_length, lines_text_cons, <- !app_assoc.
      change (find_sub CRLF) with (find_sub (CR :: [LF])).
      rewrite find_sub_skip by done.
      change (CRLF ++ lines_text ls ++ CRLF ++ rest) with
        ((CR :: [LF]) ++ lines_text ls ++ CRLF ++ rest).
      rewrite find_sub_here. simpl. f_equal. lia.
Qed.

Lemma length_lines_text ls : (length ls ≤ length (lines_text ls))%nat.
Proof.
  induction ls as [|l ls IH]; [done|]. rewrite lines_text_cons, !length_app. simpl. lia.
Qed.

Lemma find_sub_min p s i j :
  find_sub p s = Some i → starts_with p (drop j s) = true → (i ≤ j)%nat.
Proof. intros Hi (k&Hk&?)%find_sub_le. congruence. Qed.

Lemma starts_with_crlf s : starts_with CRLF s = true ↔ ∃ r, s = CR :: LF :: r.
Proof. apply starts_with_spec. Qed.

(** A line end before the empty line leaves room for one more line. *)
Lemma line_end_before i h e :
  find_sub (CRLF ++ CRLF) i = Some h → starts_with CRLF (drop e i) = true →
  (e < h)%nat → (e + 2 < h)%nat.
Proof.
  intros H He Hlt. pose proof (header_end_facts _ _ H) as (_&Hh&_).
  apply starts_with_crlf in He as [r Hr]. apply starts_with_crlf in Hh as [q Hq].
  destruct (decide (e + 2 < h)%nat) as [|Hn]; [done|]. exfalso.
  assert (h = e + 1 ∨ h = e + 2)%nat as [->| ->] by lia.
  - rewrite <- drop_drop, Hr in Hq. done.
  - rewrite <- drop_drop, Hr in Hq. simpl in Hq.
    enough (e + 2 ≤ e)%nat by lia. apply (find_sub_min _ _ _ e H).
    rewrite Hr, drop_0 in * || rewrite Hr. rewrite Hq. done.
Qed.

Lemma segment_split (i : str) (a b c : nat) :
  (a ≤ b ≤ c)%nat → drop a (take c i) = substr i a (b - a) ++ drop b (take c i).
Proof.
  intros H. unfold substr.
  rewrite <- (take_drop (b - a) (drop a (take c i))) at 1.
  rewrite drop_drop. replace (a + (b - a))%nat with b by lia. f_equal.
  rewrite !take_drop_commute, take_take.
  replace (a + (b - a))%nat with b by lia. by rewrite Nat.min_l by lia.
Qed.

Lemma segment_crlf (i : str) (e : nat) :
  starts_with CRLF (drop e i) = true → substr i e 2 = CRLF.
Proof. intros [r Hr]%starts_with_crlf. unfold substr. by rewrite Hr. Qed.

Lemma header_loop_inv {St} m (step : str → St → result St) fuel i h begin st st' :
  find_sub (CRLF ++ CRLF) i = Some h → (begin < h ∨ begin = h + 2)%nat →
  header_loop m step fuel i h begin st = inr st' →
  ∃ ls, drop begin (take (h + 2) i) = lines_text ls ∧ fold_lines step ls st = inr st'.
Proof.
  intros H. pose proof (header_end_facts _ _ H) as (Hlen&_).
  revert begin st. induction fuel as [|fuel IH]; intros begin st Hb Hl.
  - destruct Hb as [Hb| ->].
    + cbn [header_loop] in Hl. by rewrite (proj2 (Nat.ltb_lt _ _)) in Hl by done.
    + rewrite header_loop_done in Hl by lia. injection Hl as <-.
      exists []. split; [|done]. apply drop_ge. rewrite length_take. lia.
  - destruct Hb as [Hb| ->].
    + destruct (line_end_found i h begin) as (e&He&?); [done|lia|].
      rewrite (header_loop_unfold _ _ _ _ _ _ _ e) in Hl by (done || lia).
      destruct (step _ st) as [|st1] eqn:Es; [done|].
      assert (starts_with CRLF (drop e i) = true) as Hs.
      { unfold find_sub_at in He. apply fmap_Some in He as (j&Hj&->).
        apply find_sub_match in Hj. by rewrite drop_drop in Hj. }
      apply IH in Hl as (ls&Hls&Hfold).
      2:{ destruct (decide (e = h)) as [->|]; [by right|left].
          apply (line_end_before i h e); [done..|lia]. }
      exists (substr i begin (e - begin) :: ls).
      split; [|cbn [fold_lines]; by rewrite Es].
      rewrite lines_text_cons, <- Hls. unfold substr.
      rewrite (segment_split i begin e (h + 2)), (segment_split i e (e + 2) (h + 2)) by lia.
      replace (e + 2 - e)%nat with 2%nat by lia. by rewrite (segment_crlf i e).
    + rewrite header_loop_done in Hl by lia. injection Hl as <-.
      exists []. split; [|done]. apply drop_ge. rewrite length_take. lia.
Qed.

(** ** Lemmas: one line *)

(** A line the parsers can split: a token, a colon, and a value with optional
    blanks around it. *)
Definition header_line_of (line name value : str) : Prop :=
  ∃ raw, line = name ++ ":"%byte :: raw ∧ Trim raw = value ∧
    IsValidHeaderName name = true ∧ IsValidHeaderValue value = true.

Lemma split_field_of m1 m2 line name value :
  header_line_of line name value → split_field m1 m2 line = inr (name, value).
Proof.
  intros (raw&->&<-&Hn&Hv).
  assert (":"%byte ∉ name) as Hc by (by apply header_name_no).
  unfold split_field. rewrite find_char_here by done.
  unfold substr. rewrite drop_0, take_app_length.
  replace (drop (length name + 1) (name ++ ":"%byte :: raw)) with raw.
  2:{ rewrite <- drop_drop, drop_app_length. done. }
  rewrite TrimOptionalWhitespace_Trim, Hn, Hv. done.
Qed.

Lemma split_field_inv m1 m2 line name value :
  split_field m1 m2 line = inr (name, value) → header_line_of line name value.
Proof.
  unfold split_field. destruct (find_char ":"%byte line) as [colon|] eqn:Ec; [|done].
  destruct (negb _ || negb _) eqn:Ev; [done|]. intros [= <- <-].
  apply orb_false_iff in Ev as [Hn Hv].
  apply negb_false_iff in Hn. apply negb_false_iff in Hv.
  apply find_char_Some in Ec as (p&r&Hl&Hp&_).
  exists (drop (colon + 1) line). split_and!; [|done..].
  unfold substr. rewrite drop_0, Hl, <- Hp, take_app_length.
  rewrite <- drop_drop, drop_app_length. done.
Qed.

Lemma split_header_line_of m1 m2 line name value :
  header_line_of line name value → split_header_line m1 m2 line = inr (name, value).
Proof.
  intros H. pose proof (split_field_of m1 m2 _ _ _ H) as E.
  destruct H as (raw&->&_&Hn&_). pose proof Hn as [Hne Hf]%header_name_spec.
  destruct name as [|b name]; [done|]. apply Forall_cons in Hf as [Hb _].
  apply token_char_plain in Hb as (Hb&_). unfold split_header_line. cbn [app] in *.
  by rewrite Hb.
Qed.

Lemma split_header_line_inv m1 m2 line name value :
  split_header_line m1 m2 line = inr (name, value) → header_line_of line name value.
Proof.
  unfold split_header_line. destruct line as [|front line]; [done|].
  destruct (is_blank front); [done|]. apply split_field_inv.
Qed.

Lemma split_header_line_error m1 m2 line s :
  split_header_line m1 m2 line = inl s → ∃ m, s = Fail INVALID_HEADER m.
Proof.
  unfold split_header_line, split_field. intros H. repeat case_in H; naive_solver.
Qed.

(** ** Lemmas: a whole header section *)

Lemma find_header_end_error m i s :
  find_header_end m i = inl s →
  (s = NeedMore ∧ size i <= kMaxHeaderSize) ∨ s = Fail HEADER_TOO_LARGE m.
Proof.
  unfold find_header_end. destruct (find_sub _ i).
  - destruct (kMaxHeaderSize <? _); [intros [= <-]; by right|done].
  - destruct (kMaxHeaderSize <? _) eqn:E; intros [= <-]; [by right|left].
    split; [done|lia].
Qed.

(** What the two parsers do on a section made of [rl] and the lines [ls]. *)
Lemma section_found {St} m x u (step : str → St → result St) rl ls rest st :
  CR ∉ rl → Forall (λ l, CR ∉ l ∧ l ≠ []) ls →
  Z.of_nat (length (lines_text (rl :: ls))) + 2 <= kMaxHeaderSize →
  let i := lines_text (rl :: ls) ++ CRLF ++ rest in
  let h := (length (lines_text (rl :: ls)) - 2)%nat in
  find_header_end m i = inr h ∧ find_first_line x i h = inr (length rl) ∧
  substr i 0 (length rl) = rl ∧
  header_loop u step h i h (length rl + 2) st = fold_lines step ls st.
Proof.
  intros Hrl Hls Hk. cbv zeta. set (L := length (lines_text (rl :: ls))) in *.
  assert (L = (length rl + 2 + length (lines_text ls))%nat) as HL.
  { subst L. rewrite lines_text_cons, !length_app. simpl. lia. }
  assert (find_sub CRLF (lines_text (rl :: ls) ++ CRLF ++ rest) = Some (length rl)) as Hf.
  { rewrite lines_text_cons, <- !app_assoc. change (find_sub CRLF) with (find_sub (CR :: [LF])).
    rewrite find_sub_skip by done.
    change (CRLF ++ lines_text ls ++ CRLF ++ rest) with
      ((CR :: [LF]) ++ lines_text ls ++ CRLF ++ rest).
    rewrite find_sub_here. simpl. f_equal. lia. }
  split_and!.
  - unfold find_header_end. rewrite find_block_end by done. fold L.
    by rewrite (proj2 (Z.ltb_ge _ _)) by lia.
  - unfold find_first_line. rewrite Hf. by rewrite (proj2 (Nat.ltb_ge _ _)) by lia.
  - rewrite lines_text_cons, <- app_assoc. unfold substr. by rewrite drop_0, take_app_length.
  - pose proof (header_loop_lines u step (L - 2) (rl ++ CRLF) ls rest st Hls) as Hloop.
    pose proof (length_lines_text ls).
    rewrite !length_app in Hloop. simpl (length CRLF) in Hloop.
    replace ((rl ++ CRLF) ++ lines_text ls ++ CRLF ++ rest) with
      (lines_text (rl :: ls) ++ CRLF ++ rest) in Hloop
      by (by rewrite lines_text_cons, <- !app_assoc).
    replace (length rl + 2 + length (lines_text ls) - 2)%nat with (L - 2)%nat in Hloop by lia.
    apply Hloop. lia.
Qed.

(** The converse: what was scanned is a first line and lines the step accepts. *)
Lemma section_scanned {St} m x u (step : str → St → result St) i h e st st' :
  find_header_end m i = inr h → find_first_line x i h = inr e →
  header_loop u step h i h (e + 2) st = inr st' →
  ∃ ls, take (h + 4) i = lines_text (substr i 0 e :: ls) ++ CRLF ∧
    fold_lines step ls st = inr st'.
Proof.
  intros [Hh Hk]%find_header_end_inr He El.
  destruct (find_first_line_inr x i h Hh) as (e'&He'&Hfe&Hle).
  rewrite He in He'. injection He' as <-.
  pose proof (find_sub_match _ _ _ Hfe) as Hse.
  apply header_loop_inv in El as (ls&Hls&Hfold); [|done|].
  2:{ destruct (decide (e = h)) as [->|]; [right; lia|left].
      apply (line_end_before i h e); [done| |lia]. done. }
  exists ls. split; [|done].
  pose proof (header_end_facts _ _ Hh) as (?&_&Hs2).
  rewrite lines_text_cons, <- Hls. rewrite <- !app_assoc.
  pose proof (segment_split i 0 (h + 2) (h + 4) ltac:(lia)) as S1.
  pose proof (segment_split i 0 e (h + 2) ltac:(lia)) as S2.
  pose proof (segment_split i e (e + 2) (h + 2) ltac:(lia)) as S3.
  pose proof (segment_split i (h + 2) (h + 4) (h + 4) ltac:(lia)) as S4.
  rewrite drop_0 in S1, S2. rewrite S1.
  replace (h + 4 - (h + 2))%nat with 2%nat in S4 by lia.
  replace (e + 2 - e)%nat with 2%nat in S3 by lia.
  rewrite (segment_crlf _ _ Hs2) in S4. rewrite (segment_crlf _ _ Hse) in S3.
  rewrite S4, (drop_ge (take (h + 4) i)) by (rewrite length_take; lia).
  rewrite app_nil_r. unfold substr at 1. rewrite drop_0, Nat.sub_0_r.
  rewrite S2 at 1. rewrite S3.
  rewrite Nat.sub_0_r. by rewrite <- !app_assoc.
Qed.

(** ** Lemmas: printed lines *)

Definition line_of (p : str * str) : str := p.1 ++ $": " ++ p.2.

Lemma nonempty_spec s : Response.nonempty s = true ↔ s ≠ [].
Proof. destruct s; simpl; naive_solver. Qed.

Lemma line_of_header p :
  IsValidHeaderName p.1 = true → IsValidHeaderValue p.2 = true → Trim p.2 = p.2 →
  header_line_of (line_of p) p.1 p.2.
Proof.
  intros Hn Hv Ht. exists (" "%byte :: p.2). split_and!; [done| |done..].
  by rewrite Trim_blank_front.
Qed.

Lemma line_of_plain p :
  IsValidHeaderName p.1 = true → IsValidHeaderValue p.2 = true →
  CR ∉ line_of p ∧ line_of p ≠ [].
Proof.
  intros Hn Hv. unfold line_of. split.
  - rewrite !not_elem_of_app. split_and!; [by apply header_name_no|by vm_compute; set_solver|].
    by apply header_value_no.
  - intros [_ H]%app_nil. done.
Qed.

Definition good_header (p : str * str) : Prop :=
  IsValidHeaderName p.1 = true ∧ IsValidHeaderValue p.2 = true ∧ Trim p.2 = p.2.

Lemma digit_plain b :
  is_Some (digit_value 10 b) → is_blank b = false ∧ invalid_value_character b = false.
Proof. intros [d Hd]. revert d Hd. byte_cases b. Qed.

Lemma to_dec_value z : 0 <= z → good_header ($"Content-Length", to_dec z).
Proof.
  intros Hz. pose proof (to_dec_digits z Hz) as Hd. split_and!; [done| |].
  - apply header_value_spec. eapply Forall_impl; [done|]. intros b Hb. by apply digit_plain.
  - apply Trim_id. rewrite Forall_forall in Hd. split; simpl; intros b s' E;
      apply digit_plain, Hd; rewrite E; set_solver.
Qed.

Lemma ParseContentLength_to_dec z :
  0 <= z <= kMaxBodySize → ParseContentLength (to_dec z) = Some z.
Proof.
  intros Hz. unfold ParseContentLength. rewrite TrimOptionalWhitespace_Trim.
  destruct (to_dec_value z ltac:(lia)) as (_&_&Ht). simpl in Ht. rewrite Ht.
  destruct (scan_to_dec z ltac:(lia)) as (k&Hk&Hl&_).
  destruct (to_dec z) as [|b t] eqn:E; [simpl in Hl; lia|]. rewrite <- E.
  apply from_chars_to_dec. unfold kMaxBodySize in Hz. lia.
Qed.

(** ** Stops that are failures *)

(** A failure carries an error; waiting and fuel are not failures. *)
Definition blames (s : stop) : Prop :=
  match s with Fail e _ => e ≠ NONE | _ => False end.

Lemma split_header_line_blames m1 m2 line s :
  split_header_line m1 m2 line = inl s → blames s.
Proof. by intros [m ->]%split_header_line_error. Qed.

End HeaderBlock.
