(* ===== verification/RequestParser.v ===== *)
(** [HttpRequestParser] ([droplet/src/http/http_parser.cc], first half): the
    request line, the header lines, the body delimited by [Content-Length],
    and the parser object with its error and finished states. *)

From S2P Require Import Prelude Http HeaderText HttpResponse HttpRequest HttpParser HeaderBlock.
Import Http HeaderText ParserText HeaderBlock.

Module RequestParser.

(** ** The message grammar *)

Definition headers_too_large : str := $"HTTP request headers exceed the configured limit".

Definition bad_target (m : str) {A} : result A := inl (Fail INVALID_REQUEST_TARGET m).

(** The checks of the request line: method, target and encoded version. *)
Definition parse_request_line (request_line : str) : result (HttpMethod * str * Z) :=
  let method_end := find_char " "%byte request_line in
  let target_end :=
    match method_end with
    | None => None
    | Some me => find_char_at " "%byte request_line (me + 1)
    end in
  match method_end, target_end with
  | Some me, Some te =>
      if Nat.eqb me 0 || Nat.eqb te (me + 1) ||
         bool_decide (is_Some (find_char_at " "%byte request_line (te + 1)))
      then bad_target $"HTTP request line must contain method, target and version"
      else
        let method_text := substr request_line 0 me in
        let method := StringToHttpMethod method_text in
        if bool_decide (method = INVALID_METHOD)
        then inl (Fail INVALID_METHOD_ERROR ($"unsupported HTTP method: " ++ method_text))
        else
          let target := substr request_line (me + 1) (te - me - 1) in
          if existsb (λ c, (code c <=? 0x20) || (code c =? 0x7F)) target
          then bad_target $"HTTP request target contains an invalid character"
          else
            let version := drop (te + 1) request_line in
            if str_eqb version $"HTTP/1.1" then inr (method, target, 0x11)
            else if str_eqb version $"HTTP/1.0" then inr (method, target, 0x10)
            else inl (Fail INVALID_VERSION
                        $"only HTTP/1.0 and HTTP/1.1 requests are supported")
  | _, _ =>
      bad_target $"HTTP request line must contain method, target and version"
  end.

(** Fragment, query and path of the target. *)
Definition apply_target (target : str) (request : Request.HttpRequest)
    : Request.HttpRequest :=
  let '(request, target_without_fragment) :=
    match find_char "#"%byte target with
    | Some f => (Request.setFragment (drop (f + 1) target) request, substr target 0 f)
    | None => (request, target)
    end in
  match find_char "?"%byte target_without_fragment with
  | Some q =>
      Request.setQuery (drop (q + 1) target_without_fragment)
        (Request.setPath (substr target_without_fragment 0 q) request)
  | None => Request.setPath target_without_fragment request
  end.

(** The locals of the header loop. *)
Record header_state := mkHeaderState {
  request : Request.HttpRequest;
  content_length_seen : bool;
  parsed_content_length : Z;
}.

(** How a header acts on the locals: the framing headers, then [setHeader]. *)
Definition header_effect (name value : str) (st : header_state) : result header_state :=
  let! st :=
    (if CaseInsensitiveEqual name $"content-length" then
       match (if content_length_seen st then None else ParseContentLength value) with
       | None =>
           inl (Fail INVALID_CONTENT_LENGTH
                  $"Content-Length must be one unsigned decimal value")
       | Some current_length =>
           inr (mkHeaderState (request st) true current_length)
       end
     else if CaseInsensitiveEqual name $"transfer-encoding" &&
             Response.nonempty value
     then inl (Fail UNSUPPORTED_TRANSFER_ENCODING
                 $"Transfer-Encoding is not supported by the request parser yet")
     else inr st) in
  inr (mkHeaderState (Request.setHeader name value (request st))
         (content_length_seen st) (parsed_content_length st)).

(** One header line, without its line end. *)
Definition header_line_step (line : str) (st : header_state) : result header_state :=
  let! (name, value) :=
    split_header_line $"HTTP header line is missing ':'"
      $"HTTP header contains an invalid name or value" line in
  header_effect name value st.

(** The loop over the header lines. *)
Definition request_header_loop :=
  header_loop $"HTTP header line is not terminated with CRLF" header_line_step.

(** Everything before the body: the request, the size of the header section
    and the announced length of the body. *)
Definition parse_head (input : str) : result (Request.HttpRequest * nat * Z) :=
  let! header_end := find_header_end headers_too_large input in
  let header_size := (header_end + 4)%nat in
  let! request_line_end :=
    find_first_line (Fail INVALID_VERSION $"HTTP request line is incomplete")
      input header_end in
  let! (method, target, encoded_version) :=
    parse_request_line (substr input 0 request_line_end) in
  let request :=
    apply_target target
      (Request.setMethod method
         (Request.make encoded_version (encoded_version <=? 0x10))) in
  if negb (Response.nonempty (Request.path request))
  then bad_target $"HTTP request target has an empty path"
  else
    let! st := request_header_loop header_end input header_end (request_line_end + 2)
                 (mkHeaderState request false 0) in
    if kMaxBodySize <? parsed_content_length st
    then inl (Fail BODY_TOO_LARGE $"HTTP request body exceeds the configured limit")
    else if size_max - Z.of_nat header_size <? parsed_content_length st
    then inl (Fail BODY_TOO_LARGE $"HTTP request size overflows size_t")
    else inr (RequestParser.request st, header_size, parsed_content_length st).

(** A whole message: the bytes consumed, the request and the body length. *)
Definition parse_message (input : str) : result (nat * Request.HttpRequest * Z) :=
  let! (request, header_size, content_length) := parse_head input in
  let message_size := wrap 64 (Z.of_nat header_size + content_length) in
  if size input <? message_size then inl NeedMore
  else
    let request :=
      Request.initConnection
        (Request.setBody (substr input header_size (Z.to_nat content_length)) request) in
    inr (Z.to_nat message_size, request, content_length).

(** ** The parser object *)

Record HttpRequestParser := mkHttpRequestParser {
  data : Request.HttpRequest;
  error : HttpParseError;
  error_message : str;
  content_length : Z;
  finished : bool;
}.

(** [std::make_shared<HttpRequest>()] with the default arguments. *)
Definition default_request : Request.HttpRequest := Request.make 0x11 true.

Definition make : HttpRequestParser :=
  mkHttpRequestParser default_request NONE [] 0 false.

Definition reset (p : HttpRequestParser) : HttpRequestParser :=
  mkHttpRequestParser default_request NONE [] 0 false.

Definition hasError (p : HttpRequestParser) : bool := bool_decide (error p ≠ NONE).

Definition setError (e : HttpParseError) (message : str) (p : HttpRequestParser)
    : HttpRequestParser :=
  mkHttpRequestParser (data p) e message (content_length p) false.

Definition parse (input : str) (p : HttpRequestParser) : nat * HttpRequestParser :=
  match parse_message input with
  | inl (Fail e m) => (0%nat, setError e m p)
  | inl _ => (0%nat, p)
  | inr (message_size, request, length) =>
      (message_size,
       mkHttpRequestParser request (error p) (error_message p) length true)
  end.

Definition execute (input : str) (p : HttpRequestParser) : nat * HttpRequestParser :=
  if finished p || hasError p then (0%nat, p) else parse input p.

(** [execute(char *data, std::size_t length)]: the buffer is [None] for a null
    pointer; what was not consumed is moved to its front. *)
Definition execute_buffer (buffer : option str) (p : HttpRequestParser)
    : nat * option str * HttpRequestParser :=
  match buffer with
  | None => (0%nat, buffer, p)
  | Some input =>
      if Nat.eqb (length input) 0 || finished p || hasError p then (0%nat, buffer, p)
      else
        let '(consumed, p) := parse input p in
        if negb (Nat.eqb consumed 0) && (consumed <? length input)%nat
        then (consumed,
              Some (drop consumed input ++ drop (length input - consumed) input), p)
        else (consumed, buffer, p)
  end.

Example parse_get :
  (λ r, (r.1.1, Request.path r.1.2, Request.query r.1.2, Request.close r.1.2,
         Request.body r.1.2)) <$>
    match parse_message ($"POST /a?x=1#f HTTP/1.1" ++ CRLF ++ $"Host: h" ++ CRLF ++
             $"content-length:  3" ++ CRLF ++ CRLF ++ $"abcGET") with
    | inr r => Some r | inl _ => None end
  = Some (58%nat, $"/a", $"x=1", false, $"abc").
Proof. vm_compute. reflexivity. Qed.

(** ** Lemmas: one header *)

Lemma header_line_step_blames line st s : header_line_step line st = inl s → blames s.
Proof.
  unfold header_line_step. destruct (split_header_line _ _ line) as [s'|[n v]] eqn:E.
  - intros [= <-]. by apply split_header_line_blames in E.
  - unfold header_effect. intros H. repeat case_in H; naive_solver.
Qed.

(** The announced length is a 64-bit number. *)
Lemma header_line_step_length line st st' :
  header_line_step line st = inr st' →
  0 <= parsed_content_length st < 2 ^ 64 →
  0 <= parsed_content_length st' < 2 ^ 64.
Proof.
  unfold header_line_step. destruct (split_header_line _ _ line) as [s'|[n v]]; [done|].
  unfold header_effect. intros H Hst.
  destruct (CaseInsensitiveEqual _ $"content-length").
  - destruct (content_length_seen st); [done|].
    destruct (ParseContentLength _) as [z|] eqn:E; [|done].
    injection H as <-. simpl. unfold ParseContentLength in E.
    destruct (TrimOptionalWhitespace _); [done|].
    by apply from_chars_all_range in E; [|lia].
  - destruct (_ && _); [done|]. by injection H as <-.
Qed.

Lemma parse_request_line_blames l s : parse_request_line l = inl s → blames s.
Proof. unfold parse_request_line, bad_target. intros H. repeat case_in H; naive_solver. Qed.

(** ** Lemmas: the message *)

(** A head stops to wait for the end of the headers, or with an error. *)
Lemma parse_head_stops i s :
  parse_head i = inl s → (s = NeedMore ∧ size i <= kMaxHeaderSize) ∨ blames s.
Proof.
  unfold parse_head. destruct (find_header_end _ i) as [s'|h] eqn:Eh.
  { intros [= <-]. apply find_header_end_error in Eh as [?| ->]; [by left|by right]. }
  apply find_header_end_inr in Eh as [Hh _]. intros H. right. revert H.
  destruct (find_first_line_inr (Fail INVALID_VERSION $"HTTP request line is incomplete") i h Hh)
    as (e&->&He&?).
  destruct (parse_request_line _) as [s'|[[? ?] ?]] eqn:El.
  { intros [= <-]. by apply parse_request_line_blames in El. }
  destruct (negb _); [by intros [= <-]|].
  destruct (request_header_loop _ _ _ _ _) as [s'|st] eqn:Ell.
  { intros [= <-]. revert Ell. apply header_loop_outcome; [|done|lia].
    intros line st s''. apply header_line_step_blames. }
  destruct (kMaxBodySize <? _); [by intros [= <-]|].
  destruct (size_max - _ <? _); [by intros [= <-]|done].
Qed.

Lemma parse_head_stable i s :
  parse_head i ≠ inl NeedMore → parse_head (i ++ s) = parse_head i.
Proof.
  unfold parse_head. intros Hn.
  assert (find_header_end headers_too_large i ≠ inl NeedMore) as Hne
    by (intros E; by rewrite E in Hn).
  rewrite (find_header_end_stable _ i s Hne).
  destruct (find_header_end _ i) as [st|h] eqn:E; [done|].
  apply find_header_end_inr in E as [Hh _].
  rewrite (find_first_line_stable _ i s h Hh).
  destruct (find_first_line_inr (Fail INVALID_VERSION $"HTTP request line is incomplete") i h Hh)
    as (e&->&He&?).
  pose proof (header_end_facts i h Hh) as (?&_).
  rewrite substr_app_l by lia.
  destruct (parse_request_line _) as [|[[? ?] ?]]; [done|].
  unfold request_header_loop. by rewrite header_loop_stable.
Qed.

(** What a parsed head guarantees. *)
Lemma parse_head_inr i r hs cl :
  parse_head i = inr (r, hs, cl) →
  (hs ≤ length i)%nat ∧ Z.of_nat hs <= kMaxHeaderSize ∧ 0 <= cl <= kMaxBodySize ∧
  (∃ h, hs = (h + 4)%nat ∧ find_sub (CRLF ++ CRLF) i = Some h).
Proof.
  unfold parse_head. intros E.
  destruct (find_header_end _ i) as [|h] eqn:Eh; [done|].
  apply find_header_end_inr in Eh as [Hh Hk].
  pose proof (header_end_facts _ _ Hh) as (?&_).
  destruct (find_first_line _ _ _) as [|e]; [done|].
  destruct (parse_request_line _) as [|[[? ?] ?]]; [done|].
  destruct (negb _); [done|].
  destruct (request_header_loop _ _ _ _ _) as [|st] eqn:El; [done|].
  apply (header_loop_preserves _ _ (λ st, 0 <= parsed_content_length st < 2 ^ 64)) in El;
    [|apply header_line_step_length|done].
  destruct (kMaxBodySize <? _) eqn:Eb; [done|].
  destruct (size_max - _ <? _); [done|]. simplify_eq. split_and!; [lia..|]. by exists h.
Qed.

Lemma message_size_exact hs cl :
  Z.of_nat hs <= kMaxHeaderSize → 0 <= cl <= kMaxBodySize →
  wrap 64 (Z.of_nat hs + cl) = Z.of_nat hs + cl.
Proof. unfold kMaxHeaderSize, kMaxBodySize. intros. apply wrap_small. lia. Qed.

(** Whatever was decided on a prefix of the stream stays decided. *)
Lemma parse_message_stable i s :
  parse_message i ≠ inl NeedMore → parse_message (i ++ s) = parse_message i.
Proof.
  unfold parse_message. intros Hn.
  assert (parse_head i ≠ inl NeedMore) as Hh by (intros E; by rewrite E in Hn).
  rewrite (parse_head_stable i s Hh).
  destruct (parse_head i) as [st|[[r h] cl]] eqn:E; [done|].
  apply parse_head_inr in E as (?&?&?&_).
  rewrite message_size_exact in Hn |- * by done.
  destruct (size i <? Z.of_nat h + cl) eqn:Es; [done|].
  apply Z.ltb_ge in Es. rewrite size_app. pose proof (size_nonneg s).
  rewrite (proj2 (Z.ltb_ge _ _)) by lia.
  rewrite substr_app_l; [done|]. unfold size in Es. lia.
Qed.

(** The outcome of a successful parse, in one place. *)
Lemma parse_message_inr i n r cl :
  parse_message i = inr (n, r, cl) →
  ∃ r0 hs, parse_head i = inr (r0, hs, cl) ∧
    n = (hs + Z.to_nat cl)%nat ∧ (n ≤ length i)%nat ∧ (4 ≤ hs)%nat ∧
    Z.of_nat hs <= kMaxHeaderSize ∧ 0 <= cl <= kMaxBodySize ∧
    r = Request.initConnection (Request.setBody (substr i hs (Z.to_nat cl)) r0).
Proof.
  unfold parse_message. destruct (parse_head i) as [st|[[r0 hs] cl']] eqn:E; [done|].
  pose proof (parse_head_inr _ _ _ _ E) as (?&?&?&(h&->&_)).
  rewrite message_size_exact by done.
  destruct (size i <? _) eqn:Es; [done|]. intros [= <- <- <-].
  apply Z.ltb_ge in Es. exists r0, (h + 4)%nat. unfold size in Es. split_and!; try done; lia.
Qed.

End RequestParser.
