(* ===== verification/RequestRoundTrip.v ===== *)
(** Printing a request with [HttpRequest::dump] and parsing it with
    [HttpRequestParser], and what a request that was parsed looks like on the
    wire: the main theorems on the request parser. *)

From S2P Require Import Prelude Http HeaderText HttpResponse HttpRequest HttpParser HeaderBlock RequestParser RequestGrammar.
Import Http HeaderText ParserText HeaderBlock RequestParser RequestGrammar.

Module RequestRoundTrip.

(** ** Header lists *)

Fixpoint fold_effects (hs : list (str * str)) (st : header_state) : result header_state :=
  match hs with
  | [] => inr st
  | p :: hs' => let! st' := header_effect p.1 p.2 st in fold_effects hs' st'
  end.

Lemma fold_effects_app hs1 hs2 st :
  fold_effects (hs1 ++ hs2) st =
  (let! st' := fold_effects hs1 st in fold_effects hs2 st').
Proof.
  revert st. induction hs1 as [|p hs1 IH]; intros st; simpl; [done|].
  destruct (header_effect _ _ st); [done|]. apply IH.
Qed.

Lemma fold_lines_effects lines hs st :
  Forall2 (λ l p, header_line_of l p.1 p.2) lines hs →
  fold_lines header_line_step lines st = fold_effects hs st.
Proof.
  intros H. revert st. induction H as [|l p lines hs Hl _ IH]; intros st; simpl; [done|].
  rewrite (header_line_step_of _ _ _ _ Hl). destruct (header_effect _ _ st); [done|].
  apply IH.
Qed.

Lemma fold_lines_inv lines st st' :
  fold_lines header_line_step lines st = inr st' →
  ∃ hs, Forall2 (λ l p, header_line_of l p.1 p.2) lines hs ∧ fold_effects hs st = inr st'.
Proof.
  revert st. induction lines as [|l lines IH]; intros st; simpl.
  - intros H. by exists [].
  - destruct (header_line_step l st) as [|st1] eqn:E; [done|].
    apply header_line_step_inv in E as (n&v&Hl&He). intros (hs&Hhs&Hf)%IH.
    exists ((n, v) :: hs). split; [by constructor|]. simpl. by rewrite He.
Qed.

Definition is_content_length (p : str * str) : Prop := ci_equiv p.1 $"content-length".
Definition is_transfer_encoding (p : str * str) : Prop := ci_equiv p.1 $"transfer-encoding".

#[export] Instance is_content_length_dec p : Decision (is_content_length p).
Proof. unfold is_content_length. apply _. Defined.

Definition add_headers (r : Request.HttpRequest) (hs : list (str * str)) : Request.HttpRequest :=
  foldl (λ r p, Request.setHeader p.1 p.2 r) r hs.

Lemma content_length_not_transfer_encoding p :
  is_content_length p → ¬ is_transfer_encoding p.
Proof.
  unfold is_content_length, is_transfer_encoding, ci_equiv. intros -> H. vm_compute in H. done.
Qed.

(** A header that is neither of the two framing headers is only stored. *)
Lemma header_effect_plain name value st :
  ¬ is_content_length (name, value) →
  (is_transfer_encoding (name, value) → value = []) →
  header_effect name value st =
  inr (mkHeaderState (Request.setHeader name value (request st))
         (content_length_seen st) (parsed_content_length st)).
Proof.
  intros Hc Ht. rewrite header_effect_eq.
  rewrite (proj2 (CaseInsensitiveEqual_false name $"content-length")) by done.
  destruct (HeaderText.CaseInsensitiveEqual name $"transfer-encoding") eqn:E; [|done].
  apply CaseInsensitiveEqual_spec in E. by rewrite (Ht E).
Qed.

Lemma header_effect_length name value st n :
  is_content_length (name, value) → content_length_seen st = false →
  ParseContentLength value = Some n →
  header_effect name value st =
  inr (mkHeaderState (Request.setHeader name value (request st)) true n).
Proof.
  intros Hc Hs Hn. rewrite header_effect_eq.
  rewrite (proj2 (CaseInsensitiveEqual_spec name $"content-length")) by done.
  by rewrite Hs, Hn.
Qed.

(** What accepted header lines are: at most one length, no transfer coding. *)
Lemma fold_effects_framing hs st st' :
  fold_effects hs st = inr st' →
  ((filter is_content_length hs = [] ∧
      parsed_content_length st' = parsed_content_length st ∧
      content_length_seen st' = content_length_seen st) ∨
   (∃ p n, filter is_content_length hs = [p] ∧ ParseContentLength p.2 = Some n ∧
      parsed_content_length st' = n ∧ content_length_seen st = false ∧
      content_length_seen st' = true)) ∧
  Forall (λ p, is_transfer_encoding p → p.2 = []) hs ∧
  request st' = add_headers (request st) hs.
Proof.
  revert st. induction hs as [|[name value] hs IH]; intros st; simpl.
  { intros [= <-]. split_and!; [by left|constructor|done]. }
  destruct (header_effect name value st) as [|st1] eqn:E; [done|].
  intros (Hcl&Hte&Hreq)%IH. clear IH.
  rewrite filter_cons. rewrite header_effect_eq in E.
  destruct (HeaderText.CaseInsensitiveEqual name $"content-length") eqn:Ec.
  - apply CaseInsensitiveEqual_spec in Ec.
    rewrite decide_True by done.
    destruct (content_length_seen st) eqn:Es; [done|].
    destruct (ParseContentLength value) as [n|] eqn:En; [|done].
    injection E as <-. simpl in *. split_and!; [|constructor; [|done]|done].
    + right. destruct Hcl as [(->&->&->)|(p&m&_&_&_&?&_)]; [|done].
      by exists (name, value), n.
    + intros Ht. by apply (content_length_not_transfer_encoding (name, value)) in Ht.
  - apply CaseInsensitiveEqual_false in Ec.
    rewrite decide_False by done.
    destruct (HeaderText.CaseInsensitiveEqual name $"transfer-encoding") eqn:Et; simpl in E.
    + destruct value as [|? ?]; simpl in E; [|done].
      injection E as <-. simpl in *. split_and!; [done|by constructor|done].
    + apply CaseInsensitiveEqual_false in Et.
      injection E as <-. simpl in *.
      split_and!; [done|constructor; [|done]; done|done].
Qed.

(** Headers do not touch the other fields. *)
Lemma setHeader_fields k v r :
  let r' := Request.setHeader k v r in
  Request.method r' = Request.method r ∧ Request.version r' = Request.version r ∧
  Request.path r' = Request.path r ∧ Request.query r' = Request.query r ∧
  Request.fragment r' = Request.fragment r ∧
  Request.headers r' = insert_or_assign k v (Request.headers r).
Proof.
  unfold Request.setHeader, Request.invalidate. cbv zeta.
  destruct (HeaderText.CaseInsensitiveEqual k $"content-type");
    destruct (HeaderText.CaseInsensitiveEqual k $"cookie"); done.
Qed.

Lemma add_headers_fields r hs :
  let r' := add_headers r hs in
  Request.method r' = Request.method r ∧ Request.version r' = Request.version r ∧
  Request.path r' = Request.path r ∧ Request.query r' = Request.query r ∧
  Request.fragment r' = Request.fragment r ∧
  Request.headers r' =
    foldl (λ m p, insert_or_assign p.1 p.2 m) (Request.headers r) hs.
Proof.
  revert r. induction hs as [|p hs IH]; intros r; [done|]. simpl.
  destruct (setHeader_fields p.1 p.2 r) as (E1&E2&E3&E4&E5&E6).
  destruct (IH (Request.setHeader p.1 p.2 r)) as (F1&F2&F3&F4&F5&F6).
  rewrite <- E1, <- E2, <- E3, <- E4, <- E5, <- E6. done.
Qed.

(** ** The request line *)

Definition visible (c : byte) : Prop := ((code c <=? 0x20) || (code c =? 0x7F)) = false.

Lemma visible_not_blank c : visible c → c ≠ " "%byte ∧ c ≠ CR.
Proof. unfold visible. intros H. split; intros ->; done. Qed.

Lemma visible_not_in s : Forall visible s → " "%byte ∉ s ∧ CR ∉ s.
Proof.
  rewrite Forall_forall. intros H.
  split; intros Hin; apply H in Hin; by vm_compute in Hin.
Qed.

Lemma find_char_at_app c p r :
  find_char_at c (p ++ r) (length p) = Nat.add (length p) <$> find_char c r.
Proof. unfold find_char_at. by rewrite drop_app_length. Qed.

Lemma method_name_plain m :
  m ≠ INVALID_METHOD →
  " "%byte ∉ HttpMethodToString m ∧ CR ∉ HttpMethodToString m ∧
  HttpMethodToString m ≠ [] .
Proof.
  intros Hm. assert (forallb (λ b, negb (Byte.eqb b " "%byte) && negb (Byte.eqb b CR))
    (HttpMethodToString m) && negb (Nat.eqb (length (HttpMethodToString m)) 0) = true) as H
    by (by destruct m).
  apply andb_true_iff in H as [H Hl]. rewrite forallb_forall in H.
  split_and!.
  - intros Hin%list_elem_of_In%H. by rewrite byte_eqb_refl in Hin.
  - intros Hin%list_elem_of_In%H. rewrite byte_eqb_refl in Hin.
    by rewrite andb_false_r in Hin.
  - intros E. by rewrite E in Hl.
Qed.

Lemma parse_request_line_of M T V :
  " "%byte ∉ M → M ≠ [] → Forall visible T → T ≠ [] → " "%byte ∉ V →
  StringToHttpMethod M ≠ INVALID_METHOD →
  parse_request_line (M ++ $" " ++ T ++ $" " ++ V) =
  (if str_eqb V $"HTTP/1.1" then inr (StringToHttpMethod M, T, 0x11)
   else if str_eqb V $"HTTP/1.0" then inr (StringToHttpMethod M, T, 0x10)
   else inl (Fail INVALID_VERSION $"only HTTP/1.0 and HTTP/1.1 requests are supported")).
Proof.
  intros HM HM0 HT HT0 HV Hm. unfold parse_request_line.
  pose proof (visible_not_in T HT) as [HTs _].
  assert (0 < length M ∧ 0 < length T)%nat as [? ?] by (destruct M, T; simpl; done || lia).
  change ($" ") with [" "%byte]. cbn [app].
  rewrite find_char_here by done.
  set (line := M ++ " "%byte :: T ++ " "%byte :: V).
  assert (line = (M ++ [" "%byte]) ++ T ++ " "%byte :: V) as E1
    by (subst line; by rewrite <- app_assoc).
  assert (line = ((M ++ [" "%byte]) ++ T ++ [" "%byte]) ++ V) as E2
    by (rewrite E1, <- !app_assoc; done).
  assert (find_char_at " "%byte line (length M + 1) = Some (length M + 1 + length T)%nat) as Ete.
  { rewrite E1. replace (length M + 1)%nat with (length (M ++ [" "%byte]))
      by (rewrite length_app; done).
    rewrite find_char_at_app, find_char_here by done. done. }
  rewrite Ete.
  assert (find_char_at " "%byte line (length M + 1 + length T + 1) = None) as Ee.
  { rewrite E2. replace (length M + 1 + length T + 1)%nat
      with (length ((M ++ [" "%byte]) ++ T ++ [" "%byte]))
      by (rewrite !length_app; simpl; lia).
    rewrite find_char_at_app. by rewrite (proj2 (find_char_None _ _) HV). }
  rewrite Ee, (proj2 (Nat.eqb_neq _ _)) by lia.
  rewrite (proj2 (Nat.eqb_neq _ _)) by lia. rewrite bool_decide_eq_false_2 by (by intros [? ?]).
  cbn [orb].
  assert (substr line 0 (length M) = M) as ->.
  { unfold substr. subst line. by rewrite drop_0, take_app_length. }
  rewrite bool_decide_eq_false_2 by done.
  assert (substr line (length M + 1) (length M + 1 + length T - length M - 1) = T) as ->.
  { rewrite E1. replace (length M + 1)%nat with (length (M ++ [" "%byte]))
      by (rewrite length_app; done).
    replace (length (M ++ [" "%byte]) + length T - length M - 1)%nat with (length T)
      by (rewrite length_app; simpl; lia).
    apply substr_at. }
  assert (existsb (λ c, (code c <=? 32) || (code c =? 127)) T = false) as ->.
  { rewrite <- not_true_iff_false, existsb_exists. intros (c&Hin&Hc).
    rewrite Forall_forall in HT. apply list_elem_of_In, HT in Hin.
    unfold visible in Hin. congruence. }
  assert (drop (length M + 1 + length T + 1) line = V) as ->; [|done].
  rewrite E2. replace (length M + 1 + length T + 1)%nat
    with (length ((M ++ [" "%byte]) ++ T ++ [" "%byte])) by (rewrite !length_app; simpl; lia).
  apply drop_app_length.
Qed.

(** ** The target *)

Definition target_of (r : Request.HttpRequest) : str := Request.request_target r.

Lemma apply_target_of (r r0 : Request.HttpRequest) :
  Request.path r ≠ [] → "#"%byte ∉ Request.path r → "?"%byte ∉ Request.path r →
  "#"%byte ∉ Request.query r →
  Request.query r0 = [] → Request.fragment r0 = [] →
  let r' := apply_target (Request.request_target r) r0 in
  Request.path r' = Request.path r ∧ Request.query r' = Request.query r ∧
  Request.fragment r' = Request.fragment r ∧ Request.method r' = Request.method r0 ∧
  Request.version r' = Request.version r0 ∧ Request.headers r' = Request.headers r0.
Proof.
  intros Hp Hph Hpq Hqh Hq0 Hf0. cbv zeta. unfold apply_target, Request.request_target.
  unfold Response.nonempty.
  destruct (Nat.eqb_spec (length (Request.path r)) 0) as [E|_].
  { by destruct (Request.path r). }
  cbn [negb]. set (P := Request.path r) in *. set (Q := Request.query r) in *.
  set (F := Request.fragment r) in *.
  change ($"?" ++ Q) with ("?"%byte :: Q). change ($"#" ++ F) with ("#"%byte :: F).
  assert (∀ r1, Request.query r1 = [] → Request.fragment r1 = F →
    Request.method r1 = Request.method r0 → Request.version r1 = Request.version r0 →
    Request.headers r1 = Request.headers r0 →
    let T := P ++ (if negb (Nat.eqb (length Q) 0) then "?"%byte :: Q else []) in
    let r' := match find_char "?"%byte T with
      | Some q => Request.setQuery (drop (q + 1) T) (Request.setPath (substr T 0 q) r1)
      | None => Request.setPath T r1 end in
    Request.path r' = P ∧ Request.query r' = Q ∧ Request.fragment r' = F ∧
    Request.method r' = Request.method r0 ∧ Request.version r' = Request.version r0 ∧
    Request.headers r' = Request.headers r0) as Hfin.
  { intros r1 Hq1 Hf1 Hm1 Hv1 Hh1. cbv zeta.
    destruct (Nat.eqb_spec (length Q) 0) as [E|_]; cbn [negb].
    - assert (Q = []) as -> by (by destruct Q).
      rewrite app_nil_r, (proj2 (find_char_None _ _) Hpq). done.
    - rewrite find_char_here by done. unfold substr. rewrite drop_0, take_app_length.
      rewrite <- drop_drop, drop_app_length. done. }
  assert ("#"%byte ∉ P ++ (if negb (Nat.eqb (length Q) 0) then "?"%byte :: Q else [])) as Hpre.
  { destruct (negb _); set_solver. }
  destruct (Nat.eqb_spec (length F) 0) as [E|_]; cbn [negb].
  - assert (F = []) as EF by (by destruct F). rewrite !app_nil_r.
    rewrite (proj2 (find_char_None _ _) Hpre). apply Hfin; congruence.
  - rewrite app_assoc, find_char_here by done.
    unfold substr. rewrite drop_0, take_app_length.
    rewrite <- drop_drop, drop_app_length. by apply Hfin.
Qed.

(** ** The printed headers *)

Definition skipped (r : Request.HttpRequest) (p : str * str) : Prop :=
  Request.ShouldSkipHeader p.1 (Request.websocket r) (Response.nonempty (Request.body r)) = true.

#[export] Instance skipped_dec r p : Decision (skipped r p).
Proof. unfold skipped. apply _. Defined.

Definition connection_value (r : Request.HttpRequest) : str :=
  if Request.close r then $"close" else $"keep-alive".

(** The headers [dump] prints, in order. *)
Definition printed_headers (r : Request.HttpRequest) : list (str * str) :=
  filter (λ p, ¬ skipped r p) (Request.headers r) ++
  [($"Connection", connection_value r)] ++
  (if Response.nonempty (Request.body r)
   then [($"Content-Length", to_dec (size (Request.body r)))] else []).

Lemma printed_lines r hs :
  mjoin ((λ p, if Request.ShouldSkipHeader p.1 (Request.websocket r)
                    (Response.nonempty (Request.body r))
               then [] else Response.header_line p) <$> hs) =
  lines_text (line_of <$> filter (λ p, ¬ skipped r p) hs).
Proof.
  induction hs as [|p hs IH]; [done|]. rewrite filter_cons, fmap_cons.
  match goal with |- mjoin (?a :: ?b) = _ => change (mjoin (a :: b)) with (a ++ mjoin b) end.
  rewrite IH. unfold skipped at 2.
  destruct (Request.ShouldSkipHeader _ _ _) eqn:E.
  - rewrite decide_False by (intros H; by apply H). done.
  - rewrite decide_True by congruence. rewrite fmap_cons, lines_text_cons.
    unfold Response.header_line, line_of. by rewrite <- !app_assoc.
Qed.

Lemma dump_lines r :
  Request.websocket r = false →
  Request.dump r =
  lines_text (Request.request_line r :: (line_of <$> printed_headers r)) ++
  CRLF ++ Request.body r.
Proof.
  intros Hw. unfold Request.dump, printed_headers. rewrite printed_lines, Hw.
  rewrite lines_text_cons, !fmap_app, !lines_text_app, <- !app_assoc.
  do 3 f_equal. unfold line_of at 2, lines_text, connection_value. simpl fmap.
  destruct (Response.nonempty (Request.body r)); simpl mjoin; cbn [app];
    rewrite ?app_nil_r, <- ?app_assoc; done.
Qed.

(** ** Well-formed requests *)

Record wf_request (r : Request.HttpRequest) : Prop := {
  wf_method : Request.method r ≠ INVALID_METHOD;
  wf_version : Request.version r = 0x11 ∨ Request.version r = 0x10;
  wf_websocket : Request.websocket r = false;
  wf_path : Request.path r ≠ [] ∧ "#"%byte ∉ Request.path r ∧ "?"%byte ∉ Request.path r;
  wf_query : "#"%byte ∉ Request.query r;
  wf_target : Forall visible (Request.request_target r);
  wf_map : map_wf (Request.headers r);
  wf_entries : Forall (λ p, IsValidHeaderName p.1 = true ∧ IsValidHeaderValue p.2 = true ∧
    Trim p.2 = p.2 ∧ (is_transfer_encoding p → p.2 = []) ∧
    (is_content_length p → Request.body r ≠ [])) (Request.headers r);
  wf_head_size : size (Request.dump r) - size (Request.body r) <= kMaxHeaderSize;
  wf_body_size : size (Request.body r) <= kMaxBodySize;
}.

Lemma skipped_spec r p :
  Request.websocket r = false →
  skipped r p ↔
  ci_equiv p.1 $"connection" ∨ (Request.body r ≠ [] ∧ is_content_length p).
Proof.
  intros Hw. unfold skipped, Request.ShouldSkipHeader, is_content_length. rewrite Hw.
  rewrite orb_true_iff, !andb_true_iff, !CaseInsensitiveEqual_spec.
  unfold Response.nonempty. destruct (Request.body r); simpl; naive_solver.
Qed.

Lemma printed_headers_good r : wf_request r → Forall good_header (printed_headers r).
Proof.
  intros H. unfold printed_headers. rewrite !Forall_app. split_and!.
  - apply Forall_forall. intros p [_ Hp]%list_elem_of_filter.
    pose proof (wf_entries r H) as He. rewrite Forall_forall in He.
    destruct (He p Hp) as (?&?&?&_). done.
  - constructor; [|constructor]. unfold good_header, connection_value.
    by destruct (Request.close r).
  - destruct (Response.nonempty (Request.body r)); [|constructor].
    constructor; [|constructor]. apply to_dec_value, size_nonneg.
Qed.

(** ** The printed headers, parsed *)

Lemma fold_effects_plain hs st :
  Forall (λ p, ¬ is_content_length p ∧ (is_transfer_encoding p → p.2 = [])) hs →
  fold_effects hs st =
  inr (mkHeaderState (add_headers (request st) hs)
         (content_length_seen st) (parsed_content_length st)).
Proof.
  intros H. revert st. induction H as [|[k v] hs [Hc Ht] _ IH]; intros st; simpl.
  - by destruct st.
  - rewrite header_effect_plain by done. by rewrite IH.
Qed.

Lemma kept_headers_plain r :
  wf_request r →
  Forall (λ p, ¬ is_content_length p ∧ (is_transfer_encoding p → p.2 = []))
    (filter (λ p, ¬ skipped r p) (Request.headers r)).
Proof.
  intros H. apply Forall_forall. intros p [Hs Hp]%list_elem_of_filter.
  rewrite skipped_spec in Hs by apply (wf_websocket r H).
  pose proof (wf_entries r H) as He. rewrite Forall_forall in He.
  destruct (He p Hp) as (_&_&_&Ht&Hc). split; [|done].
  intros Hl. apply Hs. right. split; [by apply Hc|done].
Qed.

Lemma printed_headers_effects r st :
  wf_request r → content_length_seen st = false → parsed_content_length st = 0 →
  ∃ seen, fold_effects (printed_headers r) st =
    inr (mkHeaderState (add_headers (request st) (printed_headers r)) seen
           (size (Request.body r))).
Proof.
  intros H Hs Hz. unfold printed_headers. rewrite app_assoc.
  rewrite fold_effects_app, fold_effects_app.
  rewrite (fold_effects_plain _ _ (kept_headers_plain r H)).
  cbn [fold_effects fst snd]. rewrite header_effect_plain;
    [|by intros E; vm_compute in E|by intros E; vm_compute in E].
  cbn [request content_length_seen parsed_content_length]. rewrite Hs, Hz.
  pose proof (wf_body_size r H) as Hb. pose proof (size_nonneg (Request.body r)).
  unfold add_headers. destruct (Response.nonempty (Request.body r)) eqn:En.
  - exists true. cbn [fold_effects fst snd].
    rewrite (header_effect_length _ _ _ (size (Request.body r)));
      [|by vm_compute|done|by apply ParseContentLength_to_dec].
    cbn [request]. rewrite !foldl_app. done.
  - exists false. destruct (Request.body r); [|done]. cbn [fold_effects].
    rewrite app_nil_r, foldl_app. done.
Qed.

(** ** What the parsed headers contain *)

Definition expected_header (r : Request.HttpRequest) (key : str) : option str :=
  if decide (ci_equiv key $"connection") then Some (connection_value r)
  else if decide (Request.body r ≠ [] ∧ ci_equiv key $"content-length")
  then Some (to_dec (size (Request.body r)))
  else map_find key (Request.headers r).

(** The names of the headers [dump] copies. *)
Definition kept_name (r : Request.HttpRequest) (key : str) : Prop :=
  ¬ (ci_equiv key $"connection" ∨ (Request.body r ≠ [] ∧ ci_equiv key $"content-length")).

#[export] Instance kept_name_dec r key : Decision (kept_name r key).
Proof. unfold kept_name. apply _. Defined.

Lemma printed_map_find r key :
  wf_request r →
  map_find key (foldl (λ m p, insert_or_assign p.1 p.2 m) [] (printed_headers r)) =
  expected_header r key.
Proof.
  intros H. unfold printed_headers. rewrite !foldl_app.
  set (kept := filter (λ p, ¬ skipped r p) (Request.headers r)).
  assert (map_wf kept) as Hk by (apply map_wf_filter, (wf_map r H)).
  rewrite (insert_all_wf [] kept) by done. cbn [app foldl fst snd].
  assert (map_find key kept = if decide (kept_name r key)
    then map_find key (Request.headers r) else None) as Ek.
  { rewrite <- (map_find_filter (kept_name r));
      [|intros k k' He; unfold kept_name; by rewrite He|apply (wf_map r H)].
    f_equal. apply list_filter_iff. intros p. unfold kept_name.
    by rewrite skipped_spec by apply (wf_websocket r H). }
  unfold expected_header.
  assert (map_find key
    (if Response.nonempty (Request.body r)
     then insert_or_assign $"Content-Length" (to_dec (size (Request.body r)))
            (insert_or_assign $"Connection" (connection_value r) kept)
     else insert_or_assign $"Connection" (connection_value r) kept) =
    if decide (Request.body r ≠ [] ∧ ci_equiv key $"Content-Length")
    then Some (to_dec (size (Request.body r)))
    else if decide (ci_equiv key $"Connection") then Some (connection_value r)
    else map_find key kept) as E.
  { destruct (Response.nonempty (Request.body r)) eqn:En.
    - apply nonempty_spec in En. rewrite !map_find_insert by auto with droplet.
      repeat case_decide; naive_solver.
    - rewrite map_find_insert by auto with droplet.
      rewrite (decide_False (P := _ ∧ _)); [done|]. intros [Hne _].
      apply nonempty_spec in Hne. congruence. }
  assert (∀ k, ci_equiv k $"Content-Length" ↔ ci_equiv k $"content-length") as E1 by done.
  assert (∀ k, ci_equiv k $"Connection" ↔ ci_equiv k $"connection") as E2 by done.
  transitivity (if decide (Request.body r ≠ [] ∧ ci_equiv key $"Content-Length")
    then Some (to_dec (size (Request.body r)))
    else if decide (ci_equiv key $"Connection") then Some (connection_value r)
    else map_find key kept).
  { rewrite <- E. by destruct (Response.nonempty (Request.body r)). }
  rewrite Ek. unfold kept_name.
  destruct (decide (ci_equiv key $"connection")) as [Hc|Hc].
  - rewrite decide_False; [by rewrite decide_True|].
    intros [_ Hl]. rewrite Hc in Hl. by vm_compute in Hl.
  - destruct (decide (Request.body r ≠ [] ∧ ci_equiv key $"content-length")) as [Hl|Hl].
    + by rewrite decide_True.
    + rewrite decide_False, decide_False by done.
      rewrite decide_True; [done|]. naive_solver.
Qed.

(** ** The round trip *)

Lemma request_line_parsed r :
  wf_request r →
  CR ∉ Request.request_line r ∧
  parse_request_line (Request.request_line r) =
    inr (Request.method r, Request.request_target r, Request.version r).
Proof.
  intros H. pose proof (method_name_plain _ (wf_method r H)) as (Hs&Hcr&Hne).
  pose proof (visible_not_in _ (wf_target r H)) as (_&Ht).
  assert (Request.request_target r ≠ []) as Htne.
  { pose proof (wf_path r H) as (Hp&_). unfold Request.request_target, Response.nonempty.
    destruct (Request.path r); [done|]. done. }
  assert (∃ V, Request.request_line r = HttpMethodToString (Request.method r) ++ $" " ++
      Request.request_target r ++ $" " ++ V ∧ CR ∉ V ∧ " "%byte ∉ V ∧
      V = (if Request.version r =? 0x11 then $"HTTP/1.1" else $"HTTP/1.0")) as (V&EV&HcrV&HsV&EV').
  { exists (if Request.version r =? 0x11 then $"HTTP/1.1" else $"HTTP/1.0").
    unfold Request.request_line.
    destruct (wf_version r H) as [-> | ->]; (split; [done|split_and!; [| |done]]);
      vm_compute; set_solver. }
  split.
  - rewrite EV. change ($" ") with [" "%byte]. set_solver.
  - rewrite EV, parse_request_line_of by
      (done || apply (wf_target r H) ||
       rewrite StringToHttpMethod_ToString by apply (wf_method r H); apply (wf_method r H)).
    rewrite StringToHttpMethod_ToString by apply (wf_method r H). subst V.
    by destruct (wf_version r H) as [-> | ->].
Qed.

Lemma printed_lines_plain r :
  wf_request r → Forall (λ l, CR ∉ l ∧ l ≠ []) (line_of <$> printed_headers r).
Proof.
  intros H. apply Forall_fmap. eapply Forall_impl; [by apply printed_headers_good|].
  intros p (?&?&_). by apply line_of_plain.
Qed.

Lemma printed_lines_headers r :
  wf_request r →
  Forall2 (λ l p, header_line_of l p.1 p.2) (line_of <$> printed_headers r) (printed_headers r).
Proof.
  intros H. pose proof (printed_headers_good r H) as Hg. induction Hg as [|p hs (?&?&?) _ IH].
  - constructor.
  - rewrite fmap_cons. constructor; [by apply line_of_header|done].
Qed.

(** The head of a printed request, parsed. *)
Lemma parse_head_dump r rest :
  wf_request r →
  let r0 := apply_target (Request.request_target r)
    (Request.setMethod (Request.method r)
       (Request.make (Request.version r) (Request.version r <=? 0x10))) in
  parse_head (Request.dump r ++ rest) =
  inr (add_headers r0 (printed_headers r),
       (length (Request.dump r) - length (Request.body r))%nat, size (Request.body r)).
Proof.
  intros H r0. pose proof (wf_head_size r H) as Hk.
  pose proof (dump_lines r (wf_websocket r H)) as Ed.
  pose proof (request_line_parsed r H) as [Hcr Hrl].
  set (lines := Request.request_line r :: (line_of <$> printed_headers r)) in *.
  assert (length (Request.dump r) = length (lines_text lines) + 2 + length (Request.body r))%nat
    as El' by (rewrite Ed, !length_app; simpl; lia).
  assert (length (Request.dump r) - length (Request.body r) =
    length (lines_text lines) + 2)%nat as El by lia.
  assert (Z.of_nat (length (lines_text lines)) + 2 <= kMaxHeaderSize) as Hl.
  { unfold size in Hk. rewrite El' in Hk. lia. }
  rewrite El, Ed, <- !app_assoc. subst lines.
  rewrite parse_head_of; [|done|by apply printed_lines_plain|done].
  unfold head_of. rewrite Hrl. fold r0.
  pose proof (wf_path r H) as (Hp&Hph&Hpq).
  destruct (apply_target_of r (Request.setMethod (Request.method r)
       (Request.make (Request.version r) (Request.version r <=? 0x10))))
    as (Ep&_); [done..|by apply (wf_query r H)|done|done|]. fold r0 in Ep.
  rewrite Ep. rewrite (proj2 (nonempty_spec _)) by done. cbn [negb].
  rewrite (fold_lines_effects _ _ _ (printed_lines_headers r H)).
  destruct (printed_headers_effects r (mkHeaderState r0 false 0)) as [seen Es]; [done..|].
  rewrite Es. cbn [parsed_content_length request].
  pose proof (wf_body_size r H) as Hb. unfold kMaxBodySize in *.
  rewrite (proj2 (Z.ltb_ge _ _)) by lia.
  rewrite (proj2 (Z.ltb_ge _ _)); [done|].
  unfold kMaxHeaderSize, size_max, u64_max in *. lia.
Qed.

(** The connection decision of a parsed request, from its header map. *)
Lemma initConnection_expected r r' :
  map_find $"connection" (Request.headers r') = Some (connection_value r) →
  Request.close (Request.initConnection r') = Request.close r.
Proof.
  intros Hf. unfold Request.initConnection, Request.getHeader. rewrite Hf.
  unfold connection_value. by destruct (Request.close r).
Qed.

Definition same_request (r r' : Request.HttpRequest) : Prop :=
  Request.method r' = Request.method r ∧ Request.version r' = Request.version r ∧
  Request.path r' = Request.path r ∧ Request.query r' = Request.query r ∧
  Request.fragment r' = Request.fragment r ∧ Request.body r' = Request.body r ∧
  Request.close r' = Request.close r ∧
  ∀ key, map_find key (Request.headers r') = expected_header r key.

Lemma initConnection_fields r :
  let r' := Request.initConnection r in
  Request.method r' = Request.method r ∧ Request.version r' = Request.version r ∧
  Request.path r' = Request.path r ∧ Request.query r' = Request.query r ∧
  Request.fragment r' = Request.fragment r ∧ Request.body r' = Request.body r ∧
  Request.headers r' = Request.headers r.
Proof. destruct (Request.initConnection_shape r) as [b ->]. done. Qed.

Lemma parse_dump r rest :
  wf_request r →
  ∃ r', parse_message (Request.dump r ++ rest) =
      inr (length (Request.dump r), r', size (Request.body r)) ∧ same_request r r'.
Proof.
  intros H. unfold parse_message. rewrite parse_head_dump by done.
  pose proof (wf_head_size r H) as Hk. pose proof (wf_body_size r H) as Hb.
  pose proof (dump_lines r (wf_websocket r H)) as Ed.
  set (lines := lines_text _) in Ed.
  assert (length (Request.dump r) = length lines + 2 + length (Request.body r))%nat as El
    by (rewrite Ed, !length_app; simpl; lia).
  unfold size in *. unfold kMaxHeaderSize, kMaxBodySize in *.
  rewrite wrap_small by lia. rewrite length_app.
  rewrite (proj2 (Z.ltb_ge _ _)) by lia.
  match goal with |- context [Request.initConnection (Request.setBody ?b ?x)] =>
    set (r0 := x); assert (b = Request.body r) as Eb end.
  { rewrite Ed, <- !app_assoc. rewrite !length_app. simpl length.
    replace (length lines + (2 + length (Request.body r)) - length (Request.body r))%nat
      with (length (lines ++ CRLF)) by (rewrite length_app; simpl; lia).
    rewrite Nat2Z.id, (app_assoc lines). apply substr_at. }
  rewrite Eb. eexists. split; [do 3 f_equal; lia|].
  pose proof (wf_path r H) as (Hp&Hph&Hpq).
  destruct (apply_target_of r (Request.setMethod (Request.method r)
       (Request.make (Request.version r) (Request.version r <=? 0x10))))
    as (E1&E2&E3&E4&E5&E6); [done..|by apply (wf_query r H)|done|done|].
  set (r1 := apply_target _ _) in *.
  destruct (add_headers_fields r1 (printed_headers r)) as (F1&F2&F3&F4&F5&F6).
  fold r0 in F1, F2, F3, F4, F5, F6.
  destruct (initConnection_fields (Request.setBody (Request.body r) r0))
    as (G1&G2&G3&G4&G5&G6&G7).
  assert (∀ key, map_find key (Request.headers r0) = expected_header r key) as Hh.
  { intros key. rewrite F6, E6. by apply printed_map_find. }
  unfold same_request. rewrite G1, G2, G3, G4, G5, G6, G7.
  split_and!; [exact (eq_trans F1 E4)|exact (eq_trans F2 E5)|exact (eq_trans F3 E1)
    |exact (eq_trans F4 E2)|exact (eq_trans F5 E3)|done| |exact Hh].
  apply initConnection_expected.
  change (map_find $"connection" (Request.headers r0) = Some (connection_value r)).
  rewrite Hh. unfold expected_header. by rewrite decide_True.
Qed.

(** ** What was parsed *)

(** The wire form of a message: a request line, header lines of the grammar
    [name ":" blanks value blanks], an empty line and a body of the length the
    only [Content-Length] header announces (zero without one); no non-empty
    [Transfer-Encoding]. *)
Definition message_on_wire (wire : str) (r : Request.HttpRequest) : Prop :=
  ∃ rl lines hs n,
    wire = lines_text (rl :: lines) ++ CRLF ++ Request.body r ∧
    parse_request_line rl = inr (Request.method r, n, Request.version r) ∧
    Forall2 (λ l p, header_line_of l p.1 p.2) lines hs ∧
    Forall (λ p, is_transfer_encoding p → p.2 = []) hs ∧
    ((filter is_content_length hs = [] ∧ Request.body r = []) ∨
     (∃ p, filter is_content_length hs = [p] ∧
       ParseContentLength p.2 = Some (size (Request.body r)))) ∧
    Request.headers r = foldl (λ m p, insert_or_assign p.1 p.2 m) [] hs ∧
    size (lines_text (rl :: lines)) + 2 <= kMaxHeaderSize ∧
    size (Request.body r) <= kMaxBodySize.

Lemma apply_target_fields t r :
  Request.method (apply_target t r) = Request.method r ∧
  Request.version (apply_target t r) = Request.version r ∧
  Request.headers (apply_target t r) = Request.headers r.
Proof.
  unfold apply_target. destruct (find_char "#"%byte t);
    match goal with |- context [find_char "?"%byte ?x] => destruct (find_char "?"%byte x) end;
    done.
Qed.

Lemma parsed_on_wire i n r cl :
  parse_message i = inr (n, r, cl) → message_on_wire (take n i) r.
Proof.
  intros (r0&hs&Hh&->&Hn&H4&Hk&Hcl&->)%parse_message_inr.
  set (b := substr i hs (Z.to_nat cl)).
  assert (size b = cl) as Hb.
  { subst b. unfold size, substr. rewrite length_take, length_drop. lia. }
  destruct (initConnection_fields (Request.setBody b r0)) as (G1&G2&_&_&_&G6&G7).
  pose proof (parse_head_sound _ _ _ _ Hh) as (rl&ls&Hw&Ho). unfold head_of in Ho.
  destruct (parse_request_line rl) as [|[[m t] v]] eqn:El; [done|].
  destruct (negb _); [done|].
  destruct (apply_target_fields t (Request.setMethod m (Request.make v (v <=? 0x10))))
    as (E1&E2&E3).
  destruct (fold_lines _ ls _) as [|st] eqn:Ef; [done|].
  destruct (kMaxBodySize <? _); [done|]. destruct (size_max - _ <? _); [done|].
  injection Ho as Er Ec.
  apply fold_lines_inv in Ef as (hdrs&Hf2&Hfe).
  apply fold_effects_framing in Hfe as (Hlen&Hte&Hreq).
  cbn [request parsed_content_length content_length_seen] in *.
  rewrite Er in Hreq. rewrite Ec in Hlen.
  destruct (add_headers_fields (apply_target t (Request.setMethod m (Request.make v (v <=? 0x10)))) hdrs)
    as (F1&F2&_&_&_&F6). rewrite <- Hreq in F1, F2, F6.
  exists rl, ls, hdrs, t. unfold message_on_wire. rewrite G1, G2, G6, G7.
  change (Request.method (Request.setBody b r0)) with (Request.method r0).
  change (Request.version (Request.setBody b r0)) with (Request.version r0).
  change (Request.headers (Request.setBody b r0)) with (Request.headers r0).
  change (Request.body (Request.setBody b r0)) with b.
  rewrite F1, F2, F6, E1, E2, E3.
  split_and!; try done.
  - rewrite app_assoc, <- Hw. subst b. unfold substr.
    pose proof (segment_split i 0 hs (hs + Z.to_nat cl) ltac:(lia)) as S.
    rewrite drop_0 in S. rewrite S. unfold substr. rewrite drop_0, Nat.sub_0_r.
    f_equal. by rewrite take_drop_commute.
  - rewrite Hb. destruct Hlen as [(Hl&Hz&_)|(p&k&Hl&Hp&->&_)].
    + left. split; [done|]. unfold size in Hb. destruct b; [done|simpl in Hb; lia].
    + right. by exists p.
  - assert (length (take hs i) = hs) as Hlt by (rewrite length_take; lia).
    rewrite Hw, length_app in Hlt. simpl length in Hlt. unfold size.
    change (length CRLF) with 2%nat in Hlt. lia.
  - lia.
Qed.

(** ** The parser object *)

Lemma parse_message_stops i s :
  parse_message i = inl s →
  (s = NeedMore ∧ size i < kMaxHeaderSize + kMaxBodySize) ∨ blames s.
Proof.
  unfold parse_message. destruct (parse_head i) as [s'|[[r hs] cl]] eqn:Eh.
  - intros [= <-]. apply parse_head_stops in Eh as [[-> ?]|?]; [left|by right].
    split; [done|]. unfold kMaxHeaderSize, kMaxBodySize in *. lia.
  - apply parse_head_inr in Eh as (?&?&?&_). rewrite message_size_exact by done.
    destruct (size i <? _) eqn:Es; [|done]. intros [= <-]. left. split; [done|]. lia.
Qed.

Lemma parse_message_not_fuel i : parse_message i ≠ inl OutOfFuel.
Proof. by intros [[? ?]|?]%parse_message_stops. Qed.

(** The three outcomes of a call on a parser that is still waiting. *)
Variant parse_outcome (i : str) (p : HttpRequestParser) : nat * HttpRequestParser → Prop :=
  | parse_waits : parse_message i = inl NeedMore → parse_outcome i p (0%nat, p)
  | parse_fails e m : parse_message i = inl (Fail e m) →
      parse_outcome i p (0%nat, setError e m p)
  | parse_finishes n r cl : parse_message i = inr (n, r, cl) → (4 ≤ n ≤ length i)%nat →
      parse_outcome i p (n, mkHttpRequestParser r (error p) (error_message p) cl true).

Lemma parse_cases i p : parse_outcome i p (parse i p).
Proof.
  unfold parse. destruct (parse_message i) as [[|e m|]|[[n r] cl]] eqn:E.
  - by constructor.
  - by constructor.
  - by apply parse_message_not_fuel in E.
  - constructor; [done|]. apply parse_message_inr in E as (?&?&?&?&?&?&_). lia.
Qed.

(** ** Main theorems *)

(** C1: a well-formed request survives the wire. What [HttpRequest::dump]
    prints, followed by any further bytes, is parsed by a fresh parser in one
    call: exactly the printed bytes are consumed, the parser finishes, and the
    request it holds has the same method, version, path, query, fragment, body
    and connection mode, and as headers the original ones with the
    [Connection] and [Content-Length] headers the printer writes. *)
Theorem request_round_trip r rest :
  wf_request r →
  ∃ r', execute (Request.dump r ++ rest) make =
      (length (Request.dump r),
       mkHttpRequestParser r' NONE [] (size (Request.body r)) true) ∧
    same_request r r'.
Proof.
  intros H. destruct (parse_dump r rest H) as (r'&E&Hs). exists r'. split; [|done].
  unfold execute, parse. by rewrite E.
Qed.

(** A request with a query, a fragment, headers and a body. *)
Definition sample_request : Request.HttpRequest :=
  Request.setBody $"abc"
    (Request.setHeader $"Host" $"example"
       (Request.setQuery $"x=1"
          (Request.setFragment $"top"
             (Request.setPath $"/a" (Request.setMethod POST (Request.make 0x11 false)))))).

Lemma sample_request_wf : wf_request sample_request.
Proof.
  split; try (vm_compute; congruence).
  - by left.
  - split_and!; [done|by apply (bool_decide_unpack _)..].
  - by apply (bool_decide_unpack _).
  - by repeat constructor.
  - apply insert_or_assign_wf, map_wf_nil.
  - constructor; [|constructor]. by split_and!; try by vm_compute.
Qed.

Lemma request_round_trip_witness :
  wf_request sample_request ∧
  ∃ r', execute (Request.dump sample_request ++ $"GET /") make =
      (length (Request.dump sample_request),
       mkHttpRequestParser r' NONE [] (size (Request.body sample_request)) true) ∧
    same_request sample_request r'.
Proof.
  split; [exact sample_request_wf|].
  exact (request_round_trip sample_request $"GET /" sample_request_wf).
Defined.

(** C2: no request smuggling. When the parser accepts a request, the bytes it
    consumed are the wire form of that request: one request line, header lines
    of the grammar, an empty line, and a body whose length is announced by the
    only [Content-Length] header (no body without one), with no transfer
    coding and with both limits respected. *)
Theorem accepted_request_framing i p n p' :
  finished p = false → hasError p = false →
  execute i p = (n, p') → finished p' = true →
  (n ≤ length i)%nat ∧ message_on_wire (take n i) (data p').
Proof.
  intros Hf He H Hf'. unfold execute in H. rewrite Hf, He in H. cbn [orb] in H.
  destruct (parse_cases i p) as [|e m|k r cl Hm Hk]; injection H as <- <-;
    [congruence|done|]. split; [lia|]. by eapply parsed_on_wire.
Qed.

Definition sample_wire : str :=
  $"POST /a HTTP/1.1" ++ CRLF ++ $"Host: h" ++ CRLF ++ $"content-length: 3" ++ CRLF ++
  CRLF ++ $"abcGET".

Lemma accepted_request_framing_witness :
  ∃ n p', execute sample_wire make = (n, p') ∧
    (n ≤ length sample_wire)%nat ∧ message_on_wire (take n sample_wire) (data p').
Proof.
  exists (execute sample_wire make).1, (execute sample_wire make).2.
  split; [apply surjective_pairing|].
  apply (accepted_request_framing sample_wire make); [reflexivity|reflexivity| |].
  - apply surjective_pairing.
  - vm_compute. reflexivity.
Defined.

(** C31: the verdict does not depend on how the bytes were cut. A call on a
    prefix of the stream either leaves the parser untouched and consumes
    nothing (it waits), or its outcome is exactly the outcome of a call on
    any longer input. *)
Theorem execute_prefix_verdict i s p :
  execute i p = (0%nat, p) ∨ execute (i ++ s) p = execute i p.
Proof.
  unfold execute. destruct (finished p || hasError p); [by left|].
  destruct (parse_cases i p) as [E|e m E|n r cl E ?]; [by left|right..];
    unfold parse; rewrite parse_message_stable by congruence; by rewrite E.
Qed.

(** C32: the parser always decides. It is finished or in error after a call on
    an input as long as the two limits together, its fuel is never exhausted,
    the bytes it consumes are within the input and it consumes some exactly
    when it finishes; finished and failed parsers no longer move. *)
Theorem execute_decides i p :
  let '(n, p') := execute i p in
  (n ≤ length i)%nat ∧
  (n = 0%nat ↔ finished p' = finished p) ∧
  (kMaxHeaderSize + kMaxBodySize <= size i → finished p' = true ∨ hasError p' = true) ∧
  (finished p = true ∨ hasError p = true → p' = p) ∧
  parse_message i ≠ inl OutOfFuel.
Proof.
  unfold execute. destruct (finished p || hasError p) eqn:Ef.
  { apply orb_true_iff in Ef. split_and!; try done; [lia|apply parse_message_not_fuel]. }
  apply orb_false_iff in Ef as [Hf He].
  pose proof (parse_message_not_fuel i) as Hn.
  destruct (parse_cases i p) as [H|e m H|k r cl H Hk]; split_and!;
    try done; try lia; try (rewrite ?Hf, ?He; intros [?|?]; done).
  - intros Hs. apply parse_message_stops in H as [[_ ?]|[]]. lia.
  - intros _. right. unfold hasError. simpl. apply bool_decide_eq_true.
    intros ->. by apply parse_message_stops in H as [[? _]|[]].
  - cbn [finished]. rewrite Hf. split; [lia|done].
  - intros _. by left.
Qed.

End RequestRoundTrip.
