(* ===== verification/ResponseParser.v ===== *)
(** [HttpResponseParser] ([droplet/src/http/http_parser.cc], second half): the
    status line, the header lines with their combined fields, the four ways a
    body is delimited (none, [Content-Length], chunked with trailers, end of
    the connection) and the parser object. *)

From S2P Require Import Prelude Http HeaderText HttpResponse HttpRequest HttpParser HeaderBlock.
Import Http HeaderText ParserText HeaderBlock.

Module ResponseParser.

(** ** The status line *)

Definition headers_too_large : str := $"HTTP response headers exceed the configured limit".

Definition bad_status (m : str) {A} : result A := inl (Fail INVALID_STATUS m).

(** Version, status code and reason phrase. *)
Definition parse_status_line (status_line : str) : result (Z * Z * str) :=
  if (length status_line <? 12)%nat ||
     negb (bool_decide (status_line !! 8%nat = Some " "%byte))
  then bad_status $"HTTP status line must contain version and status code"
  else
    let! version :=
      (if str_eqb (substr status_line 0 8) $"HTTP/1.1" then inr 0x11
       else if str_eqb (substr status_line 0 8) $"HTTP/1.0" then inr 0x10
       else inl (Fail INVALID_VERSION
                   $"only HTTP/1.0 and HTTP/1.1 responses are supported")) in
    let reason_begin := find_char_at " "%byte status_line 9 in
    let status_text :=
      substr status_line 9
        (match reason_begin with
         | None => (length status_line - 9)%nat
         | Some r => (r - 9)%nat
         end) in
    if negb (Nat.eqb (length status_text) 3)
    then bad_status $"HTTP status code must contain exactly three digits"
    else
      match from_chars_all 16 10 status_text with
      | None => bad_status $"invalid HTTP status code"
      | Some status =>
          if (status <? 100) || (999 <? status)
          then bad_status $"invalid HTTP status code"
          else
            let reason :=
              match reason_begin with
              | None => []
              | Some r => drop (r + 1) status_line
              end in
            if negb (IsValidHeaderValue reason)
            then bad_status $"HTTP reason phrase contains an invalid character"
            else inr (version, status, reason)
      end.

(** ** The headers *)

(** The locals of the header loop. *)
Record header_state := mkHeaderState {
  response : Response.HttpResponse;
  content_length_seen : bool;
  transfer_encoding_seen : bool;
  connection_seen : bool;
  parsed_content_length : Z;
  transfer_encoding : str;
  connection_header : str;
}.

Definition initial_state (r : Response.HttpResponse) : header_state :=
  mkHeaderState r false false false 0 [] [].

(** [if (seen) text.push_back(','); text.append(value)]. *)
Definition append_field (seen : bool) (text value : str) : str :=
  (if seen then text ++ $"," else text) ++ value.

(** The first chain of tests: framing and connection fields are collected. *)
Definition collect_field (name value : str) (st : header_state) : result header_state :=
  if CaseInsensitiveEqual name $"content-length" then
    match (if content_length_seen st then None else ParseContentLength value) with
    | None =>
        inl (Fail INVALID_CONTENT_LENGTH
               $"Content-Length must be one unsigned decimal value")
    | Some current_length =>
        inr (mkHeaderState (response st) true (transfer_encoding_seen st)
               (connection_seen st) current_length (transfer_encoding st)
               (connection_header st))
    end
  else if CaseInsensitiveEqual name $"transfer-encoding" then
    inr (mkHeaderState (response st) (content_length_seen st) true
           (connection_seen st) (parsed_content_length st)
           (append_field (transfer_encoding_seen st) (transfer_encoding st) value)
           (connection_header st))
  else if CaseInsensitiveEqual name $"connection" then
    inr (mkHeaderState (response st) (content_length_seen st)
           (transfer_encoding_seen st) true (parsed_content_length st)
           (transfer_encoding st)
           (append_field (connection_seen st) (connection_header st) value))
  else inr st.

(** The second chain: what is stored in the response. *)
Definition store_field (name value : str) (r : Response.HttpResponse)
    : Response.HttpResponse :=
  if CaseInsensitiveEqual name $"set-cookie" then Response.addCookie value r
  else if negb (CaseInsensitiveEqual name $"transfer-encoding") &&
          negb (CaseInsensitiveEqual name $"connection")
  then Response.setHeader name value r
  else r.

Definition header_effect (name value : str) (st : header_state) : result header_state :=
  let! st := collect_field name value st in
  inr (mkHeaderState (store_field name value (response st)) (content_length_seen st)
         (transfer_encoding_seen st) (connection_seen st) (parsed_content_length st)
         (transfer_encoding st) (connection_header st)).

Definition header_line_step (line : str) (st : header_state) : result header_state :=
  let! (name, value) :=
    split_header_line $"HTTP response header line is missing ':'"
      $"HTTP response header contains an invalid name or value" line in
  header_effect name value st.

Definition response_header_loop :=
  header_loop $"HTTP response header line is not terminated with CRLF" header_line_step.

(** The fields that were collected are stored as one header each. *)
Definition store_collected (st : header_state) : Response.HttpResponse :=
  let r := response st in
  let r := if transfer_encoding_seen st
           then Response.setHeader $"Transfer-Encoding" (transfer_encoding st) r else r in
  if connection_seen st
  then Response.setHeader $"Connection" (connection_header st) r else r.

(** Everything before the body. *)
Record head := mkHead {
  head_response : Response.HttpResponse;
  head_status : Z;
  header_size : nat;
  announced_length : option Z;
  coding : option str;
}.

Definition parse_head (input : str) : result head :=
  let! header_end := find_header_end headers_too_large input in
  let header_size := (header_end + 4)%nat in
  let! status_line_end :=
    find_first_line (Fail INVALID_STATUS $"HTTP status line is incomplete")
      input header_end in
  let! (version, status, reason) :=
    parse_status_line (substr input 0 status_line_end) in
  let response :=
    Response.setReason reason
      (Response.setStatus status (Response.make version (version <=? 0x10))) in
  let! st := response_header_loop header_end input header_end (status_line_end + 2)
               (initial_state response) in
  if content_length_seen st && transfer_encoding_seen st
  then inl (Fail INVALID_CONTENT_LENGTH
              $"Content-Length and Transfer-Encoding cannot be combined")
  else if kMaxBodySize <? parsed_content_length st
  then inl (Fail BODY_TOO_LARGE $"HTTP response body exceeds the configured limit")
  else
    inr (mkHead (Response.initConnection (store_collected st)) status header_size
           (if content_length_seen st then Some (parsed_content_length st) else None)
           (if transfer_encoding_seen st then Some (transfer_encoding st) else None)).

(** ** Chunked bodies *)

Definition size_t_sub (a b : Z) : Z := wrap 64 (a - b).

(** One trailer line. *)
Definition trailer_step (trailer : str) (r : Response.HttpResponse)
    : result Response.HttpResponse :=
  let! (name, value) :=
    split_field $"HTTP trailer line is missing ':'"
      $"HTTP trailer contains an invalid name or value" trailer in
  inr (if negb (CaseInsensitiveEqual name $"content-length") &&
          negb (CaseInsensitiveEqual name $"transfer-encoding")
       then Response.setHeader name value r else r).

(** The inner loop: trailers up to the empty line. *)
Fixpoint trailer_loop (fuel : nat) (input : str) (trailers_begin position : nat)
    (r : Response.HttpResponse) : result (nat * Response.HttpResponse) :=
  match fuel with
  | O => inl OutOfFuel
  | S fuel' =>
      match find_sub_at CRLF input position with
      | None =>
          if kMaxHeaderSize <? size_t_sub (size input) (Z.of_nat trailers_begin)
          then inl (Fail HEADER_TOO_LARGE $"HTTP trailers exceed the configured limit")
          else inl NeedMore
      | Some trailer_end =>
          if kMaxHeaderSize <? size_t_sub (Z.of_nat trailer_end) (Z.of_nat trailers_begin)
          then inl (Fail HEADER_TOO_LARGE $"HTTP trailers exceed the configured limit")
          else
            let trailer := substr input position (trailer_end - position) in
            let position := (trailer_end + 2)%nat in
            if Nat.eqb (length trailer) 0 then inr (position, r)
            else
              let! r := trailer_step trailer r in
              trailer_loop fuel' input trailers_begin position r
      end
  end.

(** The outer loop: chunks up to the one of size zero. *)
Fixpoint chunk_loop (fuel : nat) (input : str) (position : nat) (body : str)
    (r : Response.HttpResponse) : result (nat * str * Response.HttpResponse) :=
  match fuel with
  | O => inl OutOfFuel
  | S fuel' =>
      match find_sub_at CRLF input position with
      | None =>
          if kMaxHeaderSize <? size_t_sub (size input) (Z.of_nat position)
          then inl (Fail HEADER_TOO_LARGE
                      $"HTTP chunk metadata exceeds the configured limit")
          else inl NeedMore
      | Some chunk_line_end =>
          match ParseChunkSize (substr input position (chunk_line_end - position)) with
          | None => inl (Fail INVALID_CHUNK_SIZE $"invalid HTTP chunk size")
          | Some chunk_size =>
              let position := (chunk_line_end + 2)%nat in
              if chunk_size =? 0 then
                let! (position, r) :=
                  trailer_loop (S (length input)) input position position r in
                inr (position, body, r)
              else if size_t_sub kMaxBodySize (size body) <? chunk_size
              then inl (Fail BODY_TOO_LARGE
                          $"HTTP chunked body exceeds the configured limit")
              else if size_t_sub (size_t_sub size_max (Z.of_nat position)) 2 <? chunk_size
              then inl (Fail BODY_TOO_LARGE $"HTTP chunk size overflows size_t")
              else
                let data_end := (position + Z.to_nat chunk_size)%nat in
                if (length input <? data_end + 2)%nat then inl NeedMore
                else if negb (str_eqb (substr input data_end 2) CRLF)
                then inl (Fail INVALID_CHUNK_SIZE
                            $"HTTP chunk data is not followed by CRLF")
                else
                  chunk_loop fuel' input (data_end + 2)
                    (body ++ substr input position (Z.to_nat chunk_size)) r
          end
      end
  end.

(** ** A whole message *)

(** The bytes consumed, the response, [content_length_] and [chunked_]. *)
Record message := mkMessage {
  consumed : nat; parsed : Response.HttpResponse; body_length : Z; was_chunked : bool
}.

(** Whether [close_delimited_] was set, and the outcome. *)
Definition parse_message (request_method : HttpMethod) (input : str) (eof : bool)
    : bool * result message :=
  match parse_head input with
  | inl s => (false, inl s)
  | inr h =>
      let response := head_response h in
      let header_size := header_size h in
      if ResponseHasNoBody request_method (head_status h) then
        (false, inr (mkMessage header_size response 0 false))
      else
        match coding h with
        | Some transfer_encoding =>
            if negb (HeaderContainsFinalChunked transfer_encoding)
            then (false, inl (Fail UNSUPPORTED_TRANSFER_ENCODING
                                $"the final Transfer-Encoding must be chunked"))
            else
              (false,
               let! (position, body, response) :=
                 chunk_loop (S (length input)) input header_size [] response in
               inr (mkMessage position
                      (Response.initConnection (Response.setBody body response))
                      (size body) true))
        | None =>
            match announced_length h with
            | Some length =>
                (false,
                 if size_max - Z.of_nat header_size <? length
                 then inl (Fail BODY_TOO_LARGE $"HTTP response size overflows size_t")
                 else
                   let message_size := wrap 64 (Z.of_nat header_size + length) in
                   if size input <? message_size then inl NeedMore
                   else
                     inr (mkMessage (Z.to_nat message_size)
                            (Response.setBody
                               (substr input header_size (Z.to_nat length)) response)
                            length false))
            | None =>
                let response := Response.setClose true response in
                (true,
                 if kMaxBodySize <? size_t_sub (size input) (Z.of_nat header_size)
                 then inl (Fail BODY_TOO_LARGE
                             $"HTTP close-delimited body exceeds the configured limit")
                 else if negb eof then inl NeedMore
                 else
                   let body := drop header_size input in
                   inr (mkMessage (length input) (Response.setBody body response)
                          (size body) false))
            end
        end
  end.

(** ** The parser object *)

Record HttpResponseParser := mkHttpResponseParser {
  data : Response.HttpResponse;
  request_method : HttpMethod;
  error : HttpParseError;
  error_message : str;
  content_length : Z;
  chunked : bool;
  close_delimited : bool;
  finished : bool;
}.

Definition default_response : Response.HttpResponse := Response.make 0x11 true.

Definition make (request_method : HttpMethod) : HttpResponseParser :=
  mkHttpResponseParser default_response request_method NONE [] 0 false false false.

Definition reset (request_method : HttpMethod) (p : HttpResponseParser)
    : HttpResponseParser :=
  mkHttpResponseParser default_response request_method NONE [] 0 false false false.

Definition hasError (p : HttpResponseParser) : bool := bool_decide (error p ≠ NONE).

Definition setError (e : HttpParseError) (m : str) (p : HttpResponseParser)
    : HttpResponseParser :=
  mkHttpResponseParser (data p) (request_method p) e m (content_length p) (chunked p)
    (close_delimited p) false.

Definition set_close_delimited (p : HttpResponseParser) : HttpResponseParser :=
  mkHttpResponseParser (data p) (request_method p) (error p) (error_message p)
    (content_length p) (chunked p) true (finished p).

Definition parse (input : str) (eof : bool) (p : HttpResponseParser)
    : nat * HttpResponseParser :=
  let '(close_delimited_set, outcome) := parse_message (request_method p) input eof in
  let p := if close_delimited_set then set_close_delimited p else p in
  match outcome with
  | inl (Fail e m) => (0%nat, setError e m p)
  | inl _ => (0%nat, p)
  | inr m =>
      (consumed m,
       mkHttpResponseParser (parsed m) (request_method p) (error p) (error_message p)
         (body_length m) (if was_chunked m then true else chunked p)
         (close_delimited p) true)
  end.

Definition execute (input : str) (eof : bool) (p : HttpResponseParser)
    : nat * HttpResponseParser :=
  if finished p || hasError p then (0%nat, p) else parse input eof p.

(** [execute(char *data, std::size_t length, bool eof)]. *)
Definition execute_buffer (buffer : option str) (eof : bool) (p : HttpResponseParser)
    : nat * option str * HttpResponseParser :=
  match buffer with
  | None => (0%nat, buffer, p)
  | Some input =>
      if finished p || hasError p then (0%nat, buffer, p)
      else
        let '(consumed, p) := parse input eof p in
        if negb (Nat.eqb consumed 0) && (consumed <? length input)%nat
        then (consumed,
              Some (drop consumed input ++ drop (length input - consumed) input), p)
        else (consumed, buffer, p)
  end.

Example parse_chunked_response :
  let wire := $"HTTP/1.1 200 OK" ++ CRLF ++ $"Transfer-Encoding: gzip" ++ CRLF ++
    $"transfer-encoding: chunked" ++ CRLF ++ $"Set-Cookie: a=b" ++ CRLF ++ CRLF ++
    $"5;x=y" ++ CRLF ++ $"hello" ++ CRLF ++ $"2" ++ CRLF ++ $"!!" ++ CRLF ++ $"0" ++
    CRLF ++ $"Trailer: t" ++ CRLF ++ CRLF ++ $"HTTP" in
  (λ m, (Response.body (parsed m), Response.cookies (parsed m),
         Response.getHeader $"trailer" [] (parsed m), body_length m, was_chunked m,
         drop (consumed m) wire)) <$>
    match (parse_message GET wire false).2 with inr m => Some m | inl _ => None end
  = Some ($"hello!!", [$"a=b"], $"t", 7, true, $"HTTP").
Proof. vm_compute. reflexivity. Qed.

(** ** Lemmas: the head *)

Lemma parse_status_line_blames l s : parse_status_line l = inl s → blames s.
Proof. unfold parse_status_line, bad_status. intros H. repeat case_in H; naive_solver. Qed.

Lemma response_line_step_blames line st s : header_line_step line st = inl s → blames s.
Proof.
  unfold header_line_step. destruct (split_header_line _ _ line) as [s'|[n v]] eqn:E.
  - intros [= <-]. by apply split_header_line_blames in E.
  - unfold header_effect, collect_field. intros H. repeat case_in H; naive_solver.
Qed.

Lemma response_head_stops i s :
  parse_head i = inl s → (s = NeedMore ∧ size i <= kMaxHeaderSize) ∨ blames s.
Proof.
  unfold parse_head. destruct (find_header_end _ i) as [s'|h] eqn:Eh.
  { intros [= <-]. apply find_header_end_error in Eh as [?| ->]; [by left|by right]. }
  apply find_header_end_inr in Eh as [Hh _]. intros H. right. revert H.
  destruct (find_first_line_inr (Fail INVALID_STATUS $"HTTP status line is incomplete") i h Hh)
    as (e&->&He&?).
  destruct (parse_status_line _) as [s'|[[? ?] ?]] eqn:El.
  { intros [= <-]. by apply parse_status_line_blames in El. }
  destruct (response_header_loop _ _ _ _ _) as [s'|st] eqn:Ell.
  { intros [= <-]. revert Ell. apply header_loop_outcome; [|done|lia].
    intros line st s''. apply response_line_step_blames. }
  destruct (_ && _); [by intros [= <-]|].
  destruct (kMaxBodySize <? _); [by intros [= <-]|done].
Qed.

Lemma response_head_stable i s :
  parse_head i ≠ inl NeedMore → parse_head (i ++ s) = parse_head i.
Proof.
  unfold parse_head. intros Hn.
  assert (find_header_end headers_too_large i ≠ inl NeedMore) as Hne
    by (intros E; by rewrite E in Hn).
  rewrite (find_header_end_stable _ i s Hne).
  destruct (find_header_end _ i) as [st|h] eqn:E; [done|].
  apply find_header_end_inr in E as [Hh _].
  rewrite (find_first_line_stable _ i s h Hh).
  destruct (find_first_line_inr (Fail INVALID_STATUS $"HTTP status line is incomplete") i h Hh)
    as (e&->&He&?).
  pose proof (header_end_facts i h Hh) as (?&_).
  rewrite substr_app_l by lia.
  destruct (parse_status_line _) as [|[[? ?] ?]]; [done|].
  unfold response_header_loop. by rewrite header_loop_stable.
Qed.

Lemma response_line_step_length line st st' :
  header_line_step line st = inr st' →
  0 <= parsed_content_length st < 2 ^ 64 →
  0 <= parsed_content_length st' < 2 ^ 64.
Proof.
  unfold header_line_step. destruct (split_header_line _ _ line) as [s'|[n v]]; [done|].
  unfold header_effect, collect_field. intros H Hst.
  destruct (CaseInsensitiveEqual _ $"content-length").
  - destruct (content_length_seen st); [done|].
    destruct (ParseContentLength _) as [z|] eqn:E; [|done].
    injection H as <-. simpl. unfold ParseContentLength in E.
    destruct (TrimOptionalWhitespace _); [done|].
    by apply from_chars_all_range in E; [|lia].
  - destruct (CaseInsensitiveEqual _ $"transfer-encoding"); [by injection H as <-|].
    destruct (CaseInsensitiveEqual _ $"connection"); by injection H as <-.
Qed.

(** What a parsed head guarantees. *)
Lemma response_head_inr i h :
  parse_head i = inr h →
  (4 ≤ header_size h ≤ length i)%nat ∧ Z.of_nat (header_size h) <= kMaxHeaderSize ∧
  (∀ n, announced_length h = Some n → 0 <= n <= kMaxBodySize ∧ coding h = None).
Proof.
  unfold parse_head. intros E.
  destruct (find_header_end _ i) as [|e] eqn:Eh; [done|].
  apply find_header_end_inr in Eh as [Hh Hk].
  pose proof (header_end_facts _ _ Hh) as (?&_).
  destruct (find_first_line _ _ _) as [|l]; [done|].
  destruct (parse_status_line _) as [|[[? ?] ?]]; [done|].
  destruct (response_header_loop _ _ _ _ _) as [|st] eqn:El; [done|].
  apply (header_loop_preserves _ _ (λ st, 0 <= parsed_content_length st < 2 ^ 64)) in El;
    [|apply response_line_step_length|done].
  destruct (_ && _) eqn:Es; [done|].
  destruct (kMaxBodySize <? _) eqn:Eb; [done|]. injection E as <-. simpl.
  split_and!; [lia..|]. intros n. destruct (content_length_seen st); [|done].
  simpl in Es. rewrite Es. intros [= <-]. split; [lia|done].
Qed.

(** ** Lemmas: the chunk loops *)

Lemma find_line_end_bounds i pos e :
  find_sub_at CRLF i pos = Some e → (pos ≤ e ∧ e + 2 ≤ length i)%nat.
Proof.
  intros H. destruct (decide (pos ≤ length i)%nat).
  - apply find_sub_at_bounds in H; [|done]. simpl in H. lia.
  - unfold find_sub_at in H. by rewrite drop_ge in H by lia.
Qed.

Lemma trailer_step_blames l r s : trailer_step l r = inl s → blames s.
Proof. unfold trailer_step, split_field. intros H. repeat case_in H; naive_solver. Qed.

Lemma trailer_loop_stops fuel i tb pos r s :
  (pos ≤ length i)%nat → (length i < pos + fuel)%nat →
  trailer_loop fuel i tb pos r = inl s → s = NeedMore ∨ blames s.
Proof.
  revert pos r. induction fuel as [|fuel IH]; intros pos r Hp Hf; [lia|].
  cbn [trailer_loop]. destruct (find_sub_at CRLF i pos) as [e|] eqn:Ee.
  - pose proof (find_line_end_bounds _ _ _ Ee).
    destruct (kMaxHeaderSize <? _); [intros [= <-]; by right|]. cbv zeta.
    destruct (Nat.eqb _ 0); [done|].
    destruct (trailer_step _ r) as [s'|r'] eqn:Et.
    + intros [= <-]. right. by apply trailer_step_blames in Et.
    + apply IH; lia.
  - destruct (kMaxHeaderSize <? _); intros [= <-]; [by right|by left].
Qed.

Lemma trailer_loop_bounds fuel i tb pos r p' r' :
  trailer_loop fuel i tb pos r = inr (p', r') → (pos < p' ≤ length i)%nat.
Proof.
  revert pos r. induction fuel as [|fuel IH]; intros pos r; [done|].
  cbn [trailer_loop]. destruct (find_sub_at CRLF i pos) as [e|] eqn:Ee;
    [|by destruct (kMaxHeaderSize <? _)].
  pose proof (find_line_end_bounds _ _ _ Ee).
  destruct (kMaxHeaderSize <? _); [done|]. cbv zeta.
  destruct (Nat.eqb _ 0); [intros [= <- <-]; lia|].
  destruct (trailer_step _ r) as [s'|r1]; [done|]. intros ?%IH. lia.
Qed.

(** The outcomes that more input cannot change. *)
Definition final {A} (x : result A) : Prop :=
  match x with
  | inl NeedMore | inl OutOfFuel => False
  | inl (Fail e _) => e ≠ HEADER_TOO_LARGE
  | inr _ => True
  end.

Lemma trailer_loop_stable fuel fuel' i s tb pos r :
  (fuel ≤ fuel')%nat → (pos ≤ length i)%nat →
  final (trailer_loop fuel i tb pos r) →
  trailer_loop fuel' (i ++ s) tb pos r = trailer_loop fuel i tb pos r.
Proof.
  revert fuel' pos r. induction fuel as [|fuel IH]; intros fuel' pos r Hf Hp; [done|].
  destruct fuel' as [|fuel']; [lia|].
  cbn [trailer_loop]. destruct (find_sub_at CRLF i pos) as [e|] eqn:Ee;
    [|by destruct (kMaxHeaderSize <? _)].
  pose proof (find_line_end_bounds _ _ _ Ee).
  rewrite (find_sub_at_app_l _ _ s _ _ Hp Ee).
  destruct (kMaxHeaderSize <? _); [done|]. cbv zeta.
  rewrite substr_app_l by lia. destruct (Nat.eqb _ 0); [done|].
  destruct (trailer_step _ r) as [s'|r1]; [done|]. apply IH; lia.
Qed.

Lemma size_t_sub_body b :
  size b <= kMaxBodySize → size_t_sub kMaxBodySize (size b) = kMaxBodySize - size b.
Proof.
  intros. pose proof (size_nonneg b). apply wrap_small. unfold kMaxBodySize in *. lia.
Qed.

Lemma ParseChunkSize_range line n : ParseChunkSize line = Some n → 0 <= n < 2 ^ 64.
Proof.
  unfold ParseChunkSize. destruct (TrimOptionalWhitespace _); [done|].
  intros H. by apply from_chars_all_range in H; [|lia].
Qed.

Lemma chunk_loop_stops fuel i pos body r s :
  (pos ≤ length i)%nat → (length i < pos + fuel)%nat →
  chunk_loop fuel i pos body r = inl s → s = NeedMore ∨ blames s.
Proof.
  revert pos body. induction fuel as [|fuel IH]; intros pos body Hp Hf; [lia|].
  cbn [chunk_loop]. destruct (find_sub_at CRLF i pos) as [e|] eqn:Ee.
  2:{ destruct (kMaxHeaderSize <? _); intros [= <-]; [by right|by left]. }
  pose proof (find_line_end_bounds _ _ _ Ee).
  destruct (ParseChunkSize _) as [n|]; [|intros [= <-]; by right]. cbv zeta.
  destruct (n =? 0).
  { destruct (trailer_loop _ _ _ _ _) as [s'|[p' r']] eqn:Et; [|done].
    intros [= <-]. apply trailer_loop_stops in Et; [done|lia..]. }
  destruct (size_t_sub kMaxBodySize _ <? n); [intros [= <-]; by right|].
  destruct (size_t_sub (size_t_sub _ _) 2 <? n); [intros [= <-]; by right|].
  destruct (Nat.ltb_spec (length i) (e + 2 + Z.to_nat n + 2)); [intros [= <-]; by left|].
  destruct (negb _); [intros [= <-]; by right|]. apply IH; lia.
Qed.

Lemma chunk_loop_bounds fuel i pos body r p' b' r' :
  size body <= kMaxBodySize →
  chunk_loop fuel i pos body r = inr (p', b', r') →
  (pos < p' ≤ length i)%nat ∧ size b' <= kMaxBodySize.
Proof.
  revert pos body. induction fuel as [|fuel IH]; intros pos body Hb; [done|].
  cbn [chunk_loop]. destruct (find_sub_at CRLF i pos) as [e|] eqn:Ee;
    [|by destruct (kMaxHeaderSize <? _)].
  pose proof (find_line_end_bounds _ _ _ Ee).
  destruct (ParseChunkSize _) as [n|] eqn:En; [|done]. cbv zeta.
  apply ParseChunkSize_range in En.
  destruct (n =? 0).
  { destruct (trailer_loop _ _ _ _ _) as [s'|[p1 r1]] eqn:Et; [done|].
    intros [= <- <- <-]. apply trailer_loop_bounds in Et. split; [lia|done]. }
  rewrite size_t_sub_body by done.
  destruct (Z.ltb_spec (kMaxBodySize - size body) n); [done|].
  destruct (size_t_sub (size_t_sub _ _) 2 <? n); [done|].
  destruct (Nat.ltb_spec (length i) (e + 2 + Z.to_nat n + 2)); [done|].
  destruct (negb _); [done|]. intros Hl%IH; [split; [lia|apply Hl]|].
  rewrite size_app. unfold size, substr in *. rewrite length_take, length_drop. lia.
Qed.

Lemma chunk_loop_stable fuel fuel' i s pos body r :
  (fuel ≤ fuel')%nat → (pos ≤ length i)%nat →
  final (chunk_loop fuel i pos body r) →
  chunk_loop fuel' (i ++ s) pos body r = chunk_loop fuel i pos body r.
Proof.
  revert fuel' pos body. induction fuel as [|fuel IH]; intros fuel' pos body Hf Hp; [done|].
  destruct fuel' as [|fuel']; [lia|].
  cbn [chunk_loop]. destruct (find_sub_at CRLF i pos) as [e|] eqn:Ee;
    [|by destruct (kMaxHeaderSize <? _)].
  pose proof (find_line_end_bounds _ _ _ Ee).
  rewrite (find_sub_at_app_l _ _ s _ _ Hp Ee), substr_app_l by lia.
  destruct (ParseChunkSize _) as [n|] eqn:En; [|done]. cbv zeta.
  destruct (n =? 0).
  { intros Hfin. rewrite (trailer_loop_stable (S (length i))); [done|..].
    - rewrite length_app. lia.
    - lia.
    - by destruct (trailer_loop _ i _ _ _) as [|[? ?]]. }
  destruct (size_t_sub kMaxBodySize _ <? n); [done|].
  destruct (size_t_sub (size_t_sub _ _) 2 <? n); [done|].
  destruct (Nat.ltb_spec (length i) (e + 2 + Z.to_nat n + 2)); [done|].
  rewrite (proj2 (Nat.ltb_ge _ _)) by (rewrite length_app; lia).
  rewrite !substr_app_l by lia.
  destruct (negb _); [done|]. apply IH; lia.
Qed.

(** ** Lemmas: a whole message *)

(** A message stops to wait or with an error. *)
Lemma response_message_stops method i eof s :
  (parse_message method i eof).2 = inl s → s = NeedMore ∨ blames s.
Proof.
  unfold parse_message. destruct (parse_head i) as [s'|h] eqn:Eh.
  { simpl. intros [= <-]. apply response_head_stops in Eh as [[-> _]|?]; [by left|by right]. }
  apply response_head_inr in Eh as (Hs&_&_). cbv zeta.
  destruct (ResponseHasNoBody _ _); [done|].
  destruct (coding h) as [te|].
  - destruct (negb _); [intros [= <-]; by right|]. cbn [snd].
    destruct (chunk_loop _ _ _ _ _) as [s'|[[p b] r]] eqn:Ec; [|done].
    intros [= <-]. apply chunk_loop_stops in Ec; [done|lia..].
  - destruct (announced_length h) as [n|]; cbn [snd].
    + destruct (size_max - _ <? n); [intros [= <-]; by right|].
      destruct (size i <? _); [intros [= <-]; by left|done].
    + destruct (kMaxBodySize <? _); [intros [= <-]; by right|].
      destruct eof; [done|]. intros [= <-]. by left.
Qed.

(** The bytes consumed and the length of the body are within the limits. *)
Lemma response_message_bounds method i eof m :
  size i < 2 ^ 64 →
  (parse_message method i eof).2 = inr m →
  (4 ≤ consumed m ≤ length i)%nat ∧ 0 <= body_length m <= kMaxBodySize.
Proof.
  intros Hi. unfold parse_message. destruct (parse_head i) as [s'|h] eqn:Eh; [done|].
  apply response_head_inr in Eh as (Hs&Hk&Hlen). cbv zeta.
  destruct (ResponseHasNoBody _ _).
  { intros [= <-]. simpl. split; [lia|]. unfold kMaxBodySize. lia. }
  destruct (coding h) as [te|].
  - destruct (negb _); [done|]. cbn [snd].
    destruct (chunk_loop _ _ _ _ _) as [s'|[[p b] r]] eqn:Ec; [done|].
    intros [= <-]. apply chunk_loop_bounds in Ec; [|done]. simpl.
    pose proof (size_nonneg b). split; [lia|]. lia.
  - destruct (announced_length h) as [n|]; cbn [snd].
    + destruct (Hlen n eq_refl) as [Hn _].
      destruct (size_max - _ <? n); [done|].
      rewrite wrap_small by (unfold kMaxHeaderSize, kMaxBodySize in *; lia).
      destruct (Z.ltb_spec (size i) (Z.of_nat (header_size h) + n)); [done|].
      intros [= <-]. simpl. unfold size in *. split; [lia|done].
    + unfold size_t_sub. rewrite wrap_small by (unfold size in *; lia).
      destruct (Z.ltb_spec kMaxBodySize (size i - Z.of_nat (header_size h))); [done|].
      destruct eof; [|done]. intros [= <-]. simpl. unfold size in *.
      rewrite length_drop. split; [lia|]. lia.
Qed.

(** A verdict reached before the end of the connection stays, unless it is
    about the size of metadata that is still arriving. *)
Lemma response_message_stable method i s :
  final (parse_message method i false).2 → size (i ++ s) < 2 ^ 64 →
  (parse_message method (i ++ s) false).2 = (parse_message method i false).2.
Proof.
  intros Hf Hi. unfold parse_message in *.
  assert (parse_head i ≠ inl NeedMore) as Hn by (intros E; by rewrite E in Hf).
  rewrite (response_head_stable i s Hn).
  destruct (parse_head i) as [s'|h] eqn:Eh; [done|].
  apply response_head_inr in Eh as (Hs&Hk&Hlen). cbv zeta in *.
  rewrite size_app in *. pose proof (size_nonneg s). pose proof (size_nonneg i).
  destruct (ResponseHasNoBody _ _); [done|].
  destruct (coding h) as [te|].
  - destruct (negb _); [done|]. cbn [snd] in *.
    rewrite (chunk_loop_stable (S (length i)) (S (length (i ++ s)))); [done|..].
    + rewrite length_app. lia.
    + lia.
    + by destruct (chunk_loop _ i _ _ _) as [|[[? ?] ?]].
  - destruct (announced_length h) as [n|]; cbn [snd] in *.
    + destruct (Hlen n eq_refl) as [Hnn _].
      destruct (size_max - _ <? n); [done|].
      rewrite wrap_small in * by (unfold kMaxHeaderSize, kMaxBodySize in *; lia).
      destruct (Z.ltb_spec (size i) (Z.of_nat (header_size h) + n)); [done|].
      rewrite (proj2 (Z.ltb_ge _ _)) by lia.
      rewrite substr_app_l; [done|]. unfold size in *. lia.
    + unfold size_t_sub in *. rewrite wrap_small in Hf |- * by (unfold size in *; lia).
      rewrite (wrap_small 64 (size i - _)) by (unfold size in *; lia).
      destruct (Z.ltb_spec kMaxBodySize (size i - Z.of_nat (header_size h))); [|done].
      by rewrite (proj2 (Z.ltb_lt _ _)) by lia.
Qed.

End ResponseParser.
