(* ===== verification/ChunkedBody.v ===== *)
(** The wire form of a chunked body and the proof that the chunk loops of the
    response parser accept exactly this form. *)

From S2P Require Import Prelude Http HeaderText HttpResponse HttpRequest HttpParser HeaderBlock ResponseParser.
Import Http HeaderText ParserText HeaderBlock ResponseParser.

Module ChunkedBody.

(** ** Lines *)

(** A text whose first line end is the one that is put behind it. *)
Definition crlf_line (line : str) : Prop :=
  find_sub CRLF (line ++ CRLF) = Some (length line).

Lemma crlf_line_plain line : CR ∉ line → crlf_line line.
Proof.
  intros H. unfold crlf_line. change CRLF with (CR :: [LF]).
  rewrite find_sub_skip by done.
  change (CR :: [LF]) with ((CR :: [LF]) ++ []) at 2. rewrite find_sub_here.
  simpl. f_equal. lia.
Qed.

Lemma crlf_line_at pre line rest :
  crlf_line line →
  find_sub_at CRLF (pre ++ line ++ CRLF ++ rest) (length pre) =
  Some (length pre + length line)%nat.
Proof.
  intros H. unfold find_sub_at. rewrite drop_app_length.
  by rewrite app_assoc, (find_sub_app_l _ _ rest _ H).
Qed.

Lemma substr_split i a b c :
  (a ≤ b ≤ c)%nat → substr i a (c - a) = substr i a (b - a) ++ substr i b (c - b).
Proof.
  intros H. unfold substr. replace (c - a)%nat with ((b - a) + (c - b))%nat by lia.
  rewrite <- (take_drop (b - a) (drop a i)) at 1.
  destruct (decide (length (drop a i) ≤ b - a)%nat) as [Hl|Hl].
  - rewrite (drop_ge (drop a i)), app_nil_r, (take_ge (drop a i)) by done.
    rewrite take_ge by lia. rewrite length_drop in Hl.
    by rewrite (drop_ge i b), take_nil, app_nil_r by lia.
  - rewrite take_app, length_take. rewrite take_ge by (rewrite length_take; lia).
    f_equal. rewrite drop_drop. f_equal; [lia|f_equal; lia].
Qed.

Lemma line_scanned i pos e :
  (pos ≤ length i)%nat → find_sub_at CRLF i pos = Some e →
  (pos ≤ e)%nat ∧ crlf_line (substr i pos (e - pos)) ∧
  substr i pos (e + 2 - pos) = substr i pos (e - pos) ++ CRLF.
Proof.
  intros Hp He. pose proof (find_line_end_bounds _ _ _ He) as [Hle Hl].
  unfold find_sub_at in He. apply fmap_Some in He as (j&Hj&->).
  pose proof (find_sub_match _ _ _ Hj) as Hs. rewrite drop_drop in Hs.
  assert (substr i pos (pos + j + 2 - pos) = substr i pos (pos + j - pos) ++ CRLF) as E.
  { rewrite (substr_split i pos (pos + j)) by lia. f_equal.
    replace (pos + j + 2 - (pos + j))%nat with 2%nat by lia. by apply segment_crlf. }
  split; [lia|split; [|done]]. unfold crlf_line. rewrite <- E.
  assert (length (substr i pos (pos + j - pos)) = j) as ->.
  { unfold substr. rewrite length_take, length_drop. lia. }
  unfold substr. replace (pos + j + 2 - pos)%nat with (j + 2)%nat by lia.
  destruct (find_sub CRLF (take (j + 2) (drop pos i))) as [k|] eqn:Ek.
  - pose proof (find_sub_app_l _ _ (drop (j + 2) (drop pos i)) _ Ek) as H.
    rewrite take_drop in H. congruence.
  - exfalso. assert (starts_with CRLF (drop j (take (j + 2) (drop pos i))) = true) as Hc.
    { apply starts_with_crlf in Hs as [r Hr].
      rewrite <- take_drop_commute, drop_drop, Hr. done. }
    apply find_sub_le in Hc as (k&Hk&_). congruence.
Qed.

(** ** Chunked bodies *)

(** A chunk: its size line, without the line end, and its data. *)
Definition chunk_text (c : str * str) : str := c.1 ++ CRLF ++ c.2 ++ CRLF.

Definition good_chunk (c : str * str) : Prop :=
  crlf_line c.1 ∧ ParseChunkSize c.1 = Some (size c.2) ∧ c.2 ≠ [].

(** Chunks, a last size line of zero, trailers and an empty line; [body] is
    the data in order and [r'] the response with the trailers applied. *)
Definition chunk_stream (wire body : str) (r r' : Response.HttpResponse) : Prop :=
  ∃ chunks last trailers,
    wire = mjoin (chunk_text <$> chunks) ++ last ++ CRLF ++ lines_text trailers ++ CRLF ∧
    Forall good_chunk chunks ∧ crlf_line last ∧ ParseChunkSize last = Some 0 ∧
    body = mjoin (snd <$> chunks) ∧ size body <= kMaxBodySize ∧
    Forall (λ t, crlf_line t ∧ t ≠ []) trailers ∧
    size (lines_text trailers) <= kMaxHeaderSize ∧
    fold_lines trailer_step trailers r = inr r'.

(** ** From the wire to the parser *)

Lemma crlf_line_nil : crlf_line [].
Proof. done. Qed.

Lemma size_t_sub_nat a b :
  (b ≤ a)%nat → Z.of_nat a < 2 ^ 64 → size_t_sub (Z.of_nat a) (Z.of_nat b) = Z.of_nat (a - b).
Proof. intros. unfold size_t_sub. rewrite wrap_small; lia. Qed.

Lemma trailer_loop_accepts fuel pre done_ trailers rest r r' :
  let i := pre ++ lines_text done_ ++ lines_text trailers ++ CRLF ++ rest in
  (length trailers < fuel)%nat → size i < 2 ^ 64 →
  Forall (λ t, crlf_line t ∧ t ≠ []) trailers →
  size (lines_text done_ ++ lines_text trailers) <= kMaxHeaderSize →
  fold_lines trailer_step trailers r = inr r' →
  trailer_loop fuel i (length pre) (length pre + length (lines_text done_)) r =
  inr ((length pre + length (lines_text done_) + length (lines_text trailers) + 2)%nat, r').
Proof.
  revert fuel done_ r. induction trailers as [|t trailers IH];
    intros fuel done_ r i Hf Hi Ht Hs Hfold; (destruct fuel as [|fuel]; [simpl in Hf; lia|]);
    cbn [trailer_loop].
  - assert (find_sub_at CRLF i (length pre + length (lines_text done_)) =
      Some (length pre + length (lines_text done_))%nat) as ->.
    { pose proof (crlf_line_at (pre ++ lines_text done_) [] rest crlf_line_nil) as H.
      rewrite length_app, Nat.add_0_r in H. subst i.
      change (lines_text []) with (@nil byte). cbn [app] in *. by rewrite <- app_assoc in H. }
    rewrite size_t_sub_nat; [|lia|].
    2:{ subst i. unfold size in Hi. rewrite !length_app in Hi. lia. }
    rewrite size_app in Hs. unfold size in Hs. rewrite (proj2 (Z.ltb_ge _ _)) by lia.
    cbv zeta. assert (length (substr i (length pre + length (lines_text done_))
      (length pre + length (lines_text done_) - (length pre + length (lines_text done_)))) = 0%nat)
      as -> by (rewrite Nat.sub_diag; done).
    simpl in Hfold. injection Hfold as ->. simpl. do 2 f_equal. lia.
  - apply Forall_cons in Ht as [[Hl Hne] Ht].
    assert (i = (pre ++ lines_text done_) ++ t ++ CRLF ++ (lines_text trailers ++ CRLF ++ rest))
      as Ei by (subst i; rewrite lines_text_cons, <- !app_assoc; done).
    set (pos := (length pre + length (lines_text done_))%nat).
    assert (pos = length (pre ++ lines_text done_)) as Epos by (by rewrite length_app).
    assert (find_sub_at CRLF i pos = Some (pos + length t)%nat) as ->.
    { rewrite Ei, Epos. by apply crlf_line_at. }
    rewrite lines_text_cons in Hs. rewrite !size_app in Hs. unfold size in Hs, Hi.
    rewrite Ei, !length_app in Hi. simpl length in Hi, Hs.
    rewrite size_t_sub_nat by lia. rewrite (proj2 (Z.ltb_ge _ _)) by lia. cbv zeta.
    assert (substr i pos (pos + length t - pos) = t) as ->.
    { replace (pos + length t - pos)%nat with (length t) by lia. rewrite Ei, Epos.
      apply substr_at. }
    assert (Nat.eqb (length t) 0 = false) as -> by (destruct t; done).
    cbn [fold_lines] in Hfold. destruct (trailer_step t r) as [|r1]; [done|].
    assert (lines_text (done_ ++ [t]) = lines_text done_ ++ t ++ CRLF) as Ed
      by (rewrite lines_text_app; f_equal; rewrite lines_text_cons; by rewrite app_nil_r).
    specialize (IH fuel (done_ ++ [t]) r1). cbv zeta in IH.
    rewrite Ed in IH.
    replace (pre ++ (lines_text done_ ++ t ++ CRLF) ++ lines_text trailers ++ CRLF ++ rest)
      with i in IH by (rewrite Ei, <- !app_assoc; done).
    replace (length pre + length (lines_text done_ ++ t ++ CRLF))%nat
      with (pos + length t + 2)%nat in IH by (rewrite !length_app; simpl length; lia).
    rewrite IH; [|simpl in Hf; lia|unfold size; rewrite Ei, !length_app; simpl length; lia
      |done|rewrite !size_app; unfold size; simpl length; lia|done].
    rewrite lines_text_cons, !length_app. simpl length. do 2 f_equal. lia.
Qed.

Lemma chunks_text_cons c cs :
  mjoin (chunk_text <$> c :: cs) = chunk_text c ++ mjoin (chunk_text <$> cs).
Proof. done. Qed.

Lemma data_cons (c : str * str) cs :
  mjoin (snd <$> c :: cs) = c.2 ++ mjoin (snd <$> cs).
Proof. done. Qed.

Lemma chunk_loop_accepts fuel pre chunks last trailers rest body r r' :
  let i := pre ++ mjoin (chunk_text <$> chunks) ++ last ++ CRLF ++
             lines_text trailers ++ CRLF ++ rest in
  (length chunks < fuel)%nat → size i < 2 ^ 63 →
  Forall good_chunk chunks → crlf_line last → ParseChunkSize last = Some 0 →
  size (body ++ mjoin (snd <$> chunks)) <= kMaxBodySize →
  Forall (λ t, crlf_line t ∧ t ≠ []) trailers →
  size (lines_text trailers) <= kMaxHeaderSize →
  fold_lines trailer_step trailers r = inr r' →
  chunk_loop fuel i (length pre) body r =
  inr ((length i - length rest)%nat, body ++ mjoin (snd <$> chunks), r').
Proof.
  revert fuel pre body. induction chunks as [|[l d] chunks IH];
    intros fuel pre body i Hf Hi Hc Hl H0 Hb Ht Hs Hfold;
    (destruct fuel as [|fuel]; [simpl in Hf; lia|]); cbn [chunk_loop].
  - assert (i = pre ++ last ++ CRLF ++ (lines_text trailers ++ CRLF ++ rest)) as Ei by done.
    assert (find_sub_at CRLF i (length pre) = Some (length pre + length last)%nat) as ->
      by (rewrite Ei; by apply crlf_line_at).
    assert (substr i (length pre) (length pre + length last - length pre) = last) as ->.
    { rewrite Ei. replace (length pre + length last - length pre)%nat with (length last) by lia.
      apply substr_at. }
    rewrite H0. cbv zeta. change (0 =? 0) with true. cbv iota.
    pose proof (trailer_loop_accepts (S (length i)) (pre ++ last ++ CRLF) [] trailers rest r r') as E.
    cbv zeta in E. change (lines_text []) with (@nil byte) in E. cbn [app] in E.
    replace ((pre ++ last ++ CRLF) ++ lines_text trailers ++ CRLF ++ rest) with i in E
      by (rewrite Ei, <- !app_assoc; done).
    rewrite !length_app in E. simpl length in E.
    replace (length pre + length last + 2)%nat with (length pre + (length last + 2))%nat by lia.
    rewrite Nat.add_0_r in E. rewrite E; [| |lia|done|done|done].
    + rewrite app_nil_r. do 3 f_equal. rewrite Ei, !length_app. simpl length. lia.
    + pose proof (length_lines_text trailers). rewrite Ei, !length_app. simpl length. lia.
  - apply Forall_cons in Hc as [(Hcl&Hcs&Hne) Hc]. simpl in Hcl, Hcs, Hne.
    set (tail := mjoin (chunk_text <$> chunks) ++ last ++ CRLF ++ lines_text trailers ++ CRLF ++ rest).
    assert (i = pre ++ l ++ CRLF ++ (d ++ CRLF ++ tail)) as Ei
      by (subst i tail; rewrite chunks_text_cons; unfold chunk_text; simpl fst; simpl snd;
          by rewrite <- !app_assoc).
    assert (i = (pre ++ l ++ CRLF ++ d) ++ CRLF ++ tail) as Ei2
      by (rewrite Ei, <- !app_assoc; done).
    assert (i = (pre ++ l ++ CRLF) ++ d ++ CRLF ++ tail) as Ei3
      by (rewrite Ei, <- !app_assoc; done).
    assert (find_sub_at CRLF i (length pre) = Some (length pre + length l)%nat) as ->
      by (rewrite Ei; by apply crlf_line_at).
    assert (substr i (length pre) (length pre + length l - length pre) = l) as ->.
    { replace (length pre + length l - length pre)%nat with (length l) by lia.
      rewrite Ei. apply substr_at. }
    rewrite Hcs. cbv zeta.
    rewrite data_cons, !size_app in Hb. cbn [snd] in Hb. pose proof (size_nonneg (mjoin (snd <$> chunks))).
    pose proof (size_nonneg body).
    assert (0 < size d) as Hd by (destruct d; [done|unfold size; simpl length; lia]).
    assert (size i = size pre + size l + 2 + size d + 2 + size tail) as Hsi
      by (rewrite Ei; unfold size; rewrite !length_app; simpl (length CRLF); lia).
    pose proof (size_nonneg pre). pose proof (size_nonneg l). pose proof (size_nonneg tail).
    rewrite (proj2 (Z.eqb_neq _ _)) by lia.
    rewrite size_t_sub_body, (proj2 (Z.ltb_ge _ _)) by lia.
    assert (size_t_sub (size_t_sub size_max (Z.of_nat (length pre + length l + 2))) 2 =
      size_max - size pre - size l - 4) as ->.
    { unfold size_t_sub, size_max, u64_max, size in *.
      rewrite (wrap_small 64 (2 ^ 64 - 1 - _)) by lia. rewrite wrap_small; lia. }
    rewrite (proj2 (Z.ltb_ge _ _)) by (unfold size_max, u64_max in *; lia).
    assert (Z.to_nat (size d) = length d) as -> by (unfold size; lia).
    rewrite (proj2 (Nat.ltb_ge _ _)) by (unfold size in Hsi; lia).
    assert (substr i (length pre + length l + 2 + length d) 2 = CRLF) as ->.
    { replace (length pre + length l + 2 + length d)%nat with (length (pre ++ l ++ CRLF ++ d))
        by (rewrite !length_app; simpl length; lia).
      rewrite Ei2. apply (substr_at (pre ++ l ++ CRLF ++ d) CRLF tail). }
    assert (substr i (length pre + length l + 2) (length d) = d) as ->.
    { replace (length pre + length l + 2)%nat with (length (pre ++ l ++ CRLF))
        by (rewrite !length_app; simpl length; lia).
      rewrite Ei3. apply substr_at. }
    change (negb (str_eqb CRLF CRLF)) with false. cbv iota.
    specialize (IH fuel (pre ++ l ++ CRLF ++ d ++ CRLF) (body ++ d)). cbv zeta in IH.
    replace ((pre ++ l ++ CRLF ++ d ++ CRLF) ++ mjoin (chunk_text <$> chunks) ++ last ++ CRLF ++
      lines_text trailers ++ CRLF ++ rest) with i in IH
      by (fold tail; rewrite Ei, <- !app_assoc; done).
    replace (length pre + length l + 2 + length d + 2)%nat
      with (length (pre ++ l ++ CRLF ++ d ++ CRLF)) by (rewrite !length_app; simpl length; lia).
    rewrite IH; [|simpl in Hf; lia|done..| |done|done|done].
    + rewrite data_cons, <- app_assoc. done.
    + rewrite !size_app. lia.
Qed.

(** ** From the parser to the wire *)

Lemma length_substr_exact i a n : (a + n ≤ length i)%nat → length (substr i a n) = n.
Proof. intros. unfold substr. rewrite length_take, length_drop. lia. Qed.

Lemma trailer_loop_sound fuel i tb pos r p' r' :
  (tb ≤ pos ≤ length i)%nat → size i < 2 ^ 64 →
  trailer_loop fuel i tb pos r = inr (p', r') →
  ∃ trailers, substr i pos (p' - pos) = lines_text trailers ++ CRLF ∧
    Forall (λ t, crlf_line t ∧ t ≠ []) trailers ∧
    Z.of_nat (p' - 2 - tb) <= kMaxHeaderSize ∧
    fold_lines trailer_step trailers r = inr r'.
Proof.
  intros Hp Hi. revert pos r Hp. induction fuel as [|fuel IH]; intros pos r Hp H; [done|].
  pose proof (trailer_loop_bounds _ _ _ _ _ _ _ H) as Hb.
  cbn [trailer_loop] in H. destruct (find_sub_at CRLF i pos) as [e|] eqn:Ee;
    [|by destruct (kMaxHeaderSize <? _)].
  pose proof (find_line_end_bounds _ _ _ Ee) as He.
  destruct (line_scanned i pos e) as (_&Hl&Hcat); [lia|done|].
  rewrite size_t_sub_nat in H by (unfold size in Hi; lia).
  destruct (Z.ltb_spec kMaxHeaderSize (Z.of_nat (e - tb))) as [|Hk]; [done|]. cbv zeta in H.
  set (t := substr i pos (e - pos)) in *.
  assert (length t = e - pos)%nat as Hlt by (apply length_substr_exact; lia).
  destruct (Nat.eqb_spec (length t) 0) as [E0|E0].
  - injection H as <- <-. exists []. rewrite Hcat.
    assert (t = []) as -> by (by destruct t). split_and!; [done|constructor| |done].
    replace (e + 2 - 2 - tb)%nat with (e - tb)%nat by lia. done.
  - destruct (trailer_step t r) as [|r1] eqn:Et; [done|].
    pose proof (trailer_loop_bounds _ _ _ _ _ _ _ H) as Hb2.
    apply IH in H as (ts&Hs&Hf&Hk'&Hfold); [|lia].
    exists (t :: ts). split_and!; [|constructor; [|done]|done|].
    + rewrite (substr_split i pos (e + 2) p') by lia.
      rewrite Hcat, Hs, lines_text_cons, <- !app_assoc. done.
    + split; [done|]. intros E. by rewrite E in E0.
    + cbn [fold_lines]. by rewrite Et.
Qed.

Lemma chunk_loop_sound fuel i pos body r p' b' r' :
  (pos ≤ length i)%nat → size i < 2 ^ 64 → size body <= kMaxBodySize →
  chunk_loop fuel i pos body r = inr (p', b', r') →
  ∃ wire_body, chunk_stream (substr i pos (p' - pos)) wire_body r r' ∧ b' = body ++ wire_body.
Proof.
  intros Hp Hi. revert pos body Hp. induction fuel as [|fuel IH]; intros pos body Hp Hb H; [done|].
  pose proof (chunk_loop_bounds _ _ _ _ _ _ _ _ Hb H) as [Hpp Hb'].
  cbn [chunk_loop] in H. destruct (find_sub_at CRLF i pos) as [e|] eqn:Ee;
    [|by destruct (kMaxHeaderSize <? _)].
  pose proof (find_line_end_bounds _ _ _ Ee) as He.
  destruct (line_scanned i pos e) as (_&Hl&Hcat); [lia|done|].
  set (l := substr i pos (e - pos)) in *.
  destruct (ParseChunkSize l) as [n|] eqn:En; [|done]. cbv zeta in H.
  pose proof (ParseChunkSize_range _ _ En) as Hn.
  destruct (Z.eqb_spec n 0) as [->|Hn0].
  - destruct (trailer_loop _ _ _ _ _) as [|[p1 r1]] eqn:Et; [done|].
    injection H as <- <- <-. pose proof (trailer_loop_bounds _ _ _ _ _ _ _ Et).
    apply trailer_loop_sound in Et as (ts&Hs&Hf&Hk&Hfold); [|lia|done].
    exists []. split; [|by rewrite app_nil_r]. exists [], l, ts. split_and!; try done.
    + rewrite (substr_split i pos (e + 2) p1) by lia. rewrite Hcat, Hs.
      simpl. by rewrite <- app_assoc.
    + assert (length (substr i (e + 2) (p1 - (e + 2))) = p1 - (e + 2))%nat as Hlen
        by (apply length_substr_exact; lia).
      rewrite Hs, length_app in Hlen. change (length CRLF) with 2%nat in Hlen.
      unfold size. replace (p1 - 2 - (e + 2))%nat with (length (lines_text ts)) in Hk by lia.
      done.
  - rewrite size_t_sub_body in H by done.
    destruct (Z.ltb_spec (kMaxBodySize - size body) n); [done|].
    destruct (size_t_sub (size_t_sub _ _) 2 <? n); [done|].
    destruct (Nat.ltb_spec (length i) (e + 2 + Z.to_nat n + 2)); [done|].
    destruct (negb _) eqn:Ecr; [done|]. apply negb_false_iff, str_eqb_eq in Ecr.
    set (d := substr i (e + 2) (Z.to_nat n)) in *.
    assert (size d = n) as Hd by (unfold size, d; rewrite length_substr_exact; lia).
    assert (size (body ++ d) <= kMaxBodySize) as Hbd by (rewrite size_app; lia).
    pose proof (chunk_loop_bounds _ _ _ _ _ _ _ _ Hbd H) as [? _].
    apply IH in H as (w&(cs&last&ts&Hw&Hc&Hlast&Hlast0&->&Hsz&Ht&Hts&Hfold)&->); [|lia|done].
    exists (d ++ mjoin (snd <$> cs)). split; [|by rewrite app_assoc].
    exists ((l, d) :: cs), last, ts.
    rewrite chunks_text_cons, data_cons. split_and!; try done.
    + rewrite (substr_split i pos (e + 2) p') by lia.
      rewrite (substr_split i (e + 2) (e + 2 + Z.to_nat n) p') by lia.
      rewrite (substr_split i (e + 2 + Z.to_nat n) (e + 2 + Z.to_nat n + 2) p') by lia.
      rewrite Hcat, Hw. change (chunk_text (l, d)) with (l ++ CRLF ++ d ++ CRLF).
      replace (e + 2 + Z.to_nat n - (e + 2))%nat with (Z.to_nat n) by lia. fold d.
      replace (e + 2 + Z.to_nat n + 2 - (e + 2 + Z.to_nat n))%nat with 2%nat by lia.
      rewrite Ecr, <- !app_assoc. done.
    + constructor; [|done]. unfold good_chunk. cbn [fst snd]. split_and!; [done|congruence|].
      intros E. rewrite E in Hd. unfold size in Hd. simpl in Hd. lia.
    + cbn [snd]. rewrite <- app_assoc, size_app in Hb'. pose proof (size_nonneg body). lia.
Qed.

End ChunkedBody.
