(* ===== verification/ResponseRoundTrip.v ===== *)
(** Printing a response with [HttpResponse::dump] and parsing it with
    [HttpResponseParser], and the main theorems on the response parser: what a
    chunked body is, prefixes of the stream, bounds. *)

From S2P Require Import Prelude Http HeaderText HttpResponse HttpRequest HttpParser HeaderBlock ResponseParser ChunkedBody.
Import Http HeaderText ParserText HeaderBlock ResponseParser ChunkedBody.

Module ResponseRoundTrip.

(** ** The status line *)

Lemma HttpStatusToString_valid s : IsValidHeaderValue (HttpStatusToString s) = true.
Proof.
  unfold HttpStatusToString.
  assert (forallb (λ p, IsValidHeaderValue p.2) kStatusNames = true) as H
    by (vm_compute; reflexivity).
  revert H. generalize kStatusNames. induction l as [|[s' n] l IH]; simpl; [done|].
  intros [? ?]%andb_true_iff. destruct (s' =? s); [done|]. by apply IH.
Qed.

Lemma status_text_ok s :
  100 <= s <= 999 →
  length (to_dec s) = 3%nat ∧ " "%byte ∉ to_dec s ∧ from_chars_all 16 10 (to_dec s) = Some s.
Proof.
  intros Hs.
  assert (forallb (λ k, bool_decide (length (to_dec (Z.of_nat k)) = 3%nat)) (seq 100 900) = true)
    as H by (vm_compute; reflexivity).
  rewrite forallb_forall in H. specialize (H (Z.to_nat s)).
  rewrite Z2Nat.id in H by lia. rewrite bool_decide_eq_true in H.
  split_and!.
  - apply H, in_seq. lia.
  - pose proof (to_dec_digits s ltac:(lia)) as Hd. rewrite Forall_forall in Hd.
    intros [d Hx]%Hd. done.
  - apply from_chars_to_dec. lia.
Qed.

Definition version_text (v : Z) : str := if v =? 0x11 then $"HTTP/1.1" else $"HTTP/1.0".

Lemma parse_status_line_of v S s R :
  v = 0x11 ∨ v = 0x10 → length S = 3%nat → " "%byte ∉ S →
  from_chars_all 16 10 S = Some s → 100 <= s <= 999 → IsValidHeaderValue R = true →
  parse_status_line (version_text v ++ $" " ++ S ++ $" " ++ R) = inr (v, s, R).
Proof.
  intros Hv Hl Hsp Hs Hr HR. unfold parse_status_line.
  assert (length (version_text v) = 8%nat) as H8 by (by destruct Hv as [-> | ->]).
  set (line := version_text v ++ $" " ++ S ++ $" " ++ R).
  assert (length line = 13 + length R)%nat as Hlen
    by (subst line; rewrite !length_app, H8, Hl; done).
  rewrite (proj2 (Nat.ltb_ge _ _)) by lia.
  assert (line !! 8%nat = Some " "%byte) as ->.
  { subst line. rewrite lookup_app_r by lia. by rewrite H8. }
  rewrite bool_decide_eq_true_2 by done. cbn [orb negb].
  assert (substr line 0 8 = version_text v) as ->.
  { subst line. unfold substr. rewrite drop_0, <- H8. apply take_app_length. }
  assert (find_char_at " "%byte line 9 = Some 12%nat) as ->.
  { unfold find_char_at. assert (drop 9 line = S ++ " "%byte :: R) as ->.
    { subst line. change (version_text v ++ $" " ++ S ++ $" " ++ R)
        with (version_text v ++ ($" " ++ S ++ $" " ++ R)).
      rewrite (app_assoc (version_text v)).
      replace 9%nat with (length (version_text v ++ $" ")) by (rewrite length_app, H8; done).
      by rewrite drop_app_length. }
    rewrite find_char_here by done. simpl. by rewrite Hl. }
  assert (substr line 9 (12 - 9) = S) as ->.
  { subst line. rewrite (app_assoc (version_text v)).
    replace (12 - 9)%nat with (length S) by done.
    assert (9%nat = length (version_text v ++ $" ")) as -> by (rewrite length_app, H8; done).
    apply substr_at. }
  assert (drop (12 + 1) line = R) as ->.
  { subst line. replace (version_text v ++ $" " ++ S ++ $" " ++ R)
      with ((version_text v ++ $" " ++ S ++ $" ") ++ R) by (by rewrite <- !app_assoc).
    replace (12 + 1)%nat with (length (version_text v ++ $" " ++ S ++ $" "))
      by (rewrite !length_app, H8, Hl; done).
    apply drop_app_length. }
  rewrite Hl, Hs. cbn [Nat.eqb negb].
  rewrite (proj2 (Z.ltb_ge _ _)), (proj2 (Z.ltb_ge _ _)) by lia. cbn [orb]. rewrite HR.
  by destruct Hv as [-> | ->].
Qed.

(** ** Header lists *)

Fixpoint fold_effects (hs : list (str * str)) (st : header_state) : result header_state :=
  match hs with
  | [] => inr st
  | p :: hs' => let! st' := header_effect p.1 p.2 st in fold_effects hs' st'
  end.

Lemma response_effects_app hs1 hs2 st :
  fold_effects (hs1 ++ hs2) st = (let! st' := fold_effects hs1 st in fold_effects hs2 st').
Proof.
  revert st. induction hs1 as [|p hs1 IH]; intros st; simpl; [done|].
  destruct (header_effect _ _ st); [done|]. apply IH.
Qed.

Lemma response_lines_effects lines hs st :
  Forall2 (λ l p, header_line_of l p.1 p.2) lines hs →
  fold_lines header_line_step lines st = fold_effects hs st.
Proof.
  intros H. revert st. induction H as [|l p lines hs Hl _ IH]; intros st; simpl; [done|].
  unfold header_line_step at 1. rewrite (split_header_line_of _ _ _ _ _ Hl).
  destruct (header_effect _ _ st); [done|]. apply IH.
Qed.

(** The names the parser treats in a special way. *)
Definition plain_name (name : str) : Prop :=
  ¬ ci_equiv name $"content-length" ∧ ¬ ci_equiv name $"transfer-encoding" ∧
  ¬ ci_equiv name $"connection" ∧ ¬ ci_equiv name $"set-cookie".

Definition with_response (r : Response.HttpResponse) (st : header_state) : header_state :=
  mkHeaderState r (content_length_seen st) (transfer_encoding_seen st) (connection_seen st)
    (parsed_content_length st) (transfer_encoding st) (connection_header st).

Lemma name_test name key :
  ¬ ci_equiv name key → ParserText.CaseInsensitiveEqual name key = false.
Proof. intros H. rewrite CaseInsensitiveEqual_eq. by apply CaseInsensitiveEqual_false. Qed.

Lemma plain_effect name value st :
  plain_name name →
  header_effect name value st =
  inr (with_response (Response.setHeader name value (response st)) st).
Proof.
  intros (H1&H2&H3&H4). unfold header_effect, collect_field, store_field, with_response.
  by rewrite !name_test by done.
Qed.

Lemma plain_effects hs st :
  Forall (λ p, plain_name p.1) hs →
  fold_effects hs st =
  inr (with_response (foldl (λ r p, Response.setHeader p.1 p.2 r) (response st) hs) st).
Proof.
  intros H. revert st. induction H as [|[k v] hs Hp _ IH]; intros st; simpl.
  - by destruct st.
  - rewrite plain_effect by done. by rewrite IH.
Qed.

Lemma cookie_effects cs st :
  fold_effects ((λ c, ($"Set-Cookie", c)) <$> cs) st =
  inr (with_response (foldl (λ r c, Response.addCookie c r) (response st) cs) st).
Proof.
  revert st. induction cs as [|c cs IH]; intros st; simpl.
  - by destruct st.
  - change (header_effect $"Set-Cookie" c st)
      with (inr (A := stop) (with_response (Response.addCookie c (response st)) st)).
    cbv iota beta. by rewrite IH.
Qed.

(** ** What a dumped response looks like *)

Definition connection_value (r : Response.HttpResponse) : str :=
  if Response.close r then $"close" else $"keep-alive".

Definition kept_headers (r : Response.HttpResponse) : list (str * str) :=
  filter (λ p, Response.skip_header false p.1 = false) (Response.headers r).

Definition printed_headers (r : Response.HttpResponse) : list (str * str) :=
  kept_headers r ++ ((λ c, ($"Set-Cookie", c)) <$> Response.cookies r) ++
  [($"Connection", connection_value r)] ++
  (if Response.ResponseAllowsBody (Response.status r)
   then [($"Content-Length", to_dec (size (Response.body r)))] else []).

Definition printed_reason (r : Response.HttpResponse) : str :=
  if Response.nonempty (Response.reason r) then Response.reason r
  else HttpStatusToString (Response.status r).

Definition printed_body (r : Response.HttpResponse) : str :=
  if Response.ResponseAllowsBody (Response.status r) then Response.body r else [].

Definition status_line (r : Response.HttpResponse) : str :=
  version_text (Response.version r) ++ $" " ++ to_dec (Response.status r) ++ $" " ++
  printed_reason r.

Record wf_response (r : Response.HttpResponse) : Prop := {
  wf_version : Response.version r = 0x11 ∨ Response.version r = 0x10;
  wf_status : 100 <= Response.status r <= 999;
  wf_websocket : Response.websocket r = false;
  wf_reason : IsValidHeaderValue (Response.reason r) = true;
  wf_map : map_wf (Response.headers r);
  wf_entries : Forall (λ p, good_header p ∧ ¬ ci_equiv p.1 $"transfer-encoding" ∧
    ¬ ci_equiv p.1 $"set-cookie") (Response.headers r);
  wf_cookies : Forall (λ c, IsValidHeaderValue c = true ∧ Trim c = c) (Response.cookies r);
  wf_head_size : size (Response.dump r) - size (printed_body r) <= kMaxHeaderSize;
  wf_body_size : size (Response.body r) <= kMaxBodySize;
}.

Lemma kept_lines hs :
  mjoin ((λ p, if Response.skip_header false p.1 then [] else Response.header_line p) <$> hs) =
  lines_text (line_of <$> filter (λ p, Response.skip_header false p.1 = false) hs).
Proof.
  induction hs as [|p hs IH]; [done|]. rewrite filter_cons, fmap_cons.
  match goal with |- mjoin (?a :: ?b) = _ => change (mjoin (a :: b)) with (a ++ mjoin b) end.
  rewrite IH. destruct (Response.skip_header false p.1) eqn:E.
  - by rewrite decide_False.
  - rewrite decide_True by done. rewrite fmap_cons, lines_text_cons.
    unfold Response.header_line, line_of. by rewrite <- !app_assoc.
Qed.

Lemma cookie_lines cs :
  mjoin ((λ c, $"Set-Cookie: " ++ c ++ CRLF) <$> cs) =
  lines_text (line_of <$> ((λ c, ($"Set-Cookie", c)) <$> cs)).
Proof.
  induction cs as [|c cs IH]; [done|]. rewrite !fmap_cons, lines_text_cons, <- IH.
  match goal with |- mjoin (?a :: ?b) = _ => change (mjoin (a :: b)) with (a ++ mjoin b) end.
  unfold line_of at 1. cbn [fst snd]. by rewrite <- !app_assoc.
Qed.

Lemma response_dump_lines r :
  wf_response r →
  Response.dump r =
  lines_text (status_line r :: (line_of <$> printed_headers r)) ++ CRLF ++ printed_body r.
Proof.
  intros H. unfold Response.dump, printed_headers, kept_headers, printed_body.
  rewrite (wf_websocket r H). cbv zeta. rewrite kept_lines, cookie_lines.
  rewrite lines_text_cons, !fmap_app, !lines_text_app.
  assert ($"HTTP/" ++ to_dec (Z.shiftr (Response.version r) 4) ++ $"." ++
    to_dec (Z.land (Response.version r) 0x0F) = version_text (Response.version r)) as Ev
    by (by destruct (wf_version r H) as [-> | ->]).
  assert ($"Connection: " ++ (if Response.close r then $"close" else $"keep-alive") ++ CRLF ++
      (if Response.ResponseAllowsBody (Response.status r)
       then $"Content-Length: " ++ to_dec (size (Response.body r)) ++ CRLF else []) =
    lines_text (line_of <$> [($"Connection", connection_value r)]) ++
    lines_text (line_of <$> (if Response.ResponseAllowsBody (Response.status r)
       then [($"Content-Length", to_dec (size (Response.body r)))] else []))) as Ec.
  { unfold connection_value, lines_text, line_of. simpl fmap.
    destruct (Response.ResponseAllowsBody _); simpl mjoin; cbn [app];
      rewrite ?app_nil_r, <- ?app_assoc; done. }
  rewrite Ec. unfold status_line, printed_reason. rewrite <- Ev, <- !app_assoc. done.
Qed.

(** ** The printed headers, parsed *)

Lemma add_headers_response r hs :
  foldl (λ r p, Response.setHeader p.1 p.2 r) r hs =
  Response.setHeaders (foldl (λ m p, insert_or_assign p.1 p.2 m) (Response.headers r) hs) r.
Proof.
  revert r. induction hs as [|p hs IH]; intros r; simpl; [by destruct r|]. by rewrite IH.
Qed.

Lemma add_cookies_response r cs :
  foldl (λ r c, Response.addCookie c r) r cs =
  Response.mkHttpResponse (Response.status r) (Response.version r) (Response.close r)
    (Response.websocket r) (Response.body r) (Response.reason r) (Response.headers r)
    (Response.cookies r ++ cs).
Proof.
  revert r. induction cs as [|c cs IH]; intros r; simpl.
  - rewrite app_nil_r. by destruct r.
  - rewrite IH. simpl. by rewrite <- app_assoc.
Qed.

Lemma skip_header_spec name :
  Response.skip_header false name = false ↔
  ¬ ci_equiv name $"connection" ∧ ¬ ci_equiv name $"content-length".
Proof.
  unfold Response.skip_header. cbn [negb andb].
  rewrite orb_false_iff, !HeaderText.CaseInsensitiveEqual_false. done.
Qed.

Lemma kept_headers_wf r : wf_response r → map_wf (kept_headers r).
Proof. intros H. apply map_wf_filter, (wf_map r H). Qed.

Lemma kept_headers_elem r p :
  wf_response r → p ∈ kept_headers r → plain_name p.1 ∧ good_header p.
Proof.
  intros H [Hs Hp]%list_elem_of_filter. apply skip_header_spec in Hs as [? ?].
  pose proof (wf_entries r H) as He. rewrite Forall_forall in He.
  destruct (He p Hp) as (?&?&?). done.
Qed.

Lemma response_headers_good r : wf_response r → Forall good_header (printed_headers r).
Proof.
  intros H. unfold printed_headers. rewrite !Forall_app. split_and!.
  - apply Forall_forall. intros p Hp. by apply (kept_headers_elem r p H).
  - apply Forall_fmap. eapply Forall_impl; [apply (wf_cookies r H)|].
    intros c [? ?]. split_and!; done.
  - constructor; [|constructor]. unfold good_header, connection_value.
    by destruct (Response.close r).
  - destruct (Response.ResponseAllowsBody _); [|constructor].
    constructor; [|constructor]. apply to_dec_value, size_nonneg.
Qed.

(** The headers of the parsed response. *)
Definition parsed_headers (r : Response.HttpResponse) : HttpMap :=
  insert_or_assign $"Connection" (connection_value r)
    (if Response.ResponseAllowsBody (Response.status r)
     then insert_or_assign $"Content-Length" (to_dec (size (Response.body r))) (kept_headers r)
     else kept_headers r).

Lemma response_effects r r0 :
  wf_response r → Response.headers r0 = [] → Response.cookies r0 = [] →
  ∃ st, fold_effects (printed_headers r) (initial_state r0) = inr st ∧
    content_length_seen st = Response.ResponseAllowsBody (Response.status r) ∧
    transfer_encoding_seen st = false ∧
    parsed_content_length st = size (printed_body r) ∧
    store_collected st =
      Response.mkHttpResponse (Response.status r0) (Response.version r0) (Response.close r0)
        (Response.websocket r0) (Response.body r0) (Response.reason r0)
        (parsed_headers r) (Response.cookies r).
Proof.
  intros H Hh Hc. unfold printed_headers.
  rewrite response_effects_app, plain_effects.
  2:{ apply Forall_forall. intros p Hp. by apply (kept_headers_elem r p H). }
  rewrite add_headers_response.
  change (response (initial_state r0)) with r0. rewrite Hh.
  rewrite (insert_all_wf [] (kept_headers r)) by apply (kept_headers_wf r H). cbn [app].
  rewrite response_effects_app, cookie_effects, add_cookies_response.
  cbn [Response.cookies Response.setHeaders with_response response]. rewrite Hc. cbn [app].
  unfold parsed_headers, printed_body. pose proof (wf_body_size r H) as Hb.
  pose proof (size_nonneg (Response.body r)).
  cbn [fold_effects app fst snd].
  match goal with |- context [header_effect $"Connection" ?v ?st] =>
    change (header_effect $"Connection" v st) with
      (inr (A := stop) (mkHeaderState (response st) (content_length_seen st)
        (transfer_encoding_seen st) true (parsed_content_length st) (transfer_encoding st) v)) end.
  cbv iota beta. destruct (Response.ResponseAllowsBody _).
  - cbn [fold_effects fst snd].
    unfold header_effect, collect_field.
    change (ParserText.CaseInsensitiveEqual $"Content-Length" $"content-length") with true.
    cbn [content_length_seen with_response initial_state].
    rewrite ParseContentLength_to_dec by lia. cbv iota beta.
    eexists. split; [done|]. by split_and!.
  - eexists. split; [done|]. by split_and!.
Qed.

(** ** The round trip *)

Definition expected_header (r : Response.HttpResponse) (key : str) : option str :=
  if decide (ci_equiv key $"connection") then Some (connection_value r)
  else if decide (ci_equiv key $"content-length")
  then if Response.ResponseAllowsBody (Response.status r)
       then Some (to_dec (size (Response.body r))) else None
  else map_find key (Response.headers r).

Definition copied_name (k : str) : Prop :=
  ¬ ci_equiv k $"connection" ∧ ¬ ci_equiv k $"content-length".

#[export] Instance copied_name_dec k : Decision (copied_name k).
Proof. unfold copied_name. apply _. Defined.

Lemma kept_headers_find r key :
  wf_response r →
  map_find key (kept_headers r) =
  if decide (copied_name key) then map_find key (Response.headers r) else None.
Proof.
  intros H.
  rewrite <- (map_find_filter copied_name);
    [|intros k k' He; unfold copied_name; by rewrite He|apply (wf_map r H)].
  f_equal. apply list_filter_iff. intros p. apply skip_header_spec.
Qed.

Lemma parsed_headers_find r key :
  wf_response r → map_find key (parsed_headers r) = expected_header r key.
Proof.
  intros H. unfold parsed_headers, expected_header. pose proof (kept_headers_wf r H) as Hk.
  assert (∀ k, ci_equiv k $"Content-Length" ↔ ci_equiv k $"content-length") as E1 by done.
  assert (∀ k, ci_equiv k $"Connection" ↔ ci_equiv k $"connection") as E2 by done.
  destruct (Response.ResponseAllowsBody _);
    rewrite !map_find_insert, kept_headers_find by (auto with droplet);
    unfold copied_name; repeat case_decide; naive_solver.
Qed.

Lemma response_lines_plain r :
  wf_response r →
  CR ∉ status_line r ∧ Forall (λ l, CR ∉ l ∧ l ≠ []) (line_of <$> printed_headers r) ∧
  Forall2 (λ l p, header_line_of l p.1 p.2) (line_of <$> printed_headers r) (printed_headers r).
Proof.
  intros H. pose proof (response_headers_good r H) as Hg. split_and!.
  - unfold status_line. rewrite !not_elem_of_app. split_and!.
    + destruct (wf_version r H) as [-> | ->]; by apply (bool_decide_unpack _).
    + by apply (bool_decide_unpack _).
    + pose proof (to_dec_digits (Response.status r)) as Hd.
      intros Hin. pose proof (wf_status r H). rewrite Forall_forall in Hd.
      apply Hd in Hin; [|lia]. by destruct Hin.
    + by apply (bool_decide_unpack _).
    + apply header_value_no; [|done]. unfold printed_reason.
      destruct (Response.nonempty _); [apply (wf_reason r H)|apply HttpStatusToString_valid].
  - apply Forall_fmap. eapply Forall_impl; [done|]. intros p (?&?&?). by apply line_of_plain.
  - induction Hg as [|p hs (?&?&?) _ IH]; [constructor|].
    rewrite fmap_cons. constructor; [by apply line_of_header|done].
Qed.

Lemma response_head_dump r rest :
  wf_response r →
  ∃ h, parse_head (Response.dump r ++ rest) = inr h ∧
    header_size h = (length (Response.dump r) - length (printed_body r))%nat ∧
    head_status h = Response.status r ∧ coding h = None ∧
    announced_length h = (if Response.ResponseAllowsBody (Response.status r)
                          then Some (size (Response.body r)) else None) ∧
    head_response h = Response.mkHttpResponse (Response.status r) (Response.version r)
      (Response.close r) false [] (printed_reason r) (parsed_headers r) (Response.cookies r).
Proof.
  intros H. pose proof (wf_head_size r H) as Hk.
  pose proof (response_dump_lines r H) as Ed.
  destruct (response_lines_plain r H) as (Hcr&Hpl&Hho).
  set (lines := lines_text (status_line r :: (line_of <$> printed_headers r))) in *.
  assert (length (Response.dump r) = length lines + 2 + length (printed_body r))%nat as El
    by (rewrite Ed, !length_app; simpl; lia).
  assert (Z.of_nat (length lines) + 2 <= kMaxHeaderSize) as Hl
    by (unfold size in Hk; rewrite El in Hk; lia).
  set (r0 := Response.setReason (printed_reason r) (Response.setStatus (Response.status r)
    (Response.make (Response.version r) (Response.version r <=? 0x10)))).
  destruct (response_effects r r0) as (st&Hst&Hcl&Hte&Hpc&Hsc); [done..|].
  destruct (section_found headers_too_large
    (Fail INVALID_STATUS $"HTTP status line is incomplete")
    $"HTTP response header line is not terminated with CRLF" header_line_step
    (status_line r) (line_of <$> printed_headers r) (printed_body r ++ rest)
    (initial_state r0) Hcr Hpl Hl) as (E1&E2&E3&E4).
  fold lines in E1, E2, E3, E4.
  replace (lines ++ CRLF ++ printed_body r ++ rest) with (Response.dump r ++ rest)
    in E1, E2, E3, E4 by (rewrite Ed, <- !app_assoc; done).
  unfold parse_head. rewrite E1, E2, E3. cbv zeta.
  destruct (status_text_ok _ (wf_status r H)) as (S1&S2&S3).
  unfold status_line at 1. rewrite (parse_status_line_of _ _ (Response.status r)); try done.
  2:{ apply (wf_version r H). }
  2:{ apply (wf_status r H). }
  2:{ unfold printed_reason. destruct (Response.nonempty _);
        [apply (wf_reason r H)|apply HttpStatusToString_valid]. }
  fold r0. unfold response_header_loop. rewrite E4.
  rewrite (response_lines_effects _ _ _ Hho), Hst, Hcl, Hte, andb_false_r, Hpc, Hsc.
  assert (size (printed_body r) <= kMaxBodySize) as Hpb.
  { unfold printed_body. pose proof (wf_body_size r H).
    destruct (Response.ResponseAllowsBody _); [done|]. by vm_compute. }
  rewrite (proj2 (Z.ltb_ge _ _)) by done.
  eexists. split; [done|]. cbn [header_size head_status coding announced_length head_response].
  split_and!; [|done|done| |].
  - rewrite El. assert (2 ≤ length lines)%nat; [|lia].
    subst lines. rewrite lines_text_cons, !length_app. simpl. lia.
  - unfold printed_body. by destruct (Response.ResponseAllowsBody _).
  - unfold Response.initConnection, Response.getHeader. cbn [Response.headers].
    rewrite parsed_headers_find by done. unfold expected_header.
    rewrite decide_True by done. unfold connection_value.
    by destruct (Response.close r).
Qed.

(** What the parsed response keeps of the printed one. *)
Definition same_response (r r' : Response.HttpResponse) : Prop :=
  Response.status r' = Response.status r ∧ Response.version r' = Response.version r ∧
  Response.reason r' = printed_reason r ∧ Response.body r' = printed_body r ∧
  Response.close r' = Response.close r ∧ Response.cookies r' = Response.cookies r ∧
  ∀ key, map_find key (Response.headers r') = expected_header r key.

Lemma no_body_statuses method s :
  method ≠ HEAD → method ≠ CONNECT →
  ResponseHasNoBody method s = negb (Response.ResponseAllowsBody s).
Proof.
  intros H1 H2. unfold ResponseHasNoBody, Response.ResponseAllowsBody, NO_CONTENT, NOT_MODIFIED.
  rewrite bool_decide_eq_false_2, bool_decide_eq_false_2 by done. cbn [orb andb].
  destruct ((100 <=? s) && (s <? 200)), (s =? 204), (s =? 304); done.
Qed.

Lemma parse_response_dump method r rest eof :
  wf_response r → method ≠ HEAD → method ≠ CONNECT →
  ∃ r', parse_message method (Response.dump r ++ rest) eof =
      (false, inr (mkMessage (length (Response.dump r)) r' (size (printed_body r)) false)) ∧
    same_response r r'.
Proof.
  intros H Hm1 Hm2. destruct (response_head_dump r rest H) as (h&Eh&Hs&Hst&Hc&Ha&Hr).
  unfold parse_message. rewrite Eh. cbv zeta. rewrite Hst, (no_body_statuses _ _ Hm1 Hm2).
  rewrite Hc, Ha, Hr, Hs. pose proof (response_dump_lines r H) as Ed.
  set (lines := lines_text _) in Ed.
  assert (length (Response.dump r) = length lines + 2 + length (printed_body r))%nat as El
    by (rewrite Ed, !length_app; simpl; lia).
  pose proof (wf_head_size r H) as Hk. unfold size in Hk. rewrite El in Hk.
  unfold same_response. pose proof (parsed_headers_find r) as Hf.
  assert (Response.ResponseAllowsBody (Response.status r) = true → printed_body r = Response.body r)
    as Hpb by (unfold printed_body; by intros ->).
  assert (Response.ResponseAllowsBody (Response.status r) = false → printed_body r = [])
    as Hpn by (unfold printed_body; by intros ->).
  destruct (Response.ResponseAllowsBody (Response.status r)) eqn:Eb; cbn [negb].
  - rewrite Hpb in * by done. pose proof (wf_body_size r H) as Hbs.
    unfold kMaxHeaderSize, kMaxBodySize, size_max, u64_max, size in *.
    rewrite (proj2 (Z.ltb_ge _ _)) by lia. rewrite wrap_small by lia.
    rewrite length_app. rewrite (proj2 (Z.ltb_ge _ _)) by lia.
    eexists. split; [do 3 f_equal; lia|]. cbn [Response.status Response.version Response.reason Response.body
      Response.close Response.cookies Response.headers Response.setBody]. split_and!; try done; [|by auto].
    rewrite Nat2Z.id, Ed, <- !app_assoc.
    replace (length (lines ++ CRLF ++ Response.body r) - length (Response.body r))%nat
      with (length (lines ++ CRLF)) by (rewrite !length_app; lia).
    rewrite (app_assoc lines). apply substr_at.
  - rewrite Hpn in * by done. eexists. split; [do 3 f_equal; simpl; lia|].
    cbn [Response.status Response.version Response.reason Response.body
      Response.close Response.cookies Response.headers Response.setBody]. split_and!; try done. by auto.
Qed.

(** ** Main theorems *)

(** C33: a well-formed response survives the wire. What [HttpResponse::dump]
    prints, followed by any further bytes, is parsed in one call by a fresh
    parser for any method but HEAD and CONNECT: exactly the printed bytes are
    consumed and the response has the same status, version, reason, cookies and
    connection mode, the printed body (none for 1xx, 204 and 304) and as
    headers the original ones with the fields the printer writes itself. *)
Theorem response_round_trip method r rest eof :
  wf_response r → method ≠ HEAD → method ≠ CONNECT →
  ∃ r', execute (Response.dump r ++ rest) eof (make method) =
      (length (Response.dump r),
       mkHttpResponseParser r' method NONE [] (size (printed_body r)) false false true) ∧
    same_response r r'.
Proof.
  intros H Hm1 Hm2. destruct (parse_response_dump method r rest eof H Hm1 Hm2) as (r'&E&Hs).
  exists r'. split; [|done]. unfold execute, parse. cbn [request_method make].
  by rewrite E.
Qed.

(** A response with a reason of its own, headers, cookies and a body. *)
Definition sample_response : Response.HttpResponse :=
  Response.addCookie $"a=b; Path=/"
    (Response.setBody $"hello"
       (Response.setHeader $"Server" $"droplet"
          (Response.setReason $"Fine" (Response.make 0x11 false)))).

Lemma sample_response_wf : wf_response sample_response.
Proof.
  split; try (vm_compute; congruence).
  - by left.
  - vm_compute; split; congruence.
  - apply insert_or_assign_wf, map_wf_nil.
  - constructor; [|constructor]. split_and!.
    + split_and!; by vm_compute.
    + by apply (bool_decide_unpack _).
    + by apply (bool_decide_unpack _).
  - constructor; [|constructor]. split; by vm_compute.
Qed.

Lemma response_round_trip_witness :
  wf_response sample_response ∧
  ∃ r', execute (Response.dump sample_response ++ $"HTTP") false (make GET) =
      (length (Response.dump sample_response),
       mkHttpResponseParser r' GET NONE [] (size (printed_body sample_response))
         false false true) ∧
    same_response sample_response r'.
Proof.
  split; [exact sample_response_wf|].
  apply (response_round_trip GET sample_response $"HTTP" false sample_response_wf);
    discriminate.
Defined.

(** C34: chunked framing, exactly. With a head that selects chunked framing,
    the parser finishes with a message if and only if the input goes on, behind
    the head, with a chunk stream: size lines that state the length of the data
    behind them, a size line of zero, valid trailers within the limit and an
    empty line. The message consumes the head and the stream, its body is the
    data in order and its headers have the trailers applied. *)
Theorem chunked_framing_exactly method i eof h te m :
  size i < 2 ^ 63 → parse_head i = inr h →
  ResponseHasNoBody method (head_status h) = false →
  coding h = Some te → HeaderContainsFinalChunked te = true →
  parse_message method i eof = (false, inr m) ↔
  ∃ wire rest b r1, drop (header_size h) i = wire ++ rest ∧
    chunk_stream wire b (head_response h) r1 ∧
    m = mkMessage (header_size h + length wire)
          (Response.initConnection (Response.setBody b r1)) (size b) true.
Proof.
  intros Hi Hh Hm Hc Hte. pose proof (response_head_inr i h Hh) as (Hs&_&_).
  unfold parse_message. rewrite Hh. cbv zeta. rewrite Hm, Hc, Hte. cbn [negb].
  split.
  - destruct (chunk_loop _ _ _ _ _) as [|[[p b] r1]] eqn:El; [done|]. intros [= <-].
    pose proof (chunk_loop_bounds _ _ _ [] _ _ _ _ ltac:(by vm_compute) El) as [? _].
    apply chunk_loop_sound in El as (w&Hw&->); [|lia..|by vm_compute].
    exists (substr i (header_size h) (p - header_size h)), (drop p i), w, r1.
    split_and!; [|done|].
    + unfold substr. rewrite <- (take_drop (p - header_size h) (drop (header_size h) i)) at 1.
      rewrite drop_drop. do 2 f_equal. lia.
    + rewrite length_substr_exact by lia. f_equal. lia.
  - intros (wire&rest&b&r1&Hd&(cs&last&ts&Hw&Hcs&Hl&Hl0&->&Hb&Ht&Hts&Hfold)&->).
    assert (i = take (header_size h) i ++ mjoin (chunk_text <$> cs) ++ last ++ CRLF ++
      lines_text ts ++ CRLF ++ rest) as Ei.
    { rewrite <- (take_drop (header_size h) i) at 1. f_equal. rewrite Hd, Hw.
      by rewrite <- !app_assoc. }
    assert (length (take (header_size h) i) = header_size h) as Et
      by (rewrite length_take; lia).
    pose proof (chunk_loop_accepts (S (length i)) (take (header_size h) i) cs last ts rest []
      (head_response h) r1) as E. cbv zeta in E. rewrite <- Ei, Et in E.
    rewrite E; [| |done..].
    + cbn [app]. do 4 f_equal.
      assert (length i = header_size h + length wire + length rest)%nat; [|lia].
      rewrite <- (take_drop (header_size h) i), Hd, !length_app, Et. lia.
    + assert (length cs ≤ length (mjoin (chunk_text <$> cs)))%nat as Hlc.
      { clear. induction cs as [|c cs IH]; [done|]. rewrite chunks_text_cons.
        unfold chunk_text at 1. rewrite !length_app. simpl length. lia. }
      rewrite Ei, !length_app. lia.
Qed.

(** A verdict of the response parser reached before the end of the
    connection is final: when a call finishes, or fails with anything but an
    exceeded metadata limit, any longer input gives the same outcome. *)
Theorem response_prefix_verdict i s p :
  size (i ++ s) < 2 ^ 64 →
  let p' := (execute i false p).2 in
  (finished p' = true ∨ (hasError p' = true ∧ error p' ≠ HEADER_TOO_LARGE)) →
  execute (i ++ s) false p = execute i false p.
Proof.
  intros Hi. cbv zeta. unfold execute. destruct (finished p || hasError p) eqn:Ef; [done|].
  apply orb_false_iff in Ef as [Hf He]. unfold hasError in He.
  apply bool_decide_eq_false in He. assert (error p = NONE) as En by (apply dec_stable; done).
  unfold parse. pose proof (response_message_stable (request_method p) i s) as Hst.
  assert ((parse_message (request_method p) (i ++ s) false).1 =
          (parse_message (request_method p) i false).1 ∨
          ¬ final (parse_message (request_method p) i false).2) as Hflag.
  { destruct (parse_head i) as [st|h] eqn:Eh.
    - assert (st = NeedMore ∨ st ≠ NeedMore) as [->|Hne] by (destruct st; auto).
      + right. unfold parse_message. rewrite Eh. by intros H.
      + left. unfold parse_message. rewrite response_head_stable by congruence. by rewrite Eh.
    - left. unfold parse_message. rewrite response_head_stable by congruence. rewrite Eh.
      cbv zeta. destruct (ResponseHasNoBody _ _); [done|].
      destruct (coding h); [by destruct (negb _)|]. by destruct (announced_length h). }
  destruct (parse_message (request_method p) i false) as [cd x] eqn:Ex.
  destruct (parse_message (request_method p) (i ++ s) false) as [cd' x'] eqn:Ex'.
  cbn [fst snd] in *. intros Hv.
  assert (final x) as Hfin.
  { destruct x as [[|e m|]|m]; [| |exfalso|done].
    - destruct cd; cbn in Hv; unfold hasError in Hv; cbn in Hv; rewrite Hf, En in Hv;
        destruct Hv as [|[? _]]; done.
    - destruct cd; cbn in Hv; destruct Hv as [|[_ ?]]; done.
    - destruct cd; cbn in Hv; unfold hasError in Hv; cbn in Hv; rewrite Hf, En in Hv;
        destruct Hv as [|[? _]]; done. }
  destruct Hflag as [->|]; [|done]. by rewrite Hst.
Qed.

(** Bounds and progress of the response parser. A call never consumes
    beyond its input and consumes something exactly when it finishes; a
    finished body is at most the configured limit; finished and failed parsers
    no longer move; a call that neither finishes nor fails has changed nothing
    but the close-delimited flag, and no loop runs out of fuel. *)
Theorem response_execute_bounds i eof p :
  size i < 2 ^ 64 →
  let '(n, p') := execute i eof p in
  (n ≤ length i)%nat ∧
  (n = 0%nat ↔ finished p' = finished p) ∧
  (finished p' = true ∧ finished p = false → 0 <= content_length p' <= kMaxBodySize) ∧
  (finished p = true ∨ hasError p = true → p' = p) ∧
  (finished p' = false ∧ hasError p' = false → p' = p ∨ p' = set_close_delimited p) ∧
  (parse_message (request_method p) i eof).2 ≠ inl OutOfFuel.
Proof.
  intros Hi. assert ((parse_message (request_method p) i eof).2 ≠ inl OutOfFuel) as Hfuel
    by (by intros [?|?]%response_message_stops).
  unfold execute. destruct (finished p || hasError p) eqn:Ef.
  { apply orb_true_iff in Ef. split_and!; try done; [lia| |naive_solver].
    intros [H1 H2]. congruence. }
  apply orb_false_iff in Ef as [Hf He]. unfold parse.
  destruct (parse_message (request_method p) i eof) as [cd x] eqn:Ex. cbn [snd] in Hfuel.
  destruct x as [[|e m|]|m]; [| |done|].
  - destruct cd; cbn [finished set_close_delimited]; split_and!;
      (lia || done || intuition (congruence || auto)).
  - pose proof (response_message_stops (request_method p) i eof (Fail e m)) as Hs.
    rewrite Ex in Hs. destruct (Hs eq_refl) as [|Hb]; [done|].
    destruct cd; cbn [finished setError]; rewrite Hf; split_and!;
      try (lia || done || intuition congruence);
      intros [_ He']; unfold hasError in He'; apply bool_decide_eq_false in He';
      exfalso; by apply He'.
  - destruct (response_message_bounds (request_method p) i eof m Hi) as [? ?]; [by rewrite Ex|].
    cbn [finished content_length]. rewrite Hf. split_and!;
      (lia || done || intuition (congruence || lia)).
Qed.

Definition chunked_head : str :=
  $"HTTP/1.1 200 OK" ++ CRLF ++ $"Transfer-Encoding: chunked" ++ CRLF ++ CRLF.

(** The limit on chunk metadata depends on how the bytes are cut. There
    is a chunk line longer than the limit for which a parser that is called
    before the end of the line arrives fails, while a parser that is called
    with the line and what follows accepts the message. *)
Theorem chunk_line_limit_depends_on_cut :
  ∃ i s,
    error (execute i false (make GET)).2 = HEADER_TOO_LARGE ∧
    finished (execute (i ++ s) false (make GET)).2 = true.
Proof.
  exists (chunked_head ++ $"1;" ++ replicate (Z.to_nat 65540) "a"%byte),
    (CRLF ++ $"x" ++ CRLF ++ $"0" ++ CRLF ++ CRLF).
  split; vm_compute; reflexivity.
Qed.

Lemma response_prefix_verdict_witness :
  let i := Response.dump sample_response in
  let p := make GET in
  finished (execute i false p).2 = true ∧
  execute (i ++ $"HTTP/1.1 200") false p = execute i false p.
Proof.
  intros i p. assert (finished (execute i false p).2 = true) as H
    by (vm_compute; reflexivity).
  split; [exact H|]. apply response_prefix_verdict; [vm_compute; reflexivity|].
  left. exact H.
Defined.

Lemma response_execute_bounds_witness :
  let i := chunked_head ++ $"3" ++ CRLF ++ $"abc" ++ CRLF ++ $"0" ++ CRLF ++ CRLF in
  size i < 2 ^ 64 ∧ (execute i false (make GET)).1 = length i ∧
  ((execute i false (make GET)).1 ≤ length i)%nat.
Proof.
  intros i. assert (size i < 2 ^ 64) as H by (vm_compute; reflexivity).
  split; [exact H|]. split; [vm_compute; reflexivity|].
  pose proof (response_execute_bounds i false (make GET) H) as E.
  destruct (execute i false (make GET)) as [n p']. exact (proj1 E).
Defined.

Lemma chunked_framing_exactly_witness :
  let i := chunked_head ++ $"3;x" ++ CRLF ++ $"abc" ++ CRLF ++ $"0" ++ CRLF ++ CRLF ++ $"HTTP" in
  ∃ h m, parse_head i = inr h ∧ parse_message GET i false = (false, inr m) ∧
    ∃ wire rest b r1, drop (header_size h) i = wire ++ rest ∧
      chunk_stream wire b (head_response h) r1 ∧
      m = mkMessage (header_size h + length wire)
            (Response.initConnection (Response.setBody b r1)) (size b) true.
Proof.
  intros i.
  destruct (parse_head i) as [s|h] eqn:Eh; [vm_compute in Eh; discriminate|].
  destruct (parse_message GET i false) as [[] [s|m]] eqn:Em;
    [vm_compute in Em; discriminate..|].
  exists h, m. split; [reflexivity|]. split; [reflexivity|].
  destruct (coding h) as [te|] eqn:Ec.
  - apply (chunked_framing_exactly GET i false h te m); [vm_compute; reflexivity|exact Eh| |exact Ec| |exact Em].
    + vm_compute in Eh. injection Eh as <-. vm_compute. reflexivity.
    + vm_compute in Eh. injection Eh as <-. vm_compute in Ec. injection Ec as <-.
      vm_compute. reflexivity.
  - vm_compute in Eh. injection Eh as <-. vm_compute in Ec. discriminate.
Defined.

End ResponseRoundTrip.
