(* ===== verification/ByteArray.v ===== *)
(** [ByteArray] ([droplet/src/stream/bytearray.cc],
    [droplet/include/droplet/stream/bytearray.h]): the chain of fixed-size
    blocks, growth, the cursor, raw reads and writes across block boundaries,
    the fixed-width, varint, zigzag and string codecs, and the scatter/gather
    views.  Exceptions are values; an operation that throws keeps the state
    it had reached. *)

From S2P Require Import Prelude.

Module ByteArray.

(** ** State, exceptions, the monad *)

Inductive exn :=
  | InvalidArgument (what : str)
  | LengthError (what : str)
  | OutOfRange (what : str)
  | LogicError (what : str).

(** [blocks] is the chain from [root_] on, each node being its bytes; [tail_]
    is its last node and [current] the index of [current_], [None] for the
    null pointer.  [allocations] counts the blocks ever allocated: it only
    names the indeterminate contents of a new block. *)
Record ByteArray := mkByteArray {
  base_size : nat;
  position : nat;
  capacity : nat;
  size_ : nat;
  little_endian : bool;
  blocks : list str;
  current : option nat;
  allocations : nat;
}.

Definition M (A : Type) : Type := ByteArray → (exn + A) * ByteArray.

Definition ret {A} (x : A) : M A := λ st, (inr x, st).
Definition throw {A} (e : exn) : M A := λ st, (inl e, st).
Definition bind {A B} (m : M A) (k : A → M B) : M B :=
  λ st, match m st with
        | (inl e, st') => (inl e, st')
        | (inr x, st') => k x st'
        end.
Definition gets {A} (f : ByteArray → A) : M A := λ st, (inr (f st), st).

Declare Scope bytearray_scope.
Notation "'do' x '<-' m ';' k" := (bind m (λ x, k))
  (at level 200, x pattern, m at level 100, k at level 200) : bytearray_scope.
Notation "m ';;;' k" := (bind m (λ _, k))
  (at level 199, right associativity) : bytearray_scope.
Open Scope bytearray_scope.

Definition set_position (p : nat) (st : ByteArray) : ByteArray :=
  mkByteArray (base_size st) p (capacity st) (size_ st) (little_endian st)
    (blocks st) (current st) (allocations st).
Definition set_size (n : nat) (st : ByteArray) : ByteArray :=
  mkByteArray (base_size st) (position st) (capacity st) n (little_endian st)
    (blocks st) (current st) (allocations st).
Definition set_blocks (bs : list str) (st : ByteArray) : ByteArray :=
  mkByteArray (base_size st) (position st) (capacity st) (size_ st)
    (little_endian st) bs (current st) (allocations st).
Definition set_current (c : option nat) (st : ByteArray) : ByteArray :=
  mkByteArray (base_size st) (position st) (capacity st) (size_ st)
    (little_endian st) (blocks st) c (allocations st).
Definition setIsLittleEndian (v : bool) (st : ByteArray) : ByteArray :=
  mkByteArray (base_size st) (position st) (capacity st) (size_ st) v
    (blocks st) (current st) (allocations st).

Definition getReadSize (st : ByteArray) : nat := (size_ st - position st)%nat.
Definition getCapacity (st : ByteArray) : nat := (capacity st - position st)%nat.

(** [nodeAt]: the index of the block that holds a position, and the offset
    inside it; no block at the end of the chain. *)
Fixpoint node_at (bs : list str) (index position : nat) : option nat * nat :=
  match bs with
  | [] => (None, position)
  | b :: bs' =>
      if (length b <=? position)%nat
      then node_at bs' (S index) (position - length b)
      else (Some index, position)
  end.

Definition nodeAt (position : nat) (st : ByteArray) : option nat * nat :=
  node_at (blocks st) 0 position.

(** [current_ = nodeAt(position_, offset)]. *)
Definition update_current : M unit :=
  λ st, (inr tt, set_current (nodeAt (position st) st).1 st).

Section memory.
(** The indeterminate contents of the blocks: the byte at an offset of the
    block with the given allocation number. *)
Context (uninit : nat → nat → byte).

Definition new_block (number base : nat) : str := uninit number <$> seq 0 base.

(** The constructor. *)
Definition make (base : nat) : exn + ByteArray :=
  if Nat.eqb base 0
  then inl (InvalidArgument $"ByteArray base size must be greater than zero")
  else inr (mkByteArray base 0 base 0 false [new_block 0 base] (Some 0%nat) 1).

Definition clear : M unit :=
  λ st, (inr tt,
    mkByteArray (base_size st) 0 (base_size st) 0 (little_endian st)
      (take 1 (blocks st)) (Some 0%nat) (allocations st)).

(** One iteration of the loop of [addCapacity]. *)
Definition append_block (st : ByteArray) : ByteArray :=
  mkByteArray (base_size st) (position st) (capacity st + base_size st)
    (size_ st) (little_endian st)
    (blocks st ++ [new_block (allocations st) (base_size st)]) (current st)
    (S (allocations st)).

Definition addCapacity (n : nat) : M unit :=
  λ st,
    if (n <=? getCapacity st)%nat then (inr tt, st)
    else
      let missing := (n - getCapacity st)%nat in
      let count := (missing / base_size st +
        (if Nat.eqb (missing mod base_size st) 0 then 0 else 1))%nat in
      if (size_max - Z.of_nat (capacity st)) / Z.of_nat (base_size st) <? Z.of_nat count
      then (inl (LengthError $"ByteArray capacity overflow"), st)
      else (inr tt, Nat.iter count append_block st).

(** [memcpy] into a block. *)
Definition splice (b : str) (offset : nat) (data : str) : str :=
  take offset b ++ data ++ drop (offset + length data) b.

(** The loop of [write] from a node on: the new blocks and what is left. *)
Fixpoint write_nodes (bs : list str) (offset : nat) (source : str) : list str * str :=
  match bs with
  | [] => ([], source)
  | b :: bs' =>
      if Nat.eqb (length source) 0 then (bs, source)
      else
        let count := Nat.min (length source) (length b - offset) in
        let '(bs'', rest) := write_nodes bs' 0 (drop count source) in
        (splice b offset (take count source) :: bs'', rest)
  end.

(** The buffer is [None] for a null pointer. *)
Definition write (buffer : option str) (n : nat) : M unit :=
  if Nat.eqb n 0 then ret tt
  else
    match buffer with
    | None => throw (InvalidArgument $"ByteArray::write received a null buffer")
    | Some data =>
        do p <- gets position;
        if size_max - Z.of_nat p <? Z.of_nat n
        then throw (LengthError $"ByteArray position overflow")
        else
          addCapacity n;;;
          do (node, offset) <- gets (nodeAt p);
          do bs <- gets blocks;
          let start := default (length bs) node in
          let source := take n data in
          let '(written, rest) := write_nodes (drop start bs) offset source in
          (λ st, (inr tt, set_position (p + (n - length rest)) 
                           (set_blocks (take start bs ++ written) st)));;;
          if negb (Nat.eqb (length rest) 0)
          then throw (LogicError $"ByteArray internal capacity error")
          else
            (λ st, (inr tt, set_size (Nat.max (size_ st) (position st)) st));;;
            update_current
    end.

(** The loop of [read] from a node on: the bytes copied. *)
Fixpoint read_nodes (bs : list str) (offset remaining : nat) : str :=
  match bs with
  | [] => []
  | b :: bs' =>
      if Nat.eqb remaining 0 then []
      else
        let count := Nat.min remaining (length b - offset) in
        substr b offset count ++ read_nodes bs' 0 (remaining - count)
  end.

(** Copies [n] bytes from the chain, starting at [p]. *)
Definition copy_out (p n : nat) (st : ByteArray) : str :=
  let '(node, offset) := nodeAt p st in
  match node with
  | None => []
  | Some start => read_nodes (drop start (blocks st)) offset n
  end.

(** [read(buffer, size)]: the bytes stored in the buffer, which is not null. *)
Definition read (n : nat) : M str :=
  if Nat.eqb n 0 then ret []
  else
    do readable <- gets getReadSize;
    if (readable <? n)%nat
    then throw (OutOfRange $"ByteArray does not contain enough readable bytes")
    else
      do p <- gets position;
      do data <- gets (copy_out p n);
      (λ st, (inr tt, set_position (p + length data) st));;;
      if negb (Nat.eqb (length data) n)
      then throw (LogicError $"ByteArray internal readable range error")
      else update_current;;; ret data.

(** [read(buffer, size, position)]. *)
Definition read_at (n p : nat) : M str :=
  if Nat.eqb n 0 then ret []
  else
    do sz <- gets size_;
    if (sz <? p)%nat || (sz - p <? n)%nat
    then throw (OutOfRange $"ByteArray does not contain enough readable bytes")
    else
      do data <- gets (copy_out p n);
      if negb (Nat.eqb (length data) n)
      then throw (LogicError $"ByteArray internal readable range error")
      else ret data.

Definition setPosition (p : nat) : M unit :=
  do cap <- gets capacity;
  if (cap <? p)%nat
  then throw (OutOfRange $"ByteArray position exceeds capacity")
  else
    (λ st, (inr tt, set_size (Nat.max (size_ st) p) (set_position p st)));;;
    update_current.

Definition write_bytes (s : str) : M unit := write (Some s) (length s).

(** ** Fixed-width integers *)

(** The shift of the byte with index [i] in an integer of [n] bytes. *)
Definition byte_shift (little : bool) (n i : nat) : Z :=
  Z.of_nat (if little then i * 8 else (n - 1 - i) * 8)%nat.

Definition encode_fixed (little : bool) (n : nat) (value : Z) : str :=
  let bits := wrap (Z.of_nat (8 * n)) value in
  (λ i, chr (wrap 8 (Z.shiftr bits (byte_shift little n i)))) <$> seq 0 n.

Definition decode_fixed (little : bool) (n : nat) (bytes : str) : Z :=
  foldl (λ bits p,
    Z.lor bits (wrap (Z.of_nat (8 * n)) (Z.shiftl (code p.2) (byte_shift little n p.1))))
    0 (zip (seq 0 n) bytes).

(** [writeFixed<T>]: an integer of [n] bytes. *)
Definition writeFixed (n : nat) (value : Z) : M unit :=
  do little <- gets little_endian; write_bytes (encode_fixed little n value).

(** [readFixed<T>]: the unsigned value. *)
Definition readFixed (n : nat) : M Z :=
  do bytes <- read n;
  do little <- gets little_endian;
  ret (decode_fixed little n bytes).

Definition readFixedSigned (n : nat) : M Z :=
  do v <- readFixed n; ret (to_signed (Z.of_nat (8 * n)) v).

Definition writeFint8 := writeFixed 1.
Definition writeFuint8 := writeFixed 1.
Definition writeFint16 := writeFixed 2.
Definition writeFuint16 := writeFixed 2.
Definition writeFint32 := writeFixed 4.
Definition writeFuint32 := writeFixed 4.
Definition writeFint64 := writeFixed 8.
Definition writeFuint64 := writeFixed 8.
Definition readFint8 := readFixedSigned 1.
Definition readFuint8 := readFixed 1.
Definition readFint16 := readFixedSigned 2.
Definition readFuint16 := readFixed 2.
Definition readFint32 := readFixedSigned 4.
Definition readFuint32 := readFixed 4.
Definition readFint64 := readFixedSigned 8.
Definition readFuint64 := readFixed 8.

(** A floating-point number is its bit pattern. *)
Definition writeFloat (bits : Z) := writeFuint32 bits.
Definition writeDouble (bits : Z) := writeFuint64 bits.
Definition readFloat := readFuint32.
Definition readDouble := readFuint64.

(** ** Varints and zigzag *)

Definition EncodeZigzag (w value : Z) : Z :=
  Z.lxor (wrap w (Z.shiftl (wrap w value) 1)) (wrap w (- (if value <? 0 then 1 else 0))).
Definition EncodeZigzag32 := EncodeZigzag 32.
Definition EncodeZigzag64 := EncodeZigzag 64.

Definition DecodeZigzag (w value : Z) : Z :=
  to_signed w (Z.lxor (Z.shiftr value 1) (wrap w (0 - Z.land value 1))).
Definition DecodeZigzag32 := DecodeZigzag 32.
Definition DecodeZigzag64 := DecodeZigzag 64.

(** The loop that fills [bytes]; [count] is the size of the array. *)
Fixpoint encode_varint (count : nat) (value : Z) : str :=
  match count with
  | O => []
  | S count' =>
      if 0x80 <=? value
      then chr (Z.lor (Z.land value 0x7F) 0x80) :: encode_varint count' (Z.shiftr value 7)
      else [chr value]
  end.

Definition writeUint32 (value : Z) : M unit := write_bytes (encode_varint 5 value).
Definition writeUint64 (value : Z) : M unit := write_bytes (encode_varint 10 value).
Definition writeInt32 (value : Z) : M unit := writeUint32 (EncodeZigzag32 value).
Definition writeInt64 (value : Z) : M unit := writeUint64 (EncodeZigzag64 value).

(** The loop of [readUint32] and [readUint64]: width [w], at most [limit]
    bytes, the last of which is at most [last_max]. *)
Fixpoint read_varint (w : Z) (limit : nat) (last_max : Z) (what : str)
    (rounds : nat) (result : Z) : M Z :=
  match rounds with
  | O => throw (OutOfRange what)
  | S rounds' =>
      let index := Z.of_nat (limit - rounds) in
      do byte <- readFuint8;
      if Nat.eqb rounds' 0 && (last_max <? byte) then throw (OutOfRange what)
      else
        let result := Z.lor result (wrap w (Z.shiftl (Z.land byte 0x7F) (index * 7))) in
        if Z.land byte 0x80 =? 0 then ret result
        else read_varint w limit last_max what rounds' result
  end.

Definition readUint32 : M Z := read_varint 32 5 0x0F $"invalid uint32 varint" 5 0.
Definition readUint64 : M Z := read_varint 64 10 0x01 $"invalid uint64 varint" 10 0.
Definition readInt32 : M Z := do v <- readUint32; ret (DecodeZigzag32 v).
Definition readInt64 : M Z := do v <- readUint64; ret (DecodeZigzag64 v).

(** ** Strings *)

Definition writeStringF16 (value : str) : M unit :=
  if u16_max <? size value
  then throw (LengthError $"string is too long for a uint16 length")
  else writeFuint16 (size value);;; write_bytes value.

Definition writeStringF32 (value : str) : M unit :=
  if u32_max <? size value
  then throw (LengthError $"string is too long for a uint32 length")
  else writeFuint32 (size value);;; write_bytes value.

Definition writeStringF64 (value : str) : M unit :=
  writeFuint64 (size value);;; write_bytes value.

Definition writeStringVint (value : str) : M unit :=
  writeUint64 (size value);;; write_bytes value.

Definition writeStringWithoutLength (value : str) : M unit := write_bytes value.

Definition CheckedSize (value : Z) : M nat :=
  if size_max <? value
  then throw (LengthError $"ByteArray length does not fit in size_t")
  else ret (Z.to_nat value).

(** The part the four readers share: the length test and the copy. *)
Definition read_string (what : str) (n : nat) : M str :=
  do readable <- gets getReadSize;
  if (readable <? n)%nat then throw (OutOfRange what) else read n.

Definition readStringF16 : M str :=
  do n <- readFuint16; read_string $"not enough bytes for uint16 string" (Z.to_nat n).
Definition readStringF32 : M str :=
  do n <- readFuint32; read_string $"not enough bytes for uint32 string" (Z.to_nat n).
Definition readStringF64 : M str :=
  do v <- readFuint64; do n <- CheckedSize v;
  read_string $"not enough bytes for uint64 string" n.
Definition readStringVint : M str :=
  do v <- readUint64; do n <- CheckedSize v;
  read_string $"not enough bytes for varint string" n.

(** ** Views *)

Definition toString : M str :=
  do n <- gets getReadSize;
  if Nat.eqb n 0 then ret [] else do p <- gets position; read_at n p.

Definition hex_nibble (d : Z) : byte := chr (if d <? 10 then 48 + d else 87 + d).
Definition hex_byte (b : byte) : str :=
  [hex_nibble (code b / 16); hex_nibble (code b mod 16)].

Definition toHexString : M str :=
  do value <- toString;
  ret (mjoin (imap (λ index b,
    (if negb (Nat.eqb index 0) && Nat.eqb (index mod 32) 0 then [LF] else []) ++
    hex_byte b ++ $" ") value)).

(** An [iovec]: the block it points into, the offset and the length. *)
Record iovec := mkIovec { iov_block : nat; iov_offset : nat; iov_len : nat }.

(** The loop that collects the buffers. *)
Fixpoint collect_buffers (bs : list str) (index offset remaining : nat)
    : list iovec * nat :=
  match bs with
  | [] => ([], remaining)
  | b :: bs' =>
      if Nat.eqb remaining 0 then ([], remaining)
      else
        let count := Nat.min remaining (length b - offset) in
        let '(rest, unfilled) := collect_buffers bs' (S index) 0 (remaining - count) in
        (mkIovec index offset count :: rest, unfilled)
  end.

Definition buffers_at (p n : nat) (st : ByteArray) : list iovec * nat :=
  let '(node, offset) := nodeAt p st in
  let start := default (length (blocks st)) node in
  let '(buffers, unfilled) := collect_buffers (drop start (blocks st)) start offset n in
  (buffers, (n - unfilled)%nat).

(** The buffers and the number of bytes they cover. *)
Definition getReadBuffers (len : nat) (st : ByteArray) : list iovec * nat :=
  let n := Nat.min len (getReadSize st) in
  if Nat.eqb n 0 then ([], 0%nat) else buffers_at (position st) n st.

Definition getReadBuffers_at (len p : nat) (st : ByteArray) : list iovec * nat :=
  if (size_ st <? p)%nat then ([], 0%nat)
  else
    let n := Nat.min len (size_ st - p) in
    if Nat.eqb n 0 then ([], 0%nat) else buffers_at p n st.

Definition getWriteBuffers (len : nat) : M (list iovec * nat) :=
  if Nat.eqb len 0 then ret ([], 0%nat)
  else
    do requested <- CheckedSize (Z.of_nat len);
    addCapacity requested;;;
    do p <- gets position;
    gets (buffers_at p len).

(** ** Files *)

(** [writeToFile]: the stream, [None] when it could not be opened, and its
    [write], which tells whether the stream is still good. *)
Definition iov_bytes (st : ByteArray) (v : iovec) : str :=
  substr (default [] (blocks st !! iov_block v)) (iov_offset v) (iov_len v).

Definition streamsize_max : Z := 2 ^ 63 - 1.

Section output.
Context {F : Type} (output_write : str → F → bool * F).

(** The loop over one buffer; every round writes something, so its length is
    enough fuel. *)
Fixpoint write_buffer (fuel : nat) (data : str) (output : F) : bool * F :=
  match fuel, data with
  | _, [] | O, _ => (true, output)
  | S fuel', _ =>
      let count := Z.to_nat (Z.min (size data) streamsize_max) in
      match output_write (take count data) output with
      | (false, output) => (false, output)
      | (true, output) => write_buffer fuel' (drop count data) output
      end
  end.

Fixpoint write_buffers (buffers : list str) (output : F) : bool * F :=
  match buffers with
  | [] => (true, output)
  | data :: buffers' =>
      match write_buffer (length data) data output with
      | (false, output) => (false, output)
      | (true, output) => write_buffers buffers' output
      end
  end.

Definition writeToFile (output : option F) (st : ByteArray) : bool * option F :=
  match output with
  | None => (false, None)
  | Some output =>
      let '(result, output) :=
        write_buffers (iov_bytes st <$> (getReadBuffers (size_ st) st).1) output in
      (result, Some output)
  end.
End output.

(** [readFromFile]: what the reads of at most 16 KiB return, and [bad()]. *)
Fixpoint write_chunks (chunks : list str) : M unit :=
  match chunks with
  | [] => ret tt
  | c :: chunks' => write_bytes c;;; write_chunks chunks'
  end.

Definition readFromFile (reads : option (list str)) (bad : bool) : M bool :=
  match reads with
  | None => ret false
  | Some chunks => write_chunks chunks;;; ret (negb bad)
  end.
End memory.

End ByteArray.
