(* ===== verification/ByteArrayProofs.v ===== *)
(** The refinement of [ByteArray] to a flat sequence of bytes with a cursor:
    the invariant of the block chain, and what [write], [read], [setPosition],
    [clear] and the scatter/gather views do to the contents. *)

From S2P Require Import Prelude ByteArray.
Import ByteArray.

Module ByteArrayProofs.

(** ** The abstraction *)

Definition flat (st : ByteArray) : str := mjoin (blocks st).

(** The bytes the array holds, as its user sees them. *)
Definition contents (st : ByteArray) : str := take (size_ st) (flat st).

Record inv (st : ByteArray) : Prop := {
  inv_base : (0 < base_size st)%nat;
  inv_blocks : Forall (λ b, length b = base_size st) (blocks st);
  inv_nonempty : blocks st ≠ [];
  inv_capacity : capacity st = length (flat st);
  inv_order : (position st ≤ size_ st ≤ capacity st)%nat;
  inv_max : Z.of_nat (capacity st) <= size_max;
  inv_current : ∀ k, current st = Some k → (k < length (blocks st))%nat;
}.

(** ** Lists of blocks *)

Lemma mjoin_cons (b : str) bs : mjoin (b :: bs) = b ++ mjoin bs.
Proof. done. Qed.

Lemma mjoin_app (bs1 bs2 : list str) : mjoin (bs1 ++ bs2) = mjoin bs1 ++ mjoin bs2.
Proof. apply join_app. Qed.

(** The offset a loop starts with lies in its first block. *)
Definition offset_ok (bs : list str) (offset : nat) : Prop :=
  match bs with [] => offset = 0%nat | b :: _ => (offset ≤ length b)%nat end.

Lemma offset_ok_0 bs : offset_ok bs 0.
Proof. destruct bs; simpl; lia. Qed.

(** The block [node_at] finds is the one the flat position lies in. *)
Lemma node_at_spec bs index pos :
  (pos ≤ length (mjoin bs))%nat →
  let '(node, offset) := node_at bs index pos in
  let start := (default (index + length bs) node - index)%nat in
  (start ≤ length bs)%nat ∧ (node = None → start = length bs) ∧
  (∀ k, node = Some k → (index ≤ k < index + length bs)%nat) ∧
  offset_ok (drop start bs) offset ∧
  (length (mjoin (take start bs)) + offset = pos)%nat.
Proof.
  revert index pos. induction bs as [|b bs IH]; intros index pos Hp; cbn [node_at].
  - simpl in Hp. cbn [default]. replace (index + length (@nil str) - index)%nat with 0%nat
      by (simpl; lia). split_and!; try done; simpl; lia.
  - rewrite mjoin_cons, length_app in Hp.
    destruct (Nat.leb_spec (length b) pos) as [Hb|Hb].
    + specialize (IH (S index) (pos - length b)%nat ltac:(lia)).
      destruct (node_at bs (S index) (pos - length b)) as [node offset].
      destruct IH as (Hs&Hnone&Hk&Ho&Hsum).
      set (start := (default (S index + length bs) node - S index)%nat) in *.
      assert (default (index + length (b :: bs)) node - index = S start)%nat as ->.
      { subst start. destruct node as [k|]; simpl.
        - specialize (Hk k eq_refl). lia.
        - lia. }
      split_and!.
      * simpl. lia.
      * intros ->. simpl. rewrite Hnone by done. done.
      * intros k ->. specialize (Hk k eq_refl). simpl. lia.
      * done.
      * cbn [take]. rewrite mjoin_cons, length_app. lia.
    + cbn [default]. rewrite Nat.sub_diag. split_and!; simpl; try lia; try done.
      * intros k [= <-]. lia.
Qed.

Lemma splice_length b offset data :
  (offset + length data ≤ length b)%nat → length (splice b offset data) = length b.
Proof. intros. unfold splice. rewrite !length_app, length_take, length_drop. lia. Qed.

Lemma splice_nil b offset : (offset ≤ length b)%nat → splice b offset [] = b.
Proof. intros. unfold splice. simpl. by rewrite Nat.add_0_r, take_drop. Qed.

Lemma splice_app_l b c offset data :
  (offset + length data ≤ length b)%nat →
  splice (b ++ c) offset data = splice b offset data ++ c.
Proof.
  intros. unfold splice. rewrite take_app_le, drop_app_le by lia. by rewrite <- !app_assoc.
Qed.

(** Writing across the end of the first part. *)
Lemma splice_across b c offset d1 d2 :
  (offset + length d1 = length b)%nat → (length d2 ≤ length c)%nat →
  splice (b ++ c) offset (d1 ++ d2) = splice b offset d1 ++ splice c 0 d2.
Proof.
  intros H1 H2. unfold splice. rewrite length_app, take_app_le by lia.
  rewrite drop_app_ge by lia. rewrite (drop_ge b) by lia.
  replace (offset + (length d1 + length d2) - length b)%nat with (length d2) by lia.
  rewrite app_nil_r, <- !app_assoc. done.
Qed.

Lemma splice_shift b c offset data :
  splice (b ++ c) (length b + offset) data = b ++ splice c offset data.
Proof.
  unfold splice. rewrite take_app_add, <- Nat.add_assoc, drop_app_add.
  by rewrite <- app_assoc.
Qed.

(** ** The loops *)

Lemma write_nodes_spec bs offset source :
  offset_ok bs offset → (offset + length source ≤ length (mjoin bs))%nat →
  ∃ bs', write_nodes bs offset source = (bs', []) ∧
    mjoin bs' = splice (mjoin bs) offset source ∧
    Forall2 (λ b b', length b = length b') bs bs'.
Proof.
  revert offset source. induction bs as [|b bs IH]; intros offset source Ho Hl;
    cbn [write_nodes].
  - simpl in *. destruct source; [|simpl in Hl; lia]. subst. exists [].
    split_and!; [done|done|constructor].
  - destruct (Nat.eqb_spec (length source) 0) as [E|E].
    + destruct source; [|done]. exists (b :: bs). split_and!; [done| |].
      * rewrite splice_nil; [done|]. simpl in *. lia.
      * clear. induction (b :: bs); constructor; auto.
    + rewrite mjoin_cons, length_app in Hl. simpl in Ho.
      set (count := Nat.min (length source) (length b - offset)).
      destruct (IH 0%nat (drop count source) (offset_ok_0 bs)) as (bs'&E1&E2&E3).
      { rewrite length_drop. lia. }
      rewrite E1. exists (splice b offset (take count source) :: bs'). split; [done|].
      assert (length (take count source) = count) as Ec by (rewrite length_take; lia).
      split; [|constructor; [rewrite splice_length by lia; done|done]].
      rewrite !mjoin_cons, E2.
      destruct (decide (length source ≤ length b - offset)%nat).
      * assert (count = length source) as Eq by lia.
        rewrite (drop_ge source), (take_ge source) by lia.
        rewrite splice_nil by lia. rewrite splice_app_l by lia. done.
      * rewrite <- (take_drop count source) at 3.
        rewrite splice_across; [done|lia|rewrite length_drop; lia].
Qed.

Lemma read_nodes_spec bs offset n :
  offset_ok bs offset → (offset + n ≤ length (mjoin bs))%nat →
  read_nodes bs offset n = substr (mjoin bs) offset n.
Proof.
  revert offset n. induction bs as [|b bs IH]; intros offset n Ho Hl; cbn [read_nodes].
  - simpl in *. by replace n with 0%nat by lia.
  - destruct (Nat.eqb_spec n 0) as [->|E]; [done|].
    rewrite mjoin_cons, length_app in Hl. simpl in Ho.
    set (count := Nat.min n (length b - offset)).
    rewrite IH by (first [apply offset_ok_0|lia]).
    rewrite mjoin_cons. unfold substr. rewrite drop_0.
    destruct (decide (n ≤ length b - offset)%nat).
    + replace count with n by lia. rewrite Nat.sub_diag, take_0, app_nil_r.
      rewrite drop_app_le by lia. rewrite take_app_le; [done|]. rewrite length_drop. lia.
    + replace count with (length b - offset)%nat by lia.
      rewrite drop_app_le by lia. rewrite take_app_ge by (rewrite length_drop; lia).
      rewrite length_drop. rewrite take_ge by (rewrite length_drop; lia). done.
Qed.

Definition iov_in (bs : list str) (v : iovec) : str :=
  substr (default [] (bs !! iov_block v)) (iov_offset v) (iov_len v).

(** A view points into one block and does not leave it. *)
Definition iov_inside (bs : list str) (v : iovec) : Prop :=
  ∃ b, bs !! iov_block v = Some b ∧ (iov_offset v + iov_len v ≤ length b)%nat.

Lemma collect_buffers_spec pre bs offset n :
  offset_ok bs offset → (offset + n ≤ length (mjoin bs))%nat →
  ∃ vs, collect_buffers bs (length pre) offset n = (vs, 0%nat) ∧
    mjoin (iov_in (pre ++ bs) <$> vs) = substr (mjoin bs) offset n ∧
    Forall (iov_inside (pre ++ bs)) vs ∧ sum_list (iov_len <$> vs) = n.
Proof.
  revert pre offset n. induction bs as [|b bs IH]; intros pre offset n Ho Hl;
    cbn [collect_buffers].
  - simpl in *. replace n with 0%nat by lia. exists []. by split_and!.
  - destruct (Nat.eqb_spec n 0) as [->|E].
    { exists []. split_and!; [done|done|constructor|done]. }
    rewrite mjoin_cons, length_app in Hl. simpl in Ho.
    set (count := Nat.min n (length b - offset)).
    destruct (IH (pre ++ [b]) 0%nat (n - count)%nat) as (vs&E1&E2&E3&E4);
      [apply offset_ok_0|lia|].
    rewrite length_app in E1. simpl in E1. rewrite Nat.add_1_r in E1. rewrite E1.
    rewrite <- app_assoc in E2, E3. cbn [app] in E2, E3.
    assert ((pre ++ b :: bs) !! length pre = Some b) as Hb by (by apply list_lookup_middle).
    exists (mkIovec (length pre) offset count :: vs). split; [done|].
    split_and!.
    + rewrite fmap_cons, mjoin_cons, E2. unfold iov_in at 1. cbn [iov_block iov_offset iov_len].
      rewrite Hb. cbn [default]. unfold substr. rewrite drop_0, mjoin_cons.
      destruct (decide (n ≤ length b - offset)%nat).
      * replace count with n by lia. rewrite Nat.sub_diag, take_0, app_nil_r.
        rewrite drop_app_le by lia. rewrite take_app_le; [done|]. rewrite length_drop. lia.
      * replace count with (length b - offset)%nat by lia.
        rewrite drop_app_le by lia. rewrite take_app_ge by (rewrite length_drop; lia).
        rewrite length_drop. rewrite (take_ge (drop offset b)) by (rewrite length_drop; lia). done.
    + constructor; [|done]. exists b. cbn [iov_block iov_offset iov_len]. split; [done|lia].
    + rewrite fmap_cons. cbn [sum_list iov_len]. rewrite E4. unfold id. lia.
Qed.

(** ** Positions *)

Lemma nodeAt_found p st :
  (p ≤ length (flat st))%nat →
  ∃ node offset, nodeAt p st = (node, offset) ∧
    let start := default (length (blocks st)) node in
    (start ≤ length (blocks st))%nat ∧ (node = None → p = length (flat st)) ∧
    offset_ok (drop start (blocks st)) offset ∧
    flat st = mjoin (take start (blocks st)) ++ mjoin (drop start (blocks st)) ∧
    (length (mjoin (take start (blocks st))) + offset = p)%nat.
Proof.
  intros Hp. pose proof (node_at_spec (blocks st) 0 p Hp) as H.
  unfold nodeAt. destruct (node_at (blocks st) 0 p) as [node offset].
  rewrite Nat.sub_0_r, Nat.add_0_l in H. destruct H as (Hs&Hn&Hk&Ho&Hsum).
  exists node, offset. split; [done|]. cbv zeta. split_and!; try done.
  - intros ->. cbn [default] in *. rewrite firstn_all in Hsum. rewrite drop_all in Ho.
    simpl in Ho. unfold flat. lia.
  - unfold flat. by rewrite <- mjoin_app, take_drop.
Qed.

Lemma copy_out_spec p n st :
  (p + n ≤ length (flat st))%nat → (0 < n)%nat → copy_out p n st = substr (flat st) p n.
Proof.
  intros Hp Hn. destruct (nodeAt_found p st) as (node&offset&E&Hs&Hnone&Ho&Hf&Hsum); [lia|].
  unfold copy_out. rewrite E. destruct node as [start|]; [|specialize (Hnone eq_refl); lia].
  cbn [default] in *. unfold id in *. rewrite read_nodes_spec; [|done|].
  - rewrite Hf. unfold substr. rewrite <- Hsum, drop_app_add. done.
  - assert (length (flat st) = length (mjoin (take start (blocks st))) +
      length (mjoin (drop start (blocks st))))%nat by (rewrite Hf, length_app; done). lia.
Qed.

Lemma buffers_at_spec p n st :
  (p + n ≤ length (flat st))%nat →
  ∃ vs, buffers_at p n st = (vs, n) ∧ mjoin (iov_bytes st <$> vs) = substr (flat st) p n ∧
    Forall (iov_inside (blocks st)) vs ∧ sum_list (iov_len <$> vs) = n.
Proof.
  intros Hp. destruct (nodeAt_found p st) as (node&offset&E&Hs&Hnone&Ho&Hf&Hsum); [lia|].
  unfold buffers_at. rewrite E. cbv zeta. set (start := default _ node) in *.
  assert (length (take start (blocks st)) = start) as El by (rewrite length_take; lia).
  destruct (collect_buffers_spec (take start (blocks st)) (drop start (blocks st)) offset n)
    as (vs&E1&E2&E3&E4); [done| |].
  - assert (length (flat st) = length (mjoin (take start (blocks st))) +
      length (mjoin (drop start (blocks st))))%nat by (rewrite Hf, length_app; done). lia.
  - rewrite El in E1. rewrite take_drop in E2, E3. rewrite E1.
    exists vs. rewrite Nat.sub_0_r. split_and!; try done.
    change (iov_bytes st) with (iov_in (blocks st)). rewrite E2.
    rewrite Hf. unfold substr. rewrite <- Hsum, drop_app_add. done.
Qed.

(** ** Files *)

Lemma write_buffer_all {F} (append : str → F → F) fuel : ∀ data f,
  (∀ s t f, append (s ++ t) f = append t (append s f)) → (∀ f, append [] f = f) →
  (length data ≤ fuel)%nat →
  write_buffer (λ s f, (true, append s f)) fuel data f = (true, append data f).
Proof.
  induction fuel as [|fuel IH]; intros data f Happ Hnil Hf.
  - destruct data; [|cbn in Hf; lia]. cbn. by rewrite Hnil.
  - destruct data as [|b data]; [cbn; by rewrite Hnil|]. cbn [write_buffer].
    set (count := Z.to_nat _). set (d := b :: data) in *.
    assert (1 ≤ count)%nat as Hc by (unfold count, size, d, streamsize_max; cbn [length]; lia).
    rewrite IH, <- Happ, take_drop; [done..|]. rewrite length_drop. lia.
Qed.

(** A stream that takes everything gets all that can be read. *)
Lemma writeToFile_written out st :
  (position st ≤ size_ st ≤ length (flat st))%nat →
  writeToFile (λ s f, (true, f ++ s)) (Some out) st =
    (true, Some (out ++ substr (flat st) (position st) (getReadSize st))).
Proof.
  intros Hs. assert (∀ bs out, write_buffers (λ s f, (true, f ++ s)) bs out = (true, out ++ mjoin bs)) as Hall.
  { induction bs as [|b bs IH]; intros o; cbn [write_buffers]; [by rewrite app_nil_r|].
    rewrite (write_buffer_all (λ s f, f ++ s)); [|by intros; rewrite app_assoc|by intros; rewrite app_nil_r|done].
    by rewrite IH, mjoin_cons, app_assoc. }
  unfold writeToFile. rewrite Hall. unfold getReadBuffers, getReadSize.
  rewrite Nat.min_r by lia. destruct (Nat.eqb_spec (size_ st - position st) 0) as [->|Hne].
  - cbn. unfold substr. by rewrite take_0.
  - destruct (buffers_at_spec (position st) (size_ st - position st) st) as (vs&->&E&_); [lia|].
    cbn [fst]. by rewrite E.
Qed.

(** A stream that refuses the first write makes the call return false. *)
Lemma writeToFile_refused {F} (output_write : str → F → bool * F) out st :
  (∀ s f, (output_write s f).1 = false) →
  (position st < size_ st ≤ length (flat st))%nat →
  (writeToFile output_write (Some out) st).1 = false.
Proof.
  intros Hw Hs. unfold writeToFile, getReadBuffers, getReadSize. rewrite Nat.min_r by lia.
  rewrite (proj2 (Nat.eqb_neq _ _)) by lia.
  destruct (buffers_at_spec (position st) (size_ st - position st) st) as (vs&->&E&_); [lia|]. cbn [fst].
  assert (mjoin (iov_bytes st <$> vs) ≠ []) as Hne.
  { rewrite E. intros E0. apply (f_equal length) in E0. unfold substr in E0.
    rewrite length_take, length_drop in E0. cbn in E0. lia. }
  clear E. revert out. induction vs as [|v vs IH]; intros out; [done|].
  rewrite fmap_cons, mjoin_cons in Hne. cbn [fmap list_fmap write_buffers].
  destruct (iov_bytes st v) as [|b data]; [by apply IH|]. cbn [length write_buffer].
  pose proof (Hw (take (Z.to_nat (Z.min (size (b :: data)) streamsize_max)) (b :: data)) out) as H.
  destruct (output_write _ out) as [r o]. cbn in H. by subst r.
Qed.

Lemma node_at_inside bs index p k :
  (node_at bs index p).1 = Some k → (index ≤ k < index + length bs)%nat.
Proof.
  revert index p. induction bs as [|b bs IH]; intros index p; simpl; [done|].
  destruct (length b <=? p)%nat; simpl; [|intros [=]; lia].
  intros E. apply IH in E. lia.
Qed.

Lemma nodeAt_inside p st k : (nodeAt p st).1 = Some k → (k < length (blocks st))%nat.
Proof. intros E. apply node_at_inside in E. lia. Qed.

(** ** Growth *)

Section memory.
Context (uninit : nat → nat → byte).

Lemma new_block_length k base : length (new_block uninit k base) = base.
Proof. unfold new_block. by rewrite length_fmap, length_seq. Qed.

(** Growing keeps the bytes, the cursor and the size. *)
Record grown (st st' : ByteArray) : Prop := {
  grown_base : base_size st' = base_size st;
  grown_position : position st' = position st;
  grown_size : size_ st' = size_ st;
  grown_endian : little_endian st' = little_endian st;
  grown_flat : ∃ extra, flat st' = flat st ++ extra;
  grown_current : current st' = current st;
  grown_blocks : (length (blocks st) ≤ length (blocks st'))%nat;
}.

Lemma grown_refl st : grown st st.
Proof. split; try done. exists []. by rewrite app_nil_r. Qed.

Lemma append_block_ok st :
  Forall (λ b, length b = base_size st) (blocks st) → blocks st ≠ [] →
  capacity st = length (flat st) →
  let st' := append_block uninit st in
  Forall (λ b, length b = base_size st') (blocks st') ∧ blocks st' ≠ [] ∧
  capacity st' = length (flat st') ∧ capacity st' = (capacity st + base_size st)%nat ∧
  grown st st'.
Proof.
  intros Hb Hne Hc st'. assert (flat st' = flat st ++ new_block uninit (allocations st)
    (base_size st)) as Hf by (unfold flat, st'; simpl; rewrite mjoin_app; simpl; by rewrite app_nil_r).
  split_and!.
  - apply Forall_app. split; [done|]. constructor; [|constructor]. apply new_block_length.
  - unfold st'. simpl. by destruct (blocks st).
  - rewrite Hf, length_app, new_block_length. simpl. lia.
  - done.
  - split; try done; [by eexists|]. simpl. rewrite length_app. lia.
Qed.

Lemma grown_trans st1 st2 st3 : grown st1 st2 → grown st2 st3 → grown st1 st3.
Proof.
  intros [E1 E2 E3 E4 [x E5] E6 E7] [F1 F2 F3 F4 [y F5] F6 F7].
  split; try congruence; [|lia]. exists (x ++ y). by rewrite F5, E5, app_assoc.
Qed.

Lemma append_blocks_ok n st :
  Forall (λ b, length b = base_size st) (blocks st) → blocks st ≠ [] →
  capacity st = length (flat st) →
  let st' := Nat.iter n (append_block uninit) st in
  Forall (λ b, length b = base_size st') (blocks st') ∧ blocks st' ≠ [] ∧
  capacity st' = length (flat st') ∧ capacity st' = (capacity st + n * base_size st)%nat ∧
  grown st st'.
Proof.
  intros Hb Hne Hc. induction n as [|n IH].
  - simpl. split_and!; (done || lia || apply grown_refl).
  - destruct IH as (I1&I2&I3&I4&I5).
    destruct (append_block_ok _ I1 I2 I3) as (J1&J2&J3&J4&J5).
    change (Nat.iter (S n) (append_block uninit) st)
      with (append_block uninit (Nat.iter n (append_block uninit) st)).
    split_and!; [done|done|done| |by eapply grown_trans].
    rewrite J4, I4, (grown_base _ _ I5). lia.
Qed.

(** Room for [n] more bytes can be allocated. *)
Definition fits (n : nat) (st : ByteArray) : Prop :=
  Z.of_nat (position st + n + base_size st) <= size_max.

(** Growing succeeds with room for [n] bytes, or there is no room for a block
    more and nothing changes. *)
Lemma addCapacity_cases n st :
  inv st →
  (∃ st', addCapacity uninit n st = (inr tt, st') ∧
    Forall (λ b, length b = base_size st') (blocks st') ∧ blocks st' ≠ [] ∧
    capacity st' = length (flat st') ∧ (position st + n ≤ capacity st')%nat ∧
    Z.of_nat (capacity st') <= size_max ∧ grown st st' ∧ (capacity st ≤ capacity st')%nat) ∨
  (addCapacity uninit n st = (inl (LengthError $"ByteArray capacity overflow"), st) ∧
   ¬ fits n st).
Proof.
  intros H. pose proof (inv_base st H) as H0. pose proof (inv_order st H) as Ho.
  pose proof (inv_max st H) as Hm. unfold fits, addCapacity, getCapacity in *.
  destruct (Nat.leb_spec n (capacity st - position st)) as [Hle|Hlt].
  - left. exists st. split; [done|]. split_and!; try apply H; try lia. apply grown_refl.
  - cbv zeta. set (missing := (n - (capacity st - position st))%nat).
    set (count := (missing / base_size st +
      (if Nat.eqb (missing mod base_size st) 0 then 0 else 1))%nat).
    assert (missing ≤ count * base_size st < missing + base_size st)%nat as [Hc1 Hc2].
    { pose proof (Nat.div_mod missing (base_size st) ltac:(lia)) as Hd.
      pose proof (Nat.mod_upper_bound missing (base_size st) ltac:(lia)).
      subst count. destruct (Nat.eqb_spec (missing mod base_size st) 0); nia. }
    set (quot := (size_max - Z.of_nat (capacity st)) / Z.of_nat (base_size st)).
    destruct (Z.ltb_spec quot (Z.of_nat count)) as [Hq|Hq].
    + right. split; [done|]. intros Hf.
      enough (Z.of_nat count <= quot) by lia.
      apply Z.div_le_lower_bound; [lia|]. lia.
    + left. destruct (append_blocks_ok count st) as (I1&I2&I3&I4&I5); try apply H.
      assert (Z.of_nat count * Z.of_nat (base_size st) <= size_max - Z.of_nat (capacity st)).
      { pose proof (Z.mul_div_le (size_max - Z.of_nat (capacity st))
          (Z.of_nat (base_size st)) ltac:(lia)). fold quot in H1. nia. }
      eexists. split; [done|]. split_and!; try done; rewrite ?I4; lia.
Qed.
End memory.

(** ** Reading and writing *)

Lemma take_splice f n p s :
  (p ≤ n ≤ length f)%nat → (p + length s ≤ length f)%nat →
  take (Nat.max n (p + length s)) (splice f p s) = splice (take n f) p s.
Proof.
  intros Hp Hs. unfold splice. rewrite take_take, Nat.min_l by lia.
  rewrite skipn_firstn_comm.
  rewrite take_app_ge by (rewrite length_take; lia).
  rewrite length_take, Nat.min_l by lia.
  rewrite take_app_ge by lia. do 3 f_equal. lia.
Qed.

Lemma length_contents st : inv st → length (contents st) = size_ st.
Proof.
  intros H. pose proof (inv_order st H). pose proof (inv_capacity st H).
  unfold contents. rewrite length_take. lia.
Qed.

(** The state after [s] was written at the cursor of [st]. *)
Record wrote (st : ByteArray) (s : str) (st' : ByteArray) : Prop := {
  wrote_inv : inv st';
  wrote_position : position st' = (position st + length s)%nat;
  wrote_contents : contents st' = splice (contents st) (position st) s;
  wrote_size : size_ st' = Nat.max (size_ st) (position st + length s);
  wrote_endian : little_endian st' = little_endian st;
  wrote_base : base_size st' = base_size st;
}.

(** The state after the cursor of [st] moved forward by [n]. *)
Record moved (st : ByteArray) (n : nat) (st' : ByteArray) : Prop := {
  moved_inv : inv st';
  moved_position : position st' = (position st + n)%nat;
  moved_contents : contents st' = contents st;
  moved_size : size_ st' = size_ st;
  moved_endian : little_endian st' = little_endian st;
  moved_base : base_size st' = base_size st;
}.

Lemma moved_0 st : inv st → moved st 0 st.
Proof. intros. split; (done || lia). Qed.

Lemma moved_trans st1 n1 st2 n2 st3 :
  moved st1 n1 st2 → moved st2 n2 st3 → moved st1 (n1 + n2) st3.
Proof. intros [] []. split; (congruence || lia || done). Qed.

Section operations.
Context (uninit : nat → nat → byte).

(** A write writes, or there is no room and nothing changes. *)
Lemma write_cases s st :
  inv st →
  (∃ st', write_bytes uninit s st = (inr tt, st') ∧ wrote st s st') ∨
  (∃ m, write_bytes uninit s st = (inl (LengthError m), st) ∧ ¬ fits (length s) st).
Proof.
  intros H. pose proof (inv_order st H) as Ho. unfold write_bytes, write.
  destruct (Nat.eqb_spec (length s) 0) as [E|E].
  { left. destruct s; [|done]. exists st. split; [done|].
    split; simpl; try done; try lia. rewrite splice_nil; [done|].
    rewrite length_contents by done. lia. }
  destruct (Z_lt_le_dec (size_max - Z.of_nat (position st)) (Z.of_nat (length s))) as [Hp|Hp].
  { right. eexists. split; [|unfold fits; lia]. unfold bind at 1, gets at 1.
    by rewrite (proj2 (Z.ltb_lt _ _)). }
  destruct (addCapacity_cases uninit (length s) st H)
    as [(st1&E1&Hb&Hne&Hc&Hroom&Hmax&Hg&Hmono)|[E1 Hnf]].
  2:{ right. eexists. split; [|done]. unfold bind at 1, gets at 1.
      rewrite (proj2 (Z.ltb_ge _ _)) by lia. unfold bind at 1. by rewrite E1. }
  left. unfold bind at 1, gets at 1. rewrite (proj2 (Z.ltb_ge _ _)) by lia.
  unfold bind at 1. rewrite E1.
  pose proof (inv_capacity st H) as Hc0.
  destruct (nodeAt_found (position st) st1)
    as (node&offset&En&Hs&_&Hoff&Hflat&Hsum); [lia|].
  unfold bind at 1, gets at 1. rewrite En. unfold bind at 1, gets at 1. cbv zeta in *.
  set (start := default (length (blocks st1)) node) in *.
  rewrite take_ge by lia.
  destruct (write_nodes_spec (drop start (blocks st1)) offset s Hoff)
    as (written&Ew&Hw&Hlen).
  { assert (length (flat st1) = length (mjoin (take start (blocks st1))) +
      length (mjoin (drop start (blocks st1))))%nat by (rewrite Hflat, length_app; done). lia. }
  rewrite Ew. unfold bind. cbn [length Nat.eqb negb update_current].
  eexists. split; [done|]. destruct Hg as [G1 G2 G3 G4 [extra G5]].
  assert (mjoin (take start (blocks st1) ++ written) = splice (flat st1) (position st) s) as Hfl.
  { rewrite mjoin_app, Hw, Hflat, <- Hsum, splice_shift. done. }
  assert (length (splice (flat st1) (position st) s) = length (flat st1)) as Hsl
    by (apply splice_length; lia).
  rewrite Nat.sub_0_r. unfold update_current. cbn [snd].
  split; cbn; rewrite ?G1, ?G3; try done.
  - split; cbn; rewrite ?G3; try done.
    + rewrite G1. apply (inv_base st H).
    + apply Forall_app. split; [by apply Forall_take|].
      apply Forall_forall. intros b Hbin.
      apply list_elem_of_lookup in Hbin as [k Hk].
      destruct (Forall2_lookup_r _ _ _ _ _ Hlen Hk) as (b0&Hk0&El).
      rewrite <- El. rewrite Forall_forall in Hb. apply Hb.
      apply list_elem_of_lookup_2 in Hk0.
      rewrite <- (take_drop start (blocks st1)). set_solver.
    + intros Hnil. assert (mjoin (take start (blocks st1) ++ written) = []) as Hn0
        by (by rewrite Hnil). rewrite Hfl in Hn0.
      rewrite Hn0 in Hsl. simpl in Hsl. lia.
    + unfold flat. cbn. rewrite Hfl. lia.
    + lia.
    + intros k Hk. apply node_at_inside in Hk. lia.
  - unfold contents, flat. cbn. rewrite Hfl, ?G3, G5.
    assert (length (flat st ++ extra) = capacity st1) as Hlx by (rewrite <- G5; lia).
    rewrite take_splice by lia. rewrite take_app_le by lia. done.
Qed.

Lemma write_ok s st :
  inv st → fits (length s) st →
  ∃ st', write_bytes uninit s st = (inr tt, st') ∧ wrote st s st'.
Proof. intros H Hf. by destruct (write_cases s st H) as [?|(m&_&?)]. Qed.

(** The error branches of [write]. *)
Lemma write_null n st :
  (0 < n)%nat →
  write uninit None n st =
  (inl (InvalidArgument $"ByteArray::write received a null buffer"), st).
Proof. intros. unfold write. by rewrite (proj2 (Nat.eqb_neq _ _)) by lia. Qed.

Lemma read_ok n st :
  inv st → (position st + n ≤ size_ st)%nat →
  ∃ st', read n st = (inr (substr (contents st) (position st) n), st') ∧ moved st n st'.
Proof.
  intros H Hn. pose proof (inv_order st H) as Ho. pose proof (inv_capacity st H) as Hc.
  unfold read. destruct (Nat.eqb_spec n 0) as [->|E].
  { exists st. split; [done|by apply moved_0]. }
  unfold bind at 1, gets at 1, getReadSize. rewrite (proj2 (Nat.ltb_ge _ _)) by lia.
  unfold bind at 1, gets at 1. unfold bind at 1, gets at 1.
  rewrite copy_out_spec by lia.
  assert (substr (flat st) (position st) n = substr (contents st) (position st) n) as Es.
  { unfold contents, substr. rewrite skipn_firstn_comm, take_take. f_equal. lia. }
  assert (length (substr (contents st) (position st) n) = n) as El.
  { unfold substr. rewrite length_take, length_drop, length_contents by done. lia. }
  rewrite Es, El. unfold bind. cbn beta iota. rewrite Nat.eqb_refl. cbn [negb].
  unfold update_current, ret. eexists. split; [done|].
  split; cbn; try done.
  split; cbn; try apply H; [lia|]. intros k Hk. apply node_at_inside in Hk. lia.
Qed.

Lemma read_short n st :
  (getReadSize st < n)%nat →
  read n st = (inl (OutOfRange $"ByteArray does not contain enough readable bytes"), st).
Proof.
  intros H. unfold read. rewrite (proj2 (Nat.eqb_neq _ _)) by lia.
  unfold bind at 1, gets at 1. by rewrite (proj2 (Nat.ltb_lt _ _)).
Qed.

Lemma read_at_ok n p st :
  inv st → (p + n ≤ size_ st)%nat →
  read_at n p st = (inr (substr (contents st) p n), st).
Proof.
  intros H Hn. pose proof (inv_order st H) as Ho. pose proof (inv_capacity st H) as Hc.
  unfold read_at. destruct (Nat.eqb_spec n 0) as [->|E]; [done|].
  unfold bind at 1, gets at 1. rewrite (proj2 (Nat.ltb_ge _ _)) by lia.
  rewrite (proj2 (Nat.ltb_ge _ _)) by lia. cbn [orb].
  unfold bind, gets. rewrite copy_out_spec by lia.
  assert (substr (flat st) p n = substr (contents st) p n) as Es.
  { unfold contents, substr. rewrite skipn_firstn_comm, take_take. f_equal. lia. }
  assert (length (substr (contents st) p n) = n) as El.
  { unfold substr. rewrite length_take, length_drop, length_contents by done. lia. }
  by rewrite Es, El, Nat.eqb_refl.
Qed.

(** Moving the cursor inside the contents. *)
Lemma setPosition_ok p st :
  inv st → (p ≤ size_ st)%nat →
  ∃ st', setPosition p st = (inr tt, st') ∧ inv st' ∧ position st' = p ∧
    contents st' = contents st ∧ size_ st' = size_ st ∧
    little_endian st' = little_endian st ∧ base_size st' = base_size st.
Proof.
  intros H Hp. pose proof (inv_order st H) as Ho. unfold setPosition, bind, gets.
  rewrite (proj2 (Nat.ltb_ge _ _)) by lia. unfold update_current. cbn.
  eexists. split; [done|]. rewrite Nat.max_l by lia.
  split_and!; try done. split; cbn; try apply H; [lia|].
  intros k Hk. apply node_at_inside in Hk. lia.
Qed.

Lemma setPosition_outside p st :
  (capacity st < p)%nat →
  setPosition p st = (inl (OutOfRange $"ByteArray position exceeds capacity"), st).
Proof. intros H. unfold setPosition, bind, gets. by rewrite (proj2 (Nat.ltb_lt _ _)). Qed.

Lemma make_ok base :
  (0 < base)%nat → Z.of_nat base <= size_max →
  ∃ st, make uninit base = inr st ∧ inv st ∧ contents st = [] ∧ position st = 0%nat ∧
    base_size st = base ∧ little_endian st = false.
Proof.
  intros Hb Hm. unfold make. rewrite (proj2 (Nat.eqb_neq _ _)) by lia.
  eexists. split; [done|]. pose proof (new_block_length uninit 0 base) as Hl.
  split_and!; try done. split; simpl; try done; try lia.
  - constructor; [done|constructor].
  - unfold flat. simpl. by rewrite app_nil_r, Hl.
  - intros k [= <-]. lia.
Qed.

Lemma clear_ok st :
  inv st → ∃ st', clear st = (inr tt, st') ∧ inv st' ∧ contents st' = [] ∧
    position st' = 0%nat ∧ base_size st' = base_size st ∧ little_endian st' = little_endian st.
Proof.
  intros H. eexists. split; [done|]. cbn. pose proof (inv_base st H) as Hb.
  pose proof (inv_blocks st H) as Hbs. pose proof (inv_nonempty st H) as Hne.
  pose proof (inv_capacity st H) as Hc. pose proof (inv_max st H) as Hm.
  unfold flat in Hc. destruct (blocks st) as [|b bs]; [done|].
  apply Forall_cons in Hbs as [Hbl _]. rewrite mjoin_cons, length_app in Hc.
  split_and!; try done. split; cbn; try done; try lia.
  - constructor; [done|constructor].
  - unfold flat. simpl. by rewrite app_nil_r.
  - intros k [= <-]. lia.
Qed.
End operations.

End ByteArrayProofs.
