(* ===== verification/ByteArrayRefinement.v ===== *)
(** The contract of [ByteArray] and the proof that the block chain keeps it:
    every operation acts on one flat sequence of bytes with a cursor, whatever
    the size of the blocks. *)

From S2P Require Import Prelude ByteArray ByteArrayProofs.
Import ByteArray ByteArrayProofs.

Module ByteArrayRefinement.

(** ** The contract *)

(** What a client sees: the bytes written so far and the cursor. *)
Record buffer := mkBuffer { bytes : str; cursor : nat }.

Inductive op :=
  | Write (s : str)
  | Read (n : nat)
  | ReadAt (n p : nat)
  | Seek (p : nat)
  | Clear
  | SetLittleEndian (v : bool)
  | ToString
  | ReadViews (n p : nat)
  | WriteViews (n : nat).

Inductive reply :=
  | Done
  | Bytes (s : str)
  | Covered (s : str) (n : nat)
  | Room (n : nat)
  | Error (e : exn).

(** The replies the contract allows and what they leave.  A request for space
    may be refused only when the total would come within a block of the limit
    of [size_t]; a cursor moved behind the last byte is refused or pads the
    contents. *)
Inductive allowed (base : nat) (b : buffer) : op → reply → buffer → Prop :=
  | allow_write s :
      allowed base b (Write s) Done
        (mkBuffer (splice (bytes b) (cursor b) s) (cursor b + length s))
  | refuse_write s what :
      size_max < Z.of_nat (cursor b + length s + base) →
      allowed base b (Write s) (Error (LengthError what)) b
  | allow_read n :
      (cursor b + n ≤ length (bytes b))%nat →
      allowed base b (Read n) (Bytes (substr (bytes b) (cursor b) n))
        (mkBuffer (bytes b) (cursor b + n))
  | refuse_read n what :
      (length (bytes b) < cursor b + n)%nat →
      allowed base b (Read n) (Error (OutOfRange what)) b
  | allow_read_at n p :
      (n = 0 ∨ p + n ≤ length (bytes b))%nat →
      allowed base b (ReadAt n p) (Bytes (substr (bytes b) p n)) b
  | refuse_read_at n p what :
      (0 < n ∧ length (bytes b) < p + n)%nat →
      allowed base b (ReadAt n p) (Error (OutOfRange what)) b
  | allow_seek p :
      (p ≤ length (bytes b))%nat →
      allowed base b (Seek p) Done (mkBuffer (bytes b) p)
  | pad_seek p padding :
      length (bytes b ++ padding) = p →
      allowed base b (Seek p) Done (mkBuffer (bytes b ++ padding) p)
  | refuse_seek p what :
      (length (bytes b) < p)%nat →
      allowed base b (Seek p) (Error (OutOfRange what)) b
  | allow_clear : allowed base b Clear Done (mkBuffer [] 0)
  | allow_endian v : allowed base b (SetLittleEndian v) Done b
  | allow_to_string : allowed base b ToString (Bytes (drop (cursor b) (bytes b))) b
  | allow_views n p :
      let s := substr (bytes b) p n in
      allowed base b (ReadViews n p) (Covered s (length s)) b
  | allow_room n : allowed base b (WriteViews n) (Room n) b
  | refuse_room n what :
      size_max < Z.of_nat (cursor b + n + base) →
      allowed base b (WriteViews n) (Error (LengthError what)) b.

Inductive allowed_all (base : nat) : buffer → list op → list reply → buffer → Prop :=
  | allowed_nil b : allowed_all base b [] [] b
  | allowed_cons b o r b' os rs b'' :
      allowed base b o r b' → allowed_all base b' os rs b'' →
      allowed_all base b (o :: os) (r :: rs) b''.

(** ** The implementation *)

Section implementation.
Context (uninit : nat → nat → byte).

Definition reply_of {A} (f : A → reply) (m : M A) (st : ByteArray) : reply * ByteArray :=
  match m st with
  | (inl e, st') => (Error e, st')
  | (inr x, st') => (f x, st')
  end.

Definition execute (o : op) (st : ByteArray) : reply * ByteArray :=
  match o with
  | Write s => reply_of (λ _, Done) (write_bytes uninit s) st
  | Read n => reply_of Bytes (read n) st
  | ReadAt n p => reply_of Bytes (read_at n p) st
  | Seek p => reply_of (λ _, Done) (setPosition p) st
  | Clear => reply_of (λ _, Done) clear st
  | SetLittleEndian v => (Done, setIsLittleEndian v st)
  | ToString => reply_of Bytes toString st
  | ReadViews n p =>
      let '(views, total) := getReadBuffers_at n p st in
      (Covered (mjoin (iov_bytes st <$> views)) total, st)
  | WriteViews n => reply_of (λ views, Room views.2) (getWriteBuffers uninit n) st
  end.

Fixpoint execute_all (os : list op) (st : ByteArray) : list reply * ByteArray :=
  match os with
  | [] => ([], st)
  | o :: os' =>
      let '(r, st') := execute o st in
      let '(rs, st'') := execute_all os' st' in (r :: rs, st'')
  end.

(** ** The refinement *)

Definition view (st : ByteArray) : buffer := mkBuffer (contents st) (position st).

Definition refines (st : ByteArray) (o : op) : Prop :=
  let '(r, st') := execute o st in
  allowed (base_size st) (view st) o r (view st') ∧ inv st' ∧ base_size st' = base_size st.

Lemma view_eq st b p : contents st = b → position st = p → view st = mkBuffer b p.
Proof. by intros <- <-. Qed.

Lemma refines_write s st : inv st → refines st (Write s).
Proof.
  intros H. unfold refines, execute, reply_of.
  destruct (write_cases uninit s st H) as [(st'&->&W)|(m&->&Hn)].
  - rewrite (view_eq st' _ _ (wrote_contents _ _ _ W) (wrote_position _ _ _ W)).
    split; [constructor|]. split; apply W.
  - split; [|done]. constructor. unfold fits in Hn. simpl. lia.
Qed.

Lemma refines_read n st : inv st → refines st (Read n).
Proof.
  intros H. pose proof (length_contents st H). pose proof (inv_order st H).
  unfold refines, execute, reply_of.
  destruct (decide (position st + n ≤ size_ st)%nat) as [Hn|Hn].
  - destruct (read_ok n st H Hn) as (st'&->&Mv).
    rewrite (view_eq st' _ _ (moved_contents _ _ _ Mv) (moved_position _ _ _ Mv)).
    split; [constructor; simpl; lia|]. split; apply Mv.
  - rewrite read_short by (unfold getReadSize; lia). split; [|done].
    constructor. simpl. lia.
Qed.

Lemma read_at_cases n p st :
  inv st →
  (n = 0 ∨ p + n ≤ size_ st)%nat ∧ read_at n p st = (inr (substr (contents st) p n), st) ∨
  (0 < n ∧ size_ st < p + n)%nat ∧ ∃ what, read_at n p st = (inl (OutOfRange what), st).
Proof.
  intros H. destruct (decide (p + n ≤ size_ st)%nat).
  - left. split; [lia|]. by apply read_at_ok.
  - unfold read_at. destruct (Nat.eqb_spec n 0) as [->|E].
    + left. split; [by left|]. done.
    + right. split; [lia|]. eexists. unfold bind, gets, throw.
      destruct (Nat.ltb_spec (size_ st) p); [done|].
      by rewrite (proj2 (Nat.ltb_lt _ _)) by lia.
Qed.

Lemma refines_read_at n p st : inv st → refines st (ReadAt n p).
Proof.
  intros H. pose proof (length_contents st H). unfold refines, execute, reply_of.
  destruct (read_at_cases n p st H) as [[Hn ->]|[Hn [what ->]]];
    (split; [constructor; simpl; lia|done]).
Qed.

Lemma refines_to_string st : inv st → refines st ToString.
Proof.
  intros H. pose proof (length_contents st H) as Hl. pose proof (inv_order st H).
  unfold refines, execute, reply_of, toString, bind, gets, getReadSize.
  destruct (Nat.eqb_spec (size_ st - position st) 0) as [E|E].
  - split; [|done].
    replace (@nil byte) with (drop (cursor (view st)) (bytes (view st)));
      [constructor|]. simpl. apply drop_ge. lia.
  - rewrite read_at_ok by (done || lia). split; [|done].
    unfold substr. rewrite take_ge by (rewrite length_drop; lia). constructor.
Qed.

Lemma refines_seek p st : inv st → refines st (Seek p).
Proof.
  intros H. pose proof (length_contents st H) as Hl. pose proof (inv_order st H).
  unfold refines, execute, reply_of.
  destruct (decide (p ≤ size_ st)%nat) as [Hp|Hp].
  { destruct (setPosition_ok p st H Hp) as (st'&->&Hi&Ep&Ec&_&_&Eb).
    rewrite (view_eq st' _ _ Ec Ep). split; [constructor; simpl; lia|done]. }
  destruct (decide (p ≤ capacity st)%nat) as [Hc|Hc].
  - unfold setPosition, bind, gets. rewrite (proj2 (Nat.ltb_ge _ _)) by lia.
    unfold update_current. cbv beta iota.
    match goal with |- allowed _ _ _ _ (view ?x) ∧ _ => set (st' := x) end.
    assert (size_ st' = p) as Es by (cbn; lia).
    assert (contents st' = contents st ++ substr (flat st) (size_ st) (p - size_ st)) as Ec.
    { unfold contents, substr. rewrite take_take_drop, Es.
      change (flat st') with (flat st). f_equal. lia. }
    rewrite (view_eq st' _ p Ec eq_refl). split.
    + apply (pad_seek _ (view st)). cbn [view bytes]. rewrite <- Ec. unfold contents.
      change (flat st') with (flat st). rewrite length_take, Es.
      pose proof (inv_capacity st H). lia.
    + split; [|done]. split; rewrite ?Es; try apply H.
      { change (capacity st') with (capacity st). simpl. lia. }
      intros k Hk. by apply nodeAt_inside in Hk.
  - rewrite setPosition_outside by lia. split; [|done].
    constructor. simpl. lia.
Qed.

Lemma refines_views n p st : inv st → refines st (ReadViews n p).
Proof.
  intros H. pose proof (length_contents st H) as Hl. pose proof (inv_order st H).
  pose proof (inv_capacity st H).
  unfold refines, execute, getReadBuffers_at.
  assert (∀ m, m = Nat.min n (size_ st - p) →
    length (substr (contents st) p n) = m) as Hm.
  { intros m ->. unfold substr. rewrite length_take, length_drop. lia. }
  assert (∀ t m, t = substr (contents st) p n → m = length t →
    allowed (base_size st) (view st) (ReadViews n p) (Covered t m) (view st)) as Hallow.
  { intros t m -> ->. apply (allow_views _ (view st)). }
  destruct (Nat.ltb_spec (size_ st) p) as [Hp|Hp].
  { split; [|done]. apply Hallow; [|done]. symmetry.
    apply length_zero_iff_nil, (Hm 0%nat). lia. }
  destruct (Nat.eqb_spec (Nat.min n (size_ st - p)) 0) as [E|E].
  { split; [|done]. apply Hallow; [|done]. symmetry.
    apply length_zero_iff_nil, (Hm 0%nat). lia. }
  destruct (buffers_at_spec p (Nat.min n (size_ st - p)) st) as (vs&->&Eb&_&_); [lia|].
  assert (substr (flat st) p (Nat.min n (size_ st - p)) = substr (contents st) p n) as Es.
  { unfold contents, substr. rewrite skipn_firstn_comm, take_take. by f_equal. }
  split; [|done]. rewrite Eb, Es. apply Hallow; [done|]. by rewrite (Hm _ eq_refl).
Qed.

Lemma getWriteBuffers_cases n st :
  inv st →
  (∃ st' vs, getWriteBuffers uninit n st = (inr (vs, n), st') ∧ inv st' ∧ grown st st' ∧
    contents st' = contents st ∧ Forall (iov_inside (blocks st')) vs ∧
    sum_list (iov_len <$> vs) = n) ∨
  (∃ what, getWriteBuffers uninit n st = (inl (LengthError what), st) ∧ ¬ fits n st).
Proof.
  intros H. pose proof (inv_order st H). pose proof (inv_capacity st H).
  unfold getWriteBuffers. destruct (Nat.eqb_spec n 0) as [->|E].
  { left. exists st, []. split_and!; try done. apply grown_refl. }
  unfold bind, gets, CheckedSize. destruct (Z.ltb_spec size_max (Z.of_nat n)).
  { right. eexists. split; [done|]. unfold fits. lia. }
  unfold ret. rewrite Nat2Z.id.
  destruct (addCapacity_cases uninit n st H)
    as [(st1&E1&Hb&Hne&Hc&Hroom&Hmax&Hg&Hmono)|[E1 Hnf]]; rewrite E1.
  - left.
    pose proof (grown_position _ _ Hg) as G2. pose proof (grown_size _ _ Hg) as G3.
    destruct (grown_flat _ _ Hg) as [extra G5].
    destruct (buffers_at_spec (position st1) n st1) as (vs&->&_&Hin&Hsum); [lia|].
    exists st1, vs. split_and!; try done.
    + split; try done; [by rewrite (grown_base _ _ Hg); apply H|lia|].
      intros k Hk. rewrite (grown_current _ _ Hg) in Hk. apply (inv_current st H) in Hk.
      pose proof (grown_blocks _ _ Hg). lia.
    + unfold contents. rewrite G3, G5. by rewrite take_app_le by lia.
  - right. eexists. split; [reflexivity|done].
Qed.

Lemma refines_room n st : inv st → refines st (WriteViews n).
Proof.
  intros H. unfold refines, execute, reply_of.
  destruct (getWriteBuffers_cases n st H) as [(st'&vs&->&Hi&Hg&Hc&_)|(what&->&Hn)].
  - rewrite (view_eq st' _ _ Hc (grown_position _ _ Hg)). split; [constructor|].
    split; [done|]. apply (grown_base _ _ Hg).
  - split; [|done]. constructor. unfold fits in Hn. simpl. lia.
Qed.

Lemma refines_clear st : inv st → refines st Clear.
Proof.
  intros H. unfold refines, execute, reply_of.
  destruct (clear_ok st H) as (st'&->&Hi&Hc&Hp&Hb&_).
  rewrite (view_eq st' _ _ Hc Hp). split; [constructor|done].
Qed.

Lemma refines_endian v st : inv st → refines st (SetLittleEndian v).
Proof.
  intros H. split; [constructor|]. split; [|done]. split; apply H.
Qed.

Lemma refines_op st o : inv st → refines st o.
Proof.
  intros H. destruct o.
  - by apply refines_write.
  - by apply refines_read.
  - by apply refines_read_at.
  - by apply refines_seek.
  - by apply refines_clear.
  - by apply refines_endian.
  - by apply refines_to_string.
  - by apply refines_views.
  - by apply refines_room.
Qed.

Lemma execute_all_refines os : ∀ st,
  inv st →
  let '(rs, st') := execute_all os st in
  allowed_all (base_size st) (view st) os rs (view st') ∧ inv st'.
Proof.
  induction os as [|o os IH]; intros st H; [split; [constructor|done]|].
  simpl. pose proof (refines_op st o H) as Ho. unfold refines in Ho.
  destruct (execute o st) as [r st1]. destruct Ho as (Ha&Hi&Hb).
  specialize (IH st1 Hi). destruct (execute_all os st1) as [rs st2].
  rewrite Hb in IH. destruct IH as [Hs Hi2]. split; [by econstructor|done].
Qed.
End implementation.

(** ** Main theorems *)

(** C36: a byte array is a flat buffer with a cursor.  From a new array, any
    sequence of writes, reads, positional reads, cursor moves, [clear], views
    for scatter/gather and requests for room gets the replies the contract
    allows, error replies included, and keeps the structure of the chain: all
    blocks of the base size, the capacity their total, the cursor and the size
    within it.  In particular no sequence of calls reaches one of the
    [std::logic_error] branches or reads a byte the client did not write or
    skip over. *)
Theorem ByteArray_refines_buffer uninit base os :
  (0 < base)%nat → Z.of_nat base <= size_max →
  ∃ st, make uninit base = inr st ∧
    let '(replies, st') := execute_all uninit os st in
    allowed_all base (mkBuffer [] 0) os replies (view st') ∧ inv st'.
Proof.
  intros Hb Hm. destruct (make_ok uninit base Hb Hm) as (st&E&Hi&Hc&Hp&Hbase&_).
  exists st. split; [done|]. pose proof (execute_all_refines uninit os st Hi) as Hr.
  rewrite (view_eq st _ _ Hc Hp), Hbase in Hr. exact Hr.
Qed.

Lemma ByteArray_refines_buffer_witness :
  let os := [Write $"hello world"; Seek 3; Read 4; ReadViews 100 2; Read 9; WriteViews 6] in
  ∃ st, make (λ _ _, chr 0) 4 = inr st ∧
    (execute_all (λ _ _, chr 0) os st).1 =
      [Done; Done; Bytes $"lo w"; Covered $"llo world" 9;
       Error (OutOfRange $"ByteArray does not contain enough readable bytes"); Room 6] ∧
    inv (execute_all (λ _ _, chr 0) os st).2.
Proof.
  intros os.
  destruct (ByteArray_refines_buffer (λ _ _, chr 0) 4 os) as (st&E&Hr);
    [lia|vm_compute; discriminate|].
  exists st. split; [done|]. split.
  - injection E as <-. vm_compute. reflexivity.
  - destruct (execute_all (λ _ _, chr 0) os st). apply Hr.
Defined.

(** The buffers handed out for writing cover exactly the bytes asked for,
    each inside one block, and getting them moves neither the cursor nor the
    contents; when there is no room the request fails and changes nothing. *)
Theorem getWriteBuffers_cover uninit n st :
  inv st → Z.of_nat (position st + n + base_size st) <= size_max →
  ∃ views st', getWriteBuffers uninit n st = (inr (views, n), st') ∧
    Forall (iov_inside (blocks st')) views ∧ sum_list (iov_len <$> views) = n ∧
    contents st' = contents st ∧ position st' = position st ∧ inv st'.
Proof.
  intros H Hn. destruct (getWriteBuffers_cases uninit n st H)
    as [(st'&vs&E&Hi&Hg&Hc&Hin&Hs)|(what&_&Hf)].
  - exists vs, st'. split_and!; try done. apply (grown_position _ _ Hg).
  - by destruct Hf.
Qed.

Lemma getWriteBuffers_cover_witness :
  ∃ views st', getWriteBuffers (λ _ _, chr 0) 6
      (mkByteArray 4 3 4 3 false [$"abcd"] (Some 0%nat) 1) = (inr (views, 6%nat), st') ∧
    views = [mkIovec 0 3 1; mkIovec 1 0 4; mkIovec 2 0 1].
Proof.
  destruct (getWriteBuffers_cover (λ _ _, chr 0) 6
    (mkByteArray 4 3 4 3 false [$"abcd"] (Some 0%nat) 1)) as (views&st'&E&_).
  - split; simpl; try done; try lia. by repeat constructor. intros k [= <-]. lia.
  - vm_compute. discriminate.
  - exists views, st'. split; [done|]. vm_compute in E. congruence.
Defined.

End ByteArrayRefinement.
