(* ===== verification/ByteArrayCodec.v ===== *)
(** The codecs of [ByteArray]: that every write of a value is undone by the
    matching read, for all widths, both byte orders, varints, zigzag and
    strings, through the block chain and for sequences of values. *)

From S2P Require Import Prelude ByteArray ByteArrayProofs.
Import ByteArray ByteArrayProofs.

Module ByteArrayCodec.

(** ** Bits *)

Lemma wrap_testbit w z k :
  0 <= w → 0 <= k → Z.testbit (wrap w z) k = (k <? w) && Z.testbit z k.
Proof.
  intros Hw Hk. unfold wrap. destruct (Z.ltb_spec k w).
  - by rewrite Z.mod_pow2_bits_low by lia.
  - by rewrite Z.mod_pow2_bits_high by lia.
Qed.

Lemma wrap_bounds w z : 0 <= w → 0 <= wrap w z < 2 ^ w.
Proof. intros. unfold wrap. apply Z.mod_pos_bound. lia. Qed.

Lemma high_bits w z k : 0 <= z < 2 ^ w → 0 <= w <= k → Z.testbit z k = false.
Proof.
  intros Hz Hk. rewrite <- (wrap_small w z Hz), wrap_testbit by lia.
  by rewrite (proj2 (Z.ltb_ge _ _)) by lia.
Qed.

Lemma lor_bounds w a b :
  0 <= w → 0 <= a < 2 ^ w → 0 <= b < 2 ^ w → 0 <= Z.lor a b < 2 ^ w.
Proof.
  intros Hw Ha Hb. assert (Z.lor a b = wrap w (Z.lor a b)) as ->; [|by apply wrap_bounds].
  apply Z.bits_inj'. intros k Hk. rewrite wrap_testbit, Z.lor_spec by lia.
  destruct (Z.ltb_spec k w); [done|]. by rewrite !(high_bits w) by lia.
Qed.

Lemma code_chr_wrap z : code (chr (wrap 8 z)) = wrap 8 z.
Proof. apply code_chr_small. pose proof (wrap_bounds 8 z). lia. Qed.

(** The bits gathered by the loop of [readFixed]. *)
Lemma gather_bits little n l acc k :
  0 <= k < Z.of_nat (8 * n) →
  Z.testbit (foldl (λ bits p,
    Z.lor bits (wrap (Z.of_nat (8 * n)) (Z.shiftl (code p.2) (byte_shift little n p.1))))
    acc l) k =
  Z.testbit acc k || existsb (λ p, Z.testbit (code p.2) (k - byte_shift little n p.1)) l.
Proof.
  intros Hk. revert acc. induction l as [|p l IH]; intros acc; cbn [foldl existsb].
  - by rewrite orb_false_r.
  - rewrite IH, Z.lor_spec, wrap_testbit by lia.
    rewrite (proj2 (Z.ltb_lt _ _)) by lia. cbn [andb].
    rewrite Z.shiftl_spec by lia. by rewrite orb_assoc.
Qed.

Lemma byte_shift_range little n i :
  (i < n)%nat → 0 <= byte_shift little n i.
Proof. intros. unfold byte_shift. destruct little; lia. Qed.

Lemma zip_fmap_r {A B} (f : A → B) (l : list A) : zip l (f <$> l) = (λ x, (x, f x)) <$> l.
Proof. induction l as [|x l IH]; simpl; [done|]. f_equal. apply IH. Qed.

Lemma decode_encode_fixed little n v :
  decode_fixed little n (encode_fixed little n v) = wrap (Z.of_nat (8 * n)) v.
Proof.
  unfold decode_fixed, encode_fixed. cbv zeta. set (bits := wrap (Z.of_nat (8 * n)) v).
  rewrite zip_fmap_r. apply Z.bits_inj'. intros k Hk.
  destruct (Z.ltb_spec k (Z.of_nat (8 * n))) as [Hlt|Hge].
  - rewrite gather_bits by lia. rewrite Z.bits_0. cbn [orb].
    apply eq_true_iff_eq. rewrite existsb_exists. split.
    + intros (p&Hin&Hbit). apply list_elem_of_In, list_elem_of_fmap in Hin as (i&->&Hi).
      apply elem_of_seq in Hi. cbn [fst snd] in Hbit. rewrite code_chr_wrap in Hbit.
      pose proof (byte_shift_range little n i ltac:(lia)).
      destruct (Z.ltb_spec (k - byte_shift little n i) 0).
      { by rewrite Z.testbit_neg_r in Hbit by lia. }
      rewrite wrap_testbit in Hbit by lia. apply andb_true_iff in Hbit as [_ Hbit].
      rewrite Z.shiftr_spec in Hbit by lia.
      by replace (k - byte_shift little n i + byte_shift little n i) with k in Hbit by lia.
    + intros Hbit.
      assert (∃ i, (i < n)%nat ∧ byte_shift little n i = 8 * (k / 8)) as (i&Hi&Es).
      { pose proof (Z.div_mod k 8 ltac:(lia)). pose proof (Z.mod_pos_bound k 8 ltac:(lia)).
        unfold byte_shift. destruct little.
        - exists (Z.to_nat (k / 8)). lia.
        - exists (n - 1 - Z.to_nat (k / 8))%nat. lia. }
      exists (i, chr (wrap 8 (Z.shiftr bits (byte_shift little n i)))). split.
      * apply list_elem_of_In, list_elem_of_fmap. exists i. split; [done|].
        apply elem_of_seq. lia.
      * cbn [fst snd]. rewrite code_chr_wrap, Es.
        pose proof (Z.div_mod k 8 ltac:(lia)). pose proof (Z.mod_pos_bound k 8 ltac:(lia)).
        rewrite wrap_testbit by lia. rewrite (proj2 (Z.ltb_lt _ _)) by lia. cbn [andb].
        rewrite Z.shiftr_spec by lia.
        by replace (k - 8 * (k / 8) + 8 * (k / 8)) with k by lia.
  - assert (∀ l acc, 0 <= acc < 2 ^ Z.of_nat (8 * n) →
      0 <= foldl (λ bits (p : nat * byte),
        Z.lor bits (wrap (Z.of_nat (8 * n)) (Z.shiftl (code p.2) (byte_shift little n p.1))))
        acc l < 2 ^ Z.of_nat (8 * n)) as Hr.
    { induction l as [|p l IH]; intros acc Ha; [done|]. cbn [foldl]. apply IH.
      apply lor_bounds; [lia|done|]. apply wrap_bounds. lia. }
    rewrite <- (wrap_small (Z.of_nat (8 * n)) (foldl _ _ _)) by (apply Hr; lia).
    subst bits. rewrite !wrap_testbit by lia. by rewrite (proj2 (Z.ltb_ge _ _)).
Qed.

Lemma to_signed_wrap w z :
  0 < w → - 2 ^ (w - 1) <= z < 2 ^ (w - 1) → to_signed w (wrap w z) = z.
Proof.
  intros Hw Hz. assert (2 ^ w = 2 * 2 ^ (w - 1)) as E
    by (rewrite <- Z.pow_succ_r by lia; f_equal; lia).
  unfold to_signed, wrap. destruct (Z.ltb_spec z 0).
  - assert (z mod 2 ^ w = z + 2 ^ w) as ->.
    { symmetry. apply (Z.mod_unique _ _ (-1)); lia. }
    rewrite (proj2 (Z.ltb_ge _ _)) by lia. lia.
  - rewrite Z.mod_small by lia. by rewrite (proj2 (Z.ltb_lt _ _)) by lia.
Qed.

(** ** Zigzag *)

Lemma lxor_ones w x : 0 <= w → 0 <= x < 2 ^ w → Z.lxor x (2 ^ w - 1) = 2 ^ w - 1 - x.
Proof.
  intros Hw Hx.
  replace (2 ^ w - 1) with (Z.ones w) by (rewrite Z.ones_equiv; lia).
  rewrite Z.sub_nocarry_ldiff.
  - apply Z.bits_inj'. intros k Hk. rewrite Z.lxor_spec, Z.ldiff_spec.
    destruct (Z.ltb_spec k w).
    + rewrite Z.ones_spec_low by lia. by destruct (Z.testbit x k).
    + rewrite Z.ones_spec_high by lia.
      rewrite <- (wrap_small w x Hx), wrap_testbit by lia.
      by rewrite (proj2 (Z.ltb_ge _ _)) by lia.
  - apply Z.bits_inj'. intros k Hk. rewrite Z.ldiff_spec, Z.bits_0.
    destruct (Z.ltb_spec k w).
    + rewrite Z.ones_spec_low by lia. by rewrite andb_false_r.
    + rewrite <- (wrap_small w x Hx), wrap_testbit by lia.
      by rewrite (proj2 (Z.ltb_ge _ _)) by lia.
Qed.

(** The value zigzag assigns: 0, -1, 1, -2, 2 become 0, 1, 2, 3, 4. *)
Lemma EncodeZigzag_value w v :
  0 < w → - 2 ^ (w - 1) <= v < 2 ^ (w - 1) →
  EncodeZigzag w v = if v <? 0 then - 2 * v - 1 else 2 * v.
Proof.
  intros Hw Hv. assert (2 ^ w = 2 * 2 ^ (w - 1)) as E
    by (rewrite <- Z.pow_succ_r by lia; f_equal; lia).
  unfold EncodeZigzag. rewrite Z.shiftl_mul_pow2 by lia. rewrite Z.pow_1_r.
  destruct (Z.ltb_spec v 0).
  - assert (wrap w v = v + 2 ^ w) as ->
      by (symmetry; apply (Z.mod_unique _ _ (-1)); lia).
    assert (wrap w ((v + 2 ^ w) * 2) = 2 * v + 2 ^ w) as ->
      by (symmetry; apply (Z.mod_unique _ _ 1); lia).
    assert (wrap w (- (1)) = 2 ^ w - 1) as ->
      by (symmetry; apply (Z.mod_unique _ _ (-1)); lia).
    rewrite lxor_ones by lia. lia.
  - rewrite (wrap_small w v) by lia. rewrite wrap_small by lia.
    rewrite (wrap_small w (- 0)) by lia. rewrite Z.lxor_0_r. lia.
Qed.

Lemma DecodeZigzag_value w u :
  0 < w → 0 <= u < 2 ^ w →
  DecodeZigzag w u = if Z.odd u then - (u / 2) - 1 else u / 2.
Proof.
  intros Hw Hu. assert (2 ^ w = 2 * 2 ^ (w - 1)) as E
    by (rewrite <- Z.pow_succ_r by lia; f_equal; lia).
  pose proof (Z.div_mod u 2 ltac:(lia)) as Hd. rewrite Zmod_odd in Hd.
  unfold DecodeZigzag. rewrite Z.shiftr_div_pow2 by lia. rewrite Z.pow_1_r.
  assert (Z.land u 1 = if Z.odd u then 1 else 0) as ->.
  { change 1 with (Z.ones 1) at 1. rewrite Z.land_ones by lia. rewrite Z.pow_1_r.
    apply Zmod_odd. }
  destruct (Z.odd u).
  - assert (wrap w (0 - 1) = 2 ^ w - 1) as ->
      by (symmetry; apply (Z.mod_unique _ _ (-1)); lia).
    rewrite lxor_ones by lia.
    rewrite <- (to_signed_wrap w (- (u / 2) - 1)) by lia. f_equal.
    apply (Z.mod_unique _ _ (-1)); lia.
  - rewrite (wrap_small w (0 - 0)) by lia. rewrite Z.lxor_0_r.
    unfold to_signed. by rewrite (proj2 (Z.ltb_lt _ _)) by lia.
Qed.

Lemma zigzag_decode_encode w v :
  0 < w → - 2 ^ (w - 1) <= v < 2 ^ (w - 1) →
  DecodeZigzag w (EncodeZigzag w v) = v ∧ 0 <= EncodeZigzag w v < 2 ^ w.
Proof.
  intros Hw Hv. assert (2 ^ w = 2 * 2 ^ (w - 1)) as E
    by (rewrite <- Z.pow_succ_r by lia; f_equal; lia).
  rewrite EncodeZigzag_value by lia. destruct (Z.ltb_spec v 0).
  - split; [|lia]. rewrite DecodeZigzag_value by lia.
    replace (-2 * v - 1) with (1 + 2 * (- v - 1)) by lia.
    rewrite Z.odd_add_mul_2. cbn [Z.odd]. rewrite Z.mul_comm, Z.div_add by lia.
    change (1 / 2) with 0. lia.
  - split; [|lia]. rewrite DecodeZigzag_value by lia.
    replace (2 * v) with (0 + 2 * v) by lia.
    rewrite Z.odd_add_mul_2. cbn [Z.odd]. rewrite Z.mul_comm, Z.div_add by lia.
    change (0 / 2) with 0. lia.
Qed.

Lemma zigzag_encode_decode w u :
  0 < w → 0 <= u < 2 ^ w →
  EncodeZigzag w (DecodeZigzag w u) = u ∧ - 2 ^ (w - 1) <= DecodeZigzag w u < 2 ^ (w - 1).
Proof.
  intros Hw Hu. assert (2 ^ w = 2 * 2 ^ (w - 1)) as E
    by (rewrite <- Z.pow_succ_r by lia; f_equal; lia).
  pose proof (Z.div_mod u 2 ltac:(lia)) as Hd. rewrite Zmod_odd in Hd.
  rewrite DecodeZigzag_value by lia. destruct (Z.odd u); (split; [|lia]);
    rewrite EncodeZigzag_value by lia.
  - rewrite (proj2 (Z.ltb_lt _ _)) by lia. lia.
  - rewrite (proj2 (Z.ltb_ge _ _)) by lia. lia.
Qed.

(** ** Operations as transformers of the contents *)

Section codecs.
Context (uninit : nat → nat → byte).

(** [m] writes exactly [s] at the cursor. *)
Definition writes (little : bool) (m : M unit) (s : str) : Prop :=
  ∀ st, inv st → little_endian st = little → fits (length s) st →
  ∃ st', m st = (inr tt, st') ∧ wrote st s st'.

(** [m] reads exactly [s], which stands at the cursor, and returns [v]. *)
Definition reads {A} (little : bool) (m : M A) (s : str) (v : A) : Prop :=
  ∀ st rest, inv st → little_endian st = little →
  drop (position st) (contents st) = s ++ rest →
  ∃ st', m st = (inr v, st') ∧ moved st (length s) st'.

Lemma writes_bytes little s : writes little (write_bytes uninit s) s.
Proof. intros st H _ Hf. by apply write_ok. Qed.

Lemma splice_seq l p s1 s2 :
  (p ≤ length l)%nat →
  splice (splice l p s1) (p + length s1) s2 = splice l p (s1 ++ s2).
Proof.
  intros Hp. unfold splice. rewrite length_app.
  rewrite take_app_ge by (rewrite length_take; lia).
  rewrite length_take, Nat.min_l by lia.
  replace (p + length s1 - p)%nat with (length s1) by lia. rewrite take_app_length.
  rewrite drop_app_ge by (rewrite length_take; lia).
  rewrite length_take, Nat.min_l by lia.
  rewrite drop_app_ge by lia. rewrite drop_drop, <- !app_assoc. do 4 f_equal. lia.
Qed.

Lemma wrote_trans st s1 st1 s2 st2 :
  inv st → wrote st s1 st1 → wrote st1 s2 st2 → wrote st (s1 ++ s2) st2.
Proof.
  intros H [] []. pose proof (inv_order st H).
  split; rewrite ?length_app; try congruence; try lia.
  - rewrite wrote_contents1, wrote_position0, wrote_contents0. apply splice_seq.
    rewrite length_contents by done. lia.
Qed.

Lemma writes_seq little m1 s1 m2 s2 :
  writes little m1 s1 → writes little m2 s2 → writes little (m1;;; m2) (s1 ++ s2).
Proof.
  intros H1 H2 st Hi Hl Hf. unfold fits in *. rewrite length_app in Hf.
  destruct (H1 st Hi Hl) as (st1&E1&W1); [unfold fits; lia|].
  destruct (H2 st1) as (st2&E2&W2); [apply W1|rewrite (wrote_endian _ _ _ W1); done| |].
  { unfold fits. rewrite (wrote_position _ _ _ W1), (wrote_base _ _ _ W1). lia. }
  exists st2. unfold bind. rewrite E1. split; [done|by eapply wrote_trans].
Qed.

Lemma reads_ret {A} little (v : A) : reads little (ret v) [] v.
Proof. intros st rest H _ _. exists st. split; [done|by apply moved_0]. Qed.

Lemma reads_bind {A B} little (m : M A) (k : A → M B) s1 s2 v w :
  reads little m s1 v → reads little (k v) s2 w → reads little (bind m k) (s1 ++ s2) w.
Proof.
  intros H1 H2 st rest Hi Hl Hd. rewrite <- app_assoc in Hd.
  destruct (H1 st (s2 ++ rest) Hi Hl Hd) as (st1&E1&M1).
  destruct (H2 st1 rest) as (st2&E2&M2); [apply M1|by rewrite (moved_endian _ _ _ M1)| |].
  { rewrite (moved_position _ _ _ M1), (moved_contents _ _ _ M1), <- drop_drop, Hd.
    apply drop_app_length. }
  exists st2. unfold bind. rewrite E1. split; [done|].
  rewrite length_app. by eapply moved_trans.
Qed.

Lemma reads_map {A B} little (m : M A) (f : A → B) s v :
  reads little m s v → reads little (do x <- m; ret (f x)) s (f v).
Proof.
  intros H. rewrite <- (app_nil_r s). eapply reads_bind; [done|]. apply reads_ret.
Qed.

(** At the cursor there are as many bytes as the text read. *)
Lemma cursor_room st s rest :
  inv st → drop (position st) (contents st) = s ++ rest →
  (position st + length s ≤ size_ st)%nat ∧
  substr (contents st) (position st) (length s) = s.
Proof.
  intros H Hd. pose proof (inv_order st H).
  assert (length (drop (position st) (contents st)) = length s + length rest)%nat as Hl
    by (rewrite Hd, length_app; done).
  rewrite length_drop, length_contents in Hl by done. split; [lia|].
  unfold substr. rewrite Hd. apply take_app_length.
Qed.

Lemma reads_raw little s : reads little (read (length s)) s s.
Proof.
  intros st rest H _ Hd. destruct (cursor_room _ _ _ H Hd) as [Hr Hs].
  destruct (read_ok (length s) st H Hr) as (st'&E&Hm).
  exists st'. rewrite Hs in E. done.
Qed.

(** ** Fixed-width integers *)

Lemma length_encode_fixed little n v : length (encode_fixed little n v) = n.
Proof. unfold encode_fixed. by rewrite length_fmap, length_seq. Qed.

Lemma writes_fixed little n v : writes little (writeFixed uninit n v) (encode_fixed little n v).
Proof.
  intros st H Hl Hf. unfold writeFixed, bind at 1, gets. rewrite Hl.
  by apply (writes_bytes little).
Qed.

Lemma reads_fixed little n v :
  reads little (readFixed n) (encode_fixed little n v) (wrap (Z.of_nat (8 * n)) v).
Proof.
  intros st rest H Hl Hd.
  destruct (reads_raw little (encode_fixed little n v) st rest H Hl Hd) as (st'&E&Hm).
  rewrite length_encode_fixed in E. exists st'. unfold readFixed, bind, gets, ret.
  rewrite E, (moved_endian _ _ _ Hm), Hl, decode_encode_fixed. done.
Qed.

Lemma reads_fixed_signed little n v :
  (0 < n)%nat → - 2 ^ (Z.of_nat (8 * n) - 1) <= v < 2 ^ (Z.of_nat (8 * n) - 1) →
  reads little (readFixedSigned n) (encode_fixed little n v) v.
Proof.
  intros Hn Hv. unfold readFixedSigned.
  rewrite <- (to_signed_wrap (Z.of_nat (8 * n)) v) at 2 by lia.
  apply reads_map, reads_fixed.
Qed.

Lemma reads_fixed_unsigned little n v :
  0 <= v < 2 ^ Z.of_nat (8 * n) →
  reads little (readFixed n) (encode_fixed little n v) v.
Proof. intros Hv. rewrite <- (wrap_small _ v Hv) at 2. apply reads_fixed. Qed.

(** ** Varints *)

Lemma byte_of_fixed little b : encode_fixed little 1 (code b) = [b].
Proof.
  unfold encode_fixed. cbn [seq fmap list_fmap Nat.mul Nat.add]. pose proof (code_range b).
  assert (byte_shift little 1 0 = 0) as -> by (by destruct little).
  change (Z.of_nat 8) with 8.
  rewrite Z.shiftr_0_r, (wrap_small 8 (code b)), wrap_small by lia. by rewrite chr_code.
Qed.

Lemma reads_byte little b : reads little readFuint8 [b] (code b).
Proof.
  rewrite <- (byte_of_fixed little b). apply reads_fixed_unsigned.
  pose proof (code_range b). simpl. lia.
Qed.

Lemma varint_group v : 0 <= v → Z.land (Z.lor (Z.land v 0x7F) 0x80) 0x7F = Z.land v 0x7F.
Proof.
  intros Hv. rewrite Z.land_lor_distr_l. change (Z.land 0x80 0x7F) with 0.
  rewrite Z.lor_0_r, <- Z.land_assoc. done.
Qed.

Lemma varint_flag v : Z.land (Z.lor (Z.land v 0x7F) 0x80) 0x80 = 0x80.
Proof.
  rewrite Z.land_lor_distr_l, <- Z.land_assoc. change (Z.land 0x7F 0x80) with 0.
  by rewrite Z.land_0_r.
Qed.

Lemma varint_byte v : 0 <= v → code (chr (Z.lor (Z.land v 0x7F) 0x80)) = Z.lor (Z.land v 0x7F) 0x80.
Proof.
  intros Hv. apply code_chr_small. apply (lor_bounds 8); [lia| |lia].
  change 0x7F with (Z.ones 7). rewrite Z.land_ones by lia.
  pose proof (Z.mod_pos_bound v (2 ^ 7) ltac:(lia)). lia.
Qed.

Lemma varint_step v i :
  0 <= v → 0 <= i →
  Z.lor (Z.shiftl (Z.land v 0x7F) i) (Z.shiftl (Z.shiftr v 7) (i + 7)) = Z.shiftl v i.
Proof.
  intros Hv Hi. apply Z.bits_inj'. intros k Hk.
  rewrite Z.lor_spec, !Z.shiftl_spec by lia.
  destruct (Z.ltb_spec k i).
  { rewrite !(Z.testbit_neg_r _ (k - i)), Z.testbit_neg_r by lia. done. }
  change 0x7F with (Z.ones 7). rewrite Z.land_spec.
  destruct (Z.ltb_spec (k - i) 7).
  - rewrite Z.ones_spec_low, andb_true_r by lia.
    rewrite (Z.testbit_neg_r _ (k - (i + 7))) by lia. by rewrite orb_false_r.
  - rewrite Z.ones_spec_high, andb_false_r, Z.shiftr_spec by lia. cbn [orb].
    f_equal. lia.
Qed.

(** Reading a varint from the [limit - rounds]-th byte on. *)
Lemma reads_varint little w limit last_max what rounds result v :
  0 < w → (0 < rounds ≤ limit)%nat →
  let i := 7 * Z.of_nat (limit - rounds) in
  i < w → last_max = 2 ^ (w - 7 * (Z.of_nat limit - 1)) - 1 → last_max < 0x80 →
  w <= 7 * Z.of_nat limit →
  0 <= v < 2 ^ (w - i) →
  reads little (read_varint w limit last_max what rounds result) (encode_varint rounds v)
    (Z.lor result (Z.shiftl v i)).
Proof.
  intros Hw. revert v result. induction rounds as [|rounds IH]; [lia|].
  intros v result Hr i Hi Hlast Hl7 Hlim Hv. cbn [encode_varint read_varint].
  replace (Z.of_nat (limit - S rounds) * 7) with i by (unfold i; lia).
  assert (0 <= i) as Hi0 by (unfold i; lia).
  assert (2 ^ w = 2 ^ (w - i) * 2 ^ i) as Ew by (rewrite <- Z.pow_add_r by lia; f_equal; lia).
  assert (0 < 2 ^ i) as Hpi by (apply Z.pow_pos_nonneg; lia).
  assert (∀ x, 0 <= x <= v → wrap w (Z.shiftl x i) = Z.shiftl x i) as Hwrap.
  { intros x Hx. apply wrap_small. rewrite Z.shiftl_mul_pow2 by lia. nia. }
  assert (Z.land v 0x7F = v mod 2 ^ 7) as Eland
    by (change 0x7F with (Z.ones 7); apply Z.land_ones; lia).
  assert (rounds = 0%nat → v <= last_max) as Hzero.
  { intros ->. replace (limit - 1)%nat with (limit - 1)%nat in Hv by lia.
    assert (w - i = w - 7 * (Z.of_nat limit - 1)) as Ei by (unfold i; lia).
    rewrite Hlast, <- Ei. lia. }
  destruct (Z.leb_spec 0x80 v) as [Hge|Hlt].
  - change (chr ?x :: ?l) with ([chr x] ++ l).
    eapply reads_bind; [apply reads_byte|]. cbv beta. rewrite varint_byte by lia.
    assert (rounds ≠ 0%nat) as Hr0 by (intros E; specialize (Hzero E); lia).
    rewrite (proj2 (Nat.eqb_neq _ _)) by done. cbn [andb].
    rewrite varint_flag, varint_group by lia. cbn [Z.eqb].
    rewrite Hwrap by (rewrite Eland; pose proof (Z.mod_pos_bound v (2 ^ 7) ltac:(lia));
      pose proof (Z.mod_le v (2 ^ 7) ltac:(lia) ltac:(lia)); lia).
    rewrite <- (varint_step v i) by lia. rewrite Z.lor_assoc.
    replace (i + 7) with (7 * Z.of_nat (limit - rounds)) by (unfold i; lia).
    assert (0 <= Z.shiftr v 7 < 2 ^ (w - 7 * Z.of_nat (limit - rounds))) as Hs.
    { rewrite Z.shiftr_div_pow2 by lia. split; [apply Z.div_pos; lia|].
      apply Z.div_lt_upper_bound; [lia|].
      rewrite <- Z.pow_add_r; [|lia|].
      - replace (7 + (w - 7 * Z.of_nat (limit - rounds))) with (w - i) by (unfold i; lia). lia.
      - destruct (Z.leb_spec 0 (w - 7 * Z.of_nat (limit - rounds))); [done|].
        assert (2 ^ (w - i) <= 2 ^ 7) by (apply Z.pow_le_mono_r; unfold i; lia). lia. }
    apply IH; try done; [lia|].
    destruct (Z.ltb_spec (7 * Z.of_nat (limit - rounds)) w); [done|].
    assert (2 ^ (w - 7 * Z.of_nat (limit - rounds)) <= 2 ^ 0) by (apply Z.pow_le_mono_r; lia).
    assert (0x80 / 2 ^ 7 <= v / 2 ^ 7) by (apply Z.div_le_mono; lia).
    rewrite Z.shiftr_div_pow2 in Hs by lia. change (0x80 / 2 ^ 7) with 1 in *.
    change (2 ^ 0) with 1 in *. lia.
  - rewrite <- (app_nil_r [chr v]). eapply reads_bind; [apply reads_byte|]. cbv beta.
    rewrite code_chr_small by lia.
    assert (Z.land v 0x7F = v) as -> by (rewrite Eland; apply Z.mod_small; lia).
    assert (Z.land v 0x80 = 0) as ->.
    { rewrite <- (Z.mod_small v (2 ^ 7)) by lia. rewrite <- Z.land_ones by lia.
      rewrite <- Z.land_assoc. change (Z.land (Z.ones 7) 0x80) with 0. apply Z.land_0_r. }
    destruct (Nat.eqb_spec rounds 0) as [->|]; cbn [andb].
    + rewrite (proj2 (Z.ltb_ge _ _)) by (by apply Hzero).
      cbn [Z.eqb]. rewrite Hwrap by lia. apply reads_ret.
    + cbn [Z.eqb]. rewrite Hwrap by lia. apply reads_ret.
Qed.

Lemma reads_uint32 little v :
  0 <= v < 2 ^ 32 → reads little readUint32 (encode_varint 5 v) v.
Proof.
  intros Hv. replace v with (Z.lor 0 (Z.shiftl v (7 * Z.of_nat (5 - 5)))) at 2
    by (change (7 * Z.of_nat (5 - 5)) with 0; by rewrite Z.shiftl_0_r).
  apply reads_varint; simpl; lia.
Qed.

Lemma reads_uint64 little v :
  0 <= v < 2 ^ 64 → reads little readUint64 (encode_varint 10 v) v.
Proof.
  intros Hv. replace v with (Z.lor 0 (Z.shiftl v (7 * Z.of_nat (10 - 10)))) at 2
    by (change (7 * Z.of_nat (10 - 10)) with 0; by rewrite Z.shiftl_0_r).
  apply reads_varint; simpl; lia.
Qed.

(** ** Strings *)

Lemma reads_string little what s : reads little (read_string what (length s)) s s.
Proof.
  intros st rest H Hl Hd. destruct (cursor_room _ _ _ H Hd) as [Hr _].
  unfold read_string, bind at 1, gets, getReadSize.
  rewrite (proj2 (Nat.ltb_ge _ _)) by lia. by eapply (reads_raw little).
Qed.

Lemma reads_sized little (m : M Z) (k : Z → M str) s text what :
  reads little m text (size s) → (∀ n, k n = read_string what (Z.to_nat n)) →
  reads little (bind m k) (text ++ s) s.
Proof.
  intros Hm Hk. eapply reads_bind; [done|]. rewrite Hk. unfold size.
  rewrite Nat2Z.id. apply reads_string.
Qed.

Lemma reads_sized_checked little (m : M Z) s text what :
  reads little m text (size s) → size s <= size_max →
  reads little (do v <- m; do n <- CheckedSize v; read_string what n) (text ++ s) s.
Proof.
  intros Hm Hs. eapply reads_bind; [done|]. intros st rest H Hl Hd.
  unfold bind, CheckedSize. rewrite (proj2 (Z.ltb_ge _ _)) by done.
  unfold ret, size. rewrite Nat2Z.id. by eapply (reads_string little).
Qed.

(** ** The interface of a codec *)

(** A pair of a write and a read for the values [valid] admits, with the bytes
    that stand for a value in either byte order. *)
Class Codec {A} (put : A → M unit) (get : M A) (valid : A → Prop)
    (encode : bool → A → str) : Prop := {
  codec_writes little v : valid v → writes little (put v) (encode little v);
  codec_reads little v : valid v → reads little get (encode little v) v;
}.

Definition unsigned (w v : Z) : Prop := 0 <= v < 2 ^ w.
Definition signed (w v : Z) : Prop := - 2 ^ (w - 1) <= v < 2 ^ (w - 1).

#[export] Instance fixed_unsigned_codec n :
  Codec (writeFixed uninit n) (readFixed n) (unsigned (Z.of_nat (8 * n)))
    (λ little, encode_fixed little n).
Proof.
  split; intros little v Hv; [apply writes_fixed|by apply reads_fixed_unsigned].
Qed.

#[export] Instance fixed_signed_codec n :
  Codec (writeFixed uninit (S n)) (readFixedSigned (S n)) (signed (Z.of_nat (8 * S n)))
    (λ little, encode_fixed little (S n)).
Proof.
  split; intros little v Hv; [apply writes_fixed|].
  apply reads_fixed_signed; [lia|done].
Qed.

#[export] Instance uint32_codec :
  Codec (writeUint32 uninit) readUint32 (unsigned 32) (λ _, encode_varint 5).
Proof. split; intros little v Hv; [apply writes_bytes|by apply reads_uint32]. Qed.

#[export] Instance uint64_codec :
  Codec (writeUint64 uninit) readUint64 (unsigned 64) (λ _, encode_varint 10).
Proof. split; intros little v Hv; [apply writes_bytes|by apply reads_uint64]. Qed.

#[export] Instance int32_codec :
  Codec (writeInt32 uninit) readInt32 (signed 32) (λ _ v, encode_varint 5 (EncodeZigzag32 v)).
Proof.
  split; intros little v Hv; [apply writes_bytes|].
  destruct (zigzag_decode_encode 32 v ltac:(lia) Hv) as [E ?].
  rewrite <- E at 2. apply reads_map, reads_uint32. done.
Qed.

#[export] Instance int64_codec :
  Codec (writeInt64 uninit) readInt64 (signed 64) (λ _ v, encode_varint 10 (EncodeZigzag64 v)).
Proof.
  split; intros little v Hv; [apply writes_bytes|].
  destruct (zigzag_decode_encode 64 v ltac:(lia) Hv) as [E ?].
  rewrite <- E at 2. apply reads_map, reads_uint64. done.
Qed.

#[export] Instance string16_codec :
  Codec (writeStringF16 uninit) readStringF16 (λ s, size s <= u16_max)
    (λ little s, encode_fixed little 2 (size s) ++ s).
Proof.
  split; intros little s Hs; unfold u16_max in Hs; pose proof (size_nonneg s).
  - unfold writeStringF16, u16_max. rewrite (proj2 (Z.ltb_ge _ _)) by done.
    apply writes_seq; [apply writes_fixed|apply writes_bytes].
  - eapply reads_sized; [apply reads_fixed_unsigned; simpl; lia|done].
Qed.

#[export] Instance string32_codec :
  Codec (writeStringF32 uninit) readStringF32 (λ s, size s <= u32_max)
    (λ little s, encode_fixed little 4 (size s) ++ s).
Proof.
  split; intros little s Hs; unfold u32_max in Hs; pose proof (size_nonneg s).
  - unfold writeStringF32, u32_max. rewrite (proj2 (Z.ltb_ge _ _)) by done.
    apply writes_seq; [apply writes_fixed|apply writes_bytes].
  - eapply reads_sized; [apply reads_fixed_unsigned; simpl; lia|done].
Qed.

#[export] Instance string64_codec :
  Codec (writeStringF64 uninit) readStringF64 (λ s, size s <= size_max)
    (λ little s, encode_fixed little 8 (size s) ++ s).
Proof.
  split; intros little s Hs; pose proof (size_nonneg s).
  - apply writes_seq; [apply writes_fixed|apply writes_bytes].
  - apply reads_sized_checked; [|done]. unfold size_max, u64_max in Hs.
    apply reads_fixed_unsigned. simpl. lia.
Qed.

#[export] Instance string_vint_codec :
  Codec (writeStringVint uninit) readStringVint (λ s, size s <= size_max)
    (λ _ s, encode_varint 10 (size s) ++ s).
Proof.
  split; intros little s Hs; pose proof (size_nonneg s).
  - apply writes_seq; apply writes_bytes.
  - apply reads_sized_checked; [|done]. unfold size_max, u64_max in Hs.
    apply reads_uint64. lia.
Qed.

(** ** Sequences of values *)

Inductive field :=
  | Fint8 (v : Z) | Fuint8 (v : Z) | Fint16 (v : Z) | Fuint16 (v : Z)
  | Fint32 (v : Z) | Fuint32 (v : Z) | Fint64 (v : Z) | Fuint64 (v : Z)
  | Float (v : Z) | Double (v : Z)
  | Int32 (v : Z) | Uint32 (v : Z) | Int64 (v : Z) | Uint64 (v : Z)
  | StringF16 (s : str) | StringF32 (s : str) | StringF64 (s : str) | StringVint (s : str).

Definition put_field (f : field) : M unit :=
  match f with
  | Fint8 v => writeFint8 uninit v | Fuint8 v => writeFuint8 uninit v
  | Fint16 v => writeFint16 uninit v | Fuint16 v => writeFuint16 uninit v
  | Fint32 v => writeFint32 uninit v | Fuint32 v => writeFuint32 uninit v
  | Fint64 v => writeFint64 uninit v | Fuint64 v => writeFuint64 uninit v
  | Float v => writeFloat uninit v | Double v => writeDouble uninit v
  | Int32 v => writeInt32 uninit v | Uint32 v => writeUint32 uninit v
  | Int64 v => writeInt64 uninit v | Uint64 v => writeUint64 uninit v
  | StringF16 s => writeStringF16 uninit s | StringF32 s => writeStringF32 uninit s
  | StringF64 s => writeStringF64 uninit s | StringVint s => writeStringVint uninit s
  end.

(** Reads a value of the kind of [f]. *)
Definition get_field (f : field) : M field :=
  match f with
  | Fint8 _ => do v <- readFint8; ret (Fint8 v)
  | Fuint8 _ => do v <- readFuint8; ret (Fuint8 v)
  | Fint16 _ => do v <- readFint16; ret (Fint16 v)
  | Fuint16 _ => do v <- readFuint16; ret (Fuint16 v)
  | Fint32 _ => do v <- readFint32; ret (Fint32 v)
  | Fuint32 _ => do v <- readFuint32; ret (Fuint32 v)
  | Fint64 _ => do v <- readFint64; ret (Fint64 v)
  | Fuint64 _ => do v <- readFuint64; ret (Fuint64 v)
  | Float _ => do v <- readFloat; ret (Float v)
  | Double _ => do v <- readDouble; ret (Double v)
  | Int32 _ => do v <- readInt32; ret (Int32 v)
  | Uint32 _ => do v <- readUint32; ret (Uint32 v)
  | Int64 _ => do v <- readInt64; ret (Int64 v)
  | Uint64 _ => do v <- readUint64; ret (Uint64 v)
  | StringF16 _ => do s <- readStringF16; ret (StringF16 s)
  | StringF32 _ => do s <- readStringF32; ret (StringF32 s)
  | StringF64 _ => do s <- readStringF64; ret (StringF64 s)
  | StringVint _ => do s <- readStringVint; ret (StringVint s)
  end.

(** The values of the C++ types. *)
Definition field_ok (f : field) : Prop :=
  match f with
  | Fint8 v => signed 8 v | Fuint8 v => unsigned 8 v
  | Fint16 v => signed 16 v | Fuint16 v => unsigned 16 v
  | Fint32 v | Int32 v => signed 32 v | Fuint32 v | Float v | Uint32 v => unsigned 32 v
  | Fint64 v | Int64 v => signed 64 v | Fuint64 v | Double v | Uint64 v => unsigned 64 v
  | StringF16 s => size s <= u16_max | StringF32 s => size s <= u32_max
  | StringF64 s | StringVint s => size s <= size_max
  end.

Definition encode_field (little : bool) (f : field) : str :=
  match f with
  | Fint8 v | Fuint8 v => encode_fixed little 1 v
  | Fint16 v | Fuint16 v => encode_fixed little 2 v
  | Fint32 v | Fuint32 v | Float v => encode_fixed little 4 v
  | Fint64 v | Fuint64 v | Double v => encode_fixed little 8 v
  | Int32 v => encode_varint 5 (EncodeZigzag32 v) | Uint32 v => encode_varint 5 v
  | Int64 v => encode_varint 10 (EncodeZigzag64 v) | Uint64 v => encode_varint 10 v
  | StringF16 s => encode_fixed little 2 (size s) ++ s
  | StringF32 s => encode_fixed little 4 (size s) ++ s
  | StringF64 s => encode_fixed little 8 (size s) ++ s
  | StringVint s => encode_varint 10 (size s) ++ s
  end.

Lemma writes_field little f : field_ok f → writes little (put_field f) (encode_field little f).
Proof.
  destruct f; intros H;
    first [exact (writes_fixed little _ v)
          |exact (writes_bytes little _)
          |exact (codec_writes (Codec := string16_codec) little _ H)
          |exact (codec_writes (Codec := string32_codec) little _ H)
          |exact (codec_writes (Codec := string64_codec) little _ H)
          |exact (codec_writes (Codec := string_vint_codec) little _ H)].
Qed.

Lemma reads_field little f : field_ok f → reads little (get_field f) (encode_field little f) f.
Proof.
  destruct f; intros H;
    match goal with |- reads _ (get_field (?c _)) _ _ => apply (reads_map little _ c) end;
    first [exact (codec_reads (Codec := fixed_signed_codec 0) little _ H)
          |exact (codec_reads (Codec := fixed_signed_codec 1) little _ H)
          |exact (codec_reads (Codec := fixed_signed_codec 3) little _ H)
          |exact (codec_reads (Codec := fixed_signed_codec 7) little _ H)
          |exact (codec_reads (Codec := fixed_unsigned_codec 1) little _ H)
          |exact (codec_reads (Codec := fixed_unsigned_codec 2) little _ H)
          |exact (codec_reads (Codec := fixed_unsigned_codec 4) little _ H)
          |exact (codec_reads (Codec := fixed_unsigned_codec 8) little _ H)
          |exact (codec_reads (Codec := uint32_codec) little _ H)
          |exact (codec_reads (Codec := uint64_codec) little _ H)
          |exact (codec_reads (Codec := int32_codec) little _ H)
          |exact (codec_reads (Codec := int64_codec) little _ H)
          |exact (codec_reads (Codec := string16_codec) little _ H)
          |exact (codec_reads (Codec := string32_codec) little _ H)
          |exact (codec_reads (Codec := string64_codec) little _ H)
          |exact (codec_reads (Codec := string_vint_codec) little _ H)].
Qed.

Fixpoint put_all (fs : list field) : M unit :=
  match fs with
  | [] => ret tt
  | f :: fs' => put_field f;;; put_all fs'
  end.

Fixpoint get_all (fs : list field) : M (list field) :=
  match fs with
  | [] => ret []
  | f :: fs' => do v <- get_field f; do vs <- get_all fs'; ret (v :: vs)
  end.

Definition encode_all (little : bool) (fs : list field) : str :=
  mjoin (encode_field little <$> fs).

Lemma writes_all little fs :
  Forall field_ok fs → writes little (put_all fs) (encode_all little fs).
Proof.
  induction 1 as [|f fs Hf _ IH].
  - intros st H _ _. exists st. split; [done|]. split; simpl; try done; try lia.
    + rewrite splice_nil; [done|]. rewrite length_contents by done.
      pose proof (inv_order st H). lia.
    + pose proof (inv_order st H). lia.
  - by apply (writes_seq little); [apply writes_field|].
Qed.

Lemma reads_all little fs :
  Forall field_ok fs → reads little (get_all fs) (encode_all little fs) fs.
Proof.
  induction 1 as [|f fs Hf _ IH]; [apply reads_ret|].
  eapply (reads_bind little); [by apply reads_field|]. by apply reads_map.
Qed.
End codecs.

(** ** Main theorems *)

(** C35: whatever sequence of typed values is written - fixed-width integers of
    all sizes, floating-point bit patterns, varints, zigzag integers, strings
    with any length prefix, in either byte order and across any number of
    blocks - moving the cursor back to the start and reading values of the same
    types returns the same sequence, consumes exactly what was written and
    leaves the contents alone. *)
Theorem fields_round_trip uninit fs st :
  inv st → Forall field_ok fs → fits (length (encode_all (little_endian st) fs)) st →
  ∃ st1 st2 st3,
    put_all uninit fs st = (inr tt, st1) ∧
    setPosition (position st) st1 = (inr tt, st2) ∧
    get_all fs st2 = (inr fs, st3) ∧
    position st3 = position st1 ∧ contents st3 = contents st1 ∧ inv st3.
Proof.
  intros H Hok Hf.
  destruct (writes_all uninit _ fs Hok st H eq_refl Hf) as (st1&E1&W).
  destruct (setPosition_ok (position st) st1) as (st2&E2&Hi2&Hp2&Hc2&Hs2&Hl2&Hb2).
  { apply W. }
  { rewrite (wrote_size _ _ _ W). lia. }
  pose proof (inv_order st H) as Ho.
  assert (drop (position st2) (contents st2) =
    encode_all (little_endian st) fs ++
    drop (position st + length (encode_all (little_endian st) fs)) (contents st)) as Hd.
  { rewrite Hp2, Hc2, (wrote_contents _ _ _ W). unfold splice.
    assert (length (take (position st) (contents st)) = position st) as Ht
      by (rewrite length_take, length_contents by done; lia).
    rewrite <- Ht at 1. apply drop_app_length. }
  assert (little_endian st2 = little_endian st) as Hl
    by (rewrite Hl2; apply (wrote_endian _ _ _ W)).
  destruct (reads_all uninit _ fs Hok st2 _ Hi2 Hl Hd) as (st3&E3&Mv).
  exists st1, st2, st3. split_and!; try done.
  - rewrite (moved_position _ _ _ Mv), Hp2, (wrote_position _ _ _ W). done.
  - by rewrite (moved_contents _ _ _ Mv), Hc2.
  - apply Mv.
Qed.

Lemma fields_round_trip_witness :
  let st := mkByteArray 4 0 4 0 false [new_block (λ _ _, chr 0) 0 4] (Some 0%nat) 1 in
  let fs := [Fint16 (-2); Uint32 300; StringVint $"abcdef"; Int64 (-5); Double 7] in
  ∃ st1 st2 st3,
    put_all (λ _ _, chr 0) fs st = (inr tt, st1) ∧
    setPosition (position st) st1 = (inr tt, st2) ∧
    get_all fs st2 = (inr fs, st3) ∧
    position st3 = position st1 ∧ contents st3 = contents st1 ∧ inv st3.
Proof.
  intros st fs. apply (fields_round_trip (λ _ _, chr 0) fs st).
  - destruct (make_ok (λ _ _, chr 0) 4) as (st0&E&Hi&_); [lia|vm_compute; discriminate|].
    change (make (λ _ _, chr 0) 4) with (inr st : exn + ByteArray) in E.
    injection E as <-. exact Hi.
  - repeat constructor; unfold signed, unsigned; vm_compute; try discriminate; reflexivity.
  - unfold fits. vm_compute. discriminate.
Defined.

(** Zigzag is a bijection between the signed and the unsigned integers of
    a width, and keeps small magnitudes small. *)
Theorem zigzag_bijection w v u :
  0 < w → signed w v → unsigned w u →
  (DecodeZigzag w (EncodeZigzag w v) = v ∧ unsigned w (EncodeZigzag w v)) ∧
  (EncodeZigzag w (DecodeZigzag w u) = u ∧ signed w (DecodeZigzag w u)) ∧
  EncodeZigzag w v <= 2 * Z.abs v.
Proof.
  intros Hw Hv Hu. split_and!.
  - by apply zigzag_decode_encode.
  - by apply zigzag_decode_encode.
  - by apply zigzag_encode_decode.
  - by apply zigzag_encode_decode.
  - rewrite EncodeZigzag_value by done. destruct (Z.ltb_spec v 0); lia.
Qed.

Lemma zigzag_bijection_witness :
  signed 32 (-3) ∧ unsigned 32 5 ∧ EncodeZigzag32 (-3) = 5 ∧
  (DecodeZigzag 32 (EncodeZigzag 32 (-3)) = -3).
Proof.
  split; [split; [discriminate|reflexivity]|].
  split; [split; [discriminate|reflexivity]|]. split; [vm_compute; reflexivity|].
  refine (proj1 (proj1 (zigzag_bijection 32 (-3) 5 _ _ _))); [reflexivity| |];
    (split; [discriminate|reflexivity]).
Defined.

End ByteArrayCodec.
