(* ===== verification/Timer.v ===== *)
(** [TimerManager] and [Timer] ([droplet/src/scheduler/timer.cc],
    [droplet/include/droplet/scheduler/timer.h]): timer objects in a store,
    the ordered set of the timers that are due, and the operations, each the
    body of one critical section of [timer_mutex_].  The reading of the steady
    clock is an argument.  Times are 64-bit and wrap around. *)

From S2P Require Import Prelude.

Module Timer.
Section timers.
(** The callbacks, and the conditions of [addConditionTimer]. *)
Context {callback condition : Type}.

(** What [cb_] holds: the callback itself or the closure
    [addConditionTimer] builds around it. *)
Inductive function :=
  | Call (cb : callback)
  | Guarded (c : condition) (cb : callback).

(** [manager_] is whether the pointer is set; [cb_] is [None] once it has been
    moved out or reset. *)
Record Timer := mkTimer {
  manager_ : bool;
  ms_ : Z;
  next_ : Z;
  sequence_ : Z;
  recurring_ : bool;
  canceled_ : bool;
  cb_ : option function;
}.

(** [heap] is the store of the timer objects ever made, by the number that
    names them; [timers_] is the [std::set], its elements in order. *)
Record TimerManager := mkTimerManager {
  heap : gmap nat Timer;
  timers_ : list nat;
  next_sequence_ : Z;
}.

Definition make : TimerManager := mkTimerManager ∅ [] 0.

(** ** The ordered set *)

Definition TimerComparator (lhs rhs : Timer) : bool :=
  if negb (next_ lhs =? next_ rhs) then next_ lhs <? next_ rhs
  else sequence_ lhs <? sequence_ rhs.

(** The comparison of two pointers of the set. *)
Definition less (h : gmap nat Timer) (a b : nat) : bool :=
  match h !! a, h !! b with
  | Some x, Some y => TimerComparator x y
  | _, _ => false
  end.

(** [timers_.insert(t)]: an equivalent element keeps its place. *)
Fixpoint set_insert (h : gmap nat Timer) (t : nat) (l : list nat) : list nat :=
  match l with
  | [] => [t]
  | x :: l' =>
      if less h t x then t :: l
      else if less h x t then x :: set_insert h t l'
      else l
  end.

(** [timers_.find(t)]: the element equivalent to [t]. *)
Definition set_find (h : gmap nat Timer) (t : nat) (l : list nat) : option nat :=
  snd <$> list_find (λ x, less h t x = false ∧ less h x t = false) l.

(** [timers_.erase(it)]. *)
Definition set_erase (x : nat) (l : list nat) : list nat := filter (λ y, y ≠ x) l.

(** [timers_.empty() || TimerComparator{}(timer, *timers_.begin())]. *)
Definition goes_first (h : gmap nat Timer) (t : nat) (l : list nat) : bool :=
  match l with [] => true | x :: _ => less h t x end.

(** ** Operations *)

(** [addTimer]: the timer, or the null pointer for an empty callback; whether
    [onTimerInsertedAtFront] is called; the new state. *)
Definition addTimer (now ms : Z) (cb : option function) (recurring : bool)
    (st : TimerManager) : option nat * bool * TimerManager :=
  match cb with
  | None => (None, false, st)
  | Some f =>
      let t := fresh (dom (heap st)) in
      let h := <[t := mkTimer true ms (wrap 64 (now + ms)) (next_sequence_ st)
                        recurring false (Some f)]> (heap st) in
      (Some t, goes_first h t (timers_ st),
       mkTimerManager h (set_insert h t (timers_ st)) (wrap 64 (next_sequence_ st + 1)))
  end.

Definition addConditionTimer (now ms : Z) (cb : option callback) (c : condition)
    (recurring : bool) (st : TimerManager) : option nat * bool * TimerManager :=
  match cb with
  | None => (None, false, st)
  | Some cb => addTimer now ms (Some (Guarded c cb)) recurring st
  end.

(** What running a callback calls, given the conditions still alive. *)
Definition invoke (lock : condition → bool) (f : function) : option callback :=
  match f with
  | Call cb => Some cb
  | Guarded c cb => if lock c then Some cb else None
  end.

Definition getNextTimer (now : Z) (st : TimerManager) : Z :=
  match timers_ st with
  | [] => u64_max
  | t :: _ =>
      match heap st !! t with
      | Some x => if next_ x <=? now then 0 else wrap 64 (next_ x - now)
      | None => u64_max
      end
  end.

Definition hasTimer (st : TimerManager) : bool :=
  match timers_ st with [] => false | _ => true end.

Definition set_timer (t : nat) (x : Timer) (st : TimerManager) : TimerManager :=
  mkTimerManager (<[t := x]> (heap st)) (timers_ st) (next_sequence_ st).

Definition detach (x : Timer) : Timer :=
  mkTimer false (ms_ x) (next_ x) (sequence_ x) (recurring_ x) true None.
Definition set_next (next : Z) (x : Timer) : Timer :=
  mkTimer (manager_ x) (ms_ x) next (sequence_ x) (recurring_ x) (canceled_ x) (cb_ x).
Definition set_ms (ms : Z) (x : Timer) : Timer :=
  mkTimer (manager_ x) ms (next_ x) (sequence_ x) (recurring_ x) (canceled_ x) (cb_ x).

(** Erases a timer from the set. *)
Definition erase (t : nat) (st : TimerManager) : TimerManager :=
  mkTimerManager (heap st) (set_erase t (timers_ st)) (next_sequence_ st).

(** Inserts a timer that is in the store. *)
Definition insert_timer (t : nat) (st : TimerManager) : TimerManager :=
  mkTimerManager (heap st) (set_insert (heap st) t (timers_ st)) (next_sequence_ st).

(** The loop of [listExpiredCallbacks] at the time [now]: the callbacks in the
    order they are appended, each with the timer it belongs to.  [None] when
    the fuel is used up. *)
Fixpoint list_expired (fuel : nat) (now : Z) (st : TimerManager)
    : option (list (nat * option function) * TimerManager) :=
  match fuel with
  | O => None
  | S fuel' =>
      match timers_ st with
      | [] => Some ([], st)
      | t :: _ =>
          match heap st !! t with
          | None => Some ([], st)
          | Some x =>
              if now <? next_ x then Some ([], st)
              else
                let st1 := erase t st in
                if canceled_ x then list_expired fuel' now st1
                else if recurring_ x then
                  let next := wrap 64 (now + Z.max (ms_ x) 1) in
                  let st2 := insert_timer t (set_timer t (set_next next x) st1) in
                  '(cbs, st3) ← list_expired fuel' now st2;
                  Some ((t, cb_ x) :: cbs, st3)
                else
                  '(cbs, st3) ← list_expired fuel' now (set_timer t (detach x) st1);
                  Some ((t, cb_ x) :: cbs, st3)
          end
      end
  end.

(** Each due timer takes one round, and the last round ends the loop. *)
Definition listExpiredCallbacks (now : Z) (st : TimerManager)
    : option (list (nat * option function) * TimerManager) :=
  list_expired (S (length (timers_ st))) now st.

Definition clearTimers (st : TimerManager) : TimerManager :=
  mkTimerManager (foldr (λ t h, alter detach t h) (heap st) (timers_ st)) []
    (next_sequence_ st).

(** The tests the three operations on a timer share: the timer is managed, not
    canceled and found in the set. *)
Definition managed (t : nat) (st : TimerManager) : option (Timer * nat) :=
  match heap st !! t with
  | None => None
  | Some x =>
      if negb (manager_ x) || canceled_ x then None
      else it ← set_find (heap st) t (timers_ st); Some (x, it)
  end.

Definition cancelTimer (t : nat) (st : TimerManager) : bool * TimerManager :=
  match managed t st with
  | None => (false, st)
  | Some (x, it) => (true, set_timer t (detach x) (erase it st))
  end.

(** The tail [refreshTimer] and [resetTimer] share: the erased timer goes back
    with its new data; the result and whether the event loop is notified. *)
Definition reinsert (t : nat) (x : Timer) (st : TimerManager) : bool * bool * TimerManager :=
  let st := set_timer t x st in
  (true, goes_first (heap st) t (timers_ st), insert_timer t st).

Definition refreshTimer (now : Z) (t : nat) (st : TimerManager) : bool * bool * TimerManager :=
  match managed t st with
  | None => (false, false, st)
  | Some (x, it) => reinsert t (set_next (wrap 64 (now + ms_ x)) x) (erase it st)
  end.

Definition resetTimer (now : Z) (t : nat) (ms : Z) (from_now : bool) (st : TimerManager)
    : bool * bool * TimerManager :=
  match managed t st with
  | None => (false, false, st)
  | Some (x, it) =>
      let start := if from_now then now else wrap 64 (next_ x - ms_ x) in
      reinsert t (set_next (wrap 64 (start + ms)) (set_ms ms x)) (erase it st)
  end.

(** The methods of [Timer], which load [manager_] before they take the lock. *)
Definition has_manager (t : nat) (st : TimerManager) : bool :=
  match heap st !! t with Some x => manager_ x | None => false end.

Definition cancel (t : nat) (st : TimerManager) : bool * TimerManager :=
  if has_manager t st then cancelTimer t st else (false, st).
Definition refresh (now : Z) (t : nat) (st : TimerManager) : bool * bool * TimerManager :=
  if has_manager t st then refreshTimer now t st else (false, false, st).
Definition reset (now : Z) (t : nat) (ms : Z) (from_now : bool) (st : TimerManager)
    : bool * bool * TimerManager :=
  if has_manager t st then resetTimer now t ms from_now st else (false, false, st).
End timers.

Arguments function : clear implicits.
Arguments Timer : clear implicits.
Arguments TimerManager : clear implicits.
End Timer.
