(* ===== verification/TimerProofs.v ===== *)
(** The correctness of [TimerManager]: the set of timers stays ordered and
    agrees with the state of the timer objects, an expiry scan takes exactly
    the due timers in order and ends, and a timer that is dead stays dead. *)

From Stdlib Require Import Sorting.Sorted.
From S2P Require Import Prelude Timer.
Import Timer.

Module TimerProofs.
Section timers.
Context {callback condition : Type}.
Implicit Types (x y : Timer callback condition) (st : TimerManager callback condition)
  (h : gmap nat (Timer callback condition)).

(** ** The order *)

Definition before (a b : Timer callback condition) : Prop :=
  next_ a < next_ b ∨ (next_ a = next_ b ∧ sequence_ a < sequence_ b).

Lemma TimerComparator_true x y : TimerComparator x y = true ↔ before x y.
Proof.
  unfold TimerComparator, before. destruct (Z.eqb_spec (next_ x) (next_ y)); simpl;
    rewrite Z.ltb_lt; lia.
Qed.

Definition lt_in h (a b : nat) : Prop :=
  ∃ x y, h !! a = Some x ∧ h !! b = Some y ∧ before x y.

Lemma less_true h a b : less h a b = true ↔ lt_in h a b.
Proof.
  unfold less, lt_in. split.
  - destruct (h !! a) as [x|], (h !! b) as [y|]; try done.
    rewrite TimerComparator_true. eauto.
  - intros (x&y&->&->&?). by apply TimerComparator_true.
Qed.

Lemma less_false h a b : less h a b = false ↔ ¬ lt_in h a b.
Proof. rewrite <- less_true. by destruct (less h a b). Qed.

Lemma lt_in_irrefl h a : ¬ lt_in h a a.
Proof. intros (x&y&?&?&Hb). simplify_eq. unfold before in Hb. lia. Qed.

Lemma lt_in_trans h a b c : lt_in h a b → lt_in h b c → lt_in h a c.
Proof.
  intros (x&y&?&?&H1) (y'&z&?&?&H2). simplify_eq. exists x, z. split_and!; try done.
  unfold before in *. lia.
Qed.

(** The timers of a store are told apart by their sequence numbers. *)
Definition distinct h : Prop :=
  ∀ a b x y, h !! a = Some x → h !! b = Some y → sequence_ x = sequence_ y → a = b.

Lemma lt_in_total h a b :
  distinct h → is_Some (h !! a) → is_Some (h !! b) → a ≠ b → lt_in h a b ∨ lt_in h b a.
Proof.
  intros Hd [x Hx] [y Hy] Hne.
  assert (sequence_ x ≠ sequence_ y) by (intros E; by apply Hne, (Hd _ _ x y)).
  unfold lt_in, before.
  destruct (Z.lt_trichotomy (next_ x) (next_ y)) as [?|[?|?]].
  - left. exists x, y. by auto.
  - destruct (Z.lt_trichotomy (sequence_ x) (sequence_ y)) as [?|[?|?]]; [| done |].
    + left. exists x, y. by auto.
    + right. exists y, x. by auto.
  - right. exists y, x. by auto.
Qed.

(** ** The ordered set *)

Definition ordered h (l : list nat) : Prop := StronglySorted (lt_in h) l.

Lemma ordered_NoDup h l : ordered h l → NoDup l.
Proof.
  induction 1 as [|a l _ IH Ha]; constructor; [|done].
  intros Hin. rewrite Forall_forall in Ha. by apply (lt_in_irrefl h a), Ha.
Qed.

(** The order depends only on the timers of the list. *)
Lemma ordered_ext h h' l :
  (∀ a, a ∈ l → h' !! a = h !! a) → ordered h l → ordered h' l.
Proof.
  intros He. induction 1 as [|a l _ IH Ha]; constructor.
  - apply IH. set_solver.
  - rewrite Forall_forall in *. intros b Hb. destruct (Ha b Hb) as (x&y&?&?&?).
    exists x, y. rewrite !He by set_solver. done.
Qed.

Lemma ordered_filter h l P `{∀ a, Decision (P a)} : ordered h l → ordered h (filter P l).
Proof.
  induction 1 as [|a l _ IH Ha]; [constructor|]. rewrite filter_cons.
  case_decide; [|done]. constructor; [done|]. rewrite Forall_forall in *.
  intros b [_ Hb]%list_elem_of_filter. auto.
Qed.

Lemma set_insert_elem h t l b :
  distinct h → is_Some (h !! t) → Forall (λ a, is_Some (h !! a)) l → t ∉ l →
  b ∈ set_insert h t l ↔ b = t ∨ b ∈ l.
Proof.
  intros Hd Ht. induction l as [|a l IH]; intros Hl Hnin; simpl; [set_solver|].
  apply Forall_cons in Hl as [Ha Hl].
  destruct (less h t a) eqn:E1; [set_solver|]. destruct (less h a t) eqn:E2; [set_solver|].
  apply less_false in E1, E2.
  by destruct (lt_in_total h t a Hd Ht Ha ltac:(set_solver)).
Qed.

Lemma set_insert_ordered h t l :
  distinct h → is_Some (h !! t) → Forall (λ a, is_Some (h !! a)) l → t ∉ l →
  ordered h l → ordered h (set_insert h t l).
Proof.
  intros Hd Ht Hl Hnin Ho. induction Ho as [|a l Ho IH Ha]; simpl.
  { constructor; constructor. }
  apply Forall_cons in Hl as [Hta Hl].
  destruct (less h t a) eqn:E1.
  - apply less_true in E1. constructor; [by constructor|].
    constructor; [done|]. eapply Forall_impl; [exact Ha|]. intros b Hb. by eapply lt_in_trans.
  - destruct (less h a t) eqn:E2.
    + apply less_true in E2. constructor; [apply IH; [done|set_solver]|].
      apply Forall_forall. intros b Hb.
      apply set_insert_elem in Hb as [->|Hb]; [done| |done..|set_solver].
      rewrite Forall_forall in Ha. by apply Ha.
    + apply less_false in E1, E2.
      by destruct (lt_in_total h t a Hd Ht Hta ltac:(set_solver)).
Qed.

Lemma set_find_elem h t l :
  distinct h → Forall (λ a, is_Some (h !! a)) l → is_Some (h !! t) →
  set_find h t l = if decide (t ∈ l) then Some t else None.
Proof.
  intros Hd Hl Ht. unfold set_find. induction l as [|a l IH]; [done|].
  apply Forall_cons in Hl as [Ha Hl]. simpl.
  destruct (decide (a = t)) as [->|Hne].
  - rewrite decide_True by (split; apply less_false, lt_in_irrefl).
    by rewrite decide_True by set_solver.
  - rewrite decide_False.
    + specialize (IH Hl). destruct (decide (t ∈ l)) as [Hin|Hin].
      * rewrite decide_True by set_solver. rewrite <- IH.
        destruct (list_find _ l) as [[]|]; done.
      * rewrite decide_False by set_solver. rewrite <- IH.
        destruct (list_find _ l) as [[]|]; done.
    + intros [E1%less_false E2%less_false].
      destruct (lt_in_total h t a Hd Ht Ha ltac:(done)); done.
Qed.

Lemma set_erase_elem t l b : b ∈ set_erase t l ↔ b ∈ l ∧ b ≠ t.
Proof. unfold set_erase. rewrite list_elem_of_filter. naive_solver. Qed.

(** ** The invariant *)

(** A timer is either managed, with its callback and not canceled, or dead. *)
Record timer_ok (bound : Z) x : Prop := {
  ok_canceled : canceled_ x = negb (manager_ x);
  ok_callback : is_Some (cb_ x) ↔ manager_ x = true;
  ok_sequence : 0 <= sequence_ x < bound;
  ok_next : 0 <= next_ x < 2 ^ 64;
  ok_ms : 0 <= ms_ x < 2 ^ 63;
}.

Record inv st : Prop := {
  inv_ordered : ordered (heap st) (timers_ st);
  inv_members t : t ∈ timers_ st ↔ ∃ x, heap st !! t = Some x ∧ manager_ x = true;
  inv_timers t x : heap st !! t = Some x → timer_ok (next_sequence_ st) x;
  inv_distinct : distinct (heap st);
  inv_sequence : 0 <= next_sequence_ st;
}.

Lemma make_inv : inv make.
Proof. split; simpl; try done. - constructor. - set_solver. Qed.

Lemma members_in_heap st : inv st → Forall (λ a, is_Some (heap st !! a)) (timers_ st).
Proof.
  intros H. apply Forall_forall. intros a Ha. apply (inv_members st H) in Ha as (x&->&_). done.
Qed.

(** The timer at the front is the earliest. *)
Lemma front_earliest st t l b y :
  inv st → timers_ st = t :: l → b ∈ timers_ st → heap st !! b = Some y →
  ∃ x, heap st !! t = Some x ∧ next_ x <= next_ y.
Proof.
  intros H E Hb Hy. pose proof (inv_ordered st H) as Ho. rewrite E in Ho, Hb.
  apply StronglySorted_inv in Ho as [_ Ha]. apply elem_of_cons in Hb as [->|Hb].
  - exists y. split; [done|lia].
  - rewrite Forall_forall in Ha. destruct (Ha b Hb) as (x&y'&Hx&Hy'&Hlt).
    exists x. split; [done|]. simplify_eq. unfold before in Hlt. lia.
Qed.

(** Data of a timer may change while it is outside the set. *)
Lemma set_timer_distinct h t x x' :
  distinct h → h !! t = Some x → sequence_ x' = sequence_ x → distinct (<[t := x']> h).
Proof.
  intros Hd Hx Hs a b y z Ha Hb E. apply lookup_insert_Some in Ha, Hb.
  destruct Ha as [[<- <-]|[? Ha]], Hb as [[<- <-]|[? Hb]]; try done.
  - apply (Hd t b x z Hx Hb). congruence.
  - symmetry. apply (Hd t a x y Hx Ha). congruence.
  - by apply (Hd a b y z).
Qed.

(** Killing a timer keeps the invariant. *)
Lemma detach_inv st t x :
  inv st → heap st !! t = Some x → inv (set_timer t (detach x) (erase t st)).
Proof.
  intros H Hx. split; simpl; [| | | |apply H].
  - eapply ordered_ext; [|apply ordered_filter, H]. intros a Ha.
    apply set_erase_elem in Ha as [_ ?]. by apply lookup_insert_ne.
  - intros a. rewrite set_erase_elem, (inv_members st H).
    destruct (decide (a = t)) as [->|].
    + rewrite lookup_insert_eq. split; [tauto|]. intros (y&[= <-]&?). done.
    + rewrite lookup_insert_ne by done. tauto.
  - intros a y Hy. apply lookup_insert_Some in Hy as [[<- <-]|[_ Hy]].
    + destruct (inv_timers st H t x Hx). split; simpl; try done.
    + by apply (inv_timers st H a).
  - eapply set_timer_distinct; [apply H|done|done].
Qed.

(** Taking a timer out, changing its time and putting it back does too. *)
Lemma reinsert_inv st t x x' :
  inv st → heap st !! t = Some x → manager_ x = true →
  timer_ok (next_sequence_ st) x' → manager_ x' = true → sequence_ x' = sequence_ x →
  inv (insert_timer t (set_timer t x' (erase t st))).
Proof.
  intros H Hx Hm Hok Hm' Hs.
  assert (distinct (<[t := x']> (heap st))) as Hd
    by (eapply set_timer_distinct; [apply H|done|done]).
  assert (is_Some (<[t := x']> (heap st) !! t)) as Ht by (rewrite lookup_insert_eq; eauto).
  assert (Forall (λ a, is_Some (<[t := x']> (heap st) !! a)) (set_erase t (timers_ st))) as Hl.
  { apply Forall_forall. intros a Ha. apply set_erase_elem in Ha as [Ha ?].
    rewrite lookup_insert_ne by done. pose proof (members_in_heap st H) as Hf.
    rewrite Forall_forall in Hf. by apply Hf. }
  assert (t ∉ set_erase t (timers_ st)) as Hnin by (rewrite set_erase_elem; tauto).
  split; simpl; [| | |done|apply H].
  - apply set_insert_ordered; try done. eapply ordered_ext; [|apply ordered_filter, H].
    intros a Ha. apply set_erase_elem in Ha as [_ ?]. by apply lookup_insert_ne.
  - intros a. rewrite set_insert_elem by done.
    rewrite set_erase_elem, (inv_members st H). destruct (decide (a = t)) as [->|].
    + rewrite lookup_insert_eq. split; eauto.
    + rewrite lookup_insert_ne by done. tauto.
  - intros a y Hy. apply lookup_insert_Some in Hy as [[<- <-]|[_ Hy]]; [done|].
    by apply (inv_timers st H a).
Qed.

(** ** The expiry scan *)

Definition is_due h (now : Z) (t : nat) : bool :=
  match h !! t with Some x => next_ x <=? now | None => false end.

Definition due_timers (now : Z) st : list nat :=
  filter (λ t, is_due (heap st) now t = true) (timers_ st).

(** What a scan at the time [now] does to a timer. *)
Definition fire (now : Z) x : Timer callback condition :=
  if manager_ x && (next_ x <=? now) then
    if recurring_ x then set_next (now + Z.max (ms_ x) 1) x else detach x
  else x.

Lemma filter_set_insert h t l (P : nat → Prop) `{∀ a, Decision (P a)} :
  ¬ P t → filter P (set_insert h t l) = filter P l.
Proof.
  intros Hn. induction l as [|a l IH]; simpl; [by rewrite filter_cons_False|].
  destruct (less h t a); [by rewrite filter_cons_False|].
  destruct (less h a t); [|done]. rewrite !filter_cons. by rewrite IH.
Qed.

Lemma filter_ext_in (P Q : nat → Prop) `{∀ a, Decision (P a)} `{∀ a, Decision (Q a)}
    (l : list nat) :
  (∀ a, a ∈ l → P a ↔ Q a) → filter P l = filter Q l.
Proof.
  induction l as [|a l IH]; intros Hi; [done|]. rewrite !filter_cons, IH by set_solver.
  destruct (Hi a ltac:(set_solver)). repeat case_decide; tauto.
Qed.

Lemma filter_none (P : nat → Prop) `{∀ a, Decision (P a)} (l : list nat) :
  (∀ a, a ∈ l → ¬ P a) → filter P l = [].
Proof.
  induction l as [|a l IH]; intros Hn; [done|].
  rewrite filter_cons_False by (apply Hn; set_solver). apply IH. set_solver.
Qed.

Lemma fire_idle now st t x :
  inv st → due_timers now st = [] → heap st !! t = Some x → fire now x = x.
Proof.
  intros H E Hx. unfold fire. destruct (manager_ x) eqn:Em; [|done]. cbn [andb].
  destruct (Z.leb_spec (next_ x) now) as [Hle|]; [|done].
  assert (t ∈ due_timers now st) as Hin; [|by rewrite E in Hin; set_solver].
  apply list_elem_of_filter. unfold is_due. rewrite Hx. split; [by apply Z.leb_le|].
  apply (inv_members st H). eauto.
Qed.

Lemma fire_fire now x : 0 <= ms_ x → fire now (fire now x) = fire now x.
Proof.
  intros Hms. unfold fire. destruct (manager_ x) eqn:Em; cbn [andb].
  2:{ by rewrite Em. }
  destruct (Z.leb_spec (next_ x) now) as [Hle|Hgt]; cbn.
  - destruct (recurring_ x) eqn:Er; cbn; [|done]. rewrite Em. cbn.
    by rewrite (proj2 (Z.leb_gt _ _)) by lia.
  - rewrite Em. cbn. by rewrite (proj2 (Z.leb_gt _ _)) by lia.
Qed.

(** Handling the first timer leaves the others to handle. *)
Lemma due_timers_tail now st t l x' st2 :
  inv st → timers_ st = t :: l → is_due (heap st) now t = true →
  heap st2 = <[t := x']> (heap st) →
  (timers_ st2 = l ∨ timers_ st2 = set_insert (heap st2) t l ∧ now < next_ x') →
  due_timers now st = t :: due_timers now st2 ∧
  ((λ a, (a, heap st !! a ≫= cb_)) <$> due_timers now st2) =
  ((λ a, (a, heap st2 !! a ≫= cb_)) <$> due_timers now st2).
Proof.
  intros H E Hd Hh Ht2. pose proof (ordered_NoDup _ _ (inv_ordered st H)) as Hnd.
  rewrite E in Hnd. apply NoDup_cons in Hnd as [Hnin _].
  assert (∀ a, a ∈ l → heap st2 !! a = heap st !! a) as Hsame.
  { intros a Ha. rewrite Hh. apply lookup_insert_ne. by intros ->. }
  assert (due_timers now st2 = filter (λ a, is_due (heap st) now a = true) l) as Hf.
  { unfold due_timers. destruct Ht2 as [->|[-> Hlt]].
    - apply filter_ext_in. intros a Ha. unfold is_due. by rewrite Hsame.
    - rewrite filter_set_insert.
      + apply filter_ext_in. intros a Ha. unfold is_due. by rewrite Hsame.
      + unfold is_due. rewrite Hh, lookup_insert_eq. rewrite Z.leb_le. lia. }
  split.
  - unfold due_timers at 1. rewrite E, filter_cons_True by done. by rewrite Hf.
  - apply list_fmap_ext. intros i a Ha. rewrite Hsame; [done|].
    apply list_elem_of_lookup_2 in Ha. rewrite Hf in Ha. by apply list_elem_of_filter in Ha as [_ ?].
Qed.

Lemma set_erase_head t l : t ∉ l → set_erase t (t :: l) = l.
Proof.
  intros Hn. unfold set_erase. rewrite filter_cons_False by tauto.
  induction l as [|a l IH]; [done|].
  rewrite filter_cons_True by set_solver. rewrite IH by set_solver. done.
Qed.

Lemma list_expired_spec now fuel : ∀ st,
  inv st → 0 <= now < 2 ^ 63 → (length (due_timers now st) < fuel)%nat →
  ∃ st', list_expired fuel now st =
    Some ((λ t, (t, heap st !! t ≫= cb_)) <$> due_timers now st, st') ∧
  inv st' ∧ (∀ t, heap st' !! t = fire now <$> heap st !! t) ∧
  next_sequence_ st' = next_sequence_ st.
Proof.
  induction fuel as [|fuel IH]; intros st H Hnow Hlen; [lia|]. cbn [list_expired].
  assert (due_timers now st = [] → ∃ st', Some ([], st) =
    Some ((λ t, (t, heap st !! t ≫= cb_)) <$> due_timers now st, st') ∧
    inv st' ∧ (∀ t, heap st' !! t = fire now <$> heap st !! t) ∧
    next_sequence_ st' = next_sequence_ st) as Hidle.
  { intros E. exists st. rewrite E. split_and!; try done. intros t.
    destruct (heap st !! t) as [x|] eqn:Ex; [|done]. simpl. f_equal. symmetry.
    by eapply fire_idle. }
  destruct (timers_ st) as [|t l] eqn:E.
  { apply Hidle. unfold due_timers. by rewrite E. }
  destruct (proj1 (inv_members st H t)) as (x&Hx&Hm); [rewrite E; set_solver|].
  rewrite Hx. destruct (inv_timers st H t x Hx) as [Hc Hcb Hs Hn Hms].
  destruct (Z.ltb_spec now (next_ x)) as [Hlt|Hge].
  { apply Hidle. apply filter_none. intros a Ha.
    destruct (proj1 (inv_members st H a) Ha) as (y&Hy&_).
    destruct (front_earliest st t l a y H E Ha Hy) as (x'&Hx'&Hle).
    unfold is_due. rewrite Hy, Z.leb_le. simplify_eq. lia. }
  rewrite Hc, Hm. cbn [negb]. pose proof (ordered_NoDup _ _ (inv_ordered st H)) as Hnd.
  rewrite E in Hnd. apply NoDup_cons in Hnd as [Hnin _].
  assert (is_due (heap st) now t = true) as Hdue
    by (unfold is_due; rewrite Hx; by apply Z.leb_le).
  set (x' := fire now x).
  set (st2 := if recurring_ x
    then insert_timer t (set_timer t (set_next (wrap 64 (now + Z.max (ms_ x) 1)) x) (erase t st))
    else set_timer t (detach x) (erase t st)).
  assert (inv st2 ∧ heap st2 = <[t := x']> (heap st) ∧
    next_sequence_ st2 = next_sequence_ st ∧
    (timers_ st2 = l ∨ timers_ st2 = set_insert (heap st2) t l ∧ now < next_ x'))
    as (Hi2&Hh2&Hs2&Ht2).
  { unfold st2, x', fire. rewrite Hm, (proj2 (Z.leb_le _ _)) by lia. cbn [andb].
    destruct (recurring_ x) eqn:Er.
    - rewrite wrap_small by lia. split_and!; try done.
      + eapply reinsert_inv; try done. split; simpl; try done. lia.
      + right. simpl. rewrite E, set_erase_head by done. split; [done|lia].
    - split_and!; try done.
      + by apply detach_inv.
      + left. simpl. by rewrite E, set_erase_head. }
  destruct (due_timers_tail now st t l x' st2 H E Hdue Hh2 Ht2) as [Hd Hmap].
  destruct (IH st2 Hi2 Hnow) as (st3&E3&Hi3&Hh3&Hs3).
  { rewrite Hd in Hlen. simpl in Hlen. lia. }
  exists st3. split; [|split_and!; [done| |congruence]].
  - rewrite Hd, fmap_cons, Hmap, Hx. unfold st2 in E3.
    destruct (recurring_ x); by rewrite E3.
  - intros a. rewrite Hh3, Hh2. destruct (decide (a = t)) as [->|].
    + rewrite lookup_insert_eq, Hx. simpl. f_equal. apply fire_fire. lia.
    + by rewrite lookup_insert_ne.
Qed.

(** ** The single operations *)

Lemma alive_spec t st :
  inv st →
  (∃ x, heap st !! t = Some x ∧ manager_ x = true ∧ has_manager t st = true ∧
    managed t st = Some (x, t)) ∨
  (has_manager t st = false ∧ ∀ x, heap st !! t = Some x → manager_ x = false).
Proof.
  intros H. unfold has_manager, managed. destruct (heap st !! t) as [x|] eqn:Hx; [|by right].
  destruct (manager_ x) eqn:Em; [left|right; naive_solver].
  exists x. split_and!; try done. rewrite (ok_canceled _ x) by (by eapply inv_timers).
  rewrite Em. cbn [negb orb].
  rewrite set_find_elem; [|apply H|by apply members_in_heap|by rewrite Hx].
  rewrite decide_True; [done|]. apply (inv_members st H). eauto.
Qed.

Lemma cancel_spec t st :
  inv st →
  (∃ x, heap st !! t = Some x ∧ manager_ x = true ∧
    cancel t st = (true, set_timer t (detach x) (erase t st))) ∨
  (cancel t st = (false, st) ∧ ∀ x, heap st !! t = Some x → manager_ x = false).
Proof.
  intros H. destruct (alive_spec t st H) as [(x&Hx&Hm&E1&E2)|[E1 Hd]]; [left|right].
  - exists x. split_and!; try done. unfold cancel, cancelTimer. by rewrite E1, E2.
  - split; [|done]. unfold cancel. by rewrite E1.
Qed.

(** The next deadline and interval of a timer after [refresh] or [reset]. *)
Definition rescheduled (next ms : Z) x : Timer callback condition :=
  set_next next (set_ms ms x).

Definition reset_next (now ms : Z) (from_now : bool) x : Z :=
  wrap 64 ((if from_now then now else wrap 64 (next_ x - ms_ x)) + ms).

Definition moved_timer (t : nat) x' st : bool * bool * TimerManager callback condition :=
  reinsert t x' (erase t st).

Lemma refresh_spec now t st :
  inv st →
  (∃ x, heap st !! t = Some x ∧ manager_ x = true ∧
    refresh now t st = moved_timer t (rescheduled (wrap 64 (now + ms_ x)) (ms_ x) x) st) ∨
  (refresh now t st = (false, false, st) ∧ ∀ x, heap st !! t = Some x → manager_ x = false).
Proof.
  intros H. destruct (alive_spec t st H) as [(x&Hx&Hm&E1&E2)|[E1 Hd]]; [left|right].
  - exists x. split_and!; try done. unfold refresh, refreshTimer. rewrite E1, E2.
    unfold moved_timer. by f_equal.
  - split; [|done]. unfold refresh. by rewrite E1.
Qed.

Lemma reset_spec now t ms from_now st :
  inv st →
  (∃ x, heap st !! t = Some x ∧ manager_ x = true ∧
    reset now t ms from_now st = moved_timer t (rescheduled (reset_next now ms from_now x) ms x) st) ∨
  (reset now t ms from_now st = (false, false, st) ∧
    ∀ x, heap st !! t = Some x → manager_ x = false).
Proof.
  intros H. destruct (alive_spec t st H) as [(x&Hx&Hm&E1&E2)|[E1 Hd]]; [left|right].
  - exists x. split_and!; try done. unfold reset, resetTimer. by rewrite E1, E2.
  - split; [|done]. unfold reset. by rewrite E1.
Qed.

Lemma rescheduled_inv next ms t x st :
  inv st → heap st !! t = Some x → manager_ x = true →
  0 <= next < 2 ^ 64 → 0 <= ms < 2 ^ 63 →
  inv (moved_timer t (rescheduled next ms x) st).2.
Proof.
  intros H Hx Hm Hn Hms. destruct (inv_timers st H t x Hx).
  eapply reinsert_inv; (done || by split).
Qed.

Lemma addTimer_spec now ms f recurring st :
  inv st → 0 <= ms < 2 ^ 63 → next_sequence_ st + 1 < 2 ^ 64 →
  let t := fresh (dom (heap st)) in
  let x := mkTimer true ms (wrap 64 (now + ms)) (next_sequence_ st) recurring false (Some f) in
  heap st !! t = None ∧
  ∃ at_front st', addTimer now ms (Some f) recurring st = (Some t, at_front, st') ∧
    inv st' ∧ heap st' = <[t := x]> (heap st) ∧
    at_front = goes_first (heap st') t (timers_ st) ∧
    timers_ st' = set_insert (heap st') t (timers_ st) ∧
    next_sequence_ st' = next_sequence_ st + 1.
Proof.
  intros H Hms Hroom t x. pose proof (inv_sequence st H) as Hs.
  assert (heap st !! t = None) as Hnone by (apply not_elem_of_dom, is_fresh).
  split; [done|]. eexists _, _. split; [done|]. cbn.
  rewrite (wrap_small 64 (next_sequence_ st + 1)) by lia. split_and!; try done.
  assert (distinct (<[t := x]> (heap st))) as Hd.
  { intros a b y z Ha Hb E. apply lookup_insert_Some in Ha, Hb.
    destruct Ha as [[<- <-]|[? Ha]], Hb as [[<- <-]|[? Hb]]; try done.
    - pose proof (ok_sequence _ _ (inv_timers st H b z Hb)). simpl in E. lia.
    - pose proof (ok_sequence _ _ (inv_timers st H a y Ha)). simpl in E. lia.
    - by apply (inv_distinct st H a b y z). }
  assert (t ∉ timers_ st) as Hnin.
  { intros Hin. apply (inv_members st H) in Hin as (y&?&_). congruence. }
  assert (∀ a, a ∈ timers_ st → <[t := x]> (heap st) !! a = heap st !! a) as Hsame
    by (intros a Ha; apply lookup_insert_ne; by intros ->).
  assert (is_Some (<[t := x]> (heap st) !! t)) as Ht by (rewrite lookup_insert_eq; eauto).
  assert (Forall (λ a, is_Some (<[t := x]> (heap st) !! a)) (timers_ st)) as Hl.
  { apply Forall_forall. intros a Ha. rewrite Hsame by done.
    pose proof (members_in_heap st H) as Hf. rewrite Forall_forall in Hf. by apply Hf. }
  split; simpl; [| | |done|lia].
  - apply set_insert_ordered; try done. eapply ordered_ext; [exact Hsame|apply H].
  - intros a. rewrite set_insert_elem by done. rewrite (inv_members st H).
    destruct (decide (a = t)) as [->|].
    + rewrite lookup_insert_eq. split; eauto.
    + rewrite lookup_insert_ne by done. tauto.
  - intros a y Hy. apply lookup_insert_Some in Hy as [[<- <-]|[_ Hy]].
    + split; simpl; first [done|apply wrap_range; lia|lia|split; eauto].
    + destruct (inv_timers st H a y Hy). split; try done. lia.
Qed.

Lemma foldr_detach_lookup l h t :
  NoDup l → foldr (λ a h, alter detach a h) h l !! t =
  if decide (t ∈ l) then detach <$> h !! t else h !! t.
Proof.
  induction l as [|a l IH]; intros Hnd; simpl; [done|]. apply NoDup_cons in Hnd as [Hn Hnd].
  destruct (decide (t = a)) as [->|Hne].
  - rewrite lookup_alter_eq, IH by done. rewrite decide_False by done.
    by rewrite decide_True by set_solver.
  - rewrite lookup_alter_ne, IH by done.
    destruct (decide (t ∈ l)); [rewrite decide_True by set_solver|rewrite decide_False by set_solver]; done.
Qed.

Lemma clearTimers_spec st :
  inv st → inv (clearTimers st) ∧
  ∀ t, heap (clearTimers st) !! t =
    (λ x, if manager_ x then detach x else x) <$> heap st !! t.
Proof.
  intros H.
  assert (∀ t, heap (clearTimers st) !! t =
    (λ x, if manager_ x then detach x else x) <$> heap st !! t) as Hh.
  { intros t. unfold clearTimers. cbn [heap].
    rewrite foldr_detach_lookup by (by eapply ordered_NoDup, inv_ordered).
    destruct (decide (t ∈ timers_ st)) as [Hin|Hin]; rewrite (inv_members st H) in Hin.
    - destruct Hin as (x&->&Hm). simpl. by rewrite Hm.
    - destruct (heap st !! t) as [x|] eqn:Hx; [|done]. simpl.
      destruct (manager_ x) eqn:Em; [|done]. destruct Hin; eauto. }
  split; [|done]. split; [constructor| | | |apply H].
  - intros t. rewrite Hh. split; [set_solver|]. intros (y&Hy&Hm).
    destruct (heap st !! t) as [x|]; [|done]. simpl in Hy. injection Hy as <-.
    by destruct (manager_ x) eqn:Em; [|rewrite Em in Hm].
  - intros t y. rewrite Hh. destruct (heap st !! t) as [x|] eqn:Hx; [|done].
    simpl. intros [= <-]. pose proof (inv_timers st H t x Hx) as Hok.
    destruct (manager_ x); [|exact Hok]. destruct Hok. split; simpl; try done.
  - intros a b y z. rewrite !Hh. intros Ha Hb E.
    destruct (heap st !! a) as [x1|] eqn:E1, (heap st !! b) as [x2|] eqn:E2; try done.
    simpl in Ha, Hb. injection Ha as <-. injection Hb as <-.
    apply (inv_distinct st H a b x1 x2 E1 E2).
    by destruct (manager_ x1), (manager_ x2).
Qed.
End timers.
End TimerProofs.
