(* ===== verification/TimerLifecycle.v ===== *)
(** The life of the timers of a [TimerManager] over any sequence of
    operations, and the theorems on expiry, cancellation and the deadline the
    event loop sleeps for. *)

From S2P Require Import Prelude Timer TimerProofs.
Import Timer TimerProofs.

Module TimerLifecycle.

(** ** Sequences of operations *)

Section lifecycle.
Context {callback condition : Type}.
Implicit Types (x y : Timer callback condition) (st : TimerManager callback condition).

(** The operations of the interface, with the time at which they are called. *)
Inductive op :=
  | Add (now ms : Z) (f : function callback condition) (recurring : bool)
  | Scan (now : Z)
  | Cancel (t : nat)
  | Refresh (now : Z) (t : nat)
  | Reset (now : Z) (t : nat) (ms : Z) (from_now : bool)
  | Clear.

(** What can be seen of a timer: its callback is handed out, or a [cancel] of
    it succeeds. *)
Inductive event :=
  | Fired (t : nat) (f : option (function callback condition))
  | Canceled (t : nat).

(** The events, whether the event loop is notified, and the new state. *)
Definition step (o : op) st : option (list event * bool * TimerManager callback condition) :=
  match o with
  | Add now ms f recurring =>
      let '(_, notify, st') := addTimer now ms (Some f) recurring st in Some ([], notify, st')
  | Scan now =>
      match listExpiredCallbacks now st with
      | None => None
      | Some (cbs, st') => Some ((λ p, Fired p.1 p.2) <$> cbs, false, st')
      end
  | Cancel t =>
      let '(done, st') := cancel t st in
      Some (if done then [Canceled t] else [], false, st')
  | Refresh now t => let '(_, notify, st') := refresh now t st in Some ([], notify, st')
  | Reset now t ms from_now =>
      let '(_, notify, st') := reset now t ms from_now st in Some ([], notify, st')
  | Clear => Some ([], false, clearTimers st)
  end.

Fixpoint run (os : list op) st : option (list event * TimerManager callback condition) :=
  match os with
  | [] => Some ([], st)
  | o :: os' =>
      match step o st with
      | None => None
      | Some (es, _, st') =>
          match run os' st' with
          | None => None
          | Some (es', st'') => Some (es ++ es', st'')
          end
      end
  end.

(** The clock and the intervals are below 2^63 milliseconds, so that adding
    them does not wrap. *)
Definition op_ok (o : op) : Prop :=
  match o with
  | Add now ms _ _ | Reset now _ ms _ => 0 <= now < 2 ^ 63 ∧ 0 <= ms < 2 ^ 63
  | Scan now | Refresh now _ => 0 <= now < 2 ^ 63
  | Cancel _ | Clear => True
  end.

(** ** The fate of one timer *)

Definition event_timer (e : event) : nat :=
  match e with Fired t _ | Canceled t => t end.

(** The events of one timer. *)
Definition events_of (t : nat) (es : list event) : list event :=
  filter (λ e, event_timer e = t) es.

(** A timer no operation brings back. *)
Definition dead (t : nat) st : Prop :=
  ∃ x, heap st !! t = Some x ∧ manager_ x = false.

Definition one_shot (t : nat) st : Prop :=
  ∃ x, heap st !! t = Some x ∧ recurring_ x = false.

(** What one step does to a timer that exists: a dead one stays as it is and
    has no event; a live one has at most one event, dies of a [Canceled] and,
    when it is not recurring, of a [Fired]. *)
Record stepped (t : nat) x (es : list event) (st' : TimerManager callback condition) : Prop := {
  stepped_dead : manager_ x = false → heap st' !! t = Some x ∧ events_of t es = [];
  stepped_kind : ∃ x', heap st' !! t = Some x' ∧ recurring_ x' = recurring_ x;
  stepped_events : (length (events_of t es) ≤ 1)%nat;
  stepped_canceled : Canceled t ∈ es → dead t st';
  stepped_fired f : Fired t f ∈ es → recurring_ x = false → dead t st';
}.

Lemma events_of_app t es es' : events_of t (es ++ es') = events_of t es ++ events_of t es'.
Proof. apply filter_app. Qed.

Lemma events_of_elem t e es : e ∈ es → event_timer e = t → e ∈ events_of t es.
Proof. intros. by apply list_elem_of_filter. Qed.

(** A step without events that changes the timer at most by moving it. *)
Lemma stepped_quiet t x x' st' :
  heap st' !! t = Some x' → recurring_ x' = recurring_ x →
  (manager_ x = false → x' = x) → stepped t x [] st'.
Proof.
  intros Hx' Hr Hd. split.
  - intros Hm. by rewrite Hx', (Hd Hm).
  - by exists x'.
  - simpl. lia.
  - by intros ?%elem_of_nil.
  - by intros f ?%elem_of_nil.
Qed.

Lemma fired_events t (l : list nat) (g : nat → option (function callback condition)) :
  NoDup l →
  events_of t ((λ p, Fired p.1 p.2) <$> ((λ a, (a, g a)) <$> l)) =
  if decide (t ∈ l) then [Fired t (g t)] else [].
Proof.
  induction l as [|a l IH]; intros Hnd; [done|]. apply NoDup_cons in Hnd as [Hn Hnd].
  unfold events_of in *. rewrite !fmap_cons, filter_cons. simpl. rewrite IH by done.
  destruct (decide (a = t)) as [->|].
  - rewrite decide_False by done. by rewrite decide_True by set_solver.
  - destruct (decide (t ∈ l)); [rewrite decide_True by set_solver|rewrite decide_False by set_solver]; done.
Qed.

Lemma due_timers_elem now st t :
  inv st → t ∈ due_timers now st ↔
    ∃ x, heap st !! t = Some x ∧ manager_ x = true ∧ next_ x <= now.
Proof.
  intros H. unfold due_timers, is_due. rewrite list_elem_of_filter, (inv_members st H).
  split.
  - intros [Hd (x&Hx&Hm)]. rewrite Hx in Hd. exists x. split_and!; try done. by apply Z.leb_le.
  - intros (x&Hx&Hm&Hn). rewrite Hx. split; [by apply Z.leb_le|eauto].
Qed.

Lemma scan_spec now st :
  inv st → 0 <= now < 2 ^ 63 →
  ∃ st', listExpiredCallbacks now st =
    Some ((λ t, (t, heap st !! t ≫= cb_)) <$> due_timers now st, st') ∧
  inv st' ∧ (∀ t, heap st' !! t = fire now <$> heap st !! t) ∧
  next_sequence_ st' = next_sequence_ st.
Proof.
  intros H Hnow. apply list_expired_spec; try done. unfold due_timers.
  pose proof (length_filter (λ t, is_due (heap st) now t = true) (timers_ st)). lia.
Qed.

Lemma stepped_scan now st es st' t x :
  inv st → heap st !! t = Some x →
  es = (λ p, Fired p.1 p.2) <$> ((λ a, (a, heap st !! a ≫= cb_)) <$> due_timers now st) →
  (∀ t, heap st' !! t = fire now <$> heap st !! t) →
  stepped t x es st'.
Proof.
  intros H Hx -> Hh.
  assert (NoDup (due_timers now st)) as Hnd
    by (apply NoDup_filter; eapply ordered_NoDup, (inv_ordered st H)).
  pose proof (due_timers_elem now st t H) as Hdue.
  assert (heap st' !! t = Some (fire now x)) as Hx' by (by rewrite Hh, Hx).
  split.
  - intros Hm. rewrite Hx'. unfold fire. rewrite Hm. split; [done|].
    rewrite fired_events by done. rewrite decide_False; [done|].
    rewrite Hdue. intros (y&?&?&_). congruence.
  - exists (fire now x). split; [done|]. unfold fire. by repeat case_match.
  - rewrite fired_events by done. case_decide; simpl; lia.
  - intros Hin. apply list_elem_of_fmap in Hin as (p&?&_). done.
  - intros f Hin Hr. apply (events_of_elem t) in Hin; [|done].
    rewrite fired_events in Hin by done. case_decide as Hd; [|set_solver].
    rewrite Hdue in Hd. destruct Hd as (y&Hy&Hm&Hn). assert (y = x) as -> by congruence.
    exists (fire now x). split; [done|]. unfold fire.
    by rewrite Hm, (proj2 (Z.leb_le _ _) Hn), Hr.
Qed.

Lemma moved_lookup next ms (t a : nat) x z st :
  heap st !! t = Some x → manager_ x = true → heap st !! a = Some z →
  ∃ z', heap (moved_timer t (rescheduled next ms x) st).2 !! a = Some z' ∧
    recurring_ z' = recurring_ z ∧ (manager_ z = false → z' = z).
Proof.
  intros Hx Hm Hz. cbn. destruct (decide (a = t)) as [->|].
  - rewrite lookup_insert_eq. simplify_eq. eexists. split; [done|]. split; [done|congruence].
  - rewrite lookup_insert_ne by done. eauto.
Qed.

Lemma step_spec o st :
  inv st → op_ok o → next_sequence_ st + 1 < 2 ^ 64 →
  ∃ es notify st', step o st = Some (es, notify, st') ∧ inv st' ∧
    next_sequence_ st' <= next_sequence_ st + 1 ∧
    (∀ t, heap st !! t = None → events_of t es = []) ∧
    ∀ t x, heap st !! t = Some x → stepped t x es st'.
Proof.
  intros H Hok Hroom. destruct o as [now ms f r|now|t|now t|now t ms fn|]; cbn [step op_ok] in *.
  - destruct (addTimer_spec now ms f r st H (proj2 Hok) Hroom)
      as (Hnone&at_front&st'&->&Hi&Hh&_&_&Hs).
    exists [], at_front, st'. split; [done|]. split; [done|]. split; [lia|].
    split; [done|]. intros t x Hx.
    apply (stepped_quiet _ _ x); try done. rewrite Hh. rewrite lookup_insert_ne; [done|].
    intros E. by rewrite E, Hx in Hnone.
  - destruct (scan_spec now st H Hok) as (st'&->&Hi&Hh&Hs).
    eexists _, _, st'. split; [done|]. split; [done|]. split; [lia|].
    split.
    { intros t Hx. rewrite fired_events by (apply NoDup_filter; eapply ordered_NoDup, (inv_ordered st H)).
      rewrite decide_False; [done|]. rewrite due_timers_elem by done. intros (y&?&_). congruence. }
    intros t x Hx. exact (stepped_scan now st _ st' t x H Hx eq_refl Hh).
  - destruct (cancel_spec t st H) as [(x&Hx&Hm&->)|[-> Hd]].
    + eexists _, _, _. split; [done|]. split; [by apply detach_inv|]. split; [simpl; lia|]. split.
      { intros a Ha. unfold events_of. rewrite filter_cons_False; [done|].
        simpl. intros ->. congruence. }
      intros a z Hz. destruct (decide (a = t)) as [->|Hne].
      * assert (dead t (set_timer t (detach x) (erase t st))) as Hdead
          by (eexists; split; [apply lookup_insert_eq|done]).
        simplify_eq. split; try done.
        -- congruence.
        -- exists (detach x). split; [apply lookup_insert_eq|done].
        -- unfold events_of. rewrite filter_cons_True by done. simpl. lia.
      * assert (∀ e, e ∈ [Canceled t] → event_timer e ≠ a) as He
          by (intros e ->%list_elem_of_singleton; simpl; congruence).
        assert (events_of a [Canceled t] = []) as Hnil.
        { unfold events_of. rewrite filter_cons_False by (simpl; congruence). done. }
        assert (heap (set_timer t (detach x) (erase t st)) !! a = Some z) as Hz'
          by (cbn; by rewrite lookup_insert_ne).
        split; rewrite ?Hnil; try done.
        -- by exists z.
        -- simpl. lia.
        -- by intros ?%He.
        -- by intros g ?%He.
    + exists [], false, st. split; [done|]. split; [done|]. split; [lia|]. split; [done|]. intros a z Hz.
      by apply (stepped_quiet _ _ z).
  - destruct (refresh_spec now t st H) as [(x&Hx&Hm&->)|[-> Hd]].
    + destruct (inv_timers st H t x Hx) as [_ _ _ _ Hms].
      eexists _, _, _. split; [done|]. split; [|split; [simpl; lia|split; [done|]]].
      * apply rescheduled_inv; try done. apply wrap_range. lia.
      * intros a z Hz. destruct (moved_lookup (wrap 64 (now + ms_ x)) (ms_ x) t a x z st Hx Hm Hz)
          as (z'&?&?&?). by apply (stepped_quiet _ _ z').
    + exists [], false, st. split; [done|]. split; [done|]. split; [lia|]. split; [done|]. intros a z Hz.
      by apply (stepped_quiet _ _ z).
  - destruct (reset_spec now t ms fn st H) as [(x&Hx&Hm&->)|[-> Hd]].
    + eexists _, _, _. split; [done|]. split; [|split; [simpl; lia|split; [done|]]].
      * apply rescheduled_inv; try done; [|apply Hok]. apply wrap_range. lia.
      * intros a z Hz. destruct (moved_lookup (reset_next now ms fn x) ms t a x z st Hx Hm Hz)
          as (z'&?&?&?). by apply (stepped_quiet _ _ z').
    + exists [], false, st. split; [done|]. split; [done|]. split; [lia|]. split; [done|]. intros a z Hz.
      by apply (stepped_quiet _ _ z).
  - destruct (clearTimers_spec st H) as [Hi Hh].
    eexists _, _, _. split; [done|]. split; [done|]. split; [simpl; lia|]. split; [done|].
    intros a z Hz. eapply stepped_quiet; [by rewrite Hh, Hz| |].
    + simpl. by destruct (manager_ z).
    + simpl. by intros ->.
Qed.

Lemma run_spec os : ∀ st,
  inv st → Forall op_ok os → next_sequence_ st + Z.of_nat (length os) < 2 ^ 64 →
  ∃ es st', run os st = Some (es, st') ∧ inv st' ∧ ∀ t,
    (∀ x, heap st !! t = Some x → ∃ x', heap st' !! t = Some x' ∧ recurring_ x' = recurring_ x) ∧
    (dead t st → events_of t es = []) ∧
    (one_shot t st' → (length (events_of t es) ≤ 1)%nat) ∧
    (∀ es1 es2, es = es1 ++ Canceled t :: es2 → events_of t es2 = []).
Proof.
  induction os as [|o os IH]; intros st H Hok Hroom.
  { exists [], st. split; [done|]. split; [done|]. intros t. split_and!; try done.
    - eauto.
    - intros _. simpl. lia.
    - intros es1 es2 E. by destruct es1. }
  apply Forall_cons in Hok as [Ho Hok]. simpl in Hroom.
  destruct (step_spec o st H Ho ltac:(lia)) as (es&notify&st1&E1&Hi1&Hs1&Hnew&Hstep).
  destruct (IH st1 Hi1 Hok ltac:(lia)) as (es'&st2&E2&Hi2&Hlater).
  exists (es ++ es'), st2. cbn [run]. rewrite E1, E2. split; [done|]. split; [done|].
  intros t. destruct (Hlater t) as (Lk&Ld&Lo&Lc). rewrite events_of_app.
  destruct (heap st !! t) as [x|] eqn:Hx.
  2:{ rewrite (Hnew t Hx). split_and!; [done| |done|].
      - intros (y&?&_). congruence.
      - intros es1 es2 E. apply app_eq_inv in E as [(k&->&E)|(k&->&E)].
        + destruct k as [|e k]; simpl in E; [by apply (Lc [] es2)|].
          injection E as <- ->. specialize (Hnew t Hx).
          rewrite events_of_app in Hnew. apply app_eq_nil in Hnew as [_ Hn].
          unfold events_of in Hn. by rewrite filter_cons_True in Hn by done.
        + by apply (Lc k es2). }
  destruct (Hstep t x Hx) as [Sd (x'&Hx'&Hr) Sl Sc Sf]. split_and!.
  - intros y [= <-]. destruct (Lk x' Hx') as (z&Hz&Hrz). exists z. split; [done|congruence].
  - intros (y&Hy&Hm). assert (y = x) as -> by congruence. destruct (Sd Hm) as [Hx1 ->].
    apply Ld. by exists x.
  - intros Hone. rewrite length_app. pose proof (Lo Hone).
    destruct Hone as (z&Hz&Hrec). destruct (Lk x' Hx') as (z'&Hz'&Hrz).
    destruct (events_of t es) as [|e l] eqn:Ee; [done|].
    assert (dead t st1) as Hdead.
    { assert (e ∈ events_of t es) as Hin by (rewrite Ee; set_solver).
      apply list_elem_of_filter in Hin as [<- Hin].
      destruct e as [t f|t]; [apply (Sf f); [done|congruence]|by apply Sc]. }
    rewrite (Ld Hdead). simpl in *. lia.
  - intros es1 es2 E. apply app_eq_inv in E as [(k&->&E)|(k&->&E)].
    + destruct k as [|e k]; simpl in E; [by apply (Lc [] es2)|].
      injection E as <- ->. assert (dead t st1) as Hdead by (apply Sc; set_solver).
      rewrite events_of_app, (Ld Hdead), app_nil_r.
      rewrite events_of_app in Sl. unfold events_of in Sl at 2.
      rewrite filter_cons_True in Sl by done. fold (events_of t k) in Sl.
      rewrite length_app in Sl. simpl in Sl. apply length_zero_iff_nil. lia.
    + by apply (Lc k es2).
Qed.

(** ** The next deadline *)

Definition wait (now next : Z) : Z := if next <=? now then 0 else next - now.

Lemma getNextTimer_wait now st t l :
  inv st → 0 <= now → timers_ st = t :: l →
  ∃ x, heap st !! t = Some x ∧ manager_ x = true ∧
    getNextTimer now st = wait now (next_ x) ∧ 0 <= wait now (next_ x) <= u64_max.
Proof.
  intros H Hnow E. destruct (proj1 (inv_members st H t)) as (x&Hx&Hm); [rewrite E; set_solver|].
  exists x. pose proof (ok_next _ _ (inv_timers st H t x Hx)) as Hn.
  unfold getNextTimer, wait. rewrite E, Hx. split; [done|]. split; [done|].
  unfold u64_max. destruct (Z.leb_spec (next_ x) now); [lia|]. rewrite wrap_small; lia.
Qed.

(** The deadline is no later than that of any live timer, and is one of them. *)
Lemma getNextTimer_earliest now st :
  inv st → 0 <= now →
  (∀ a y, heap st !! a = Some y → manager_ y = true → getNextTimer now st <= wait now (next_ y)) ∧
  (getNextTimer now st = u64_max ∧ hasTimer st = false ∨
   hasTimer st = true ∧ ∃ a y, heap st !! a = Some y ∧ manager_ y = true ∧
     getNextTimer now st = wait now (next_ y)).
Proof.
  intros H Hnow. destruct (timers_ st) as [|t l] eqn:E.
  - split.
    + intros a y Hy Hm. assert (a ∈ timers_ st) as Hin by (apply (inv_members st H); eauto).
      rewrite E in Hin. by apply elem_of_nil in Hin.
    + left. unfold getNextTimer, hasTimer. by rewrite E.
  - destruct (getNextTimer_wait now st t l H Hnow E) as (x&Hx&Hm&Ew&_). rewrite Ew. split.
    + intros a y Hy Hmy. assert (a ∈ timers_ st) as Hin by (apply (inv_members st H); eauto).
      destruct (front_earliest st t l a y H E Hin Hy) as (x'&Hx'&Hle). simplify_eq.
      unfold wait. destruct (Z.leb_spec (next_ x) now), (Z.leb_spec (next_ y) now); lia.
    + right. unfold hasTimer. rewrite E. split; [done|]. eauto.
Qed.

Lemma getNextTimer_mono now st st' :
  inv st → inv st' → 0 <= now →
  (∀ a y, heap st' !! a = Some y → manager_ y = true →
    ∃ b z, heap st !! b = Some z ∧ manager_ z = true ∧ next_ z <= next_ y) →
  getNextTimer now st <= getNextTimer now st'.
Proof.
  intros H H' Hnow Hall.
  destruct (getNextTimer_earliest now st H Hnow) as [Hle Hor].
  destruct (getNextTimer_earliest now st' H' Hnow) as [_ [[-> _]|(_&a&y&Hy&Hm&->)]].
  - destruct (timers_ st) as [|t l] eqn:E.
    + unfold getNextTimer. rewrite E. done.
    + destruct (getNextTimer_wait now st t l H Hnow E) as (x&_&_&->&?). lia.
  - destruct (Hall a y Hy Hm) as (b&z&Hz&Hmz&Hn). pose proof (Hle b z Hz Hmz).
    unfold wait in *.
    destruct (Z.leb_spec (next_ z) now), (Z.leb_spec (next_ y) now); lia.
Qed.

(** A timer that does not go to the front is not earlier than the front. *)
Lemma goes_first_false h t x l :
  h !! t = Some x → Forall (λ a, is_Some (h !! a)) l → goes_first h t l = false →
  ∃ a y, a ∈ l ∧ h !! a = Some y ∧ next_ y <= next_ x.
Proof.
  intros Hx Hl Hg. destruct l as [|a l]; [done|]. apply Forall_cons in Hl as [[y Hy] _].
  exists a, y. split; [set_solver|]. split; [done|]. simpl in Hg. apply less_false in Hg.
  destruct (Z.leb_spec (next_ y) (next_ x)); [done|]. destruct Hg. exists x, y.
  split_and!; try done. by left.
Qed.

Lemma moved_no_earlier next ms t x st now :
  inv st → heap st !! t = Some x → manager_ x = true →
  0 <= next < 2 ^ 64 → 0 <= ms < 2 ^ 63 → 0 <= now →
  (moved_timer t (rescheduled next ms x) st).1.2 = false →
  getNextTimer now st <= getNextTimer now (moved_timer t (rescheduled next ms x) st).2.
Proof.
  intros H Hx Hm Hn Hms Hnow Hg.
  pose proof (rescheduled_inv next ms t x st H Hx Hm Hn Hms) as Hi.
  apply getNextTimer_mono; try done. cbn in *.
  set (h := <[t := rescheduled next ms x]> (heap st)) in *.
  destruct (goes_first_false h t (rescheduled next ms x) (set_erase t (timers_ st)))
    as (b&z&Hb&Hz&Hle); [apply lookup_insert_eq| |done|].
  { apply Forall_forall. intros a [Ha ?]%set_erase_elem. unfold h. rewrite lookup_insert_ne by done.
    apply (inv_members st H) in Ha as (y&->&_). done. }
  apply set_erase_elem in Hb as [Hb Hne]. unfold h in Hz. rewrite lookup_insert_ne in Hz by done.
  apply (inv_members st H) in Hb as (z'&Hz'&Hmz). simplify_eq.
  intros a y Hy Hmy. apply lookup_insert_Some in Hy as [[<- <-]|[? Hy]].
  - by exists b, z'.
  - exists a, y. by split_and!.
Qed.

(** ** Main theorems *)

(** C37: the life of every timer, over any sequence of operations from a new
    manager at any times: the operations all return and keep the set ordered
    and in step with the timer objects; the callback of a one-shot timer is
    handed out at most once, and not at all when it is canceled; after a
    successful [cancel] no timer, recurring ones included, is ever handed out
    or canceled again. *)
Theorem timer_lifecycle os :
  Forall op_ok os → Z.of_nat (length os) < 2 ^ 64 →
  ∃ es st, run os make = Some (es, st) ∧ inv st ∧ ∀ t,
    (one_shot t st → (length (events_of t es) ≤ 1)%nat) ∧
    (∀ es1 es2, es = es1 ++ Canceled t :: es2 → events_of t es2 = []).
Proof.
  intros Hok Hlen. destruct (run_spec os make make_inv Hok) as (es&st&E&Hi&Ht); [simpl; lia|].
  exists es, st. split; [done|]. split; [done|]. intros t.
  destruct (Ht t) as (_&_&?&?). done.
Qed.

(** C38: in every state that operations with clocks and intervals below 2^63
    milliseconds reach from a new manager (for larger ones see
    [recurring_overflow_never_ends]), an expiry scan at [now] ends and hands out
    exactly the callbacks of the live timers whose deadline has come, each once,
    by deadline and then by creation; afterwards one-shot timers among them are
    dead, recurring ones are due one interval - at least a millisecond - after
    [now], all others are as they were, and nothing is due any more. *)
Theorem expiry_scan_exact os es st now :
  Forall op_ok os → Z.of_nat (length os) < 2 ^ 64 → run os make = Some (es, st) → 0 <= now < 2 ^ 63 →
  ∃ due st', listExpiredCallbacks now st = Some ((λ t, (t, heap st !! t ≫= cb_)) <$> due, st') ∧
    (∀ t, t ∈ due ↔ ∃ x, heap st !! t = Some x ∧ manager_ x = true ∧ next_ x <= now) ∧
    ordered (heap st) due ∧
    (∀ t, heap st' !! t = fire now <$> heap st !! t) ∧
    inv st' ∧ 0 < getNextTimer now st'.
Proof.
  intros Hok Hlen Hrun Hnow. assert (inv st) as H.
  { destruct (run_spec os make make_inv Hok) as (es'&st'&E&Hi&_); [simpl; lia|].
    rewrite Hrun in E. by injection E as _ <-. }
  destruct (scan_spec now st H Hnow) as (st'&E&Hi&Hh&_).
  exists (due_timers now st), st'. split; [done|]. split; [|split; [|split_and!; try done]].
  - intros t. by apply due_timers_elem.
  - by apply ordered_filter, inv_ordered.
  - destruct (getNextTimer_earliest now st' Hi ltac:(lia)) as [_ [[-> _]|(_&a&y&Hy&Hm&->)]];
      [done|].
    rewrite Hh in Hy. destruct (heap st !! a) as [x|] eqn:Hx; [|done].
    simpl in Hy. injection Hy as <-.
    pose proof (ok_ms _ _ (inv_timers st H a x Hx)). unfold fire, wait in *.
    destruct (manager_ x) eqn:Em; cbn [andb] in *; [|congruence].
    destruct (Z.leb_spec (next_ x) now) as [Hle|Hgt].
    + destruct (recurring_ x); cbn in *; [|done].
      rewrite (proj2 (Z.leb_gt _ _)); lia.
    + rewrite (proj2 (Z.leb_gt _ _)); lia.
Qed.

(** The event loop never oversleeps.  Unless an operation notifies it, the
    time to the next deadline, taken at any moment, is at least what it was
    before the operation, so a sleep computed before remains short enough. *)
Theorem no_oversleep o st now es st' :
  inv st → op_ok o → next_sequence_ st + 1 < 2 ^ 64 → 0 <= now →
  match o with Scan _ => False | _ => True end →
  step o st = Some (es, false, st') → getNextTimer now st <= getNextTimer now st'.
Proof.
  intros H Hok Hroom Hnow Hscan E. destruct o as [at_ ms f r|at_|t|at_ t|at_ t ms fn|];
    cbn [step op_ok] in *; try done.
  - destruct (addTimer_spec at_ ms f r st H (proj2 Hok) Hroom)
      as (Hnone&front&st1&Ea&Hi&Hh&Hf&Hts&_). rewrite Ea in E. simplify_eq.
    set (t := fresh (dom (heap st))) in *. set (x := mkTimer _ _ _ _ _ _ _) in Hh.
    assert (Forall (λ a, is_Some (heap st' !! a)) (timers_ st)) as Hl.
    { apply Forall_forall. intros a Ha. apply (inv_members st H) in Ha as (y&Hy&_).
      rewrite Hh, lookup_insert_ne by congruence. by rewrite Hy. }
    destruct (goes_first_false (heap st') t x (timers_ st)) as (b&z&Hb&Hz&Hle); try done.
    { by rewrite Hh, lookup_insert_eq. }
    apply (inv_members st H) in Hb as (z'&Hz'&Hmz).
    rewrite Hh, lookup_insert_ne in Hz by congruence. simplify_eq.
    apply getNextTimer_mono; try done. intros a y Hy Hmy. rewrite Hh in Hy.
    apply lookup_insert_Some in Hy as [[<- <-]|[? Hy]]; [by exists b, z'|].
    exists a, y. by split_and!.
  - destruct (cancel_spec t st H) as [(x&Hx&Hm&Ec)|[Ec Hd]]; rewrite Ec in E; simplify_eq; [|lia].
    apply getNextTimer_mono; [done|by apply detach_inv|done|]. intros a y Hy Hmy.
    cbn in Hy. apply lookup_insert_Some in Hy as [[<- <-]|[? Hy]]; [done|]. by exists a, y.
  - destruct (refresh_spec at_ t st H) as [(x&Hx&Hm&Er)|[Er Hd]]; rewrite Er in E; [|by simplify_eq].
    destruct (moved_timer t _ st) as [[res notify] st1] eqn:Em. simplify_eq.
    pose proof (ok_ms _ _ (inv_timers st H t x Hx)).
    assert (st' = (moved_timer t (rescheduled (wrap 64 (at_ + ms_ x)) (ms_ x) x) st).2) as ->
      by (by rewrite Em).
    apply moved_no_earlier; try done; [apply wrap_range; lia|by rewrite Em].
  - destruct (reset_spec at_ t ms fn st H) as [(x&Hx&Hm&Er)|[Er Hd]]; rewrite Er in E; [|by simplify_eq].
    destruct (moved_timer t _ st) as [[res notify] st1] eqn:Em. simplify_eq.
    assert (st' = (moved_timer t (rescheduled (reset_next at_ ms fn x) ms x) st).2) as ->
      by (by rewrite Em).
    apply moved_no_earlier; try done; [apply wrap_range; lia|apply Hok|by rewrite Em].
  - simplify_eq. destruct (clearTimers_spec st H) as [Hi Hh].
    apply getNextTimer_mono; try done. intros a y Hy Hm. rewrite Hh in Hy.
    destruct (heap st !! a) as [x|]; [|done]. simpl in Hy. injection Hy as <-.
    destruct (manager_ x) eqn:Em; [done|congruence].
Qed.
End lifecycle.

Lemma timer_lifecycle_witness :
  let os := [Add 0 10 (Call 1%nat) false; Add 0 5 (Call 2%nat) true; Scan 7; Cancel 1;
             Scan 30; Cancel 0] : list (op (callback := nat) (condition := nat)) in
  ∃ es st, run os make = Some (es, st) ∧
    es = [Fired 1 (Some (Call 2%nat)); Canceled 1; Fired 0 (Some (Call 1%nat))] ∧
    ∀ t, one_shot t st → (length (events_of t es) ≤ 1)%nat.
Proof.
  intros os. destruct (timer_lifecycle os) as (es&st&E&_&Ht).
  - repeat constructor; simpl; lia.
  - reflexivity.
  - exists es, st. split; [done|]. split; [vm_compute in E; congruence|]. intros t. apply Ht.
Defined.

(** A one-shot and a recurring timer are due, a third timer is not. *)
Lemma expiry_scan_exact_witness :
  let os := [Add 0 10 (Call 1%nat) false; Add 0 5 (Call 2%nat) true; Add 3 20 (Call 3%nat) false]
    : list (op (callback := nat) (condition := nat)) in
  let st := from_option snd make (run os make) in
  let after := from_option snd make (listExpiredCallbacks 12 st) in
  listExpiredCallbacks 12 st = Some ([(1%nat, Some (Call 2%nat)); (0%nat, Some (Call 1%nat))], after) ∧
  timers_ after = [1%nat; 2%nat] ∧ inv after ∧ 0 < getNextTimer 12 after.
Proof.
  intros os st after. assert (run os make = Some ([], st)) as Hrun by (vm_compute; reflexivity).
  destruct (expiry_scan_exact os [] st 12) as (due&st'&E&_&_&_&Hi&Hn).
  - repeat constructor; simpl; lia.
  - reflexivity.
  - exact Hrun.
  - lia.
  - assert (after = st') as -> by (unfold after; rewrite E; reflexivity).
    split; [|split; [|split; [exact Hi|exact Hn]]].
    + rewrite E. apply (f_equal (from_option fst [])) in E as E1. cbn [from_option fst] in E1.
      rewrite <- E1. vm_compute. reflexivity.
    + apply (f_equal (from_option snd make)) in E as E2. cbn [from_option snd] in E2.
      rewrite <- E2. vm_compute. reflexivity.
Defined.

Lemma no_oversleep_witness :
  getNextTimer 3 (@make nat nat) <= getNextTimer 3 (@make nat nat).
Proof.
  apply (no_oversleep (Cancel 0) (@make nat nat) 3 [] make).
  - apply make_inv.
  - done.
  - reflexivity.
  - lia.
  - done.
  - reflexivity.
Defined.

(** The deadline of a recurring timer wraps around.  With an interval that
    overflows the clock, the next deadline the scan computes lies in the past,
    and the scan, holding the lock, never ends: whatever the number of rounds,
    it has another to do. *)
Theorem recurring_overflow_never_ends :
  let '(_, _, st) := addTimer (condition := nat) 5 u64_max (Some (Call 0%nat)) true make in
  ∀ fuel, list_expired fuel 5 st = None.
Proof.
  set (s := mkTimerManager {[0%nat := mkTimer true u64_max 4 0 true false (Some (Call 0%nat))]}
    [0%nat] 1 : TimerManager nat nat).
  assert (∀ fuel, list_expired (S fuel) 5 s =
    ('(cbs, st3) ← list_expired fuel 5 s; Some ((0%nat, Some (Call 0%nat)) :: cbs, st3))) as Hs
    by reflexivity.
  assert (addTimer 5 u64_max (Some (Call 0%nat)) true make = (Some 0%nat, true, s)) as ->
    by (vm_compute; reflexivity).
  cbv iota. intros fuel. induction fuel as [|fuel IH]; [done|]. by rewrite Hs, IH.
Qed.
End TimerLifecycle.
