(* ===== verification/Uri.v ===== *)
(** [Uri] ([droplet/src/http/uri.cc], [droplet/include/droplet/http/uri.h]):
    the parser [Create], the accessors with the default ports, and the
    printer. *)

From S2P Require Import Prelude Http.
Import Http.

Module Uri.

(** ** Characters *)

Definition in_range (lo hi : Z) (b : byte) : bool := (lo <=? code b) && (code b <=? hi).

(** [std::isalpha], [std::isalnum] and [std::isxdigit] of the C locale. *)
Definition isalpha (b : byte) : bool := in_range 65 90 b || in_range 97 122 b.
Definition isalnum (b : byte) : bool := isalpha b || in_range 48 57 b.
Definition isxdigit (b : byte) : bool :=
  in_range 48 57 b || in_range 65 70 b || in_range 97 102 b.

Definition IsSchemeStart (value : byte) : bool := isalpha value.
Definition IsSchemeCharacter (value : byte) : bool :=
  isalnum value || Byte.eqb value "+" || Byte.eqb value "-" || Byte.eqb value ".".
Definition IsHexDigit (value : byte) : bool := isxdigit value.

(** The loop, which steps over the two digits of an escape. *)
Fixpoint IsValidUriText (text : str) : bool :=
  match text with
  | [] => true
  | value :: rest =>
      if (code value <=? 0x20) || (code value =? 0x7f) then false
      else if Byte.eqb value "%" then
        match rest with
        | h1 :: h2 :: rest' =>
            if negb (IsHexDigit h1) || negb (IsHexDigit h2) then false
            else IsValidUriText rest'
        | _ => false
        end
      else IsValidUriText rest
  end.

Definition ParsePort (text : str) : option Z :=
  match text with
  | [] => None
  | _ =>
      value ← from_chars_all 32 10 text;
      if u16_max <? value then None else Some value
  end.

Definition ToLowerAscii (value : str) : str := AsciiLower <$> value.

(** ** The object *)

Record Uri := mkUri {
  scheme_ : str;
  userinfo_ : str;
  host_ : str;
  path_ : str;
  query_ : str;
  fragment_ : str;
  port_ : Z;
  has_authority_ : bool;
}.

Definition make : Uri := mkUri [] [] [] [] [] [] (-1) false.

Definition setScheme (value : str) (u : Uri) : Uri :=
  mkUri (ToLowerAscii value) (userinfo_ u) (host_ u) (path_ u) (query_ u)
    (fragment_ u) (port_ u) (has_authority_ u).
Definition setUserinfo (value : str) (u : Uri) : Uri :=
  mkUri (scheme_ u) value (host_ u) (path_ u) (query_ u) (fragment_ u) (port_ u)
    (has_authority_ u).
Definition setHost (value : str) (u : Uri) : Uri :=
  mkUri (scheme_ u) (userinfo_ u) value (path_ u) (query_ u) (fragment_ u) (port_ u) true.
Definition setPath (value : str) (u : Uri) : Uri :=
  mkUri (scheme_ u) (userinfo_ u) (host_ u) value (query_ u) (fragment_ u) (port_ u)
    (has_authority_ u).
Definition setQuery (value : str) (u : Uri) : Uri :=
  mkUri (scheme_ u) (userinfo_ u) (host_ u) (path_ u) value (fragment_ u) (port_ u)
    (has_authority_ u).
Definition setFragment (value : str) (u : Uri) : Uri :=
  mkUri (scheme_ u) (userinfo_ u) (host_ u) (path_ u) (query_ u) value (port_ u)
    (has_authority_ u).
Definition setPort (value : Z) (u : Uri) : Uri :=
  mkUri (scheme_ u) (userinfo_ u) (host_ u) (path_ u) (query_ u) (fragment_ u) value
    (has_authority_ u).

Definition getPath (u : Uri) : str :=
  match path_ u with [] => $"/" | _ => path_ u end.

Definition is_scheme (u : Uri) (s : str) : bool := str_eqb (scheme_ u) s.

Definition getPort (u : Uri) : Z :=
  if 0 <=? port_ u then port_ u
  else if is_scheme u $"http" || is_scheme u $"ws" then 80
  else if is_scheme u $"https" || is_scheme u $"wss" then 443
  else -1.

Definition isDefaultPort (u : Uri) : bool :=
  if port_ u <? 0 then true
  else
    ((is_scheme u $"http" || is_scheme u $"ws") && (port_ u =? 80)) ||
    ((is_scheme u $"https" || is_scheme u $"wss") && (port_ u =? 443)).

(** ** Parsing *)

(** The part of [ParseAuthority] behind the user information. *)
Definition parse_host_port (host_port : str) (uri : Uri) : option Uri :=
  if starts_with $"[" host_port then
    match find_char "]" host_port with
    | None => None
    | Some closing =>
        if Nat.eqb closing 1 then None
        else
          let uri := setHost (substr host_port 1 (closing - 1)) uri in
          let suffix := drop (S closing) host_port in
          match suffix with
          | [] => Some uri
          | _ =>
              if negb (starts_with $":" suffix) then None
              else port ← ParsePort (drop 1 suffix); Some (setPort port uri)
          end
    end
  else
    match find_char "[" host_port, find_char "]" host_port with
    | None, None =>
        match rfind_char ":" host_port with
        | None => Some (setHost host_port uri)
        | Some colon =>
            if negb (bool_decide (find_char ":" host_port = Some colon)) then None
            else
              port ← ParsePort (drop (S colon) host_port);
              Some (setHost (take colon host_port) (setPort port uri))
        end
    | _, _ => None
    end.

Definition ParseAuthority (authority : str) (uri : Uri) : option Uri :=
  match rfind_char "@" authority with
  | Some at_ =>
      parse_host_port (drop (S at_) authority) (setUserinfo (take at_ authority) uri)
  | None => parse_host_port authority uri
  end.

(** The steps of [Create]: each takes its part off [hierarchy]. *)
Definition take_fragment (uri : Uri) (hierarchy : str) : Uri * str :=
  match find_char "#" hierarchy with
  | Some i => (setFragment (drop (S i) hierarchy) uri, take i hierarchy)
  | None => (uri, hierarchy)
  end.

Definition take_query (uri : Uri) (hierarchy : str) : Uri * str :=
  match find_char "?" hierarchy with
  | Some i => (setQuery (drop (S i) hierarchy) uri, take i hierarchy)
  | None => (uri, hierarchy)
  end.

Definition valid_scheme (scheme : str) : bool :=
  match scheme with
  | [] => false
  | c :: rest => IsSchemeStart c && forallb IsSchemeCharacter rest
  end.

(** [colon != npos && (slash == npos || colon < slash)]: the colon. *)
Definition scheme_colon (hierarchy : str) : option nat :=
  match find_char ":" hierarchy with
  | None => None
  | Some colon =>
      match find_char "/" hierarchy with
      | None => Some colon
      | Some slash => if (colon <? slash)%nat then Some colon else None
      end
  end.

Definition take_scheme (uri : Uri) (hierarchy : str) : option (Uri * str) :=
  match scheme_colon hierarchy with
  | Some colon =>
      let scheme := take colon hierarchy in
      if negb (valid_scheme scheme) then None
      else Some (setScheme scheme uri, drop (S colon) hierarchy)
  | None => Some (uri, hierarchy)
  end.

Definition take_authority (uri : Uri) (hierarchy : str) : option (Uri * str) :=
  if starts_with $"//" hierarchy then
    let hierarchy := drop 2 hierarchy in
    match find_char "/" hierarchy with
    | None => uri ← ParseAuthority hierarchy uri; Some (uri, [])
    | Some path_begin =>
        uri ← ParseAuthority (take path_begin hierarchy) uri;
        Some (uri, drop path_begin hierarchy)
    end
  else Some (uri, hierarchy).

Definition Create (text : str) : option Uri :=
  if negb (IsValidUriText text) then None
  else
    let '(uri, hierarchy) := take_fragment make text in
    let '(uri, hierarchy) := take_query uri hierarchy in
    '(uri, hierarchy) ← take_scheme uri hierarchy;
    '(uri, hierarchy) ← take_authority uri hierarchy;
    Some (setPath hierarchy uri).

(** ** Printing *)

Definition print_scheme (u : Uri) : str :=
  match scheme_ u with [] => [] | s => s ++ $":" end.

Definition print_host (u : Uri) : str :=
  match find_char ":" (host_ u) with
  | Some _ => $"[" ++ host_ u ++ $"]"
  | None => host_ u
  end.

Definition print_authority (u : Uri) : str :=
  if has_authority_ u then
    $"//" ++ (match userinfo_ u with [] => [] | s => s ++ $"@" end) ++ print_host u ++
    (if (0 <=? port_ u) && negb (isDefaultPort u) then $":" ++ to_dec (port_ u) else [])
  else [].

Definition print_path (u : Uri) : str :=
  match path_ u with
  | [] => if has_authority_ u then $"/" else []
  | s => s
  end.

Definition dump (u : Uri) : str :=
  print_scheme u ++ print_authority u ++ print_path u ++
  (match query_ u with [] => [] | s => $"?" ++ s end) ++
  (match fragment_ u with [] => [] | s => $"#" ++ s end).

Definition toString (u : Uri) : str := dump u.

(** [LookupAnyIPAddress] asks the resolver and [setPort] is a virtual method of
    the address; both are arguments. *)
Definition createAddress {A} (LookupAnyIPAddress : str → option A)
    (set_address_port : Z → A → A) (u : Uri) : option A :=
  match host_ u with
  | [] => None
  | _ =>
      address ← LookupAnyIPAddress (host_ u);
      let port := getPort u in
      if (port <? 0) || (u16_max <? port) then None
      else Some (set_address_port port address)
  end.

End Uri.
