(* ===== verification/UriRoundTrip.v ===== *)
(** Printing and parsing of a [Uri] are inverse to each other, up to the default
    port and the empty path behind an authority. *)

From S2P Require Import Prelude Http Uri.
Import Http Uri.

Module UriRoundTrip.

(** ** The text of a URI *)

(** A character that stands between the parts: it is no part of an escape. *)
Definition separator (c : byte) : Prop :=
  IsHexDigit c = false ∧ Byte.eqb c "%" = false ∧
  (code c <=? 0x20) || (code c =? 0x7f) = false.

Lemma IsValidUriText_cons_plain c s :
  separator c → IsValidUriText (c :: s) = IsValidUriText s.
Proof. intros (_&Hp&Hb). simpl. by rewrite Hb, Hp. Qed.

(** Validity is decided part by part. *)
Lemma IsValidUriText_split c : separator c → ∀ n p s,
  (length p ≤ n)%nat →
  IsValidUriText (p ++ c :: s) = IsValidUriText p && IsValidUriText s.
Proof.
  intros Hc. induction n as [|n IH]; intros p s Hn.
  { destruct p; [|simpl in Hn; lia]. by apply IsValidUriText_cons_plain. }
  destruct p as [|b p]; [by apply IsValidUriText_cons_plain|].
  simpl in Hn. cbn [app IsValidUriText].
  destruct ((code b <=? 0x20) || (code b =? 0x7f)); [done|].
  destruct (Byte.eqb b "%"); [|apply IH; lia].
  destruct Hc as (Hx&Hp&_).
  destruct p as [|h1 [|h2 p]]; cbn [app].
  - destruct s; [done|]. by rewrite Hx.
  - rewrite Hx. by destruct (IsHexDigit h1).
  - destruct (negb (IsHexDigit h1) || negb (IsHexDigit h2)); [done|].
    simpl in Hn. apply IH. lia.
Qed.

Lemma IsValidUriText_sep c p s :
  separator c → IsValidUriText (p ++ c :: s) = IsValidUriText p && IsValidUriText s.
Proof. intros Hc. by apply (IsValidUriText_split c Hc (length p)). Qed.

Lemma IsValidUriText_app_n n : ∀ p s,
  (length p ≤ n)%nat → IsValidUriText p = true → IsValidUriText (p ++ s) = IsValidUriText s.
Proof.
  induction n as [|n IH]; intros [|b p] s Hn; simpl in Hn; try done; [lia|].
  cbn [app IsValidUriText].
  destruct ((code b <=? 0x20) || (code b =? 0x7f)); [done|].
  destruct (Byte.eqb b "%"); [|intros; apply IH; [lia|done]].
  destruct p as [|h1 [|h2 p]]; try done. cbn [app]. simpl in Hn.
  destruct (negb (IsHexDigit h1) || negb (IsHexDigit h2)); [done|].
  intros; apply IH; [lia|done].
Qed.

Lemma IsValidUriText_app p s :
  IsValidUriText p = true → IsValidUriText s = true → IsValidUriText (p ++ s) = true.
Proof. intros Hp Hs. by rewrite (IsValidUriText_app_n (length p)). Qed.

Lemma IsValidUriText_plain s : Forall separator s → IsValidUriText s = true.
Proof.
  induction 1 as [|b s Hb _ IH]; [done|]. by rewrite IsValidUriText_cons_plain.
Qed.

(** Characters that are no escapes and valid wherever they stand. *)
Definition plain (b : byte) : Prop :=
  Byte.eqb b "%" = false ∧ (code b <=? 0x20) || (code b =? 0x7f) = false.

Lemma IsValidUriText_plains s : Forall plain s → IsValidUriText s = true.
Proof. induction 1 as [|b s [Hp Hb] _ IH]; [done|]. cbn [IsValidUriText]. by rewrite Hb, Hp. Qed.

Lemma digit_is_plain b : is_Some (digit_value 10 b) → plain b.
Proof. intros [d Hd]. revert d Hd. unfold plain. byte_cases b. Qed.

Lemma to_dec_plain z : 0 <= z → IsValidUriText (to_dec z) = true.
Proof.
  intros Hz. apply IsValidUriText_plains. eapply Forall_impl; [by apply to_dec_digits|].
  apply digit_is_plain.
Qed.

Lemma to_dec_avoids c z : 0 <= z → digit_value 10 c = None → c ∉ to_dec z.
Proof.
  intros Hz Hc Hin. pose proof (to_dec_digits z Hz) as Hd. rewrite Forall_forall in Hd.
  destruct (Hd c Hin) as [d E]. congruence.
Qed.

Definition colon : byte := ":"%byte.
Definition slash : byte := "/"%byte.

(** ** Schemes *)

Lemma scheme_char_facts b :
  IsSchemeCharacter b = true →
  IsSchemeCharacter (AsciiLower b) = true ∧ plain b ∧ b ≠ ":"%byte ∧ b ≠ "/"%byte ∧
  b ≠ "?"%byte ∧ b ≠ "#"%byte.
Proof. unfold plain. byte_cases b. Qed.

Lemma scheme_start_facts b :
  IsSchemeStart b = true → IsSchemeCharacter b = true ∧ IsSchemeStart (AsciiLower b) = true.
Proof. byte_cases b. Qed.

Lemma valid_scheme_chars s :
  valid_scheme s = true → Forall (λ b, IsSchemeCharacter b = true) s ∧ s ≠ [].
Proof.
  destruct s as [|b s]; [done|]. cbn [valid_scheme]. intros [Hb Hs]%andb_true_iff.
  split; [|done]. constructor; [by apply scheme_start_facts|].
  apply Forall_forall. intros c Hc. apply forallb_forall with (x := c) in Hs; [done|].
  by apply list_elem_of_In.
Qed.

Lemma valid_scheme_lower s : valid_scheme s = true → valid_scheme (ToLowerAscii s) = true.
Proof.
  destruct s as [|b s]; [done|]. cbn [valid_scheme ToLowerAscii fmap list_fmap].
  intros [Hb Hs]%andb_true_iff. apply andb_true_iff. split; [by apply scheme_start_facts|].
  apply forallb_forall. intros c Hc%list_elem_of_In.
  apply list_elem_of_fmap in Hc as (d&->&Hd). apply scheme_char_facts.
  apply forallb_forall with (x := d) in Hs; [done|]. by apply list_elem_of_In.
Qed.

Lemma scheme_avoids c s :
  valid_scheme s = true → IsSchemeCharacter c = false → c ∉ s.
Proof.
  intros [Hs _]%valid_scheme_chars Hc Hin. rewrite Forall_forall in Hs.
  specialize (Hs c Hin). congruence.
Qed.

Lemma scheme_text s : valid_scheme s = true → IsValidUriText s = true.
Proof.
  intros [Hs _]%valid_scheme_chars. apply IsValidUriText_plains.
  eapply Forall_impl; [done|]. intros b Hb. by apply scheme_char_facts.
Qed.

(** ** Well-formed URIs *)

(** The URIs whose text has them as its meaning. *)
Record uri_ok (u : Uri) : Prop := {
  ok_scheme : scheme_ u = [] ∨ valid_scheme (scheme_ u) = true ∧ lower (scheme_ u) = scheme_ u;
  ok_userinfo : IsValidUriText (userinfo_ u) = true ∧
    "/"%byte ∉ userinfo_ u ∧ "?"%byte ∉ userinfo_ u ∧ "#"%byte ∉ userinfo_ u;
  ok_host : IsValidUriText (host_ u) = true ∧ "/"%byte ∉ host_ u ∧ "?"%byte ∉ host_ u ∧
    "#"%byte ∉ host_ u ∧ "@"%byte ∉ host_ u ∧ "]"%byte ∉ host_ u;
  ok_path : IsValidUriText (path_ u) = true ∧ "?"%byte ∉ path_ u ∧ "#"%byte ∉ path_ u;
  ok_query : IsValidUriText (query_ u) = true ∧ "#"%byte ∉ query_ u;
  ok_fragment : IsValidUriText (fragment_ u) = true;
  ok_port : port_ u = -1 ∨ 0 <= port_ u <= u16_max;
  ok_authority : has_authority_ u = true → path_ u = [] ∨ starts_with $"/" (path_ u) = true;
  ok_no_authority : has_authority_ u = false →
    userinfo_ u = [] ∧ host_ u = [] ∧ port_ u = -1 ∧ starts_with $"//" (path_ u) = false ∧
    (scheme_ u = [] → scheme_colon (path_ u) = None);
}.

(** A host that printing brackets, or that has no bracket of its own. *)
Definition host_prints (u : Uri) : Prop := ":"%byte ∈ host_ u ∨ "["%byte ∉ host_ u.

(** What printing forgets: the default port and the empty path. *)
Definition normal (u : Uri) : Uri :=
  mkUri (scheme_ u) (userinfo_ u) (host_ u) (print_path u) (query_ u) (fragment_ u)
    (if isDefaultPort u then -1 else port_ u) (has_authority_ u).

(** ** Parsing what was printed *)

Definition part (c : byte) (s : str) : str := match s with [] => [] | _ => c :: s end.

Lemma take_fragment_part u p f :
  "#"%byte ∉ p → fragment_ u = [] →
  take_fragment u (p ++ part "#" f) = (setFragment f u, p).
Proof.
  intros Hp Hf. unfold take_fragment. destruct f as [|b f]; simpl.
  - rewrite app_nil_r, (proj2 (find_char_None _ _) Hp). destruct u. simpl in Hf. by subst.
  - rewrite find_char_here by done. rewrite take_app_length.
    rewrite drop_app_ge by lia. replace (S (length p) - length p)%nat with 1%nat by lia. done.
Qed.

Lemma take_query_part u p q :
  "?"%byte ∉ p → query_ u = [] → take_query u (p ++ part "?" q) = (setQuery q u, p).
Proof.
  intros Hp Hf. unfold take_query. destruct q as [|b q]; simpl.
  - rewrite app_nil_r, (proj2 (find_char_None _ _) Hp). destruct u. simpl in Hf. by subst.
  - rewrite find_char_here by done. rewrite take_app_length.
    rewrite drop_app_ge by lia. replace (S (length p) - length p)%nat with 1%nat by lia. done.
Qed.

Lemma scheme_colon_here s rest :
  ":"%byte ∉ s → "/"%byte ∉ s → scheme_colon (s ++ colon :: rest) = Some (length s).
Proof.
  intros Hc Hs. unfold scheme_colon. rewrite find_char_here by done.
  rewrite find_char_skip by done. cbn [find_char].
  destruct (find_char "/" rest) as [i|]; simpl; [|done].
  by rewrite (proj2 (Nat.ltb_lt _ _)) by lia.
Qed.

Lemma take_scheme_printed u v rest :
  scheme_ v = [] ∧ scheme_colon rest = None ∨
    valid_scheme (scheme_ v) = true ∧ lower (scheme_ v) = scheme_ v →
  scheme_ u = [] →
  take_scheme u (print_scheme v ++ rest) =
    Some (mkUri (scheme_ v) (userinfo_ u) (host_ u) (path_ u) (query_ u) (fragment_ u)
      (port_ u) (has_authority_ u), rest).
Proof.
  intros [[E Hn]|[Hv Hl]] Hu; unfold take_scheme.
  - unfold print_scheme. rewrite E. cbn [app]. rewrite Hn. destruct u. simpl in Hu. by subst.
  - assert (print_scheme v ++ rest = scheme_ v ++ colon :: rest) as ->.
    { unfold print_scheme. destruct (scheme_ v); [done|]. by rewrite <- app_assoc. }
    set (s := scheme_ v) in *.
    rewrite scheme_colon_here by (by apply scheme_avoids).
    rewrite take_app_length, Hv. cbn [negb].
    rewrite drop_app_ge by lia. replace (S (length s) - length s)%nat with 1%nat by lia.
    unfold setScheme, ToLowerAscii. fold (lower s). by rewrite Hl.
Qed.

Lemma rfind_at_here p r :
  "@"%byte ∉ r → rfind_char "@" (p ++ "@"%byte :: r) = Some (length p).
Proof. intros Hr. apply rfind_char_Some. by exists p, r. Qed.

Lemma ParsePort_to_dec z : 0 <= z <= u16_max → ParsePort (to_dec z) = Some z.
Proof.
  intros Hz. unfold ParsePort, u16_max in *. destruct (to_dec z) eqn:E.
  - destruct (scan_to_dec z ltac:(lia)) as (k&Hk&Hl&_). rewrite E in Hl. simpl in Hl. lia.
  - rewrite <- E, from_chars_to_dec by lia. simpl. by rewrite (proj2 (Z.ltb_ge _ _)) by lia.
Qed.

(** The port as it is printed. *)
Definition port_text (port : option Z) : str :=
  match port with None => [] | Some z => colon :: to_dec z end.

Lemma parse_bracketed u h port :
  "]"%byte ∉ h → h ≠ [] → (∀ z, port = Some z → 0 <= z <= u16_max) →
  parse_host_port ($"[" ++ h ++ $"]" ++ port_text port) u =
    Some (match port with None => setHost h u | Some z => setPort z (setHost h u) end).
Proof.
  intros Hh Hne Hport. unfold parse_host_port. cbn [starts_with lit app].
  change ($"[" ++ h ++ $"]" ++ port_text port) with ("["%byte :: h ++ "]"%byte :: port_text port).
  cbn [starts_with String.list_byte_of_string]. change (starts_with $"[" _) with true. cbv iota.
  assert (find_char "]" ("["%byte :: h ++ "]"%byte :: port_text port) = Some (S (length h))) as ->.
  { apply (find_char_here "]" ("["%byte :: h)). by apply not_elem_of_cons. }
  rewrite (proj2 (Nat.eqb_neq _ _)) by (destruct h; simpl; [done|lia]). cbv zeta.
  assert (substr ("["%byte :: h ++ "]"%byte :: port_text port) 1 (S (length h) - 1) = h) as ->.
  { unfold substr. cbn [drop]. rewrite drop_0. replace (S (length h) - 1)%nat with (length h) by lia.
    apply take_app_length. }
  assert (drop (S (S (length h))) ("["%byte :: h ++ "]"%byte :: port_text port) = port_text port) as ->.
  { cbn [drop]. rewrite drop_app_ge by lia. by replace (S (length h) - length h)%nat with 1%nat by lia. }
  destruct port as [z|]; [|done]. cbn [port_text].
  change (starts_with $":" (colon :: to_dec z)) with true. cbn [negb drop]. rewrite drop_0.
  by rewrite ParsePort_to_dec by (by apply Hport).
Qed.

Lemma parse_bare u h port :
  ":"%byte ∉ h → "["%byte ∉ h → "]"%byte ∉ h →
  (∀ z, port = Some z → 0 <= z <= u16_max) →
  parse_host_port (h ++ port_text port) u =
    Some (match port with None => setHost h u | Some z => setHost h (setPort z u) end).
Proof.
  intros Hc Ho Hcl Hport. unfold parse_host_port.
  assert ("["%byte ∉ h ++ port_text port ∧ "]"%byte ∉ h ++ port_text port) as [Ho' Hcl'].
  { rewrite !not_elem_of_app. unfold port_text. destruct port as [z|]; [|by set_solver].
    rewrite !not_elem_of_cons. specialize (Hport z eq_refl).
    split_and!; try done; apply to_dec_avoids; (lia || done). }
  assert (starts_with $"[" (h ++ port_text port) = false) as ->.
  { destruct (h ++ port_text port) as [|b t]; [done|].
    change (Byte.eqb "[" b && true = false). apply not_elem_of_cons in Ho' as [Hb _].
    by rewrite (proj2 (byte_eqb_neq _ _)). }
  rewrite (proj2 (find_char_None _ _) Ho'), (proj2 (find_char_None _ _) Hcl').
  destruct port as [z|]; cbn [port_text] in *.
  - assert (":"%byte ∉ to_dec z) as Hz by (apply to_dec_avoids; [specialize (Hport z eq_refl); lia|done]).
    assert (rfind_char ":" (h ++ colon :: to_dec z) = Some (length h)) as ->
      by (apply rfind_char_Some; by exists h, (to_dec z)).
    rewrite find_char_here by done. rewrite bool_decide_eq_true_2 by done. cbn [negb].
    rewrite drop_app_ge by lia. replace (S (length h) - length h)%nat with 1%nat by lia.
    cbn [drop]. rewrite drop_0, ParsePort_to_dec by (by apply Hport). simpl.
    by rewrite take_app_length.
  - rewrite app_nil_r. by rewrite (proj2 (rfind_char_None _ _) Hc).
Qed.

Definition user_text (user : str) : str :=
  match user with [] => [] | s => s ++ $"@" end.

Lemma parse_authority_printed u user text :
  "@"%byte ∉ text → userinfo_ u = [] →
  ParseAuthority (user_text user ++ text) u =
  parse_host_port text (setUserinfo user u).
Proof.
  intros Ht Hu. unfold ParseAuthority. destruct user as [|b user].
  - change (user_text [] ++ text) with text.
    rewrite (proj2 (rfind_char_None _ _) Ht). f_equal. destruct u. simpl in Hu. by subst.
  - cbn [user_text]. rewrite <- app_assoc. change ($"@" ++ text) with ("@"%byte :: text).
    rewrite rfind_at_here by done. rewrite take_app_length, drop_app_ge by lia.
    by replace (S (length (b :: user)) - length (b :: user))%nat with 1%nat by lia.
Qed.

Definition printed_port (u : Uri) : option Z :=
  if isDefaultPort u then None else Some (port_ u).

Lemma printed_port_range u z : uri_ok u → printed_port u = Some z → 0 <= z <= u16_max.
Proof.
  intros H. unfold printed_port. destruct (isDefaultPort u) eqn:E; [done|]. intros [= <-].
  destruct (ok_port u H) as [Hp|]; [|done]. unfold isDefaultPort in E. by rewrite Hp in E.
Qed.

Lemma print_port_text u :
  (if (0 <=? port_ u) && negb (isDefaultPort u) then $":" ++ to_dec (port_ u) else []) =
  port_text (printed_port u).
Proof.
  unfold printed_port. destruct (isDefaultPort u) eqn:E; [by rewrite andb_false_r|].
  unfold isDefaultPort in E. destruct (Z.ltb_spec (port_ u) 0); [done|].
  by rewrite (proj2 (Z.leb_le _ _)).
Qed.

Lemma port_text_avoids c port :
  (∀ z, port = Some z → 0 <= z <= u16_max) → digit_value 10 c = None → c ≠ ":"%byte →
  c ∉ port_text port.
Proof.
  intros Hp Hd Hc. destruct port as [z|]; simpl; [|by set_solver].
  apply not_elem_of_cons. split; [done|]. apply to_dec_avoids; [|done].
  specialize (Hp z eq_refl). lia.
Qed.

Lemma port_text_valid port :
  (∀ z, port = Some z → 0 <= z <= u16_max) → IsValidUriText (port_text port) = true.
Proof.
  intros Hp. destruct port as [z|]; [|done]. cbn [port_text].
  rewrite IsValidUriText_cons_plain by done. apply to_dec_plain. specialize (Hp z eq_refl). lia.
Qed.

Definition authority_text (u : Uri) : str :=
  user_text (userinfo_ u) ++ print_host u ++ port_text (printed_port u).

Lemma print_host_avoids c u :
  c ∉ host_ u → c ≠ "["%byte → c ≠ "]"%byte → c ∉ print_host u.
Proof.
  intros Hc Ho Hcl. unfold print_host. destruct (find_char ":" (host_ u)); [|done].
  rewrite !not_elem_of_app. split_and!; [|done|]; vm_compute; set_solver.
Qed.

Lemma authority_text_avoids c u :
  uri_ok u → c ∈ [ "/"%byte; "?"%byte; "#"%byte ] → c ∉ authority_text u.
Proof.
  intros H Hin. destruct (ok_userinfo u H) as (_&U1&U2&U3).
  destruct (ok_host u H) as (_&H1&H2&H3&_&_).
  assert (c ∉ userinfo_ u ∧ c ∉ host_ u ∧ c ≠ "@"%byte ∧ c ≠ "["%byte ∧ c ≠ "]"%byte ∧
    digit_value 10 c = None ∧ c ≠ ":"%byte) as (Hu&Hh&?&?&?&?&?).
  { rewrite !elem_of_cons, elem_of_nil in Hin. destruct Hin as [->|[->|[->|[]]]]; done. }
  unfold authority_text. rewrite !not_elem_of_app. split_and!.
  - unfold user_text. destruct (userinfo_ u); [set_solver|]. rewrite not_elem_of_app. split; [done|].
    vm_compute. set_solver.
  - by apply print_host_avoids.
  - apply port_text_avoids; try done. intros z. by apply printed_port_range.
Qed.

(** The authority is parsed back. *)
Lemma ParseAuthority_printed u v :
  uri_ok u → host_prints u → userinfo_ v = [] → port_ v = -1 →
  ParseAuthority (authority_text u) v =
    Some (mkUri (scheme_ v) (userinfo_ u) (host_ u) (path_ v) (query_ v) (fragment_ v)
      (default (-1) (printed_port u)) true).
Proof.
  intros H Hp Hv Hvp. pose proof (ok_host u H) as (_&_&_&_&Hat&Hcl).
  assert (∀ z, printed_port u = Some z → 0 <= z <= u16_max) as Hport
    by (intros z; by apply printed_port_range).
  unfold authority_text. rewrite parse_authority_printed; [|by rewrite not_elem_of_app;
    split; [apply print_host_avoids|apply port_text_avoids]|done].
  unfold print_host. destruct (find_char ":" (host_ u)) as [i|] eqn:E.
  - rewrite <- !app_assoc, parse_bracketed; [|done| |done].
    + destruct (printed_port u); unfold setPort, setHost, setUserinfo; simpl; by rewrite ?Hvp.
    + intros Hn. by rewrite Hn in E.
  - apply find_char_None in E. rewrite parse_bare; [|done| |done|done].
    + destruct (printed_port u); unfold setPort, setHost, setUserinfo; simpl; by rewrite ?Hvp.
    + by destruct Hp.
Qed.

Lemma take_authority_here text path u :
  "/"%byte ∉ text → starts_with $"/" path = true →
  take_authority u ($"//" ++ text ++ path) = (v ← ParseAuthority text u; Some (v, path)).
Proof.
  intros Ht Hp. unfold take_authority. change (starts_with $"//" ($"//" ++ _)) with true.
  cbv zeta iota. change (drop 2 ($"//" ++ text ++ path)) with (text ++ path).
  destruct path as [|b path]; [done|]. change (Byte.eqb "/" b && true = true) in Hp.
  rewrite andb_true_r in Hp. apply byte_eqb_eq in Hp as <-.
  by rewrite find_char_here, take_app_length, drop_app_length by done.
Qed.

Lemma print_path_authority u :
  uri_ok u → has_authority_ u = true → starts_with $"/" (print_path u) = true.
Proof.
  intros H Ha. unfold print_path. rewrite Ha.
  destruct (ok_authority u H Ha) as [->|Hs]; [done|]. by destruct (path_ u).
Qed.

Lemma print_path_facts u :
  uri_ok u → IsValidUriText (print_path u) = true ∧ "?"%byte ∉ print_path u ∧
  "#"%byte ∉ print_path u.
Proof.
  intros H. pose proof (ok_path u H). unfold print_path. destruct (path_ u); [|done].
  destruct (has_authority_ u); [|split_and!; (done || set_solver)].
  split_and!; [done|vm_compute; set_solver..].
Qed.

Lemma print_authority_text u :
  print_authority u = if has_authority_ u then $"//" ++ authority_text u else [].
Proof.
  unfold print_authority, authority_text. destruct (has_authority_ u); [|done].
  rewrite print_port_text. unfold user_text. by destruct (userinfo_ u).
Qed.

(** ** The whole text *)

Lemma part_eq c s : (match s with [] => [] | _ => [c] ++ s end) = part c s.
Proof. by destruct s. Qed.

(** The text without query and fragment. *)
Definition hierarchy_text (u : Uri) : str := print_scheme u ++ print_authority u ++ print_path u.

Lemma dump_text u :
  dump u = (hierarchy_text u ++ part "?" (query_ u)) ++ part "#" (fragment_ u).
Proof.
  unfold dump, hierarchy_text. rewrite <- !app_assoc. do 3 f_equal.
  by destruct (query_ u), (fragment_ u).
Qed.

Lemma scheme_text_facts u :
  uri_ok u → IsValidUriText (print_scheme u) = true ∧
  "?"%byte ∉ print_scheme u ∧ "#"%byte ∉ print_scheme u.
Proof.
  intros H. unfold print_scheme.
  destruct (ok_scheme u H) as [->|[Hv _]]; [split_and!; (done || set_solver)|].
  destruct (scheme_ u) as [|b s] eqn:E; [done|]. rewrite <- E in *. split_and!.
  - apply IsValidUriText_app; [by apply scheme_text|done].
  - apply not_elem_of_app. split; [by apply scheme_avoids|vm_compute; set_solver].
  - apply not_elem_of_app. split; [by apply scheme_avoids|vm_compute; set_solver].
Qed.

Lemma authority_text_valid u : uri_ok u → IsValidUriText (authority_text u) = true.
Proof.
  intros H. destruct (ok_userinfo u H) as [Hu _]. destruct (ok_host u H) as [Hh _].
  unfold authority_text. repeat apply IsValidUriText_app.
  - unfold user_text. destruct (userinfo_ u) as [|b s] eqn:E; [done|]. rewrite <- E in *.
    by apply IsValidUriText_app.
  - unfold print_host. destruct (find_char ":" (host_ u)); [|done].
    by repeat apply IsValidUriText_app.
  - apply port_text_valid. intros z. by apply printed_port_range.
Qed.

Lemma print_authority_facts u :
  uri_ok u → IsValidUriText (print_authority u) = true ∧
  "?"%byte ∉ print_authority u ∧ "#"%byte ∉ print_authority u.
Proof.
  intros H. rewrite print_authority_text.
  destruct (has_authority_ u); [|split_and!; (done || set_solver)]. split_and!.
  - apply IsValidUriText_app; [done|by apply authority_text_valid].
  - apply not_elem_of_app. split; [vm_compute; set_solver|].
    apply authority_text_avoids; [done|set_solver].
  - apply not_elem_of_app. split; [vm_compute; set_solver|].
    apply authority_text_avoids; [done|set_solver].
Qed.

Lemma part_valid c s :
  separator c → IsValidUriText s = true → IsValidUriText (part c s) = true.
Proof. intros Hc Hs. destruct s; [done|]. unfold part. by rewrite IsValidUriText_cons_plain. Qed.

Lemma dump_valid u : uri_ok u → IsValidUriText (dump u) = true.
Proof.
  intros H. rewrite dump_text. unfold hierarchy_text.
  repeat apply IsValidUriText_app.
  - by apply scheme_text_facts.
  - by apply print_authority_facts.
  - by apply print_path_facts.
  - apply part_valid; [done|apply H].
  - apply part_valid; [done|apply H].
Qed.

Lemma scheme_colon_path u :
  uri_ok u → scheme_ u = [] → scheme_colon (print_authority u ++ print_path u) = None.
Proof.
  intros H Hs. destruct (has_authority_ u) eqn:Ha.
  - rewrite print_authority_text, Ha.
    change (($"//" ++ authority_text u) ++ print_path u)
      with (slash :: slash :: authority_text u ++ print_path u).
    unfold scheme_colon. destruct (find_char ":" _) as [i|] eqn:E; [|done].
    assert (find_char "/" (slash :: slash :: authority_text u ++ print_path u) = Some 0%nat) as ->
      by done.
    done.
  - destruct (ok_no_authority u H Ha) as (_&_&_&_&Hc). rewrite print_authority_text, Ha.
    unfold print_path. rewrite Ha. specialize (Hc Hs). by destruct (path_ u).
Qed.

(** Parsing what was printed gives the URI in its normal form. *)
Lemma Create_dump u : uri_ok u → host_prints u → Create (dump u) = Some (normal u).
Proof.
  intros H Hp. unfold Create. rewrite dump_valid by done. cbn [negb].
  destruct (scheme_text_facts u H) as (_&Sq&Sf).
  destruct (print_authority_facts u H) as (_&Aq&Af).
  destruct (print_path_facts u H) as (_&Pq&Pf). destruct (ok_query u H) as [_ Qf].
  assert ("?"%byte ∉ hierarchy_text u ∧ "#"%byte ∉ hierarchy_text u) as [Hq Hf]
    by (unfold hierarchy_text; by rewrite !not_elem_of_app).
  rewrite dump_text, take_fragment_part, take_query_part; try done.
  2:{ apply not_elem_of_app. split; [done|]. unfold part.
      destruct (query_ u); [set_solver|]. by apply not_elem_of_cons. }
  unfold hierarchy_text. pose proof (scheme_colon_path u H) as Hc.
  rewrite take_scheme_printed; [|destruct (ok_scheme u H); auto|done].
  cbn [mbind option_bind]. rewrite print_authority_text.
  destruct (has_authority_ u) eqn:Ha.
  - rewrite <- app_assoc, take_authority_here; [|by apply authority_text_avoids; [|set_solver]|
      by apply print_path_authority].
    rewrite ParseAuthority_printed by done. cbn [mbind option_bind]. f_equal.
    unfold normal, setPath, printed_port. cbn. rewrite Ha. by destruct (isDefaultPort u).
  - destruct (ok_no_authority u H Ha) as (Hu&Hh&Hpo&Hs&_). cbn [app]. unfold take_authority.
    assert (print_path u = path_ u) as Ep
      by (unfold print_path; rewrite Ha; by destruct (path_ u)).
    rewrite Ep, Hs. cbn [mbind option_bind]. f_equal.
    unfold normal, setPath. cbn. rewrite Ha, Hu, Hh, Ep. unfold isDefaultPort. by rewrite Hpo.
Qed.

(** ** What the parser accepts *)

(** A piece of a text: valid when the text is, with no character of its own. *)
Definition piece (t s : str) : Prop :=
  IsValidUriText t = true ∧ ∀ c, c ∉ s → c ∉ t.

Lemma piece_trans t1 t2 t3 : piece t1 t2 → piece t2 t3 → piece t1 t3.
Proof. unfold piece. naive_solver. Qed.

Lemma piece_refl t : IsValidUriText t = true → piece t t.
Proof. done. Qed.

(** The two sides of a separator. *)
Lemma piece_sides p c r :
  separator c → IsValidUriText (p ++ c :: r) = true →
  piece p (p ++ c :: r) ∧ piece r (p ++ c :: r).
Proof.
  intros Hc. rewrite IsValidUriText_sep by done. intros [Hp Hr]%andb_true_iff.
  split; (split; [done|]); intros d; rewrite not_elem_of_app, not_elem_of_cons; tauto.
Qed.

Lemma drop_sep (p r : str) c : drop (S (length p)) (p ++ c :: r) = r.
Proof. rewrite drop_app_ge by lia. by replace (S (length p) - length p)%nat with 1%nat by lia. Qed.

Lemma take_fragment_inv u s u' h :
  take_fragment u s = (u', h) → IsValidUriText s = true → fragment_ u = [] →
  ∃ f, u' = setFragment f u ∧ IsValidUriText f = true ∧ piece h s ∧ "#"%byte ∉ h.
Proof.
  unfold take_fragment. intros E Hs Hu.
  destruct (find_char "#" s) as [i|] eqn:Ei; simplify_eq.
  - apply find_char_Some in Ei as (p&r&->&<-&Hp).
    rewrite drop_sep, take_app_length.
    destruct (piece_sides p "#" r ltac:(done) Hs) as [Pp Pr].
    exists r. split_and!; try done. apply Pr.
  - apply find_char_None in Ei. exists []. split_and!; try done.
    destruct u'. simpl in *. by subst.
Qed.

Lemma take_query_inv u s u' h :
  take_query u s = (u', h) → IsValidUriText s = true → query_ u = [] →
  ∃ q, u' = setQuery q u ∧ (q = [] ∨ piece q s) ∧ piece h s ∧ "?"%byte ∉ h.
Proof.
  unfold take_query. intros E Hs Hu.
  destruct (find_char "?" s) as [i|] eqn:Ei; simplify_eq.
  - apply find_char_Some in Ei as (p&r&->&<-&Hp).
    rewrite drop_sep, take_app_length.
    destruct (piece_sides p "?" r ltac:(done) Hs) as [Pp Pr].
    exists r. split_and!; try done. by right.
  - apply find_char_None in Ei. exists []. split_and!; try done; [|by left].
    destruct u'. simpl in *. by subst.
Qed.

Lemma take_scheme_inv u s u' h :
  take_scheme u s = Some (u', h) → IsValidUriText s = true → scheme_ u = [] →
  ∃ sc, u' = mkUri sc (userinfo_ u) (host_ u) (path_ u) (query_ u) (fragment_ u) (port_ u)
      (has_authority_ u) ∧ piece h s ∧
    (sc = [] ∧ scheme_colon h = None ∨ valid_scheme sc = true ∧ lower sc = sc).
Proof.
  unfold take_scheme. intros E Hs Hu. destruct (scheme_colon s) as [i|] eqn:Ei.
  - assert (find_char ":" s = Some i) as Ec
      by (unfold scheme_colon in Ei; repeat case_in Ei; congruence).
    apply find_char_Some in Ec as (p&r&->&<-&Hp). rewrite take_app_length, drop_sep in E.
    destruct (valid_scheme p) eqn:Ev; [|done]. cbn [negb] in E. simplify_eq.
    destruct (piece_sides p ":" h ltac:(done) Hs) as [Pp Pr].
    exists (ToLowerAscii p). split_and!; try done. right.
    split; [by apply valid_scheme_lower|]. apply lower_idemp.
  - simplify_eq. exists []. split_and!; try done; [|by left]. destruct u'. simpl in *. by subst.
Qed.

Lemma ParsePort_range s z : ParsePort s = Some z → 0 <= z <= u16_max.
Proof.
  unfold ParsePort. destruct s as [|b s]; [done|].
  destruct (from_chars_all 32 10 (b :: s)) as [v|] eqn:E; [|done]. simpl.
  destruct (Z.ltb_spec u16_max v); [done|]. intros [= <-].
  apply from_chars_all_range in E; lia.
Qed.

(** The parts [parse_host_port] sets. *)
Lemma parse_host_port_inv s u u' :
  parse_host_port s u = Some u' → IsValidUriText s = true → port_ u = -1 →
  ∃ h z, u' = mkUri (scheme_ u) (userinfo_ u) h (path_ u) (query_ u) (fragment_ u) z true ∧
    piece h s ∧ "]"%byte ∉ h ∧ (z = -1 ∨ 0 <= z <= u16_max).
Proof.
  intros E Hs Hu. unfold parse_host_port in E. destruct (starts_with $"[" s) eqn:Eb.
  - destruct (find_char "]" s) as [i|] eqn:Ei; [|done].
    destruct (Nat.eqb_spec i 1) as [|Hi]; [done|]. cbv zeta in E.
    apply find_char_Some in Ei as (p&r&->&<-&Hp).
    destruct p as [|b p]; [done|]. change (Byte.eqb "[" b && true = true) in Eb.
    rewrite andb_true_r in Eb. apply byte_eqb_eq in Eb as <-.
    change (("["%byte :: p) ++ "]"%byte :: r) with ("["%byte :: p ++ "]"%byte :: r) in *.
    assert (drop (S (length ("["%byte :: p))) ("["%byte :: p ++ "]"%byte :: r) = r) as Ed
      by apply (drop_sep ("["%byte :: p) r).
    assert (substr ("["%byte :: p ++ "]"%byte :: r) 1 (length ("["%byte :: p) - 1) = p) as Es.
    { unfold substr. cbn [drop length]. rewrite drop_0.
      replace (S (length p) - 1)%nat with (length p) by lia. apply take_app_length. }
    rewrite Ed, Es in E. rewrite IsValidUriText_cons_plain in Hs by done.
    destruct (piece_sides p "]" r ltac:(done) Hs) as [[Vp Cp] _].
    assert (piece p ("["%byte :: p ++ "]"%byte :: r)) as Pp.
    { split; [done|]. intros c [_ Hc]%not_elem_of_cons. by apply Cp. }
    apply not_elem_of_cons in Hp as [_ Hp].
    destruct r as [|c r]; simplify_eq.
    + exists p, (-1). split_and!; try done; [|by left]. unfold setHost. by rewrite Hu.
    + destruct (starts_with $":" (c :: r)); [|done]. cbn [negb] in E.
      destruct (ParsePort (drop 1 (c :: r))) as [z|] eqn:Ez; [|done]. simpl in E. simplify_eq.
      exists p, z. split_and!; try done. right. by eapply ParsePort_range.
  - destruct (find_char "[" s) eqn:E1; [done|]. destruct (find_char "]" s) eqn:E2; [done|].
    apply find_char_None in E2.
    destruct (rfind_char ":" s) as [i|] eqn:Er; simplify_eq.
    + destruct (bool_decide (find_char ":" s = Some i)) eqn:Ef; [|done]. cbn [negb] in E.
      apply rfind_char_Some in Er as (p&r&->&<-&Hr). rewrite drop_sep, take_app_length in E.
      destruct (ParsePort r) as [z|] eqn:Ez; [|done]. simpl in E. simplify_eq.
      destruct (piece_sides p ":" r ltac:(done) Hs) as [Pp _].
      exists p, z. split_and!; try done; [by apply Pp|]. right. by eapply ParsePort_range.
    + exists s, (-1). split_and!; try done; [|by left]. unfold setHost. by rewrite Hu.
Qed.

Lemma ParseAuthority_inv s u u' :
  ParseAuthority s u = Some u' → IsValidUriText s = true → port_ u = -1 → userinfo_ u = [] →
  ∃ i h z, u' = mkUri (scheme_ u) i h (path_ u) (query_ u) (fragment_ u) z true ∧
    (i = [] ∨ piece i s) ∧ piece h s ∧ "@"%byte ∉ h ∧ "]"%byte ∉ h ∧
    (z = -1 ∨ 0 <= z <= u16_max).
Proof.
  intros E Hs Hp Hu. unfold ParseAuthority in E. destruct (rfind_char "@" s) as [k|] eqn:Ek.
  - apply rfind_char_Some in Ek as (p&r&->&<-&Hr). rewrite drop_sep, take_app_length in E.
    destruct (piece_sides p "@" r ltac:(done) Hs) as [Pp Pr].
    apply parse_host_port_inv in E as (h&z&->&Ph&Hcl&Hz); [|apply Pr|done].
    exists p, h, z. split_and!; try done; [by right|by eapply piece_trans|by apply Ph].
  - apply rfind_char_None in Ek.
    apply parse_host_port_inv in E as (h&z&->&Ph&Hcl&Hz); [|done|done].
    exists [], h, z. rewrite Hu. split_and!; try done; [by left|by apply Ph].
Qed.

Lemma take_authority_inv h u u' p :
  take_authority u h = Some (u', p) → IsValidUriText h = true →
  port_ u = -1 → userinfo_ u = [] →
  (starts_with $"//" h = false ∧ u' = u ∧ p = h) ∨
  (∃ i host z, u' = mkUri (scheme_ u) i host (path_ u) (query_ u) (fragment_ u) z true ∧
    (i = [] ∨ piece i h ∧ "/"%byte ∉ i) ∧ piece host h ∧ "/"%byte ∉ host ∧
    "@"%byte ∉ host ∧ "]"%byte ∉ host ∧ (z = -1 ∨ 0 <= z <= u16_max) ∧
    (p = [] ∨ starts_with $"/" p = true ∧ piece p h)).
Proof.
  intros E Hv Hp Hu. unfold take_authority in E.
  destruct (starts_with $"//" h) eqn:Es; [right|left; by simplify_eq].
  apply starts_with_spec in Es as [t ->]. change (drop 2 ($"//" ++ t)) with t in E. cbv zeta in E.
  change ($"//" ++ t) with (slash :: slash :: t) in *.
  rewrite !IsValidUriText_cons_plain in Hv by done.
  assert (∀ s, piece s t → piece s (slash :: slash :: t)) as Hmore.
  { intros s [Vs Cs]. split; [done|]. intros c. rewrite !not_elem_of_cons. intros (_&_&?). auto. }
  assert (∀ a, piece a t → "/"%byte ∉ a → ∀ v, ParseAuthority a u = Some v →
    ∃ i host z, v = mkUri (scheme_ u) i host (path_ u) (query_ u) (fragment_ u) z true ∧
    (i = [] ∨ piece i (slash :: slash :: t) ∧ "/"%byte ∉ i) ∧
    piece host (slash :: slash :: t) ∧ "/"%byte ∉ host ∧
    "@"%byte ∉ host ∧ "]"%byte ∉ host ∧ (z = -1 ∨ 0 <= z <= u16_max)) as Hauth.
  { intros a Pa Hsl v Ev. apply ParseAuthority_inv in Ev as (i&host&z&->&Hi&Ph&?&?&?);
      [|apply Pa|done|done].
    exists i, host, z. split_and!; try done.
    - destruct Hi as [->|Hi]; [by left|right]. split; [|by apply Hi].
      apply Hmore. by eapply piece_trans.
    - apply Hmore. by eapply piece_trans.
    - by apply Ph. }
  destruct (find_char "/" t) as [k|] eqn:Ek.
  - apply find_char_Some in Ek as (a&r&->&<-&Ha). rewrite take_app_length, drop_app_length in E.
    destruct (ParseAuthority a u) as [v|] eqn:Ev; [|done]. simpl in E. simplify_eq.
    destruct (piece_sides a "/" r ltac:(done) Hv) as [Pa [Vr Cr]].
    destruct (Hauth a Pa Ha u' Ev) as (i&host&z&?&?&?&?&?&?&?). exists i, host, z.
    split_and!; try done. right. split; [done|]. apply Hmore. split.
    + by rewrite IsValidUriText_cons_plain.
    + intros c. rewrite not_elem_of_app. tauto.
  - apply find_char_None in Ek. destruct (ParseAuthority t u) as [v|] eqn:Ev; [|done].
    simpl in E. simplify_eq.
    destruct (Hauth t (piece_refl t Hv) Ek u' Ev) as (i&host&z&?&?&?&?&?&?&?).
    exists i, host, z. split_and!; try done. by left.
Qed.

(** A text the parser accepts gives a well-formed URI. *)
Lemma Create_ok text u : Create text = Some u → uri_ok u.
Proof.
  unfold Create. destruct (IsValidUriText text) eqn:Hv; [|done]. cbn [negb].
  destruct (take_fragment make text) as [u1 h1] eqn:E1.
  apply take_fragment_inv in E1 as (f&->&Vf&[V1 C1]&F1); [|done|done].
  destruct (take_query (setFragment f make) h1) as [u2 h2] eqn:E2.
  apply take_query_inv in E2 as (q&->&Hq&[V2 C2]&F2); [|done|done].
  destruct (take_scheme _ h2) as [[u3 h3]|] eqn:E3; [|done]. cbn [mbind option_bind].
  apply take_scheme_inv in E3 as (sc&->&[V3 C3]&Hsc); [|done|done].
  assert (IsValidUriText q = true ∧ "#"%byte ∉ q) as Hq'.
  { destruct Hq as [->|[Vq Cq]]; split; try done; [set_solver|by apply Cq]. }
  assert ("?"%byte ∉ h3 ∧ "#"%byte ∉ h3) as [Q3 S3] by (split; apply C3; [done|by apply C2]).
  destruct (take_authority _ h3) as [[v p]|] eqn:E4; [|done]. cbn [mbind option_bind].
  intros [= <-].
  apply take_authority_inv in E4 as
    [(Hs&->&->)|(i&host&z&->&Hi&[Vh Ch]&Hsl&Hat&Hcl&Hz&Hp)]; try done.
  - split; cbn; try done; try (split_and!; (done || set_solver)).
    + destruct Hsc as [[-> _]|?]; [by left|by right].
    + by left.
    + intros _. split_and!; try done. intros ->. destruct Hsc as [[_ ?]|[? _]]; done.
  - split; cbn; try done.
    + destruct Hsc as [[-> _]|?]; [by left|by right].
    + destruct Hi as [->|[[Vi Ci] Hi]]; [split_and!; (done || set_solver)|].
      split_and!; try done; by apply Ci.
    + split_and!; try done; by apply Ch.
    + destruct Hp as [->|[_ [Vp Cp]]]; [split_and!; (done || set_solver)|].
      split_and!; [done|by apply Cp..].
    + intros _. destruct Hp as [->|[? _]]; [by left|by right].
Qed.

Lemma isDefaultPort_normal u : isDefaultPort (normal u) = isDefaultPort u.
Proof. unfold normal. destruct (isDefaultPort u) eqn:E; [done|exact E]. Qed.

Lemma normal_idemp u : normal (normal u) = normal u.
Proof.
  unfold normal at 1. rewrite isDefaultPort_normal. unfold normal.
  cbn [scheme_ userinfo_ host_ path_ query_ fragment_ port_ has_authority_]. f_equal.
  - unfold print_path. cbn. by destruct (path_ u), (has_authority_ u).
  - by destruct (isDefaultPort u).
Qed.

Lemma getPort_normal u : getPort (normal u) = getPort u.
Proof.
  destruct (isDefaultPort u) eqn:E.
  2:{ unfold getPort, normal, is_scheme. by rewrite E. }
  destruct (Z.ltb_spec (port_ u) 0) as [Hl|Hl].
  { unfold getPort, normal, is_scheme. rewrite E. cbn.
    by rewrite (proj2 (Z.leb_gt _ _)) by done. }
  assert (getPort (normal u) = getPort (setPort (-1) u)) as ->.
  { unfold getPort, normal, is_scheme. by rewrite E. }
  unfold getPort at 2. rewrite (proj2 (Z.leb_le _ _)) by done.
  unfold isDefaultPort in E. rewrite (proj2 (Z.ltb_ge _ _)) in E by done.
  unfold getPort, is_scheme in *. cbn [port_ setPort scheme_].
  apply orb_true_iff in E as [[Es Ep%Z.eqb_eq]%andb_true_iff|[Es Ep%Z.eqb_eq]%andb_true_iff];
    rewrite Ep; [by rewrite Es|].
  apply orb_true_iff in Es as [Es|Es]; apply str_eqb_eq in Es; by rewrite Es.
Qed.

Lemma dump_normal u : dump (normal u) = dump u.
Proof.
  unfold dump, print_scheme, print_authority, print_path, print_host. rewrite isDefaultPort_normal.
  unfold normal. cbn [scheme_ userinfo_ host_ path_ query_ fragment_ port_ has_authority_].
  fold (print_path u). assert (∀ p, match print_path u with
    | [] => if has_authority_ u then $"/" else []
    | s => s
    end = p ↔ print_path u = p) as Ep.
  { intros p. unfold print_path. by destruct (path_ u), (has_authority_ u). }
  rewrite (proj2 (Ep _) eq_refl). destruct (isDefaultPort u); [|done]. by rewrite !andb_false_r.
Qed.

(** ** Main theorems *)

(** C39: printing a well-formed URI - whose host, in particular, has no opening
    bracket unless it has a colon, for which it is printed in brackets - and
    parsing the text gives the URI back, with
    the default port of its scheme and the empty path of an authority made
    explicit the way the accessors show them. *)
Theorem uri_print_parse u :
  uri_ok u → host_prints u →
  Create (toString u) = Some (normal u) ∧
  getPort (normal u) = getPort u ∧ (has_authority_ u = true → getPath (normal u) = getPath u).
Proof.
  intros H Hp. split; [by apply Create_dump|]. split.
  - apply getPort_normal.
  - unfold getPath, normal, print_path. cbn. intros ->. by destruct (path_ u).
Qed.

(** C40: every text the parser accepts denotes a well-formed URI - validated
    scheme in lower case, a port of 16 bits, no delimiter inside a component -
    and, unless its host has an opening bracket and no colon (see
    [bracket_host_not_reparsed]), printing is stable: the printed text is
    accepted, and the URI it denotes prints to the same text. *)
Theorem Create_sound text u :
  Create text = Some u → uri_ok u ∧
  (host_prints u → ∃ v, Create (toString u) = Some v ∧ toString v = toString u ∧
    Create (toString v) = Some v).
Proof.
  intros E. pose proof (Create_ok text u E) as H. split; [done|]. intros Hp.
  exists (normal u). unfold toString. rewrite dump_normal. by rewrite (Create_dump u H Hp).
Qed.

Lemma uri_print_parse_witness :
  let u := mkUri $"http" $"me" $"::1" [] $"a=%20" [] 80 true in
  Create (toString u) = Some (mkUri $"http" $"me" $"::1" $"/" $"a=%20" [] (-1) true).
Proof.
  intros u. refine (proj1 (uri_print_parse u _ _)).
  - split; cbn; try done; try (split_and!; (done || (vm_compute; set_solver))).
    + by right.
    + right. split; [lia|]. done.
    + by left.
  - left. vm_compute. set_solver.
Defined.

Lemma Create_sound_witness :
  let u := mkUri $"http" [] $"h" $"/p" [] $"f" 81 true in
  Create $"HTTP://h:81/p#f" = Some u ∧ uri_ok u ∧
  ∃ v, Create (toString u) = Some v ∧ toString v = toString u.
Proof.
  intros u. assert (Create $"HTTP://h:81/p#f" = Some u) as E by (vm_compute; reflexivity).
  split; [exact E|]. split; [exact (proj1 (Create_sound _ u E))|].
  destruct (proj2 (Create_sound _ u E)) as (v&E1&E2&_).
  - right. apply (bool_decide_unpack _). vm_compute. exact I.
  - exists v. split; [exact E1|exact E2].
Defined.

(** The printed text of an accepted URI may be rejected: a bracket inside a
    bracketed host without a colon is printed bare. *)
Theorem bracket_host_not_reparsed :
  ∃ text u, Create text = Some u ∧ Create (toString u) = None.
Proof.
  exists $"http://[a[b]", (mkUri $"http" [] $"a[b" [] [] [] (-1) true).
  split; vm_compute; reflexivity.
Qed.

End UriRoundTrip.
