(* ===== verification/Stream.v ===== *)
(** The byte streams ([droplet/src/stream/stream.cc],
    [droplet/src/stream/socket_stream.cc]): the interface a stream offers, the
    loops that read or write a fixed number of bytes through it, and the stream
    over a socket, with its transfers into and out of a [ByteArray]. *)

From S2P Require Import Prelude ByteArray ByteArrayProofs.
Import ByteArray.

Module Stream.

(** ** Interfaces *)

(** What a socket offers to a stream.  A receive yields its result and the
    bytes it stored; [errno] belongs to the thread. *)
Class Socket (T : Type) := {
  isConnected : T → bool;
  recv : nat → T → Z * str * T;
  recv_iov : list nat → T → Z * str * T;
  send : str → T → Z * T;
  send_iov : list str → T → Z * T;
  close_socket : T → T;
  errno : T → Z;
  set_errno : Z → T → T;
}.

(** What the calls of the kernel promise: a transfer is of at most the bytes
    asked for and of at most [0x7ffff000] (the limit of Linux), its result is
    their number, and -1 stands for an error.  [sent] is what the peer has
    been given. *)
Definition transfer_max : Z := 0x7ffff000.

Class SocketLaws (T : Type) `{Socket T} := {
  sent : T → str;
  recv_result n s : let '(r, data, s') := recv n s in
    -1 <= r <= transfer_max ∧ sent s' = sent s ∧
    (length data ≤ n)%nat ∧ (r <= 0 → data = []) ∧ (0 < r → r = Z.of_nat (length data));
  recv_iov_result ns s : let '(r, data, s') := recv_iov ns s in
    -1 <= r <= transfer_max ∧ sent s' = sent s ∧
    (length data ≤ sum_list ns)%nat ∧ (r <= 0 → data = []) ∧ (0 < r → r = Z.of_nat (length data));
  send_result data s : let '(r, s') := send data s in
    -1 <= r <= transfer_max ∧ r <= Z.of_nat (length data) ∧
    sent s' = sent s ++ take (Z.to_nat r) data;
  send_iov_result bs s : let '(r, s') := send_iov bs s in
    -1 <= r <= transfer_max ∧ r <= Z.of_nat (length (mjoin bs)) ∧
    sent s' = sent s ++ take (Z.to_nat r) (mjoin bs);
  set_errno_sent e s : sent (set_errno e s) = sent s;
  close_sent s : sent (close_socket s) = sent s;
}.

(** [static_cast<int>]. *)
Definition to_int (z : Z) : Z := to_signed 32 (wrap 32 z).
Definition ssize_max : Z := 2 ^ 63 - 1.
Definition EMSGSIZE : Z := 90.
Definition EPROTO : Z := 71.
Definition EINVAL : Z := 22.

(** The two pure virtual methods on memory the loops of [Stream] call. *)
Class Stream (T : Type) := {
  stream_read : bool → nat → T → Z * str * T;
  stream_write : option str → T → Z * T;
}.

(** ** Loops of a fixed size *)

Section loops.
Context {T : Type} `{Stream T}.

(** The loop of [readFixSize]: the result and the bytes stored in the buffer. *)
Fixpoint read_loop (fuel offset len : nat) (s : T) : option (Z * str * T) :=
  if (offset <? len)%nat then
    match fuel with
    | O => None
    | S fuel' =>
        let '(result, data, s) := stream_read true (len - offset) s in
        if result <=? 0 then Some (result, data, s)
        else
          '(r, rest, s) ← read_loop fuel' (offset + Z.to_nat result) len s;
          Some (r, data ++ rest, s)
    end
  else Some (to_int (Z.of_nat len), [], s).

(** [buffer] is whether the pointer is not null. *)
Definition readFixSize (buffer : bool) (len : nat) (s : T) : option (Z * str * T) :=
  if negb buffer && negb (Nat.eqb len 0) then Some (-1, [], s)
  else read_loop len 0 len s.

Fixpoint write_loop (fuel offset : nat) (data : str) (s : T) : option (Z * T) :=
  if (offset <? length data)%nat then
    match fuel with
    | O => None
    | S fuel' =>
        let '(result, s) := stream_write (Some (drop offset data)) s in
        if result <=? 0 then Some (result, s)
        else write_loop fuel' (offset + Z.to_nat result) data s
    end
  else Some (to_int (Z.of_nat (length data)), s).

(** The data is [None] for a null pointer, with the length beside it. *)
Definition writeFixSize (buffer : option str) (len : nat) (s : T) : option (Z * T) :=
  match buffer with
  | None => if Nat.eqb len 0 then Some (0, s) else Some (-1, s)
  | Some data => write_loop len 0 (take len data) s
  end.
End loops.

(** ** The stream over a socket *)

Section socket_stream.
Context {T : Type} `{Socket T}.

(** [socket_] is [None] for a null pointer. *)
Record SocketStream := mkSocketStream {
  socket_ : option T;
  owner_ : bool;
}.

Definition connected (st : SocketStream) : bool :=
  match socket_ st with Some s => isConnected s | None => false end.

Definition set_socket (s : T) (st : SocketStream) : SocketStream :=
  mkSocketStream (Some s) (owner_ st).

Definition read (buffer : bool) (len : nat) (st : SocketStream) : Z * str * SocketStream :=
  match socket_ st with
  | None => (-1, [], st)
  | Some s =>
      if negb (isConnected s) || (negb buffer && negb (Nat.eqb len 0)) then (-1, [], st)
      else if ssize_max <? Z.of_nat len then (-1, [], set_socket (set_errno EMSGSIZE s) st)
      else
        let '(r, data, s) := recv len s in (to_int r, data, set_socket s st)
  end.

Definition write (buffer : option str) (len : nat) (st : SocketStream) : Z * SocketStream :=
  match socket_ st with
  | None => (-1, st)
  | Some s =>
      if negb (isConnected s) then (-1, st)
      else
        match buffer with
        | None =>
            if negb (Nat.eqb len 0) then (-1, st)
            else let '(r, s) := send [] s in (to_int r, set_socket s st)
        | Some data =>
            if ssize_max <? Z.of_nat len then (-1, set_socket (set_errno EMSGSIZE s) st)
            else let '(r, s) := send (take len data) s in (to_int r, set_socket s st)
        end
  end.

(** The bytes a scattered receive stores: each buffer is filled in turn. *)
Fixpoint scatter (bs : list str) (views : list iovec) (data : str) : list str :=
  match views with
  | [] => bs
  | v :: views' =>
      scatter (alter (λ b, splice b (iov_offset v) (take (iov_len v) data)) (iov_block v) bs)
        views' (drop (iov_len v) data)
  end.

(** [read(ByteArray::Ptr, length)]: an exception of the byte array leaves
    through the [inl]. *)
Definition read_bytearray (uninit : nat → nat → byte) (len : nat)
    (st : SocketStream) (buffer : option ByteArray)
    : (exn + Z) * SocketStream * option ByteArray :=
  match socket_ st with
  | None => (inr (-1), st, buffer)
  | Some s =>
      if negb (isConnected s) then (inr (-1), st, buffer)
      else
        match buffer with
        | None => (inr (if Nat.eqb len 0 then 0 else -1), st, buffer)
        | Some ba =>
            if Nat.eqb len 0 then (inr 0, st, buffer)
            else
              match getWriteBuffers uninit len ba with
              | (inl e, ba) => (inl e, st, Some ba)
              | (inr (views, available), ba) =>
                  if Nat.eqb available 0 || bool_decide (views = []) then (inr 0, st, Some ba)
                  else
                    let '(r, data, s) := recv_iov (iov_len <$> views) s in
                    let ba := set_blocks (scatter (blocks ba) views data) ba in
                    if 0 <? r then
                      match setPosition (position ba + Z.to_nat r) ba with
                      | (inl e, ba) => (inl e, set_socket s st, Some ba)
                      | (inr _, ba) => (inr (to_int r), set_socket s st, Some ba)
                      end
                    else (inr (to_int r), set_socket s st, Some ba)
              end
        end
  end.

(** [write(ByteArray::Ptr, length)]. *)
Definition write_bytearray (len : nat) (st : SocketStream) (buffer : option ByteArray)
    : (exn + Z) * SocketStream * option ByteArray :=
  match socket_ st with
  | None => (inr (-1), st, buffer)
  | Some s =>
      if negb (isConnected s) then (inr (-1), st, buffer)
      else
        match buffer with
        | None => (inr (if Nat.eqb len 0 then 0 else -1), st, buffer)
        | Some ba =>
            if Nat.eqb len 0 then (inr 0, st, buffer)
            else
              let '(views, available) := getReadBuffers len ba in
              if Nat.eqb available 0 || bool_decide (views = []) then (inr 0, st, buffer)
              else
                let '(r, s) := send_iov (iov_bytes ba <$> views) s in
                if 0 <? r then
                  match setPosition (position ba + Z.to_nat r) ba with
                  | (inl e, ba) => (inl e, set_socket s st, Some ba)
                  | (inr _, ba) => (inr (to_int r), set_socket s st, Some ba)
                  end
                else (inr (to_int r), set_socket s st, Some ba)
        end
  end.

(** The loops of [readFixSize] and [writeFixSize] on a byte array; an exception
    of a call leaves the loop. *)
Fixpoint transfer_loop (call : nat → SocketStream → option ByteArray →
      (exn + Z) * SocketStream * option ByteArray)
    (fuel offset len : nat) (st : SocketStream) (buffer : option ByteArray)
    : option ((exn + Z) * SocketStream * option ByteArray) :=
  if (offset <? len)%nat then
    match fuel with
    | O => None
    | S fuel' =>
        match call (len - offset)%nat st buffer with
        | (inl e, st, buffer) => Some (inl e, st, buffer)
        | (inr result, st, buffer) =>
            if result <=? 0 then Some (inr result, st, buffer)
            else transfer_loop call fuel' (offset + Z.to_nat result) len st buffer
        end
    end
  else Some (inr (to_int (Z.of_nat len)), st, buffer).

Definition readFixSize_bytearray (uninit : nat → nat → byte) (len : nat)
    (st : SocketStream) (buffer : option ByteArray) :=
  if bool_decide (buffer = None) && negb (Nat.eqb len 0) then Some (inr (-1), st, buffer)
  else transfer_loop (read_bytearray uninit) len 0 len st buffer.

Definition writeFixSize_bytearray (len : nat) (st : SocketStream) (buffer : option ByteArray) :=
  if bool_decide (buffer = None) && negb (Nat.eqb len 0) then Some (inr (-1), st, buffer)
  else transfer_loop write_bytearray len 0 len st buffer.

Definition close (st : SocketStream) : SocketStream :=
  match socket_ st with
  | Some s => set_socket (close_socket s) st
  | None => st
  end.

(** The destructor. *)
Definition destroy (st : SocketStream) : SocketStream := if owner_ st then close st else st.

#[export] Instance socket_stream : Stream SocketStream := {
  stream_read := read;
  stream_write buffer st := write buffer (length (default [] buffer)) st;
}.
End socket_stream.

Arguments SocketStream : clear implicits.
End Stream.
