(* ===== verification/StreamProofs.v ===== *)
(** The loops of [Stream] transfer all bytes or stop at the first failing call,
    and the transfers of a socket stream into and out of a [ByteArray] move
    exactly the bytes of the socket call. *)

From S2P Require Import Prelude ByteArray ByteArrayProofs ByteArrayRefinement Stream.
Import ByteArray ByteArrayProofs ByteArrayRefinement Stream.

Module StreamProofs.

(** ** What a stream promises to its loops *)

Class StreamLaws (T : Type) `{Stream T} := {
  delivered : T → str;
  stream_read_result b n s : let '(r, data, s') := stream_read b n s in
    delivered s' = delivered s ∧ (length data ≤ n)%nat ∧
    (r <= 0 → data = []) ∧ (0 < r → r = Z.of_nat (length data));
  stream_write_result data s : let '(r, s') := stream_write (Some data) s in
    r <= Z.of_nat (length data) ∧ delivered s' = delivered s ++ take (Z.to_nat r) data;
}.

Lemma to_int_small z : - 2 ^ 31 <= z < 2 ^ 31 → to_int z = z.
Proof.
  intros Hz. unfold to_int, to_signed, wrap. destruct (Z.ltb_spec z 0).
  - assert (z mod 2 ^ 32 = z + 2 ^ 32) as -> by (symmetry; apply (Z.mod_unique _ _ (-1)); lia).
    rewrite (proj2 (Z.ltb_ge _ _)) by lia. lia.
  - rewrite Z.mod_small by lia. by rewrite (proj2 (Z.ltb_lt _ _)) by lia.
Qed.

Lemma to_int_transfer r : -1 <= r <= transfer_max → to_int r = r.
Proof. unfold transfer_max. intros. apply to_int_small. lia. Qed.

(** A socket stream keeps the promise when the kernel does. *)
#[export] Program Instance socket_stream_laws {T} `{SocketLaws T} :
  StreamLaws (SocketStream T) := {
  delivered st := match socket_ st with Some s => sent s | None => [] end;
}.
Next Obligation.
  intros T HS HL b n st. cbn [stream_read socket_stream]. unfold read.
  destruct (socket_ st) as [s|] eqn:Es; [|rewrite Es; split_and!; simpl; (done || lia)].
  destruct (negb (isConnected s) || _); [rewrite Es; split_and!; simpl; (done || lia)|].
  destruct (ssize_max <? Z.of_nat n).
  { cbn. rewrite set_errno_sent. split_and!; simpl; (done || lia). }
  pose proof (recv_result n s) as Hr. destruct (recv n s) as [[r data] s'].
  destruct Hr as (Hb&Hs&Hl&Hn&Hp). cbn. rewrite to_int_transfer by done. done.
Qed.
Next Obligation.
  intros T HS HL data st. cbn [stream_write socket_stream]. unfold write. cbn [default].
  destruct (socket_ st) as [s|] eqn:Es;
    [|rewrite Es; split; [lia|by rewrite take_0]].
  destruct (isConnected s); cbn [negb]; [|rewrite Es; split; [lia|by rewrite take_0, app_nil_r]].
  unfold id. destruct (ssize_max <? Z.of_nat (length data)).
  { cbn. rewrite set_errno_sent. split; [lia|by rewrite take_0, app_nil_r]. }
  rewrite take_ge by lia.
  pose proof (send_result data s) as Hr. destruct (send data s) as [r s'].
  destruct Hr as (Hb&Hl&Hs). cbn. rewrite to_int_transfer by done. done.
Qed.

(** ** The loops *)

Section loops.
Context {T : Type} `{StreamLaws T}.

(** The loop of [writeFixSize] from an offset on. *)
Lemma write_loop_spec data fuel : ∀ offset (s : T),
  (offset ≤ length data)%nat → (length data - offset ≤ fuel)%nat →
  ∃ r s', write_loop fuel offset data s = Some (r, s') ∧
  ((r = to_int (size data) ∧ delivered s' = delivered s ++ drop offset data) ∨
   (r <= 0 ∧ ∃ k, (offset ≤ k < length data)%nat ∧
     delivered s' = delivered s ++ substr data offset (k - offset))).
Proof.
  induction fuel as [|fuel IH]; intros offset s Ho Hf; cbn [write_loop].
  - rewrite (proj2 (Nat.ltb_ge _ _)) by lia. eexists _, _. split; [done|left].
    split; [done|]. by rewrite drop_ge, app_nil_r by lia.
  - destruct (Nat.ltb_spec offset (length data)) as [Hlt|Hge].
    + pose proof (stream_write_result (drop offset data) s) as Hw.
      destruct (stream_write (Some (drop offset data)) s) as [r s1].
      destruct Hw as [Hr Hd]. rewrite length_drop in Hr.
      destruct (Z.leb_spec r 0) as [Hneg|Hpos].
      * exists r, s1. split; [done|right]. split; [done|]. exists offset.
        split; [lia|]. rewrite Hd, Nat.sub_diag. replace (Z.to_nat r) with 0%nat by lia.
        by rewrite take_0.
      * destruct (IH (offset + Z.to_nat r)%nat s1 ltac:(lia) ltac:(lia))
          as (r'&s'&E&[[Er Ed]|(Er&k&Hk&Ed)]); exists r', s'; (split; [done|]).
        -- left. split; [done|]. rewrite Ed, Hd, <- app_assoc. f_equal.
           rewrite <- drop_drop. apply take_drop.
        -- right. split; [done|]. exists k. split; [lia|]. rewrite Ed, Hd, <- app_assoc. f_equal.
           unfold substr. rewrite <- drop_drop.
           rewrite take_take_drop. f_equal. lia.
    + eexists _, _. split; [done|left]. split; [done|]. by rewrite drop_ge, app_nil_r by lia.
Qed.

Lemma writeFixSize_spec data (s : T) :
  ∃ r s', writeFixSize (Some data) (length data) s = Some (r, s') ∧
  ((r = to_int (size data) ∧ delivered s' = delivered s ++ data) ∨
   (r <= 0 ∧ ∃ k, (k < length data)%nat ∧ delivered s' = delivered s ++ take k data)).
Proof.
  unfold writeFixSize. rewrite take_ge by lia.
  destruct (write_loop_spec data (length data) 0 s ltac:(lia) ltac:(lia))
    as (r&s'&E&[[-> Hd]|(Hr&k&Hk&Hd)]); eexists _, s'; (split; [exact E|]).
  - by left.
  - right. split; [done|]. exists k. split; [lia|]. unfold substr in Hd. by rewrite Nat.sub_0_r in Hd.
Qed.

Lemma read_loop_spec len fuel : ∀ offset (s : T),
  (offset ≤ len)%nat → (len - offset ≤ fuel)%nat →
  ∃ r data s', read_loop fuel offset len s = Some (r, data, s') ∧
  delivered s' = delivered s ∧
  ((r = to_int (Z.of_nat len) ∧ (offset + length data = len)%nat) ∨
   (r <= 0 ∧ (offset + length data < len)%nat)).
Proof.
  induction fuel as [|fuel IH]; intros offset s Ho Hf; cbn [read_loop].
  - rewrite (proj2 (Nat.ltb_ge _ _)) by lia. eexists _, _, _. split; [done|].
    split; [done|left]. split; [done|]. simpl. lia.
  - destruct (Nat.ltb_spec offset len) as [Hlt|Hge].
    + pose proof (stream_read_result true (len - offset) s) as Hw.
      destruct (stream_read true (len - offset) s) as [[r data] s1].
      destruct Hw as (Hd&Hl&Hn&Hp). destruct (Z.leb_spec r 0) as [Hneg|Hpos].
      * exists r, data, s1. split; [done|]. split; [done|right]. split; [done|].
        rewrite Hn by done. simpl. lia.
      * specialize (Hp Hpos).
        destruct (IH (offset + Z.to_nat r)%nat s1 ltac:(lia) ltac:(lia))
          as (r'&data'&s'&E&Ed&Hor).
        exists r', (data ++ data'), s'. rewrite E. split; [done|]. split; [congruence|].
        rewrite length_app. destruct Hor as [[? ?]|[? ?]]; [left|right]; (split; [done|lia]).
    + eexists _, _, _. split; [done|]. split; [done|left]. split; [done|]. simpl. lia.
Qed.
End loops.

(** ** Transfers with a byte array *)

Lemma scatter_none bs vs : scatter bs vs [] = bs.
Proof.
  revert bs. induction vs as [|v vs IH]; intros bs; cbn [scatter]; [done|].
  rewrite drop_nil, take_nil.
  assert (alter (λ b, splice b (iov_offset v) []) (iov_block v) bs = bs) as ->; [|done].
  apply list_alter_id. intros b. unfold splice. simpl. by rewrite Nat.add_0_r, take_drop.
Qed.

(** Filling the buffers of a range writes the range. *)
Lemma scatter_write_nodes bs : ∀ pre offset n data,
  (length data ≤ n)%nat →
  scatter (pre ++ bs) (collect_buffers bs (length pre) offset n).1 data =
  pre ++ (write_nodes bs offset data).1.
Proof.
  induction bs as [|b bs IH]; intros pre offset n data Hl; [done|].
  cbn [collect_buffers write_nodes].
  destruct (Nat.eqb_spec (length data) 0) as [E|E].
  { destruct data; [|done]. cbn [fst]. apply scatter_none. }
  rewrite (proj2 (Nat.eqb_neq n 0)) by lia.
  set (count := Nat.min n (length b - offset)).
  set (count' := Nat.min (length data) (length b - offset)).
  assert (take count data = take count' data ∧ drop count data = drop count' data) as [Et Ed].
  { unfold count, count'. destruct (decide (length b - offset ≤ length data)%nat).
    - by rewrite !Nat.min_r by lia.
    - rewrite (Nat.min_l (length data)) by lia. rewrite !take_ge, !drop_ge by lia. done. }
  specialize (IH (pre ++ [splice b offset (take count' data)]) 0%nat (n - count)%nat
    (drop count' data)). rewrite length_app in IH. cbn [length] in IH. rewrite Nat.add_1_r in IH.
  destruct (collect_buffers bs (S (length pre)) 0 (n - count)) as [rest unfilled] eqn:Ec.
  destruct (write_nodes bs 0 (drop count' data)) as [bs'' left] eqn:Ew.
  cbn [fst scatter iov_offset iov_len iov_block] in *. rewrite Et, Ed.
  assert (alter (λ b0, splice b0 offset (take count' data)) (length pre) (pre ++ b :: bs) =
    (pre ++ [splice b offset (take count' data)]) ++ bs) as ->.
  { rewrite alter_app_r_alt by lia. by rewrite Nat.sub_diag, <- app_assoc. }
  rewrite IH by (rewrite length_drop; unfold count, count'; lia). by rewrite <- app_assoc.
Qed.

(** Room was made for [n] bytes at the cursor of [ba]; [data] was stored there
    and the cursor moved behind it. *)
Lemma store_received ba n data views :
  inv ba → (position ba + n ≤ capacity ba)%nat → (length data ≤ n)%nat →
  buffers_at (position ba) n ba = (views, n) →
  let ba1 := set_blocks (scatter (blocks ba) views data) ba in
  ∃ ba2, setPosition (position ba1 + length data) ba1 = (inr tt, ba2) ∧ wrote ba data ba2.
Proof.
  intros H Hroom Hl Hv ba1. pose proof (inv_order ba H) as Ho.
  pose proof (inv_capacity ba H) as Hc.
  destruct (nodeAt_found (position ba) ba) as (node&offset&En&Hs&_&Hoff&Hflat&Hsum); [lia|].
  unfold buffers_at in Hv. rewrite En in Hv. cbv zeta in *.
  set (start := default (length (blocks ba)) node) in *.
  assert (length (take start (blocks ba)) = start) as El by (rewrite length_take; lia).
  pose proof (scatter_write_nodes (drop start (blocks ba)) (take start (blocks ba)) offset n data Hl)
    as Hsc.
  rewrite El, take_drop in Hsc.
  destruct (collect_buffers (drop start (blocks ba)) start offset n) as [vs unfilled].
  assert (vs = views) as -> by congruence. cbn [fst] in Hsc.
  destruct (write_nodes_spec (drop start (blocks ba)) offset data Hoff)
    as (written&Ew&Hw&Hlen).
  { assert (length (flat ba) = length (mjoin (take start (blocks ba))) +
      length (mjoin (drop start (blocks ba))))%nat by (rewrite Hflat, length_app; done). lia. }
  rewrite Ew in Hsc. cbn [fst] in Hsc.
  assert (flat ba1 = splice (flat ba) (position ba) data) as Hfl.
  { rewrite Hflat, <- Hsum, splice_shift, <- Hw, <- mjoin_app, <- Hsc. done. }
  assert (length (flat ba1) = length (flat ba)) as Hsl
    by (rewrite Hfl; apply splice_length; lia).
  unfold setPosition, bind, gets. change (capacity ba1) with (capacity ba).
  change (position ba1) with (position ba).
  rewrite (proj2 (Nat.ltb_ge _ _)) by lia. unfold update_current.
  eexists. split; [done|]. split; cbn; try done.
  - split; cbn; try apply H; try lia.
    + rewrite Hsc. apply Forall_app. pose proof (inv_blocks ba H) as Hb.
      split; [by apply Forall_take|].
      apply Forall_forall. intros b Hbin.
      apply list_elem_of_lookup in Hbin as [k Hk].
      destruct (Forall2_lookup_r _ _ _ _ _ Hlen Hk) as (b0&Hk0&Eb).
      rewrite <- Eb. rewrite Forall_forall in Hb. apply Hb.
      apply list_elem_of_lookup_2 in Hk0.
      rewrite <- (take_drop start (blocks ba)). set_solver.
    + change (blocks ba1 ≠ []). intros Hnil. unfold flat in Hsl. rewrite Hnil in Hsl. simpl in Hsl.
      pose proof (inv_nonempty ba H) as Hne. pose proof (inv_blocks ba H) as Hb.
      pose proof (inv_base ba H). destruct (blocks ba) as [|b bs] eqn:Eb; [done|].
      apply Forall_cons in Hb as [Hb _]. rewrite mjoin_cons, length_app in Hsl. lia.
    + unfold flat in *. cbn in *. lia.
    + intros k Hk. apply node_at_inside in Hk. lia.
  - unfold contents, flat in *. cbn in *. rewrite Hfl. apply take_splice; lia.
Qed.

Lemma getWriteBuffers_views uninit n ba :
  inv ba → (0 < n)%nat → fits n ba →
  ∃ views ba1, getWriteBuffers uninit n ba = (inr (views, n), ba1) ∧ inv ba1 ∧
    grown ba ba1 ∧ contents ba1 = contents ba ∧ (position ba1 + n ≤ capacity ba1)%nat ∧
    buffers_at (position ba1) n ba1 = (views, n) ∧ sum_list (iov_len <$> views) = n.
Proof.
  intros H Hn Hf.
  destruct (getWriteBuffers_cases uninit n ba H) as [(ba1&vs&E&Hi&Hg&Hc&_&Hs)|(what&_&?)]; [|done].
  exists vs, ba1. unfold fits in Hf.
  assert (Z.of_nat n <= size_max) by lia.
  unfold getWriteBuffers in E. rewrite (proj2 (Nat.eqb_neq _ _)) in E by lia.
  unfold bind, gets, CheckedSize in E. rewrite (proj2 (Z.ltb_ge _ _)) in E by done.
  unfold ret in E. rewrite Nat2Z.id in E.
  destruct (addCapacity_cases uninit n ba H)
    as [(ba2&E2&_&_&_&Hroom&_&Hg2&_)|[E2 _]]; rewrite E2 in E; [|done].
  injection E as Ev ->. split_and!; try done.
  - unfold getWriteBuffers. rewrite (proj2 (Nat.eqb_neq _ _)) by lia.
    unfold bind, gets, CheckedSize. rewrite (proj2 (Z.ltb_ge _ _)) by done.
    unfold ret. by rewrite Nat2Z.id, E2, Ev.
  - by rewrite (grown_position _ _ Hg).
Qed.

(** What was written relative to a grown array was written relative to the
    array before. *)
Lemma wrote_grown ba ba1 data ba2 :
  grown ba ba1 → contents ba1 = contents ba → wrote ba1 data ba2 → wrote ba data ba2.
Proof.
  intros [] Hc []. split; try congruence; rewrite ?wrote_position, ?wrote_size; congruence.
Qed.

(** ** A scripted socket *)

(** A peer whose data arrives in the given pieces, and that takes at most
    [accepts] bytes at a time. *)
Record wire := mkWire { incoming : list str; accepts : nat; outgoing : str; wire_errno : Z }.

Definition wire_recv (n : nat) (w : wire) : Z * str * wire :=
  match incoming w with
  | [] => (0, [], w)
  | c :: cs =>
      let data := take (Nat.min n 4096) c in
      (Z.of_nat (length data), data,
       mkWire (match drop (Nat.min n 4096) c with [] => cs | c' => c' :: cs end)
         (accepts w) (outgoing w) (wire_errno w))
  end.

Definition wire_send (data : str) (w : wire) : Z * wire :=
  let data := take (Nat.min (accepts w) 4096) data in
  (Z.of_nat (length data),
   mkWire (incoming w) (accepts w) (outgoing w ++ data) (wire_errno w)).

#[export] Instance wire_socket : Socket wire := {
  isConnected _ := true;
  recv := wire_recv;
  recv_iov ns := wire_recv (sum_list ns);
  send := wire_send;
  send_iov bs := wire_send (mjoin bs);
  close_socket w := w;
  errno := wire_errno;
  set_errno e w := mkWire (incoming w) (accepts w) (outgoing w) e;
}.

Lemma wire_recv_result n w : let '(r, data, w') := wire_recv n w in
  -1 <= r <= transfer_max ∧ outgoing w' = outgoing w ∧
  (length data ≤ n)%nat ∧ (r <= 0 → data = []) ∧ (0 < r → r = Z.of_nat (length data)).
Proof.
  unfold wire_recv, transfer_max. destruct (incoming w) as [|c cs].
  - split_and!; simpl; (done || lia).
  - pose proof (length_take c (Nat.min n 4096)). split_and!; try (done || lia).
    intros Hn. by destruct (take (Nat.min n 4096) c).
Qed.

Lemma wire_send_result data w : let '(r, w') := wire_send data w in
  -1 <= r <= transfer_max ∧ r <= Z.of_nat (length data) ∧
  outgoing w' = outgoing w ++ take (Z.to_nat r) data.
Proof.
  unfold wire_send, transfer_max. pose proof (length_take data (Nat.min (accepts w) 4096)) as Hl.
  split_and!; try lia. cbn [outgoing]. f_equal. rewrite Nat2Z.id, Hl.
  destruct (decide (Nat.min (accepts w) 4096 ≤ length data)%nat).
  - by rewrite (Nat.min_l (Nat.min _ _)) by lia.
  - rewrite (Nat.min_r (Nat.min _ _)) by lia. rewrite !take_ge by lia. done.
Qed.

#[export] Program Instance wire_laws : SocketLaws wire := {
  sent := outgoing;
  recv_result := wire_recv_result;
  recv_iov_result ns := wire_recv_result (sum_list ns);
  send_result := wire_send_result;
  send_iov_result bs := wire_send_result (mjoin bs);
}.
Next Obligation. done. Qed.
Next Obligation. done. Qed.

(** ** Main theorems *)

(** [writeFixSize] ends; it hands all bytes to the stream, in order and once
    each, and returns their number as an [int] - which is the number only below
    2^31 and 0, the code for a closed stream, for 2^32 bytes - or it stops at
    the first call that fails, with a proper prefix handed over and a result
    that is not positive. *)
Theorem writeFixSize_delivers `{StreamLaws T} data (s : T) :
  ∃ r s', writeFixSize (Some data) (length data) s = Some (r, s') ∧
  ((r = to_int (size data) ∧ delivered s' = delivered s ++ data) ∨
   (r <= 0 ∧ ∃ k, (k < length data)%nat ∧ delivered s' = delivered s ++ take k data)) ∧
  (size data < 2 ^ 31 → to_int (size data) = size data) ∧
  (size data = 2 ^ 32 → to_int (size data) = 0).
Proof.
  destruct (writeFixSize_spec data s) as (r&s'&E&Hor).
  exists r, s'. split; [done|]. split; [done|split].
  - intros Hs. pose proof (size_nonneg data). apply to_int_small. lia.
  - by intros ->.
Qed.

Lemma writeFixSize_delivers_witness :
  ∃ r s', writeFixSize (Some $"hello world") 11 (mkSocketStream (Some (mkWire [] 4 [] 0)) true) =
    Some (r, s') ∧ r = 11 ∧ delivered s' = $"hello world".
Proof.
  destruct (writeFixSize_delivers $"hello world" (mkSocketStream (Some (mkWire [] 4 [] 0)) true))
    as (r&s'&E&_).
  exists r, s'. split; [exact E|]. vm_compute in E. injection E as <- <-.
  split; vm_compute; reflexivity.
Defined.

(** A transfer between a socket and a byte array moves exactly the bytes of
    the socket call.  Receiving asks the socket for [len] bytes in all, puts
    what arrives at the cursor, across however many blocks, and moves the
    cursor behind it; sending offers the next [len] readable bytes and moves
    the cursor over those taken.  A call that transfers nothing leaves contents
    and cursor alone. *)
Theorem bytearray_transfer `{HSock : Socket T, HLaws : !SocketLaws T} uninit len (st : SocketStream T) s ba :
  socket_ st = Some s → isConnected s = true → inv ba → (0 < len)%nat →
  Z.of_nat (position ba + len + base_size ba) <= size_max →
  (∃ ns r data s' ba', recv_iov ns s = (r, data, s') ∧ sum_list ns = len ∧
    read_bytearray uninit len st (Some ba) = (inr r, set_socket s' st, Some ba') ∧
    (0 < r → r = size data ∧ wrote ba data ba') ∧
    (r <= 0 → contents ba' = contents ba ∧ position ba' = position ba ∧ inv ba')) ∧
  ((0 < getReadSize ba)%nat → ∃ bs r s' ba', send_iov bs s = (r, s') ∧
    mjoin bs = substr (contents ba) (position ba) (Nat.min len (getReadSize ba)) ∧
    write_bytearray len st (Some ba) = (inr r, set_socket s' st, Some ba') ∧
    sent s' = sent s ++ take (Z.to_nat r) (mjoin bs) ∧
    moved ba (Z.to_nat r) ba').
Proof.
  intros Hs Hcon H Hlen Hfit. pose proof (inv_order ba H) as Ho.
  pose proof (inv_capacity ba H) as Hcap. split.
  - destruct (getWriteBuffers_views uninit len ba H Hlen Hfit)
      as (views&ba1&E&Hi&Hg&Hc&Hroom&Hb&Hsum).
    pose proof (recv_iov_result (iov_len <$> views) s) as Hr.
    destruct (recv_iov (iov_len <$> views) s) as [[r data] s'] eqn:Er.
    destruct Hr as (Hbound&_&Hle&Hneg&Hpos). rewrite Hsum in Hle.
    unfold read_bytearray. rewrite Hs, Hcon, (proj2 (Nat.eqb_neq len 0)) by lia. cbn [negb].
    rewrite E, (proj2 (Nat.eqb_neq len 0)) by lia.
    rewrite bool_decide_eq_false_2 by (intros ->; simpl in Hsum; lia). cbn [orb].
    rewrite Er, to_int_transfer by done.
    destruct (Z.ltb_spec 0 r) as [Hr|Hr].
    + specialize (Hpos Hr). rewrite Hpos, Nat2Z.id.
      destruct (store_received ba1 len data views Hi Hroom Hle Hb) as (ba2&E2&W).
      rewrite E2. exists (iov_len <$> views), r, data, s', ba2.
      rewrite Hpos in *. split_and!; try done; [|lia].
      intros _. split; [done|]. by eapply wrote_grown.
    + specialize (Hneg Hr). rewrite Hneg, scatter_none.
      exists (iov_len <$> views), r, data, s', (set_blocks (blocks ba1) ba1).
      assert (set_blocks (blocks ba1) ba1 = ba1) as -> by (by destruct ba1).
      rewrite Hneg in Er |- *. split_and!; try done; [lia|]. intros _. split_and!; try done.
      apply (grown_position _ _ Hg).
  - intros Hread. unfold getReadSize in *. set (n := Nat.min len (size_ ba - position ba)).
    destruct (buffers_at_spec (position ba) n ba) as (vs&E&Eb&_&Hsum); [lia|].
    assert (mjoin (iov_bytes ba <$> vs) = substr (contents ba) (position ba) n) as Et.
    { rewrite Eb. unfold contents, substr. rewrite skipn_firstn_comm, take_take. f_equal. lia. }
    pose proof (send_iov_result (iov_bytes ba <$> vs) s) as Hr.
    destruct (send_iov (iov_bytes ba <$> vs) s) as [r s'] eqn:Er.
    destruct Hr as (Hbound&Hle&Hsent).
    assert (r <= Z.of_nat n) as Hrn.
    { rewrite Et in Hle. unfold substr in Hle. rewrite length_take in Hle. lia. }
    unfold write_bytearray, getReadBuffers, getReadSize.
    rewrite Hs, Hcon, (proj2 (Nat.eqb_neq len 0)) by lia. cbn [negb]. fold n.
    rewrite (proj2 (Nat.eqb_neq n 0)) by lia. rewrite E.
    rewrite (proj2 (Nat.eqb_neq n 0)) by lia.
    rewrite bool_decide_eq_false_2 by (intros ->; simpl in Hsum; lia). cbn [orb].
    rewrite Er, to_int_transfer by done. exists (iov_bytes ba <$> vs), r, s'.
    destruct (Z.ltb_spec 0 r) as [Hr|Hr].
    + destruct (setPosition_ok (position ba + Z.to_nat r) ba H) as (ba2&E2&Hi2&Hp2&Hc2&Hs2&Hl2&Hb2);
        [lia|].
      rewrite E2. exists ba2. split_and!; try done.
    + exists ba. replace (Z.to_nat r) with 0%nat in * by lia. split_and!; try done.
Qed.

Lemma bytearray_transfer_witness :
  let ba := mkByteArray 4 0 4 0 false [$"????"] (Some 0%nat) 1 in
  let st := mkSocketStream (Some (mkWire [$"hello "; $"world"] 4 [] 0)) true in
  ∃ r st' ba', read_bytearray (λ _ _, chr 0) 100 st (Some ba) = (inr r, st', Some ba') ∧
    r = 6 ∧ contents ba' = $"hello ".
Proof.
  intros ba st.
  destruct (bytearray_transfer (HSock := wire_socket) (λ _ _, chr 0) 100 st _ ba eq_refl eq_refl)
    as [(ns&r&data&s'&ba'&Er&Hsum&E&Hw&_) _].
  - split; simpl; try done; try lia; [by repeat constructor|]. intros k [= <-]. lia.
  - lia.
  - vm_compute. discriminate.
  - exists r, (set_socket s' st), ba'. split; [done|].
    assert (r = 6 ∧ data = $"hello ") as [-> ->].
    { cbn [recv_iov wire_socket] in Er. rewrite Hsum in Er.
      assert (wire_recv 100 (mkWire [$"hello "; $"world"] 4 [] 0) =
        (6, $"hello ", mkWire [$"world"] 4 [] 0)) as E0 by (vm_compute; reflexivity).
      rewrite E0 in Er. split; congruence. }
    split; [done|]. destruct (Hw ltac:(done)) as [_ W]. by rewrite (wrote_contents _ _ _ W).
Defined.

End StreamProofs.
