(* ===== verification/HttpSession.v ===== *)
(** [HttpSession] ([droplet/src/http/http_session.cc]): the server side of one
    HTTP connection over a socket stream, which keeps the bytes of pipelined
    requests between calls. *)

From S2P Require Import Prelude Http HttpParser HttpRequest HttpResponse RequestParser ByteArray Stream.
Import Http ParserText Stream.

Module HttpSession.
Section session.
Context {T : Type} `{Socket T}.

Record HttpSession := mkHttpSession {
  stream : SocketStream T;
  input_buffer_ : str;
  last_parse_error_ : HttpParseError;
  last_parse_error_message_ : str;
}.

(** The constructor. *)
Definition make (socket : option T) (owner : bool) : HttpSession :=
  mkHttpSession (mkSocketStream socket owner) [] NONE [].

Definition kDefaultBufferSize : nat := 4096%nat.

Definition set_stream (s : SocketStream T) (st : HttpSession) : HttpSession :=
  mkHttpSession s (input_buffer_ st) (last_parse_error_ st) (last_parse_error_message_ st).
Definition set_input (b : str) (st : HttpSession) : HttpSession :=
  mkHttpSession (stream st) b (last_parse_error_ st) (last_parse_error_message_ st).
Definition set_error (e : HttpParseError) (m : str) (st : HttpSession) : HttpSession :=
  mkHttpSession (stream st) (input_buffer_ st) e m.

Definition isConnected (st : HttpSession) : bool := connected (stream st).
Definition close (st : HttpSession) : HttpSession := set_stream (Stream.close (stream st)) st.
Definition getPendingInputSize (st : HttpSession) : nat := length (input_buffer_ st).

(** [errno = e]: the variable belongs to the thread, kept with the socket. *)
Definition put_errno (e : Z) (st : HttpSession) : HttpSession :=
  match socket_ (stream st) with
  | Some s => set_stream (set_socket (set_errno e s) (stream st)) st
  | None => st
  end.

(** The part of an iteration of [recvRequest] that looks at the buffer: the
    request, a parse error, or more input is needed. *)
Inductive look :=
  | Received (request : Request.HttpRequest) (st : HttpSession)
  | Rejected (st : HttpSession)
  | Wait (parser : RequestParser.HttpRequestParser) (st : HttpSession).

Definition look_at_buffer (parser : RequestParser.HttpRequestParser) (st : HttpSession) : look :=
  if negb (Nat.eqb (length (input_buffer_ st)) 0) then
    let buffered := length (input_buffer_ st) in
    let '(consumed, buffer, parser) :=
      RequestParser.execute_buffer (Some (input_buffer_ st)) parser in
    let st := set_input (default [] buffer) st in
    if RequestParser.hasError parser then
      Rejected (close (put_errno EPROTO
        (set_error (RequestParser.error parser) (RequestParser.error_message parser) st)))
    else if RequestParser.finished parser then
      Received (RequestParser.data parser)
        (set_input (take (buffered - consumed) (input_buffer_ st)) st)
    else Wait parser st
  else Wait parser st.

(** The loop; [None] when the fuel is used up. *)
Fixpoint recv_loop (fuel : nat) (parser : RequestParser.HttpRequestParser) (st : HttpSession)
    : option (option Request.HttpRequest * HttpSession) :=
  match fuel with
  | O => None
  | S fuel' =>
      match look_at_buffer parser st with
      | Received request st => Some (Some request, st)
      | Rejected st => Some (None, st)
      | Wait parser st =>
          let '(count, data, s) := read true kDefaultBufferSize (stream st) in
          let st := set_stream s st in
          if count <=? 0 then Some (None, close st)
          else recv_loop fuel' parser (set_input (input_buffer_ st ++ data) st)
      end
  end.

Definition recvRequest (fuel : nat) (st : HttpSession)
    : option (option Request.HttpRequest * HttpSession) :=
  recv_loop fuel RequestParser.make (set_error NONE [] st).

(** [sendResponse(const HttpResponse &)]. *)
Definition sendResponse (response : Response.HttpResponse) (st : HttpSession)
    : option (Z * HttpSession) :=
  let data := Response.toString response in
  '(r, s) ← writeFixSize (Some data) (length data) (stream st);
  Some (r, set_stream s st).

(** [sendResponse(const HttpResponse::Ptr &)]. *)
Definition sendResponse_ptr (response : option Response.HttpResponse) (st : HttpSession)
    : option (Z * HttpSession) :=
  match response with
  | None => Some (-1, put_errno EINVAL st)
  | Some r => sendResponse r st
  end.
End session.

Arguments HttpSession : clear implicits.
End HttpSession.
