(* ===== verification/SessionProofs.v ===== *)
(** What [HttpSession] guarantees: requests are received whole and in order
    however the bytes were cut into reads, and receiving ends with bounded
    memory. *)

From S2P Require Import Prelude Http HttpParser HttpRequest HttpResponse HeaderBlock RequestParser RequestRoundTrip ByteArray ByteArrayProofs Stream StreamProofs HttpSession.
Import Http ParserText HeaderBlock Stream StreamProofs HttpSession RequestParser RequestRoundTrip.

Module SessionProofs.
Section session.
Context {T : Type} `{HSock : Socket T, HLaws : !SocketLaws T}.
Implicit Types (st : HttpSession T) (s : SocketStream T).

(** ** The bytes the peer sends *)

(** Successive reads of the session return the given pieces. *)
Inductive delivers : SocketStream T → list str → SocketStream T → Prop :=
  | delivers_nil s : delivers s [] s
  | delivers_cons s c s1 cs s2 :
      read true kDefaultBufferSize s = (size c, c, s1) → c ≠ [] →
      delivers s1 cs s2 → delivers s (c :: cs) s2.

Lemma mjoin_nil_r (s : str) : s ++ mjoin (@nil str) = s.
Proof. apply app_nil_r. Qed.

Lemma size_pos (c : str) : c ≠ [] → 0 < size c.
Proof. unfold size. destruct c; [done|simpl; lia]. Qed.

(** ** Looking at the buffer *)

Lemma take_moved (n : nat) (i : str) :
  (n ≤ length i)%nat → take (length i - n) (drop n i ++ drop (length i - n) i) = drop n i.
Proof.
  intros Hn. rewrite take_app_le by (rewrite length_drop; lia).
  apply take_ge. rewrite length_drop. lia.
Qed.

Lemma set_input_same st : set_input (input_buffer_ st) st = st.
Proof. by destruct st. Qed.

Lemma execute_buffer_make i :
  i ≠ [] → execute_buffer (Some i) make =
    let '(consumed, p) := parse i make in
    if negb (Nat.eqb consumed 0) && (consumed <? length i)%nat
    then (consumed, Some (drop consumed i ++ drop (length i - consumed) i), p)
    else (consumed, Some i, p).
Proof.
  intros Hi. unfold execute_buffer. rewrite (proj2 (Nat.eqb_neq _ _)) by (by destruct i). done.
Qed.

Lemma hasError_none d m cl f : hasError (mkHttpRequestParser d NONE m cl f) = false.
Proof. done. Qed.

Lemma look_waits st :
  parse_message (input_buffer_ st) = inl NeedMore →
  look_at_buffer make st = Wait make st.
Proof.
  intros E. unfold look_at_buffer. destruct (Nat.eqb_spec (length (input_buffer_ st)) 0) as [|Hn];
    [done|]. cbn [negb]. rewrite execute_buffer_make by (by destruct (input_buffer_ st)).
  unfold parse. rewrite E. cbn [Nat.eqb negb andb default]. unfold id.
  by rewrite set_input_same.
Qed.

Lemma look_receives st n r cl :
  parse_message (input_buffer_ st) = inr (n, r, cl) →
  look_at_buffer make st = Received r (set_input (drop n (input_buffer_ st)) st).
Proof.
  intros E. pose proof (parse_message_inr _ _ _ _ E) as (r0&hs&_&Hn&Hle&Hhs&_).
  unfold look_at_buffer. rewrite (proj2 (Nat.eqb_neq _ _)) by lia. cbn [negb].
  rewrite execute_buffer_make by (destruct (input_buffer_ st); [simpl in Hle; lia|done]).
  unfold parse. rewrite E. rewrite (proj2 (Nat.eqb_neq n 0)) by lia. cbn [negb andb].
  change (error make) with NONE.
  destruct (Nat.ltb_spec n (length (input_buffer_ st))) as [Hlt|Hge];
    rewrite hasError_none; cbn [finished default data input_buffer_ set_input]; unfold id.
  - by rewrite take_moved.
  - rewrite drop_ge by lia. replace (_ - n)%nat with 0%nat by lia. by rewrite take_0.
Qed.

Lemma look_rejects st e m :
  parse_message (input_buffer_ st) = inl (Fail e m) →
  look_at_buffer make st =
    Rejected (HttpSession.close (put_errno EPROTO (HttpSession.set_error e m st))).
Proof.
  intros E. assert (e ≠ NONE) as He.
  { apply parse_message_stops in E as [[? _]|Hb]; [done|]. by intros ->. }
  assert (input_buffer_ st ≠ []) as Hne by (by intros Hn; rewrite Hn in E).
  unfold look_at_buffer. rewrite (proj2 (Nat.eqb_neq _ _)) by (by destruct (input_buffer_ st)).
  cbn [negb]. rewrite execute_buffer_make by done.
  unfold parse. rewrite E. cbn [Nat.eqb negb andb default]. unfold id.
  unfold hasError. cbn [setError error error_message]. rewrite bool_decide_eq_true_2 by done.
  by rewrite set_input_same.
Qed.

(** ** Receiving *)

Lemma recv_loop_delivered chunks : ∀ st s2 n r cl fuel,
  delivers (stream st) chunks s2 → (length chunks < fuel)%nat →
  parse_message (input_buffer_ st ++ mjoin chunks) = inr (n, r, cl) →
  ∃ got rest s1, chunks = got ++ rest ∧ delivers (stream st) got s1 ∧ delivers s1 rest s2 ∧
    (n ≤ length (input_buffer_ st ++ mjoin got))%nat ∧
    recv_loop fuel make st =
      Some (Some r, set_stream s1 (set_input (drop n (input_buffer_ st ++ mjoin got)) st)).
Proof.
  induction chunks as [|c chunks IH]; intros st s2 n r cl fuel Hd Hf Hp.
  - rewrite mjoin_nil_r in Hp. inversion Hd; subst.
    destruct fuel as [|fuel]; [simpl in Hf; lia|].
    exists [], [], (stream st). rewrite mjoin_nil_r.
    pose proof (parse_message_inr _ _ _ _ Hp) as (r0&hs&_&Hn&Hle&_).
    split_and!; try done; try constructor. cbn [recv_loop]. rewrite (look_receives _ _ _ _ Hp).
    by destruct st.
  - destruct fuel as [|fuel]; [simpl in Hf; lia|]. cbn [recv_loop].
    destruct (parse_message (input_buffer_ st)) as [[|e m|]|[[n' r'] cl']] eqn:E.
    + rewrite look_waits by done. inversion Hd as [|? ? s1 ? ? Er Hc Hd1]; subst.
      rewrite Er. pose proof (size_pos c Hc). rewrite (proj2 (Z.leb_gt _ _)) by lia.
      destruct (IH (set_input (input_buffer_ st ++ c) (set_stream s1 st)) s2 n r cl fuel)
        as (got&rest&s1'&->&Hg&Hr&Hn&Eq); [done|simpl in *; lia|cbn; by rewrite <- app_assoc|].
      exists (c :: got), rest, s1'. cbn in Hn, Eq. rewrite <- app_assoc in Hn, Eq.
      split_and!; [done|by econstructor|done|done|]. exact Eq.
    + rewrite parse_message_stable in Hp by congruence. congruence.
    + by apply parse_message_not_fuel in E.
    + rewrite parse_message_stable in Hp by congruence. rewrite E in Hp. injection Hp as -> -> ->.
      pose proof (parse_message_inr _ _ _ _ E) as (r0&hs&_&Hn&Hle&_).
      exists [], (c :: chunks), (stream st). rewrite mjoin_nil_r.
      split_and!; try done; try constructor. rewrite (look_receives _ _ _ _ E). by destruct st.
Qed.

(** Receives as many requests as there are. *)
Fixpoint recv_all (k fuel : nat) st : option (list Request.HttpRequest * HttpSession T) :=
  match k with
  | O => Some ([], st)
  | S k' =>
      match recvRequest fuel st with
      | Some (Some r, st) =>
          match recv_all k' fuel st with
          | Some (rs, st) => Some (r :: rs, st)
          | None => None
          end
      | _ => None
      end
  end.

Lemma recv_all_delivered rs : ∀ st chunks s2 rest fuel,
  Forall wf_request rs → delivers (stream st) chunks s2 → (length chunks < fuel)%nat →
  input_buffer_ st ++ mjoin chunks = mjoin (Request.dump <$> rs) ++ rest →
  ∃ rs' st' unread, recv_all (length rs) fuel st = Some (rs', st') ∧
    Forall2 same_request rs rs' ∧ delivers (stream st') unread s2 ∧
    (length unread ≤ length chunks)%nat ∧
    input_buffer_ st' ++ mjoin unread = rest.
Proof.
  induction rs as [|r rs IH]; intros st chunks s2 rest fuel Hwf Hd Hf Hw.
  { exists [], st, chunks. split_and!; try done. }
  apply Forall_cons in Hwf as [Hr Hwf]. rewrite fmap_cons in Hw.
  rewrite ByteArrayProofs.mjoin_cons, <- app_assoc in Hw.
  destruct (parse_dump r (mjoin (Request.dump <$> rs) ++ rest) Hr) as (r'&Ep&Hsame).
  rewrite <- Hw in Ep.
  destruct (recv_loop_delivered chunks (HttpSession.set_error NONE [] st) s2 _ _ _ fuel Hd Hf Ep)
    as (got&rest'&s1&->&Hg&Hrest&Hn&Eq).
  cbn [input_buffer_ HttpSession.set_error] in Hn, Eq.
  set (st1 := set_stream s1 _) in Eq.
  rewrite length_app in Hf.
  destruct (IH st1 rest' s2 rest fuel Hwf Hrest ltac:(lia)) as (rs'&st2&unread&E2&Hall&Hd2&Hl2&Hw2).
  { cbn. rewrite ByteArrayProofs.mjoin_app, app_assoc in Hw.
    apply (f_equal (drop (length (Request.dump r)))) in Hw. rewrite drop_app_length in Hw.
    by rewrite drop_app_le in Hw. }
  exists (r' :: rs'), st2, unread. cbn [recv_all length]. unfold recvRequest.
  rewrite Eq, E2. split_and!; try done; [by constructor|]. rewrite length_app. lia.
Qed.

(** ** Termination *)

Definition input_limit : nat := Z.to_nat (kMaxHeaderSize + kMaxBodySize).

Section bounded.
Context (limit : nat) (Hlimit : Z.of_nat limit = kMaxHeaderSize + kMaxBodySize).

Lemma read_result n s :
  let '(r, data, s') := read true n s in
  (length data ≤ n)%nat ∧ (r <= 0 ∨ r = size data ∧ data ≠ []).
Proof.
  pose proof (stream_read_result true n s) as Hr. cbn [stream_read socket_stream] in Hr.
  destruct (read true n s) as [[r data] s']. destruct Hr as (_&Hl&_&Hp). split; [done|].
  destruct (Z.leb_spec r 0); [by left|right]. specialize (Hp ltac:(lia)). split; [done|].
  intros ->. simpl in Hp. lia.
Qed.

(** What a call ends with. *)
Record ended st (res : option Request.HttpRequest) st' : Prop := {
  ended_closed : res = None → ∃ s, stream st' = Stream.close s;
  ended_error : last_parse_error_ st' ≠ NONE → res = None ∨ last_parse_error_ st ≠ NONE;
  ended_buffer : (length (input_buffer_ st') ≤
    Nat.max (length (input_buffer_ st)) (limit + kDefaultBufferSize))%nat;
}.

Lemma put_errno_fields e st :
  input_buffer_ (put_errno e st) = input_buffer_ st ∧
  last_parse_error_ (put_errno e st) = last_parse_error_ st.
Proof. unfold put_errno. by destruct (socket_ (stream st)). Qed.

Lemma ended_closed_by_parser st e msg :
  (length (input_buffer_ st) ≤ limit + kDefaultBufferSize)%nat ∨ True →
  ended st None (HttpSession.close (put_errno EPROTO (HttpSession.set_error e msg st))).
Proof.
  intros _. destruct (put_errno_fields EPROTO (HttpSession.set_error e msg st)) as [Eb _].
  split.
  - intros _. by eexists.
  - by left.
  - unfold HttpSession.close, set_stream. cbn [input_buffer_]. rewrite Eb. cbn. lia.
Qed.

Lemma ended_received st r b :
  (length b ≤ length (input_buffer_ st))%nat → ended st (Some r) (set_input b st).
Proof. intros Hb. split; [done|by right|]. cbn. lia. Qed.

Lemma ended_peer_closed st s : ended st None (HttpSession.close (set_stream s st)).
Proof. split; [by eexists|by right|]. cbn. lia. Qed.

Lemma ended_more st s d res st' :
  (length (input_buffer_ st) ≤ limit)%nat → (length d ≤ kDefaultBufferSize)%nat →
  ended (set_input (input_buffer_ st ++ d) (set_stream s st)) res st' → ended st res st'.
Proof.
  intros Hl Hd [H1 H2 H3]. split; [done|done|]. cbn in H3. rewrite length_app in H3. lia.
Qed.

Lemma recv_loop_ends m : ∀ st,
  (limit - length (input_buffer_ st) ≤ m)%nat →
  ∃ res st', recv_loop (S m) make st = Some (res, st') ∧ ended st res st'.
Proof.
  induction m as [|m IH]; intros st Hm; cbn [recv_loop];
    destruct (parse_message (input_buffer_ st)) as [[|e msg|]|[[n r] cl]] eqn:E;
    try (by apply parse_message_not_fuel in E);
    try (rewrite (look_rejects _ _ _ E); eexists _, _; split; [done|];
         apply ended_closed_by_parser; by right);
    try (rewrite (look_receives _ _ _ _ E); eexists _, _; split; [done|];
         apply ended_received; rewrite length_drop; lia).
  - apply parse_message_stops in E as [[_ Hl]|[]]. rewrite <- Hlimit in Hl. unfold size in Hl. lia.
  - assert (length (input_buffer_ st) < limit)%nat as Hl.
    { apply parse_message_stops in E as [[_ Hl]|[]]. rewrite <- Hlimit in Hl. unfold size in Hl. lia. }
    rewrite look_waits by done. pose proof (read_result kDefaultBufferSize (stream st)) as Hr.
    destruct (read true kDefaultBufferSize (stream st)) as [[count d] s].
    destruct Hr as [Hd [Hneg|[-> Hne]]].
    + rewrite (proj2 (Z.leb_le _ _)) by done. eexists _, _. split; [done|].
      apply ended_peer_closed.
    + pose proof (size_pos d Hne) as Hp. rewrite (proj2 (Z.leb_gt _ _)) by lia.
      destruct (IH (set_input (input_buffer_ st ++ d) (set_stream s st)))
        as (res&st'&Eq&Hended).
      { cbn. rewrite length_app. unfold size in Hp. lia. }
      exists res, st'. split; [exact Eq|]. eapply ended_more; [lia|done|exact Hended].
Qed.

End bounded.

(** ** Main theorems *)

(** Pipelined requests arrive whole and in order, however the bytes were
    cut.  When the reads of a connection return the printed form of a sequence
    of well-formed requests followed by any bytes, in pieces of any sizes, as
    many calls of [recvRequest] return those requests one after the other, and
    the session is left with exactly the bytes behind them, buffered or still
    unread. *)
Theorem pipelined_requests rs st chunks s2 rest fuel :
  Forall wf_request rs → delivers (stream st) chunks s2 → (length chunks < fuel)%nat →
  input_buffer_ st ++ mjoin chunks = mjoin (Request.dump <$> rs) ++ rest →
  ∃ rs' st' unread, recv_all (length rs) fuel st = Some (rs', st') ∧
    Forall2 same_request rs rs' ∧ delivers (stream st') unread s2 ∧
    input_buffer_ st' ++ mjoin unread = rest.
Proof.
  intros Hwf Hd Hf Hw.
  destruct (recv_all_delivered rs st chunks s2 rest fuel Hwf Hd Hf Hw)
    as (rs'&st'&unread&?&?&?&_&?).
  by exists rs', st', unread.
Qed.

(** Receiving a request ends, whatever the peer sends and however slowly:
    at the latest when the two limits of the parser are exceeded.  Without a
    request the connection has been closed; a parse error is recorded only
    then; and the input buffer never grows beyond the limits and one read. *)
Theorem recvRequest_ends st :
  ∃ fuel res st', recvRequest fuel st = Some (res, st') ∧
    (res = None → ∃ s, stream st' = Stream.close s) ∧
    (last_parse_error_ st' ≠ NONE → res = None) ∧
    (length (input_buffer_ st') ≤
      Nat.max (length (input_buffer_ st)) (input_limit + kDefaultBufferSize))%nat.
Proof.
  assert (Z.of_nat input_limit = kMaxHeaderSize + kMaxBodySize) as Hlimit
    by (apply Z2Nat.id; done).
  destruct (recv_loop_ends input_limit Hlimit input_limit (HttpSession.set_error NONE [] st))
    as (res&st'&E&[H1 H2 H3]); [lia|].
  exists (S input_limit), res, st'. split; [exact E|]. split; [exact H1|]. split; [|exact H3].
  intros He. destruct (H2 He) as [Hn|Hn]; [exact Hn|]. exfalso. apply Hn. reflexivity.
Qed.
End session.

(** Two requests, cut in the middle of the first head and of the second body. *)
Lemma pipelined_requests_witness :
  let text := Request.dump sample_request in
  let w := mkWire [take 10 text; drop 10 text ++ take 60 text; drop 60 text ++ $"GE"] 1 [] 0 in
  let st := HttpSession.make (Some w) true in
  ∃ rs' st', recv_all 2 4 st = Some (rs', st') ∧
    Forall2 same_request [sample_request; sample_request] rs' ∧
    input_buffer_ st' = $"GE".
Proof.
  intros text w st.
  set (chunks := [take 10 text; drop 10 text ++ take 60 text; drop 60 text ++ $"GE"]).
  destruct (pipelined_requests [sample_request; sample_request] st chunks
    (mkSocketStream (Some (mkWire [] 1 [] 0)) true) $"GE" 4)
    as (rs'&st'&unread&E&Hall&Hd&Hrest).
  - constructor; [exact sample_request_wf|]. constructor; [exact sample_request_wf|constructor].
  - do 3 (eapply delivers_cons; [vm_compute; reflexivity|by vm_compute|]). constructor.
  - simpl. lia.
  - vm_compute. reflexivity.
  - exists rs', st'. split; [exact E|]. split; [exact Hall|].
    assert (unread = []) as ->.
    { assert (stream st' = mkSocketStream (Some (mkWire [] 1 [] 0)) true) as Es.
      { apply (f_equal (λ o, (λ p, stream p.2) <$> o)) in E. cbn [fmap option_fmap option_map snd] in E.
        assert ((λ p, stream p.2) <$> recv_all 2 4 st =
          Some (mkSocketStream (Some (mkWire [] 1 [] 0)) true)) as E' by (vm_compute; reflexivity).
        cbn [length] in E. rewrite E' in E. congruence. }
      rewrite Es in Hd. inversion Hd as [|? c ? ? ? Er Hc]; [reflexivity|]. exfalso. apply Hc.
      assert (read true kDefaultBufferSize (mkSocketStream (Some (mkWire [] 1 [] 0)) true) =
        (0, [], mkSocketStream (Some (mkWire [] 1 [] 0)) true)) as E0 by reflexivity.
      rewrite E0 in Er. congruence. }
    by rewrite mjoin_nil_r in Hrest.
Defined.
End SessionProofs.
