(* ===== verification/Servlet.v ===== *)
(** Servlets and their routing ([droplet/src/http/servlet.cc],
    [droplet/include/droplet/http/servlet.h]) and the loop that serves one
    client ([droplet/src/http/http_server.cc]).  [fnmatch] is an argument; a
    servlet of the application is any function on the shared request, response
    and session. *)

From S2P Require Import Prelude Http HttpParser HttpRequest HttpResponse RequestParser Stream HttpSession.
Import Http.

Module Servlet.
Section servlets.
Context {T : Type} `{Stream.Socket T}.
Context (fnmatch : str → str → bool).

Abbreviation Session := (HttpSession.HttpSession T).

(** What a handler leaves: an exception or a result, and the three objects it
    was given pointers to. *)
Inductive thrown := StdException (what : str) | Unknown.
Definition outcome : Type :=
  (thrown + Z) * Request.HttpRequest * Response.HttpResponse * Session.

(** The virtual [handle], called with pointers that are not null. *)
Record Servlet := mkServlet {
  name_ : str;
  handle : Request.HttpRequest → Response.HttpResponse → Session → outcome;
}.

(** [FunctionServlet]; the callback may be empty. *)
Definition Callback : Type := Request.HttpRequest → Response.HttpResponse → Session → outcome.

Definition FunctionServlet (callback : option Callback) : Servlet :=
  mkServlet $"FunctionServlet" (λ request response session,
    match callback with
    | Some f => f request response session
    | None =>
        (inr (-1), request,
         Response.setBody $"Servlet callback is empty"
           (Response.setStatus INTERNAL_SERVER_ERROR response), session)
    end).

(** [NotFoundServlet]. *)
Definition not_found_content (server_name : str) : str :=
  $"<!doctype html><html><head><title>404 Not Found</title></head>" ++
  $"<body><h1>404 Not Found</h1><hr><p>" ++ server_name ++ $"</p></body></html>".

Definition NotFoundServlet (server_name : str) : Servlet :=
  mkServlet $"NotFoundServlet" (λ request response session,
    let response := Response.setStatus NOT_FOUND response in
    let response :=
      if negb (Response.hasHeader $"Server" response).1
      then Response.setHeader $"Server" server_name response else response in
    let response := Response.setHeader $"Content-Type" $"text/html; charset=utf-8" response in
    (inr 0, request, Response.setBody (not_found_content server_name) response, session)).

(** ** Routing *)

(** [exact_routes_] maps each path; [glob_routes_] is the vector in order. *)
Record ServletDispatch := mkServletDispatch {
  exact_routes_ : gmap str Servlet;
  glob_routes_ : list (str * Servlet);
  default_ : option Servlet;
}.

Definition make (server_name : str) : ServletDispatch :=
  mkServletDispatch ∅ [] (Some (NotFoundServlet server_name)).

Definition set_exact (m : gmap str Servlet) (d : ServletDispatch) : ServletDispatch :=
  mkServletDispatch m (glob_routes_ d) (default_ d).
Definition set_globs (l : list (str * Servlet)) (d : ServletDispatch) : ServletDispatch :=
  mkServletDispatch (exact_routes_ d) l (default_ d).
Definition setDefault (servlet : option Servlet) (d : ServletDispatch) : ServletDispatch :=
  mkServletDispatch (exact_routes_ d) (glob_routes_ d) servlet.

(** [std::find_if] on the patterns: the position of the route. *)
Definition find_route (pattern : str) (l : list (str * Servlet)) : option nat :=
  fst <$> list_find (λ r, r.1 = pattern) l.

Definition delServlet (uri : str) (d : ServletDispatch) : bool * ServletDispatch :=
  match exact_routes_ d !! uri with
  | None => (false, d)
  | Some _ => (true, set_exact (delete uri (exact_routes_ d)) d)
  end.

Definition delGlobServlet (pattern : str) (d : ServletDispatch) : bool * ServletDispatch :=
  match find_route pattern (glob_routes_ d) with
  | None => (false, d)
  | Some i => (true, set_globs (delete i (glob_routes_ d)) d)
  end.

Definition addServlet (uri : str) (servlet : option Servlet) (d : ServletDispatch)
    : ServletDispatch :=
  match servlet with
  | None => (delServlet uri d).2
  | Some s => set_exact (<[uri := s]> (exact_routes_ d)) d
  end.

Definition addServlet_callback (uri : str) (callback : option Callback) (d : ServletDispatch)
    : ServletDispatch := addServlet uri (Some (FunctionServlet callback)) d.

Definition addGlobServlet (pattern : str) (servlet : option Servlet) (d : ServletDispatch)
    : ServletDispatch :=
  match servlet with
  | None => (delGlobServlet pattern d).2
  | Some s =>
      let routes :=
        match find_route pattern (glob_routes_ d) with
        | Some i => delete i (glob_routes_ d)
        | None => glob_routes_ d
        end in
      set_globs (routes ++ [(pattern, s)]) d
  end.

Definition addGlobServlet_callback (pattern : str) (callback : option Callback)
    (d : ServletDispatch) : ServletDispatch :=
  addGlobServlet pattern (Some (FunctionServlet callback)) d.

Definition getServlet (uri : str) (d : ServletDispatch) : option Servlet :=
  exact_routes_ d !! uri.

Definition getGlobServlet (pattern : str) (d : ServletDispatch) : option Servlet :=
  i ← find_route pattern (glob_routes_ d); snd <$> glob_routes_ d !! i.

(** The text a C function sees behind [c_str()]. *)
Definition c_str (s : str) : str :=
  match find_char Byte.x00 s with Some i => take i s | None => s end.

Fixpoint match_globs (uri : str) (l : list (str * Servlet)) : option Servlet :=
  match l with
  | [] => None
  | (pattern, servlet) :: l' =>
      if fnmatch (c_str pattern) (c_str uri) then Some servlet else match_globs uri l'
  end.

Definition getMatchedServlet (uri : str) (d : ServletDispatch) : option Servlet :=
  match exact_routes_ d !! uri with
  | Some s => Some s
  | None =>
      match match_globs uri (glob_routes_ d) with
      | Some s => Some s
      | None => default_ d
      end
  end.

(** [ServletDispatch::handle]. *)
Definition dispatch_handle (d : ServletDispatch) (request : Request.HttpRequest)
    (response : Response.HttpResponse) (session : Session) : outcome :=
  match getMatchedServlet (Request.path request) d with
  | None =>
      (inr (-1), request,
       Response.setBody $"No default servlet is configured"
         (Response.setStatus INTERNAL_SERVER_ERROR response), session)
  | Some s => handle s request response session
  end.

(** ** The server *)

Record HttpServer := mkHttpServer {
  keep_alive_ : bool;
  server_name_ : str;
  dispatch_ : option ServletDispatch;
}.

Definition setServletDispatch (dispatch : option ServletDispatch) (s : HttpServer) : HttpServer :=
  mkHttpServer (keep_alive_ s) (server_name_ s)
    (Some (default (make (server_name_ s)) dispatch)).

Definition setName (name : str) (s : HttpServer) : HttpServer :=
  mkHttpServer (keep_alive_ s) name
    (setDefault (Some (NotFoundServlet name)) <$> dispatch_ s).

(** The response the servlet is given. *)
Definition initial_response (server : HttpServer) (request : Request.HttpRequest)
    : Response.HttpResponse :=
  Response.setClose (Request.close request || negb (keep_alive_ server))
    (Response.setHeader $"Server" (server_name_ server) (Request.createResponse request)).

Definition internal_error (body : str) (response : Response.HttpResponse)
    : Response.HttpResponse :=
  Response.setBody body (Response.setStatus INTERNAL_SERVER_ERROR response).

(** The [try] block with its handlers. *)
Definition run_dispatch (server : HttpServer) (request : Request.HttpRequest)
    (response : Response.HttpResponse) (session : Session)
    : Request.HttpRequest * Response.HttpResponse * Session :=
  match dispatch_ server with
  | None =>
      (request, internal_error $"No servlet dispatcher is configured" response, session)
  | Some d =>
      match dispatch_handle d request response session with
      | (inr _, request, response, session) => (request, response, session)
      | (inl _, request, response, session) =>
          (request, internal_error $"Internal Server Error" response, session)
      end
  end.

(** What is decided behind the [try] block: the response that is sent and
    whether the connection is closed after it. *)
Definition final_response (server : HttpServer) (request : Request.HttpRequest)
    (response : Response.HttpResponse) : Response.HttpResponse * bool :=
  let close_after_response :=
    Response.close response || Request.close request || negb (keep_alive_ server) in
  let response := Response.setClose close_after_response response in
  let response :=
    if bool_decide (Request.method request = HEAD) then Response.setBody [] response
    else response in
  (response, close_after_response).

(** The loop of [handleClient], with fuel for its rounds and for the loop of
    [recvRequest]. *)
Fixpoint serve (fuel recv_fuel : nat) (server : HttpServer) (session : Session)
    : option Session :=
  match fuel with
  | O => None
  | S fuel' =>
      if negb (HttpSession.isConnected session) then Some (HttpSession.close session)
      else
        match HttpSession.recvRequest recv_fuel session with
        | None => None
        | Some (None, session) => Some (HttpSession.close session)
        | Some (Some request, session) =>
            let response := initial_response server request in
            let '(request, response, session) := run_dispatch server request response session in
            let '(response, close_after_response) := final_response server request response in
            match HttpSession.sendResponse response session with
            | None => None
            | Some (sent, session) =>
                if (sent <=? 0) || close_after_response then Some (HttpSession.close session)
                else serve fuel' recv_fuel server session
            end
        end
  end.

Definition handleClient (fuel recv_fuel : nat) (server : HttpServer) (client : option T)
    : option Session :=
  serve fuel recv_fuel server (HttpSession.make client true).
End servlets.

Arguments Servlet T : clear implicits.
Arguments ServletDispatch T : clear implicits.
Arguments HttpServer T : clear implicits.
End Servlet.
