(* ===== verification/ServerProofs.v ===== *)
(** Routing follows the history of registrations, and the server answers the
    requests of a connection in order. *)

From S2P Require Import Prelude Http HttpParser HttpRequest HttpResponse HeaderBlock RequestParser RequestRoundTrip ByteArray ByteArrayProofs Stream StreamProofs HttpSession SessionProofs Servlet.
Import Http ParserText RequestRoundTrip ByteArrayProofs Stream StreamProofs HttpSession SessionProofs Servlet.

Module ServerProofs.

(** ** Routing *)

Section routing.
Context {T : Type}.
Context (fnmatch : str → str → bool).

(** The calls that change the table; [None] is a null servlet or a removal. *)
Inductive registration :=
  | Exact (uri : str) (s : option (Servlet.Servlet T))
  | RemoveExact (uri : str)
  | Glob (pattern : str) (s : option (Servlet.Servlet T))
  | RemoveGlob (pattern : str)
  | Default (s : option (Servlet.Servlet T)).

Definition register (o : registration) (d : ServletDispatch T) : ServletDispatch T :=
  match o with
  | Exact uri s => addServlet uri s d
  | RemoveExact uri => (delServlet uri d).2
  | Glob pattern s => addGlobServlet pattern s d
  | RemoveGlob pattern => (delGlobServlet pattern d).2
  | Default s => setDefault s d
  end.

(** The table after a history, whose latest call comes first. *)
Fixpoint table (history : list registration) (d : ServletDispatch T) : ServletDispatch T :=
  match history with
  | [] => d
  | o :: earlier => register o (table earlier d)
  end.

(** ** What a history means *)

(** The latest call on a path decides. *)
Fixpoint exact_in_force (uri : str) (history : list registration) : option (Servlet.Servlet T) :=
  match history with
  | [] => None
  | Exact u s :: earlier => if decide (u = uri) then s else exact_in_force uri earlier
  | RemoveExact u :: earlier => if decide (u = uri) then None else exact_in_force uri earlier
  | _ :: earlier => exact_in_force uri earlier
  end.

(** The patterns in force, the latest first: only the latest call on each
    pattern counts. *)
Fixpoint globs_in_force (seen : list str) (history : list registration)
    : list (str * Servlet.Servlet T) :=
  match history with
  | [] => []
  | Glob p s :: earlier =>
      let others := globs_in_force (p :: seen) earlier in
      if decide (p ∈ seen) then globs_in_force seen earlier
      else match s with Some s => (p, s) :: others | None => others end
  | RemoveGlob p :: earlier =>
      if decide (p ∈ seen) then globs_in_force seen earlier
      else globs_in_force (p :: seen) earlier
  | _ :: earlier => globs_in_force seen earlier
  end.

Fixpoint default_in_force (initial : option (Servlet.Servlet T)) (history : list registration)
    : option (Servlet.Servlet T) :=
  match history with
  | [] => initial
  | Default s :: _ => s
  | _ :: earlier => default_in_force initial earlier
  end.

(** ** The table agrees with its history *)

Definition without (p : str) (l : list (str * Servlet.Servlet T)) :=
  filter (λ r, r.1 ≠ p) l.

Lemma without_id p l : p ∉ l.*1 → without p l = l.
Proof.
  unfold without. induction l as [|[q s] l IH]; simpl; intros Hp; [done|].
  apply not_elem_of_cons in Hp as [Hq Hp]. rewrite filter_cons_True by (simpl; congruence).
  by rewrite IH.
Qed.

Lemma without_elem p q l : q ∈ (without p l).*1 → q ∈ l.*1 ∧ q ≠ p.
Proof.
  intros (r&->&Hr)%list_elem_of_fmap. apply list_elem_of_filter in Hr as [Hn Hr].
  split; [|done]. apply list_elem_of_fmap. by exists r.
Qed.

Lemma without_NoDup p l : NoDup l.*1 → NoDup (without p l).*1.
Proof.
  induction l as [|[q s] l IH]; intros Hn; [constructor|]. cbn in Hn.
  apply NoDup_cons in Hn as [Hq Hn]. unfold without. rewrite filter_cons. case_decide; [|by apply IH].
  cbn. constructor; [|by apply IH]. by intros [? _]%without_elem.
Qed.

(** [find_if] and [erase] remove the one route of a pattern. *)
Lemma erase_route p l :
  NoDup l.*1 →
  match find_route p l with Some i => delete i l | None => l end = without p l.
Proof.
  intros Hn. unfold find_route. destruct (list_find (λ r, r.1 = p) l) as [[i r]|] eqn:E.
  - apply list_find_Some in E as (Hi&Hr&Hbefore). cbn.
    rewrite <- (take_drop_middle l i r) by done. set (a := take i l). set (b := drop (S i) l).
    assert (l.*1 = a.*1 ++ r.1 :: b.*1) as El
      by (unfold a, b; by rewrite <- (take_drop_middle l i r Hi) at 1; rewrite fmap_app).
    rewrite El in Hn. apply NoDup_app in Hn as (Ha&Hab&Hb). apply NoDup_cons in Hb as [Hrb Hb].
    rewrite delete_take_drop. assert (length a = i) as Ela
      by (unfold a; rewrite length_take; apply lookup_lt_Some in Hi; lia).
    rewrite <- Ela at 1. rewrite take_app_length.
    replace (drop (S i) (a ++ r :: b)) with b
      by (rewrite <- Ela, drop_app_ge by lia; by replace (S (length a) - length a)%nat with 1%nat by lia).
    unfold without. rewrite filter_app, filter_cons_False by tauto.
    fold (without p a) (without p b). rewrite !without_id; [done|congruence|].
    subst p. intros Hin. apply (Hab _ Hin). apply elem_of_cons. by left.
  - apply list_find_None in E. cbn. rewrite without_id; [done|].
    intros (r&->&Hr)%list_elem_of_fmap. rewrite Forall_forall in E. by apply (E r).
Qed.

Lemma globs_cons p seen history :
  p ∉ seen → globs_in_force (p :: seen) history = without p (globs_in_force seen history).
Proof.
  revert p seen. induction history as [|o history IH]; intros p seen Hp; [done|].
  destruct o as [u s|u|q s|q|s]; cbn [globs_in_force]; try by apply IH.
  - destruct (decide (q ∈ seen)) as [Hq|Hq].
    { rewrite decide_True by set_solver. by apply IH. }
    destruct (decide (q = p)) as [->|Hne].
    + rewrite decide_True by set_solver. destruct s as [s|].
      * unfold without. rewrite filter_cons_False by (simpl; tauto). fold (without p (globs_in_force (p :: seen) history)).
        rewrite without_id; [done|]. rewrite (IH p seen) by done. by intros [_ ?]%without_elem.
      * rewrite without_id; [done|]. rewrite (IH p seen) by done. by intros [_ ?]%without_elem.
    + rewrite decide_False by set_solver.
      assert (globs_in_force (q :: p :: seen) history =
        without p (globs_in_force (q :: seen) history)) as E.
      { rewrite (IH q (p :: seen)) by set_solver. rewrite (IH p seen) by done. rewrite (IH q seen) by done.
        unfold without. rewrite !list_filter_filter. apply list_filter_iff. naive_solver. }
      rewrite E. destruct s as [s|]; [|done]. unfold without.
      by rewrite filter_cons_True by (simpl; congruence).
  - destruct (decide (q ∈ seen)) as [Hq|Hq].
    { rewrite decide_True by set_solver. by apply IH. }
    destruct (decide (q = p)) as [->|Hne].
    + rewrite decide_True by set_solver.
      rewrite without_id; [done|]. rewrite (IH p seen) by done. by intros [_ ?]%without_elem.
    + rewrite decide_False by set_solver. rewrite (IH q (p :: seen)) by set_solver.
      rewrite (IH p seen), (IH q seen) by done. unfold without. rewrite !list_filter_filter.
      apply list_filter_iff. naive_solver.
Qed.

Lemma globs_NoDup seen history :
  NoDup (globs_in_force seen history).*1 ∧ ∀ p, p ∈ seen → p ∉ (globs_in_force seen history).*1.
Proof.
  revert seen. induction history as [|o history IH]; intros seen;
    [split; [constructor|set_solver]|].
  destruct o as [u s|u|q s|q|s]; cbn [globs_in_force]; try apply IH.
  - destruct (decide (q ∈ seen)); [apply IH|]. destruct (IH (q :: seen)) as [Hn Hs].
    destruct s as [s|]; [|split; [done|set_solver]]. cbn. split.
    + constructor; [|done]. apply Hs. set_solver.
    + intros p Hp. apply not_elem_of_cons. split; [by intros ->|]. apply Hs. set_solver.
  - destruct (decide (q ∈ seen)); [apply IH|]. destruct (IH (q :: seen)) as [Hn Hs].
    split; [done|set_solver].
Qed.

Lemma table_globs history d :
  glob_routes_ d = [] →
  glob_routes_ (table history d) = reverse (globs_in_force [] history).
Proof.
  intros Hd. induction history as [|o history IH]; [done|].
  assert (NoDup (glob_routes_ (table history d)).*1) as Hn.
  { rewrite IH, fmap_reverse. rewrite reverse_Permutation. apply globs_NoDup. }
  assert (∀ p, without p (glob_routes_ (table history d)) =
    reverse (globs_in_force [p] history)) as Hw.
  { intros p. rewrite IH, globs_cons by set_solver. unfold without. by rewrite filter_reverse. }
  destruct o as [u s|u|q s|q|s]; cbn [table register globs_in_force]; [| | | |done].
  - unfold addServlet, delServlet. destruct s; [done|].
    by destruct (exact_routes_ (table history d) !! u).
  - unfold delServlet. by destruct (exact_routes_ (table history d) !! u).
  - rewrite decide_False by set_solver. pose proof (erase_route q _ Hn) as He. rewrite Hw in He.
    unfold addGlobServlet, delGlobServlet. destruct s as [s|]; cbn [glob_routes_ set_globs].
    + rewrite He. by rewrite reverse_cons.
    + by destruct (find_route q (glob_routes_ (table history d))).
  - rewrite decide_False by set_solver. pose proof (erase_route q _ Hn) as He. rewrite Hw in He.
    unfold delGlobServlet. by destruct (find_route q (glob_routes_ (table history d))).
Qed.

Lemma table_exact history d uri :
  exact_routes_ d = ∅ → exact_routes_ (table history d) !! uri = exact_in_force uri history.
Proof.
  intros Hd. induction history as [|o history IH]; [cbn; by rewrite Hd|].
  assert (∀ u, exact_routes_ (delServlet u (table history d)).2 !! uri =
    if decide (u = uri) then None else exact_in_force uri history) as Hdel.
  { intros u. unfold delServlet. destruct (exact_routes_ (table history d) !! u) eqn:E; cbn.
    - case_decide as Hu; [subst; apply lookup_delete_eq|by rewrite lookup_delete_ne].
    - case_decide as Hu; [by subst|done]. }
  destruct o as [u s|u|q s|q|s]; cbn [table register exact_in_force]; try done.
  - destruct s as [s|]; cbn [addServlet]; [|apply Hdel].
    cbn. case_decide as Hu; [subst; apply lookup_insert_eq|by rewrite lookup_insert_ne].
  - unfold addGlobServlet, delGlobServlet. destruct s; [done|]. by destruct (find_route q _).
  - unfold delGlobServlet. by destruct (find_route q _).
Qed.

Lemma table_default history d :
  default_ (table history d) = default_in_force (default_ d) history.
Proof.
  induction history as [|o history IH]; [done|].
  destruct o as [u s|u|q s|q|s]; cbn [table register default_in_force]; try done.
  - unfold addServlet, delServlet. destruct s; [done|].
    by destruct (exact_routes_ (table history d) !! u).
  - unfold delServlet. by destruct (exact_routes_ (table history d) !! u).
  - unfold addGlobServlet, delGlobServlet. destruct s; [done|]. by destruct (find_route q _).
  - unfold delGlobServlet. by destruct (find_route q _).
Qed.

(** Routing follows the history of the registrations.  A path goes to the
    servlet of the latest call on exactly that path; without one, to the first
    pattern in force that matches, in the order of their latest registrations,
    so that registering a pattern again moves it behind the others; without
    one, to the latest default. *)
Theorem routing_follows_history history name uri :
  getMatchedServlet fnmatch uri (table history (Servlet.make name)) =
    match exact_in_force uri history with
    | Some s => Some s
    | None =>
        match match_globs fnmatch uri (reverse (globs_in_force [] history)) with
        | Some s => Some s
        | None => default_in_force (Some (NotFoundServlet name)) history
        end
    end.
Proof.
  unfold getMatchedServlet. rewrite table_exact by done. rewrite table_globs by done.
  by rewrite table_default.
Qed.
End routing.

(** ** Serving a connection *)

(** A peer whose request bytes arrive in the given pieces, each no larger than
    the read buffer of the session. *)
Definition pieces (chunks : list str) : Prop :=
  Forall (λ c, c ≠ [] ∧ (length c ≤ kDefaultBufferSize)%nat) chunks.

Section server.
Context (fnmatch : str → str → bool).
Context (acc : nat) (Hacc : (0 < acc)%nat).

Definition peer (inc : list str) (out : str) : SocketStream wire :=
  mkSocketStream (Some (mkWire inc acc out 0)) true.

Lemma peer_read c cs out :
  c ≠ [] → (length c ≤ kDefaultBufferSize)%nat →
  read true kDefaultBufferSize (peer (c :: cs) out) = (size c, c, peer cs out).
Proof.
  intros Hc Hl. unfold peer, read. cbn [socket_ Stream.isConnected wire_socket negb andb orb].
  assert (Nat.min kDefaultBufferSize 4096 = kDefaultBufferSize) as Em by apply Nat.min_id.
  assert (ssize_max <? Z.of_nat kDefaultBufferSize = false) as -> by done.
  cbn [recv wire_socket]. unfold wire_recv. cbn [incoming]. rewrite Em.
  rewrite take_ge, drop_ge by done. rewrite to_int_small; [done|].
  unfold kDefaultBufferSize in Hl. lia.
Qed.

Lemma peer_delivers chunks out : pieces chunks → delivers (peer chunks out) chunks (peer [] out).
Proof.
  induction 1 as [|c chunks [Hc Hl] _ IH]; [constructor|].
  econstructor; [by apply peer_read|done|done].
Qed.

Lemma peer_delivered got rest out s1 :
  pieces (got ++ rest) → delivers (peer (got ++ rest) out) got s1 → s1 = peer rest out.
Proof.
  induction got as [|c got IH]; intros Hp Hd; [by inversion Hd|].
  cbn [app] in *. apply Forall_cons in Hp as [[Hc Hl] Hp].
  inversion Hd as [|? ? s ? ? Er _ Hd']; subst.
  rewrite peer_read in Er by done. injection Er as <-. by apply IH.
Qed.

(** A peer that keeps accepting bytes gets all of them. *)
Lemma peer_write_loop data inc fuel : ∀ offset out,
  size data < 2 ^ 31 → (offset ≤ length data)%nat → (length data - offset ≤ fuel)%nat →
  write_loop fuel offset data (peer inc out) =
    Some (size data, peer inc (out ++ drop offset data)).
Proof.
  induction fuel as [|fuel IH]; intros offset out Hs Ho Hf; cbn [write_loop].
  - rewrite (proj2 (Nat.ltb_ge _ _)) by lia. rewrite drop_ge, app_nil_r by lia.
    unfold size in *. by rewrite to_int_small by lia.
  - destruct (Nat.ltb_spec offset (length data)) as [Hlt|Hge].
    2:{ rewrite drop_ge, app_nil_r by lia. unfold size in *. by rewrite to_int_small by lia. }
    cbn [stream_write socket_stream default]. unfold id, write, peer.
    cbn [socket_ Stream.isConnected wire_socket negb]. unfold size in Hs.
    pose proof (length_drop data offset) as Hd. set (d := drop offset data) in *.
    rewrite (proj2 (Z.ltb_ge _ _)) by (unfold ssize_max; lia). rewrite (take_ge d) by lia.
    cbn [send wire_socket]. unfold wire_send. cbv beta iota zeta. cbn [accepts incoming outgoing wire_errno].
    pose proof (length_take d (Nat.min acc 4096)) as Ht. set (t := take (Nat.min acc 4096) d) in *.
    assert (0 < length t ≤ 4096)%nat as Hb by (clear - Ht Hd Hlt Hacc; lia).
    cbv beta iota zeta. rewrite to_int_small by lia. rewrite (proj2 (Z.leb_gt _ _)) by lia. rewrite Nat2Z.id.
    unfold set_socket. cbn [owner_]. fold (peer inc (out ++ t)).
    fold (peer inc (out ++ d)). rewrite IH by (unfold size; lia). do 2 f_equal.
    rewrite <- app_assoc, <- drop_drop. fold d.
    assert (t ++ drop (length t) d = d) as Etd; [|by rewrite Etd].
    replace (drop (length t) d) with (drop (Nat.min acc 4096) d).
    { apply take_drop. }
    rewrite Ht. destruct (decide (Nat.min acc 4096 ≤ length d)%nat).
    + by rewrite (Nat.min_l (Nat.min acc 4096)).
    + rewrite (Nat.min_r (Nat.min acc 4096)) by lia. by rewrite !drop_ge by lia.
Qed.

Lemma peer_sends r inc out b e m :
  0 < size (Response.toString r) < 2 ^ 31 →
  sendResponse r (mkHttpSession (peer inc out) b e m) =
    Some (size (Response.toString r),
      mkHttpSession (peer inc (out ++ Response.toString r)) b e m).
Proof.
  intros Hs. unfold sendResponse. cbv zeta. cbn [stream].
  unfold writeFixSize. rewrite take_ge by lia.
  rewrite peer_write_loop by lia. rewrite drop_0. done.
Qed.

(** ** The answers *)

Context (server : HttpServer wire).
(** The servlet fills in the response and touches nothing else. *)
Context (answer : Request.HttpRequest → Response.HttpResponse → Response.HttpResponse).
Definition pure_servlet : Prop := ∀ request response session,
  run_dispatch fnmatch server request response session = (request, answer request response, session).

(** What the client is owed for a request: the answer, announcing whether the
    connection is closed, which the servlet, the request or the server may
    decide; and that decision. *)
Definition reply (request : Request.HttpRequest) : Response.HttpResponse * bool :=
  let response := answer request (initial_response server request) in
  let closes :=
    Response.close response || Request.close request || negb (keep_alive_ server) in
  (Response.mkHttpResponse (Response.status response) (Response.version response) closes
     (Response.websocket response)
     (Response.body response)
     (Response.reason response) (Response.headers response) (Response.cookies response), closes).

Lemma final_response_reply request :
  Request.method request ≠ HEAD →
  final_response server request (answer request (initial_response server request)) = reply request.
Proof.
  intros Hm. unfold final_response, reply. cbv zeta. rewrite bool_decide_eq_false_2 by done.
  by destruct (answer _ _).
Qed.

(** A HEAD request gets the answer with its body taken out, and the
    serializer then announces no length: unless the servlet set the header
    itself or the status has no body, the answer says [Content-Length: 0],
    whatever the length of the answer to the same GET. *)
Lemma final_response_head request :
  Request.method request = HEAD →
  final_response server request (answer request (initial_response server request)) =
    (Response.setBody [] (reply request).1, (reply request).2).
Proof.
  intros Hm. unfold final_response, reply. cbv zeta. rewrite bool_decide_eq_true_2 by done.
  by destruct (answer _ _).
Qed.

(** The answers to a sequence of requests: up to the first one after which the
    connection is closed. *)
Fixpoint replies (requests : list Request.HttpRequest) : list Response.HttpResponse :=
  match requests with
  | [] => []
  | r :: requests' => (reply r).1 :: (if (reply r).2 then [] else replies requests')
  end.

(** The text of an answer has a length that fits in an [int]. *)
Definition reply_fits (request : Request.HttpRequest) : Prop :=
  0 < size (Response.toString (reply request).1) < 2 ^ 31.

Definition output (st : HttpSession.HttpSession wire) : str :=
  match socket_ (stream st) with Some w => outgoing w | None => [] end.

Lemma recv_none out e m fuel :
  (0 < fuel)%nat →
  recvRequest fuel (mkHttpSession (peer [] out) [] e m) =
    Some (None, HttpSession.close (mkHttpSession (peer [] out) [] NONE [])).
Proof. intros Hf. destruct fuel; [lia|]. reflexivity. Qed.

Lemma serve_pieces fuel_r rs : ∀ rqs chunks b e m out,
  pure_servlet → Forall reply_fits rqs → pieces chunks → (length chunks < fuel_r)%nat →
  Forall wf_request rs → Forall (λ r, Request.method r ≠ HEAD) rqs →
  b ++ mjoin chunks = mjoin (Request.dump <$> rs) →
  (∀ i r rest, rs !! i = Some r → ∃ r', rqs !! i = Some r' ∧
    RequestParser.parse_message (Request.dump r ++ rest) =
      inr (length (Request.dump r), r', size (Request.body r))) →
  length rqs = length rs →
  ∃ st', serve fnmatch (S (length rs)) fuel_r server (mkHttpSession (peer chunks out) b e m) =
      Some st' ∧
    output st' = out ++ mjoin (Response.toString <$> replies rqs).
Proof.
  induction rs as [|r rs IH]; intros rqs chunks b e m out Hpure Hfit Hp Hf Hwf Hget Hw Hrqs Hlen.
  - destruct rqs; [|done]. cbn in Hw. apply app_nil in Hw as [-> Hc].
    destruct chunks as [|c chunks].
    2:{ apply Forall_cons in Hp as [[Hc' _] _]. rewrite mjoin_cons in Hc.
        by apply app_nil in Hc as [? _]. }
    cbn [serve length]. rewrite recv_none by lia. eexists. split; [done|].
    cbn. by rewrite app_nil_r.
  - destruct rqs as [|r' rqs]; [done|]. apply Forall_cons in Hwf as [Hr Hwf].
    apply Forall_cons in Hfit as [Hr' Hfit]. apply Forall_cons in Hget as [Hr'' Hget].
    rewrite fmap_cons, mjoin_cons in Hw.
    destruct (Hrqs 0%nat r (mjoin (Request.dump <$> rs)) eq_refl) as (r1&[= <-]&Epm).
    rewrite <- Hw in Epm.
    destruct (recv_loop_delivered chunks (mkHttpSession (peer chunks out) b NONE []) (peer [] out)
      _ _ _ fuel_r (peer_delivers chunks out Hp) Hf Epm)
      as (got&rest&s1&->&Hg&_&Hn&Eq).
    cbn [stream input_buffer_] in *.
    assert (s1 = peer rest out) as -> by (by apply (peer_delivered got)).
    cbn [serve length]. unfold HttpSession.isConnected, connected. cbn [stream socket_ peer Stream.isConnected wire_socket negb].
    unfold recvRequest. unfold HttpSession.set_error. cbn [stream input_buffer_].
    fold (peer (got ++ rest) out). rewrite Eq.
    unfold set_stream, set_input. cbn [stream input_buffer_ last_parse_error_ last_parse_error_message_].
    rewrite Hpure, final_response_reply by done. unfold reply_fits in Hr'.
    destruct (reply r') as [response close_after] eqn:Erep.
    cbn [fst] in Hr'. rewrite peer_sends by done. rewrite (proj2 (Z.leb_gt _ _)) by lia. cbn [orb].
    destruct close_after.
    + eexists. split; [done|]. cbn [replies]. rewrite Erep. cbn [fst snd fmap list_fmap].
      change (mjoin [Response.toString response]) with (Response.toString response ++ []).
      by rewrite app_nil_r.
    + unfold pieces in Hp. apply Forall_app in Hp as [_ Hp]. rewrite length_app in Hf.
      destruct (IH rqs rest (drop (length (Request.dump r)) (b ++ mjoin got)) NONE []
        (out ++ Response.toString response)) as (st'&Es&Eo); try done; [lia| | |by injection Hlen|].
      * rewrite mjoin_app, app_assoc in Hw.
        apply (f_equal (drop (length (Request.dump r)))) in Hw. rewrite drop_app_length in Hw.
        by rewrite drop_app_le in Hw.
      * intros i q rest' Hi. apply (Hrqs (S i) q rest' Hi).
      * exists st'. split; [exact Es|]. rewrite Eo. cbn [replies]. rewrite Erep. cbn [fst snd].
        by rewrite fmap_cons, mjoin_cons, app_assoc.
Qed.
End server.

(** C3: a keep-alive connection is served in order.  When the bytes of a
    sequence of well-formed requests, none of them HEAD (for HEAD see
    [head_announces_no_length] below), arrive in pieces of any sizes, the
    servlet fills in the response without touching the connection and no answer
    is 2^31 bytes or longer, what the server sends is the concatenation of its
    answers, one per request and in their order, up to the first answer that
    closes the connection; then the client is done with. *)
Theorem serves_in_order fnmatch acc server answer rs chunks :
  (0 < acc)%nat → pure_servlet fnmatch server answer →
  (∀ r rq, r ∈ rs → same_request r rq → reply_fits server answer rq) →
  Forall wf_request rs → (∀ r, r ∈ rs → Request.method r ≠ HEAD) →
  pieces chunks → mjoin chunks = mjoin (Request.dump <$> rs) →
  ∃ rqs st', Forall2 same_request rs rqs ∧
    handleClient fnmatch (S (length rs)) (S (length chunks)) server
      (Some (mkWire chunks acc [] 0)) = Some st' ∧
    output st' = mjoin (Response.toString <$> replies server answer rqs).
Proof.
  intros Hacc Hpure Hfit Hwf Hget Hp Hw.
  assert (∃ rqs, Forall2 same_request rs rqs ∧ ∀ i r rest, rs !! i = Some r →
    ∃ r', rqs !! i = Some r' ∧ RequestParser.parse_message (Request.dump r ++ rest) =
      inr (length (Request.dump r), r', size (Request.body r))) as (rqs&Hall&Hrqs).
  { clear - Hwf. induction Hwf as [|r rs Hr _ (rqs&Hall&Hrqs)].
    - exists []. split; [constructor|done].
    - destruct (parse_dump r [] Hr) as (r'&E&Hs). exists (r' :: rqs).
      split; [by constructor|]. intros [|i] q rest Hi; [|by apply Hrqs].
      injection Hi as <-. exists r'. split; [done|]. rewrite app_nil_r in E.
      rewrite <- E. apply RequestParser.parse_message_stable. congruence. }
  destruct (serve_pieces fnmatch acc Hacc server answer (S (length chunks)) rs rqs chunks [] NONE [] [])
    as (st'&E&Eo); try done; [|lia| |symmetry; by eapply Forall2_length|].
  { apply Forall_forall. intros rq Hrq. apply list_elem_of_lookup in Hrq as [i Hi].
    destruct (Forall2_lookup_r _ _ _ _ _ Hall Hi) as (r&Hri&Hs).
    apply (Hfit r); [by eapply list_elem_of_lookup_2|done]. }
  { apply Forall_forall. intros rq Hrq. apply list_elem_of_lookup in Hrq as [i Hi].
    destruct (Forall2_lookup_r _ _ _ _ _ Hall Hi) as (r&Hri&[Em _]).
    cbv beta. rewrite Em. apply Hget. by eapply list_elem_of_lookup_2. }
  exists rqs, st'. split; [done|]. split; [exact E|exact Eo].
Qed.

(** A server whose dispatcher answers every path with 404. *)
Definition sample_server : HttpServer wire :=
  mkHttpServer true $"s" (Some (Servlet.make $"s")).

Definition not_found_answer (request : Request.HttpRequest) (response : Response.HttpResponse)
    : Response.HttpResponse :=
  let response := Response.setStatus NOT_FOUND response in
  let response :=
    if negb (Response.hasHeader $"Server" response).1
    then Response.setHeader $"Server" $"s" response else response in
  Response.setBody (not_found_content $"s")
    (Response.setHeader $"Content-Type" $"text/html; charset=utf-8" response).

Lemma sample_server_pure fnmatch : pure_servlet fnmatch sample_server not_found_answer.
Proof. by intros request response session. Qed.

Lemma sample_reply_fits rq :
  same_request sample_request rq → reply_fits sample_server not_found_answer rq.
Proof.
  intros (_&Hv&_&_&_&_&Hc&_). unfold reply_fits, reply.
  cbv zeta. rewrite Hc.
  unfold initial_response, Request.createResponse. rewrite Hv, Hc.
  split; vm_compute; reflexivity.
Qed.

Lemma serves_in_order_witness :
  let text := Request.dump sample_request in
  let chunks := [take 10 text; drop 10 text ++ take 60 text; drop 60 text] in
  ∃ rqs st', Forall2 same_request [sample_request; sample_request] rqs ∧
    handleClient (λ _ _, false) 3 4 sample_server (Some (mkWire chunks 5 [] 0)) = Some st' ∧
    output st' = mjoin (Response.toString <$> replies sample_server not_found_answer rqs).
Proof.
  intros text chunks.
  apply (serves_in_order (λ _ _, false) 5 sample_server not_found_answer
    [sample_request; sample_request] chunks).
  - lia.
  - apply sample_server_pure.
  - intros r rq Hr. assert (r = sample_request) as -> by set_solver. apply sample_reply_fits.
  - constructor; [exact sample_request_wf|]. constructor; [exact sample_request_wf|constructor].
  - intros r Hr. assert (r = sample_request) as -> by set_solver. vm_compute. discriminate.
  - apply (bool_decide_unpack _). vm_compute. exact I.
  - vm_compute. reflexivity.
Defined.

(** The comment of [handleClient] promises for HEAD the headers of the
    corresponding GET.  The two answers announce different lengths: the body
    is emptied before the response is written out. *)
Definition with_method (m : HttpMethod) : Request.HttpRequest := Request.setMethod m sample_request.

Definition sample_answer (m : HttpMethod) : str :=
  let request := with_method m in
  Response.toString (final_response sample_server request
    (not_found_answer request (initial_response sample_server request))).1.

Definition contains (part text : str) : bool :=
  existsb (λ i, bool_decide (take (length part) (drop i text) = part)) (seq 0 (length text)).

Example head_announces_no_length :
  contains $"Content-Length: 0" (sample_answer HEAD) = true ∧
  contains $"Content-Length: 0" (sample_answer GET) = false ∧
  contains ($"Content-Length: " ++ to_dec (size (not_found_content $"s"))) (sample_answer GET) = true.
Proof. vm_compute. done. Qed.
End ServerProofs.
