(* ===== verification/HttpConnection.v ===== *)
(** [HttpConnection] ([droplet/src/http/http_connection.cc]): the client side of
    one HTTP connection, the requests built for it and the one-shot requests
    that open, use and close a connection of their own. *)

From S2P Require Import Prelude Http HeaderText HttpParser HttpRequest HttpResponse ResponseParser ByteArray Stream Uri.
Import Http Stream.

Module HttpConnection.

(** ** Header text

    The file has a comparison and a token search of its own. *)

(** The loop over the characters, both folded to lower case. *)
Definition folded (b : byte) : Z :=
  if (65 <=? code b) && (code b <=? 90) then code b + (97 - 65) else code b.

Fixpoint equal_folded (lhs rhs : str) : bool :=
  match lhs, rhs with
  | l :: lhs', r :: rhs' =>
      if negb (folded l =? folded r) then false else equal_folded lhs' rhs'
  | _, _ => true
  end.

Definition CaseInsensitiveEqual (lhs rhs : str) : bool :=
  if negb (Nat.eqb (length lhs) (length rhs)) then false
  else equal_folded lhs rhs.

Definition HeaderContainsToken (header token : str) : bool :=
  match HeaderText.each_part ","%byte header
          (λ (_ : unit) item,
             if CaseInsensitiveEqual
                  (drop_back HeaderText.is_blank (drop_front HeaderText.is_blank item)) token
             then inl tt else inr tt) tt with
  | inl _ => true
  | inr _ => false
  end.

Lemma folded_lower b c : (folded b =? folded c) = Byte.eqb (AsciiLower b) (AsciiLower c).
Proof.
  assert (∀ b, folded b = code (AsciiLower b)) as E by (intros []; reflexivity).
  rewrite !E. destruct (Z.eqb_spec (code (AsciiLower b)) (code (AsciiLower c))) as [D|D].
  - symmetry. apply byte_eqb_eq. by apply code_inj.
  - symmetry. apply byte_eqb_neq. congruence.
Qed.

(** They are those of the requests. *)
Lemma client_equal_eq s t :
  CaseInsensitiveEqual s t = HeaderText.CaseInsensitiveEqual s t.
Proof.
  unfold CaseInsensitiveEqual, HeaderText.CaseInsensitiveEqual. destruct (negb _); [done|].
  revert t. induction s as [|b s IH]; intros [|c t]; try done. cbn [equal_folded HeaderText.equal_lowered].
  rewrite folded_lower. destruct (Byte.eqb _ _); cbn [negb andb]; [apply IH|done].
Qed.

Lemma client_equal_spec s t : CaseInsensitiveEqual s t = true ↔ ci_equiv s t.
Proof. rewrite client_equal_eq. apply HeaderText.CaseInsensitiveEqual_spec. Qed.

(** ** Addresses and sockets *)

(** What a client uses of [Address] and [Socket] beside the transfers. *)
Class Network (T A : Type) := {
  LookupAnyIPAddress : str → option A;
  set_address_port : Z → A → A;
  address_string : A → str;
  CreateTCP : A → option T;
  connect : A → Z → T → bool * T;
  setRecvTimeout : Z → T → T;
  setSendTimeout : Z → T → T;
}.

(** ** Results *)

(** [HttpResult::Error], in the order of its values. *)
Inductive Error :=
  | ERROR_OK | INVALID_URL | INVALID_HOST | CONNECT_FAIL | SEND_CLOSE_BY_PEER
  | SEND_SOCKET_ERROR | TIMEOUT | CREATE_SOCKET_ERROR | POOL_GET_CONNECTION
  | POOL_INVALID_CONNECTION | UNSUPPORTED_SCHEME | RECEIVE_CLOSE_BY_PEER
  | RECEIVE_SOCKET_ERROR | PARSE_ERROR.

#[export] Instance Error_eq_dec : EqDecision Error.
Proof. solve_decision. Defined.

Definition error_code (e : Error) : Z :=
  match e with
  | ERROR_OK => 0 | INVALID_URL => 1 | INVALID_HOST => 2 | CONNECT_FAIL => 3
  | SEND_CLOSE_BY_PEER => 4 | SEND_SOCKET_ERROR => 5 | TIMEOUT => 6
  | CREATE_SOCKET_ERROR => 7 | POOL_GET_CONNECTION => 8
  | POOL_INVALID_CONNECTION => 9 | UNSUPPORTED_SCHEME => 10
  | RECEIVE_CLOSE_BY_PEER => 11 | RECEIVE_SOCKET_ERROR => 12 | PARSE_ERROR => 13
  end.

Record HttpResult := mkHttpResult {
  result : Z;
  response : option Response.HttpResponse;
  error : str;
}.

Definition success (r : HttpResult) : bool := result r =? error_code ERROR_OK.

Definition result_toString (r : HttpResult) : str :=
  $"[HttpResult result=" ++ to_dec (result r) ++ $" error=" ++ error r ++ $" response=" ++
  match response r with Some m => Response.toString m | None => $"nullptr" end ++ $"]".

Definition MakeResult (e : Error) (message : str) (m : option Response.HttpResponse)
    : HttpResult := mkHttpResult (error_code e) m message.

(** ** Requests *)

Definition ETIMEDOUT : Z := 110.
Definition EAGAIN : Z := 11.
Definition EWOULDBLOCK : Z := EAGAIN.

Definition IsTimeoutError (e : Z) : bool :=
  (e =? ETIMEDOUT) || (e =? EAGAIN) || (e =? EWOULDBLOCK).

(** The host with brackets around an IPv6 address. *)
Definition bracketed (host : str) : str :=
  match find_char ":"%byte host with
  | Some _ => $"[" ++ host ++ $"]"
  | None => host
  end.

(** [HostHeader(const Uri &)]. *)
Definition HostHeader (uri : Uri.Uri) : str :=
  bracketed (Uri.host_ uri) ++
  (if negb (Uri.isDefaultPort uri) && (0 <=? Uri.getPort uri)
   then $":" ++ to_dec (Uri.getPort uri) else []).

(** [HostHeader(std::string_view, u16, bool)]. *)
Definition HostHeader_port (host : str) (port : Z) (https : bool) : str :=
  bracketed host ++
  (if (https && negb (port =? 443)) || (negb https && negb (port =? 80))
   then $":" ++ to_dec port else []).

(** One header of the caller: the request and [has_host]. *)
Definition take_header (p : str * str) (st : Request.HttpRequest * bool)
    : Request.HttpRequest * bool :=
  let '(name, value) := p in
  let '(request, has_host) := st in
  if CaseInsensitiveEqual name $"connection" then
    (if HeaderContainsToken value $"close" then Request.setClose true request
     else if HeaderContainsToken value $"keep-alive" then Request.setClose false request
     else request, has_host)
  else
    (Request.setHeader name value request,
     if CaseInsensitiveEqual name $"host" && Response.nonempty value then true else has_host).

Definition BuildRequest (method : HttpMethod) (path query : str) (close : bool)
    (headers : HttpMap) (body default_host : str) : Request.HttpRequest :=
  let request := Request.make 0x11 close in
  let request := Request.setMethod method request in
  let request := Request.setPath (if Response.nonempty path then path else $"/") request in
  let request := Request.setQuery query request in
  let request := Request.setBody body request in
  let '(request, has_host) := foldl (λ st p, take_header p st) (request, false) headers in
  if negb has_host then Request.setHeader $"Host" default_host request else request.

Definition IsInterimResponse (r : Response.HttpResponse) : bool :=
  let status := Response.status r in
  (100 <=? status) && (status <? 200) && negb (status =? 101).

Example build_request :
  Request.dump (BuildRequest GET [] $"q=1" false
    (insert_or_assign $"connection" $"upgrade, Close" (insert_or_assign $"host" [] []))
    [] $"h") =
  $"GET /?q=1 HTTP/1.1" ++ CRLF ++ $"host: h" ++ CRLF ++ $"Connection: close" ++ CRLF ++ CRLF.
Proof. vm_compute. reflexivity. Qed.

(** ** The connection *)

Section connection.
Context {T A : Type} `{HSock : Socket T, HNet : !Network T A}.

(** [std::strerror], and the [errno] of a thread that has used no socket. *)
Context (strerror : Z → str) (thread_errno : Z).

Record HttpConnection := mkHttpConnection {
  stream : SocketStream T;
  created_at_ms_ : Z;
  request_count_ : Z;
  pending_method_ : HttpMethod;
  reusable_ : bool;
  input_buffer_ : str;
  last_error_ : Error;
  last_error_message_ : str;
}.

(** The constructor; [now] is the clock. *)
Definition make (now : Z) (socket : option T) (owner : bool) : HttpConnection :=
  mkHttpConnection (mkSocketStream socket owner) now 0 GET true [] ERROR_OK [].

Definition set_stream (s : SocketStream T) (c : HttpConnection) : HttpConnection :=
  mkHttpConnection s (created_at_ms_ c) (request_count_ c) (pending_method_ c)
    (reusable_ c) (input_buffer_ c) (last_error_ c) (last_error_message_ c).
Definition set_input (b : str) (c : HttpConnection) : HttpConnection :=
  mkHttpConnection (stream c) (created_at_ms_ c) (request_count_ c) (pending_method_ c)
    (reusable_ c) b (last_error_ c) (last_error_message_ c).
Definition set_reusable (v : bool) (c : HttpConnection) : HttpConnection :=
  mkHttpConnection (stream c) (created_at_ms_ c) (request_count_ c) (pending_method_ c)
    v (input_buffer_ c) (last_error_ c) (last_error_message_ c).
Definition set_pending (m : HttpMethod) (c : HttpConnection) : HttpConnection :=
  mkHttpConnection (stream c) (created_at_ms_ c) (request_count_ c) m
    (reusable_ c) (input_buffer_ c) (last_error_ c) (last_error_message_ c).
Definition count_request (c : HttpConnection) : HttpConnection :=
  mkHttpConnection (stream c) (created_at_ms_ c) (wrap 64 (request_count_ c + 1))
    (pending_method_ c) (reusable_ c) (input_buffer_ c) (last_error_ c)
    (last_error_message_ c).
Definition setLastError (e : Error) (message : str) (c : HttpConnection) : HttpConnection :=
  mkHttpConnection (stream c) (created_at_ms_ c) (request_count_ c) (pending_method_ c)
    (reusable_ c) (input_buffer_ c) e message.

Definition isConnected (c : HttpConnection) : bool := connected (stream c).
Definition close (c : HttpConnection) : HttpConnection := set_stream (Stream.close (stream c)) c.

(** [errno], which belongs to the thread and is kept with the socket. *)
Definition get_errno (s : SocketStream T) : Z :=
  match socket_ s with Some s => errno s | None => thread_errno end.
Definition put_errno (e : Z) (c : HttpConnection) : HttpConnection :=
  match socket_ (stream c) with
  | Some s => set_stream (set_socket (set_errno e s) (stream c)) c
  | None => c
  end.

Definition SetSocketTimeouts (timeout_ms : Z) (socket : option T) : option T :=
  match socket with
  | None => None
  | Some s =>
      if timeout_ms =? u64_max then Some s
      else
        let bounded := Z.min timeout_ms (2 ^ 63 - 1) in
        Some (setSendTimeout bounded (setRecvTimeout bounded s))
  end.

(** ** Sending *)

Definition send_closed_message : str := $"peer closed while sending HTTP request".
Definition send_failed_message (e : Z) : str := $"send HTTP request failed: " ++ strerror e.

Definition sendRequest (request : option Request.HttpRequest) (c : HttpConnection)
    : option (Z * HttpConnection) :=
  match request with
  | None =>
      Some (-1, setLastError SEND_SOCKET_ERROR $"request is null" (put_errno EINVAL c))
  | Some request =>
      let data := Request.toString request in
      let c := set_reusable false (set_pending (Request.method request) c) in
      '(result, s) ← writeFixSize (Some data) (length data) (stream c);
      let c := set_stream s c in
      if result <=? 0 then
        let e := get_errno s in
        Some (result,
          close (setLastError
            (if result =? 0 then SEND_CLOSE_BY_PEER
             else if IsTimeoutError e then TIMEOUT else SEND_SOCKET_ERROR)
            (if result =? 0 then send_closed_message else send_failed_message e) c))
      else Some (result, c)
  end.

(** ** Receiving *)

Definition kDefaultBufferSize : nat := 4096%nat.

(** What looking at the input buffer ends with. *)
Inductive look :=
  | Received (m : Response.HttpResponse) (c : HttpConnection)
  | Rejected (c : HttpConnection)
  | Interim (parser : ResponseParser.HttpResponseParser) (c : HttpConnection)
  | Wait (parser : ResponseParser.HttpResponseParser) (c : HttpConnection).

(** The first part of an iteration, before a read. *)
Definition look_at_buffer (parser : ResponseParser.HttpResponseParser) (c : HttpConnection)
    : look :=
  if negb (Nat.eqb (length (input_buffer_ c)) 0) then
    let buffered := length (input_buffer_ c) in
    let '(consumed, buffer, parser) :=
      ResponseParser.execute_buffer (Some (input_buffer_ c)) false parser in
    let c := set_input (default [] buffer) c in
    if ResponseParser.hasError parser then
      Rejected (close (setLastError PARSE_ERROR (ResponseParser.error_message parser) c))
    else if ResponseParser.finished parser then
      let c := set_input (take (buffered - consumed) (input_buffer_ c)) c in
      let m := ResponseParser.data parser in
      if IsInterimResponse m
      then Interim (ResponseParser.reset (pending_method_ c) parser) c
      else
        Received m
          (set_reusable (negb (Response.close m) &&
                         negb (Response.status m =? SWITCHING_PROTOCOLS))
             (count_request c))
    else Wait parser c
  else Wait parser c.

(** The part behind a read that returned 0 with input in the buffer. *)
Definition look_at_end (parser : ResponseParser.HttpResponseParser) (c : HttpConnection)
    : look :=
  if negb (Nat.eqb (length (input_buffer_ c)) 0) then
    let buffered := length (input_buffer_ c) in
    let '(consumed, buffer, parser) :=
      ResponseParser.execute_buffer (Some (input_buffer_ c)) true parser in
    let c := set_input (default [] buffer) c in
    if ResponseParser.finished parser then
      let c := set_input (take (buffered - consumed) (input_buffer_ c)) c in
      Received (ResponseParser.data parser) (close (set_reusable false (count_request c)))
    else if ResponseParser.hasError parser then
      Rejected (close (setLastError PARSE_ERROR (ResponseParser.error_message parser) c))
    else Wait parser c
  else Wait parser c.

Definition receive_closed_message : str :=
  $"peer closed before a complete HTTP response was received".
Definition receive_failed_message (e : Z) : str :=
  $"receive HTTP response failed: " ++ strerror e.

(** The end of an iteration whose read returned nothing. *)
Definition abandon (count : Z) (c : HttpConnection) : HttpConnection :=
  let e := get_errno (stream c) in
  close
    (if count =? 0 then setLastError RECEIVE_CLOSE_BY_PEER receive_closed_message c
     else setLastError (if IsTimeoutError e then TIMEOUT else RECEIVE_SOCKET_ERROR)
            (receive_failed_message e) c).

(** The loop; [None] when the fuel is used up. *)
Fixpoint recv_loop (fuel : nat) (parser : ResponseParser.HttpResponseParser)
    (c : HttpConnection) : option (option Response.HttpResponse * HttpConnection) :=
  match fuel with
  | O => None
  | S fuel' =>
      match look_at_buffer parser c with
      | Received m c => Some (Some m, c)
      | Rejected c => Some (None, c)
      | Interim parser c => recv_loop fuel' parser c
      | Wait parser c =>
          let '(count, data, s) := read true kDefaultBufferSize (stream c) in
          let c := set_stream s c in
          if 0 <? count then recv_loop fuel' parser (set_input (input_buffer_ c ++ data) c)
          else
            match (if count =? 0 then look_at_end parser c else Wait parser c) with
            | Received m c => Some (Some m, c)
            | Rejected c => Some (None, c)
            | Interim _ c | Wait _ c => Some (None, abandon count c)
            end
      end
  end.

Definition recvResponse (fuel : nat) (c : HttpConnection)
    : option (option Response.HttpResponse * HttpConnection) :=
  recv_loop fuel (ResponseParser.make (pending_method_ c)) (setLastError ERROR_OK [] c).

(** ** One-shot requests

    With the result, the stream of the connection after its destructor has run,
    where one was made; [None] when the fuel of the receiving loop is used up. *)

Definition tls_message : str := $"only plain http:// is supported; TLS is not implemented".

(** The part behind the connection: shared by the code of [DoRequest]. *)
Definition exchange (fuel : nat) (request : Request.HttpRequest) (c : HttpConnection)
    : option (HttpResult * HttpConnection) :=
  '(sent, c) ← sendRequest (Some request) c;
  if sent =? 0 then Some (MakeResult SEND_CLOSE_BY_PEER send_closed_message None, c)
  else if sent <? 0 then
    let e := get_errno (stream c) in
    Some (MakeResult (if IsTimeoutError e then TIMEOUT else SEND_SOCKET_ERROR)
            (send_failed_message e) None, c)
  else
    '(m, c) ← recvResponse fuel c;
    match m with
    | None => Some (MakeResult (last_error_ c) (last_error_message_ c) None, c)
    | Some m => Some (MakeResult ERROR_OK $"ok" (Some m), c)
    end.

(** [DoRequest(const HttpRequest::Ptr &, const Uri::Ptr &, u64)]. *)
Definition DoRequest (fuel : nat) (now : Z) (request : option Request.HttpRequest)
    (uri : option Uri.Uri) (timeout_ms : Z) : option (HttpResult * option (SocketStream T)) :=
  match request, uri with
  | Some request, Some uri =>
      if negb (str_eqb (Uri.scheme_ uri) $"http")
      then Some (MakeResult UNSUPPORTED_SCHEME tls_message None, None)
      else
        match Uri.createAddress LookupAnyIPAddress set_address_port uri with
        | None =>
            Some (MakeResult INVALID_HOST
                    ($"cannot resolve host: " ++ Uri.host_ uri) None, None)
        | Some address =>
            match CreateTCP address with
            | None =>
                Some (MakeResult CREATE_SOCKET_ERROR
                        ($"cannot create socket for " ++ address_string address) None, None)
            | Some socket =>
                let '(connected, socket) := connect address timeout_ms socket in
                if negb connected then
                  let e := errno socket in
                  Some (MakeResult (if IsTimeoutError e then TIMEOUT else CONNECT_FAIL)
                          ($"connect to " ++ address_string address ++ $" failed: " ++
                           strerror e) None, None)
                else
                  let socket := SetSocketTimeouts timeout_ms (Some socket) in
                  '(r, c) ← exchange fuel request (make now socket true);
                  Some (r, Some (destroy (stream c)))
            end
        end
  | _, _ => Some (MakeResult INVALID_URL $"request and URI must not be null" None, None)
  end.

(** [DoRequest(HttpMethod, const Uri::Ptr &, u64, const HttpMap &, const
    std::string &)]. *)
Definition DoRequest_uri (fuel : nat) (now : Z) (method : HttpMethod) (uri : option Uri.Uri)
    (timeout_ms : Z) (headers : HttpMap) (body : str) :=
  match uri with
  | None => Some (MakeResult INVALID_URL $"URI is null" None, None)
  | Some u =>
      if negb (str_eqb (Uri.scheme_ u) $"http")
      then Some (MakeResult UNSUPPORTED_SCHEME tls_message None, None)
      else if Nat.eqb (length (Uri.host_ u)) 0
      then Some (MakeResult INVALID_HOST $"HTTP URI has an empty host" None, None)
      else
        let request := BuildRequest method (Uri.getPath u) (Uri.query_ u) true headers body
                         (HostHeader u) in
        DoRequest fuel now (Some request) uri timeout_ms
  end.

(** [DoRequest(HttpMethod, const std::string &, u64, const HttpMap &, const
    std::string &)]. *)
Definition DoRequest_url (fuel : nat) (now : Z) (method : HttpMethod) (url : str)
    (timeout_ms : Z) (headers : HttpMap) (body : str) :=
  match Uri.Create url with
  | None => Some (MakeResult INVALID_URL ($"invalid URL: " ++ url) None, None)
  | uri => DoRequest_uri fuel now method uri timeout_ms headers body
  end.

Definition DoGet (fuel : nat) (now : Z) := DoRequest_url fuel now GET.
Definition DoGet_uri (fuel : nat) (now : Z) := DoRequest_uri fuel now GET.
Definition DoPost (fuel : nat) (now : Z) := DoRequest_url fuel now POST.
Definition DoPost_uri (fuel : nat) (now : Z) := DoRequest_uri fuel now POST.
End connection.

Arguments HttpConnection : clear implicits.
Arguments look : clear implicits.
End HttpConnection.
