(* ===== verification/ClientProofs.v ===== *)
(** The steps of [HttpConnection] one by one: the parser of a connection stays
    usable, a look at the buffer and a read do what the parser decides, and the
    receive loop returns the message that was delivered, or gives up, and ends. *)

From S2P Require Import Prelude Http HeaderText HttpParser HttpRequest HttpResponse RequestParser RequestRoundTrip ResponseParser ResponseRoundTrip ByteArray ByteArrayProofs Stream StreamProofs HttpSession SessionProofs Uri HttpConnection.
Import Http ParserText Stream StreamProofs HttpConnection ResponseParser ResponseRoundTrip.

Module ClientProofs.

(** ** Prefixes of a printed response *)

Lemma parse_dump_prefix method r rest i s :
  wf_response r → method ≠ HEAD → method ≠ CONNECT →
  Response.dump r ++ rest = i ++ s →
  (parse_message method i false = (false, inl NeedMore) ∧
   (length i < length (Response.dump r))%nat) ∨
  (∃ r', parse_message method i false =
     (false, inr (mkMessage (length (Response.dump r)) r' (size (printed_body r)) false)) ∧
   same_response r r' ∧ (length (Response.dump r) ≤ length i)%nat).
Proof.
  intros H Hm1 Hm2 Heq. destruct (decide (length (Response.dump r) ≤ length i)%nat) as [Hle|Hlt].
  - right. assert (i = Response.dump r ++ take (length i - length (Response.dump r)) rest) as ->.
    { apply (f_equal (take (length i))) in Heq. rewrite take_app_length, take_app_ge in Heq by done.
      done. }
    destruct (parse_response_dump method r (take (length i - length (Response.dump r)) rest)
      false H Hm1 Hm2) as (r'&E&Hs).
    exists r'. split; [exact E|]. split; [exact Hs|]. rewrite length_app. lia.
  - left. split; [|lia]. destruct (response_head_dump r rest H) as (h&Eh&Hs&Hst&Hc&Ha&Hr).
    assert (parse_head i = inl NeedMore ∨ parse_head i ≠ inl NeedMore) as [En|Hn]
      by (destruct (parse_head i) as [[]|]; auto).
    { unfold parse_message. by rewrite En. }
    unfold parse_message. rewrite Heq, response_head_stable in Eh by done. rewrite Eh. cbv zeta.
    apply response_head_inr in Eh as (Hhs&_).
    rewrite Hst, (no_body_statuses _ _ Hm1 Hm2), Hc, Ha, Hs.
    pose proof (wf_head_size r H) as Hk. pose proof (wf_body_size r H) as Hb.
    unfold printed_body in *.
    destruct (Response.ResponseAllowsBody (Response.status r)); cbn [negb].
    + unfold size_max, u64_max, kMaxHeaderSize, kMaxBodySize, size in *.
      rewrite (proj2 (Z.ltb_ge _ _)) by lia. rewrite wrap_small by lia.
      by rewrite (proj2 (Z.ltb_lt _ _)) by lia.
    + simpl in *. lia.
Qed.

(** ** Looking at the buffer *)

Section client.
Context {T A : Type} `{HSock : Socket T, HLaws : !SocketLaws T}.
Context (strerror : Z → str) (thread_errno : Z).
Implicit Types (c : HttpConnection T) (s : SocketStream T).

(** A parser that has neither finished nor failed. *)
Definition live (p : HttpResponseParser) : Prop := finished p = false ∧ hasError p = false.

Lemma make_live m : live (make m).
Proof. done. Qed.

Lemma execute_buffer_live i eof p :
  live p → execute_buffer (Some i) eof p =
    let '(n, p') := parse i eof p in
    if negb (Nat.eqb n 0) && (n <? length i)%nat
    then (n, Some (drop n i ++ drop (length i - n) i), p') else (n, Some i, p').
Proof. intros [Hf He]. unfold execute_buffer. rewrite Hf, He. done. Qed.

(** What [parse] makes of the parser and of the buffer. *)
Lemma client_set_input_same c : set_input (input_buffer_ c) c = c.
Proof. by destruct c. Qed.

Lemma client_look_waits p c :
  live p → parse_message (request_method p) (input_buffer_ c) false = (false, inl NeedMore) →
  look_at_buffer p c = Wait p c.
Proof.
  intros Hp E. unfold look_at_buffer.
  destruct (Nat.eqb (length (input_buffer_ c)) 0); [done|]. cbn [negb].
  rewrite execute_buffer_live by done. unfold parse. rewrite E. cbn [Nat.eqb negb andb default].
  unfold id. destruct Hp as [-> ->]. by rewrite client_set_input_same.
Qed.

(** The connection behind a response that was received. *)
Definition received (m : Response.HttpResponse) c : HttpConnection T :=
  set_reusable (negb (Response.close m) && negb (Response.status m =? SWITCHING_PROTOCOLS))
    (count_request c).

Lemma client_look_receives m c msg :
  parse_message m (input_buffer_ c) false = (false, inr msg) →
  (0 < consumed msg ≤ length (input_buffer_ c))%nat →
  look_at_buffer (make m) c =
    let c := set_input (drop (consumed msg) (input_buffer_ c)) c in
    if IsInterimResponse (parsed msg) then Interim (make (pending_method_ c)) c
    else Received (parsed msg) (received (parsed msg) c).
Proof.
  intros E Hn. unfold look_at_buffer.
  rewrite (proj2 (Nat.eqb_neq _ _)) by lia. cbn [negb].
  rewrite execute_buffer_live by apply make_live. unfold parse. cbn [request_method make].
  rewrite E. rewrite (proj2 (Nat.eqb_neq (consumed msg) 0)) by lia. cbn [negb andb].
  destruct (Nat.ltb_spec (consumed msg) (length (input_buffer_ c))) as [Hlt|Hge];
    cbn [hasError finished default data input_buffer_ set_input]; unfold id.
  - by rewrite SessionProofs.take_moved by lia.
  - rewrite drop_ge by lia. replace (_ - consumed msg)%nat with 0%nat by lia. by rewrite take_0.
Qed.

(** ** Receiving a printed response *)

Lemma same_response_interim r r' :
  same_response r r' → IsInterimResponse r' = IsInterimResponse r.
Proof. intros (Hs&_). unfold IsInterimResponse. by rewrite Hs. Qed.

(** What is left of a connection that received [r]. *)
Record after_response (r r' : Response.HttpResponse) c c' : Prop := {
  after_same : same_response r r';
  after_count : request_count_ c' = wrap 64 (request_count_ c + 1);
  after_reusable : reusable_ c' =
    negb (Response.close r) && negb (Response.status r =? SWITCHING_PROTOCOLS);
  after_method : pending_method_ c' = pending_method_ c;
  after_error : last_error_ c' = last_error_ c;
}.

Lemma after_received r r' b c :
  same_response r r' → after_response r r' c (received r' (set_input b c)).
Proof. intros Hs. split; try done. cbn. destruct Hs as (->&_&_&_&->&_). done. Qed.

Lemma client_recv_delivered fuel : ∀ c chunks rs r s2 rest,
  pending_method_ c ≠ HEAD → pending_method_ c ≠ CONNECT →
  Forall (λ r, wf_response r ∧ IsInterimResponse r = true) rs →
  wf_response r → IsInterimResponse r = false →
  SessionProofs.delivers (stream c) chunks s2 → (length rs + length chunks < fuel)%nat →
  input_buffer_ c ++ mjoin chunks = mjoin (Response.dump <$> rs) ++ Response.dump r ++ rest →
  ∃ r' c' unread, recv_loop strerror thread_errno fuel (make (pending_method_ c)) c =
      Some (Some r', c') ∧
    after_response r r' c c' ∧ SessionProofs.delivers (stream c') unread s2 ∧
    (length unread ≤ length chunks)%nat ∧ input_buffer_ c' ++ mjoin unread = rest.
Proof.
  induction fuel as [|fuel IH]; intros c chunks rs r s2 rest Hm1 Hm2 Hrs Hr Hi Hd Hf Hw; [lia|].
  cbn [recv_loop].
  set (r0 := match rs with [] => r | r1 :: _ => r1 end).
  assert (∃ rest0, Response.dump r0 ++ rest0 = input_buffer_ c ++ mjoin chunks) as [rest0 Hrest0].
  { rewrite Hw. destruct rs as [|r1 rs]; [by exists rest|].
    rewrite fmap_cons, ByteArrayProofs.mjoin_cons, <- app_assoc. by eexists. }
  assert (wf_response r0) as Hr0.
  { destruct rs as [|r1 rs]; [done|]. by apply Forall_cons in Hrs as [[? _] _]. }
  destruct (parse_dump_prefix _ r0 rest0 _ _ Hr0 Hm1 Hm2 Hrest0) as [[E Hlt]|(r'&E&Hsame&Hle)].
  - rewrite client_look_waits by done. inversion Hd as [|? d s1 cs ? Er Hne Hd1]; subst.
    { rewrite SessionProofs.mjoin_nil_r in Hrest0. apply (f_equal length) in Hrest0.
      rewrite length_app in Hrest0. lia. }
    change HttpConnection.kDefaultBufferSize with HttpSession.kDefaultBufferSize. rewrite Er.
    pose proof (SessionProofs.size_pos d Hne). rewrite (proj2 (Z.ltb_lt _ _)) by lia.
    destruct (IH (set_input (input_buffer_ c ++ d) (set_stream s1 c)) cs rs r s2 rest)
      as (r'&c'&unread&E'&[Ha1 Ha2 Ha3 Ha4 Ha5]&Hd'&Hl&Hw'); try done.
    { cbn [length] in Hf. lia. }
    { cbn [input_buffer_ set_input]. by rewrite <- app_assoc. }
    exists r', c', unread. split_and!; try done. cbn [length]. lia.
  - assert (4 ≤ length (Response.dump r0))%nat as Hpos.
    { destruct (response_head_dump r0 [] Hr0) as (h&Eh&Hs&_).
      apply response_head_inr in Eh as (?&_). lia. }
    rewrite (client_look_receives _ _ _ E) by (cbn [consumed]; lia).
    cbv zeta. cbn [consumed parsed]. rewrite (same_response_interim _ _ Hsame).
    assert (drop (length (Response.dump r0)) (input_buffer_ c) ++ mjoin chunks = rest0) as Hdrop.
    { apply (f_equal (drop (length (Response.dump r0)))) in Hrest0.
      rewrite drop_app_length, drop_app_le in Hrest0 by done. done. }
    destruct rs as [|r1 rs].
    + subst r0. rewrite Hi. rewrite <- Hrest0 in Hw. change (mjoin (Response.dump <$> [])) with (@nil byte) in Hw.
      rewrite app_nil_l in Hw. apply app_inv_head in Hw.
      eexists _, _, chunks. split; [done|]. split; [by apply after_received|].
      split; [done|]. split; [done|]. by rewrite <- Hw.
    + subst r0. apply Forall_cons in Hrs as [[_ Hi1] Hrs]. rewrite Hi1.
      rewrite <- Hrest0, fmap_cons, ByteArrayProofs.mjoin_cons, <- app_assoc in Hw.
      apply app_inv_head in Hw. cbn [length] in Hf.
      destruct (IH (set_input (drop (length (Response.dump r1)) (input_buffer_ c)) c) chunks rs r s2 rest)
        as (r2&c'&unread&E'&[Ha1 Ha2 Ha3 Ha4 Ha5]&Hd'&Hl&Hw'); try done; [lia| |].
      { cbn [input_buffer_ set_input]. by rewrite Hdrop. }
      exists r2, c', unread. split_and!; done.
Qed.
(** ** What receiving may change *)

Lemma delivered_close s : delivered (Stream.close s) = delivered s.
Proof.
  unfold Stream.close. destruct (socket_ s) as [x|] eqn:E; [|done].
  cbn [delivered socket_stream_laws socket_ set_socket]. by rewrite close_sent, E.
Qed.

(** The flag that makes the destructor close the socket never changes. *)
Lemma close_owner s : owner_ (Stream.close s) = owner_ s.
Proof. unfold Stream.close. by destruct (socket_ s). Qed.

Lemma read_owner b n s : owner_ (read b n s).2 = owner_ s.
Proof.
  unfold read. destruct (socket_ s); [|done]. destruct (_ || _); [done|].
  destruct (_ <? _); [done|]. by destruct (recv n t) as [[??]?].
Qed.

Lemma write_owner b n s : owner_ (write b n s).2 = owner_ s.
Proof.
  unfold write. destruct (socket_ s) as [t|]; [|done]. destruct (negb _); [done|].
  destruct b as [d|].
  - destruct (_ <? _); [done|]. by destruct (send (take n d) t).
  - destruct (negb _); [done|]. by destruct (send [] t).
Qed.

Lemma write_loop_owner data fuel : ∀ offset s r s',
  write_loop fuel offset data s = Some (r, s') → owner_ s' = owner_ s.
Proof.
  induction fuel as [|fuel IH]; intros offset s r s'; cbn [write_loop];
    destruct (_ <? _)%nat; try done; try (by intros [= <- <-]).
  cbn [stream_write socket_stream].
  pose proof (write_owner (Some (drop offset data)) (length (default [] (Some (drop offset data)))) s) as Ho.
  destruct (write _ _ s) as [n s1]. cbn [snd] in Ho.
  destruct (n <=? 0); [by intros [= <- <-]|]. intros H%IH. congruence.
Qed.

(** What a call ends with, whatever the peer did. *)
Record outcome c (res : option Response.HttpResponse) c' : Prop := {
  outcome_none : res = None →
    last_error_ c' ≠ ERROR_OK ∧ reusable_ c' = reusable_ c ∧
    ∃ s, stream c' = Stream.close s;
  outcome_some m : res = Some m →
    last_error_ c' = last_error_ c ∧ request_count_ c' = wrap 64 (request_count_ c + 1) ∧
    (reusable_ c' = true → Response.close m = false ∧ Response.status m ≠ SWITCHING_PROTOCOLS);
  outcome_delivered : delivered (stream c') = delivered (stream c);
  outcome_owner : owner_ (stream c') = owner_ (stream c);
}.

Lemma outcome_more c b s res c' :
  delivered s = delivered (stream c) → owner_ s = owner_ (stream c) →
  outcome (set_input b (set_stream s c)) res c' → outcome c res c'.
Proof. intros Hs Ho [H1 H2 H3 H4]. split; try done; [by rewrite H3|by rewrite H4]. Qed.

Lemma outcome_input c b res c' : outcome (set_input b c) res c' → outcome c res c'.
Proof. by intros [H1 H2 H3 H4]. Qed.

Lemma outcome_rejected c b e m : e ≠ ERROR_OK →
  outcome c None (close (setLastError e m (set_input b c))).
Proof.
  intros He. split; [intros _; by eauto|done|apply delivered_close|apply close_owner].
Qed.

Lemma look_outcome p c :
  match look_at_buffer p c with
  | Received m c' => outcome c (Some m) c'
  | Rejected c' => outcome c None c'
  | Interim p' c' => p' = make (pending_method_ c) ∧ ∃ b, c' = set_input b c
  | Wait p' c' => ∃ b, c' = set_input b c
  end.
Proof.
  unfold look_at_buffer. destruct (negb _).
  - destruct (execute_buffer _ _ _) as [[n b] p']. destruct (hasError p').
    { by apply outcome_rejected. }
    destruct (finished p'); [|by eexists].
    destruct (IsInterimResponse _); [split; [done|by eexists]|].
    split; try done. intros m [= <-]. cbn. split_and!; try done.
    intros [Hc Hs]%andb_true_iff. rewrite negb_true_iff in Hc, Hs. split; [done|].
    by apply Z.eqb_neq.
  - exists (input_buffer_ c). by rewrite client_set_input_same.
Qed.

Lemma look_at_end_outcome p c :
  match look_at_end p c with
  | Received m c' => outcome c (Some m) c'
  | Rejected c' => outcome c None c'
  | Interim p' c' | Wait p' c' => ∃ b, c' = set_input b c
  end.
Proof.
  unfold look_at_end. destruct (negb _).
  - destruct (execute_buffer _ _ _) as [[n b] p']. destruct (finished p').
    { split; [done|done|apply delivered_close|apply close_owner]. }
    destruct (hasError p'); [by apply outcome_rejected|by eexists].
  - exists (input_buffer_ c). by rewrite client_set_input_same.
Qed.

Lemma abandon_outcome n c b :
  outcome c None (abandon strerror thread_errno n (set_input b c)).
Proof.
  unfold abandon. split.
  - intros _. split; [|split; [by destruct (n =? 0)|by eexists]].
    destruct (n =? 0); [done|]. cbn. by destruct (IsTimeoutError _).
  - done.
  - destruct (n =? 0); apply delivered_close.
  - destruct (n =? 0); apply close_owner.
Qed.

Lemma read_delivered n s : delivered (read true n s).2 = delivered s.
Proof.
  pose proof (stream_read_result true n s) as H. cbn [stream_read socket_stream] in H.
  destruct (read true n s) as [[r d] s']. by destruct H as [? _].
Qed.

Lemma recv_loop_outcome fuel : ∀ p c res c',
  recv_loop strerror thread_errno fuel p c = Some (res, c') → outcome c res c'.
Proof.
  induction fuel as [|fuel IH]; intros p c res c'; [done|]. cbn [recv_loop].
  pose proof (look_outcome p c) as Hl.
  destruct (look_at_buffer p c) as [m c1|c1|p1 c1|p1 c1]; [by intros [= <- <-]..| |].
  - destruct Hl as [-> [b ->]]. intros H%IH. by apply outcome_input in H.
  - destruct Hl as [b ->]. pose proof (read_delivered HttpConnection.kDefaultBufferSize
      (stream (set_input b c))) as Hr.
    pose proof (read_owner true HttpConnection.kDefaultBufferSize
      (stream (set_input b c))) as Ho.
    destruct (read _ _ _) as [[n d] s']. cbn [snd] in Hr, Ho.
    destruct (0 <? n).
    { intros H%IH. exact (outcome_more c _ s' _ _ Hr Ho H). }
    set (c2 := set_stream s' (set_input b c)).
    assert (∀ res c', outcome c2 res c' → outcome c res c') as Hc2.
    { intros res1 c1 H. exact (outcome_more c b s' _ _ Hr Ho H). }
    destruct (n =? 0).
    + pose proof (look_at_end_outcome p1 c2) as He.
      destruct (look_at_end p1 c2) as [m c3|c3|p3 c3|p3 c3]; intros [= <- <-]; apply Hc2; try done;
        destruct He as [b' ->]; apply abandon_outcome.
    + intros [= <- <-]. apply Hc2. rewrite <- (client_set_input_same c2). apply abandon_outcome.
Qed.

(** ** Receiving ends *)

Lemma parse_progress i eof p n p' :
  live p → parse i eof p = (n, p') → size i < 2 ^ 64 →
  (n ≤ length i)%nat ∧ (finished p' = true → (0 < n)%nat) ∧ (hasError p' = true ∨ finished p' = true ∨ live p').
Proof.
  intros Hp E Hi. pose proof (response_message_bounds (request_method p) i eof) as Hb.
  unfold parse in E. destruct (parse_message (request_method p) i eof) as [cd x].
  cbn [snd] in Hb. destruct Hp as [Hf He].
  destruct x as [[|e m|]|m]; injection E as <- <-.
  - destruct cd; cbn; rewrite Hf; split_and!; (lia || done || by right; right).
  - destruct cd; cbn; split_and!; try (lia || done);
      unfold hasError; cbn; destruct (decide (e = NONE)) as [->|Hne];
      try (right; right; done); left; by apply bool_decide_eq_true_2.
  - destruct cd; cbn; rewrite Hf; split_and!; (lia || done || by right; right).
  - destruct (Hb m Hi eq_refl) as [? _]. destruct cd; cbn; split_and!; (lia || done || by right; left).
Qed.

(** Looking at the buffer with a live parser leaves one, and an interim
    response has taken something out of the buffer. *)
Lemma look_progress p c :
  live p → size (input_buffer_ c) < 2 ^ 64 →
  match look_at_buffer p c with
  | Interim _ c' => (length (input_buffer_ c') < length (input_buffer_ c))%nat ∧ ∃ k, input_buffer_ c' = drop k (input_buffer_ c)
  | Wait p' c' => live p' ∧ c' = c
  | _ => True
  end.
Proof.
  intros Hp Hi. unfold look_at_buffer.
  destruct (Nat.eqb_spec (length (input_buffer_ c)) 0) as [|Hne]; [done|]. cbn [negb].
  rewrite execute_buffer_live by done.
  destruct (parse (input_buffer_ c) false p) as [n p'] eqn:E.
  destruct (parse_progress _ _ _ _ _ Hp E Hi) as (Hn&Hpos&Hcases).
  assert (finished p' = false → hasError p' = false → n = 0%nat) as Hz.
  { unfold parse in E. destruct (parse_message _ _ _) as [cd [[]|m]]; injection E as <- <-; done. }
  destruct (Nat.eqb_spec n 0) as [->|Hn0]; cbn [negb andb].
  - destruct (hasError p') eqn:He; [done|]. destruct (finished p') eqn:Hf; [specialize (Hpos eq_refl); lia|].
    cbn [default]. unfold id. rewrite client_set_input_same. done.
  - destruct (n <? length (input_buffer_ c))%nat eqn:Hlt.
    + destruct (hasError p') eqn:He; [done|].
      destruct (finished p') eqn:Hf; [|exfalso; by apply Hn0, Hz].
      destruct (IsInterimResponse _); [|done]. cbn [default input_buffer_ set_input]. unfold id.
      rewrite SessionProofs.take_moved by lia. rewrite length_drop. split; [lia|by eexists].
    + destruct (hasError p') eqn:He; [done|].
      destruct (finished p') eqn:Hf; [|exfalso; by apply Hn0, Hz].
      destruct (IsInterimResponse _); [|done]. cbn [default input_buffer_ set_input]. unfold id.
      rewrite length_take. split; [lia|]. exists (length (input_buffer_ c)).
      apply Nat.ltb_ge in Hlt. rewrite drop_ge by lia.
      by replace (_ - n)%nat with 0%nat by lia.
Qed.

Lemma recv_loop_total fuel : ∀ p c chunks s1,
  live p → SessionProofs.delivers (stream c) chunks s1 →
  (read true HttpConnection.kDefaultBufferSize s1).1.1 <= 0 →
  size (input_buffer_ c ++ mjoin chunks) < 2 ^ 64 →
  (length chunks + length (input_buffer_ c ++ mjoin chunks) < fuel)%nat →
  is_Some (recv_loop strerror thread_errno fuel p c).
Proof.
  induction fuel as [|fuel IH]; intros p c chunks s1 Hp Hd Hend Hi Hf; [lia|]. cbn [recv_loop].
  assert (size (input_buffer_ c) < 2 ^ 64) as Hi0
    by (rewrite size_app in Hi; pose proof (size_nonneg (mjoin chunks)); lia).
  pose proof (look_progress p c Hp Hi0) as Hl. pose proof (look_outcome p c) as Ho.
  destruct (look_at_buffer p c) as [m c1|c1|p1 c1|p1 c1]; [done..| |].
  - destruct Ho as [-> [b ->]]. destruct Hl as [Hlt _]. cbn [input_buffer_ set_input] in Hlt.
    rewrite length_app in Hf. apply (IH _ _ chunks s1); try done; cbn [input_buffer_ set_input].
    + rewrite size_app in *. unfold size in *. lia.
    + rewrite length_app. lia.
  - destruct Hl as [Hp1 ->]. inversion Hd as [|? d s2 cs ? Er Hne Hd1]; subst.
    + destruct (read _ _ _) as [[n d] s']. cbn [fst] in Hend.
      rewrite (proj2 (Z.ltb_ge _ _)) by done. destruct (if n =? 0 then _ else _); done.
    + change HttpConnection.kDefaultBufferSize with HttpSession.kDefaultBufferSize. rewrite Er.
      pose proof (SessionProofs.size_pos d Hne). rewrite (proj2 (Z.ltb_lt _ _)) by lia.
      rewrite ByteArrayProofs.mjoin_cons, app_assoc in Hi, Hf. cbn [length] in Hf.
      apply (IH _ _ cs s1); cbn [input_buffer_ set_input set_stream stream]; (done || lia).
Qed.
End client.
End ClientProofs.
