(* ===== verification/ClientExchange.v ===== *)
(** What [HttpConnection] guarantees: the headers [BuildRequest] gives a request,
    the response received behind any interim responses however the bytes were
    cut, receiving that ends, one-shot requests whose result tells the truth,
    and the exchange with an [HttpSession] at the other end. *)

From S2P Require Import Prelude Http HeaderText HttpParser HttpRequest HttpResponse RequestParser RequestRoundTrip ResponseParser ResponseRoundTrip ByteArray ByteArrayProofs Stream StreamProofs HttpSession SessionProofs Uri HttpConnection ClientProofs.
Import Http Stream StreamProofs HttpConnection ClientProofs.

Module ClientExchange.

(** ** The headers of a request *)

Lemma setHeader_members k v r :
  let r' := Request.setHeader k v r in
  Request.headers r' = insert_or_assign k v (Request.headers r) ∧
  Request.method r' = Request.method r ∧ Request.version r' = Request.version r ∧
  Request.close r' = Request.close r ∧ Request.path r' = Request.path r ∧
  Request.query r' = Request.query r ∧ Request.body r' = Request.body r ∧
  Request.websocket r' = Request.websocket r ∧ Request.fragment r' = Request.fragment r.
Proof.
  cbv zeta. unfold Request.setHeader, Request.invalidate.
  destruct (HeaderText.CaseInsensitiveEqual k $"content-type"),
    (HeaderText.CaseInsensitiveEqual k $"cookie"); done.
Qed.

(** What the caller's headers leave alone. *)
Definition same_target (r r' : Request.HttpRequest) : Prop :=
  Request.method r' = Request.method r ∧ Request.version r' = Request.version r ∧
  Request.path r' = Request.path r ∧ Request.query r' = Request.query r ∧
  Request.body r' = Request.body r ∧ Request.websocket r' = Request.websocket r ∧
  Request.fragment r' = Request.fragment r.

Lemma map_find_cons key k v m :
  map_wf ((k, v) :: m) →
  map_find key ((k, v) :: m) = if decide (ci_equiv k key) then Some v else map_find key m.
Proof.
  intros H. pose proof (map_wf_cons_inv _ _ _ H) as [Hm _].
  rewrite !map_find_absmap by done. rewrite absmap_cons. unfold ci_equiv.
  rewrite lookup_insert. repeat case_decide; congruence.
Qed.

Lemma map_find_cons_wf key k v m :
  map_wf ((k, v) :: m) → ci_equiv k key → map_find key m = None.
Proof.
  intros [Hm Hall]%map_wf_cons_inv E. rewrite map_find_absmap by done.
  rewrite <- E. by apply absmap_below.
Qed.

(** Whether one of the caller's headers names the host. *)
Definition names_host (headers : HttpMap) : bool :=
  match map_find $"host" headers with Some v => Response.nonempty v | None => false end.

(** What the caller's [Connection] header asks for. *)
Definition asked_close (headers : HttpMap) (close : bool) : bool :=
  match map_find $"connection" headers with
  | Some v =>
      if HeaderContainsToken v $"close" then true
      else if HeaderContainsToken v $"keep-alive" then false else close
  | None => close
  end.

Lemma take_headers l : ∀ r h,
  map_wf l → map_wf (Request.headers r) →
  let '(r', h') := foldl (λ st p, take_header p st) (r, h) l in
  same_target r r' ∧ map_wf (Request.headers r') ∧
  Request.close r' = asked_close l (Request.close r) ∧ h' = names_host l || h ∧
  ∀ key, map_find key (Request.headers r') =
    if decide (ci_equiv key $"connection") then map_find key (Request.headers r)
    else match map_find key l with
         | Some v => Some v
         | None => map_find key (Request.headers r)
         end.
Proof.
  induction l as [|[k v] l IH]; intros r h Hl Hr; cbn [foldl].
  - split; [done|]. split; [done|]. split; [done|]. split; [by destruct h|].
    intros key. by case_decide.
  - pose proof (map_wf_cons_inv _ _ _ Hl) as [Hl' _]. cbn [take_header].
    unfold asked_close, names_host. rewrite !map_find_cons by done.
    destruct (CaseInsensitiveEqual k $"connection") eqn:Ec.
    + apply client_equal_spec in Ec. rewrite (decide_True _ _ Ec).
      assert (¬ ci_equiv k $"host") as Hh by (rewrite Ec; by apply (bool_decide_unpack _)).
      rewrite (decide_False _ _ Hh).
      set (r1 := if HeaderContainsToken v $"close" then _ else _).
      specialize (IH r1 h Hl'). unfold asked_close in IH. rewrite (map_find_cons_wf _ _ _ _ Hl Ec) in IH.
      assert (Request.headers r1 = Request.headers r ∧ same_target r r1 ∧
        Request.close r1 = if HeaderContainsToken v $"close" then true
          else if HeaderContainsToken v $"keep-alive" then false else Request.close r)
        as (E1&E2&E3).
      { subst r1. destruct (HeaderContainsToken v $"close"); [done|].
        by destruct (HeaderContainsToken v $"keep-alive"). }
      rewrite E1, E3 in IH. specialize (IH Hr).
      destruct (foldl _ _ l) as [r' h']. destruct IH as (S1&S2&S3&S4&S5).
      split; [unfold same_target in *; intuition congruence|]. split; [done|].
      split; [done|]. split; [done|]. intros key. rewrite S5, map_find_cons by done.
      case_decide as D; [done|]. rewrite decide_False; [done|]. intros D'. apply D. by rewrite <- D'.
    + assert (¬ ci_equiv k $"connection") as Hc
        by (rewrite <- client_equal_spec; congruence).
      rewrite (decide_False _ _ Hc).
      destruct (setHeader_members k v r) as (F1&F2&F3&F4&F5&F6&F7&F8&F9).
      specialize (IH (Request.setHeader k v r)
        (if CaseInsensitiveEqual k $"host" && Response.nonempty v then true else h) Hl').
      rewrite F1 in IH. specialize (IH (insert_or_assign_wf _ _ _ Hr)).
      destruct (foldl _ _ l) as [r' h']. destruct IH as (S1&S2&S3&S4&S5).
      unfold same_target in *. rewrite F2, F3, F5, F6, F7, F8, F9 in S1. rewrite F4 in S3.
      split; [done|]. split; [done|]. split; [done|]. split.
      { rewrite S4. unfold names_host. case_decide as D.
        - rewrite (map_find_cons_wf _ _ _ _ Hl D). apply client_equal_spec in D. rewrite D.
          cbn [andb orb]. by destruct (Response.nonempty v).
        - rewrite <- client_equal_spec in D. apply not_true_is_false in D. by rewrite D. }
      intros key. rewrite S5, map_find_insert by done. case_decide as D.
      * case_decide as D'; [|done]. exfalso. apply Hc. by rewrite <- D'.
      * rewrite map_find_cons by done. destruct (decide (ci_equiv k key)) as [D'|D'].
        -- rewrite (map_find_cons_wf _ _ _ _ Hl D'). by rewrite decide_True by (by symmetry).
        -- destruct (map_find key l); [done|]. rewrite decide_False; [done|]. intros ?. by apply D'.
Qed.

(** ** Sending *)

(** What a client expects of the socket options. *)
Class NetworkLaws (T A : Type) `{SocketLaws T, !Network T A} := {
  setRecvTimeout_sent t s : sent (setRecvTimeout t s) = sent s;
  setSendTimeout_sent t s : sent (setSendTimeout t s) = sent s;
}.

Section client.
Context {T A : Type} `{HSock : Socket T, HLaws : !SocketLaws T}.
Context (strerror : Z → str) (thread_errno : Z).
Implicit Types (c : HttpConnection T).

(** What [sendRequest] ends with: everything was handed over, or the
    connection is closed and the error recorded. *)
Record send_outcome request c (r : Z) c' : Prop := {
  send_reusable : reusable_ c' = false;
  send_method : pending_method_ c' = Request.method request;
  send_input : input_buffer_ c' = input_buffer_ c;
  send_count : request_count_ c' = request_count_ c;
  send_owner : owner_ (stream c') = owner_ (stream c);
  send_ok : 0 < r → delivered (stream c') = delivered (stream c) ++ Request.dump request ∧
    last_error_ c' = last_error_ c;
  send_failed : r <= 0 → last_error_ c' ≠ ERROR_OK ∧ ∃ s, stream c' = Stream.close s;
}.

Lemma sendRequest_outcome request c :
  ∃ r c', sendRequest strerror thread_errno (Some request) c = Some (r, c') ∧
    send_outcome request c r c'.
Proof.
  unfold sendRequest, Request.toString. cbn [stream set_reusable set_pending].
  destruct (writeFixSize_spec (Request.dump request) (stream c)) as (r&s&E&Hor).
  rewrite E. cbn [mbind option_bind].
  assert (owner_ s = owner_ (stream c)) as Ho by (by apply write_loop_owner in E).
  destruct (Z.leb_spec r 0) as [Hr|Hr].
  - eexists _, _. split; [done|]. split; try done; [by rewrite <- Ho; apply close_owner|lia|].
    intros _. split; [|by eexists].
    cbn. destruct (r =? 0); [done|]. by destruct (IsTimeoutError _).
  - eexists _, _. split; [done|]. split; try done; [|lia]. intros _. split; [|done].
    cbn [stream set_stream]. destruct Hor as [[_ Hd]|[? _]]; [done|lia].
Qed.

Lemma failed_result e m : e ≠ ERROR_OK → success (MakeResult e m None) = false.
Proof. by destruct e. Qed.

(** A one-shot request that stops before there is a connection. *)
Lemma stopped_result e m r (st : option (SocketStream T)) (P : Prop) :
  e ≠ ERROR_OK → Some (MakeResult e m None, None) = Some (r, st) →
  (success r = true ↔ is_Some (response r)) ∧
  (∀ s, st = Some s → ∃ s0, s = Stream.close s0) ∧ (success r = true → P).
Proof.
  intros He [= <- <-]. rewrite (failed_result e m He). split; [split; [done|by intros []]|done].
Qed.

Lemma exchange_outcome fuel request c r c' :
  exchange strerror thread_errno fuel request c = Some (r, c') →
  (success r = true ↔ is_Some (response r)) ∧ owner_ (stream c') = owner_ (stream c) ∧
  (success r = true → delivered (stream c') = delivered (stream c) ++ Request.dump request).
Proof.
  unfold exchange. destruct (sendRequest_outcome request c) as (n&c1&E&H). rewrite E.
  cbn [mbind option_bind]. pose proof (send_owner _ _ _ _ H) as Ho.
  destruct (Z.eqb_spec n 0) as [->|Hn].
  { intros [= <- <-]. split; [split; [done|by intros []]|done]. }
  destruct (Z.ltb_spec n 0) as [Hlt|Hge].
  { intros [= <- <-]. rewrite failed_result by (by destruct (IsTimeoutError _)).
    split; [split; [done|by intros []]|done]. }
  destruct (send_ok _ _ _ _ H ltac:(lia)) as [Hd He].
  destruct (recvResponse _ _ fuel c1) as [[m c2]|] eqn:Er; [|done]. cbn [mbind option_bind].
  apply recv_loop_outcome in Er as [Hnone Hsome Hdel Ho2].
  cbn [stream setLastError] in Ho2. rewrite Ho in Ho2.
  destruct m as [m|]; intros [= <- <-].
  - split; [split; [by eexists|done]|]. split; [done|]. intros _. rewrite Hdel. cbn [stream setLastError].
    exact Hd.
  - destruct (Hnone eq_refl) as [Hne _]. rewrite failed_result by done.
    split; [split; [done|by intros []]|done].
Qed.
End client.

(** ** Main theorems *)

(** [BuildRequest] gives a request exactly the caller's headers, with one
    [Host]: the caller's when it is not empty and the default otherwise.  A
    [Connection] header is not stored but decides the connection mode when it
    lists close or keep-alive; method, query and body are the caller's and the
    path is never empty. *)
Theorem BuildRequest_headers method path query close headers body host :
  map_wf headers →
  let r := BuildRequest method path query close headers body host in
  Request.method r = method ∧ Request.version r = 0x11 ∧
  Request.path r = (match path with [] => $"/" | _ => path end) ∧
  Request.query r = query ∧ Request.body r = body ∧ map_wf (Request.headers r) ∧
  Request.close r = asked_close headers close ∧
  ∀ key, map_find key (Request.headers r) =
    if decide (ci_equiv key $"connection") then None
    else if decide (ci_equiv key $"host") then
      Some (match map_find key headers with Some (b :: v) => b :: v | _ => host end)
    else map_find key headers.
Proof.
  intros Hw. cbv zeta. unfold BuildRequest.
  set (r0 := Request.setBody _ _).
  pose proof (take_headers headers r0 false Hw map_wf_nil) as H.
  destruct (foldl _ _ headers) as [r h].
  destruct H as ((M1&M2&M3&M4&M5&M6&M7)&W&C&->&F). rewrite orb_false_r.
  assert (∀ key, map_find key (Request.headers r) =
    if decide (ci_equiv key $"connection") then None else map_find key headers) as F'.
  { intros key. rewrite F. change (Request.headers r0) with (@nil (str * str)).
    cbn [map_find]. by destruct (decide _), (map_find key headers). }
  clear F.
  assert (∀ key, ci_equiv key $"host" → ¬ ci_equiv key $"connection") as Hhost.
  { intros key ->. by apply (bool_decide_unpack _). }
  assert (∀ key m, map_wf m → ci_equiv key $"host" → map_find key m = map_find $"host" m) as Hkey.
  { intros key m Hm E. rewrite !map_find_absmap by done. by rewrite E. }
  assert (Request.path r = match path with [] => $"/" | _ => path end) as P.
  { rewrite M3. by destruct path. }
  unfold names_host. destruct (setHeader_members $"Host" host r) as (F1&F2&F3&F4&F5&F6&F7&F8&F9).
  destruct (match map_find $"host" headers with Some v => _ | None => _ end) eqn:Eh; cbn [negb].
  - do 7 (split; [done|]). intros key. rewrite F'. case_decide as D; [done|].
    case_decide as D'; [|done]. rewrite (Hkey _ _ Hw D').
    destruct (map_find $"host" headers) as [[|b v]|]; done.
  - rewrite F1, F2, F3, F4, F5, F6, F7.
    do 5 (split; [done|]). split; [by apply insert_or_assign_wf|]. split; [done|].
    intros key. rewrite map_find_insert, F' by done.
    assert (ci_equiv $"Host" $"host") as Hci by (by apply (bool_decide_unpack _)).
    destruct (decide (ci_equiv key $"host")) as [D|D].
    + rewrite (decide_True (P := ci_equiv key $"Host")) by (by rewrite D).
      rewrite decide_False by auto. f_equal. rewrite (Hkey _ _ Hw D).
      destruct (map_find $"host" headers) as [[|b v]|]; done.
    + rewrite (decide_False (P := ci_equiv key $"Host")) by (by rewrite Hci). done.
Qed.

Lemma BuildRequest_headers_witness :
  let headers := insert_or_assign $"connection" $"upgrade, Close" (insert_or_assign $"HOST" [] []) in
  map_wf headers ∧
  map_find $"host" (Request.headers (BuildRequest GET [] [] false headers [] $"h")) = Some $"h" ∧
  Request.close (BuildRequest GET [] [] false headers [] $"h") = true.
Proof.
  intros headers. assert (map_wf headers) as Hw
    by (apply insert_or_assign_wf, insert_or_assign_wf, map_wf_nil).
  split; [exact Hw|].
  destruct (BuildRequest_headers GET [] [] false headers [] $"h" Hw) as (_&_&_&_&_&_&C&F).
  rewrite C, F. split; vm_compute; reflexivity.
Defined.

Section theorems.
Context {T A : Type} `{HSock : Socket T, HLaws : !SocketLaws T}.
Context (strerror : Z → str) (thread_errno : Z).
Implicit Types (c : HttpConnection T).

(** [recvResponse] returns the final response.  When the bytes buffered and
    delivered, in pieces of any sizes, are printed interim responses (1xx but
    not 101), a printed well-formed response and anything more, the call skips
    the interim ones and returns the response; exactly the bytes behind it are
    left, buffered or unread, the request is counted, and the connection is
    reusable exactly when the response neither closes it nor switches
    protocols. *)
Theorem recvResponse_behind_interim fuel c chunks interim r s rest :
  pending_method_ c ≠ HEAD → pending_method_ c ≠ CONNECT →
  Forall (λ r, ResponseRoundTrip.wf_response r ∧ IsInterimResponse r = true) interim →
  ResponseRoundTrip.wf_response r → IsInterimResponse r = false →
  SessionProofs.delivers (stream c) chunks s →
  (length interim + length chunks < fuel)%nat →
  input_buffer_ c ++ mjoin chunks =
    mjoin (Response.dump <$> interim) ++ Response.dump r ++ rest →
  ∃ r' c' unread, recvResponse strerror thread_errno fuel c = Some (Some r', c') ∧
    ResponseRoundTrip.same_response r r' ∧
    request_count_ c' = wrap 64 (request_count_ c + 1) ∧
    reusable_ c' = negb (Response.close r) && negb (Response.status r =? SWITCHING_PROTOCOLS) ∧
    last_error_ c' = ERROR_OK ∧
    SessionProofs.delivers (stream c') unread s ∧ input_buffer_ c' ++ mjoin unread = rest.
Proof.
  intros Hm1 Hm2 Hi Hr Hni Hd Hf Hw.
  destruct (client_recv_delivered strerror thread_errno fuel (setLastError ERROR_OK [] c) chunks
    interim r s rest Hm1 Hm2 Hi Hr Hni Hd Hf Hw) as (r'&c'&unread&E&[H1 H2 H3 H4 H5]&Hd'&_&Hw').
  by exists r', c', unread.
Qed.

(** Receiving a response ends once the peer stops sending: with as much fuel
    as there are reads and bytes.  Without a response the connection is closed
    and an error recorded; with one no error is recorded, the request is
    counted, and the connection is reusable only if the response keeps it open
    and does not switch protocols. *)
Theorem recvResponse_ends fuel c chunks s :
  SessionProofs.delivers (stream c) chunks s →
  (read true HttpConnection.kDefaultBufferSize s).1.1 <= 0 →
  size (input_buffer_ c ++ mjoin chunks) < 2 ^ 64 →
  (length chunks + length (input_buffer_ c ++ mjoin chunks) < fuel)%nat →
  ∃ res c', recvResponse strerror thread_errno fuel c = Some (res, c') ∧
    delivered (stream c') = delivered (stream c) ∧
    match res with
    | None => last_error_ c' ≠ ERROR_OK ∧ reusable_ c' = reusable_ c ∧
              ∃ s', stream c' = Stream.close s'
    | Some m => last_error_ c' = ERROR_OK ∧
                request_count_ c' = wrap 64 (request_count_ c + 1) ∧
                (reusable_ c' = true →
                 Response.close m = false ∧ Response.status m ≠ SWITCHING_PROTOCOLS)
    end.
Proof.
  intros Hd Hend Hi Hf. unfold recvResponse.
  destruct (recv_loop_total strerror thread_errno fuel
    (ResponseParser.make (pending_method_ c)) (setLastError ERROR_OK [] c) chunks s
    (make_live _) Hd Hend Hi Hf) as [[res c'] E].
  exists res, c'. split; [done|]. apply recv_loop_outcome in E as [Hnone Hsome Hdel _].
  split; [done|]. destruct res as [m|]; [by apply Hsome|by apply Hnone].
Qed.

Context `{HNet : !Network T A, HNLaws : !NetworkLaws T A}.

(** The result of a one-shot request tells the truth: it is a success
    exactly when it carries a response, every stream that was opened has been
    closed, and success means that the peer the URI names was handed exactly
    the printed request, once. *)
Theorem DoRequest_outcome fuel now method url timeout_ms headers body r st :
  DoRequest_url strerror thread_errno fuel now method url timeout_ms headers body = Some (r, st) →
  (success r = true ↔ is_Some (response r)) ∧
  (∀ s, st = Some s → ∃ s0, s = Stream.close s0) ∧
  (success r = true → ∃ uri address s0 s1 s,
    Uri.Create url = Some uri ∧ Uri.scheme_ uri = $"http" ∧
    Uri.createAddress LookupAnyIPAddress set_address_port uri = Some address ∧
    CreateTCP address = Some s0 ∧ connect address timeout_ms s0 = (true, s1) ∧ st = Some s ∧
    delivered s = sent s1 ++ Request.dump
      (BuildRequest method (Uri.getPath uri) (Uri.query_ uri) true headers body (HostHeader uri))).
Proof.
  unfold DoRequest_url. destruct (Uri.Create url) as [u|] eqn:Eu; [|by apply stopped_result].
  unfold DoRequest_uri. destruct (str_eqb (Uri.scheme_ u) $"http") eqn:Es; [|by apply stopped_result].
  cbn [negb]. destruct (Nat.eqb (length (Uri.host_ u)) 0); [by apply stopped_result|].
  unfold DoRequest. rewrite Es. cbn [negb].
  destruct (Uri.createAddress _ _ u) as [a|] eqn:Ea; [|by apply stopped_result].
  destruct (CreateTCP a) as [s0|] eqn:Ec; [|by apply stopped_result].
  destruct (connect a timeout_ms s0) as [[] s1] eqn:Ek; cbn [negb];
    [|apply stopped_result; by destruct (IsTimeoutError _)].
  set (s2 := SetSocketTimeouts timeout_ms (Some s1)).
  assert (delivered (mkSocketStream s2 true) = sent s1) as Hs2.
  { subst s2. unfold SetSocketTimeouts. destruct (timeout_ms =? u64_max); [done|].
    cbn. by rewrite setSendTimeout_sent, setRecvTimeout_sent. }
  destruct (exchange _ _ fuel _ _) as [[r1 c1]|] eqn:Ex; [|done]. cbn [mbind option_bind].
  intros [= <- <-]. apply exchange_outcome in Ex as (Hok&Ho&Hdel). cbn [stream make owner_] in Ho.
  split; [done|]. split.
  { intros s [= <-]. unfold destroy. rewrite Ho. by eexists. }
  intros Hsucc. apply str_eqb_eq in Es. exists u, a, s0, s1, (destroy (stream c1)).
  do 6 (split; [done|]). specialize (Hdel Hsucc). cbn [stream make] in Hdel.
  rewrite Hs2 in Hdel. unfold destroy. by rewrite Ho, delivered_close.
Qed.
End theorems.

(** C4: a client and a server understand each other.  A well-formed request
    that [sendRequest] reports as sent is what [recvRequest] of the session at
    the other end returns, however the bytes are cut, with nothing left over;
    and a well-formed response that the session reports as sent is then what
    [recvResponse] returns, again with nothing left over, the request counted
    and the connection reusable exactly when the response allows it. *)
Theorem client_server_exchange {T U} `{HT : Socket T, HTL : !SocketLaws T, HU : Socket U, HUL : !SocketLaws U}
    strerror thread_errno (c c1 : HttpConnection T) (st : HttpSession.HttpSession U)
    request response n chunks s fuel :
  RequestRoundTrip.wf_request request → ResponseRoundTrip.wf_response response →
  Request.method request ≠ HEAD → Request.method request ≠ CONNECT →
  IsInterimResponse response = false →
  input_buffer_ c = [] → HttpSession.input_buffer_ st = [] →
  sendRequest strerror thread_errno (Some request) c = Some (n, c1) → 0 < n →
  SessionProofs.delivers (HttpSession.stream st) chunks s → (length chunks < fuel)%nat →
  delivered (stream c1) = delivered (stream c) ++ mjoin chunks →
  ∃ request' st1, HttpSession.recvRequest fuel st = Some (Some request', st1) ∧
    RequestRoundTrip.same_request request request' ∧ HttpSession.input_buffer_ st1 = [] ∧
    ∀ k st2 chunks' s', HttpSession.sendResponse response st1 = Some (k, st2) → 0 < k →
      SessionProofs.delivers (stream c1) chunks' s' → (length chunks' < fuel)%nat →
      delivered (HttpSession.stream st2) = delivered (HttpSession.stream st1) ++ mjoin chunks' →
      ∃ response' c2, recvResponse strerror thread_errno fuel c1 = Some (Some response', c2) ∧
        ResponseRoundTrip.same_response response response' ∧ input_buffer_ c2 = [] ∧
        request_count_ c2 = wrap 64 (request_count_ c + 1) ∧
        reusable_ c2 = negb (Response.close response) &&
                       negb (Response.status response =? SWITCHING_PROTOCOLS).
Proof.
  intros Hq Hr Hm1 Hm2 Hi Hc Hst Es Hn Hd Hf Hw.
  destruct (sendRequest_outcome strerror thread_errno request c) as (n'&c1'&E&H).
  rewrite Es in E. injection E as <- <-. destruct (send_ok _ _ _ _ H Hn) as [Hsent _].
  rewrite Hsent in Hw. apply app_inv_head in Hw.
  destruct (SessionProofs.recv_all_delivered [request] st chunks s [] fuel)
    as (rs&st1&unread&Er&Hall&_&_&Hrest); [by constructor|done|done| |].
  { rewrite Hst, app_nil_l, <- Hw, app_nil_r. symmetry. apply app_nil_r. }
  cbn [length SessionProofs.recv_all] in Er.
  destruct (HttpSession.recvRequest fuel st) as [[[q|] st1']|]; [|done..].
  injection Er as <- <-. apply Forall2_cons_1 in Hall as [Hsame _].
  apply app_nil in Hrest as [Hrest _].
  exists q, st1'. do 3 (split; [done|]). intros k st2 chunks' s' Ek Hk Hd' Hf' Hw'.
  unfold HttpSession.sendResponse in Ek.
  destruct (writeFixSize_spec (Response.toString response) (HttpSession.stream st1'))
    as (r&s2&Ew&Hor).
  rewrite Ew in Ek. injection Ek as <- <-. cbn [HttpSession.stream HttpSession.set_stream] in Hw'.
  destruct Hor as [[_ Hdel]|[? _]]; [|lia]. rewrite Hdel in Hw'. apply app_inv_head in Hw'.
  destruct (client_recv_delivered strerror thread_errno fuel (setLastError ERROR_OK [] c1) chunks' []
    response s' []) as (r'&c2&unread'&E2&[H1 H2 H3 H4 H5]&_&_&Hrest'); try done.
  { cbn. by rewrite (send_method _ _ _ _ H). }
  { cbn. by rewrite (send_method _ _ _ _ H). }
  { cbn [input_buffer_ setLastError]. rewrite (send_input _ _ _ _ H), Hc, app_nil_l, app_nil_r.
    by rewrite <- Hw'. }
  apply app_nil in Hrest' as [Hrest' _].
  exists r', c2. do 3 (split; [done|]). split; [|done].
  rewrite H2. cbn [request_count_ setLastError]. by rewrite (send_count _ _ _ _ H).
Qed.

(** Bytes that follow a response answer the next request.  A connection
    whose input buffer holds a printed well-formed response, left there behind
    an earlier one, is as usable as any other, and the call that follows the
    next request returns that response without reading anything. *)
Theorem leftover_input_answers_next {T} `{HT : Socket T, HTL : !SocketLaws T}
    strerror thread_errno (c c1 : HttpConnection T) request response n rest :
  ResponseRoundTrip.wf_response response → IsInterimResponse response = false →
  Request.method request ≠ HEAD → Request.method request ≠ CONNECT →
  input_buffer_ c = Response.dump response ++ rest →
  sendRequest strerror thread_errno (Some request) c = Some (n, c1) → 0 < n →
  ∃ response' c2, recvResponse strerror thread_errno 1 c1 = Some (Some response', c2) ∧
    ResponseRoundTrip.same_response response response' ∧
    stream c2 = stream c1 ∧ input_buffer_ c2 = rest.
Proof.
  intros Hr Hi Hm1 Hm2 Hb Es Hn.
  destruct (sendRequest_outcome strerror thread_errno request c) as (n'&c1'&E&H).
  rewrite Es in E. injection E as <- <-.
  destruct (client_recv_delivered strerror thread_errno 1 (setLastError ERROR_OK [] c1) [] []
    response (stream c1) rest) as (r'&c2&unread&E2&[H1 H2 H3 H4 H5]&Hd&Hl&Hrest'); try done.
  { cbn. by rewrite (send_method _ _ _ _ H). }
  { cbn. by rewrite (send_method _ _ _ _ H). }
  { constructor. }
  { simpl. lia. }
  { cbn [input_buffer_ setLastError]. rewrite (send_input _ _ _ _ H), Hb. apply app_nil_r. }
  destruct unread as [|u unread]; [|simpl in Hl; lia].
  rewrite SessionProofs.mjoin_nil_r in Hrest'. inversion Hd; subst.
  by exists r', c2.
Qed.

(** ** Witnesses *)

Lemma leftover_input_answers_next_witness :
  let c := set_input (Response.dump ResponseRoundTrip.sample_response)
             (make 0 (Some (mkWire [] 4096 [] 0)) true) in
  ∃ c1 response' c2,
    sendRequest (λ _, []) 0 (Some RequestRoundTrip.sample_request) c =
      Some (size (Request.dump RequestRoundTrip.sample_request), c1) ∧
    recvResponse (λ _, []) 0 1 c1 = Some (Some response', c2) ∧
    ResponseRoundTrip.same_response ResponseRoundTrip.sample_response response'.
Proof.
  intros c.
  set (p := sendRequest (λ _, []) 0 (Some RequestRoundTrip.sample_request) c).
  assert (fst <$> p = Some (size (Request.dump RequestRoundTrip.sample_request))) as Hp
    by (vm_compute; reflexivity).
  destruct p as [[n c1]|] eqn:E; [|discriminate]. injection Hp as Hp.
  destruct (leftover_input_answers_next (λ _, []) 0 c c1 RequestRoundTrip.sample_request
    ResponseRoundTrip.sample_response n []) as (r'&c2&E2&Hs&_).
  - exact ResponseRoundTrip.sample_response_wf.
  - vm_compute. reflexivity.
  - discriminate.
  - discriminate.
  - cbn [c input_buffer_ set_input]. symmetry. apply app_nil_r.
  - exact E.
  - rewrite Hp. vm_compute. reflexivity.
  - exists c1, r', c2. split; [by rewrite Hp|]. split; [exact E2|exact Hs].
Defined.

(** A network of one peer that sends [incoming] whatever it is asked. *)
Definition wire_network (incoming : list str) : Network wire str := {|
  LookupAnyIPAddress host := Some host;
  set_address_port port a := a ++ $":" ++ to_dec port;
  address_string a := a;
  CreateTCP _ := Some (mkWire incoming 7 [] 0);
  connect _ _ w := (true, w);
  setRecvTimeout _ w := w;
  setSendTimeout _ w := w;
|}.

Lemma wire_network_laws incoming : @NetworkLaws wire str _ _ (wire_network incoming).
Proof. by split. Qed.

Definition continue_response : Response.HttpResponse :=
  Response.setStatus 100 (Response.make 0x11 false).

Lemma continue_response_wf : ResponseRoundTrip.wf_response continue_response.
Proof.
  split; try (vm_compute; congruence); try (by constructor).
Qed.

(** An interim response, the final one and the start of another, cut anywhere. *)
Definition sample_incoming : list str :=
  let text := Response.dump continue_response ++ Response.dump ResponseRoundTrip.sample_response ++
              $"HTTP" in
  [take 9 text; take 60 (drop 9 text); drop 69 text].

Definition sample_connection : HttpConnection wire :=
  make 0 (Some (mkWire sample_incoming 1 [] 0)) true.

Definition drained : SocketStream wire := mkSocketStream (Some (mkWire [] 1 [] 0)) true.

Lemma sample_delivers : SessionProofs.delivers (stream sample_connection) sample_incoming drained.
Proof.
  do 3 (eapply SessionProofs.delivers_cons; [vm_compute; reflexivity|by vm_compute|]). constructor.
Qed.

Lemma recvResponse_behind_interim_witness :
  ∃ r' c' unread, recvResponse (λ _, []) 0 5 sample_connection = Some (Some r', c') ∧
    ResponseRoundTrip.same_response ResponseRoundTrip.sample_response r' ∧
    reusable_ c' = true ∧ input_buffer_ c' ++ mjoin unread = $"HTTP".
Proof.
  destruct (recvResponse_behind_interim (λ _, []) 0 5 sample_connection sample_incoming
    [continue_response] ResponseRoundTrip.sample_response drained $"HTTP")
    as (r'&c'&unread&E&Hs&_&Hr&_&_&Hrest).
  - discriminate.
  - discriminate.
  - constructor; [|constructor]. split; [exact continue_response_wf|vm_compute; reflexivity].
  - exact ResponseRoundTrip.sample_response_wf.
  - vm_compute. reflexivity.
  - exact sample_delivers.
  - simpl. lia.
  - vm_compute. reflexivity.
  - exists r', c', unread. split; [exact E|]. split; [exact Hs|]. split; [|exact Hrest].
    rewrite Hr. vm_compute. reflexivity.
Defined.

Lemma recvResponse_ends_witness :
  ∃ res c', recvResponse (λ _, []) 0 1000 sample_connection = Some (res, c') ∧
    delivered (stream c') = [].
Proof.
  destruct (recvResponse_ends (λ _, []) 0 1000 sample_connection sample_incoming drained)
    as (res&c'&E&Hd&_).
  - exact sample_delivers.
  - vm_compute. discriminate.
  - vm_compute. reflexivity.
  - apply Nat.ltb_lt. vm_compute. reflexivity.
  - exists res, c'. split; [exact E|]. rewrite Hd. reflexivity.
Defined.

Lemma DoRequest_outcome_witness :
  let HNet := wire_network sample_incoming in
  let o := DoRequest_url (λ _, []) 0 100 0 GET $"http://example/a?b" 1000 [] [] in
  ∃ r st, o = Some (r, st) ∧ success r = true ∧ is_Some (response r) ∧
    (∀ s, st = Some s → ∃ s0, s = Stream.close s0).
Proof.
  intros HNet o. destruct o as [[r st]|] eqn:E.
  - exists r, st. split; [reflexivity|].
    assert ((λ p, success p.1) <$> o = Some true) as Ho by (vm_compute; reflexivity).
    rewrite E in Ho. injection Ho as Ho.
    destruct (DoRequest_outcome (HNLaws := wire_network_laws sample_incoming)
      (λ _, []) 0 100 0 GET $"http://example/a?b" 1000 [] [] r st E) as (Hiff&Hcl&_).
    split; [exact Ho|]. split; [by apply Hiff|exact Hcl].
  - exfalso. assert ((λ p, success p.1) <$> o = Some true) as Ho by (vm_compute; reflexivity).
    rewrite E in Ho. discriminate.
Defined.

Lemma client_server_exchange_witness :
  let request := RequestRoundTrip.sample_request in
  let response := ResponseRoundTrip.sample_response in
  let text := Response.dump response in
  let c := make 0 (Some (mkWire [take 30 text; drop 30 text] 7 [] 0)) true in
  let st := HttpSession.make (Some (mkWire [take 5 (Request.dump request); drop 5 (Request.dump request)] 9 [] 0)) true in
  ∃ request' st1, HttpSession.recvRequest 3 st = Some (Some request', st1) ∧
    RequestRoundTrip.same_request request request' ∧ HttpSession.input_buffer_ st1 = [].
Proof.
  intros request response text c st.
  set (p := sendRequest (λ _, []) 0 (Some request) c).
  assert (∃ n c1, p = Some (n, c1) ∧ 0 < n ∧ delivered (stream c1) = Request.dump request)
    as (n&c1&E&Hn&Hd).
  { destruct p as [[n c1]|] eqn:E.
    - exists n, c1. split; [reflexivity|].
      assert ((λ q, (bool_decide (0 < q.1), delivered (stream q.2))) <$> p =
        Some (true, Request.dump request)) as H by (vm_compute; reflexivity).
      rewrite E in H. injection H as H1 H2. split; [|exact H2].
      by apply (bool_decide_eq_true_1 (0 < n)).
    - exfalso. assert ((λ _, tt) <$> p = Some tt) as H by (vm_compute; reflexivity).
      rewrite E in H. discriminate. }
  destruct (client_server_exchange (λ _, []) 0 c c1 st request response n
    [take 5 (Request.dump request); drop 5 (Request.dump request)]
    (mkSocketStream (Some (mkWire [] 9 [] 0)) true) 3)
    as (q&st1&Eq&Hs&Hb&_).
  - exact RequestRoundTrip.sample_request_wf.
  - exact ResponseRoundTrip.sample_response_wf.
  - discriminate.
  - discriminate.
  - vm_compute. reflexivity.
  - reflexivity.
  - reflexivity.
  - exact E.
  - exact Hn.
  - do 2 (eapply SessionProofs.delivers_cons; [vm_compute; reflexivity|by vm_compute|]). constructor.
  - simpl. lia.
  - rewrite Hd. vm_compute. reflexivity.
  - exists q, st1. split; [exact Eq|]. split; [exact Hs|exact Hb].
Defined.
End ClientExchange.
