(* ===== verification/ConnectionPool.v ===== *)
(** [HttpConnectionPool] ([droplet/src/http/http_connection.cc]): persistent
    connections of one origin, shared by many callers.  Each operation is cut
    at the points where other threads can act: the critical sections, the
    deletion of a connection, the updates of the atomic counter. *)

From stdpp Require Import gmap.
From S2P Require Import Prelude Http HttpRequest HttpResponse ByteArray Stream Uri HttpConnection.
Import Http Stream HttpConnection.

Module ConnectionPool.

(** Pointers to connections. *)
Abbreviation ptr := positive.

Section pool.
Context {T A : Type} `{HSock : Socket T}.
Context (strerror : Z → str) (thread_errno : Z).

Record HttpConnectionPool := mkHttpConnectionPool {
  host_ : str;
  vhost_ : str;
  port_ : Z;
  is_https_ : bool;
  max_size_ : Z;
  max_alive_time_ms_ : Z;
  max_requests_ : Z;
  idle_connections_ : list ptr;
  total_ : Z;
}.

(** The connections that have been created and not deleted. *)
Abbreviation heap := (gmap ptr (HttpConnection T)).

Definition set_idle (l : list ptr) (p : HttpConnectionPool) : HttpConnectionPool :=
  mkHttpConnectionPool (host_ p) (vhost_ p) (port_ p) (is_https_ p) (max_size_ p)
    (max_alive_time_ms_ p) (max_requests_ p) l (total_ p).
Definition set_total (v : Z) (p : HttpConnectionPool) : HttpConnectionPool :=
  mkHttpConnectionPool (host_ p) (vhost_ p) (port_ p) (is_https_ p) (max_size_ p)
    (max_alive_time_ms_ p) (max_requests_ p) (idle_connections_ p) v.

(** [Create]. *)
Definition Create (origin vhost : str) (max_size max_alive_time_ms max_requests : Z)
    : option HttpConnectionPool :=
  match Uri.Create origin with
  | None => None
  | Some uri =>
      if Nat.eqb (length (Uri.host_ uri)) 0 || (Uri.getPort uri <? 0) ||
         (u16_max <? Uri.getPort uri) ||
         (negb (str_eqb (Uri.scheme_ uri) $"http") && negb (str_eqb (Uri.scheme_ uri) $"https")) ||
         (max_size =? 0)
      then None
      else
        Some (mkHttpConnectionPool (Uri.host_ uri) vhost (wrap 16 (Uri.getPort uri))
                (str_eqb (Uri.scheme_ uri) $"https") max_size max_alive_time_ms max_requests
                [] 0)
  end.

(** The 32-bit counter [total_]. *)
Definition fetch_add (n : Z) (p : HttpConnectionPool) : HttpConnectionPool :=
  set_total (wrap 32 (total_ p + n)) p.
Definition fetch_sub (n : Z) (p : HttpConnectionPool) : HttpConnectionPool :=
  set_total (wrap 32 (total_ p - n)) p.

Definition getIdleConnectionCount (p : HttpConnectionPool) : nat := length (idle_connections_ p).
Definition getTotalConnectionCount (p : HttpConnectionPool) : Z := total_ p.

Definition isExpired (p : HttpConnectionPool) (c : HttpConnection T) (now : Z) : bool :=
  let lifetime_expired :=
    negb (max_alive_time_ms_ p =? 0) &&
    (max_alive_time_ms_ p <=? wrap 64 (now - created_at_ms_ c)) in
  let request_limit_reached :=
    negb (max_requests_ p =? 0) && (max_requests_ p <=? request_count_ c) in
  lifetime_expired || request_limit_reached.

(** The test of [getConnection] and of [releaseConnection]. *)
Definition unusable (p : HttpConnectionPool) (now : Z) (c : HttpConnection T) : bool :=
  negb (isConnected c) || negb (reusable_ c) || isExpired p c now.

(** ** [getConnection]

    [None] stands for the use of a connection that has been deleted. *)

(** The loop over the idle connections: the invalid ones, the one taken and
    the rest. *)
Fixpoint scan_idle (p : HttpConnectionPool) (now : Z) (h : heap) (idle : list ptr)
    : option (list ptr * option ptr * list ptr) :=
  match idle with
  | [] => Some ([], None, [])
  | candidate :: idle' =>
      c ← h !! candidate;
      if unusable p now c then
        '(invalid, connection, rest) ← scan_idle p now h idle';
        Some (candidate :: invalid, connection, rest)
      else Some ([], Some candidate, idle')
  end.

(** The locals of [getConnection] behind the critical section. *)
Record locals := mkLocals {
  invalid : list ptr;
  connection : option ptr;
  reserved_slot : bool;
}.

(** The critical section. *)
Definition get_locked (now : Z) (h : heap) (p : HttpConnectionPool)
    : option (locals * HttpConnectionPool) :=
  '(invalid, connection, idle) ← scan_idle p now h (idle_connections_ p);
  let p := set_idle idle p in
  match connection with
  | Some _ => Some (mkLocals invalid connection false, p)
  | None =>
      let after_invalid := wrap 32 (total_ p - wrap 32 (Z.of_nat (length invalid))) in
      if after_invalid <? max_size_ p
      then Some (mkLocals invalid None true, fetch_add 1 p)
      else Some (mkLocals invalid None false, p)
  end.

(** [delete] of one connection. *)
Definition delete_connection (candidate : ptr) (h : heap) : option heap :=
  match h !! candidate with
  | None => None
  | Some _ => Some (delete candidate h)
  end.

Fixpoint delete_all (l : list ptr) (h : heap) : option heap :=
  match l with
  | [] => Some h
  | candidate :: l' => h ← delete_connection candidate h; delete_all l' h
  end.

(** The subtraction behind the deletions. *)
Definition discount (n : nat) (p : HttpConnectionPool) : HttpConnectionPool :=
  if Nat.eqb n 0 then p else fetch_sub (wrap 32 (Z.of_nat n)) p.

(** A new connection for a reserved slot. *)
Definition open_connection `{!Network T A} (now timeout_ms : Z) (p : HttpConnectionPool)
    : option (HttpConnection T) :=
  address ← LookupAnyIPAddress (host_ p);
  let address := set_address_port (port_ p) address in
  socket ← CreateTCP address;
  let '(connected, socket) := connect address timeout_ms socket in
  if connected
  then Some (HttpConnection.make now (SetSocketTimeouts timeout_ms (Some socket)) true)
  else None.

(** The whole operation when no other thread interferes. *)
Definition getConnection `{!Network T A} (now now' timeout_ms : Z) (p : HttpConnectionPool)
    (h : heap) : option (option ptr * HttpConnectionPool * heap) :=
  if is_https_ p || (max_size_ p =? 0) then Some (None, p, h)
  else
    '(l, p) ← get_locked now h p;
    h ← delete_all (invalid l) h;
    let p := discount (length (invalid l)) p in
    match connection l with
    | Some c => Some (Some c, p, h)
    | None =>
        if reserved_slot l then
          match open_connection now' timeout_ms p with
          | Some c =>
              let new := fresh (dom h) in Some (Some new, p, <[new := c]> h)
          | None => Some (None, fetch_sub 1 p, h)
          end
        else Some (None, p, h)
    end.

(** ** [releaseConnection] *)

(** The critical section. *)
Definition push_idle (c : ptr) (p : HttpConnectionPool) : HttpConnectionPool :=
  set_idle (idle_connections_ p ++ [c]) p.

Definition releaseConnection (now : Z) (c : ptr) (p : HttpConnectionPool) (h : heap)
    : option (HttpConnectionPool * heap) :=
  x ← h !! c;
  if unusable p now x then
    h ← delete_connection c h;
    Some (fetch_sub 1 p, h)
  else Some (push_idle c p, h).

(** The destructor. *)
Definition destroy (p : HttpConnectionPool) (h : heap) : option (HttpConnectionPool * heap) :=
  let connections := idle_connections_ p in
  h ← delete_all connections h;
  Some (fetch_sub (wrap 32 (Z.of_nat (length connections))) (set_idle [] p), h).
(** ** Requests through the pool

    The clock is read when a connection is asked for, when it is made and when
    it is given back. *)

Definition https_message : str := $"HTTPS connection pools require TLS support".

(** What happens on a leased connection. *)
Definition lease_exchange `{!Network T A} (fuel : nat) (request : Request.HttpRequest)
    (timeout_ms : Z) (c : HttpConnection T) : option (HttpResult * HttpConnection T) :=
  if negb (isConnected c)
  then Some (MakeResult POOL_INVALID_CONNECTION
               $"connection pool returned a disconnected connection" None, c)
  else
    let c := HttpConnection.set_stream
      (mkSocketStream (SetSocketTimeouts timeout_ms (socket_ (stream c))) (owner_ (stream c))) c in
    '(sent, c) ← sendRequest strerror thread_errno (Some request) c;
    if sent =? 0
    then Some (MakeResult SEND_CLOSE_BY_PEER
                 $"peer closed while sending pooled HTTP request" None, c)
    else if sent <? 0 then Some (MakeResult (last_error_ c) (last_error_message_ c) None, c)
    else
      '(m, c) ← recvResponse strerror thread_errno fuel c;
      match m with
      | None => Some (MakeResult (last_error_ c) (last_error_message_ c) None, c)
      | Some m => Some (MakeResult ERROR_OK $"ok" (Some m), c)
      end.

(** The times of the three readings. *)
Record clock := mkClock { at_lock : Z; at_open : Z; at_release : Z }.

(** [doRequest(const HttpRequest::Ptr &, u64)]; the lease ends with the call. *)
Definition doRequest `{!Network T A} (fuel : nat) (times : clock)
    (request : option Request.HttpRequest) (timeout_ms : Z) (p : HttpConnectionPool) (h : heap)
    : option (HttpResult * HttpConnectionPool * heap) :=
  match request with
  | None => Some (MakeResult INVALID_URL $"request is null" None, p, h)
  | Some request =>
      if is_https_ p then Some (MakeResult UNSUPPORTED_SCHEME https_message None, p, h)
      else
        '(lease, p, h) ← getConnection (at_lock times) (at_open times) timeout_ms p h;
        match lease with
        | None =>
            Some (MakeResult POOL_GET_CONNECTION
                    $"cannot obtain an HTTP connection from the pool" None, p, h)
        | Some l =>
            c ← h !! l;
            '(r, c) ← lease_exchange fuel request timeout_ms c;
            '(p, h) ← releaseConnection (at_release times) l p (<[l := c]> h);
            Some (r, p, h)
        end
  end.

(** The path and the query of a request target, without its fragment. *)
Definition split_target (target : str) : str * str :=
  let target := match find_char "#"%byte target with Some i => take i target | None => target end in
  match find_char "?"%byte target with
  | Some i => (take i target, drop (i + 1) target)
  | None => (target, [])
  end.

(** [doRequest(HttpMethod, std::string_view, u64, const HttpMap &, const
    std::string &)]. *)
Definition doRequest_target `{!Network T A} (fuel : nat) (times : clock) (method : HttpMethod)
    (target : str) (timeout_ms : Z) (headers : HttpMap) (body : str)
    (p : HttpConnectionPool) (h : heap) :=
  if is_https_ p then Some (MakeResult UNSUPPORTED_SCHEME https_message None, p, h)
  else
    let '(path, query_text) := split_target target in
    let path := match path with [] => $"/" | _ => path end in
    if negb (starts_with $"/" path)
    then Some (MakeResult INVALID_URL
                 $"connection-pool request target must start with '/'" None, p, h)
    else
      let default_host :=
        match vhost_ p with
        | [] => HostHeader_port (host_ p) (port_ p) (is_https_ p)
        | vhost => vhost
        end in
      let request := BuildRequest method path query_text false headers body default_host in
      doRequest fuel times (Some request) timeout_ms p h.

(** [doRequest(HttpMethod, const Uri::Ptr &, u64, const HttpMap &, const
    std::string &)]. *)
Definition doRequest_uri `{!Network T A} (fuel : nat) (times : clock) (method : HttpMethod)
    (uri : option Uri.Uri) (timeout_ms : Z) (headers : HttpMap) (body : str)
    (p : HttpConnectionPool) (h : heap) :=
  match uri with
  | None => Some (MakeResult INVALID_URL $"URI is null" None, p, h)
  | Some u =>
      if negb (CaseInsensitiveEqual (Uri.host_ u) (host_ p)) ||
         negb (Uri.getPort u =? port_ p) ||
         negb (str_eqb (Uri.scheme_ u) (if is_https_ p then $"https" else $"http"))
      then Some (MakeResult INVALID_HOST
                   $"URI origin does not match the connection pool" None, p, h)
      else
        let target := Uri.getPath u ++
          match Uri.query_ u with [] => [] | q => $"?" ++ q end in
        doRequest_target fuel times method target timeout_ms headers body p h
  end.

Definition doGet `{!Network T A} (fuel : nat) (times : clock) :=
  doRequest_target fuel times GET.
Definition doGet_uri `{!Network T A} (fuel : nat) (times : clock) :=
  doRequest_uri fuel times GET.
Definition doPost `{!Network T A} (fuel : nat) (times : clock) :=
  doRequest_target fuel times POST.
Definition doPost_uri `{!Network T A} (fuel : nat) (times : clock) :=
  doRequest_uri fuel times POST.
End pool.

Abbreviation heap T := (gmap ptr (HttpConnection T)).
End ConnectionPool.
