(* ===== verification/PoolInvariant.v ===== *)
(** Many callers of one [HttpConnectionPool]: the steps of [getConnection],
    [releaseConnection] and the destructor in any interleaving, who owns the
    connections, and the count that bounds them. *)

From stdpp Require Import gmap.
From S2P Require Import Prelude Totals Http ByteArray Stream HttpConnection ConnectionPool.
Import Totals Stream HttpConnection ConnectionPool.

Module PoolInvariant.

(** ** Callers *)

(** How far a caller has come. *)
Inductive activity :=
  | Getting                                   (** about to enter the critical section *)
  | Dropping (todo : list ptr) (l : locals)   (** deleting, then subtracting *)
  | Opening                                   (** connecting for a reserved slot *)
  | Unreserving                               (** the connection failed *)
  | Leased (c : ptr)
  | Releasing (c : ptr)                       (** in the deleter of the lease *)
  | Discounting.                              (** deleted, not yet subtracted *)

(** The connections a caller is responsible for. *)
Definition holds (a : activity) : list ptr :=
  match a with
  | Dropping todo l => todo ++ option_list (connection l)
  | Leased c | Releasing c => [c]
  | _ => []
  end.

(** What a caller contributes to the counter: connections that can be used or
    may become so, and connections that are being thrown away. *)
Definition live_slots (a : activity) : nat :=
  (match a with
  | Dropping _ l =>
      match connection l with Some _ => 1 | None => if reserved_slot l then 1 else 0 end
  | Opening | Unreserving | Leased _ | Releasing _ => 1
  | _ => 0
  end)%nat.
Definition doomed_slots (a : activity) : nat :=
  (match a with
  | Dropping _ l => length (invalid l)
  | Discounting => 1
  | _ => 0
  end)%nat.

Section steps.
Context {T A : Type} `{HSock : Socket T}.

Record world := mkWorld {
  pool : HttpConnectionPool;
  alive : bool;
  conns : heap T;
  callers : gmap positive activity;
}.

Definition set_caller (i : positive) (a : activity) (w : world) : world :=
  mkWorld (pool w) (alive w) (conns w) (<[i := a]> (callers w)).
Definition end_caller (i : positive) (w : world) : world :=
  mkWorld (pool w) (alive w) (conns w) (delete i (callers w)).
Definition set_pool (p : HttpConnectionPool) (w : world) : world :=
  mkWorld p (alive w) (conns w) (callers w).
Definition set_conns (h : heap T) (w : world) : world :=
  mkWorld (pool w) (alive w) h (callers w).

(** What a caller does after its deletions. *)
Definition after_drop (i : positive) (l : locals) (w : world) : world :=
  match connection l with
  | Some c => set_caller i (Leased c) w
  | None => if reserved_slot l then set_caller i Opening w else end_caller i w
  end.

(** The clock and the network may answer anything at each step. *)
Inductive step (w : world) : world → Prop :=
  | step_call i :
      alive w = true → is_https_ (pool w) = false → max_size_ (pool w) ≠ 0 →
      callers w !! i = None → step w (set_caller i Getting w)
  | step_lock i now l p :
      callers w !! i = Some Getting → get_locked now (conns w) (pool w) = Some (l, p) →
      step w (set_caller i (Dropping (invalid l) l) (set_pool p w))
  | step_drop i c todo l h :
      callers w !! i = Some (Dropping (c :: todo) l) → delete_connection c (conns w) = Some h →
      step w (set_caller i (Dropping todo l) (set_conns h w))
  | step_dropped i l :
      callers w !! i = Some (Dropping [] l) →
      step w (after_drop i l (set_pool (discount (length (invalid l)) (pool w)) w))
  | step_open i (net : Network T A) now timeout_ms c new :
      callers w !! i = Some Opening →
      open_connection now timeout_ms (pool w) = Some c → conns w !! new = None →
      step w (set_caller i (Leased new) (set_conns (<[new := c]> (conns w)) w))
  | step_open_failed i (net : Network T A) now timeout_ms :
      callers w !! i = Some Opening → open_connection now timeout_ms (pool w) = None →
      step w (set_caller i Unreserving w)
  | step_unreserve i :
      callers w !! i = Some Unreserving →
      step w (end_caller i (set_pool (fetch_sub 1 (pool w)) w))
  | step_use i c x y :
      callers w !! i = Some (Leased c) → conns w !! c = Some x →
      step w (set_conns (<[c := y]> (conns w)) w)
  | step_release i c :
      callers w !! i = Some (Leased c) → alive w = true → step w (set_caller i (Releasing c) w)
  | step_release_orphan i c h :
      callers w !! i = Some (Leased c) → alive w = false →
      delete_connection c (conns w) = Some h → step w (end_caller i (set_conns h w))
  | step_release_drop i c x now h :
      callers w !! i = Some (Releasing c) → conns w !! c = Some x →
      unusable (pool w) now x = true → delete_connection c (conns w) = Some h →
      step w (set_caller i Discounting (set_conns h w))
  | step_release_keep i c x now :
      callers w !! i = Some (Releasing c) → conns w !! c = Some x →
      unusable (pool w) now x = false →
      step w (end_caller i (set_pool (push_idle c (pool w)) w))
  | step_release_full i c x now h :
      (** [push_back] throws *)
      callers w !! i = Some (Releasing c) → conns w !! c = Some x →
      unusable (pool w) now x = false → delete_connection c (conns w) = Some h →
      step w (set_caller i Discounting (set_conns h w))
  | step_discount i :
      callers w !! i = Some Discounting →
      step w (end_caller i (set_pool (fetch_sub 1 (pool w)) w))
  | step_destroy p h :
      alive w = true → (∀ i a, callers w !! i = Some a → ∃ c, a = Leased c) →
      destroy (pool w) (conns w) = Some (p, h) →
      step w (mkWorld p false h (callers w)).

(** A new pool without callers. *)
Definition start (p : HttpConnectionPool) : world := mkWorld p true ∅ ∅.

Definition reachable (p : HttpConnectionPool) : world → Prop := rtc step (start p).

(** ** The blocks *)

Definition keys (h : heap T) : list ptr := (map_to_list h).*1.

Lemma keys_insert h c x : h !! c = None → keys (<[c := x]> h) ≡ₚ c :: keys h.
Proof. intros H. unfold keys. by rewrite map_to_list_insert. Qed.

Lemma keys_delete h c x : h !! c = Some x → keys h ≡ₚ c :: keys (delete c h).
Proof.
  intros H. rewrite <- (insert_delete_id h c x) at 1 by done. apply keys_insert, lookup_delete_eq.
Qed.

Lemma keys_update h c x y : h !! c = Some x → keys (<[c := y]> h) ≡ₚ keys h.
Proof.
  intros H. rewrite (keys_delete h c x H), <- insert_delete_eq. apply keys_insert, lookup_delete_eq.
Qed.

Lemma keys_elem h c : c ∈ keys h ↔ is_Some (h !! c).
Proof.
  unfold keys. rewrite list_elem_of_fmap. split.
  - intros ([k x]&->&Hin). apply elem_of_map_to_list in Hin. by eexists.
  - intros [x Hx]. exists (c, x). split; [done|]. by apply elem_of_map_to_list.
Qed.

Lemma keys_NoDup h : NoDup (keys h).
Proof. apply NoDup_fst_map_to_list. Qed.

Lemma delete_connection_spec c h h' :
  delete_connection c h = Some h' → keys h ≡ₚ c :: keys h'.
Proof.
  unfold delete_connection. destruct (h !! c) as [x|] eqn:E; [|done]. intros [= <-].
  by apply keys_delete with x.
Qed.

Lemma delete_all_spec l : ∀ h h', delete_all l h = Some h' → keys h ≡ₚ l ++ keys h'.
Proof.
  induction l as [|c l IH]; intros h h'; cbn [delete_all]; [by intros [= <-]|].
  destruct (delete_connection c h) as [h1|] eqn:E; [|done]. cbn [mbind option_bind].
  intros H%IH. by rewrite (delete_connection_spec _ _ _ E), H.
Qed.

(** The settings never change. *)
Definition same_settings (p q : HttpConnectionPool) : Prop :=
  host_ q = host_ p ∧ vhost_ q = vhost_ p ∧ port_ q = port_ p ∧ is_https_ q = is_https_ p ∧
  max_size_ q = max_size_ p ∧ max_alive_time_ms_ q = max_alive_time_ms_ p ∧
  max_requests_ q = max_requests_ p.

Lemma same_settings_trans p q r : same_settings p q → same_settings q r → same_settings p r.
Proof. unfold same_settings. intuition congruence. Qed.

(** What the scan takes out of the deque, in order. *)
Lemma scan_idle_spec p now h idle : ∀ bad found rest,
  scan_idle p now h idle = Some (bad, found, rest) →
  idle = bad ++ option_list found ++ rest ∧ (found = None → rest = []).
Proof.
  induction idle as [|c idle IH]; intros bad found rest; cbn [scan_idle].
  - by intros [= <- <- <-].
  - destruct (h !! c) as [x|]; [|done]. cbn [mbind option_bind].
    destruct (unusable p now x); [|by intros [= <- <- <-]].
    destruct (scan_idle p now h idle) as [[[b f] r]|]; [|done]. cbn [mbind option_bind].
    intros [= <- <- <-]. destruct (IH b f r eq_refl) as [-> ?]. done.
Qed.

(** The effect of the critical section of [getConnection] on the pool. *)
Lemma get_locked_spec now h p l p' :
  Z.of_nat (length (idle_connections_ p)) <= total_ p < 2 ^ 32 - 1 →
  get_locked now h p = Some (l, p') →
  idle_connections_ p = invalid l ++ option_list (connection l) ++ idle_connections_ p' ∧
  same_settings p p' ∧
  total_ p' = total_ p + (if reserved_slot l then 1 else 0) ∧
  (reserved_slot l = true →
     connection l = None ∧ total_ p - Z.of_nat (length (invalid l)) < max_size_ p) ∧
  (connection l = None → idle_connections_ p' = []).
Proof.
  intros Ht. unfold get_locked.
  destruct (scan_idle p now h (idle_connections_ p)) as [[[b f] r]|] eqn:E; [|done].
  apply scan_idle_spec in E as [Hi Hr]. cbn [mbind option_bind].
  rewrite Hi in Ht. rewrite !length_app in Ht. destruct f as [c|].
  { intros [= <- <-]. cbn. rewrite Z.add_0_r. done. }
  specialize (Hr eq_refl) as ->. cbn [total_ max_size_ set_idle option_list option_rect length] in *.
  rewrite (wrap_small 32 (Z.of_nat (length b))) by lia. rewrite wrap_small by lia.
  destruct (Z.ltb_spec (total_ p - Z.of_nat (length b)) (max_size_ p)); intros [= <- <-];
    cbn [invalid connection reserved_slot idle_connections_ fetch_add set_total set_idle total_].
  - rewrite wrap_small by lia. done.
  - rewrite Z.add_0_r. done.
Qed.
(** ** The invariant *)

Context (p0 : HttpConnectionPool).
Context (Hmax : 0 <= max_size_ p0 < 2 ^ 31).

Record invariant (w : world) : Prop := {
  inv_settings : same_settings p0 (pool w);
  inv_owned : idle_connections_ (pool w) ++ collect holds (callers w) ≡ₚ keys (conns w);
  inv_counted : alive w = true →
    total_ (pool w) = Z.of_nat (length (idle_connections_ (pool w)) +
      count live_slots (callers w) + count doomed_slots (callers w)) ∧
    total_ (pool w) <= max_size_ p0 + Z.of_nat (count doomed_slots (callers w)) ∧
    total_ (pool w) <= 2 * max_size_ p0;
  inv_dead : alive w = false → idle_connections_ (pool w) = [] ∧
    ∀ i a, callers w !! i = Some a → ∃ c, a = Leased c;
}.

(** Takes caller [i] out of the totals, before and after. *)
Ltac caller H :=
  match type of H with
  | callers ?w !! ?i = Some ?a =>
      let Hh := fresh "Hh" in let Hl := fresh "Hl" in let Hd := fresh "Hd" in
      pose proof (collect_lookup holds (callers w) i a H) as Hh;
      pose proof (count_lookup live_slots (callers w) i a H) as Hl;
      pose proof (count_lookup doomed_slots (callers w) i a H) as Hd;
      cbn [holds live_slots doomed_slots app option_list option_rect length] in Hh, Hl, Hd
  end.

(** A caller that is not a lease shows that the pool is alive. *)
Lemma busy_alive w i a :
  invariant w → callers w !! i = Some a → (∀ c, a ≠ Leased c) → alive w = true.
Proof.
  intros Hinv Hi Ha. destruct (alive w) eqn:E; [done|].
  destruct (inv_dead w Hinv E) as [_ Hall]. destruct (Hall i a Hi) as [c ->]. by destruct (Ha c).
Qed.

(** The three parts of the invariant for a live pool. *)
Lemma live_invariant w :
  alive w = true → same_settings p0 (pool w) →
  idle_connections_ (pool w) ++ collect holds (callers w) ≡ₚ keys (conns w) →
  (total_ (pool w) = Z.of_nat (length (idle_connections_ (pool w)) +
      count live_slots (callers w) + count doomed_slots (callers w)) ∧
   total_ (pool w) <= max_size_ p0 + Z.of_nat (count doomed_slots (callers w)) ∧
   total_ (pool w) <= 2 * max_size_ p0) →
  invariant w.
Proof. intros Ha ???. split; try done. by rewrite Ha. Qed.

Lemma start_invariant : idle_connections_ p0 = [] → total_ p0 = 0 → invariant (start p0).
Proof.
  intros Hi Ht. apply live_invariant; try done; cbn.
  - by rewrite Hi.
  - rewrite Hi, Ht. rewrite !count_empty. simpl. lia.
Qed.

Lemma lock_invariant w i now l p :
  invariant w → callers w !! i = Some Getting → get_locked now (conns w) (pool w) = Some (l, p) →
  invariant (set_caller i (Dropping (invalid l) l) (set_pool p w)).
Proof.
  intros Hinv Hi El. pose proof (busy_alive _ _ _ Hinv Hi ltac:(done)) as Ha.
  destruct (inv_counted w Hinv Ha) as (Ht&Hlim&Htw). caller Hi.
  apply get_locked_spec in El as (Hidle&Hset&Htot&Hres&Hnone); [|lia].
  pose proof (inv_settings w Hinv) as Hset0.
  assert (max_size_ (pool w) = max_size_ p0) as Hm by apply Hset0.
  pose proof (inv_owned w Hinv) as Ho. rewrite Hidle in Ho, Ht. rewrite !length_app in Ht.
  apply live_invariant; cbn [pool alive conns callers set_caller set_pool]; [done| | |].
  - by eapply same_settings_trans.
  - rewrite collect_update. cbn [holds]. rewrite <- Ho, Hh. solve_Permutation.
  - rewrite !count_update, Htot. cbn [live_slots doomed_slots].
    destruct (connection l) as [c|]; cbn [option_list option_rect length] in Ht.
    + destruct (reserved_slot l); [by destruct (Hres eq_refl)|]. cbn match. lia.
    + rewrite (Hnone eq_refl) in *. cbn [length] in *.
      destruct (reserved_slot l); [destruct (Hres eq_refl) as [_ ?]|]; cbn match; lia.
Qed.

Lemma drop_invariant w i c todo l h :
  invariant w → callers w !! i = Some (Dropping (c :: todo) l) →
  delete_connection c (conns w) = Some h →
  invariant (set_caller i (Dropping todo l) (set_conns h w)).
Proof.
  intros Hinv Hi Ed. pose proof (busy_alive _ _ _ Hinv Hi ltac:(done)) as Ha.
  destruct (inv_counted w Hinv Ha) as (Ht&Hlim&Htw). caller Hi.
  pose proof (inv_owned w Hinv) as Ho. rewrite (delete_connection_spec _ _ _ Ed), Hh in Ho.
  apply live_invariant; cbn [pool alive conns callers set_caller set_conns]; [done|apply Hinv| |].
  - rewrite collect_update. cbn [holds]. apply (Permutation_cons_inv (a := c)).
    rewrite <- Ho. solve_Permutation.
  - rewrite !count_update. cbn [live_slots doomed_slots]. lia.
Qed.

Lemma discount_spec n p :
  Z.of_nat n <= total_ p < 2 ^ 32 →
  total_ (discount n p) = total_ p - Z.of_nat n ∧ same_settings p (discount n p) ∧
  idle_connections_ (discount n p) = idle_connections_ p.
Proof.
  intros Hn. unfold discount. destruct (Nat.eqb_spec n 0) as [->|]; [split; [lia|done]|].
  split; [|done]. cbn. rewrite (wrap_small 32 (Z.of_nat n)), wrap_small by lia. lia.
Qed.

Lemma dropped_invariant w i l :
  invariant w → callers w !! i = Some (Dropping [] l) →
  invariant (after_drop i l (set_pool (discount (length (invalid l)) (pool w)) w)).
Proof.
  intros Hinv Hi. pose proof (busy_alive _ _ _ Hinv Hi ltac:(done)) as Ha.
  destruct (inv_counted w Hinv Ha) as (Ht&Hlim&Htw). caller Hi.
  destruct (discount_spec (length (invalid l)) (pool w)) as (E1&E2&E3); [lia|].
  pose proof (inv_owned w Hinv) as Ho. rewrite Hh in Ho.
  pose proof (same_settings_trans _ _ _ (inv_settings w Hinv) E2) as Hs.
  unfold after_drop. destruct (connection l) as [c|];
    [|destruct (reserved_slot l)]; apply live_invariant;
    cbn [pool alive conns callers set_caller end_caller set_pool]; try done; rewrite ?E3.
  1,3: rewrite collect_update; exact Ho.
  1,2,4: rewrite ?count_update, E1; cbn [live_slots doomed_slots]; lia.
  exact Ho.
Qed.

Lemma open_invariant w i c new :
  invariant w → callers w !! i = Some Opening → conns w !! new = None →
  invariant (set_caller i (Leased new) (set_conns (<[new := c]> (conns w)) w)).
Proof.
  intros Hinv Hi Hn. pose proof (busy_alive _ _ _ Hinv Hi ltac:(done)) as Ha.
  destruct (inv_counted w Hinv Ha) as (Ht&Hlim&Htw). caller Hi.
  pose proof (inv_owned w Hinv) as Ho. rewrite Hh in Ho.
  apply live_invariant; cbn [pool alive conns callers set_caller set_conns]; [done|apply Hinv| |].
  - rewrite collect_update, keys_insert, <- Ho by done. cbn [holds]. solve_Permutation.
  - rewrite !count_update. cbn [live_slots doomed_slots]. lia.
Qed.

(** A step that changes only what one caller does, for the same slots. *)
Lemma caller_invariant w i a b :
  invariant w → callers w !! i = Some a → alive w = true → holds b ≡ₚ holds a →
  live_slots b = live_slots a → doomed_slots b = doomed_slots a →
  invariant (set_caller i b w).
Proof.
  intros Hinv Hi Ha Eh El Ed. destruct (inv_counted w Hinv Ha) as (Ht&Hlim&Htw).
  pose proof (count_lookup live_slots _ _ _ Hi). pose proof (count_lookup doomed_slots _ _ _ Hi).
  pose proof (inv_owned w Hinv) as Ho. rewrite (collect_lookup holds _ _ _ Hi) in Ho.
  apply live_invariant; cbn [pool alive conns callers set_caller]; [done|apply Hinv| |].
  - by rewrite collect_update, Eh.
  - rewrite !count_update, El, Ed. lia.
Qed.

(** A step that gives back one slot. *)
Lemma discount_invariant w i a :
  invariant w → callers w !! i = Some a → holds a = [] → (∀ c, a ≠ Leased c) →
  (live_slots a + doomed_slots a = 1)%nat →
  invariant (end_caller i (set_pool (fetch_sub 1 (pool w)) w)).
Proof.
  intros Hinv Hi Eh Hna Es. pose proof (busy_alive _ _ _ Hinv Hi Hna) as Ha.
  destruct (inv_counted w Hinv Ha) as (Ht&Hlim&Htw).
  pose proof (count_lookup live_slots _ _ _ Hi). pose proof (count_lookup doomed_slots _ _ _ Hi).
  pose proof (inv_owned w Hinv) as Ho. rewrite (collect_lookup holds _ _ _ Hi), Eh in Ho.
  apply live_invariant; cbn [pool alive conns callers end_caller set_pool]; [done| |done|].
  - apply (inv_settings w Hinv).
  - cbn [fetch_sub set_total total_ idle_connections_]. rewrite wrap_small by lia. lia.
Qed.

(** The release of a connection that is not kept. *)
Lemma release_drop_invariant w i c h :
  invariant w → callers w !! i = Some (Releasing c) → delete_connection c (conns w) = Some h →
  invariant (set_caller i Discounting (set_conns h w)).
Proof.
  intros Hinv Hi Ed. pose proof (busy_alive _ _ _ Hinv Hi ltac:(done)) as Ha.
  destruct (inv_counted w Hinv Ha) as (Ht&Hlim&Htw). caller Hi.
  pose proof (inv_owned w Hinv) as Ho. rewrite (delete_connection_spec _ _ _ Ed), Hh in Ho.
  apply live_invariant; cbn [pool alive conns callers set_caller set_conns]; [done|apply Hinv| |].
  - rewrite collect_update. cbn [holds]. apply (Permutation_cons_inv (a := c)).
    rewrite <- Ho. solve_Permutation.
  - rewrite !count_update. cbn [live_slots doomed_slots]. lia.
Qed.

Lemma release_keep_invariant w i c :
  invariant w → callers w !! i = Some (Releasing c) →
  invariant (end_caller i (set_pool (push_idle c (pool w)) w)).
Proof.
  intros Hinv Hi. pose proof (busy_alive _ _ _ Hinv Hi ltac:(done)) as Ha.
  destruct (inv_counted w Hinv Ha) as (Ht&Hlim&Htw). caller Hi.
  pose proof (inv_owned w Hinv) as Ho. rewrite Hh in Ho.
  apply live_invariant; cbn [pool alive conns callers end_caller set_pool]; [done| | |].
  - apply (inv_settings w Hinv).
  - rewrite <- Ho. cbn [push_idle set_idle idle_connections_]. solve_Permutation.
  - cbn [push_idle set_idle idle_connections_ total_]. rewrite length_app. cbn [length]. lia.
Qed.
(** A step of a pool that is gone, or of the destructor. *)
Lemma dead_invariant p h m :
  same_settings p0 p → idle_connections_ p = [] → collect holds m ≡ₚ keys h →
  (∀ i a, m !! i = Some a → ∃ c, a = Leased c) → invariant (mkWorld p false h m).
Proof. intros Hs Hi Ho Hm. split; cbn; [done|by rewrite Hi|done|done]. Qed.

Lemma orphan_invariant w i c h :
  invariant w → callers w !! i = Some (Leased c) → alive w = false →
  delete_connection c (conns w) = Some h → invariant (end_caller i (set_conns h w)).
Proof.
  intros Hinv Hi Ha Ed. destruct (inv_dead w Hinv Ha) as [Hidle Hall].
  pose proof (inv_owned w Hinv) as Ho. rewrite (delete_connection_spec _ _ _ Ed), Hidle in Ho.
  rewrite (collect_lookup holds _ _ _ Hi) in Ho. unfold end_caller, set_conns. rewrite Ha.
  apply dead_invariant; cbn [pool conns callers]; [apply Hinv|done| |].
  - apply (Permutation_cons_inv (a := c)). exact Ho.
  - intros j a Hj. apply lookup_delete_Some in Hj as [_ Hj]. by eapply Hall.
Qed.

Lemma use_invariant w c x y :
  invariant w → conns w !! c = Some x → invariant (set_conns (<[c := y]> (conns w)) w).
Proof.
  intros [H1 H2 H3 H4] Hc. split; cbn [pool alive conns callers set_conns]; try done.
  by rewrite (keys_update _ _ _ _ Hc).
Qed.

Lemma destroy_invariant w p h :
  invariant w → (∀ i a, callers w !! i = Some a → ∃ c, a = Leased c) →
  destroy (pool w) (conns w) = Some (p, h) → invariant (mkWorld p false h (callers w)).
Proof.
  intros Hinv Hall. unfold destroy.
  destruct (delete_all _ _) as [h'|] eqn:E; [|done]. cbn [mbind option_bind]. intros [= <- <-].
  apply delete_all_spec in E. pose proof (inv_owned w Hinv) as Ho. rewrite E in Ho.
  apply Permutation_app_inv_l in Ho. apply dead_invariant; try done. apply Hinv.
Qed.

Lemma step_invariant w w' : invariant w → step w w' → invariant w'.
Proof.
  intros Hinv Hstep. destruct Hstep as [i Ha Hh Hm Hi|i now l p Hi El|i c todo l h Hi Ed|i l Hi
    |i net now t c new Hi _ Hn|i net now t Hi _|i Hi|i c x y Hi Hx|i c Hi Ha|i c h Hi Ha Ed
    |i c x now h Hi Hx _ Ed|i c x now Hi Hx _|i c x now h Hi Hx _ Ed|i Hi|p h Ha Hall Ed].
  - destruct (inv_counted w Hinv Ha) as (Ht&Hlim&Htw).
    apply live_invariant; cbn [pool alive conns callers set_caller]; [done|apply Hinv| |].
    + rewrite collect_insert by done. apply (inv_owned w Hinv).
    + rewrite !count_insert by done. cbn [live_slots doomed_slots]. lia.
  - by apply lock_invariant with now.
  - by eapply drop_invariant.
  - by apply dropped_invariant.
  - by apply open_invariant.
  - eapply caller_invariant; try done. by eapply busy_alive.
  - by eapply discount_invariant.
  - by eapply use_invariant.
  - by eapply caller_invariant.
  - by eapply orphan_invariant.
  - by eapply release_drop_invariant.
  - by eapply release_keep_invariant.
  - by eapply release_drop_invariant.
  - by eapply discount_invariant.
  - by eapply destroy_invariant.
Qed.

Lemma reachable_invariant w :
  idle_connections_ p0 = [] → total_ p0 = 0 → reachable p0 w → invariant w.
Proof.
  intros Hi Ht Hr. assert (invariant (start p0)) as H0 by (by apply start_invariant).
  unfold reachable in Hr. induction Hr as [w|w1 w2 w3 H12 _ IH]; [done|].
  by apply IH, (step_invariant w1).
Qed.

(** Every pointer somebody owns is a connection that exists. *)
Lemma owned_exists w c :
  invariant w → c ∈ idle_connections_ (pool w) ++ collect holds (callers w) →
  is_Some (conns w !! c).
Proof. intros Hinv Hc. apply keys_elem. by rewrite <- (inv_owned w Hinv). Qed.

Lemma held_exists w i a c :
  invariant w → callers w !! i = Some a → c ∈ holds a → is_Some (conns w !! c).
Proof.
  intros Hinv Hi Hc. apply (owned_exists w); [done|]. apply elem_of_app. right.
  rewrite (collect_lookup holds _ _ _ Hi). apply elem_of_app. by left.
Qed.
End steps.
End PoolInvariant.
