(* ===== verification/PoolProofs.v ===== *)
(** What [HttpConnectionPool] guarantees: exclusive leases and exact counts for
    any interleaving of its callers, callers that always finish, which
    connection a call takes, and requests through the pool as runs of the
    interleaving. *)

From stdpp Require Import gmap.
From S2P Require Import Prelude Totals Http HttpRequest HttpResponse RequestRoundTrip ByteArray Stream StreamProofs Uri HttpConnection ClientProofs ClientExchange ConnectionPool PoolInvariant.
Import Totals Stream StreamProofs HttpConnection ClientProofs ClientExchange ConnectionPool PoolInvariant.

Module PoolProofs.
Section proofs.
Context {T A : Type} `{HSock : Socket T}.
Implicit Types (h : heap T) (w : world (T := T)) (p : HttpConnectionPool).

(** ** The blocks are defined *)

Lemma scan_idle_total p now h idle :
  (∀ c, c ∈ idle → is_Some (h !! c)) → is_Some (scan_idle p now h idle).
Proof.
  induction idle as [|c idle IH]; intros Hall; cbn [scan_idle]; [by eexists|].
  destruct (Hall c) as [x ->]; [by left|]. cbn [mbind option_bind].
  destruct (unusable p now x); [|by eexists].
  destruct IH as [[[b f] r] ->]; [|by eexists]. intros d Hd. apply Hall. by right.
Qed.

Lemma get_locked_total p now h :
  (∀ c, c ∈ idle_connections_ p → is_Some (h !! c)) → is_Some (get_locked now h p).
Proof.
  intros Hall. unfold get_locked. destruct (scan_idle_total p now h _ Hall) as [[[b f] r] ->].
  cbn [mbind option_bind]. destruct f; [by eexists|]. destruct (_ <? _); by eexists.
Qed.

Lemma delete_connection_total h c :
  is_Some (h !! c) → delete_connection c h = Some (delete c h).
Proof. unfold delete_connection. by intros [x ->]. Qed.

Lemma delete_all_total l : ∀ h,
  NoDup l → (∀ c, c ∈ l → is_Some (h !! c)) → ∃ h', delete_all l h = Some h' ∧
    ∀ c, h' !! c = if bool_decide (c ∈ l) then None else h !! c.
Proof.
  induction l as [|c l IH]; intros h Hnd Hall; cbn [delete_all]; [by exists h|].
  apply NoDup_cons in Hnd as [Hc Hnd].
  rewrite delete_connection_total by (apply Hall; left). cbn [mbind option_bind].
  destruct (IH (delete c h)) as (h'&->&Hh'); [done| |].
  { intros d Hd. rewrite lookup_delete_ne by (by intros ->). apply Hall. by right. }
  exists h'. split; [done|]. intros d. rewrite Hh'. destruct (decide (d = c)) as [->|Hne].
  - rewrite lookup_delete_eq, (bool_decide_eq_true_2 (c ∈ c :: l)) by left.
    by destruct (bool_decide _).
  - rewrite lookup_delete_ne by done. by rewrite (bool_decide_ext (d ∈ c :: l) (d ∈ l))
      by (rewrite elem_of_cons; naive_solver).
Qed.

(** The scan takes the first usable connection and what is in front of it. *)
Lemma scan_idle_first p now h idle : ∀ bad found rest,
  scan_idle p now h idle = Some (bad, found, rest) →
  (∀ c, c ∈ bad → ∃ x, h !! c = Some x ∧ unusable p now x = true) ∧
  (∀ c, found = Some c → ∃ x, h !! c = Some x ∧ unusable p now x = false).
Proof.
  induction idle as [|c idle IH]; intros bad found rest; cbn [scan_idle].
  - intros [= <- <- <-]. split; [|done]. intros c Hc. by apply elem_of_nil in Hc.
  - destruct (h !! c) as [x|] eqn:Ex; [|done]. cbn [mbind option_bind].
    destruct (unusable p now x) eqn:Eu.
    + destruct (scan_idle p now h idle) as [[[b f] r]|]; [|done]. cbn [mbind option_bind].
      intros [= <- <- <-]. destruct (IH b f r eq_refl) as [H1 H2]. split; [|done].
      intros d [->|Hd]%elem_of_cons; [by exists x|by apply H1].
    + intros [= <- <- <-]. split; [intros d Hd; by apply elem_of_nil in Hd|].
      intros d [= <-]. by exists x.
Qed.

(** The critical section, exactly. *)
Lemma get_locked_takes now h p :
  (∀ c, c ∈ idle_connections_ p → is_Some (h !! c)) →
  Z.of_nat (length (idle_connections_ p)) <= total_ p < 2 ^ 32 - 1 →
  ∃ l p', get_locked now h p = Some (l, p') ∧ same_settings p p' ∧
    idle_connections_ p = invalid l ++ option_list (connection l) ++ idle_connections_ p' ∧
    total_ p' = total_ p + (if reserved_slot l then 1 else 0) ∧
    reserved_slot l = bool_decide (connection l = None) &&
      (total_ p - Z.of_nat (length (invalid l)) <? max_size_ p) ∧
    (connection l = None → idle_connections_ p' = []) ∧
    (∀ c, c ∈ invalid l → ∃ x, h !! c = Some x ∧ unusable p now x = true) ∧
    (∀ c, connection l = Some c → ∃ x, h !! c = Some x ∧ unusable p now x = false).
Proof.
  intros Hall Ht. destruct (get_locked_total p now h Hall) as [[l p'] E]. exists l, p'.
  split; [done|]. destruct (get_locked_spec _ _ _ _ _ Ht E) as (Hi&Hs&Htot&_&Hnone).
  do 3 (split; [done|]). revert E Hi. unfold get_locked.
  destruct (scan_idle p now h (idle_connections_ p)) as [[[bad found] rest]|] eqn:Es; [|done].
  destruct (scan_idle_first _ _ _ _ _ _ _ Es) as [Hbad Hfound].
  destruct (scan_idle_spec _ _ _ _ _ _ _ Es) as [Hidle _]. rewrite Hidle in Ht.
  rewrite !length_app in Ht. cbn [mbind option_bind total_ max_size_ set_idle].
  rewrite (wrap_small 32 (Z.of_nat _)), wrap_small by lia.
  destruct found as [c|]; [by intros [= <- <-]|].
  destruct (_ <? max_size_ p) eqn:El; intros [= <- <-] _; cbn; by rewrite El.
Qed.

Lemma open_same_settings {HNet : Network T A} now t p q :
  same_settings p q → open_connection now t q = open_connection now t p.
Proof. intros (F1&_&F3&_). unfold open_connection. by rewrite F1, F3. Qed.

(** ** Callers finish *)

Section progress.
Context (p0 : HttpConnectionPool) (Hmax : 0 <= max_size_ p0 < 2 ^ 31).

(** Where a call ends: with a lease or without a trace. *)
Definition settled w (i : positive) : Prop :=
  callers w !! i = None ∨ ∃ c, callers w !! i = Some (Leased c).

(** The other callers have not moved. *)
Definition others w w' (i : positive) : Prop :=
  ∀ j, j ≠ i → callers w' !! j = callers w !! j.

(** A step that takes caller [i], and no other, on in its call. *)
Record own_step (i : positive) w w' : Prop := mkOwnStep {
  own_taken : step (A := A) w w';
  own_inside : is_Some (callers w !! i);
  own_moved : callers w' !! i ≠ callers w !! i;
}.

(** A bound on the own steps caller [i] has left. *)
Definition work_left w (i : positive) : nat :=
  (match callers w !! i with
   | None => 0
   | Some Unreserving | Some Discounting => 1
   | Some (Releasing _) => 2
   | Some (Leased _) => 3
   | Some Opening => 4
   | Some (Dropping todo _) => 5 + length todo
   | Some Getting => 6 + length (idle_connections_ (pool w))
   end)%nat.

Lemma own_change i (m : gmap positive activity) j (a : activity) :
  <[j := a]> m !! i ≠ m !! i → i = j.
Proof. intros H. destruct (decide (i = j)); [done|]. by rewrite lookup_insert_ne in H. Qed.

Lemma own_end i (m : gmap positive activity) j : delete j m !! i ≠ m !! i → i = j.
Proof. intros H. destruct (decide (i = j)); [done|]. by rewrite lookup_delete_ne in H. Qed.

Lemma own_after_drop i j l p w :
  callers (after_drop j l (set_pool p w)) !! i ≠ callers w !! i → i = j.
Proof.
  unfold after_drop. destruct (connection l); [apply own_change|].
  destruct (reserved_slot l); [apply own_change|apply own_end].
Qed.

(** Every own step brings the end of the call nearer. *)
Lemma own_step_decreases i w w' :
  invariant p0 w → own_step i w w' → (work_left w' i < work_left w i)%nat.
Proof.
  intros Hinv [Hs [a Ha] Hm]. unfold work_left.
  destruct Hs; cbn [callers set_caller end_caller set_pool set_conns] in *;
    first [ by destruct Hm
          | apply own_change in Hm as -> | apply own_end in Hm as ->
          | apply own_after_drop in Hm as -> ];
    try congruence; clear Ha; match goal with H : callers _ !! _ = _ |- _ => rewrite H end;
    rewrite ?lookup_insert_eq, ?lookup_delete_eq; cbn [length]; try lia.
  - pose proof (busy_alive p0 w _ Getting Hinv ltac:(done) ltac:(done)) as Hal.
    destruct (inv_counted _ _ Hinv Hal) as (Ht&_&Htw).
    apply get_locked_spec in H0 as (->&_); [|lia]. rewrite length_app. lia.
  - unfold after_drop. destruct (connection l) as [c|]; [|destruct (reserved_slot l)]; cbn;
      rewrite ?lookup_insert_eq, ?lookup_delete_eq; lia.
Qed.

Lemma own_step_others i w w' : own_step i w w' → others w w' i.
Proof.
  intros [Hs Hin Hm] j Hj. destruct Hs; cbn [callers set_caller end_caller set_pool set_conns] in *;
    try done;
    first [ apply own_change in Hm as -> | apply own_end in Hm as ->
          | pose proof (own_after_drop _ _ _ _ _ Hm) as ->; unfold after_drop;
            destruct (connection l); [|destruct (reserved_slot l)]; cbn ];
    by rewrite ?lookup_insert_ne, ?lookup_delete_ne.
Qed.

Definition finishes w (i : positive) : Prop :=
  ∃ w', rtc (own_step i) w w' ∧ settled w' i.

Lemma finishes_now w i : settled w i → finishes w i.
Proof. intros H. exists w. split; [constructor|done]. Qed.

Lemma finishes_step w w1 i a :
  callers w !! i = Some a → callers w1 !! i ≠ Some a →
  step (A := A) w w1 → finishes w1 i → finishes w i.
Proof.
  intros Ha Hm Hs (w'&Hr&Hset). exists w'. split; [|done]. econstructor; [|done].
  split; [done|by eexists|]. by rewrite Ha.
Qed.

Lemma finishes_end w i w1 a :
  callers w !! i = Some a → step (A := A) w (end_caller i w1) → finishes w i.
Proof.
  intros Ha Hs. eapply finishes_step; [exact Ha| |exact Hs|].
  - cbn. by rewrite lookup_delete_eq.
  - apply finishes_now. left. cbn. apply lookup_delete_eq.
Qed.

Lemma finishes_lease w i w1 c a :
  callers w !! i = Some a → a ≠ Leased c →
  step (A := A) w (set_caller i (Leased c) w1) → finishes w i.
Proof.
  intros Ha Hne Hs. eapply finishes_step; [exact Ha| |exact Hs|].
  - cbn. rewrite lookup_insert_eq. congruence.
  - apply finishes_now. right. exists c. cbn. apply lookup_insert_eq.
Qed.

Lemma finishes_go w i w1 a b :
  callers w !! i = Some a → a ≠ b →
  step (A := A) w (set_caller i b w1) → finishes (set_caller i b w1) i → finishes w i.
Proof.
  intros Ha Hne. apply (finishes_step _ _ _ a Ha). cbn. rewrite lookup_insert_eq. congruence.
Qed.

Lemma opening_finishes w i :
  invariant p0 w → callers w !! i = Some Opening → Network T A → finishes w i.
Proof.
  intros Hinv Hi net. destruct (open_connection 0 0 (pool w)) as [c|] eqn:E.
  - eapply finishes_lease; [done| |eapply (step_open w i net 0 0 c (fresh (dom (conns w)))); try done].
    + done.
    + apply not_elem_of_dom, is_fresh.
  - eapply finishes_go; [done| |by eapply (step_open_failed w i net)|]; [done|].
    eapply finishes_end; [|apply step_unreserve]; apply lookup_insert_eq.
Qed.

Lemma dropping_finishes todo l : ∀ w i,
  invariant p0 w → callers w !! i = Some (Dropping todo l) → Network T A → finishes w i.
Proof.
  induction todo as [|c todo IH]; intros w i Hinv Hi net.
  - pose proof (step_dropped (A := A) w i l Hi) as Hs.
    pose proof (step_invariant p0 Hmax _ _ Hinv Hs) as Hinv'. unfold after_drop in *.
    destruct (connection l) as [c|]; [by eapply finishes_lease|].
    destruct (reserved_slot l); [|by eapply finishes_end].
    eapply finishes_go; [done| |exact Hs|]; [done|].
    apply opening_finishes; [done| |done]. apply lookup_insert_eq.
  - assert (is_Some (conns w !! c)) as Hc by (eapply held_exists; [done..|]; left).
    pose proof (step_drop (A := A) w i c todo l _ Hi (delete_connection_total _ _ Hc)) as Hs.
    pose proof (step_invariant p0 Hmax _ _ Hinv Hs) as Hinv'.
    eapply finishes_go; [exact Hi| |exact Hs|].
    { intros [= E]. apply (f_equal length) in E. cbn in E. lia. }
    apply IH; [done| |done]. apply lookup_insert_eq.
Qed.

Lemma caller_finishes w i :
  invariant p0 w → Network T A → finishes w i.
Proof.
  intros Hinv net. destruct (callers w !! i) as [a|] eqn:Hi; [|by apply finishes_now; left].
  destruct a as [|todo l| | |c|c|].
  - destruct (get_locked_total (pool w) 0 (conns w)) as [[l p] E].
    { intros c Hc. apply (owned_exists p0); [done|]. apply elem_of_app. by left. }
    pose proof (step_lock (A := A) w i 0 l p Hi E) as Hs.
    eapply finishes_go; [exact Hi| |exact Hs|]; [done|].
    eapply dropping_finishes; [|apply lookup_insert_eq|done]. by eapply step_invariant.
  - by eapply dropping_finishes.
  - by apply opening_finishes.
  - by eapply finishes_end, step_unreserve.
  - apply finishes_now. right. by exists c.
  - destruct (held_exists p0 w i _ c Hinv Hi ltac:(by left)) as [x Hx].
    destruct (unusable (pool w) 0 x) eqn:Eu; [|by eapply finishes_end, step_release_keep].
    eapply finishes_go; [exact Hi| |eapply step_release_drop; [done..|]|]; [done| |].
    { apply delete_connection_total. by exists x. }
    eapply finishes_end, step_discount; apply lookup_insert_eq.
  - by eapply finishes_end, step_discount.
Qed.
End progress.
(** ** Calls without interference are runs *)

Section runs.
Context {HNet : Network T A}.
Context (strerror : Z → str) (thread_errno : Z).
Implicit Types (m : gmap positive activity).

Lemma run_step w w1 w2 w3 :
  step (A := A) w w1 → w1 = w2 → rtc (step (A := A)) w2 w3 → rtc (step (A := A)) w w3.
Proof. intros H -> Hr. by econstructor. Qed.

Lemma delete_all_run todo l p m i : ∀ h h',
  delete_all todo h = Some h' →
  rtc (step (A := A)) (mkWorld p true h (<[i := Dropping todo l]> m))
    (mkWorld p true h' (<[i := Dropping [] l]> m)).
Proof.
  induction todo as [|c todo IH]; intros h h'; cbn [delete_all].
  - intros [= ->]. constructor.
  - destruct (delete_connection c h) as [h1|] eqn:E; [|done]. cbn [mbind option_bind].
    intros H. eapply run_step; [eapply (step_drop _ i c todo l); [apply lookup_insert_eq|exact E]| |].
    { unfold set_caller, set_conns. cbn. by rewrite insert_insert_eq. }
    by apply IH.
Qed.

Definition with_lease m (i : positive) (r : option ptr) : gmap positive activity :=
  match r with Some c => <[i := Leased c]> m | None => m end.

Lemma getConnection_run p h m i now now' t r p' h' :
  m !! i = None → getConnection now now' t p h = Some (r, p', h') →
  rtc (step (A := A)) (mkWorld p true h m) (mkWorld p' true h' (with_lease m i r)).
Proof.
  intros Hi. unfold getConnection. destruct (is_https_ p) eqn:Eh; [intros [= <- <- <-]; constructor|].
  destruct (Z.eqb_spec (max_size_ p) 0) as [|Hm]; [intros [= <- <- <-]; constructor|].
  cbn [orb]. destruct (get_locked now h p) as [[l p1]|] eqn:El; [|done]. cbn [mbind option_bind].
  destruct (delete_all (invalid l) h) as [h1|] eqn:Ed; [|done]. cbn [mbind option_bind].
  intros H. eapply run_step; [by apply (step_call _ i)|done|].
  eapply run_step; [eapply (step_lock _ i now l p1); [apply lookup_insert_eq|exact El]| |].
  { unfold set_caller, set_pool. cbn. by rewrite insert_insert_eq. }
  etrans; [by apply delete_all_run|].
  eapply run_step; [apply (step_dropped _ i l), lookup_insert_eq|done|].
  unfold after_drop, set_caller, end_caller, set_pool. cbn [pool alive conns callers].
  destruct (connection l) as [c|]; [injection H as <- <- <-; rewrite insert_insert_eq; constructor|].
  destruct (reserved_slot l).
  - rewrite insert_insert_eq.
    destruct (open_connection now' t _) as [c|] eqn:Eo; injection H as <- <- <-.
    + eapply run_step; [eapply (step_open _ i HNet now' t c (fresh (dom h1)));
        [apply lookup_insert_eq|exact Eo|apply not_elem_of_dom, is_fresh]| |constructor].
      unfold set_caller, set_conns. cbn. by rewrite insert_insert_eq.
    + eapply run_step; [eapply (step_open_failed _ i HNet now' t);
        [apply lookup_insert_eq|exact Eo]|done|].
      eapply run_step; [apply (step_unreserve _ i), lookup_insert_eq| |constructor].
      unfold end_caller, set_caller, set_pool. cbn.
      by rewrite insert_insert_eq, delete_insert_id by done.
  - injection H as <- <- <-. rewrite delete_insert_id by done. constructor.
Qed.

Lemma releaseConnection_run p h m i c now p' h' :
  m !! i = None → releaseConnection now c p h = Some (p', h') →
  rtc (step (A := A)) (mkWorld p true h (<[i := Leased c]> m)) (mkWorld p' true h' m).
Proof.
  intros Hi. unfold releaseConnection. destruct (h !! c) as [x|] eqn:Ex; [|done].
  cbn [mbind option_bind]. intros H.
  eapply run_step; [apply (step_release _ i c); [apply lookup_insert_eq|done]| |].
  { unfold set_caller. cbn. by rewrite insert_insert_eq. }
  destruct (unusable p now x) eqn:Eu.
  - destruct (delete_connection c h) as [h1|] eqn:Ed; [|done]. injection H as <- <-.
    eapply run_step; [eapply (step_release_drop _ i c x now); [apply lookup_insert_eq|done..]| |].
    { unfold set_caller, set_conns. cbn. by rewrite insert_insert_eq. }
    eapply run_step; [apply (step_discount _ i), lookup_insert_eq| |constructor].
    unfold end_caller, set_pool. cbn. by rewrite delete_insert_id.
  - injection H as <- <-.
    eapply run_step; [eapply (step_release_keep _ i c x now); [apply lookup_insert_eq|done..]| |constructor].
    unfold end_caller, set_pool. cbn. by rewrite delete_insert_id.
Qed.

Lemma doRequest_run p h m fuel times request t r p' h' :
  doRequest strerror thread_errno fuel times request t p h = Some (r, p', h') →
  rtc (step (A := A)) (mkWorld p true h m) (mkWorld p' true h' m).
Proof.
  unfold doRequest. destruct request as [request|]; [|intros [= <- <- <-]; constructor].
  destruct (is_https_ p); [intros [= <- <- <-]; constructor|].
  destruct (getConnection _ _ t p h) as [[[l p1] h1]|] eqn:Eg; [|done]. cbn [mbind option_bind].
  assert (m !! fresh (dom m) = None) as Hi by (apply not_elem_of_dom, is_fresh).
  apply (getConnection_run p h m _ _ _ _ _ _ _ Hi) in Eg.
  destruct l as [l|]; [|by intros [= <- <- <-]].
  destruct (h1 !! l) as [c|] eqn:Ec; [|done]. cbn [mbind option_bind].
  destruct (lease_exchange _ _ fuel request t c) as [[r1 c1]|]; [|done]. cbn [mbind option_bind].
  destruct (releaseConnection _ l p1 _) as [[p2 h2]|] eqn:Er; [|done]. cbn [mbind option_bind].
  intros [= <- <- <-]. etrans; [exact Eg|].
  eapply run_step; [eapply (step_use _ (fresh (dom m)) l c c1); [apply lookup_insert_eq|exact Ec]|done|].
  by apply (releaseConnection_run _ _ m (fresh (dom m))) in Er.
Qed.
End runs.

Lemma lease_exchange_truth {HLaws : SocketLaws T} {HNet : Network T A} strerror thread_errno
    fuel request t c r c' :
  lease_exchange strerror thread_errno fuel request t c = Some (r, c') →
  success r = true ↔ is_Some (response r).
Proof.
  unfold lease_exchange. destruct (negb _); [intros [= <- <-]; split; [done|by intros []]|].
  set (c0 := HttpConnection.set_stream _ c).
  destruct (sendRequest_outcome strerror thread_errno request c0) as (n&c1&E&H). rewrite E.
  cbn [mbind option_bind]. destruct (n =? 0); [intros [= <- <-]; split; [done|by intros []]|].
  destruct (Z.ltb_spec n 0).
  { destruct (send_failed _ _ _ _ H ltac:(lia)) as [Hne _]. intros [= <- <-].
    rewrite (failed_result) by done. split; [done|by intros []]. }
  destruct (recvResponse _ _ fuel c1) as [[m c2]|] eqn:Er; [|done]. cbn [mbind option_bind].
  apply recv_loop_outcome in Er as [Hnone _ _ _].
  destruct m as [m|]; intros [= <- <-]; [split; [by eexists|done]|].
  destruct (Hnone eq_refl) as [Hne _]. rewrite (failed_result) by done. split; [done|by intros []].
Qed.
(** ** Main theorems *)

(** C5: whatever the callers of a pool do and in whatever order their steps are
    taken, every connection that exists has exactly one owner - the idle list or
    one caller - and every pointer that is owned is a connection that exists, so
    that no connection leaks, is used after its deletion, is deleted twice or
    is leased twice; and while the pool lives, its counter is exact: it counts
    the idle connections, the slots of the callers and the connections still
    being thrown away, those that can be used are never more than [max_size],
    and the counter never wraps. *)
Theorem pool_ownership p0 w :
  0 <= max_size_ p0 < 2 ^ 31 → idle_connections_ p0 = [] → total_ p0 = 0 →
  reachable (A := A) p0 w →
  let owned := idle_connections_ (pool w) ++ collect holds (callers w) in
  NoDup owned ∧ (∀ c, is_Some (conns w !! c) ↔ c ∈ owned) ∧
  (alive w = true →
    total_ (pool w) = Z.of_nat (length (idle_connections_ (pool w)) +
      count live_slots (callers w) + count doomed_slots (callers w)) ∧
    Z.of_nat (length (idle_connections_ (pool w)) + count live_slots (callers w))
      <= max_size_ p0 ∧
    total_ (pool w) <= 2 * max_size_ p0).
Proof.
  intros Hmax Hi Ht Hr. pose proof (reachable_invariant p0 Hmax w Hi Ht Hr) as Hinv.
  pose proof (inv_owned _ _ Hinv) as Ho. cbv zeta. split_and!.
  - rewrite Ho. apply keys_NoDup.
  - intros c. by rewrite <- keys_elem, Ho.
  - intros Ha. destruct (inv_counted _ _ Hinv Ha) as (E&H1&H2). split; [done|]. split; [lia|done].
Qed.

(** C6: no caller waits for another: from every state [w] of the pool that can
    be reached, a caller inside [getConnection] or in the deleter of a lease
    can finish by its own steps alone, whatever state the others are in, ending
    with a lease or without a trace; and however the clock, the network and
    the allocator answer, it cannot take its own steps for ever: each of them
    lowers [work_left] and leaves all other callers where they are. *)
Theorem pool_callers_finish p0 w i :
  0 <= max_size_ p0 < 2 ^ 31 → idle_connections_ p0 = [] → total_ p0 = 0 →
  Network T A → reachable (A := A) p0 w →
  (∃ w', rtc (own_step i) w w' ∧ settled w' i) ∧
  (∀ w', own_step i w w' → (work_left w' i < work_left w i)%nat ∧ others w w' i).
Proof.
  intros Hmax Hi Ht net Hr. pose proof (reachable_invariant p0 Hmax w Hi Ht Hr) as Hinv.
  split; [by eapply caller_finishes|]. intros w' Hs.
  split; [by eapply own_step_decreases|by apply own_step_others].
Qed.

(** [getConnection] takes the idle connection that has waited longest among
    the usable ones and deletes the unusable ones in front of it; when none is
    usable it deletes them all and opens a new connection exactly if that keeps
    the count within [max_size]; the counter follows in each case. *)
Theorem getConnection_takes {HNet : Network T A} p h now now' t :
  is_https_ p = false → max_size_ p ≠ 0 →
  NoDup (idle_connections_ p) → (∀ c, c ∈ idle_connections_ p → is_Some (h !! c)) →
  Z.of_nat (length (idle_connections_ p)) <= total_ p < 2 ^ 32 - 1 →
  ∃ bad found rest r p' h',
    getConnection now now' t p h = Some (r, p', h') ∧ same_settings p p' ∧
    idle_connections_ p = bad ++ option_list found ++ rest ∧ idle_connections_ p' = rest ∧
    (∀ c, c ∈ bad → ∃ x, h !! c = Some x ∧ unusable p now x = true) ∧
    let left := total_ p - Z.of_nat (length bad) in
    match found with
    | Some c => r = Some c ∧ total_ p' = left ∧ (∃ x, h !! c = Some x ∧ unusable p now x = false) ∧
                ∀ d, h' !! d = if bool_decide (d ∈ bad) then None else h !! d
    | None =>
        rest = [] ∧
        if left <? max_size_ p then
          match open_connection now' t p with
          | Some x => ∃ new, r = Some new ∧ total_ p' = left + 1 ∧ h' !! new = Some x ∧
                      ∀ d, d ≠ new → h' !! d = if bool_decide (d ∈ bad) then None else h !! d
          | None => r = None ∧ total_ p' = left
          end
        else r = None ∧ total_ p' = left
    end.
Proof.
  intros Hh Hm Hnd Hall Ht. unfold getConnection. rewrite Hh, (proj2 (Z.eqb_neq _ _)) by done.
  destruct (get_locked_takes now h p Hall Ht) as (l&p1&El&Hs&Hidle&Htot&Hres&Hnone&Hbad&Hfound).
  cbn [orb]. rewrite El. cbn [mbind option_bind].
  rewrite Hidle in Hnd, Hall, Ht. rewrite !length_app in Ht.
  apply NoDup_app in Hnd as (Hndb&_&_).
  destruct (delete_all_total (invalid l) h Hndb) as (h1&->&Hh1).
  { intros c Hc. apply Hall, elem_of_app. by left. }
  cbn [mbind option_bind].
  destruct (discount_spec (length (invalid l)) p1) as (E1&E2&E3).
  { rewrite Htot. destruct (reserved_slot l); lia. }
  pose proof (same_settings_trans _ _ _ Hs E2) as Hs'. rewrite (open_same_settings now' t _ _ Hs').
  exists (invalid l), (connection l), (idle_connections_ p1). rewrite Htot, Hres in *.
  destruct (connection l) as [c|].
  - rewrite bool_decide_eq_false_2 in * by done. cbn [andb] in *. eexists _, _, _. split; [done|]. do 4 (split; [done|]). cbv zeta. split; [done|].
    split; [lia|]. split; [by apply Hfound|done].
  - cbv zeta. rewrite bool_decide_eq_true_2 in * by done. cbn [andb] in *.
    destruct (_ <? max_size_ p).
    + destruct (open_connection now' t p) as [x|]; eexists _, _, _; (split; [done|]).
      * do 4 (split; [done|]). split; [by apply Hnone|].
        eexists. split; [done|]. split; [lia|]. split; [apply lookup_insert_eq|].
        intros d Hd. by rewrite lookup_insert_ne.
      * do 4 (split; [done|]). split; [by apply Hnone|]. split; [done|].
        cbn [fetch_sub set_total total_]. rewrite wrap_small by lia. lia.
    + eexists _, _, _. split; [done|]. do 4 (split; [done|]).
      split; [by apply Hnone|]. split; [done|]. lia.
Qed.

(** A request through the pool is one of the runs of the interleaving, from
    any state that can be reached: it leaves no lease behind, so that ownership
    and the counter stay exact, and its result is a success exactly when it
    carries a response. *)
Theorem pool_requests_are_runs {HLaws : SocketLaws T} {HNet : Network T A} strerror thread_errno
    p0 w fuel times request t r p' h' :
  reachable (A := A) p0 w → alive w = true →
  doRequest strerror thread_errno fuel times request t (pool w) (conns w) = Some (r, p', h') →
  reachable (A := A) p0 (mkWorld p' true h' (callers w)) ∧
  (success r = true ↔ is_Some (response r)).
Proof.
  intros Hr Ha E. split.
  - unfold reachable in *. etrans; [exact Hr|]. destruct w as [p a h m]. cbn in *. subst a.
    by eapply doRequest_run.
  - unfold doRequest in E. destruct request as [request|];
      [|injection E as <- _ _; split; [done|by intros []]].
    destruct (is_https_ _); [injection E as <- _ _; split; [done|by intros []]|].
    destruct (getConnection _ _ t _ _) as [[[l p1] h1]|]; [|done]. cbn [mbind option_bind] in E.
    destruct l as [l|]; [|injection E as <- _ _; split; [done|by intros []]].
    destruct (h1 !! l) as [c|]; [|done]. cbn [mbind option_bind] in E.
    destruct (lease_exchange _ _ fuel request t c) as [[r1 c1]|] eqn:El; [|done].
    cbn [mbind option_bind] in E. destruct (releaseConnection _ _ _ _) as [[p2 h2]|]; [|done].
    injection E as <- _ _. by eapply lease_exchange_truth.
Qed.
End proofs.

(** ** Witnesses *)

Definition sample_pool : HttpConnectionPool :=
  mkHttpConnectionPool $"example" [] 80 false 1 0 0 [] 0.

(** One caller has reserved the only slot, another is about to look. *)
Definition sample_world : world (T := wire) :=
  mkWorld (fetch_add 1 sample_pool) true ∅
    (<[2%positive := Getting]> (<[1%positive := Dropping [] (mkLocals [] None true)]> ∅)).

Lemma sample_world_reachable : reachable (T := wire) (A := str) sample_pool sample_world.
Proof.
  unfold reachable, start.
  eapply run_step; [apply (step_call _ 1%positive); vm_compute; congruence|reflexivity|].
  eapply run_step; [apply (step_lock _ 1%positive 0 (mkLocals [] None true) (fetch_add 1 sample_pool));
    vm_compute; reflexivity|reflexivity|].
  eapply run_step; [apply (step_call _ 2%positive); vm_compute; congruence| |constructor].
  unfold set_caller, set_pool. cbn. by rewrite insert_insert_eq.
Qed.

Lemma pool_ownership_witness :
  reachable (T := wire) (A := str) sample_pool sample_world ∧
  Z.of_nat (length (idle_connections_ (pool sample_world)) +
    count live_slots (callers sample_world)) <= 1.
Proof.
  split; [exact sample_world_reachable|].
  refine (proj1 (proj2 (proj2 (proj2 (pool_ownership sample_pool sample_world _ _ _
    sample_world_reachable)) _))); [split; vm_compute; congruence|reflexivity..].
Defined.

Lemma pool_callers_finish_witness :
  ¬ settled sample_world 1 ∧
  ∃ w', rtc (own_step (T := wire) (A := str) 1) sample_world w' ∧ settled w' 1.
Proof.
  split; [intros [H|[c H]]; discriminate H|].
  apply (pool_callers_finish sample_pool sample_world 1).
  - split; vm_compute; congruence.
  - reflexivity.
  - reflexivity.
  - exact (wire_network []).
  - exact sample_world_reachable.
Defined.

(** An idle list whose first connection has been used up. *)
Definition used_up : HttpConnection wire :=
  HttpConnection.set_reusable false (HttpConnection.make 0 (Some (mkWire [] 1 [] 0)) true).
Definition ready : HttpConnection wire := HttpConnection.make 0 (Some (mkWire [] 2 [] 0)) true.

Lemma getConnection_takes_witness :
  let HNet := wire_network [] in
  let p := set_total 2 (set_idle [1%positive; 2%positive] sample_pool) in
  let h : heap wire := <[1%positive := used_up]> (<[2%positive := ready]> ∅) in
  (∀ c, c ∈ idle_connections_ p → is_Some (h !! c)) ∧
  ∃ r p' h', getConnection 0 0 10 p h = Some (r, p', h') ∧ same_settings p p'.
Proof.
  intros HNet p h.
  assert (∀ c, c ∈ idle_connections_ p → is_Some (h !! c)) as Hall.
  { intros c Hc. apply elem_of_cons in Hc as [->|Hc]; [by eexists|].
    apply elem_of_cons in Hc as [->|Hc]; [by eexists|]. by apply elem_of_nil in Hc. }
  split; [exact Hall|].
  destruct (getConnection_takes p h 0 0 10) as (bad&found&rest&r&p'&h'&E&Hs&_).
  - reflexivity.
  - discriminate.
  - apply (bool_decide_unpack (NoDup _)). vm_compute. exact I.
  - exact Hall.
  - vm_compute. split; congruence.
  - by exists r, p', h'.
Defined.

Lemma pool_requests_are_runs_witness :
  let HNet := wire_network sample_incoming in
  let o := doRequest (λ _, []) 0 100 (mkClock 0 0 0)
    (Some RequestRoundTrip.sample_request) 1000 sample_pool ∅ in
  ∃ r p' h', o = Some (r, p', h') ∧ success r = true ∧ is_Some (response r) ∧
    reachable (T := wire) (A := str) sample_pool (mkWorld p' true h' ∅).
Proof.
  intros HNet o.
  assert ((λ q, success q.1.1) <$> o = Some true) as Ho by (vm_compute; reflexivity).
  destruct o as [[[r p'] h']|] eqn:E; [|discriminate].
  exists r, p', h'. injection Ho as Ho.
  destruct (pool_requests_are_runs (λ _, []) 0 sample_pool (start sample_pool) 100
    (mkClock 0 0 0) (Some RequestRoundTrip.sample_request) 1000 r p' h') as [Hr Hiff].
  - constructor.
  - reflexivity.
  - exact E.
  - split; [reflexivity|]. split; [exact Ho|]. split; [by apply Hiff|exact Hr].
Defined.
End PoolProofs.
