(* ===== verification/Fiber.v ===== *)
(** [Fiber] ([droplet/src/fiber/fiber.cc]): stackful coroutines as a state, a
    callback and the point where they go on.  What a callback does is a tree of
    the calls it makes; the point is lost while the fiber runs and is only
    stored again when the thread that resumed it has come back. *)

From S2P Require Import Prelude.

Module Fiber.

(** ** Callbacks *)

Inductive State := INIT | HOLD | EXEC | TERM | READY | EXCEPT.

#[export] Instance State_eq_dec : EqDecision State.
Proof. solve_decision. Defined.

(** Pointers to fibers. *)
Abbreviation fid := positive.

(** A [std::function<void()>]: it returns, throws, yields, leaves a visible
    effect, asks for its own fiber or schedules a callback or a fiber, the last
    two on a given thread (-1 for any). *)
Inductive code :=
  | Return
  | Throw
  | YieldToHold (k : code)
  | YieldToReady (k : code)
  | Effect (e : str) (k : code)
  | GetThis (k : fid → code)
  | ScheduleCb (cb : code) (thread_id : Z) (k : code)
  | ScheduleFiber (fiber : fid) (thread_id : Z) (k : code).

(** ** The object *)

Definition kDefaultStackSize : Z := 128 * 1024.
Definition kMinStackSize : Z := 16 * 1024.
Definition kStackAlign : Z := 64.

(** Where a jump to the context leads: the trampoline or the middle of the
    callback. *)
Inductive point := Entry | At (k : code).

(** [ctx_] is [None] while the stored context is not that of the fiber. *)
Record Fiber := mkFiber {
  id_ : Z;
  stack_size_ : Z;
  cb_ : option code;
  state_ : State;
  ctx_ : option point;
  exception_ : bool;
}.

(** What can go wrong: an assertion fails, or the machine jumps to a context
    that is no longer valid. *)
Inductive fault := AssertFailed | StaleContext.

Definition set_state (s : State) (f : Fiber) : Fiber :=
  mkFiber (id_ f) (stack_size_ f) (cb_ f) s (ctx_ f) (exception_ f).
Definition set_ctx (c : option point) (f : Fiber) : Fiber :=
  mkFiber (id_ f) (stack_size_ f) (cb_ f) (state_ f) c (exception_ f).

(** The main fiber of a thread. *)
Definition main_fiber : Fiber := mkFiber 0 0 None EXEC None false.

(** The size of the stack in 32 bits; [configured] is the current value of
    fiber.stack_size. *)
Definition stack_bytes (stack_size configured : Z) : Z :=
  let size := if stack_size =? 0 then configured else stack_size in
  let size := if size <? kMinStackSize then kMinStackSize else size in
  Z.land (wrap 32 (size + kStackAlign - 1)) (wrap 32 (Z.lnot (kStackAlign - 1))).

Definition Create (id : Z) (cb : option code) (stack_size configured : Z) : Fiber :=
  mkFiber id (stack_bytes stack_size configured) cb INIT (Some Entry) false.

Definition reset (cb : option code) (f : Fiber) : fault + Fiber :=
  if bool_decide (state_ f = INIT) || bool_decide (state_ f = TERM) ||
     bool_decide (state_ f = EXCEPT)
  then inr (mkFiber (id_ f) (stack_size_ f) cb INIT (Some Entry) false)
  else inl AssertFailed.

(** What runs behind the jump: an empty [std::function] throws. *)
Definition code_at (f : Fiber) (p : point) : code :=
  match p with
  | Entry => match cb_ f with Some c => c | None => Throw end
  | At k => k
  end.

(** [resume] up to the jump: the code that runs now, and the fiber. *)
Definition resume (f : Fiber) : fault + (code * Fiber) :=
  if bool_decide (state_ f = EXEC) || bool_decide (state_ f = TERM) ||
     bool_decide (state_ f = EXCEPT)
  then inl AssertFailed
  else
    match ctx_ f with
    | None => inl StaleContext
    | Some p => inr (code_at f p, set_ctx None (set_state EXEC f))
    end.

(** [yield_to] up to the jump back. *)
Definition yield_to (s : State) (f : Fiber) : fault + Fiber :=
  if bool_decide (state_ f = EXEC) then inr (set_state s f) else inl AssertFailed.

(** The end of [run]: the callback has returned or thrown. *)
Definition finish (thrown : bool) (f : Fiber) : Fiber :=
  mkFiber (id_ f) (stack_size_ f) None (if thrown then EXCEPT else TERM) (ctx_ f)
    (thrown || exception_ f).

(** The end of [resume]: the thread is back and stores the new context. *)
Definition store_context (p : option point) (f : Fiber) : Fiber := set_ctx p f.

(** A suspended fiber keeps itself alive: [yield_to] holds a pointer to it in its frame
    on the stack of the fiber. *)
Definition refs_itself (f : Fiber) : bool :=
  bool_decide (state_ f = HOLD) || bool_decide (state_ f = READY).

(** The destructor: a fiber with a stack must have left it. *)
Definition destroy (f : Fiber) : fault + unit :=
  if stack_size_ f =? 0 then inr tt
  else if bool_decide (state_ f = TERM) || bool_decide (state_ f = EXCEPT) || bool_decide (state_ f = INIT)
  then inr tt else inl AssertFailed.

(** ** Stack sizes *)

Lemma align_down z : 0 <= z < 2 ^ 32 → Z.land z (wrap 32 (Z.lnot 63)) = z - z mod 64.
Proof. intros Hz. exact (land_align 32 6 z ltac:(lia) Hz). Qed.

(** The stack of a fiber is never smaller than what was asked for nor than
    the minimum, larger by less than the alignment, and aligned - except that a
    request within 63 bytes of 2^32 wraps around to a stack of no bytes at
    all. *)
Theorem stack_size_rounding stack_size configured :
  0 <= stack_size < 2 ^ 32 → 0 <= configured < 2 ^ 32 →
  let wanted := Z.max kMinStackSize (if stack_size =? 0 then configured else stack_size) in
  let bytes := stack_size_ (Create 0 None stack_size configured) in
  (wanted <= 2 ^ 32 - 64 → wanted <= bytes < wanted + kStackAlign ∧ bytes mod kStackAlign = 0) ∧
  (2 ^ 32 - 64 < wanted → bytes = 0).
Proof.
  intros Hs Hc. cbv zeta. cbn [stack_size_ Create]. unfold stack_bytes.
  set (size0 := if stack_size =? 0 then configured else stack_size).
  assert (0 <= size0 < 2 ^ 32) as H0 by (unfold size0; by destruct (stack_size =? 0)).
  assert ((if size0 <? kMinStackSize then kMinStackSize else size0) = Z.max kMinStackSize size0) as ->
    by (destruct (Z.ltb_spec size0 kMinStackSize); lia).
  unfold kStackAlign, kMinStackSize. set (w := Z.max (16 * 1024) size0).
  assert (16384 <= w < 2 ^ 32) as Hw by lia. change (64 - 1) with 63.
  rewrite align_down by (apply wrap_range; lia). split; intros Hle.
  - rewrite wrap_small by lia. pose proof (Z.div_mod (w + 64 - 1) 64 ltac:(lia)).
    pose proof (Z.mod_pos_bound (w + 64 - 1) 64 ltac:(lia)). split; [lia|].
    replace (w + 64 - 1 - (w + 64 - 1) mod 64) with ((w + 64 - 1) / 64 * 64) by lia.
    apply Z.mod_mul. lia.
  - assert (wrap 32 (w + 64 - 1) = w + 63 - 2 ^ 32) as ->.
    { unfold wrap. symmetry. apply (Z.mod_unique _ _ 1); lia. }
    rewrite Z.mod_small by lia. lia.
Qed.

Lemma stack_size_rounding_witness :
  0 <= 100000 < 2 ^ 32 ∧ stack_size_ (Create 0 None 100000 0) mod 64 = 0.
Proof.
  split; [lia|]. destruct (stack_size_rounding 100000 0) as [H _]; [lia|lia|].
  destruct H as [_ E]; [vm_compute; congruence|exact E].
Defined.
End Fiber.
