(* ===== verification/ContextSwitch.v ===== *)
(** The context switch ([droplet/src/fiber/fcontext/]): the two assembly routines
    [jump_fcontext] and [make_fcontext] with the stubs behind them, as programs of
    the instructions they use on a machine with registers, floating-point control
    words and a memory of bytes; and the contract they have for the code above
    them: a map from context pointers to the contexts that are suspended. *)

From S2P Require Import Prelude.

(** ** The contract

    A suspended context is found under its pointer until somebody jumps to it;
    the jump takes it out and suspends the jumping code under a pointer into its own
    stack.  What a context holds is a parameter: the registers of the machine below,
    or what the code does when it goes on ([FiberSwitch]). *)
Module Contexts.
Section Contexts.

Context {K : Type}.

(** [transfer_t]. *)
Record transfer_t := mkTransfer { fctx : Z; data : Z }.

(** [jump_fcontext(to, vp)] from code that leaves its own context [here] under
    [own]: what runs next and what it is handed; [None] when nothing is suspended
    there. *)
Definition jump_fcontext (to vp own : Z) (here : K) (C : gmap Z K) : option (K * transfer_t * gmap Z K) :=
  match C !! to with
  | None => None
  | Some there => Some (there, mkTransfer own vp, <[own := here]> (delete to C))
  end.

(** [make_fcontext]: a context that has not run yet. *)
Definition make_fcontext (at_ : Z) (fresh : K) (C : gmap Z K) : gmap Z K := <[at_ := fresh]> C.

End Contexts.
End Contexts.

Module ContextSwitch.
Import Contexts.

(** ** The machine *)

Inductive reg := RAX | RBX | RCX | RDX | RSI | RDI | RBP | RSP | R8 | R12 | R13 | R14 | R15.

#[export] Instance reg_eq_dec : EqDecision reg.
Proof. solve_decision. Defined.

Record regfile := mkRegs {
  rax : Z;
  rbx : Z;
  rcx : Z;
  rdx : Z;
  rsi : Z;
  rdi : Z;
  rbp : Z;
  rsp : Z;
  r8 : Z;
  r12 : Z;
  r13 : Z;
  r14 : Z;
  r15 : Z;
}.

(** MXCSR has 32 bits, the x87 control word 16; memory has an address for every
    64-bit number. *)
Record machine := mkMachine {
  file : regfile;
  mxcsr : Z;
  x87_cw : Z;
  mem : Z → byte;
  rip : Z;
}.

Definition regs (m : machine) (r : reg) : Z :=
  match r with
  | RAX => rax (file m)
  | RBX => rbx (file m)
  | RCX => rcx (file m)
  | RDX => rdx (file m)
  | RSI => rsi (file m)
  | RDI => rdi (file m)
  | RBP => rbp (file m)
  | RSP => rsp (file m)
  | R8 => r8 (file m)
  | R12 => r12 (file m)
  | R13 => r13 (file m)
  | R14 => r14 (file m)
  | R15 => r15 (file m)
  end.

Definition write_reg (r : reg) (v : Z) (f : regfile) : regfile :=
  let '(mkRegs a b c d si di bp sp e8 e12 e13 e14 e15) := f in
  match r with
  | RAX => mkRegs v b c d si di bp sp e8 e12 e13 e14 e15
  | RBX => mkRegs a v c d si di bp sp e8 e12 e13 e14 e15
  | RCX => mkRegs a b v d si di bp sp e8 e12 e13 e14 e15
  | RDX => mkRegs a b c v si di bp sp e8 e12 e13 e14 e15
  | RSI => mkRegs a b c d v di bp sp e8 e12 e13 e14 e15
  | RDI => mkRegs a b c d si v bp sp e8 e12 e13 e14 e15
  | RBP => mkRegs a b c d si di v sp e8 e12 e13 e14 e15
  | RSP => mkRegs a b c d si di bp v e8 e12 e13 e14 e15
  | R8 => mkRegs a b c d si di bp sp v e12 e13 e14 e15
  | R12 => mkRegs a b c d si di bp sp e8 v e13 e14 e15
  | R13 => mkRegs a b c d si di bp sp e8 e12 v e14 e15
  | R14 => mkRegs a b c d si di bp sp e8 e12 e13 v e15
  | R15 => mkRegs a b c d si di bp sp e8 e12 e13 e14 v
  end.

Definition set_reg (r : reg) (v : Z) (m : machine) : machine :=
  mkMachine (write_reg r v (file m)) (mxcsr m) (x87_cw m) (mem m) (rip m).
Definition set_mxcsr (v : Z) (m : machine) : machine :=
  mkMachine (file m) v (x87_cw m) (mem m) (rip m).
Definition set_x87_cw (v : Z) (m : machine) : machine :=
  mkMachine (file m) (mxcsr m) v (mem m) (rip m).
Definition set_mem (f : Z → byte) (m : machine) : machine :=
  mkMachine (file m) (mxcsr m) (x87_cw m) f (rip m).
Definition set_rip (a : Z) (m : machine) : machine :=
  mkMachine (file m) (mxcsr m) (x87_cw m) (mem m) a.

(** Little-endian loads and stores of [n] bytes; addresses wrap around. *)
Fixpoint load (n : nat) (f : Z → byte) (a : Z) : Z :=
  match n with
  | O => 0
  | S n => code (f (wrap 64 a)) + 256 * load n f (a + 1)
  end.

Fixpoint store (n : nat) (f : Z → byte) (a v : Z) : Z → byte :=
  match n with
  | O => f
  | S n => store n (λ x, if decide (x = wrap 64 a) then chr v else f x) (a + 1) (v / 256)
  end.

(** ** The instructions, in AT&T order of operands *)

Inductive instr :=
  | Leaq (off : Z) (b d : reg)
  | LeaqRip (label : Z) (d : reg)
  | Movq (s d : reg)
  | MovqStore (s : reg) (off : Z) (b : reg)
  | MovqLoad (off : Z) (b d : reg)
  | Stmxcsr (off : Z) (b : reg)
  | Fnstcw (off : Z) (b : reg)
  | Ldmxcsr (off : Z) (b : reg)
  | Fldcw (off : Z) (b : reg)
  | Andq (imm : Z) (d : reg)
  | Xorq (s d : reg)
  | Push (s : reg)
  | Jmp (s : reg)
  | Ret
  | CallExit
  | Hlt.

(** A general protection fault is the end, and so is [_exit]. *)
Inductive outcome := Running (m : machine) | Exited (status : Z) | Faulted.

Definition ea (off : Z) (b : reg) (m : machine) : Z := wrap 64 (regs m b + off).

(** The flags are left out: nothing here reads them, and no caller may rely on
    them.  [ldmxcsr] refuses a word with one of the reserved bits 16 to 31. *)
Definition exec_instr (i : instr) (m : machine) : outcome :=
  match i with
  | Leaq off b d => Running (set_reg d (ea off b m) m)
  | LeaqRip label d => Running (set_reg d label m)
  | Movq s d => Running (set_reg d (regs m s) m)
  | MovqStore s off b => Running (set_mem (store 8 (mem m) (ea off b m) (regs m s)) m)
  | MovqLoad off b d => Running (set_reg d (load 8 (mem m) (ea off b m)) m)
  | Stmxcsr off b => Running (set_mem (store 4 (mem m) (ea off b m) (mxcsr m)) m)
  | Fnstcw off b => Running (set_mem (store 2 (mem m) (ea off b m) (x87_cw m)) m)
  | Ldmxcsr off b =>
      let v := load 4 (mem m) (ea off b m) in
      if v <? 2 ^ 16 then Running (set_mxcsr v m) else Faulted
  | Fldcw off b => Running (set_x87_cw (load 2 (mem m) (ea off b m)) m)
  | Andq imm d => Running (set_reg d (Z.land (regs m d) (wrap 64 imm)) m)
  | Xorq s d => Running (set_reg d (Z.lxor (regs m d) (regs m s)) m)
  | Push s =>
      let a := ea (-8) RSP m in
      Running (set_reg RSP a (set_mem (store 8 (mem m) a (regs m s)) m))
  | Jmp s => Running (set_rip (regs m s) m)
  | Ret =>
      Running (set_rip (load 8 (mem m) (regs m RSP)) (set_reg RSP (ea 8 RSP m) m))
  | CallExit => Exited (wrap 8 (regs m RDI))
  | Hlt => Faulted
  end.

Fixpoint exec (p : list instr) (m : machine) : outcome :=
  match p with
  | [] => Running m
  | i :: p =>
      match exec_instr i m with
      | Running m => exec p m
      | o => o
      end
  end.

(** ** The routines

    The branches for the shadow stack, transactional memory and the protector in thread-local
    storage are not compiled in. *)

Definition jump_code : list instr :=
  [Leaq (-0x40) RSP RSP;
   Stmxcsr 0 RSP; Fnstcw 4 RSP;
   MovqStore R12 0x10 RSP; MovqStore R13 0x18 RSP; MovqStore R14 0x20 RSP;
   MovqStore R15 0x28 RSP; MovqStore RBX 0x30 RSP; MovqStore RBP 0x38 RSP;
   Movq RSP RAX;
   Movq RDI RSP;
   MovqLoad 0x40 RSP R8;
   Ldmxcsr 0 RSP; Fldcw 4 RSP;
   MovqLoad 0x10 RSP R12; MovqLoad 0x18 RSP R13; MovqLoad 0x20 RSP R14;
   MovqLoad 0x28 RSP R15; MovqLoad 0x30 RSP RBX; MovqLoad 0x38 RSP RBP;
   Leaq 0x48 RSP RSP;
   Movq RSI RDX; Movq RAX RDI;
   Jmp R8].

(** Where the linker has put the labels. *)
Section Linked.

Context (trampoline finish : Z).

Definition make_code : list instr :=
  [Movq RDI RAX;
   Andq (-16) RAX;
   Leaq (-0x48) RAX RAX;
   MovqStore RDX 0x30 RAX;
   Stmxcsr 0 RAX; Fnstcw 4 RAX;
   LeaqRip trampoline RCX; MovqStore RCX 0x40 RAX;
   LeaqRip finish RCX; MovqStore RCX 0x38 RAX;
   Ret].

Definition trampoline_code : list instr := [Push RBP; Jmp RBX].

Definition finish_code : list instr := [Xorq RDI RDI; CallExit; Hlt].

End Linked.

(** ** What a suspended context is in memory *)

(** The table at the top of the files; the word at 0x8 is not used. *)
Record frame := mkFrame {
  fc_mxcsr : Z;
  fc_x87_cw : Z;
  fc_r12 : Z;
  fc_r13 : Z;
  fc_r14 : Z;
  fc_r15 : Z;
  fc_rbx : Z;
  fc_rbp : Z;
  fc_rip : Z;
}.

Definition frame_size : Z := 0x48.

Definition frame_at (f : Z → byte) (a : Z) : frame :=
  mkFrame (load 4 f a) (load 2 f (a + 4)) (load 8 f (a + 0x10)) (load 8 f (a + 0x18))
    (load 8 f (a + 0x20)) (load 8 f (a + 0x28)) (load 8 f (a + 0x30)) (load 8 f (a + 0x38))
    (load 8 f (a + 0x40)).

(** The context of code that has just called a function: what the function must
    preserve, and the return address on the top of the stack. *)
Definition caller_frame (m : machine) : frame :=
  mkFrame (mxcsr m) (x87_cw m) (regs m R12) (regs m R13) (regs m R14) (regs m R15) (regs m RBX)
    (regs m RBP) (load 8 (mem m) (regs m RSP)).

(** The context [make_fcontext] lays out: R12 to R15 are whatever the new stack
    holds. *)
Definition fresh_frame (trampoline finish fn a : Z) (m : machine) : frame :=
  mkFrame (mxcsr m) (x87_cw m) (load 8 (mem m) (a + 0x10)) (load 8 (mem m) (a + 0x18))
    (load 8 (mem m) (a + 0x20)) (load 8 (mem m) (a + 0x28)) fn finish trampoline.

(** The pointers the two routines hand out. *)
Definition own_area (m : machine) : Z := regs m RSP - 0x40.
Definition fresh_area (sp : Z) : Z := sp - sp mod 16 - frame_size.

(** ** Programs that switch *)

Record labels := mkLabels { at_jump : Z; at_make : Z; at_trampoline : Z; at_finish : Z }.

(** The code behind a label, up to the instruction that leaves it. *)
Definition routine (L : labels) (a : Z) : option (list instr) :=
  if a =? at_jump L then Some jump_code
  else if a =? at_make L then Some (make_code (at_trampoline L) (at_finish L))
  else if a =? at_trampoline L then Some trampoline_code
  else if a =? at_finish L then Some finish_code
  else None.

Definition run_routine (L : labels) (m : machine) : option outcome :=
  (λ p, exec p m) <$> routine L (rip m).

(** Where a frame can be: it does not end at the top of the address space. *)
Definition area_ok (a : Z) : Prop := 0 <= a ∧ a + frame_size < 2 ^ 64.

Definition in_area (a x : Z) : Prop := a <= x < a + frame_size.

Definition apart (a b : Z) : Prop := a + frame_size <= b ∨ b + frame_size <= a.

(** An area no suspended context is in: the part of a stack that is in use or free. *)
Definition clear (C : gmap Z frame) (a : Z) : Prop := area_ok a ∧ ∀ b, b ∈ dom C → apart a b.

(** The registers and control words of a machine have their widths; the reserved bits
    of MXCSR are clear. *)
Record wf (m : machine) : Prop := {
  wf_regs : ∀ r, 0 <= regs m r < 2 ^ 64;
  wf_mxcsr : 0 <= mxcsr m < 2 ^ 16;
  wf_x87 : 0 <= x87_cw m < 2 ^ 16;
}.

(** What a program does: anything that leaves the areas of suspended contexts alone,
    giving a context up (its stack is freed or used again), making one, and switching. *)
Inductive event := Other | Forget (a : Z) | Make (a : Z) | Switch (to : Z).

Inductive step (L : labels) : event → gmap Z frame * machine → gmap Z frame * machine → Prop :=
  | step_other C m m' :
      wf m' → (∀ a x, a ∈ dom C → in_area a x → mem m' x = mem m x) →
      step L Other (C, m) (C, m')
  | step_forget C m a : step L (Forget a) (C, m) (delete a C, m)
  | step_make C m m' :
      rip m = at_make L → clear C (fresh_area (regs m RDI)) →
      run_routine L m = Some (Running m') →
      step L (Make (fresh_area (regs m RDI))) (C, m)
        (make_fcontext (fresh_area (regs m RDI))
           (fresh_frame (at_trampoline L) (at_finish L) (regs m RDX) (fresh_area (regs m RDI)) m) C, m')
  | step_switch C m m' f t C' :
      rip m = at_jump L → clear C (own_area m) →
      jump_fcontext (regs m RDI) (regs m RSI) (own_area m) (caller_frame m) C = Some (f, t, C') →
      run_routine L m = Some (Running m') →
      step L (Switch (regs m RDI)) (C, m) (C', m').

Inductive steps (L : labels) : list event → gmap Z frame * machine → gmap Z frame * machine → Prop :=
  | steps_nil s : steps L [] s s
  | steps_cons e es s1 s2 s3 : step L e s1 s2 → steps L es s2 s3 → steps L (e :: es) s1 s3.

End ContextSwitch.
