(* ===== verification/ContextSwitchProofs.v ===== *)
(** The context switch: what one jump does to registers and memory, that the
    routines implement the contract of [Contexts], the first entry into a new
    context, and that for its caller a jump is an ordinary call that returns when
    somebody jumps back. *)

From S2P Require Import Prelude ContextSwitch.

Module ContextSwitchProofs.
Import Contexts ContextSwitch.

(** ** Memory *)

Lemma wrap_in a : 0 <= a < 2 ^ 64 → wrap 64 a = a.
Proof. apply wrap_small. Qed.

Lemma load_agree n f g a :
  0 <= a → a + Z.of_nat n <= 2 ^ 64 → (∀ x, a <= x < a + Z.of_nat n → f x = g x) →
  load n f a = load n g a.
Proof.
  revert a. induction n as [|n IH]; intros a Ha Hn E; [done|]. cbn [load].
  rewrite wrap_in, (E a), (IH (a + 1)); [done|lia..|intros x Hx; apply E; lia|lia|lia].
Qed.

Lemma load_range n f a : 0 <= load n f a < 256 ^ Z.of_nat n.
Proof.
  revert a. induction n as [|n IH]; intros a; cbn [load]; [lia|].
  rewrite Nat2Z.inj_succ, Z.pow_succ_r by lia.
  pose proof (code_range (f (wrap 64 a))). pose proof (IH (a + 1)). lia.
Qed.

Lemma store_out n f a v x :
  0 <= a → a + Z.of_nat n <= 2 ^ 64 → ¬ a <= x < a + Z.of_nat n → store n f a v x = f x.
Proof.
  revert f a v. induction n as [|n IH]; intros f a v Ha Hn Hx; [done|]. cbn [store].
  rewrite IH by lia. rewrite wrap_in by lia. rewrite decide_False by lia. done.
Qed.

Lemma load_store n f a v :
  0 <= a → a + Z.of_nat n <= 2 ^ 64 → load n (store n f a v) a = v mod 256 ^ Z.of_nat n.
Proof.
  revert f a v. induction n as [|n IH]; intros f a v Ha Hn.
  { cbn. by rewrite Z.mod_1_r. }
  cbn [load store]. rewrite IH, store_out, wrap_in, decide_True, code_chr by first [done|rewrite ?wrap_in; lia].
  rewrite Nat2Z.inj_succ, Z.pow_succ_r by lia. rewrite Z.rem_mul_r by lia. done.
Qed.

Lemma load_store_small n f a v :
  0 <= a → a + Z.of_nat n <= 2 ^ 64 → 0 <= v < 256 ^ Z.of_nat n → load n (store n f a v) a = v.
Proof. intros. rewrite load_store by done. by apply Z.mod_small. Qed.

Lemma load_store_other n k f a b v :
  0 <= a → a + Z.of_nat n <= 2 ^ 64 → 0 <= b → b + Z.of_nat k <= 2 ^ 64 →
  a + Z.of_nat n <= b ∨ b + Z.of_nat k <= a →
  load n (store k f b v) a = load n f a.
Proof. intros. apply load_agree; [done..|]. intros x Hx. apply store_out; lia. Qed.

(** ** Frames *)

Lemma frame_agree f g a :
  area_ok a → (∀ x, in_area a x → f x = g x) → frame_at f a = frame_at g a.
Proof.
  unfold area_ok, in_area, frame_size. intros [??] E.
  unfold frame_at. f_equal; apply load_agree; try lia; intros; apply E; lia.
Qed.

(** ** Widths are kept *)

Definition label_ok (i : instr) : Prop :=
  match i with LeaqRip label _ => 0 <= label < 2 ^ 64 | _ => True end.

Lemma regs_set_reg r v m x : regs (set_reg r v m) x = if decide (x = r) then v else regs m x.
Proof. destruct m as [[] ? ? ? ?]. by destruct r, x. Qed.

Lemma wf_set_reg r v m : wf m → 0 <= v < 2 ^ 64 → wf (set_reg r v m).
Proof. intros [Hr ??] ?. split; [|done..]. intros x. rewrite regs_set_reg. case_decide; [done|apply Hr]. Qed.

Lemma wf_set_mem f m : wf m → wf (set_mem f m).
Proof. by intros [? ? ?]. Qed.

Lemma wf_set_rip a m : wf m → wf (set_rip a m).
Proof. by intros [? ? ?]. Qed.

Lemma bits_range v n : 0 <= v → 0 <= n → (∀ i, n <= i → Z.testbit v i = false) → v < 2 ^ n.
Proof.
  intros Hv Hn E. destruct (decide (v = 0)) as [->|]; [lia|].
  apply Z.log2_lt_pow2; [lia|]. destruct (decide (n <= Z.log2 v)) as [Hl|]; [|lia].
  specialize (E _ Hl). rewrite Z.bit_log2 in E by lia. done.
Qed.

Lemma no_high_bits a n i : 0 <= n → 0 <= a < 2 ^ n → n <= i → Z.testbit a i = false.
Proof.
  intros Hn Ha Hi. destruct (decide (a = 0)) as [->|]; [apply Z.bits_0|].
  apply Z.bits_above_log2; [lia|]. apply Z.log2_lt_pow2; [lia|].
  pose proof (Z.pow_le_mono_r 2 n i). lia.
Qed.

Lemma land_range a b n : 0 <= n → 0 <= a < 2 ^ n → 0 <= b → 0 <= Z.land a b < 2 ^ n.
Proof.
  intros Hn Ha Hb. assert (0 <= Z.land a b) by (apply Z.land_nonneg; lia). split; [done|].
  apply bits_range; [done..|]. intros i Hi. by rewrite Z.land_spec, (no_high_bits a n).
Qed.

Lemma lxor_range a b n : 0 <= n → 0 <= a < 2 ^ n → 0 <= b < 2 ^ n → 0 <= Z.lxor a b < 2 ^ n.
Proof.
  intros Hn Ha Hb. assert (0 <= Z.lxor a b) by (apply Z.lxor_nonneg; lia). split; [done|].
  apply bits_range; [done..|]. intros i Hi. by rewrite Z.lxor_spec, !(no_high_bits _ n).
Qed.

Lemma load8_range f a : 0 <= load 8 f a < 2 ^ 64.
Proof. exact (load_range 8 f a). Qed.

Lemma ea_range off b m : 0 <= ea off b m < 2 ^ 64.
Proof. by apply wrap_range. Qed.

#[local] Hint Resolve wf_set_reg wf_set_mem wf_set_rip load8_range ea_range : wf.

Lemma running_inj m m' : Running m = Running m' → m = m'.
Proof. congruence. Qed.

(** Every instruction keeps the widths of registers and control words. *)
Lemma exec_instr_wf i m m' : wf m → label_ok i → exec_instr i m = Running m' → wf m'.
Proof.
  intros Hm Hi. pose proof Hm as [Hr Hs Hc]. destruct i; cbn [exec_instr]; cbv zeta; intros E; try case_match;
    try discriminate E; apply running_inj in E as <-; eauto with wf.
  - pose proof (load_range 4 (mem m) (ea off b m)) as Hl. split; [exact Hr|split; [apply Hl|by apply Z.ltb_lt]|exact Hc].
  - split; [exact Hr|exact Hs|]. exact (load_range 2 (mem m) (ea off b m)).
  - apply wf_set_reg; [done|]. apply land_range; [lia|apply Hr|]. apply wrap_range. lia.
  - apply wf_set_reg; [done|]. apply lxor_range; [lia|apply Hr..].
Qed.

Lemma exec_wf p m m' : wf m → Forall label_ok p → exec p m = Running m' → wf m'.
Proof.
  intros Hm Hp. revert m Hm. induction Hp as [|i p Hi Hp IH]; intros m Hm; cbn [exec].
  { by intros [= <-]. }
  destruct (exec_instr i m) as [m1| |] eqn:E; [|done..]. eauto using exec_instr_wf.
Qed.

(** ** One jump *)

(** Memory after the first half of [jump_fcontext]. *)
Definition saved (m : machine) : Z → byte :=
  let a := regs m RSP - 0x40 in
  store 8 (store 8 (store 8 (store 8 (store 8 (store 8 (store 2 (store 4 (mem m)
    a (mxcsr m)) (a + 4) (x87_cw m)) (a + 0x10) (regs m R12)) (a + 0x18) (regs m R13))
    (a + 0x20) (regs m R14)) (a + 0x28) (regs m R15)) (a + 0x30) (regs m RBX))
    (a + 0x38) (regs m RBP).

Lemma saved_out m x :
  area_ok (own_area m) → ¬ own_area m <= x < regs m RSP → saved m x = mem m x.
Proof.
  unfold area_ok, own_area, frame_size. intros [??] Hx. unfold saved. cbv zeta.
  rewrite !store_out by lia. done.
Qed.

Lemma saved_frame m : wf m → area_ok (own_area m) → frame_at (saved m) (own_area m) = caller_frame m.
Proof.
  intros [Hr Hs Hc] Ha. unfold area_ok, own_area, frame_size in *.
  unfold frame_at, caller_frame, saved. cbv zeta.
  f_equal; repeat (rewrite load_store_other by lia); try (rewrite load_store_small; [done|lia|lia|]);
    try (apply Hr); try (cbn; lia).
  f_equal. lia.
Qed.

(** The machine goes on in a context: its registers, and the transfer both where a
    call returns it and where a function takes it as its argument. *)
Record resumed (f : frame) (at_ : Z) (t : transfer_t) (m : machine) : Prop := {
  on_rip : rip m = fc_rip f;
  on_rsp : regs m RSP = at_ + frame_size;
  on_mxcsr : mxcsr m = fc_mxcsr f;
  on_x87 : x87_cw m = fc_x87_cw f;
  on_r12 : regs m R12 = fc_r12 f;
  on_r13 : regs m R13 = fc_r13 f;
  on_r14 : regs m R14 = fc_r14 f;
  on_r15 : regs m R15 = fc_r15 f;
  on_rbx : regs m RBX = fc_rbx f;
  on_rbp : regs m RBP = fc_rbp f;
  returned : regs m RAX = fctx t ∧ regs m RDX = data t;
  handed : regs m RDI = fctx t ∧ regs m RSI = data t;
}.


(** Evaluates straight-line code on a machine in record form. *)
Ltac run_code :=
  cbv [exec exec_instr jump_code take drop ea set_reg set_mem set_rip set_mxcsr set_x87_cw
       regs write_reg file mem mxcsr x87_cw rip rax rbx rcx rdx rsi rdi rbp rsp r8 r12 r13 r14 r15].

Lemma exec_app p q m :
  exec (p ++ q) m = match exec p m with Running m => exec q m | o => o end.
Proof.
  revert m. induction p as [|i p IH]; intros m; [done|]. cbn [app exec].
  by destruct (exec_instr i m).
Qed.

(** Up to the point where the stack pointer is the target's. *)
Definition save_code : list instr := Eval cbv in take 11 jump_code.
Definition restore_code : list instr := Eval cbv in drop 11 jump_code.

Lemma exec_save m :
  area_ok (own_area m) →
  ∃ m1, exec save_code m = Running m1 ∧ mem m1 = saved m ∧ regs m1 RSP = regs m RDI ∧
    regs m1 RAX = own_area m ∧ regs m1 RSI = regs m RSI.
Proof.
  destruct m as [[rax rbx rcx rdx rsi rdi rbp rsp r8 r12 r13 r14 r15] mx cw f pc].
  unfold area_ok, own_area, frame_size, saved, save_code. run_code. intros Ho.
  eexists. split; [run_code; reflexivity|]. run_code.
  replace (rsp + -64) with (rsp - 64) by lia. rewrite !(wrap_in (rsp - 64)) by lia.
  rewrite ?Z.add_0_r. rewrite !wrap_in by lia. done.
Qed.

Lemma exec_restore m :
  area_ok (regs m RSP) →
  let f := frame_at (mem m) (regs m RSP) in
  if fc_mxcsr f <? 2 ^ 16
  then ∃ m', exec restore_code m = Running m' ∧ mem m' = mem m ∧
    resumed f (regs m RSP) (mkTransfer (regs m RAX) (regs m RSI)) m'
  else exec restore_code m = Faulted.
Proof.
  destruct m as [[rax rbx rcx rdx rsi rdi rbp rsp r8 r12 r13 r14 r15] mx cw f pc].
  unfold area_ok, frame_size, restore_code. run_code. intros Ho.
  rewrite ?Z.add_0_r. rewrite !wrap_in by lia. unfold frame_at at 1. cbn [fc_mxcsr].
  destruct (load 4 f rsp <? 2 ^ 16) eqn:E; [|done].
  eexists. split; [reflexivity|]. split; [done|].
  split; run_code; try done; by rewrite ?wrap_in by lia.
Qed.

Lemma exec_jump m :
  area_ok (own_area m) → area_ok (regs m RDI) →
  let f := frame_at (saved m) (regs m RDI) in
  if fc_mxcsr f <? 2 ^ 16
  then ∃ m', exec jump_code m = Running m' ∧ mem m' = saved m ∧
    resumed f (regs m RDI) (mkTransfer (own_area m) (regs m RSI)) m'
  else exec jump_code m = Faulted.
Proof.
  intros Ho Ht. cbv zeta. change jump_code with (save_code ++ restore_code). rewrite exec_app.
  destruct (exec_save m Ho) as (m1 & -> & Em & Es & Ea & Ei).
  pose proof (exec_restore m1 ltac:(by rewrite Es)) as H. cbv zeta in H.
  rewrite Es, Em, Ea, Ei in H. exact H.
Qed.

(** ** The contract is implemented *)

(** Every suspended context is in memory under its pointer, in an area of its own. *)
Record represents (C : gmap Z frame) (m : machine) : Prop := {
  rep_wf : wf m;
  rep_frame : ∀ a f, C !! a = Some f → area_ok a ∧ frame_at (mem m) a = f ∧ fc_mxcsr f < 2 ^ 16;
  rep_apart : ∀ a b, a ∈ dom C → b ∈ dom C → a ≠ b → apart a b;
}.

Lemma apart_sym a b : apart a b → apart b a.
Proof. unfold apart. lia. Qed.

Lemma apart_out a b x : apart a b → in_area b x → ¬ in_area a x.
Proof. unfold apart, in_area. lia. Qed.

(** What other code does to memory outside the areas does not matter. *)
Lemma represents_agree C m m' :
  represents C m → wf m' → (∀ a x, a ∈ dom C → in_area a x → mem m' x = mem m x) → represents C m'.
Proof.
  intros [_ Hf Ha] Hm E. split; [done| |done].
  intros a f HC. destruct (Hf _ _ HC) as (?&<-&?). split_and!; [done| |done].
  apply frame_agree; [done|]. intros x. apply E. by apply elem_of_dom_2 in HC.
Qed.

Lemma represents_delete C m a : represents C m → represents (delete a C) m.
Proof.
  intros [Hm Hf Ha]. split; [done| |].
  - intros b f [_ H]%lookup_delete_Some. eauto.
  - intros b c Hb Hc. rewrite dom_delete in Hb, Hc. apply Ha; set_solver.
Qed.

(** A new frame in a clear area joins the suspended ones. *)
Lemma represents_insert C m m' a :
  represents C m → wf m' → clear C a → (∀ x, ¬ in_area a x → mem m' x = mem m x) →
  fc_mxcsr (frame_at (mem m') a) < 2 ^ 16 →
  represents (<[a := frame_at (mem m') a]> C) m'.
Proof.
  intros Hrep Hm [Hok Hcl] E Hx.
  assert (represents C m') as [_ Hf Ha].
  { apply (represents_agree C m); [done..|]. intros b x Hb Hin. apply E.
    eapply apart_out; [|done]. auto. }
  split; [done| |].
  - intros b f [[<- <-]|[? ?]]%lookup_insert_Some; [done|eauto].
  - intros b c. rewrite !dom_insert, !elem_of_union, !elem_of_singleton.
    intros [->|Hb] [->|Hc] Hne; [done|auto|apply apart_sym; auto|auto].
Qed.

Lemma jump_code_labels : Forall label_ok jump_code.
Proof. by repeat constructor. Qed.

Lemma in_own_area m x : in_area (own_area m) x ↔ own_area m <= x < regs m RSP + 8.
Proof. unfold in_area, own_area, frame_size. lia. Qed.

(** A jump to a suspended context goes on in it, with the transfer in the registers, and
    suspends the caller. *)
Lemma jump_implements C m f t C' :
  represents C m → clear C (own_area m) →
  Contexts.jump_fcontext (regs m RDI) (regs m RSI) (own_area m) (caller_frame m) C = Some (f, t, C') →
  ∃ m', exec jump_code m = Running m' ∧ resumed f (regs m RDI) t m' ∧ represents C' m'.
Proof.
  intros Hrep Hcl. unfold Contexts.jump_fcontext.
  destruct (C !! regs m RDI) as [there|] eqn:HC; [|done]. intros [= <- <- <-].
  pose proof Hrep as [Hm Hf _]. destruct (Hf _ _ HC) as (Ht&Hfr&Hx). destruct Hcl as [Ho Hcl].
  assert (apart (own_area m) (regs m RDI)) as Hap by (apply Hcl; by apply elem_of_dom_2 in HC).
  assert (frame_at (saved m) (regs m RDI) = there) as Es.
  { rewrite <- Hfr. apply frame_agree; [done|]. intros x Hin. apply saved_out; [done|].
    pose proof (apart_out _ _ _ Hap Hin) as Hout. rewrite in_own_area in Hout. lia. }
  pose proof (exec_jump m Ho Ht) as H. cbv zeta in H. rewrite Es, (proj2 (Z.ltb_lt _ _) Hx) in H.
  destruct H as (m'&He&Em&Hres). exists m'. split_and!; [done..|].
  rewrite <- (saved_frame m) by done. rewrite <- Em. apply (represents_insert _ m).
  - by apply represents_delete.
  - exact (exec_wf _ _ _ Hm jump_code_labels He).
  - split; [done|]. intros b Hb. rewrite dom_delete, elem_of_difference in Hb. apply Hcl, Hb.
  - intros x Hin. rewrite Em. apply saved_out; [done|]. rewrite in_own_area in Hin. lia.
  - rewrite Em, saved_frame by done. apply Hm.
Qed.

(** ** Making a context *)

Lemma align16 v : 0 <= v < 2 ^ 64 → Z.land v (wrap 64 (-16)) = v - v mod 16.
Proof. intros Hv. exact (land_align 64 4 v ltac:(lia) Hv). Qed.

Section Linked.

Context (trampoline finish : Z).
Context (Htrampoline : 0 <= trampoline < 2 ^ 64) (Hfinish : 0 <= finish < 2 ^ 64).

Notation make_code := (make_code trampoline finish).
Notation fresh_frame := (fresh_frame trampoline finish).

Lemma make_code_labels : Forall label_ok make_code.
Proof. repeat (apply Forall_cons_2; [done|]). by apply Forall_nil_2. Qed.

(** [make_fcontext] fills the area at the top of the stack, returns its address and
    changes nothing else. *)
Lemma exec_make m :
  wf m → area_ok (fresh_area (regs m RDI)) →
  let a := fresh_area (regs m RDI) in
  ∃ m', exec make_code m = Running m' ∧ wf m' ∧ regs m' RAX = a ∧
    frame_at (mem m') a = fresh_frame (regs m RDX) a m ∧
    (∀ x, ¬ in_area a x → mem m' x = mem m x) ∧
    rip m' = load 8 (mem m') (regs m RSP) ∧ regs m' RSP = wrap 64 (regs m RSP + 8) ∧
    (∀ r, r ∈ [RBX; RBP; R12; R13; R14; R15] → regs m' r = regs m r) ∧
    mxcsr m' = mxcsr m ∧ x87_cw m' = x87_cw m.
Proof.
  intros Hm Ha a.
  assert (∃ m', exec make_code m = Running m' ∧
    mem m' = store 8 (store 8 (store 2 (store 4 (store 8 (mem m) (a + 0x30) (regs m RDX)) a (mxcsr m))
      (a + 4) (x87_cw m)) (a + 0x40) trampoline) (a + 0x38) finish ∧
    regs m' RAX = a ∧ rip m' = load 8 (mem m') (regs m RSP) ∧ regs m' RSP = wrap 64 (regs m RSP + 8) ∧
    (∀ r, r ∈ [RBX; RBP; R12; R13; R14; R15] → regs m' r = regs m r) ∧
    mxcsr m' = mxcsr m ∧ x87_cw m' = x87_cw m) as (m'&He&Em&Hrest).
  { pose proof (wf_regs m Hm RDI) as Hd. subst a. clear Hm. revert Ha Hd.
    destruct m as [[rax rbx rcx rdx rsi rdi rbp rsp r8 r12 r13 r14 r15] mx cw f pc].
    unfold area_ok, fresh_area, frame_size, ContextSwitch.make_code. run_code. intros Ha Hd.
    rewrite align16 by done.
    replace (rdi - rdi mod 16 + -72) with (rdi - rdi mod 16 - 72) by lia.
    set (b := rdi - rdi mod 16 - 72) in *. clearbody b.
    rewrite !(wrap_in b), ?Z.add_0_r, !(wrap_in b), !(wrap_in (b + 4)), !(wrap_in (b + 48)),
      !(wrap_in (b + 56)), !(wrap_in (b + 64)) by lia.
    eexists. split; [reflexivity|]. run_code. split_and!; try reflexivity.
    intros r Hr. destruct r; try reflexivity; set_solver. }
  exists m'. pose proof (exec_wf _ _ _ Hm make_code_labels He) as Hm'.
  destruct Hm as [Hr Hs Hc]. pose proof (Hr RDX) as Hdx.
  destruct Hrest as (?&?&?&?&?&?). subst a. unfold area_ok, in_area, frame_size in *.
  set (a := fresh_area (regs m RDI)) in *. clearbody a.
  split_and!; [done..| | |done|done|done|done|done].
  - rewrite Em. unfold frame_at, ContextSwitch.fresh_frame.
    f_equal; repeat (rewrite load_store_other by lia); try reflexivity;
      rewrite load_store_small; try reflexivity; lia || (cbn; lia).
  - intros x Hx. rewrite Em, !store_out by lia. done.
Qed.

(** A new context joins the suspended ones. *)
Lemma make_implements C m :
  represents C m → clear C (fresh_area (regs m RDI)) →
  ∃ m', exec make_code m = Running m' ∧ regs m' RAX = fresh_area (regs m RDI) ∧
    represents (Contexts.make_fcontext (fresh_area (regs m RDI))
      (fresh_frame (regs m RDX) (fresh_area (regs m RDI)) m) C) m'.
Proof.
  intros Hrep Hcl. pose proof (rep_wf _ _ Hrep) as Hm. pose proof Hcl as [Hok _].
  destruct (exec_make m Hm Hok) as (m'&He&Hm'&Ha&Hf&Hout&_).
  exists m'. split_and!; [done..|]. unfold Contexts.make_fcontext. rewrite <- Hf.
  apply (represents_insert C m); [done..|]. rewrite Hf. apply Hm.
Qed.

End Linked.

(** ** Runs of programs *)

Record labels_ok (L : labels) : Prop := {
  jump_not_make : at_make L ≠ at_jump L;
  trampoline_apart : at_trampoline L ≠ at_jump L ∧ at_trampoline L ≠ at_make L;
  finish_apart : at_finish L ≠ at_jump L ∧ at_finish L ≠ at_make L ∧ at_finish L ≠ at_trampoline L;
  trampoline_range : 0 <= at_trampoline L < 2 ^ 64;
  finish_range : 0 <= at_finish L < 2 ^ 64;
}.

Section Runs.

Context (L : labels) (HL : labels_ok L).

Lemma run_at_jump m : rip m = at_jump L → run_routine L m = Some (exec jump_code m).
Proof. intros E. unfold run_routine, routine. by rewrite E, Z.eqb_refl. Qed.

Lemma run_at_make m :
  rip m = at_make L → run_routine L m = Some (exec (make_code (at_trampoline L) (at_finish L)) m).
Proof.
  intros E. unfold run_routine, routine. rewrite E, Z.eqb_refl.
  by rewrite (proj2 (Z.eqb_neq _ _) (jump_not_make L HL)).
Qed.

Lemma run_at_trampoline m :
  rip m = at_trampoline L → run_routine L m = Some (exec trampoline_code m).
Proof.
  intros E. unfold run_routine, routine. destruct (trampoline_apart L HL) as [H1 H2].
  by rewrite E, Z.eqb_refl, (proj2 (Z.eqb_neq _ _) H1), (proj2 (Z.eqb_neq _ _) H2).
Qed.

Lemma run_at_finish m : rip m = at_finish L → run_routine L m = Some (exec finish_code m).
Proof.
  intros E. unfold run_routine, routine. destruct (finish_apart L HL) as (H1&H2&H3).
  by rewrite E, Z.eqb_refl, (proj2 (Z.eqb_neq _ _) H1), (proj2 (Z.eqb_neq _ _) H2),
    (proj2 (Z.eqb_neq _ _) H3).
Qed.

Lemma step_represents e s s' :
  step L e s s' → represents s.1 s.2 → represents s'.1 s'.2.
Proof.
  intros [C m m' Hm E|C m a|C m m' Hr Hcl He|C m m' f t C' Hr Hcl Hj He] Hrep; cbn [fst snd] in *.
  - by apply (represents_agree C m).
  - by apply represents_delete.
  - destruct (make_implements _ _ (trampoline_range L HL) (finish_range L HL) C m Hrep Hcl) as (m1&He'&_&H).
    rewrite run_at_make, He' in He by done. by injection He as <-.
  - destruct (jump_implements C m f t C' Hrep Hcl Hj) as (m1&He'&_&H).
    rewrite run_at_jump, He' in He by done. by injection He as <-.
Qed.

Lemma steps_represents es s s' :
  steps L es s s' → represents s.1 s.2 → represents s'.1 s'.2.
Proof. induction 1; eauto using step_represents. Qed.

(** Nobody goes on in the context [a] or gives it up. *)
Definition untouched (a : Z) (es : list event) : Prop := Forall (λ e, e ≠ Switch a ∧ e ≠ Forget a) es.

Lemma not_apart_self a : ¬ apart a a.
Proof. unfold apart, frame_size. lia. Qed.

Lemma step_keeps_frame e s s' a f :
  step L e s s' → e ≠ Switch a → e ≠ Forget a → s.1 !! a = Some f → s'.1 !! a = Some f.
Proof.
  intros [C m m' Hm E|C m b|C m m' Hr Hcl He|C m m' g t C' Hr Hcl Hj He] Hs Hf HC; cbn [fst] in *.
  - done.
  - rewrite lookup_delete_ne; [done|congruence].
  - unfold make_fcontext. rewrite lookup_insert_ne; [done|]. intros E.
    apply (not_apart_self a). rewrite <- E at 1. apply Hcl. by apply elem_of_dom_2 in HC.
  - unfold jump_fcontext in Hj. destruct (C !! regs m RDI) eqn:Ht; [|done]. injection Hj as <- <- <-.
    rewrite lookup_insert_ne, lookup_delete_ne; [done|intros E; apply Hs; f_equal; exact E|]. intros E.
    apply (not_apart_self a). rewrite <- E at 1. apply Hcl. by apply elem_of_dom_2 in HC.
Qed.

Lemma steps_keep es s s' a f :
  steps L es s s' → untouched a es → s.1 !! a = Some f → s'.1 !! a = Some f.
Proof.
  induction 1 as [|e es s1 s2 s3 Hs _ IH]; [done|]. intros [[??] ?]%Forall_cons_1 HC.
  apply IH; [done|]. by apply (step_keeps_frame e s1).
Qed.

(** A jump to the context [a], whatever happened since it was suspended. *)
Lemma switch_resumes a f s s' :
  step L (Switch a) s s' → s.1 !! a = Some f → represents s.1 s.2 →
  resumed f a (mkTransfer (own_area s.2) (regs s.2 RSI)) s'.2 ∧ represents s'.1 s'.2.
Proof.
  intros Hs. remember (Switch a) as e eqn:Ee. destruct Hs as [| | |C m m' g t C' Hr Hcl Hj He]; try done.
  assert (a = regs m RDI) as -> by congruence. cbn [fst snd]. intros HC Hrep.
  destruct (jump_implements C m _ _ _ Hrep Hcl Hj) as (m2&He'&Hres&Hrep').
  rewrite run_at_jump, He' in He by done. injection He as <-.
  unfold jump_fcontext in Hj. rewrite HC in Hj. injection Hj as <- <- <-. split; assumption.
Qed.

(** A jump suspends who makes it. *)
Lemma switch_suspends to s s' :
  step L (Switch to) s s' → s'.1 !! own_area s.2 = Some (caller_frame s.2).
Proof.
  intros Hs. remember (Switch to) as e eqn:Ee. destruct Hs as [| | |C m m' g t C' Hr Hcl Hj He]; try done.
  unfold jump_fcontext in Hj. cbn [fst snd]. destruct (C !! _); [|done]. injection Hj as _ _ <-.
  apply lookup_insert_eq.
Qed.

(** What the caller has lost and found when its call returns. *)
Record returned_to (m0 m : machine) (t : transfer_t) : Prop := {
  same_rip : rip m = load 8 (mem m0) (regs m0 RSP);
  same_rsp : regs m RSP = regs m0 RSP + 8;
  same_saved : ∀ r, r ∈ [RBX; RBP; R12; R13; R14; R15] → regs m r = regs m0 r;
  same_control : mxcsr m = mxcsr m0 ∧ x87_cw m = x87_cw m0;
  result : regs m RAX = fctx t ∧ regs m RDX = data t;
}.

(** C13: a call of [jump_fcontext] is, for the code that makes it, an ordinary call: whatever
    runs in between - other code, new contexts, any switches among other contexts -
    once somebody jumps to the context it left behind, it returns to its caller with
    the stack pointer, the callee-saved registers and the control words the caller
    had, and its result is the context of who jumped and the pointer that was passed. *)
Theorem suspended_call_returns to C0 m0 C1 m1 es C2 m2 C3 m3 :
  represents C0 m0 →
  step L (Switch to) (C0, m0) (C1, m1) →
  steps L es (C1, m1) (C2, m2) → untouched (own_area m0) es →
  step L (Switch (own_area m0)) (C2, m2) (C3, m3) →
  returned_to m0 m3 (mkTransfer (own_area m2) (regs m2 RSI)).
Proof.
  intros Hrep H01 H12 Hun H23.
  assert (C1 !! own_area m0 = Some (caller_frame m0)) as H1 by exact (switch_suspends _ _ _ H01).
  pose proof (steps_keep _ _ _ _ _ H12 Hun H1) as H2.
  assert (represents C2 m2) as Hrep2
    by exact (steps_represents _ _ _ H12 (step_represents _ _ _ H01 Hrep)).
  destruct (switch_resumes _ _ _ _ H23 H2 Hrep2) as [[Hrip Hrsp Hmx Hcw ? ? ? ? ? ? Hret _] _].
  cbn [fst snd] in *. split; [done| |intros r Hr|done|done].
  - rewrite Hrsp. unfold own_area, frame_size. lia.
  - repeat (apply elem_of_cons in Hr as [->|Hr]; [done|]). by apply elem_of_nil in Hr.
Qed.

(** C14: the two routines implement the contract: along any run of a program that
    respects it, every suspended context is in memory in an area of its own, a call
    of [jump_fcontext] with the pointer of a suspended one goes on there - its registers
    restored, the transfer in the registers of a result and of an argument - and
    leaves the caller's, and a call of [make_fcontext] adds a context; neither fails. *)
Theorem routines_implement_contract es C0 m0 C m :
  represents C0 m0 → steps L es (C0, m0) (C, m) →
  (∀ f t C', rip m = at_jump L → clear C (own_area m) →
     jump_fcontext (regs m RDI) (regs m RSI) (own_area m) (caller_frame m) C = Some (f, t, C') →
     ∃ m', run_routine L m = Some (Running m') ∧ resumed f (regs m RDI) t m' ∧ represents C' m') ∧
  (let a := fresh_area (regs m RDI) in
   rip m = at_make L → clear C a →
   ∃ m', run_routine L m = Some (Running m') ∧ regs m' RAX = a ∧
     represents (make_fcontext a (fresh_frame (at_trampoline L) (at_finish L) (regs m RDX) a m) C) m').
Proof.
  intros H0 Hs. pose proof (steps_represents _ _ _ Hs H0) as Hrep. cbn [fst snd] in Hrep. split.
  - intros f t C' Hr Hcl Hj. destruct (jump_implements _ _ _ _ _ Hrep Hcl Hj) as (m'&He&?&?).
    exists m'. rewrite run_at_jump, He by assumption. split; [reflexivity|split; assumption].
  - intros a Hr Hcl.
    destruct (make_implements _ _ (trampoline_range L HL) (finish_range L HL) C m Hrep Hcl) as (m'&He&?&?).
    exists m'. rewrite run_at_make, He by assumption. split; [reflexivity|split; assumption].
Qed.

(** ** The first entry *)

Lemma exec_trampoline m :
  wf m → 8 <= regs m RSP →
  ∃ m', exec trampoline_code m = Running m' ∧ rip m' = regs m RBX ∧ regs m' RSP = regs m RSP - 8 ∧
    load 8 (mem m') (regs m' RSP) = regs m RBP ∧
    (∀ x, ¬ regs m RSP - 8 <= x < regs m RSP → mem m' x = mem m x) ∧
    (∀ r, r ≠ RSP → regs m' r = regs m r) ∧ mxcsr m' = mxcsr m ∧ x87_cw m' = x87_cw m.
Proof.
  intros [Hr _ _] Hsp. pose proof (Hr RSP) as Hs. pose proof (Hr RBP) as Hb. clear Hr. revert Hsp Hs Hb.
  destruct m as [[rax rbx rcx rdx rsi rdi rbp rsp r8 r12 r13 r14 r15] mx cw f pc].
  unfold trampoline_code. run_code. intros Hsp Hs Hb.
  eexists. split; [reflexivity|]. run_code.
  replace (rsp + -8) with (rsp - 8) by lia. rewrite wrap_in by lia.
  split_and!; try reflexivity.
  - apply load_store_small; cbn; lia.
  - intros x Hx. apply store_out; lia.
  - intros r Hne. by destruct r.
Qed.

Lemma exec_finish m : wf m → exec finish_code m = Exited 0.
Proof. intros _. cbn [exec finish_code exec_instr]. by rewrite regs_set_reg, decide_True, Z.lxor_nilpotent. Qed.

(** A new context is suspended until somebody jumps to it. *)
Lemma make_suspends a s s' :
  step L (Make a) s s' →
  a = fresh_area (regs s.2 RDI) ∧
  s'.1 !! a = Some (fresh_frame (at_trampoline L) (at_finish L) (regs s.2 RDX) a s.2) ∧ area_ok a.
Proof.
  intros Hs. remember (Make a) as e eqn:Ee. destruct Hs as [| |C m m' Hr [Hok _] He|]; try done.
  assert (a = fresh_area (regs m RDI)) as -> by congruence.
  split_and!; [done|apply lookup_insert_eq|done].
Qed.

(** C15: the first jump to a new context - whatever happened since it was made - leads
    through the trampoline into the function given to [make_fcontext]: with the transfer as its
    argument, the control words of the maker, its stack aligned as a call leaves it and inside
    the stack that was given, and the stub [finish] as its return address, which ends
    the program with status 0 if the function ever returns. *)
Theorem new_context_enters_function C0 m0 C1 m1 es C2 m2 C3 m3 :
  let sp := regs m0 RDI in
  let a := fresh_area sp in
  represents C0 m0 →
  step L (Make a) (C0, m0) (C1, m1) →
  steps L es (C1, m1) (C2, m2) → untouched a es →
  step L (Switch a) (C2, m2) (C3, m3) →
  ∃ m, run_routine L m3 = Some (Running m) ∧
    rip m = regs m0 RDX ∧
    regs m RDI = own_area m2 ∧ regs m RSI = regs m2 RSI ∧
    mxcsr m = mxcsr m0 ∧ x87_cw m = x87_cw m0 ∧
    regs m RSP mod 16 = 8 ∧ sp - 16 < regs m RSP + 8 <= sp ∧
    load 8 (mem m) (regs m RSP) = at_finish L ∧
    (∀ x, ¬ in_area a x → mem m x = mem m3 x) ∧
    ∀ m', wf m' → rip m' = load 8 (mem m) (regs m RSP) → run_routine L m' = Some (Exited 0).
Proof.
  cbv zeta. intros Hrep H01 H12 Hun H23. destruct (make_suspends _ _ _ H01) as (->&H1&Hok).
  cbn [fst snd] in *. pose proof (steps_keep _ _ _ _ _ H12 Hun H1) as H2.
  assert (represents C2 m2) as Hrep2
    by exact (steps_represents _ _ _ H12 (step_represents _ _ _ H01 Hrep)).
  destruct (switch_resumes _ _ _ _ H23 H2 Hrep2) as [[Hrip Hrsp Hmx Hcw _ _ _ _ Hbx Hbp _ [Hdi Hsi]] Hrep3].
  cbn [fresh_frame fc_mxcsr fc_x87_cw fc_rbx fc_rbp fc_rip fctx data fst snd] in *.
  pose proof (rep_wf _ _ Hrep3) as Hwf3. unfold area_ok, in_area in *.
  set (sp := regs m0 RDI) in *.
  assert (regs m3 RSP = sp - sp mod 16) as Hsp by (rewrite Hrsp; unfold fresh_area; lia).
  unfold fresh_area, frame_size in *.
  destruct (exec_trampoline m3 Hwf3) as (m&He&Hrm&Hsm&Hlm&Hout&Hregs&Hm1&Hm2); [lia|].
  exists m. rewrite run_at_trampoline by done. split; [by rewrite He|].
  rewrite Hlm, Hrm, Hbx, !Hregs, Hdi, Hsi, Hm1, Hm2, Hsm, Hsp, Hbp by done.
  pose proof (Z.mod_pos_bound sp 16 ltac:(lia)) as Hmod.
  split_and!; try done; try lia.
  - replace (sp - sp mod 16 - 8) with (8 + (sp / 16 - 1) * 16) by (pose proof (Z.div_mod sp 16 ltac:(lia)); lia).
    by rewrite Z.mod_add.
  - intros x Hx. apply Hout. lia.
  - intros m' Hm' Hr'. by rewrite run_at_finish, exec_finish.
Qed.

End Runs.

(** ** A small program *)

Module Demo.

Definition L : labels := mkLabels 0x1000 0x2000 0x3000 0x3010.

Lemma L_ok : labels_ok L.
Proof. by repeat split. Qed.

(** A machine about to run a routine, its stack pointer and the three arguments given. *)
Definition calling (pc sp a1 a2 a3 : Z) (f : Z → byte) : machine :=
  mkMachine (mkRegs 1 2 3 a3 a2 a1 4 sp 5 6 7 8 9) 0x1f80 0x37f f pc.

Definition after (m : machine) : machine :=
  match run_routine L m with Some (Running m') => m' | _ => m end.

Definition zeros : Z → byte := λ _, Byte.x00.

Lemma wf_calling pc sp a1 a2 a3 f :
  0 <= sp < 2 ^ 64 → 0 <= a1 < 2 ^ 64 → 0 <= a2 < 2 ^ 64 → 0 <= a3 < 2 ^ 64 → wf (calling pc sp a1 a2 a3 f).
Proof. intros. split; [|cbn; lia..]. intros r. destruct r; cbn; lia. Qed.

Lemma untouched_other a : untouched a [Other].
Proof. by repeat constructor. Qed.

Lemma mem_calling pc sp a1 a2 a3 f : mem (calling pc sp a1 a2 a3 f) = f.
Proof. done. Qed.

(** A context whose frame is all zeros at 0x9000, and who calls it. *)
Definition caller : machine := calling 0x1000 0x8000 0x9000 77 0 zeros.
Definition suspended : gmap Z frame := {[0x9000 := frame_at zeros 0x9000]}.

Lemma suspended_ok : represents suspended caller.
Proof.
  split; [by apply wf_calling| |].
  - intros a f'. unfold suspended. intros [<- <-]%lookup_singleton_Some. by split_and!.
  - intros a b Ha Hb. set_solver.
Qed.

Lemma clear_one (a b : Z) (f : frame) : area_ok b → apart b a → clear {[a := f]} b.
Proof. intros ??. split; [done|]. intros c. rewrite dom_singleton. by intros ->%elem_of_singleton. Qed.

(** The caller once it is suspended, and who jumps back to it. *)
Definition called : gmap Z frame := {[own_area caller := caller_frame caller]}.
Definition back : machine := calling 0x1000 0x9048 0x7fc0 88 0 (mem (after caller)).
Definition ended : gmap Z frame := <[own_area back := caller_frame back]> (delete (own_area caller) called).

Lemma call_step : step L (Switch 0x9000) (suspended, caller) (called, after caller).
Proof.
  apply (step_switch L suspended caller (after caller) (frame_at zeros 0x9000) (mkTransfer 0x7fc0 77)); [done| | |].
  - apply clear_one; [done|]. by left.
  - reflexivity.
  - vm_compute. reflexivity.
Qed.

Lemma back_step : step L (Switch (own_area caller)) (called, back) (ended, after back).
Proof.
  apply (step_switch L called back (after back) (caller_frame caller) (mkTransfer 0x9008 88)); [done| | |].
  - apply clear_one; [done|]. by right.
  - reflexivity.
  - vm_compute. reflexivity.
Qed.

Lemma between_steps : steps L [Other] (called, after caller) (called, back).
Proof.
  eapply steps_cons; [|apply steps_nil]. apply step_other; [by apply wf_calling|].
  intros a x _ _. unfold back. by rewrite mem_calling.
Qed.

Lemma suspended_call_returns_witness :
  returned_to caller (after back) (mkTransfer (own_area back) (regs back RSI)).
Proof.
  exact (suspended_call_returns L L_ok 0x9000 suspended caller called (after caller) [Other] called back
    ended (after back) suspended_ok call_step between_steps (untouched_other _) back_step).
Defined.

Lemma routines_implement_contract_witness :
  ∃ m', run_routine L caller = Some (Running m') ∧
    resumed (frame_at zeros 0x9000) 0x9000 (mkTransfer 0x7fc0 77) m' ∧
    represents called m'.
Proof.
  pose proof (proj1 (routines_implement_contract L L_ok [] suspended caller suspended caller
    suspended_ok (steps_nil _ _))) as H.
  apply H; [done| |reflexivity]. apply clear_one; [done|]. by left.
Defined.

(** A program that makes a context for the function at 0x5555 and jumps to it. *)
Definition maker : machine := calling 0x2000 0x8000 0x9000 0 0x5555 zeros.
Definition made : gmap Z frame :=
  make_fcontext (fresh_area (regs maker RDI))
    (fresh_frame (at_trampoline L) (at_finish L) (regs maker RDX) (fresh_area (regs maker RDI)) maker) ∅.
Definition starter : machine := calling 0x1000 0x4000 0x8fb8 99 0 (mem (after maker)).
Definition started : gmap Z frame := <[own_area starter := caller_frame starter]> (delete (fresh_area (regs maker RDI)) made).

Lemma nothing_suspended : represents ∅ maker.
Proof. split; [by apply wf_calling|done|set_solver]. Qed.

Lemma make_step : step L (Make (fresh_area (regs maker RDI))) (∅, maker) (made, after maker).
Proof.
  apply (step_make L ∅ maker (after maker)); [done| |].
  - split; [done|]. intros b Hb. set_solver.
  - vm_compute. reflexivity.
Qed.

Lemma start_step : step L (Switch (fresh_area (regs maker RDI))) (made, starter) (started, after starter).
Proof.
  apply (step_switch L made starter (after starter)
    (fresh_frame (at_trampoline L) (at_finish L) 0x5555 0x8fb8 maker) (mkTransfer 0x3fc0 99)); [done| | |].
  - apply clear_one; [done|]. by left.
  - reflexivity.
  - vm_compute. reflexivity.
Qed.

Lemma setup_steps : steps L [Other] (made, after maker) (made, starter).
Proof.
  eapply steps_cons; [|apply steps_nil]. apply step_other; [by apply wf_calling|].
  intros a x _ _. unfold starter. by rewrite mem_calling.
Qed.

Lemma new_context_enters_function_witness :
  ∃ m, run_routine L (after starter) = Some (Running m) ∧ rip m = 0x5555 ∧ regs m RSI = 99.
Proof.
  destruct (new_context_enters_function L L_ok ∅ maker made (after maker) [Other] made starter started (after starter)
    nothing_suspended make_step setup_steps (untouched_other _) start_step) as (m&He&Hr&_&Hs&_).
  exists m. split; [exact He|]. split; [exact Hr|exact Hs].
Defined.

(** Stale pointers: once the caller has been resumed and has gone on, its old frame is
    anything; a jump there - outside the contract - follows whatever is in memory. *)
Example stale_pointer_faults :
  run_routine L (calling 0x1000 0x4000 0x7fc0 0 0 (store 4 (mem (after back)) 0x7fc0 (2 ^ 32 - 1)))
    = Some Faulted.
Proof. vm_compute. reflexivity. Qed.

End Demo.

End ContextSwitchProofs.
