(* ===== verification/FiberSwitch.v ===== *)
(** Switching fibers ([droplet/src/fiber/fiber.cc]), below [Fiber]: the two context
    pointers of a fiber, the current fiber of a thread and the code behind each jump,
    over the contract of the context switch ([Contexts]); and what all of it amounts
    to: a stack of fibers per thread, on which [resume] is a call and leaving a fiber
    is its return. *)

From S2P Require Import Prelude Fiber ContextSwitch.

Module FiberSwitch.
Import Contexts.

#[export] Existing Instance Fiber.State_eq_dec.

Abbreviation State := Fiber.State.
Abbreviation fid := positive.
Abbreviation tid := positive.

(** ** State *)

(** Whose code runs on a stack: that of a thread or the callback of a fiber. *)
Inductive who := Thread (t : tid) | Body (f : fid).

#[export] Instance who_eq_dec : EqDecision who.
Proof. solve_decision. Defined.

(** What goes on when somebody jumps to a context: [entry] on the stack of a fiber, the
    rest of [resume] on the stack of its caller (its locals are [this] and [prev]), the
    rest of [yield_to], and what follows the last jump of [run]. *)
Inductive continuation :=
  | InEntry (owner : fid)
  | InResume (caller : who) (this prev : fid)
  | InYield (curr : fid)
  | InRun (this : fid).

(** The members switching uses; [top] is the end of the stack, absent for a main fiber. *)
Record Fiber := mkFiber {
  state_ : State;
  ctx_ : Z;
  back_ctx_ : Z;
  top : option Z;
}.

(** A thread runs code or is about to jump back from a fiber: from the jump of
    [yield_to] or from the one at the end of [run]. *)
Inductive control := Running (me : who) | Leaving (curr : fid) (ended : bool).

(** [t_cur], where the main fiber of the thread is allocated, and what it is doing. *)
Record Thread_ := mkThread {
  t_cur : option fid;
  main_ : fid;
  control_ : control;
}.

Record state := mkState {
  fibers : gmap fid Fiber;
  threads : gmap tid Thread_;
  suspended : gmap Z continuation;
}.

Inductive fault := AssertFailed | StaleContext | Aborted | NotThere.

(** ** Updates *)

Definition with_state (s : State) (o : Fiber) : Fiber := mkFiber s (ctx_ o) (back_ctx_ o) (top o).
Definition with_ctx (c : Z) (o : Fiber) : Fiber := mkFiber (state_ o) c (back_ctx_ o) (top o).
Definition with_back (c : Z) (o : Fiber) : Fiber := mkFiber (state_ o) (ctx_ o) c (top o).

Definition at_fiber (g : Fiber → Fiber) (f : fid) (σ : state) : state :=
  mkState (alter g f (fibers σ)) (threads σ) (suspended σ).
Definition at_thread (g : Thread_ → Thread_) (t : tid) (σ : state) : state :=
  mkState (fibers σ) (alter g t (threads σ)) (suspended σ).
Definition set_suspended (C : gmap Z continuation) (σ : state) : state :=
  mkState (fibers σ) (threads σ) C.

Definition SetThis (f : fid) (t : tid) (σ : state) : state :=
  at_thread (λ h, mkThread (Some f) (main_ h) (control_ h)) t σ.
Definition set_control (c : control) (t : tid) (σ : state) : state :=
  at_thread (λ h, mkThread (t_cur h) (main_ h) c) t σ.

(** The main fiber is always in EXEC and has no stack and no contexts. *)
Definition main_fiber : Fiber := mkFiber Fiber.EXEC 0 0 None.

(** The current fiber; the first call makes the main fiber of the thread. *)
Definition GetThis (t : tid) (h : Thread_) (σ : state) : fid * state :=
  match t_cur h with
  | Some f => (f, σ)
  | None => (main_ h, SetThis (main_ h) t (mkState (<[main_ h := main_fiber]> (fibers σ)) (threads σ) (suspended σ)))
  end.

(** ** Switches *)

(** [entry] and the beginning of [run]: the fiber is what the jump carries. *)
Definition entry (t : tid) (from : transfer_t) (σ : state) : state :=
  let self := Z.to_pos (data from) in
  set_control (Running (Body self)) t
    (at_fiber (λ o, with_state Fiber.EXEC (with_back (fctx from) o)) self σ).

(** [resume] behind its jump. *)
Definition resume_returns (t : tid) (caller : who) (this prev : fid) (tr : transfer_t) (σ : state) : state :=
  set_control (Running caller) t (SetThis prev t (at_fiber (with_ctx (fctx tr)) this σ)).

(** [yield_to] behind its jump. *)
Definition yield_returns (t : tid) (curr : fid) (tr : transfer_t) (σ : state) : state :=
  set_control (Running (Body curr)) t (at_fiber (with_back (fctx tr)) curr σ).

(** The code behind a jump, up to where the code of the user goes on. *)
Definition land (t : tid) (k : continuation) (tr : transfer_t) (σ : state) : fault + state :=
  match k with
  | InEntry _ => inr (entry t tr σ)
  | InResume caller this prev => inr (resume_returns t caller this prev tr σ)
  | InYield curr => inr (yield_returns t curr tr σ)
  | InRun _ => inl Aborted
  end.

(** [own] is where the frame of the jumping code comes to lie. *)
Definition switch (t : tid) (to : Z) (vp : fid) (own : Z) (here : continuation) (σ : state) : fault + state :=
  match jump_fcontext to (Zpos vp) own here (suspended σ) with
  | None => inl StaleContext
  | Some (k, tr, C) => land t k tr (set_suspended C σ)
  end.

Definition resumable (s : State) : bool :=
  negb (bool_decide (s = Fiber.EXEC) || bool_decide (s = Fiber.TERM) || bool_decide (s = Fiber.EXCEPT)).

Definition resume (t : tid) (f : fid) (own : Z) (σ : state) : fault + state :=
  match threads σ !! t with
  | Some h =>
      match control_ h with
      | Running me =>
          let '(prev, σ) := GetThis t h σ in
          match fibers σ !! f with
          | Some o =>
              if negb (bool_decide (prev = f)) && resumable (state_ o) then
                let σ := at_fiber (with_state Fiber.EXEC) f (SetThis f t σ) in
                switch t (ctx_ o) f own (InResume me f prev) σ
              else inl AssertFailed
          | None => inl NotThere
          end
      | Leaving _ _ => inl NotThere
      end
  | None => inl NotThere
  end.

(** [yield_to] up to its jump. *)
Definition yield_to (t : tid) (s : State) (σ : state) : fault + state :=
  match threads σ !! t with
  | Some h =>
      match control_ h with
      | Running _ =>
          let '(curr, σ) := GetThis t h σ in
          match fibers σ !! curr with
          | Some o =>
              if bool_decide (is_Some (top o)) && bool_decide (state_ o = Fiber.EXEC)
              then inr (set_control (Leaving curr false) t (at_fiber (with_state s) curr σ))
              else inl AssertFailed
          | None => inl NotThere
          end
      | Leaving _ _ => inl NotThere
      end
  | None => inl NotThere
  end.

(** The end of [run], up to its jump: the callback has returned or thrown. *)
Definition finish (t : tid) (thrown : bool) (σ : state) : fault + state :=
  match threads σ !! t with
  | Some h =>
      match control_ h with
      | Running (Body self) =>
          inr (set_control (Leaving self true) t
                 (at_fiber (with_state (if thrown then Fiber.EXCEPT else Fiber.TERM)) self σ))
      | _ => inl NotThere
      end
  | None => inl NotThere
  end.

(** The jump back, and the end of the [resume] it returns to. *)
Definition leave (t : tid) (own : Z) (σ : state) : fault + state :=
  match threads σ !! t with
  | Some h =>
      match control_ h with
      | Leaving curr ended =>
          match fibers σ !! curr with
          | Some o =>
              switch t (back_ctx_ o) curr own (if ended then InRun curr else InYield curr) σ
          | None => inl NotThere
          end
      | Running _ => inl NotThere
      end
  | None => inl NotThere
  end.

(** ** Fibers and threads come and go *)

Definition Create (f : fid) (sp : Z) (σ : state) : state :=
  let a := ContextSwitch.fresh_area sp in
  mkState (<[f := mkFiber Fiber.INIT a 0 (Some sp)]> (fibers σ)) (threads σ)
    (make_fcontext a (InEntry f) (suspended σ)).

Definition at_rest (s : State) : bool :=
  bool_decide (s = Fiber.INIT) || bool_decide (s = Fiber.TERM) || bool_decide (s = Fiber.EXCEPT).

(** The new frame may lie over the one of the last jump of [run], which is given up. *)
Definition reset (f : fid) (σ : state) : fault + state :=
  match fibers σ !! f with
  | Some o =>
      match top o with
      | Some sp =>
          if at_rest (state_ o) then
            let a := ContextSwitch.fresh_area sp in
            inr (mkState (<[f := mkFiber Fiber.INIT a (back_ctx_ o) (top o)]> (fibers σ)) (threads σ)
                   (make_fcontext a (InEntry f) (delete (ctx_ o) (suspended σ))))
          else inl AssertFailed
      | None => inl AssertFailed
      end
  | None => inl NotThere
  end.

(** The destructor of a fiber with a stack, which is freed. *)
Definition destroy (f : fid) (σ : state) : fault + state :=
  match fibers σ !! f with
  | Some o =>
      if at_rest (state_ o)
      then inr (mkState (delete f (fibers σ)) (threads σ) (delete (ctx_ o) (suspended σ)))
      else inl AssertFailed
  | None => inl NotThere
  end.

(** A thread that has not used fibers yet. *)
Definition begin_thread (t : tid) (main : fid) (σ : state) : state :=
  mkState (fibers σ) (<[t := mkThread None main (Running (Thread t))]> (threads σ)) (suspended σ).

(** ** Runs *)

Inductive label :=
  | LResume (t : tid) (f : fid) (own : Z)
  | LYield (t : tid) (s : State)
  | LFinish (t : tid) (thrown : bool)
  | LLeave (t : tid) (own : Z)
  | LCreate (f : fid) (sp : Z)
  | LReset (f : fid)
  | LDestroy (f : fid)
  | LThread (t : tid) (main : fid).

Definition step (l : label) (σ : state) : fault + state :=
  match l with
  | LResume t f own => resume t f own σ
  | LYield t s => yield_to t s σ
  | LFinish t thrown => finish t thrown σ
  | LLeave t own => leave t own σ
  | LCreate f sp => inr (Create f sp σ)
  | LReset f => reset f σ
  | LDestroy f => destroy f σ
  | LThread t main => inr (begin_thread t main σ)
  end.

Fixpoint run (ls : list label) (σ : state) : fault + state :=
  match ls with
  | [] => inr σ
  | l :: ls => match step l σ with inr σ => run ls σ | inl e => inl e end
  end.

Definition initial : state := mkState ∅ ∅ ∅.

(** ** What it amounts to *)

(** A thread is a stack of fibers, the innermost first, above its own code; a fiber has a state.  [leaving]: the
    innermost one has said that it stops and is about to jump. *)
Record stack := mkStack { frames : list fid; leaving : bool; main_of : fid }.

Record model := mkModel {
  stacks : gmap tid stack;
  status : gmap fid State;
}.

(** The fiber is on no stack. *)
Definition off_stacks (f : fid) (α : model) : bool :=
  bool_decide (map_Forall (λ _ s, f ∉ frames s) (stacks α)).

(** Not a fiber, and not the main fiber of a thread. *)
Definition unused (f : fid) (α : model) : bool :=
  bool_decide (status α !! f = None) && bool_decide (map_Forall (λ _ s, main_of s ≠ f) (stacks α)).

Definition set_stack (t : tid) (s : stack) (α : model) : model := mkModel (<[t := s]> (stacks α)) (status α).
Definition set_status (f : fid) (s : State) (α : model) : model := mkModel (stacks α) (<[f := s]> (status α)).

Definition yielded (s : State) : bool := bool_decide (s = Fiber.HOLD) || bool_decide (s = Fiber.READY).

(** The discipline and its effect: [resume] is called with a fiber that has left the
    threads it was on and can go on, [reset] and the destructor with one that is at rest; [None] when the discipline is
    violated. *)
Definition astep (l : label) (α : model) : option model :=
  match l with
  | LResume t f _ =>
      match stacks α !! t, status α !! f with
      | Some (mkStack fs false m), Some s =>
          if off_stacks f α && resumable s
          then Some (set_status f Fiber.EXEC (set_stack t (mkStack (f :: fs) false m) α)) else None
      | _, _ => None
      end
  | LYield t s =>
      match stacks α !! t with
      | Some (mkStack (f :: fs) false m) =>
          if yielded s then Some (set_status f s (set_stack t (mkStack (f :: fs) true m) α)) else None
      | _ => None
      end
  | LFinish t thrown =>
      match stacks α !! t with
      | Some (mkStack (f :: fs) false m) =>
          Some (set_status f (if thrown then Fiber.EXCEPT else Fiber.TERM)
                  (set_stack t (mkStack (f :: fs) true m) α))
      | _ => None
      end
  | LLeave t _ =>
      match stacks α !! t with
      | Some (mkStack (f :: fs) true m) => Some (set_stack t (mkStack fs false m) α)
      | _ => None
      end
  | LCreate f _ => if unused f α then Some (set_status f Fiber.INIT α) else None
  | LReset f =>
      match status α !! f with
      | Some s => if off_stacks f α && at_rest s then Some (set_status f Fiber.INIT α) else None
      | None => None
      end
  | LDestroy f =>
      match status α !! f with
      | Some s => if off_stacks f α && at_rest s then Some (mkModel (stacks α) (delete f (status α))) else None
      | None => None
      end
  | LThread t m =>
      match stacks α !! t with
      | None => if unused m α then Some (set_stack t (mkStack [] false m) α) else None
      | Some _ => None
      end
  end.

(** Where the frame of a step comes to lie: in the stack of the jumping code, or at the top of
    the stack of a fiber. *)
Definition room (l : label) (σ : state) : Prop :=
  match l with
  | LResume _ _ own | LLeave _ own => suspended σ !! own = None
  | LCreate _ sp => suspended σ !! ContextSwitch.fresh_area sp = None
  | LReset f =>
      ∀ o sp, fibers σ !! f = Some o → top o = Some sp →
        delete (ctx_ o) (suspended σ) !! ContextSwitch.fresh_area sp = None
  | _ => True
  end.

Definition no_fibers : model := mkModel ∅ ∅.

Fixpoint arun (ls : list label) (α : model) : option model :=
  match ls with
  | [] => Some α
  | l :: ls => match astep l α with Some α => arun ls α | None => None end
  end.

(** There is room for every frame a run lays out. *)
Fixpoint roomy (ls : list label) (σ : state) : Prop :=
  match ls with
  | [] => True
  | l :: ls => room l σ ∧ ∀ σ', step l σ = inr σ' → roomy ls σ'
  end.

(** ** Who keeps a fiber alive *)

(** The shared pointers in the frame of a suspended context: [prev] in [resume], [curr] in
    [yield_to]; a thread holds its current fiber ([t_cur_holder]). *)
Definition local_refs (k : continuation) : list fid :=
  match k with InResume _ _ prev => [prev] | InYield curr => [curr] | InEntry _ | InRun _ => [] end.

Definition kept (f : fid) (σ : state) : bool :=
  bool_decide (map_Exists (λ _ h, t_cur h = Some f) (threads σ)) ||
  bool_decide (map_Exists (λ _ k, f ∈ local_refs k) (suspended σ)).

(** What code on a thread sees: whose it is, and the current fiber. *)
Definition observed (t : tid) (σ : state) : option (who * option fid) :=
  match threads σ !! t with
  | Some h => match control_ h with Running me => Some (me, t_cur h) | Leaving _ _ => None end
  | None => None
  end.

End FiberSwitch.
