(* ===== verification/FiberSwitchProofs.v ===== *)
(** Switching fibers: the pointers of fibers, threads and suspended contexts implement a
    stack of fibers per thread - a disciplined program never jumps to a stale context, and
    leaving a fiber goes on behind the latest [resume] of it, on the same thread, with
    the current fiber of the thread as it was. *)

From S2P Require Import Prelude Fiber ContextSwitch FiberSwitch.

Module FiberSwitchProofs.
Import Contexts FiberSwitch.

(** ** The relation *)

(** What resumes go back to: the code and the current fiber of thread [t] when its stack
    is [fs]. *)
Definition who_of (t : tid) (fs : list fid) : who :=
  match fs with [] => Thread t | f :: _ => Body f end.
Definition fid_of (m : fid) (fs : list fid) : fid :=
  match fs with [] => m | f :: _ => f end.

(** Which fiber a suspended context is about. *)
Definition owner (k : continuation) : fid :=
  match k with InEntry f | InResume _ f _ | InYield f | InRun f => f end.

(** Every fiber of a stack points to the [resume] that waits for it. *)
Fixpoint chain (σ : state) (t : tid) (m : fid) (fs : list fid) : Prop :=
  match fs with
  | [] => True
  | f :: rest =>
      (∃ o, fibers σ !! f = Some o ∧
        suspended σ !! back_ctx_ o = Some (InResume (who_of t rest) f (fid_of m rest))) ∧
      chain σ t m rest
  end.

(** The code a fiber that is on no stack goes on with. *)
Definition goes_on (f : fid) (s : State) : option continuation :=
  match s with
  | Fiber.INIT => Some (InEntry f)
  | Fiber.HOLD | Fiber.READY => Some (InYield f)
  | Fiber.TERM | Fiber.EXCEPT => Some (InRun f)
  | Fiber.EXEC => None
  end.

Definition asleep (σ : state) (f : fid) (o : Fiber) : Prop :=
  ∃ k, goes_on f (state_ o) = Some k ∧ suspended σ !! ctx_ o = Some k.

Definition ended (s : State) : bool := bool_decide (s = Fiber.TERM) || bool_decide (s = Fiber.EXCEPT).

(** A thread and its stack. *)
Definition at_work (σ : state) (t : tid) (h : Thread_) (s : stack) : Prop :=
  match frames s with
  | [] =>
      leaving s = false ∧ control_ h = Running (Thread t) ∧
      (t_cur h = None ∧ fibers σ !! main_of s = None ∨
       t_cur h = Some (main_of s) ∧ fibers σ !! main_of s = Some main_fiber)
  | f :: _ =>
      t_cur h = Some f ∧ fibers σ !! main_of s = Some main_fiber ∧
      ∃ o, fibers σ !! f = Some o ∧
        if leaving s then control_ h = Leaving f (ended (state_ o)) ∧ (ended (state_ o) || yielded (state_ o))
        else control_ h = Running (Body f) ∧ state_ o = Fiber.EXEC
  end.

Definition thread_ok (σ : state) (t : tid) (s : stack) : Prop :=
  (∃ h, threads σ !! t = Some h ∧ main_ h = main_of s ∧ at_work σ t h s) ∧
  chain σ t (main_of s) (frames s) ∧
  (∀ g o, g ∈ tail (frames s) → fibers σ !! g = Some o → state_ o = Fiber.EXEC) ∧
  NoDup (frames s).

Definition off (f : fid) (α : model) : Prop := ∀ t s, stacks α !! t = Some s → f ∉ frames s.

Definition fiber_ok (σ : state) (α : model) (f : fid) (s : State) : Prop :=
  ∃ o, fibers σ !! f = Some o ∧ state_ o = s ∧ is_Some (top o) ∧ (off f α → asleep σ f o).

Record implements (σ : state) (α : model) : Prop := {
  threads_ok : ∀ t s, stacks α !! t = Some s → thread_ok σ t s;
  fibers_ok : ∀ f s, status α !! f = Some s → fiber_ok σ α f s;
  stacked : ∀ t s f, stacks α !! t = Some s → f ∈ frames s → is_Some (status α !! f);
  once : ∀ t u s s' f, stacks α !! t = Some s → stacks α !! u = Some s' →
    f ∈ frames s → f ∈ frames s' → t = u;
  mains_apart : ∀ t u s s', stacks α !! t = Some s → stacks α !! u = Some s' →
    main_of s = main_of s' → t = u;
  mains_not_fibers : ∀ t s, stacks α !! t = Some s → status α !! main_of s = None;
  nothing_else : ∀ f o, fibers σ !! f = Some o →
    is_Some (status α !! f) ∨ ∃ t s, stacks α !! t = Some s ∧ main_of s = f;
}.

Lemma off_stacks_spec f α : off_stacks f α = true ↔ off f α.
Proof. unfold off_stacks, off. rewrite bool_decide_eq_true. unfold map_Forall. done. Qed.

Lemma unused_spec f α :
  unused f α = true ↔ status α !! f = None ∧ ∀ t s, stacks α !! t = Some s → main_of s ≠ f.
Proof. unfold unused. rewrite andb_true_iff, !bool_decide_eq_true. done. Qed.

(** ** What does not concern a thread does not disturb it *)

Lemma chain_frame σ σ' t m fs :
  (∀ g, g ∈ fs → fibers σ' !! g = fibers σ !! g) →
  (∀ p k, owner k ∈ fs → suspended σ !! p = Some k → suspended σ' !! p = Some k) →
  chain σ t m fs → chain σ' t m fs.
Proof.
  induction fs as [|f fs IH]; intros Hf Hk; [done|]. intros [(o&Ho&Hp) Hc]. split.
  - exists o. rewrite Hf by set_solver. split; [done|]. apply Hk; [set_solver|done].
  - apply IH; [|intros p k Hin; apply Hk; set_solver|done]. intros g Hg. apply Hf. set_solver.
Qed.

Lemma thread_frame σ σ' t s :
  threads σ' !! t = threads σ !! t →
  (∀ g, g ∈ frames s → fibers σ' !! g = fibers σ !! g) →
  fibers σ' !! main_of s = fibers σ !! main_of s →
  (∀ p k, owner k ∈ frames s → suspended σ !! p = Some k → suspended σ' !! p = Some k) →
  thread_ok σ t s → thread_ok σ' t s.
Proof.
  intros Ht Hf Hm Hk ((h&Hh&Hmain&Hw)&Hc&He&Hn). split_and!; [|by apply (chain_frame σ)| |done].
  - exists h. rewrite Ht. split_and!; [done..|]. unfold at_work in *. destruct (frames s) as [|f fs] eqn:Ef.
    + by rewrite Hm.
    + rewrite Hm, Hf by set_solver. done.
  - intros g o Hg. rewrite Hf; [by apply He|]. destruct (frames s); [done|]. by apply list_elem_of_further.
Qed.

(** One step concerns one fiber, and at most one thread. *)
Lemma implements_step σ α σ' α' (T : option tid) f :
  implements σ α →
  (∀ g, g ≠ f → status α' !! g = status α !! g) →
  (∀ u, T ≠ Some u → stacks α' !! u = stacks α !! u) →
  (∀ g, g ≠ f → (∀ t s, T = Some t → stacks α !! t = Some s → main_of s ≠ g) →
    fibers σ' !! g = fibers σ !! g) →
  (∀ u, T ≠ Some u → threads σ' !! u = threads σ !! u) →
  (∀ p k, owner k ≠ f → suspended σ !! p = Some k → suspended σ' !! p = Some k) →
  (∀ u s, T ≠ Some u → stacks α !! u = Some s → f ∉ frames s ∧ main_of s ≠ f) →
  (∀ t, T = Some t → ∃ s s', stacks α !! t = Some s ∧ stacks α' !! t = Some s' ∧
    main_of s' = main_of s ∧ main_of s ≠ f ∧ thread_ok σ' t s' ∧
    (∀ g, g ≠ f → g ∈ frames s ↔ g ∈ frames s') ∧ (f ∈ frames s' → is_Some (status α' !! f))) →
  (∀ s, status α' !! f = Some s → fiber_ok σ' α' f s) →
  (∀ o, fibers σ' !! f = Some o → is_Some (status α' !! f)) →
  implements σ' α'.
Proof.
  intros [Ht Hf Hst Hon Hma Hmf Hno] Est Esk Efi Eth Ek Hothers HT Hff Hfo.
  assert (∀ t s', stacks α' !! t = Some s' → ∃ s, stacks α !! t = Some s ∧ main_of s' = main_of s ∧
    (∀ g, g ≠ f → g ∈ frames s' → g ∈ frames s) ∧ (f ∈ frames s' → T = Some t)) as Hback.
  { intros t s' Hs'. destruct (decide (T = Some t)) as [->|Hne].
    - destruct (HT t eq_refl) as (s&s1&Hs&Hs1&Hm&_&_&Hin&_). rewrite Hs1 in Hs'. injection Hs' as ->.
      exists s. split_and!; [done..| |done]. intros g Hg. by apply Hin.
    - rewrite Esk in Hs' by done. exists s'. split_and!; [done..|].
      intros Hin. exfalso. by apply (proj1 (Hothers t s' Hne Hs')). }
  assert (∀ t s, stacks α !! t = Some s → main_of s ≠ f) as Hmain.
  { intros t s Hs. destruct (decide (T = Some t)) as [E|Hne]; [|by apply (Hothers t)].
    destruct (HT t E) as (s0&_&Hs0&_&_&Hm&_). congruence. }
  assert (∀ g, is_Some (status α !! g) → ∀ t s, stacks α !! t = Some s → main_of s ≠ g) as Hnm.
  { intros g Hg t s Hs <-. rewrite (Hmf t s Hs) in Hg. by destruct Hg. }
  split.
  - intros t s' Hs'. destruct (decide (T = Some t)) as [E|Hne].
    { destruct (HT t E) as (s&s1&_&Hs1&_&_&Hok&_). by simplify_eq. }
    rewrite Esk in Hs' by done. destruct (Hothers t s' Hne Hs') as [Hout Hmo].
    apply (thread_frame σ); [by apply Eth| | | |by apply Ht].
    + intros g Hg. apply Efi; [set_solver|]. intros u s _. apply Hnm. by apply (Hst t s').
    + apply Efi; [done|]. intros u s -> Hs E. apply Hne. f_equal. by apply (Hma u t s s').
    + intros p k Hin. apply Ek. set_solver.
  - intros g x Hx. destruct (decide (g = f)) as [->|Hne]; [by apply Hff|].
    rewrite Est in Hx by done. destruct (Hf g x Hx) as (o&Ho&Hs&Htop&Hoff).
    exists o. rewrite Efi; [|done|intros t s _; apply Hnm; eauto].
    split_and!; [done..|]. intros Hoff'. destruct Hoff as (k&Hk&Hp).
    + intros t s Hs1 Hin. destruct (decide (T = Some t)) as [->|Hnt].
      * destruct (HT t eq_refl) as (s0&s1&Hs0&Hs1'&_&_&_&Hiff&_). simplify_eq.
        apply (Hoff' t s1 Hs1'). by apply Hiff.
      * apply (Hoff' t s); [by rewrite Esk|done].
    + exists k. split; [done|]. apply Ek; [|done]. destruct (state_ o); naive_solver.
  - intros t s' g Hs' Hin. destruct (Hback t s' Hs') as (s&Hs&_&Hfr&Hft).
    destruct (decide (g = f)) as [->|Hne].
    + destruct (HT t (Hft Hin)) as (s0&s1&_&Hs1&_&_&_&_&Hsome). simplify_eq. auto.
    + rewrite Est by done. eauto.
  - intros t u s s' g Hs Hs' Hin Hin'.
    destruct (Hback t s Hs) as (s0&Hs0&_&Hfr&Hft). destruct (Hback u s' Hs') as (s0'&Hs0'&_&Hfr'&Hft').
    destruct (decide (g = f)) as [->|Hne]; [|eauto]. specialize (Hft Hin). specialize (Hft' Hin'). congruence.
  - intros t u s s' Hs Hs' E.
    destruct (Hback t s Hs) as (s0&Hs0&E0&_). destruct (Hback u s' Hs') as (s0'&Hs0'&E0'&_).
    apply (Hma t u s0 s0'); congruence.
  - intros t s Hs. destruct (Hback t s Hs) as (s0&Hs0&E0&_). rewrite E0, Est; eauto.
  - intros g o Ho. destruct (decide (g = f)) as [->|Hne]; [left; eauto|].
    rewrite Est by done.
    assert (is_Some (fibers σ !! g) ∨ ∃ t s, T = Some t ∧ stacks α !! t = Some s ∧ main_of s = g) as [[o' Ho']|(t&s&HTt&Hs&E)].
    { destruct T as [t|]; [|left; rewrite Efi in Ho by done; eauto].
      destruct (stacks α !! t) as [s|] eqn:Hs; [destruct (decide (main_of s = g)); [right; eauto|]|];
        left; rewrite Efi in Ho; [by eauto|done|intros; simplify_eq; done|by eauto|done|intros; simplify_eq]. }
    + destruct (Hno g o' Ho') as [?|(t&s&Hs&E)]; [by left|right].
      destruct (decide (T = Some t)) as [->|Hnt].
      * destruct (HT t eq_refl) as (s0&s1&Hs0&Hs1&Em&_). simplify_eq. exists t, s1. done.
      * exists t, s. by rewrite Esk.
    + right. destruct (HT t HTt) as (s0&s1&Hs0&Hs1&Em&_). simplify_eq. by exists t, s1.
Qed.

(** ** Each operation *)

Lemma at_work_running σ t h s :
  at_work σ t h s → leaving s = false → control_ h = Running (who_of t (frames s)).
Proof.
  unfold at_work. destruct (frames s) as [|f fs]; [naive_solver|].
  intros (_&_&o&_&H) Hl. rewrite Hl in H. by destruct H.
Qed.

(** [GetThis] answers the innermost fiber, and changes at most the main fiber of the
    thread. *)
Lemma GetThis_spec σ t h s :
  threads σ !! t = Some h → main_ h = main_of s → at_work σ t h s →
  ∃ σ1, GetThis t h σ = (fid_of (main_of s) (frames s), σ1) ∧
    threads σ1 !! t = Some (mkThread (Some (fid_of (main_of s) (frames s))) (main_of s) (control_ h)) ∧
    (∀ u, u ≠ t → threads σ1 !! u = threads σ !! u) ∧
    fibers σ1 !! main_of s = Some main_fiber ∧
    (∀ g, g ≠ main_of s → fibers σ1 !! g = fibers σ !! g) ∧
    suspended σ1 = suspended σ.
Proof.
  intros Hh Hm Hw. unfold GetThis. destruct h as [c m ctl]. cbn in *. subst m.
  unfold at_work in Hw. cbn [t_cur control_] in Hw.
  destruct (frames s) as [|f fs]; cbn [fid_of].
  - destruct Hw as (_&_&[[-> Hf]|[-> Hf]]).
    + eexists. split; [reflexivity|]. cbn. rewrite lookup_alter_eq, Hh, lookup_insert_eq. split_and!; try done.
      * intros u Hu. by rewrite lookup_alter_ne.
      * intros g Hg. by rewrite lookup_insert_ne.
    + eexists. by split_and!.
  - destruct Hw as (->&Hf&_). eexists. by split_and!.
Qed.

Lemma switch_to σ t to vp own here k :
  suspended σ !! to = Some k →
  switch t to vp own here σ =
    land t k (mkTransfer own (Zpos vp)) (set_suspended (<[own := here]> (delete to (suspended σ))) σ).
Proof. intros H. unfold switch, jump_fcontext. by rewrite H. Qed.

(** A jump between contexts of one fiber keeps those of the others. *)
Lemma jump_keeps (C : gmap Z continuation) to own here k f p k' :
  C !! to = Some k → owner k = f → C !! own = None →
  owner k' ≠ f → C !! p = Some k' → (<[own := here]> (delete to C)) !! p = Some k'.
Proof. intros. rewrite lookup_insert_ne, lookup_delete_ne; congruence. Qed.

(** What is known of a thread and its stack, unpacked. *)
Lemma thread_facts σ α t s :
  implements σ α → stacks α !! t = Some s →
  ∃ h, threads σ !! t = Some h ∧ main_ h = main_of s ∧ at_work σ t h s ∧
    chain σ t (main_of s) (frames s) ∧
    (∀ g o, g ∈ tail (frames s) → fibers σ !! g = Some o → state_ o = Fiber.EXEC) ∧
    NoDup (frames s) ∧ main_of s ∉ frames s.
Proof.
  intros HR Hs. destruct (threads_ok _ _ HR t s Hs) as ((h&?&?&?)&?&?&?). exists h. split_and!; try done.
  intros Hin. destruct (stacked _ _ HR t s _ Hs Hin) as [x Hx]. by rewrite (mains_not_fibers _ _ HR t s Hs) in Hx.
Qed.

(** The fibers of a stack that is not leaving are all in EXEC. *)
Lemma stack_running σ t h s g o :
  at_work σ t h s → leaving s = false →
  (∀ g o, g ∈ tail (frames s) → fibers σ !! g = Some o → state_ o = Fiber.EXEC) →
  g ∈ frames s → fibers σ !! g = Some o → state_ o = Fiber.EXEC.
Proof.
  unfold at_work. destruct (frames s) as [|f fs]; [intros _ _ _ Hin; by apply elem_of_nil in Hin|].
  intros (_&_&o'&Ho'&H) Hl Htail [->|Hin]%elem_of_cons Ho; [|by apply (Htail g)].
  rewrite Hl in H. destruct H as [_ H]. congruence.
Qed.

(** Fibers on other threads, and their main fibers, are not the ones of a step. *)
Lemma others_apart σ α t f :
  implements σ α → is_Some (status α !! f) →
  (off f α ∨ ∃ s, stacks α !! t = Some s ∧ f ∈ frames s) →
  ∀ u s, Some t ≠ Some u → stacks α !! u = Some s → f ∉ frames s ∧ main_of s ≠ f.
Proof.
  intros HR [x Hx] Hf u s Hne Hs. split.
  - intros Hin. destruct Hf as [Hoff|(s'&Hs'&Hin')]; [by apply (Hoff u s)|].
    apply Hne. f_equal. exact (once _ _ HR t u s' s f Hs' Hs Hin' Hin).
  - intros <-. by rewrite (mains_not_fibers _ _ HR u s Hs) in Hx.
Qed.

(** The landing of [resume] on the stack of a fiber: the first time in [entry], later behind the
    jump of [yield_to]. *)
Lemma resumed_fiber_runs t f own here k o c m ctl σ :
  k = InEntry f ∨ k = InYield f → fibers σ !! f = Some o → threads σ !! t = Some (mkThread c m ctl) →
  ∃ σ', land t k (mkTransfer own (Zpos f))
      (set_suspended (<[own := here]> (delete (ctx_ o) (suspended σ)))
        (at_fiber (with_state Fiber.EXEC) f (SetThis f t σ))) = inr σ' ∧
    fibers σ' !! f = Some (mkFiber Fiber.EXEC (ctx_ o) own (top o)) ∧
    (∀ g, g ≠ f → fibers σ' !! g = fibers σ !! g) ∧
    threads σ' !! t = Some (mkThread (Some f) m (Running (Body f))) ∧
    (∀ u, u ≠ t → threads σ' !! u = threads σ !! u) ∧
    suspended σ' = <[own := here]> (delete (ctx_ o) (suspended σ)).
Proof.
  intros [-> | ->] Ho Ht; eexists; (split; [reflexivity|]); cbn;
    rewrite !lookup_alter_eq, Ht, Ho; (split_and!; [done| |done| |done]);
    intros v Hv; by rewrite !lookup_alter_ne by congruence.
Qed.

Lemma resume_simulates σ α α' t f own :
  implements σ α → suspended σ !! own = None → astep (LResume t f own) α = Some α' →
  ∃ σ', resume t f own σ = inr σ' ∧ implements σ' α'.
Proof.
  intros HR Hown. cbn [astep]. destruct (stacks α !! t) as [[fs [] m]|] eqn:Hs; try done.
  destruct (status α !! f) as [x|] eqn:Hx; [|done].
  destruct (off_stacks f α) eqn:Hoff; [|done]. apply off_stacks_spec in Hoff.
  destruct (resumable x) eqn:Hres; [|done]. intros [= <-].
  destruct (thread_facts _ _ _ _ HR Hs) as (h&Hh&Hmain&Hw&Hc&Htail&Hnd&Hmf). cbn [frames main_of leaving] in *.
  destruct (fibers_ok _ _ HR f x Hx) as (o&Ho&Hst&Htop&Has). destruct (Has Hoff) as (k&Hk&Hp).
  assert (f ∉ fs) as Hffs by exact (Hoff t _ Hs).
  assert (f ≠ m) as Hfm.
  { intros ->. pose proof (mains_not_fibers _ _ HR t _ Hs) as H. cbn in H. congruence. }
  destruct (GetThis_spec σ t h (mkStack fs false m) Hh Hmain Hw) as (σ1&Hg&Ht1&Htu&Hm1&Hfu&Hsu). cbn [frames main_of] in *.
  unfold resume. rewrite Hh, (at_work_running _ _ _ _ Hw eq_refl), Hg, (Hfu f Hfm), Ho.
  rewrite bool_decide_eq_false_2 by (destruct fs; set_solver). rewrite Hst, Hres. cbn [negb andb frames].
  rewrite (switch_to _ _ _ _ _ _ k) by (cbn; by rewrite Hsu).
  destruct (resumed_fiber_runs t f own (InResume (who_of t fs) f (fid_of m fs)) k o (Some (fid_of m fs)) m
    (control_ h) σ1) as (σ'&Hl&Hf'&Hg'&Ht'&Hu'&Hs');
    [destruct x; try done; rewrite Hst in Hk; injection Hk as <-; auto|by rewrite Hfu|done|].
  cbn [suspended at_fiber SetThis at_thread]. rewrite Hl, Hsu in *. exists σ'. split; [done|].
  assert (owner k = f) as Hkf by (destruct x; try done; rewrite Hst in Hk; by injection Hk as <-).
  apply (implements_step σ α _ _ (Some t) f); cbn [stacks status set_status set_stack].
  - done.
  - intros g Hg'1. by rewrite lookup_insert_ne.
  - intros u Hu. rewrite lookup_insert_ne; congruence.
  - intros g Hgf Hgm. rewrite Hg', Hfu; [done| |done]. intros ->. by apply (Hgm t _ eq_refl Hs).
  - intros u Hu. rewrite Hu', Htu; congruence.
  - intros p k' Hk'. rewrite Hs'. by apply (jump_keeps _ _ _ _ k f).
  - apply (others_apart σ α t f HR); [eauto|by left].
  - intros u [= <-]. exists (mkStack fs false m), (mkStack (f :: fs) false m).
    rewrite lookup_insert_eq. split_and!; try done.
    + split_and!.
      * eexists. split; [exact Ht'|]. split; [done|]. cbn. split; [done|]. split; [|eauto].
        rewrite Hg'; done.
      * cbn [chain frames main_of]. split.
        -- eexists. split; [exact Hf'|]. cbn. by rewrite Hs', lookup_insert_eq.
        -- apply (chain_frame σ); [| |done].
           ++ intros g Hin. rewrite Hg', Hfu; [done|by intros ->|by intros ->].
           ++ intros p k' Hin. rewrite Hs'. apply (jump_keeps _ _ _ _ k f); [done..|]. by intros Ek; rewrite Ek in Hin.
      * intros g o' Hin Ho'. cbn in Hin. rewrite Hg', Hfu in Ho' by (by intros ->).
        exact (stack_running _ _ _ _ _ _ Hw eq_refl Htail Hin Ho').
      * by apply NoDup_cons.
    + intros g Hne. cbn [frames]. rewrite elem_of_cons. naive_solver.
    + intros _. by rewrite lookup_insert_eq.
  - intros s'. rewrite lookup_insert_eq. intros [= <-]. eexists. split; [exact Hf'|]. split_and!; [done..|].
    intros Hoff'. exfalso. apply (Hoff' t (mkStack (f :: fs) false m)); [apply lookup_insert_eq|by left].
  - intros o' _. by rewrite lookup_insert_eq.
Qed.

(** A fiber that stops, by yielding or for good, up to its jump. *)
Lemma stop_simulates σ α t f fs m h o x e :
  implements σ α → stacks α !! t = Some (mkStack (f :: fs) false m) → threads σ !! t = Some h →
  fibers σ !! f = Some o → ended x = e → e || yielded x →
  implements (set_control (Leaving f e) t (at_fiber (with_state x) f σ))
    (set_status f x (set_stack t (mkStack (f :: fs) true m) α)).
Proof.
  intros HR Hs Hh Ho He Hx.
  destruct (thread_facts _ _ _ _ HR Hs) as (h'&Hh'&Hmain&Hw&Hc&Htail&Hnd&Hmf).
  rewrite Hh in Hh'. injection Hh' as <-. cbn [frames main_of leaving] in *.
  destruct Hw as (Hcur&Hm&_). cbn [main_of] in *.
  apply not_elem_of_cons in Hmf as [Hmf Hmfs]. apply NoDup_cons in Hnd as [Hffs Hnd].
  destruct (stacked _ _ HR t _ f Hs (list_elem_of_here _ _)) as [y Hy].
  apply (implements_step σ α _ _ (Some t) f); cbn [stacks status set_status set_stack fibers threads suspended
    set_control at_thread at_fiber].
  - done.
  - intros g Hg. by rewrite lookup_insert_ne.
  - intros u Hu. rewrite lookup_insert_ne; congruence.
  - intros g Hgf _. by rewrite lookup_alter_ne.
  - intros u Hu. rewrite lookup_alter_ne; congruence.
  - done.
  - apply (others_apart σ α t f HR); [eauto|right; eexists; split; [exact Hs|by left]].
  - intros u [= <-]. exists (mkStack (f :: fs) false m), (mkStack (f :: fs) true m).
    rewrite lookup_insert_eq. split_and!; try done.
    + split_and!.
      * eexists. cbn. rewrite lookup_alter_eq, Hh. split; [reflexivity|]. split; [done|]. cbn. split; [done|].
        rewrite lookup_alter_ne by done. split; [done|].
        eexists. rewrite lookup_alter_eq, Ho. split; [reflexivity|]. cbn. by rewrite He.
      * cbn [chain frames main_of]. destruct Hc as [(o'&Ho'&Hp) Hc]. split.
        -- eexists. cbn. rewrite lookup_alter_eq, Ho. split; [reflexivity|]. cbn. congruence.
        -- apply (chain_frame σ); [|done|done]. intros g Hin. cbn. rewrite lookup_alter_ne; [done|].
           by intros ->.
      * intros g o' Hin. cbn in *. rewrite lookup_alter_ne; [by apply Htail|]. by intros ->.
      * by apply NoDup_cons.
    + intros _. rewrite lookup_insert_eq. eauto.
  - intros s'. rewrite lookup_insert_eq. intros [= <-]. destruct (fibers_ok _ _ HR f y Hy) as (o'&Ho'&_&Htop&_).
    rewrite Ho in Ho'. injection Ho' as <-.
    eexists. cbn. rewrite lookup_alter_eq, Ho. split; [reflexivity|]. split_and!; [done..|].
    intros Hoff'. exfalso. apply (Hoff' t (mkStack (f :: fs) true m)); [apply lookup_insert_eq|by left].
  - intros o' _. rewrite lookup_insert_eq. eauto.
Qed.

(** The thread of a running fiber. *)
Lemma running_fiber σ α t f fs m :
  implements σ α → stacks α !! t = Some (mkStack (f :: fs) false m) →
  ∃ h o, threads σ !! t = Some h ∧ control_ h = Running (Body f) ∧ t_cur h = Some f ∧
    fibers σ !! f = Some o ∧ state_ o = Fiber.EXEC ∧ is_Some (top o).
Proof.
  intros HR Hs. destruct (thread_facts _ _ _ _ HR Hs) as (h&Hh&_&Hw&_).
  destruct Hw as (Hcur&_&o&Ho&Hctl&Hst). destruct (stacked _ _ HR t _ f Hs (list_elem_of_here _ _)) as [y Hy].
  destruct (fibers_ok _ _ HR f y Hy) as (o'&Ho'&_&Htop&_). cbn [leaving] in *.
  exists h, o. split_and!; try done. congruence.
Qed.

Lemma yield_simulates σ α α' t s :
  implements σ α → astep (LYield t s) α = Some α' →
  ∃ σ', yield_to t s σ = inr σ' ∧ implements σ' α'.
Proof.
  intros HR. cbn [astep]. destruct (stacks α !! t) as [[[|f fs] [] m]|] eqn:Hs; try done.
  destruct (yielded s) eqn:Hy; [|done]. intros [= <-].
  destruct (running_fiber _ _ _ _ _ _ HR Hs) as (h&o&Hh&Hctl&Hcur&Ho&Hst&Htop).
  unfold yield_to, GetThis. rewrite Hh, Hctl, Hcur, Ho, Hst, !bool_decide_eq_true_2 by done.
  eexists. split; [reflexivity|]. apply (stop_simulates σ α t f fs m h o s false); try done.
  - unfold yielded in Hy. unfold ended. by destruct s.
  - by rewrite Hy.
Qed.

Lemma finish_simulates σ α α' t thrown :
  implements σ α → astep (LFinish t thrown) α = Some α' →
  ∃ σ', finish t thrown σ = inr σ' ∧ implements σ' α'.
Proof.
  intros HR. cbn [astep]. destruct (stacks α !! t) as [[[|f fs] [] m]|] eqn:Hs; try done. intros [= <-].
  destruct (running_fiber _ _ _ _ _ _ HR Hs) as (h&o&Hh&Hctl&Hcur&Ho&Hst&Htop).
  unfold finish. rewrite Hh, Hctl.
  eexists. split; [reflexivity|]. apply (stop_simulates σ α t f fs m h o _ true); try done. by destruct thrown.
Qed.

Lemma leave_simulates σ α α' t own :
  implements σ α → suspended σ !! own = None → astep (LLeave t own) α = Some α' →
  ∃ σ', leave t own σ = inr σ' ∧ implements σ' α'.
Proof.
  intros HR Hown. cbn [astep]. destruct (stacks α !! t) as [[[|f fs] [] m]|] eqn:Hs; try done. intros [= <-].
  destruct (thread_facts _ _ _ _ HR Hs) as (h&Hh&Hmain&Hw&Hc&Htail&Hnd&Hmf). cbn [frames main_of leaving] in *.
  destruct Hw as (Hcur&Hm&o&Ho&Hctl&Hx). cbn [main_of leaving] in *.
  apply not_elem_of_cons in Hmf as [Hmf Hmfs]. apply NoDup_cons in Hnd as [Hffs Hnd].
  destruct (stacked _ _ HR t _ f Hs (list_elem_of_here _ _)) as [y Hy].
  destruct (fibers_ok _ _ HR f y Hy) as (o'&Ho'&Hsty&Htop&_). rewrite Ho in Ho'. injection Ho' as <-.
  destruct Hc as [(o'&Ho'&Hp) Hc]. rewrite Ho in Ho'. injection Ho' as <-.
  unfold leave. rewrite Hh, Hctl, Ho, (switch_to _ _ _ _ _ _ _ Hp). cbn [land fctx].
  eexists. split; [reflexivity|].
  set (here := if ended (state_ o) then InRun f else InYield f).
  assert (goes_on f (state_ o) = Some here) as Hhere
    by (subst here; unfold yielded, ended in *; by destruct (state_ o)).
  apply (implements_step σ α _ _ (Some t) f); cbn [stacks status set_status set_stack fibers threads suspended
    resume_returns set_control SetThis at_thread at_fiber set_suspended].
  - done.
  - done.
  - intros u Hu. rewrite lookup_insert_ne; congruence.
  - intros g Hgf _. by rewrite lookup_alter_ne.
  - intros u Hu. rewrite !lookup_alter_ne; congruence.
  - intros p k Hk. apply (jump_keeps _ _ _ _ (InResume (who_of t fs) f (fid_of m fs)) f); done.
  - apply (others_apart σ α t f HR); [eauto|right; eexists; split; [exact Hs|by left]].
  - intros u [= <-]. exists (mkStack (f :: fs) true m), (mkStack fs false m).
    rewrite lookup_insert_eq. split_and!; try done.
    + split_and!; cbn [frames main_of].
      * eexists. cbn. rewrite !lookup_alter_eq, Hh. split; [reflexivity|]. split; [done|]. unfold at_work. cbn.
        rewrite lookup_alter_ne by done. destruct fs as [|g gs]; [by auto|]. split_and!; [done..|].
        cbn in Hc, Htail. destruct Hc as [(o'&Ho'&_) _]. exists o'.
        apply not_elem_of_cons in Hffs as [Hgf _].
        rewrite lookup_alter_ne by done. split_and!; [done..|]. by apply (Htail g); [by left|].
      * apply (chain_frame σ); [| |done].
        -- intros g Hin. cbn. rewrite lookup_alter_ne; [done|]. by intros ->.
        -- intros p k Hin. apply (jump_keeps _ _ _ _ (InResume (who_of t fs) f (fid_of m fs)) f); [done..|].
           by intros E; rewrite E in Hin.
      * intros g o' Hin. cbn in *. assert (g ∈ fs) as Hin' by (destruct fs; [done|by right]).
        rewrite lookup_alter_ne; [by apply Htail|]. by intros ->.
      * done.
    + intros g Hne. cbn [frames]. rewrite elem_of_cons. naive_solver.
  - intros s' Hs'. rewrite Hy in Hs'. injection Hs' as <-.
    eexists. cbn. rewrite lookup_alter_eq, Ho. split; [reflexivity|]. split_and!; [done..|].
    intros _. exists here. split; [done|]. cbn. apply lookup_insert_eq.
  - intros o' _. eauto.
Qed.

(** A step outside the threads: only the fiber [f] changes, which is on no stack. *)
Lemma implements_fiber σ α σ' α' f :
  implements σ α → off f α → (∀ t s, stacks α !! t = Some s → main_of s ≠ f) →
  stacks α' = stacks α → threads σ' = threads σ →
  (∀ g, g ≠ f → status α' !! g = status α !! g) →
  (∀ g, g ≠ f → fibers σ' !! g = fibers σ !! g) →
  (∀ p k, owner k ≠ f → suspended σ !! p = Some k → suspended σ' !! p = Some k) →
  (∀ s, status α' !! f = Some s → fiber_ok σ' α' f s) →
  (∀ o, fibers σ' !! f = Some o → is_Some (status α' !! f)) →
  implements σ' α'.
Proof.
  intros HR Hoff Hm Esk Eth Est Efi Ek Hff Hfo.
  apply (implements_step σ α _ _ None f); try done; try (intros; by rewrite ?Esk, ?Eth); [auto|].
  intros u s _ Hs. split; [by apply (Hoff u)|eauto].
Qed.

Lemma fiber_not_main σ α f :
  implements σ α → is_Some (status α !! f) → ∀ t s, stacks α !! t = Some s → main_of s ≠ f.
Proof. intros HR [x Hx] t s Hs <-. by rewrite (mains_not_fibers _ _ HR t s Hs) in Hx. Qed.

Lemma create_simulates σ α α' f sp :
  implements σ α → room (LCreate f sp) σ → astep (LCreate f sp) α = Some α' → implements (Create f sp σ) α'.
Proof.
  intros HR Hroom. cbn [astep]. destruct (unused f α) eqn:Hu; [|done]. apply unused_spec in Hu as [Hn Hm].
  intros [= <-]. apply (implements_fiber σ α _ _ f); cbn [Create fibers threads suspended stacks status set_status];
    try done.
  - intros t s Hs Hin. destruct (stacked _ _ HR t s f Hs Hin) as [x Hx]. congruence.
  - intros g Hg. by rewrite lookup_insert_ne.
  - intros g Hg. by rewrite lookup_insert_ne.
  - intros p k _ Hp. unfold make_fcontext. rewrite lookup_insert_ne; [done|]. intros <-. cbn in Hroom. congruence.
  - intros s. rewrite lookup_insert_eq. intros [= <-]. eexists. cbn. rewrite lookup_insert_eq.
    split_and!; [done..|]. intros _. eexists. split; [reflexivity|]. cbn. apply lookup_insert_eq.
  - intros o _. rewrite lookup_insert_eq. eauto.
Qed.

(** Giving up the context of a fiber at rest. *)
Lemma drop_keeps σ α f o x p k :
  implements σ α → fiber_ok σ α f x → off f α → fibers σ !! f = Some o →
  owner k ≠ f → suspended σ !! p = Some k → delete (ctx_ o) (suspended σ) !! p = Some k.
Proof.
  intros HR (o'&Ho'&_&_&Has) Hoff Ho Hk Hp. rewrite Ho in Ho'. injection Ho' as <-.
  destruct (Has Hoff) as (k'&Hgo&Hp'). rewrite lookup_delete_ne; [done|]. intros <-.
  rewrite Hp in Hp'. injection Hp' as <-. apply Hk. by destruct (state_ o); simplify_eq/=.
Qed.

Lemma reset_simulates σ α α' f :
  implements σ α → room (LReset f) σ → astep (LReset f) α = Some α' →
  ∃ σ', reset f σ = inr σ' ∧ implements σ' α'.
Proof.
  intros HR Hroom. cbn [astep]. destruct (status α !! f) as [x|] eqn:Hx; [|done].
  destruct (off_stacks f α) eqn:Hoff; [|done]. apply off_stacks_spec in Hoff.
  destruct (at_rest x) eqn:Hrest; [|done]. intros [= <-].
  pose proof (fibers_ok _ _ HR f x Hx) as Hok. pose proof Hok as (o&Ho&Hst&[sp Hsp]&_).
  unfold reset. rewrite Ho, Hsp, Hst, Hrest. eexists. split; [reflexivity|].
  pose proof (Hroom o sp Ho Hsp) as Hfree.
  apply (implements_fiber σ α _ _ f); cbn [fibers threads suspended stacks status set_status]; try done.
  - apply (fiber_not_main σ); eauto.
  - intros g Hg. by rewrite lookup_insert_ne.
  - intros g Hg. by rewrite lookup_insert_ne.
  - intros p k Hk Hp. pose proof (drop_keeps _ _ _ _ _ _ _ HR Hok Hoff Ho Hk Hp) as Hp'.
    unfold make_fcontext. rewrite lookup_insert_ne; [done|]. intros <-. congruence.
  - intros s. rewrite lookup_insert_eq. intros [= <-]. eexists. cbn. rewrite lookup_insert_eq.
    split_and!; [done|done|done|]. intros _. eexists. split; [reflexivity|]. cbn. apply lookup_insert_eq.
  - intros o' _. rewrite lookup_insert_eq. eauto.
Qed.

Lemma destroy_simulates σ α α' f :
  implements σ α → astep (LDestroy f) α = Some α' →
  ∃ σ', destroy f σ = inr σ' ∧ implements σ' α'.
Proof.
  intros HR. cbn [astep]. destruct (status α !! f) as [x|] eqn:Hx; [|done].
  destruct (off_stacks f α) eqn:Hoff; [|done]. apply off_stacks_spec in Hoff.
  destruct (at_rest x) eqn:Hrest; [|done]. intros [= <-].
  pose proof (fibers_ok _ _ HR f x Hx) as Hok. pose proof Hok as (o&Ho&Hst&_).
  unfold destroy. rewrite Ho, Hst, Hrest. eexists. split; [reflexivity|].
  apply (implements_fiber σ α _ _ f); cbn [fibers threads suspended stacks status]; try done.
  - apply (fiber_not_main σ); eauto.
  - intros g Hg. by rewrite lookup_delete_ne.
  - intros g Hg. by rewrite lookup_delete_ne.
  - intros p k Hk Hp. by apply (drop_keeps σ α f o x).
  - intros s. by rewrite lookup_delete_eq.
  - intros o'. by rewrite lookup_delete_eq.
Qed.

Lemma thread_simulates σ α α' t m :
  implements σ α → astep (LThread t m) α = Some α' → implements (begin_thread t m σ) α'.
Proof.
  intros HR. cbn [astep]. destruct (stacks α !! t) eqn:Hs; [done|].
  destruct (unused m α) eqn:Hu; [|done]. apply unused_spec in Hu as [Hn Hm]. intros [= <-].
  assert (fibers σ !! m = None) as Hno.
  { destruct (fibers σ !! m) eqn:Ho; [|done]. destruct (nothing_else _ _ HR _ _ Ho) as [[x Hx]|(u&s&Hu&E)].
    - congruence.
    - by destruct (Hm u s Hu). }
  pose proof HR as [Ht Hf Hst Hon Hma Hmf Hel].
  split; cbn [set_stack stacks status].
  - intros u s [[<- <-]|[Hne Hu]]%lookup_insert_Some.
    + split_and!; [|done|intros g o Hin; by apply elem_of_nil in Hin|apply NoDup_nil_2].
      eexists. cbn. rewrite lookup_insert_eq. split; [reflexivity|]. split; [done|]. cbn. auto.
    + apply (thread_frame σ); [|done..|by apply Ht]. cbn. by rewrite lookup_insert_ne.
  - intros f x Hx. destruct (Hf f x Hx) as (o&Ho&?&?&Has). exists o. split_and!; [done..|].
    intros Hoff. destruct Has as (k&?&?); [|by exists k].
    intros u s Hu. apply (Hoff u). cbn. rewrite lookup_insert_ne; congruence.
  - intros u s f [[<- <-]|[Hne Hu]]%lookup_insert_Some; [intros Hin; by apply elem_of_nil in Hin|eauto].
  - intros u v s s' f [[<- <-]|[Hne Hu]]%lookup_insert_Some [[<- <-]|[Hne' Hv]]%lookup_insert_Some Hin Hin';
      try (by apply elem_of_nil in Hin); try (by apply elem_of_nil in Hin'). eauto.
  - intros u v s s' [[<- <-]|[Hne Hu]]%lookup_insert_Some [[<- <-]|[Hne' Hv]]%lookup_insert_Some E; [done| | |eauto].
    + by destruct (Hm v s' Hv).
    + by destruct (Hm u s Hu).
  - intros u s [[<- <-]|[Hne Hu]]%lookup_insert_Some; eauto.
  - intros f o Ho. destruct (Hel f o Ho) as [?|(u&s&Hu&E)]; [by left|right]. exists u, s.
    rewrite lookup_insert_ne; [done|]. congruence.
Qed.

(** ** Runs *)

Lemma step_simulates l σ α α' :
  implements σ α → room l σ → astep l α = Some α' → ∃ σ', step l σ = inr σ' ∧ implements σ' α'.
Proof.
  intros HR Hroom Ha. destruct l; cbn [step].
  - by apply (resume_simulates σ α).
  - by apply (yield_simulates σ α).
  - by apply (finish_simulates σ α).
  - by apply (leave_simulates σ α).
  - eexists. split; [reflexivity|]. by apply (create_simulates σ α).
  - by apply (reset_simulates σ α).
  - by apply (destroy_simulates σ α).
  - eexists. split; [reflexivity|]. by apply (thread_simulates σ α).
Qed.

Lemma initially : implements initial no_fibers.
Proof. split; cbn; done. Qed.

Lemma run_simulates ls σ α α' :
  implements σ α → roomy ls σ → arun ls α = Some α' → ∃ σ', run ls σ = inr σ' ∧ implements σ' α'.
Proof.
  revert σ α. induction ls as [|l ls IH]; intros σ α HR Hroom; cbn [arun run].
  - intros [= <-]. by exists σ.
  - destruct Hroom as [Hl Hls]. destruct (astep l α) as [α1|] eqn:Ha; [|done].
    destruct (step_simulates l σ α α1 HR Hl Ha) as (σ1&Hs&HR1). rewrite Hs. apply (IH σ1 α1); auto.
Qed.

(** What a thread observes is a function of its stack. *)
Lemma observed_stack σ α t s :
  implements σ α → stacks α !! t = Some s → leaving s = false →
  ∃ c, observed t σ = Some (who_of t (frames s), c) ∧
    (c = Some (fid_of (main_of s) (frames s)) ∨ c = None ∧ frames s = []).
Proof.
  intros HR Hs Hl. destruct (thread_facts _ _ _ _ HR Hs) as (h&Hh&_&Hw&_).
  exists (t_cur h). unfold observed. rewrite Hh, (at_work_running _ _ _ _ Hw Hl). split; [done|].
  unfold at_work in Hw. destruct (frames s) as [|f fs]; [|left; apply Hw].
  destruct Hw as (_&_&[[-> _]|[-> _]]); auto.
Qed.

(** C16: the context pointers of fibers, the current fibers of threads and the suspended
    contexts implement a stack of fibers per thread: every run that keeps to the
    discipline goes through without a failed assertion or a jump to a stale context -
    fibers resume each other and move between threads at will - and code that runs on
    a thread is that of the innermost fiber of its stack, which is also the thread's
    current fiber; so a fiber that yields or ends returns behind its latest [resume]. *)
Theorem switching_is_calling ls α :
  roomy ls initial → arun ls no_fibers = Some α →
  ∃ σ, run ls initial = inr σ ∧
    (∀ f s, status α !! f = Some s → ∃ o, fibers σ !! f = Some o ∧ state_ o = s) ∧
    ∀ t s, stacks α !! t = Some s → leaving s = false →
      ∃ c, observed t σ = Some (who_of t (frames s), c) ∧
        (c = Some (fid_of (main_of s) (frames s)) ∨ c = None ∧ frames s = []).
Proof.
  intros Hroom Ha. destruct (run_simulates ls initial no_fibers α initially Hroom Ha) as (σ&Hr&HR).
  exists σ. split; [done|]. split.
  - intros f s Hf. destruct (fibers_ok _ _ HR f s Hf) as (o&?&?&_). eauto.
  - intros t s. by apply observed_stack.
Qed.

(** A fiber resumes another, which yields; the first one ends; another thread goes on with the second one. *)
Definition nested : list label :=
  [LThread 1 100; LThread 2 200; LCreate 1 0x10000; LCreate 2 0x20000;
   LResume 1 1 0x5000; LResume 1 2 0xf000; LYield 1 Fiber.HOLD; LLeave 1 0x1f000;
   LFinish 1 false; LLeave 1 0xf000; LResume 2 2 0x7000].

Lemma nested_roomy : roomy nested initial.
Proof.
  repeat (split; [exact I || (vm_compute; reflexivity)|]; intros σ E; vm_compute in E;
    injection E as <-). exact I.
Qed.

Lemma switching_is_calling_witness :
  ∃ σ, run nested initial = inr σ ∧ ∃ c, observed 2 σ = Some (Body 2, c) ∧ (c = Some 2%positive ∨ c = None ∧ [2%positive] = []).
Proof.
  destruct (arun nested no_fibers) as [α|] eqn:E; [|discriminate E].
  destruct (switching_is_calling nested α nested_roomy E) as (σ&Hr&_&Hobs).
  exists σ. split; [exact Hr|]. vm_compute in E. injection E as <-.
  exact (Hobs 2%positive (mkStack [2%positive] false 200) eq_refl eq_refl).
Defined.

(** Without the discipline: between the state [yield_to] sets and the jump back, the pointer of the
    fiber is that of its last suspension, which the jump to it has used up. *)
Example early_resume_is_stale :
  run [LThread 1 100; LThread 2 200; LCreate 1 0x10000; LResume 1 1 0x5000; LYield 1 Fiber.HOLD;
       LResume 2 1 0x7000] initial = inl StaleContext.
Proof. vm_compute. reflexivity. Qed.

(** ** Lifetime *)

Lemma kept_by_thread f t h σ : threads σ !! t = Some h → t_cur h = Some f → kept f σ = true.
Proof. intros Hh Hc. unfold kept. rewrite bool_decide_eq_true_2; [done|]. by exists t, h. Qed.

Lemma kept_by_frame f p k σ : suspended σ !! p = Some k → f ∈ local_refs k → kept f σ = true.
Proof.
  intros Hp Hf. unfold kept. rewrite (bool_decide_eq_true_2 (map_Exists (λ _ k, f ∈ local_refs k) _)).
  - apply orb_true_r.
  - by exists p, k.
Qed.

(** Every fiber of a stack is held: the innermost by the thread, the others by the
    [resume] they are in. *)
Lemma stack_kept σ α t s f :
  implements σ α → stacks α !! t = Some s → f ∈ frames s → kept f σ = true.
Proof.
  intros HR Hs Hin. destruct (thread_facts _ _ _ _ HR Hs) as (h&Hh&_&Hw&Hc&_).
  unfold at_work in Hw. destruct (frames s) as [|g fs]; [by apply elem_of_nil in Hin|].
  destruct Hw as [Hcur _]. apply elem_of_cons in Hin as [->|Hin]; [by apply (kept_by_thread _ t h)|].
  clear Hcur. revert g Hc. induction fs as [|g' fs IH]; intros g Hc; [by apply elem_of_nil in Hin|].
  destruct Hc as [(o&_&Hp) Hc]. apply elem_of_cons in Hin as [->|Hin]; [|by apply (IH Hin g')].
  apply (kept_by_frame _ _ _ _ Hp). cbn. by left.
Qed.

(** A suspended fiber holds itself. *)
Lemma yielded_kept σ α f s :
  implements σ α → status α !! f = Some s → off f α → yielded s = true → kept f σ = true.
Proof.
  intros HR Hf Hoff Hy. destruct (fibers_ok _ _ HR f s Hf) as (o&_&Hst&_&Has).
  destruct (Has Hoff) as (k&Hk&Hp). apply (kept_by_frame _ _ _ _ Hp). rewrite Hst in Hk.
  destruct s; try done; injection Hk as <-; by left.
Qed.

(** C17: the pointers threads and frames hold are enough: a fiber nothing in the library holds
    is on no stack and at rest, so that when the last pointer outside goes away its
    destructor does not fail its assertion, and frees no stack that is in use. *)
Theorem unheld_fiber_is_at_rest ls α σ f s :
  roomy ls initial → arun ls no_fibers = Some α → run ls initial = inr σ →
  status α !! f = Some s → kept f σ = false →
  off_stacks f α = true ∧ at_rest s = true ∧ ∃ σ', destroy f σ = inr σ'.
Proof.
  intros Hroom Ha Hr Hs Hk. destruct (run_simulates ls initial no_fibers α initially Hroom Ha) as (σ'&Hr'&HR).
  rewrite Hr in Hr'. injection Hr' as <-.
  assert (off f α) as Hoff.
  { intros t st Hst Hin. by rewrite (stack_kept _ _ _ _ _ HR Hst Hin) in Hk. }
  assert (at_rest s = true) as Hrest.
  { destruct (fibers_ok _ _ HR f s Hs) as (o&_&Hst&_&Has). destruct (Has Hoff) as (k&Hgo&_). rewrite Hst in Hgo.
    destruct s; try done; pose proof (yielded_kept _ _ _ _ HR Hs Hoff eq_refl); congruence. }
  split; [by apply off_stacks_spec|]. split; [done|].
  destruct (destroy_simulates σ α (mkModel (stacks α) (delete f (status α))) f HR) as (σ'&Hd&_); [|by exists σ'].
  cbn [astep]. by rewrite Hs, (proj2 (off_stacks_spec f α) Hoff), Hrest.
Qed.

Lemma unheld_fiber_is_at_rest_witness :
  ∃ σ, run nested initial = inr σ ∧ ∃ σ', destroy 1 σ = inr σ'.
Proof.
  destruct (arun nested no_fibers) as [α|] eqn:E; [|discriminate E].
  destruct (run nested initial) as [|σ] eqn:Hr; [discriminate Hr|].
  exists σ. split; [done|].
  refine (proj2 (proj2 (unheld_fiber_is_at_rest nested α σ 1 Fiber.TERM nested_roomy E Hr _ _))).
  - vm_compute in E. injection E as <-. reflexivity.
  - vm_compute in Hr. injection Hr as <-. vm_compute. reflexivity.
Defined.

(** ** The first frame of a fiber *)

(** The frame [make_fcontext] lays out for a new fiber is the upper end of its stack, which
    has at least 16 KiB less the frame below it - except for a requested or configured
    size within 63 bytes of 2^32: then the stack has no bytes and the frame lies below
    the allocated memory. *)
Theorem first_frame_in_stack stack stack_size configured :
  0 <= stack_size < 2 ^ 32 → 0 <= configured < 2 ^ 32 → stack mod Fiber.kStackAlign = 0 →
  let wanted := Z.max Fiber.kMinStackSize (if stack_size =? 0 then configured else stack_size) in
  let bytes := Fiber.stack_size_ (Fiber.Create 0 None stack_size configured) in
  let a := ContextSwitch.fresh_area (stack + bytes) in
  (wanted <= 2 ^ 32 - 64 →
     stack + Fiber.kMinStackSize - ContextSwitch.frame_size <= a ∧
     a + ContextSwitch.frame_size = stack + bytes) ∧
  (2 ^ 32 - 64 < wanted → a + ContextSwitch.frame_size = stack).
Proof.
  intros Hs Hc Hal. cbv zeta.
  pose proof (Fiber.stack_size_rounding stack_size configured Hs Hc) as [H1 H2]. cbv zeta in H1, H2.
  set (bytes := Fiber.stack_size_ _) in *.
  set (wanted := Z.max _ _) in *. assert (Fiber.kMinStackSize <= wanted) as Hmin by lia.
  unfold ContextSwitch.fresh_area. change Fiber.kStackAlign with 64 in *.
  assert (∀ b, b mod 64 = 0 → (stack + b) mod 16 = 0) as Hmod.
  { intros b Hb. pose proof (Z.div_mod stack 64 ltac:(lia)). pose proof (Z.div_mod b 64 ltac:(lia)).
    replace (stack + b) with ((stack / 64 * 4 + b / 64 * 4) * 16) by lia. apply Z.mod_mul. lia. }
  split; intros Hw.
  - destruct (H1 Hw) as [Hb Hb0]. rewrite Hmod by done. lia.
  - rewrite H2, Hmod by done. lia.
Qed.

Lemma first_frame_in_stack_witness :
  let a := ContextSwitch.fresh_area (0x100000 + Fiber.stack_size_ (Fiber.Create 0 None 0 Fiber.kDefaultStackSize)) in
  0x100000 + Fiber.kMinStackSize - ContextSwitch.frame_size <= a.
Proof.
  apply (proj1 (proj1 (first_frame_in_stack 0x100000 0 Fiber.kDefaultStackSize ltac:(done) ltac:(done) eq_refl)
    ltac:(vm_compute; discriminate))).
Defined.

End FiberSwitchProofs.

(** * The layer above

    The two models of fibers agree: what [FiberSwitch] does to the fibers of a disciplined
    program, [Fiber] - on which the schedulers are built - does to the values that
    stand for them, and the context of such a value is absent exactly while the fiber
    is on the stack of a thread. *)
Module FiberLayers.
Import FiberSwitch FiberSwitchProofs.

(** The values of [Fiber] for the fibers of a program. *)
Abbreviation values := (gmap fid Fiber.Fiber).

(** The same state; the context is lost while the fiber is on a stack, and stored when it can be
    resumed. *)
Definition agree (F : values) (α : model) : Prop :=
  ∀ f s, status α !! f = Some s → ∃ x, F !! f = Some x ∧ Fiber.state_ x = s ∧
    (¬ off f α → Fiber.ctx_ x = None) ∧
    (off f α → resumable s = true → is_Some (Fiber.ctx_ x)).

(** The operation of [Fiber] behind each step. *)
Inductive follows (α : model) : label → values → values → Prop :=
  | follows_resume t f own F x x' c :
      F !! f = Some x → Fiber.resume x = inr (c, x') →
      follows α (LResume t f own) F (<[f := x']> F)
  | follows_yield t s f fs l m F x x' :
      stacks α !! t = Some (mkStack (f :: fs) l m) → F !! f = Some x → Fiber.yield_to s x = inr x' →
      follows α (LYield t s) F (<[f := x']> F)
  | follows_finish t thrown f fs l m F x :
      stacks α !! t = Some (mkStack (f :: fs) l m) → F !! f = Some x →
      follows α (LFinish t thrown) F (<[f := Fiber.finish thrown x]> F)
  | follows_leave t own f fs l m F x p :
      stacks α !! t = Some (mkStack (f :: fs) l m) → F !! f = Some x →
      follows α (LLeave t own) F (<[f := Fiber.store_context (Some p) x]> F)
  | follows_create f sp id cb stack_size configured F :
      follows α (LCreate f sp) F (<[f := Fiber.Create id cb stack_size configured]> F)
  | follows_reset f cb F x x' :
      F !! f = Some x → Fiber.reset cb x = inr x' → follows α (LReset f) F (<[f := x']> F)
  | follows_destroy f F x :
      F !! f = Some x → Fiber.destroy x = inr tt → follows α (LDestroy f) F (delete f F)
  | follows_thread t m F : follows α (LThread t m) F F.

(** ** One fiber changes *)

Lemma agree_insert F α α' f x' s' :
  agree F α →
  (∀ g, g ≠ f → status α' !! g = status α !! g) →
  (∀ g, g ≠ f → off g α' ↔ off g α) →
  status α' !! f = Some s' → Fiber.state_ x' = s' →
  (¬ off f α' → Fiber.ctx_ x' = None) → (off f α' → resumable s' = true → is_Some (Fiber.ctx_ x')) →
  agree (<[f := x']> F) α'.
Proof.
  intros HF Est Eoff Hs Hx H1 H2 g s Hg. destruct (decide (g = f)) as [->|Hne].
  - rewrite Hs in Hg. injection Hg as <-. exists x'. rewrite lookup_insert_eq. by split_and!.
  - rewrite Est in Hg by done. destruct (HF g s Hg) as (x&?&?&?&?). exists x.
    rewrite lookup_insert_ne, (Eoff g Hne) by done. by split_and!.
Qed.

(** A stack that changes at most by the fiber [f]. *)
Lemma off_frame α f t s s' st g :
  stacks α !! t = Some s → (∀ h, h ≠ f → h ∈ frames s ↔ h ∈ frames s') → g ≠ f →
  off g (mkModel (<[t := s']> (stacks α)) st) ↔ off g α.
Proof.
  intros Hs Hin Hg. split.
  - intros H u v Hu. destruct (decide (u = t)) as [->|Hne].
    + rewrite Hs in Hu. injection Hu as <-. rewrite (Hin g Hg). apply (H t). cbn. apply lookup_insert_eq.
    + apply (H u). cbn. by rewrite lookup_insert_ne.
  - intros H u v. cbn. intros [[<- <-]|[? ?]]%lookup_insert_Some; [|by apply (H u)].
    rewrite <- (Hin g Hg). by apply (H t).
Qed.

Lemma on_stack α t s f st : f ∈ frames s → ¬ off f (mkModel (<[t := s]> (stacks α)) st).
Proof. intros Hin H. apply (H t s); [apply lookup_insert_eq|done]. Qed.

Lemma head_on α t f fs l m : stacks α !! t = Some (mkStack (f :: fs) l m) → ¬ off f α.
Proof. intros Hs H. apply (H t _ Hs). by left. Qed.

(** The state of the innermost fiber of a stack that is not leaving. *)
Lemma head_status σ α t f fs m :
  implements σ α → stacks α !! t = Some (mkStack (f :: fs) false m) → status α !! f = Some Fiber.EXEC.
Proof.
  intros HR Hs. destruct (running_fiber _ _ _ _ _ _ HR Hs) as (h&o&_&_&_&Ho&Hst&_).
  destruct (stacked _ _ HR t _ f Hs (list_elem_of_here _ _)) as [y Hy].
  destruct (fibers_ok _ _ HR f y Hy) as (o'&Ho'&Hst'&_). congruence.
Qed.

(** Off again: the fiber was on this stack only. *)
Lemma popped_off σ α t f fs l m st :
  implements σ α → stacks α !! t = Some (mkStack (f :: fs) l m) →
  off f (mkModel (<[t := mkStack fs false m]> (stacks α)) st).
Proof.
  intros HR Hs u v. cbn. intros [[<- <-]|[Hne Hu]]%lookup_insert_Some Hin.
  - destruct (thread_facts _ _ _ _ HR Hs) as (_&_&_&_&_&_&Hnd&_). cbn in Hnd, Hin. by apply NoDup_cons in Hnd as [? _].
  - apply Hne. exact (once _ _ HR t u _ _ f Hs Hu (list_elem_of_here _ _) Hin).
Qed.

Lemma resume_agrees σ α F t f own fs m s :
  implements σ α → agree F α → stacks α !! t = Some (mkStack fs false m) → status α !! f = Some s →
  off f α → resumable s = true →
  ∃ F', follows α (LResume t f own) F F' ∧
    agree F' (set_status f Fiber.EXEC (set_stack t (mkStack (f :: fs) false m) α)).
Proof.
  intros HR HF Hs Hf Hoff Hres. destruct (HF f s Hf) as (x&Hx&Hst&_&Hctx).
  destruct (Hctx Hoff Hres) as [p Hp]. eexists. split.
  { eapply (follows_resume α t f own F x); [done|]. unfold Fiber.resume.
    rewrite Hst, Hp. unfold resumable in Hres. by rewrite (proj1 (negb_true_iff _) Hres). }
  apply (agree_insert F α _ f _ Fiber.EXEC); cbn [set_stack set_status status stacks]; try done.
  - intros g Hg. by rewrite lookup_insert_ne.
  - intros g Hg. apply (off_frame α f t _ _ _ _ Hs); [|done]. intros h Hh. cbn. rewrite elem_of_cons. naive_solver.
  - apply lookup_insert_eq.
Qed.

(** A fiber that stops is still on its stack, and its context still lost. *)
Lemma stop_agrees α F t f fs m x s :
  agree F α → stacks α !! t = Some (mkStack (f :: fs) false m) →
  Fiber.state_ x = s → Fiber.ctx_ x = None →
  agree (<[f := x]> F) (set_status f s (set_stack t (mkStack (f :: fs) true m) α)).
Proof.
  intros HF Hs Hst Hc. apply (agree_insert F α _ f _ s); cbn [set_stack set_status status stacks]; try done.
  - intros g Hg. by rewrite lookup_insert_ne.
  - intros g Hg. by apply (off_frame α f t _ _ _ _ Hs).
  - apply lookup_insert_eq.
  - intros Hoff. destruct (on_stack α t (mkStack (f :: fs) true m) f (<[f := s]> (status α))); [by left|done].
Qed.

(** The models of fibers at the level of context pointers and at the level the
    schedulers use agree along every disciplined run: each step is the operation of [Fiber] on the
    value of the fiber concerned, which succeeds, and afterwards the context of a value
    is absent exactly while its fiber is on a stack. *)
Theorem fiber_models_agree σ α α' l F :
  implements σ α → agree F α → astep l α = Some α' → ∃ F', follows α l F F' ∧ agree F' α'.
Proof.
  intros HR HF. destruct l as [t f own|t s|t thrown|t own|f sp|f|f|t m]; cbn [astep].
  - destruct (stacks α !! t) as [[fs [] m]|] eqn:Hs; try done. destruct (status α !! f) as [s|] eqn:Hf; [|done].
    destruct (off_stacks f α) eqn:Hoff; [|done]. destruct (resumable s) eqn:Hres; [|done]. intros [= <-].
    apply off_stacks_spec in Hoff. by apply (resume_agrees σ α F t f own fs m s).
  - destruct (stacks α !! t) as [[[|f fs] [] m]|] eqn:Hs; try done. destruct (yielded s) eqn:Hy; [|done]. intros [= <-].
    destruct (HF f _ (head_status _ _ _ _ _ _ HR Hs)) as (x&Hx&Hst&Hnone&_).
    eexists. split.
    { eapply follows_yield; [done..|]. unfold Fiber.yield_to. by rewrite bool_decide_eq_true_2. }
    apply (stop_agrees α F t f fs m _ s); [done..|]. exact (Hnone (head_on _ _ _ _ _ _ Hs)).
  - destruct (stacks α !! t) as [[[|f fs] [] m]|] eqn:Hs; try done. intros [= <-].
    destruct (HF f _ (head_status _ _ _ _ _ _ HR Hs)) as (x&Hx&Hst&Hnone&_).
    eexists. split; [by eapply follows_finish|].
    apply (stop_agrees α F t f fs m _ _); [done..|]. exact (Hnone (head_on _ _ _ _ _ _ Hs)).
  - destruct (stacks α !! t) as [[[|f fs] [] m]|] eqn:Hs; try done. intros [= <-].
    destruct (stacked _ _ HR t _ f Hs (list_elem_of_here _ _)) as [y Hy].
    destruct (HF f y Hy) as (x&Hx&Hst&_).
    eexists. split; [by eapply (follows_leave α t own f fs true m F x Fiber.Entry)|].
    apply (agree_insert F α _ f _ y); cbn [set_stack status]; try done.
    + intros g Hg. apply (off_frame α f t _ _ _ _ Hs); [|done]. intros h Hh. cbn. rewrite elem_of_cons. naive_solver.
    + intros Hon. destruct (Hon (popped_off σ α t f fs true m (status α) HR Hs)).
  - destruct (unused f α) eqn:Hu; [|done]. intros [= <-].
    eexists. split; [by eapply (follows_create α f sp 0 None 0 0)|].
    apply (agree_insert F α _ f _ Fiber.INIT); cbn [set_status status]; try done.
    + intros g Hg. by rewrite lookup_insert_ne.
    + apply lookup_insert_eq.
    + intros Hon. destruct Hon. intros t s Hs Hin. destruct (stacked _ _ HR t s f Hs Hin) as [x Hx].
      apply unused_spec in Hu as [Hu _]. congruence.
  - destruct (status α !! f) as [s|] eqn:Hf; [|done]. destruct (off_stacks f α) eqn:Hoff; [|done].
    destruct (at_rest s) eqn:Hrest; [|done]. intros [= <-]. apply off_stacks_spec in Hoff.
    destruct (HF f s Hf) as (x&Hx&Hst&_). eexists. split.
    { eapply (follows_reset α f None F x); [done|]. unfold Fiber.reset. rewrite Hst.
      unfold at_rest in Hrest. by rewrite Hrest. }
    apply (agree_insert F α _ f _ Fiber.INIT); cbn [set_status status]; try done.
    + intros g Hg. by rewrite lookup_insert_ne.
    + apply lookup_insert_eq.
  - destruct (status α !! f) as [s|] eqn:Hf; [|done]. destruct (off_stacks f α) eqn:Hoff; [|done].
    destruct (at_rest s) eqn:Hrest; [|done]. intros [= <-]. destruct (HF f s Hf) as (x&Hx&Hst&_).
    eexists. split.
    { eapply (follows_destroy α f F x); [done|]. unfold Fiber.destroy. rewrite Hst.
      destruct (Fiber.stack_size_ x =? 0); [done|]. destruct s; done. }
    intros g s'. cbn. intros [Hne Hg]%lookup_delete_Some. destruct (HF g s' Hg) as (y&?&?&?&?). exists y.
    rewrite lookup_delete_ne by done. by split_and!.
  - destruct (stacks α !! t) eqn:Hs; [done|]. destruct (unused m α); [|done]. intros [= <-].
    exists F. split; [constructor|]. intros g s Hg. destruct (HF g s Hg) as (y&?&?&Hn&Hy). exists y.
    assert (off g (set_stack t (mkStack [] false m) α) ↔ off g α) as ->; [|by split_and!].
    split; intros Ho u v.
    + intros Hu. apply (Ho u). cbn. rewrite lookup_insert_ne; congruence.
    + cbn. intros [[<- <-]|[? ?]]%lookup_insert_Some; [apply not_elem_of_nil|by apply (Ho u)].
Qed.

(** A run of the fibers of a program and a run of their values. *)
Inductive followed : list label → model → values → Prop :=
  | followed_none : followed [] no_fibers ∅
  | followed_step ls l α α' F F' :
      followed ls α F → astep l α = Some α' → follows α l F F' → followed (ls ++ [l]) α' F'.

Lemma arun_snoc ls l α α' :
  arun (ls ++ [l]) α = Some α' → ∃ α1, arun ls α = Some α1 ∧ astep l α1 = Some α'.
Proof.
  revert α. induction ls as [|k ls IH]; intros α; cbn [arun app].
  - destruct (astep l α) as [α1|] eqn:E; [|done]. intros [= <-]. by exists α.
  - destruct (astep k α); [|done]. apply IH.
Qed.

Lemma roomy_app ls ls' σ : roomy (ls ++ ls') σ → roomy ls σ.
Proof.
  revert σ. induction ls as [|l ls IH]; intros σ; cbn [roomy app]; [done|].
  intros [? H]. split; [done|]. intros σ' Hs. by apply IH, H.
Qed.

(** Every disciplined run of context pointers, threads and jumps is followed step by step by
    operations of [Fiber], none of which fails. *)
Theorem disciplined_runs_followed ls α :
  roomy ls initial → arun ls no_fibers = Some α → ∃ F, followed ls α F ∧ agree F α.
Proof.
  revert α. induction ls as [|l ls IH] using rev_ind; intros α Hroom Ha.
  - cbn in Ha. injection Ha as <-. exists ∅. split; [constructor|]. intros f s. by rewrite lookup_empty.
  - destruct (arun_snoc _ _ _ _ Ha) as (α1&Ha1&Hl). pose proof (roomy_app _ _ _ Hroom) as Hroom1.
    destruct (IH α1 Hroom1 Ha1) as (F&HF&Hag).
    destruct (run_simulates ls initial no_fibers α1 initially Hroom1 Ha1) as (σ&_&HR).
    destruct (fiber_models_agree σ α1 α l F HR Hag Hl) as (F'&Hfol&Hag').
    exists F'. split; [|done]. by eapply followed_step.
Qed.

Lemma disciplined_runs_followed_witness :
  ∃ α F x, arun nested no_fibers = Some α ∧ followed nested α F ∧ F !! 2%positive = Some x ∧ Fiber.ctx_ x = None.
Proof.
  destruct (arun nested no_fibers) as [α|] eqn:E; [|discriminate E].
  destruct (disciplined_runs_followed nested α nested_roomy E) as (F&HF&Hag).
  vm_compute in E. injection E as <-. destruct (Hag 2%positive Fiber.EXEC eq_refl) as (x&Hx&_&Hnone&_).
  eexists _, F, x. split; [reflexivity|]. split; [exact HF|]. split; [exact Hx|]. apply Hnone.
  intros H. apply (H 2%positive (mkStack [2%positive] false 200) eq_refl). by left.
Defined.

End FiberLayers.
