(* ===== verification/Scheduler.v ===== *)
(** [Scheduler] ([droplet/src/scheduler/scheduler_task.cc],
    [scheduler_run.cc], [scheduler_lifecycle.cc]): the task queue and the loop
    its threads run, cut at the points where another thread can act - the
    critical section of [getNextTask], the resumption, each call of a callback,
    the change of a fiber's state and the storing of its context. *)

From stdpp Require Import gmap.
From S2P Require Import Prelude Fiber.
Import Fiber.

Module Scheduler.

(** ** The queue *)

(** A fiber or a callback, for the thread [thread_id] or, with -1, for any. *)
Record ScheduleTask := mkTask {
  fiber : option fid;
  cb : option code;
  thread_id : Z;
}.

Abbreviation fibers_t := (gmap fid Fiber).

Definition is_exec (fibers : fibers_t) (f : option fid) : bool :=
  match f with
  | None => false
  | Some f =>
      match fibers !! f with
      | Some x => bool_decide (state_ x = EXEC)
      | None => false
      end
  end.

(** The loop of [getNextTask] on the thread [self]. *)
Fixpoint getNextTask (self : Z) (fibers : fibers_t) (tasks : list ScheduleTask)
    : option (ScheduleTask * list ScheduleTask) :=
  match tasks with
  | [] => None
  | t :: tasks' =>
      let skip :=
        if negb (thread_id t =? -1) && negb (thread_id t =? self) then true
        else is_exec fibers (fiber t) in
      if skip then
        '(out, rest) ← getNextTask self fibers tasks'; Some (out, t :: rest)
      else Some (t, tasks')
  end.

(** ** The threads *)

(** Where the fiber that runs came from: the queue, with its pin, or a
    callback. *)
Inductive origin := FromQueue (pin : Z) | FromCb.

(** Where a thread is in [run]. *)
Inductive phase :=
  | Looping                                        (** before [getNextTask] *)
  | Taken (t : ScheduleTask)                       (** out of the queue, not yet resumed *)
  | Running (f : fid) (k : code) (o : origin)      (** in the callback *)
  | Switching (f : fid) (p : option point) (o : origin)
      (** the state of the fiber is set, its context is not stored *)
  | Back (f : fid) (o : origin)                    (** behind [resume] *)
  | Waiting                                        (** in [idle], in the condition variable *)
  | Woken                                          (** in [idle], behind it *)
  | Exited.

Record thread := mkThread {
  at_ : phase;
  cb_fiber : option fid;
}.

Record world := mkWorld {
  fibers : fibers_t;
  tasks_ : list ScheduleTask;
  stopping_ : bool;
  threads : gmap Z thread;
  s_fiber_id : Z;
  trace : list str;
}.

Definition set_thread (self : Z) (t : thread) (w : world) : world :=
  mkWorld (fibers w) (tasks_ w) (stopping_ w) (<[self := t]> (threads w)) (s_fiber_id w) (trace w).
Definition set_tasks (l : list ScheduleTask) (w : world) : world :=
  mkWorld (fibers w) l (stopping_ w) (threads w) (s_fiber_id w) (trace w).
Definition set_fiber (f : fid) (x : Fiber) (w : world) : world :=
  mkWorld (<[f := x]> (fibers w)) (tasks_ w) (stopping_ w) (threads w) (s_fiber_id w) (trace w).
Definition emit (e : str) (w : world) : world :=
  mkWorld (fibers w) (tasks_ w) (stopping_ w) (threads w) (s_fiber_id w) (trace w ++ [e]).
Definition count_fiber (w : world) : world :=
  mkWorld (fibers w) (tasks_ w) (stopping_ w) (threads w) (s_fiber_id w + 1) (trace w).

(** [schedule]: the new task goes to the end of the queue. *)
Definition schedule (t : ScheduleTask) (w : world) : world := set_tasks (tasks_ w ++ [t]) w.
Definition schedule_fiber (f : fid) (thread_id : Z) : world → world :=
  schedule (mkTask (Some f) None thread_id).
Definition schedule_cb (c : code) (thread_id : Z) : world → world :=
  schedule (mkTask None (Some c) thread_id).

(** The batch form of [schedule]: one critical section for all elements. *)
Definition schedule_range (items : list (fid + code)) (w : world) : world :=
  set_tasks (tasks_ w ++ ((λ i, match i with
    | inl f => mkTask (Some f) None (-1)
    | inr c => mkTask None (Some c) (-1)
    end) <$> items)) w.

(** The part of [stop] before the threads are joined. *)
Definition stop (w : world) : world :=
  mkWorld (fibers w) (tasks_ w) true (threads w) (s_fiber_id w) (trace w).

(** [stop] with its checks: a second call does nothing, and a worker must not
    call it. *)
Definition stop_from (self caller_thread_id_ : Z) (thread_ids_ : list Z) (w : world)
    : fault + world :=
  if stopping_ w then inr w
  else if negb (self =? caller_thread_id_) && bool_decide (self ∈ thread_ids_)
  then inl AssertFailed else inr (stop w).

(** How many workers the constructor plans; [None] when its assertion fails. *)
Definition worker_count (thread_count : nat) (use_caller : bool) : option nat :=
  if Nat.eqb thread_count 0 then None
  else Some (if use_caller then thread_count - 1 else thread_count)%nat.

(** A new fiber in the store. *)
Definition new_fiber (configured : Z) (c : option code) (w : world) : fid * world :=
  let f := fresh (dom (fibers w)) in
  let w := count_fiber w in
  (f, set_fiber f (Create (s_fiber_id w) c 0 configured) w).

Section run.
(** The configured stack size. *)
Context (configured : Z).

(** Where [resume] leaves the thread. *)
Definition resume_fiber (self : Z) (f : fid) (o : origin) (cbf : option fid) (w : world)
    : fault + world :=
  match fibers w !! f with
  | None => inl StaleContext
  | Some x =>
      match resume x with
      | inl e => inl e
      | inr (k, x) => inr (set_thread self (mkThread (Running f k o) cbf) (set_fiber f x w))
      end
  end.

(** The fiber for a callback: the previous one is used again when it is done.
    Without one, a fiber is created that is never used. *)
Definition fiber_for (c : option code) (cbf : option fid) (w : world) : fault + (fid * world) :=
  match (g ← cbf; x ← fibers w !! g; Some (g, x)) with
  | Some (g, x) =>
      if bool_decide (state_ x = TERM) then
        match reset c x with
        | inl e => inl e
        | inr x => inr (g, set_fiber g x w)
        end
      else inr (new_fiber configured c w)
  | None => inr (new_fiber configured c (count_fiber w))
  end.

(** One call of a callback, or its end. *)
Definition run_code (self : Z) (f : fid) (k : code) (o : origin) (cbf : option fid) (w : world)
    : fault + world :=
  let continue k := set_thread self (mkThread (Running f k o) cbf) in
  let leave p := set_thread self (mkThread (Switching f p o) cbf) in
  match fibers w !! f with
  | None => inl StaleContext
  | Some x =>
      match k with
      | Return => inr (leave None (set_fiber f (finish false x) w))
      | Throw => inr (leave None (set_fiber f (finish true x) w))
      | YieldToHold k =>
          match yield_to HOLD x with
          | inl e => inl e
          | inr x => inr (leave (Some (At k)) (set_fiber f x w))
          end
      | YieldToReady k =>
          match yield_to READY x with
          | inl e => inl e
          | inr x => inr (leave (Some (At k)) (set_fiber f x w))
          end
      | Effect e k => inr (continue k (emit e w))
      | GetThis k => inr (continue (k f) w)
      | ScheduleCb c thread_id k => inr (continue k (schedule_cb c thread_id w))
      | ScheduleFiber g thread_id k => inr (continue k (schedule_fiber g thread_id w))
      end
  end.

(** The end of an iteration: what becomes of the fiber. *)
Definition after_resume (self : Z) (f : fid) (o : origin) (cbf : option fid) (w : world)
    : fault + world :=
  match fibers w !! f with
  | None => inl StaleContext
  | Some x =>
      match o with
      | FromQueue pin =>
          let w := if bool_decide (state_ x = READY) then schedule_fiber f pin w else w in
          inr (set_thread self (mkThread Looping cbf) w)
      | FromCb =>
          if bool_decide (state_ x = READY)
          then inr (set_thread self (mkThread Looping None) (schedule_fiber f (-1) w))
          else if bool_decide (state_ x = HOLD)
          then inr (set_thread self (mkThread Looping None) w)
          else inr (set_thread self (mkThread Looping cbf) w)
      end
  end.

(** The next step of a thread in [run]; [None] when it sleeps or has left. *)
Definition thread_step (self : Z) (w : world) : option (fault + world) :=
  t ← threads w !! self;
  let cbf := cb_fiber t in
  let go p := set_thread self (mkThread p cbf) in
  match at_ t with
  | Looping =>
      match getNextTask self (fibers w) (tasks_ w) with
      | None => Some (inr (go Waiting w))
      | Some (task, rest) => Some (inr (go (Taken task) (set_tasks rest w)))
      end
  | Taken task =>
      match fiber task with
      | Some f => Some (resume_fiber self f (FromQueue (thread_id task)) cbf w)
      | None =>
          match fiber_for (cb task) cbf w with
          | inl e => Some (inl e)
          | inr (f, w) => Some (resume_fiber self f FromCb (Some f) w)
          end
      end
  | Running f k o => Some (run_code self f k o cbf w)
  | Switching f p o =>
      x ← fibers w !! f;
      Some (inr (go (Back f o) (set_fiber f (store_context p x) w)))
  | Back f o => Some (after_resume self f o cbf w)
  | Waiting =>
      if stopping_ w || negb (Nat.eqb (length (tasks_ w)) 0)
      then Some (inr (go Woken w)) else None
  | Woken =>
      if stopping_ w && Nat.eqb (length (tasks_ w)) 0
      then Some (inr (go Exited w)) else Some (inr (go Looping w))
  | Exited => None
  end.
End run.

(** The world behind [start]: the threads are in their loops. *)
Definition start (ids : list Z) (tasks : list ScheduleTask) : world :=
  mkWorld ∅ tasks false (list_to_map ((λ i, (i, mkThread Looping None)) <$> ids)) 0 [].

(** Runs the threads in the given order; stops at the first fault. *)
Fixpoint run_threads (configured : Z) (order : list Z) (w : world) : fault + world :=
  match order with
  | [] => inr w
  | i :: order' =>
      match thread_step configured i w with
      | None => run_threads configured order' w
      | Some (inl e) => inl e
      | Some (inr w) => run_threads configured order' w
      end
  end.

(** Two callbacks on one thread, the first yields once. *)
Example two_callbacks :
  let a := Effect $"a" (YieldToReady (Effect $"b" Return)) in
  let w := start [1] [mkTask None (Some a) (-1); mkTask None (Some (Effect $"c" Return)) (-1)] in
  match run_threads kDefaultStackSize (replicate 40 1) w with
  | inr w => trace w
  | inl _ => []
  end = [$"a"; $"c"; $"b"].
Proof. vm_compute. reflexivity. Qed.
End Scheduler.
