(* ===== verification/SchedulerProofs.v ===== *)
(** Which task a thread of the [Scheduler] takes, and who is responsible for a
    fiber: at every step each fiber is claimed at most once, by a thread in some
    stage or by the queue, and its state and context are what its stage says. *)

From stdpp Require Import gmap.
From S2P Require Import Prelude Totals Fiber Scheduler.
Import Totals Fiber Scheduler.

Module SchedulerProofs.

(** ** Taking a task *)

(** A task the thread leaves in the queue. *)
Definition skipped (self : Z) (fibers : fibers_t) (t : ScheduleTask) : Prop :=
  (thread_id t ≠ -1 ∧ thread_id t ≠ self) ∨ is_exec fibers (fiber t) = true.

Lemma getNextTask_skip self fibers t tasks :
  (skipped self fibers t ∧ getNextTask self fibers (t :: tasks) =
     '(out, rest) ← getNextTask self fibers tasks; Some (out, t :: rest)) ∨
  (¬ skipped self fibers t ∧ getNextTask self fibers (t :: tasks) = Some (t, tasks)).
Proof.
  unfold skipped. cbn [getNextTask].
  destruct (Z.eqb_spec (thread_id t) (-1)), (Z.eqb_spec (thread_id t) self);
    destruct (is_exec fibers (fiber t)); cbn [negb andb]; naive_solver.
Qed.

Lemma getNextTask_split self fibers tasks : ∀ t rest,
  getNextTask self fibers tasks = Some (t, rest) → ∃ before behind,
    tasks = before ++ t :: behind ∧ rest = before ++ behind ∧
    Forall (skipped self fibers) before ∧ ¬ skipped self fibers t.
Proof.
  induction tasks as [|u tasks IH]; intros t rest; [done|].
  destruct (getNextTask_skip self fibers u tasks) as [[Hs ->]|[Hs ->]].
  - destruct (getNextTask self fibers tasks) as [[o r]|]; [|done]. cbn [mbind option_bind].
    intros [= <- <-]. destruct (IH o r eq_refl) as (b&a&->&->&Hb&Ho).
    exists (u :: b), a. split_and!; [done|done|by constructor|done].
  - intros [= <- <-]. by exists [], tasks.
Qed.

Lemma getNextTask_none self fibers tasks :
  getNextTask self fibers tasks = None ↔ Forall (skipped self fibers) tasks.
Proof.
  induction tasks as [|u tasks IH]; [split; [constructor|done]|]. rewrite Forall_cons, <- IH.
  destruct (getNextTask_skip self fibers u tasks) as [[Hs ->]|[Hs ->]]; [|naive_solver].
  destruct (getNextTask self fibers tasks) as [[o r]|]; naive_solver.
Qed.

(** ** Who is responsible for a fiber *)

(** What the state of a fiber must be, by where the fiber is. *)
Inductive stage :=
  | Suspended                        (** in the queue or just taken *)
  | OnThread                         (** running *)
  | Leaving (p : option point)       (** its context is not stored yet *)
  | Left                             (** behind its [resume] *)
  | Done.                            (** kept for the next callback *)

Definition suspended (x : Fiber) : Prop :=
  (state_ x = INIT ∨ state_ x = HOLD ∨ state_ x = READY) ∧ ctx_ x ≠ None.
Definition ended (x : Fiber) : Prop := state_ x = TERM ∨ state_ x = EXCEPT.

Definition in_stage (s : stage) (x : Fiber) : Prop :=
  match s with
  | Suspended => suspended x
  | OnThread => state_ x = EXEC
  | Leaving p => ((state_ x = HOLD ∨ state_ x = READY) ∧ p ≠ None) ∨ ended x
  | Left => ((state_ x = HOLD ∨ state_ x = READY) ∧ ctx_ x ≠ None) ∨ ended x
  | Done => ended x
  end.

Abbreviation claim := (fid * stage)%type.

Definition runs_cb (p : phase) : bool :=
  match p with
  | Running _ _ FromCb | Switching _ _ FromCb | Back _ FromCb => true
  | _ => false
  end.

Definition phase_claims (p : phase) : list claim :=
  match p with
  | Taken t => (λ f, (f, Suspended)) <$> option_list (fiber t)
  | Running f _ _ => [(f, OnThread)]
  | Switching f p _ => [(f, Leaving p)]
  | Back f _ => [(f, Left)]
  | _ => []
  end.

Definition kept_claims (t : thread) : list claim :=
  if runs_cb (at_ t) then [] else (λ g, (g, Done)) <$> option_list (cb_fiber t).

Definition thread_claims (t : thread) : list claim := phase_claims (at_ t) ++ kept_claims t.

Definition queue_claims (tasks : list ScheduleTask) : list claim :=
  (λ f, (f, Suspended)) <$> omap fiber tasks.

Definition claims (w : world) : list claim :=
  queue_claims (tasks_ w) ++ collect thread_claims (threads w).

(** The fiber of a callback is the one its thread keeps. *)
Definition own_fiber (t : thread) : Prop :=
  match at_ t with
  | Running f _ FromCb | Switching f _ FromCb | Back f FromCb => cb_fiber t = Some f
  | _ => True
  end.

Record well_owned (w : world) : Prop := {
  owned_once : NoDup (claims w).*1;
  owned_stage f s : (f, s) ∈ claims w → ∃ x, fibers w !! f = Some x ∧ in_stage s x;
  owned_cb i t : threads w !! i = Some t → own_fiber t;
}.

(** A fiber nobody in the scheduler is responsible for: it may be scheduled. *)
Definition free (w : world) (f : fid) : Prop :=
  f ∉ (claims w).*1 ∧ ∃ x, fibers w !! f = Some x ∧ suspended x.

(** ** A thread moves *)

Definition rest_claims (self : Z) (w : world) : list claim :=
  collect thread_claims (delete self (threads w)).

Lemma claims_split w self t :
  threads w !! self = Some t →
  claims w ≡ₚ (thread_claims t ++ queue_claims (tasks_ w)) ++ rest_claims self w.
Proof.
  intros Ht. unfold claims, rest_claims. rewrite (collect_lookup thread_claims _ _ _ Ht).
  solve_Permutation.
Qed.

(** A step replaces the claims [old] by [new] and touches no other fiber. *)
Lemma well_owned_step w w' old new keep :
  well_owned w → claims w ≡ₚ old ++ keep → claims w' ≡ₚ new ++ keep →
  NoDup new.*1 → (∀ f, f ∈ new.*1 → f ∈ old.*1 ∨ f ∉ (claims w).*1) →
  (∀ f s, (f, s) ∈ new → ∃ x, fibers w' !! f = Some x ∧ in_stage s x) →
  (∀ f, f ∉ old.*1 → f ∈ (claims w).*1 → fibers w' !! f = fibers w !! f) →
  (∀ i t, threads w' !! i = Some t → own_fiber t) →
  well_owned w'.
Proof.
  intros [Hnd Hst _] Ho Hn Hnew Hfrom Hstage Hsame Hcb.
  assert (NoDup (old ++ keep).*1) as Hok by (by rewrite <- Ho).
  rewrite fmap_app in Hok. apply NoDup_app in Hok as (_&Hdis&Hkeep).
  assert (∀ f, f ∈ keep.*1 → f ∈ (claims w).*1) as Hin.
  { intros f Hf. rewrite Ho, fmap_app. apply elem_of_app. by right. }
  split; [| |done].
  - rewrite Hn, fmap_app. apply NoDup_app. split; [done|]. split; [|done].
    intros f Hf Hk. destruct (Hfrom f Hf) as [Hold|Hfresh]; [by apply (Hdis f)|].
    by apply Hfresh, Hin.
  - intros f s Hf. rewrite Hn in Hf. apply elem_of_app in Hf as [Hf|Hf]; [by apply Hstage|].
    assert (f ∈ keep.*1) as Hfk by (apply list_elem_of_fmap; by exists (f, s)).
    rewrite Hsame; [|intros Hold; by apply (Hdis f)|by apply Hin].
    apply Hst. rewrite Ho. apply elem_of_app. by right.
Qed.

Lemma claim_stage w f s old keep :
  well_owned w → claims w ≡ₚ old ++ keep → (f, s) ∈ old →
  ∃ x, fibers w !! f = Some x ∧ in_stage s x.
Proof. intros Hw Ho Hf. apply (owned_stage w Hw). rewrite Ho. apply elem_of_app. by left. Qed.

Lemma own_fiber_insert (m : gmap Z thread) self t :
  (∀ i t, m !! i = Some t → own_fiber t) → own_fiber t →
  ∀ i t', <[self := t]> m !! i = Some t' → own_fiber t'.
Proof.
  intros Hm Ht i t'. destruct (decide (i = self)) as [->|Hne].
  - rewrite lookup_insert_eq. by intros [= <-].
  - rewrite lookup_insert_ne by done. by apply Hm.
Qed.

(** The four ways a step changes the claims. *)
Section changes.
Context (w w' : world) (Hw : well_owned w)
  (Hcb : ∀ i t, threads w' !! i = Some t → own_fiber t).

Lemma relabelled : claims w' ≡ₚ claims w → fibers w' = fibers w → well_owned w'.
Proof.
  intros Hc Hf. apply (well_owned_step w w' [] [] (claims w)); try done.
  - constructor.
  - intros f Hin. by apply elem_of_nil in Hin.
  - intros f s Hin. by apply elem_of_nil in Hin.
  - by rewrite Hf.
Qed.

Lemma restaged f s s' x keep :
  claims w ≡ₚ (f, s) :: keep → claims w' ≡ₚ (f, s') :: keep →
  fibers w' !! f = Some x → in_stage s' x →
  (∀ g, g ≠ f → fibers w' !! g = fibers w !! g) → well_owned w'.
Proof.
  intros Ho Hn Hx Hs Hsame.
  apply (well_owned_step w w' [(f, s)] [(f, s')] keep); try done.
  - apply NoDup_singleton.
  - intros g Hg. by left.
  - intros g s1 [= -> ->]%list_elem_of_singleton. by exists x.
  - intros g Hg _. apply Hsame. intros ->. apply Hg. by left.
Qed.

Lemma adopted f s x :
  f ∉ (claims w).*1 → claims w' ≡ₚ (f, s) :: claims w → fibers w' !! f = Some x → in_stage s x →
  (∀ g, g ≠ f → fibers w' !! g = fibers w !! g) → well_owned w'.
Proof.
  intros Hfree Hn Hx Hs Hsame. apply (well_owned_step w w' [] [(f, s)] (claims w)); try done.
  - apply NoDup_singleton.
  - intros g ->%list_elem_of_singleton. by right.
  - intros g s1 [= -> ->]%list_elem_of_singleton. by exists x.
  - intros g _ Hg. apply Hsame. by intros ->.
Qed.

Lemma dropped f s keep :
  claims w ≡ₚ (f, s) :: keep → claims w' ≡ₚ keep → fibers w' = fibers w → well_owned w'.
Proof.
  intros Ho Hn Hf. apply (well_owned_step w w' [(f, s)] [] keep); try done.
  - constructor.
  - intros g Hg. by apply elem_of_nil in Hg.
  - intros g s1 Hg. by apply elem_of_nil in Hg.
  - by rewrite Hf.
Qed.
End changes.

(** ** Steps *)

Section steps.
Context (configured : Z).
Implicit Types (w : world).

Lemma claims_set_thread self t w :
  claims (set_thread self t w) ≡ₚ
    thread_claims t ++ queue_claims (tasks_ w) ++ rest_claims self w.
Proof.
  unfold claims, rest_claims. cbn [tasks_ threads set_thread]. rewrite collect_update.
  solve_Permutation.
Qed.

Lemma queue_claims_app l1 l2 : queue_claims (l1 ++ l2) = queue_claims l1 ++ queue_claims l2.
Proof. unfold queue_claims. by rewrite omap_app, fmap_app. Qed.

Lemma queue_claims_cons t l :
  queue_claims (t :: l) = ((λ f, (f, Suspended)) <$> option_list (fiber t)) ++ queue_claims l.
Proof. unfold queue_claims. cbn [omap list_omap]. by destruct (fiber t). Qed.

(** A claim a thread makes. *)
Lemma claimed w self t f s :
  well_owned w → threads w !! self = Some t → (f, s) ∈ thread_claims t →
  ∃ x, fibers w !! f = Some x ∧ in_stage s x.
Proof.
  intros Hw Ht Hf. apply (owned_stage w Hw). unfold claims. apply elem_of_app. right.
  apply collect_elem. by exists self, t.
Qed.

Lemma fresh_unclaimed w :
  well_owned w → fresh (dom (fibers w)) ∉ (claims w).*1.
Proof.
  intros Hw Hin. apply list_elem_of_fmap in Hin as ([f s]&Hf&Hin). cbn in Hf. subst f.
  destruct (owned_stage w Hw _ _ Hin) as (x&Hx&_).
  by apply (is_fresh (dom (fibers w))), (elem_of_dom_2 _ _ x).
Qed.

(** [resume] of a suspended fiber succeeds. *)
Lemma resume_suspended x :
  suspended x → ∃ k x', resume x = inr (k, x') ∧ state_ x' = EXEC.
Proof.
  intros [Hs Hc]. unfold resume.
  rewrite !bool_decide_eq_false_2 by (intros E; rewrite E in Hs; naive_solver). cbn [orb].
  destruct (ctx_ x) as [p|]; [|done]. by eexists _, _.
Qed.

(** Compares the claims before and after a step of thread [self]. *)
Ltac claims_of Ht :=
  rewrite ?claims_set_thread, ?(claims_split _ _ _ Ht);
  unfold rest_claims, thread_claims, kept_claims;
  cbn [tasks_ threads fibers at_ cb_fiber phase_claims runs_cb app fmap list_fmap
    set_thread set_fiber set_tasks emit count_fiber schedule schedule_fiber schedule_cb
    option_list option_rect fiber];
  rewrite ?queue_claims_app, ?queue_claims_cons;
  cbn [app fmap list_fmap option_list option_rect fiber];
  try solve_Permutation.

Ltac own w Hw := apply own_fiber_insert; [apply (owned_cb w Hw)|].

Definition fine (r : fault + world) : Prop := ∃ w', r = inr w' ∧ well_owned w'.

Lemma resume_fine self f o cbf cbf' t w w0 s keep x :
  well_owned w → threads w !! self = Some t → threads w0 = threads w → tasks_ w0 = tasks_ w →
  claims w ≡ₚ (f, s) :: keep → fibers w0 !! f = Some x → suspended x →
  (∀ g, g ≠ f → fibers w0 !! g = fibers w !! g) →
  claims (set_thread self (mkThread (Running f Return o) cbf') w) ≡ₚ (f, OnThread) :: keep →
  own_fiber (mkThread (Running f Return o) cbf') → cbf = cbf' →
  fine (resume_fiber self f o cbf w0).
Proof.
  intros Hw Ht Eth Eta Hc Hx Hs Hsame Hn Hown ->. unfold resume_fiber. rewrite Hx.
  destruct (resume_suspended x Hs) as (k&x'&->&Hex). eexists. split; [done|].
  apply (restaged w _ Hw) with f s OnThread x' keep; try done.
  - cbn [threads set_thread set_fiber]. rewrite Eth. own w Hw. exact Hown.
  - rewrite <- Hn. unfold claims. cbn [tasks_ threads set_thread set_fiber]. rewrite Eth, Eta.
    rewrite !collect_update. done.
  - cbn. apply lookup_insert_eq.
  - intros g Hg. cbn. rewrite lookup_insert_ne by done. by apply Hsame.
Qed.

Lemma running_fine self f k o cbf w :
  well_owned w → threads w !! self = Some (mkThread (Running f k o) cbf) →
  match k with ScheduleFiber g _ _ => free w g | _ => True end →
  fine (run_code self f k o cbf w).
Proof.
  intros Hw Ht Hfree. pose proof (owned_cb w Hw self _ Ht) as Hown.
  destruct (claimed w self _ f OnThread Hw Ht) as (x&Hx&Hex); [by left|]. cbn in Hex.
  assert (∀ w' t', threads w' = <[self := t']> (threads w) → own_fiber t' →
    ∀ i t, threads w' !! i = Some t → own_fiber t) as Hcb.
  { intros w' t' -> Ho. own w Hw. exact Ho. }
  set (keep := (if runs_cb (Running f k o) then [] else (λ g, (g, Done)) <$> option_list cbf) ++
    queue_claims (tasks_ w) ++ rest_claims self w).
  assert (claims w ≡ₚ (f, OnThread) :: keep) as Hc by (unfold keep; claims_of Ht).
  assert (∀ p y, in_stage (Leaving p) y →
    fine (inr (set_thread self (mkThread (Switching f p o) cbf) (set_fiber f y w)))) as Hleave.
  { intros p y Hy. eexists. split; [done|].
    apply (restaged w _ Hw) with f OnThread (Leaving p) y keep; try done.
    - by eapply Hcb.
    - unfold keep. claims_of Ht.
    - apply lookup_insert_eq.
    - intros g Hg. by apply lookup_insert_ne. }
  assert (∀ k' w1, fibers w1 = fibers w → threads w1 = threads w →
    queue_claims (tasks_ w1) = queue_claims (tasks_ w) →
    fine (inr (set_thread self (mkThread (Running f k' o) cbf) w1))) as Hgo.
  { intros k' w1 Ef Et Eq. eexists. split; [done|]. apply (relabelled w _ Hw); [| |by rewrite <- Ef].
    - apply (Hcb _ (mkThread (Running f k' o) cbf)); [by cbn; rewrite Et|done].
    - rewrite claims_set_thread. unfold rest_claims. rewrite Et, Eq. claims_of Ht. }
  unfold run_code. rewrite Hx. unfold yield_to. rewrite (bool_decide_eq_true_2 _ Hex).
  destruct k as [| |k|k|e k|k|c tid k|g tid k].
  - apply Hleave. right. by left.
  - apply Hleave. right. by right.
  - apply Hleave. left. split; [by left|done].
  - apply Hleave. left. split; [by right|done].
  - by apply Hgo.
  - by apply Hgo.
  - apply Hgo; [done|done|]. cbn [tasks_ schedule_cb schedule set_tasks].
    rewrite queue_claims_app. apply app_nil_r.
  - destruct Hfree as (Hnc&y&Hy&Hsy). eexists. split; [done|].
    apply (adopted w _ Hw) with g Suspended y; try done.
    + by eapply Hcb.
    + claims_of Ht.
Qed.

Lemma switching_fine self f p o cbf w x :
  well_owned w → threads w !! self = Some (mkThread (Switching f p o) cbf) →
  fibers w !! f = Some x →
  well_owned (set_thread self (mkThread (Back f o) cbf) (set_fiber f (store_context p x) w)).
Proof.
  intros Hw Ht Hx. pose proof (owned_cb w Hw self _ Ht) as Hown.
  destruct (claimed w self _ f (Leaving p) Hw Ht) as (y&Hy&Hst); [by left|].
  rewrite Hx in Hy. injection Hy as <-.
  apply (restaged w _ Hw) with f (Leaving p) Left (store_context p x)
    ((if runs_cb (Back f o) then [] else (λ g, (g, Done)) <$> option_list cbf) ++
     queue_claims (tasks_ w) ++ rest_claims self w).
  - cbn. own w Hw. exact Hown.
  - claims_of Ht.
  - claims_of Ht.
  - apply lookup_insert_eq.
  - destruct Hst as [[Hs Hp]|He]; [left|right]; done.
  - intros g Hg. by apply lookup_insert_ne.
Qed.

Lemma back_fine self f o cbf w :
  well_owned w → threads w !! self = Some (mkThread (Back f o) cbf) →
  fine (after_resume self f o cbf w).
Proof.
  intros Hw Ht. pose proof (owned_cb w Hw self _ Ht) as Hown.
  destruct (claimed w self _ f Left Hw Ht) as (x&Hx&Hst); [by left|].
  unfold after_resume. rewrite Hx.
  assert (∀ s, own_fiber (mkThread Looping s)) as Hl by done.
  assert (∀ w' s, threads w' = <[self := mkThread Looping s]> (threads w) →
    ∀ i t, threads w' !! i = Some t → own_fiber t) as Hcb.
  { intros w' s ->. own w Hw. done. }
  destruct o as [pin|].
  - eexists. split; [done|]. destruct (decide (state_ x = READY)) as [E|E].
    + rewrite bool_decide_eq_true_2 by done.
      apply (restaged w _ Hw) with f Left Suspended x
        (((λ g, (g, Done)) <$> option_list cbf) ++ queue_claims (tasks_ w) ++ rest_claims self w);
        try done.
      * by eapply Hcb.
      * claims_of Ht.
      * claims_of Ht.
      * destruct Hst as [[_ Hp]|[?|?]]; [|congruence..]. split; [by right; right|done].
    + rewrite bool_decide_eq_false_2 by done.
      apply (dropped w _ Hw) with f Left
        (((λ g, (g, Done)) <$> option_list cbf) ++ queue_claims (tasks_ w) ++ rest_claims self w);
        try done; [by eapply Hcb|claims_of Ht..].
  - destruct (decide (state_ x = READY)) as [E|E];
      [rewrite bool_decide_eq_true_2 by done|rewrite bool_decide_eq_false_2 by done;
       destruct (decide (state_ x = HOLD)) as [E'|E'];
       [rewrite bool_decide_eq_true_2 by done|rewrite bool_decide_eq_false_2 by done]];
      (eexists; split; [done|]).
    + apply (restaged w _ Hw) with f Left Suspended x
        (queue_claims (tasks_ w) ++ rest_claims self w); try done.
      * by eapply Hcb.
      * claims_of Ht.
      * claims_of Ht.
      * destruct Hst as [[_ Hp]|[?|?]]; [|congruence..]. split; [by right; right|done].
    + apply (dropped w _ Hw) with f Left (queue_claims (tasks_ w) ++ rest_claims self w); try done;
        [by eapply Hcb|claims_of Ht..].
    + cbn in Hown. subst cbf.
      apply (restaged w _ Hw) with f Left Done x
        (queue_claims (tasks_ w) ++ rest_claims self w); try done.
      * by eapply Hcb.
      * claims_of Ht.
      * claims_of Ht.
      * destruct Hst as [[[?|?] _]|Hend]; [congruence..|done].
Qed.

Lemma taken_fiber_fine self task f cbf w :
  well_owned w → threads w !! self = Some (mkThread (Taken task) cbf) → fiber task = Some f →
  fine (resume_fiber self f (FromQueue (thread_id task)) cbf w).
Proof.
  intros Hw Ht Ef. destruct (claimed w self _ f Suspended Hw Ht) as (x&Hx&Hs).
  { unfold thread_claims. cbn. rewrite Ef. by left. }
  apply (resume_fine self f _ cbf cbf (mkThread (Taken task) cbf) w w Suspended
    (((λ g, (g, Done)) <$> option_list cbf) ++ queue_claims (tasks_ w) ++ rest_claims self w) x);
    try done; claims_of Ht. rewrite Ef. cbn. solve_Permutation.
Qed.

(** A callback on a fiber of its own. *)
Lemma new_fiber_fine self task cbf c w :
  well_owned w → threads w !! self = Some (mkThread (Taken task) cbf) → fiber task = None →
  ∀ w0, fibers w0 = fibers w → tasks_ w0 = tasks_ w → threads w0 = threads w →
  let '(f, w1) := new_fiber configured c w0 in
  fine (resume_fiber self f FromCb (Some f) w1).
Proof.
  intros Hw Ht Ef w0 E1 E2 E3. unfold new_fiber. cbv zeta. rewrite E1.
  set (f := fresh (dom (fibers w))). unfold resume_fiber. cbn [fibers set_fiber count_fiber].
  rewrite lookup_insert_eq. cbn [resume state_ Create bool_decide ctx_ orb].
  eexists. split; [done|].
  apply (well_owned_step w _ ((λ g, (g, Done)) <$> option_list cbf) [(f, OnThread)]
    (queue_claims (tasks_ w) ++ rest_claims self w)); try done.
  - claims_of Ht. rewrite Ef. cbn. solve_Permutation.
  - rewrite claims_set_thread. unfold rest_claims. cbn [tasks_ threads set_fiber count_fiber].
    rewrite E2, E3. unfold thread_claims, kept_claims. cbn. solve_Permutation.
  - apply NoDup_singleton.
  - intros g ->%list_elem_of_singleton. right. by apply fresh_unclaimed.
  - intros g s [= -> ->]%list_elem_of_singleton. eexists. split; [cbn; apply lookup_insert_eq|done].
  - intros g _ Hg. cbn. rewrite E1. rewrite !lookup_insert_ne; [done| |];
      intros <-; by apply (fresh_unclaimed w).
  - cbn. rewrite E3. own w Hw. done.
Qed.

Lemma taken_cb_fine self task cbf w :
  well_owned w → threads w !! self = Some (mkThread (Taken task) cbf) → fiber task = None →
  match fiber_for configured (cb task) cbf w with
  | inl _ => False
  | inr (f, w1) => fine (resume_fiber self f FromCb (Some f) w1)
  end.
Proof.
  intros Hw Ht Ef. unfold fiber_for. destruct cbf as [g|]; cbn [mbind option_bind].
  - destruct (claimed w self _ g Done Hw Ht) as (x&Hx&Hend).
    { unfold thread_claims. apply elem_of_app. right. by left. }
    rewrite Hx. cbn [mbind option_bind]. destruct (decide (state_ x = TERM)) as [E|E].
    + rewrite bool_decide_eq_true_2 by done. unfold reset.
      rewrite (bool_decide_eq_true_2 (state_ x = TERM)), orb_true_r by done. cbn [orb].
      apply (resume_fine self g FromCb (Some g) (Some g) (mkThread (Taken task) (Some g)) w _ Done
        (queue_claims (tasks_ w) ++ rest_claims self w)
        (mkFiber (id_ x) (stack_size_ x) (cb task) INIT (Some Entry) false)); try done.
      * claims_of Ht. rewrite Ef. cbn. solve_Permutation.
      * apply lookup_insert_eq.
      * split; [by left|done].
      * intros h Hh. by apply lookup_insert_ne.
      * claims_of Ht.
    + rewrite bool_decide_eq_false_2 by done.
      pose proof (new_fiber_fine self task (Some g) (cb task) w Hw Ht Ef w eq_refl eq_refl eq_refl).
      by destruct (new_fiber configured (cb task) w).
  - pose proof (new_fiber_fine self task None (cb task) w Hw Ht Ef (count_fiber w)
      eq_refl eq_refl eq_refl).
    by destruct (new_fiber configured (cb task) (count_fiber w)).
Qed.

(** What a thread may do under the discipline: schedule free fibers only. *)
Definition allowed w (self : Z) : Prop :=
  match threads w !! self with
  | Some (mkThread (Running _ (ScheduleFiber g _ _) _) _) => free w g
  | _ => True
  end.

Lemma thread_step_fine self w r :
  well_owned w → allowed w self → thread_step configured self w = Some r → fine r.
Proof.
  intros Hw Ha. unfold thread_step, allowed in *.
  destruct (threads w !! self) as [[p cbf]|] eqn:Ht; [|done]. cbn [mbind option_bind at_ cb_fiber].
  assert (∀ p', phase_claims p' = [] → runs_cb p' = false → phase_claims p = [] → runs_cb p = false →
    own_fiber (mkThread p' cbf) → fine (inr (set_thread self (mkThread p' cbf) w))) as Hmove.
  { intros p' E1 E2 E3 E4 Ho. eexists. split; [done|]. apply (relabelled w _ Hw); [| |done].
    - cbn. own w Hw. exact Ho.
    - claims_of Ht. rewrite E1, E2, E3, E4. cbn. solve_Permutation. }
  destruct p as [|task|f k o|f pt o|f o| | |].
  - destruct (getNextTask self (fibers w) (tasks_ w)) as [[task rest]|] eqn:Eg;
      intros [= <-]; [|by apply Hmove].
    apply getNextTask_split in Eg as (b&a&Etasks&->&_). eexists. split; [done|].
    apply (relabelled w _ Hw); [| |done].
    + cbn. own w Hw. done.
    + rewrite claims_set_thread, (claims_split _ _ _ Ht). unfold rest_claims. cbn [tasks_ threads set_tasks].
      rewrite Etasks, !queue_claims_app, queue_claims_cons.
      unfold thread_claims, kept_claims. cbn [at_ cb_fiber phase_claims runs_cb app].
      solve_Permutation.
  - destruct (fiber task) as [f|] eqn:Ef.
    + intros [= <-]. by apply (taken_fiber_fine self task).
    + pose proof (taken_cb_fine self task cbf w Hw Ht Ef) as H.
      destruct (fiber_for configured (cb task) cbf w) as [e|[f w1]]; [done|]. by intros [= <-].
  - intros [= <-]. apply running_fine; [done|done|]. by destruct k.
  - destruct (fibers w !! f) as [x|] eqn:Hx; [|done]. cbn [mbind option_bind]. intros [= <-].
    eexists. split; [done|]. by apply switching_fine.
  - intros [= <-]. by apply back_fine.
  - destruct (_ || _); [|done]. intros [= <-]. by apply Hmove.
  - destruct (_ && _); intros [= <-]; by apply Hmove.
  - done.
Qed.
End steps.
End SchedulerProofs.
