(* ===== verification/SchedulerRuns.v ===== *)
(** Runs of the [Scheduler]: the interleavings that only schedule suspended
    fibers nobody is responsible for, what they keep, and the race that breaks
    a run without this discipline. *)

From stdpp Require Import gmap.
From S2P Require Import Prelude Totals Fiber Scheduler SchedulerProofs.
Import Totals Fiber Scheduler SchedulerProofs.

Module SchedulerRuns.
Section runs.
Context (configured : Z).
Implicit Types (w : world).

(** ** Disciplined interleavings *)

(** Any thread moves, scheduling only free fibers; other threads of the program
    create and schedule fibers and callbacks, or call [stop]. *)
Inductive step w : world → Prop :=
  | step_thread self w' :
      allowed w self → thread_step configured self w = Some (inr w') → step w w'
  | step_schedule_fiber f thread_id : free w f → step w (schedule_fiber f thread_id w)
  | step_schedule_cb c thread_id : step w (schedule_cb c thread_id w)
  | step_schedule_range cs : step w (schedule_range (inr <$> cs) w)
  | step_create c : step w (new_fiber configured c w).2
  | step_stop : step w (stop w).

(** A world in which the threads have been started with callbacks to run. *)
Definition started (ids : list Z) (cs : list (code * Z)) : world :=
  start ids ((λ p, mkTask None (Some p.1) p.2) <$> cs).

Definition reachable (ids : list Z) (cs : list (code * Z)) : world → Prop :=
  rtc step (started ids cs).

Lemma callbacks_unclaimed (cs : list (code * Z)) :
  queue_claims ((λ p, mkTask None (Some p.1) p.2) <$> cs) = [].
Proof. unfold queue_claims. by induction cs. Qed.

Lemma start_threads (ids : list Z) i t :
  (list_to_map ((λ i, (i, mkThread Looping None)) <$> ids) : gmap Z thread) !! i = Some t →
  t = mkThread Looping None ∧ i ∈ ids.
Proof.
  intros H. apply elem_of_list_to_map_2 in H. apply list_elem_of_fmap in H as (j&[= -> ->]&Hj). done.
Qed.

Lemma started_well_owned ids cs : well_owned (started ids cs).
Proof.
  assert (claims (started ids cs) = []) as E.
  { unfold claims, started, start. cbn [tasks_ threads]. rewrite callbacks_unclaimed. cbn [app].
    destruct (collect thread_claims _) as [|b l] eqn:Ec; [done|]. exfalso.
    assert (b ∈ b :: l) as Hb by left. rewrite <- Ec in Hb.
    apply collect_elem in Hb as (i&t&Ht&Hb). apply start_threads in Ht as [-> _].
    by apply elem_of_nil in Hb. }
  split.
  - rewrite E. constructor.
  - intros f s. rewrite E. by intros ?%elem_of_nil.
  - intros i t Ht. by apply start_threads in Ht as [-> _].
Qed.

Lemma step_well_owned w w' : well_owned w → step w w' → well_owned w'.
Proof.
  intros Hw Hs. destruct Hs as [self w' Ha Hs|f tid [Hf (x&Hx&Hsx)]|c tid|cs|c|].
  - destruct (thread_step_fine configured self w _ Hw Ha Hs) as (w1&[= <-]&?). done.
  - apply (adopted w _ Hw) with f Suspended x; try done; [apply (owned_cb w Hw)|].
    unfold claims. cbn [tasks_ threads schedule_fiber schedule set_tasks].
    rewrite queue_claims_app. cbn. solve_Permutation.
  - apply (relabelled w _ Hw); [apply (owned_cb w Hw)| |done].
    unfold claims. cbn [tasks_ threads schedule_cb schedule set_tasks].
    by rewrite queue_claims_app, app_nil_r.
  - apply (relabelled w _ Hw); [apply (owned_cb w Hw)| |done].
    unfold claims. cbn [tasks_ threads schedule_range set_tasks]. rewrite queue_claims_app.
    assert (∀ l : list code, queue_claims ((λ i : fid + code, match i with
      | inl f => mkTask (Some f) None (-1) | inr c => mkTask None (Some c) (-1) end) <$> (inr <$> l)) = [])
      as -> by (intros l; unfold queue_claims; by induction l).
    by rewrite app_nil_r.
  - apply (well_owned_step w _ [] [] (claims w)); try done.
    + constructor.
    + by intros f ?%elem_of_nil.
    + by intros f s ?%elem_of_nil.
    + intros f _ Hf. cbn. apply lookup_insert_ne. intros <-. by apply (fresh_unclaimed w).
    + apply (owned_cb w Hw).
  - apply (relabelled w _ Hw); [apply (owned_cb w Hw)|done..].
Qed.

Lemma reachable_well_owned ids cs w : reachable ids cs w → well_owned w.
Proof.
  assert (well_owned (started ids cs)) as H by apply started_well_owned.
  unfold reachable. generalize dependent (started ids cs). intros w0 H Hr.
  induction Hr as [|w1 w2 w3 H12 _ IH]; [done|]. by apply IH, (step_well_owned w1).
Qed.

(** The fiber a thread is executing or switching from. *)
Definition on_thread w (self : Z) (f : fid) : Prop :=
  ∃ t, threads w !! self = Some t ∧
    match at_ t with
    | Running g _ _ | Switching g _ _ | Back g _ => g = f
    | _ => False
    end.

Lemma on_thread_claim w self f :
  on_thread w self f → ∃ t s, threads w !! self = Some t ∧ (f, s) ∈ thread_claims t.
Proof.
  intros (t&Ht&Hf). unfold thread_claims. exists t.
  destruct (at_ t) as [| |g k o|g p o|g o| | |] eqn:E; try done; subst g; eexists; (split; [done|]);
    apply elem_of_app; left; cbn; by left.
Qed.

(** ** Main theorems *)

(** [getNextTask] takes the first task of the queue that is not pinned to
    another thread and whose fiber is not executing, and leaves the others in
    their order; it finds nothing exactly when there is no such task. *)
Theorem getNextTask_takes self fibers tasks :
  match getNextTask self fibers tasks with
  | Some (t, rest) => ∃ before behind, tasks = before ++ t :: behind ∧ rest = before ++ behind ∧
      Forall (skipped self fibers) before ∧ ¬ skipped self fibers t
  | None => Forall (skipped self fibers) tasks
  end.
Proof.
  destruct (getNextTask self fibers tasks) as [[t rest]|] eqn:E.
  - by apply getNextTask_split.
  - by apply getNextTask_none.
Qed.

(** C7: as long as only fibers are scheduled that nobody in the scheduler is
    responsible for and that have stored their context, no interleaving of any
    number of threads makes an assertion fail or jumps to a stale context, and
    no fiber is ever on two threads; the queue never holds a fiber twice. *)
Theorem disciplined_never_faults ids cs w :
  reachable ids cs w →
  (∀ self e, allowed w self → thread_step configured self w ≠ Some (inl e)) ∧
  (∀ i j f, on_thread w i f → on_thread w j f → i = j) ∧
  NoDup (omap fiber (tasks_ w)).
Proof.
  intros Hr. pose proof (reachable_well_owned _ _ _ Hr) as Hw. split_and!.
  - intros self e Ha Hs. by destruct (thread_step_fine configured self w _ Hw Ha Hs) as (?&?&_).
  - intros i j f (t&s&Ht&Hf)%on_thread_claim (t'&s'&Ht'&Hf')%on_thread_claim.
    destruct (decide (i = j)) as [|Hne]; [done|]. exfalso.
    pose proof (owned_once w Hw) as Hnd. rewrite (claims_split _ _ _ Ht) in Hnd.
    rewrite !fmap_app in Hnd. apply NoDup_app in Hnd as (_&Hd&_). apply (Hd f).
    + apply elem_of_app. left. apply list_elem_of_fmap. by exists (f, s).
    + apply list_elem_of_fmap. exists (f, s'). split; [done|].
      apply collect_elem. exists j, t'. split; [|done]. by rewrite lookup_delete_ne.
  - pose proof (owned_once w Hw) as Hnd. unfold claims in Hnd. rewrite fmap_app in Hnd.
    apply NoDup_app in Hnd as (Hnd&_&_). unfold queue_claims in Hnd.
    rewrite <- list_fmap_compose in Hnd. by rewrite list_fmap_id in Hnd.
Qed.
End runs.

(** What a callback does that waits for a descriptor which is ready at once:
    its fiber is scheduled by another thread before it has yielded. *)
Definition waits_for_ready : code :=
  GetThis (λ f, ScheduleFiber f (-1) (YieldToHold (Effect $"resumed" Return))).

(** Without the discipline there is a race.  A callback whose fiber is
    scheduled while it runs, as [IOManager] does when a descriptor becomes ready
    before the fiber has yielded, works when its thread is the next to move;
    but another thread that takes the fiber between the change of its state and
    the switch of contexts resumes it with a stale context. *)
Theorem early_wakeup_races :
  let w := started [1; 2] [(waits_for_ready, -1)] in
  ∃ good bad w',
    run_threads kDefaultStackSize (good ++ [2; 2; 2; 2; 2]) w = inr w' ∧
    trace w' = [$"resumed"] ∧
    run_threads kDefaultStackSize (bad ++ [2; 2; 2; 2; 2]) w = inl StaleContext ∧
    good = bad ++ [1; 1].
Proof.
  intros w. set (bad := [1; 1; 1; 1; 1]).
  destruct (run_threads kDefaultStackSize ((bad ++ [1; 1]) ++ [2; 2; 2; 2; 2]) w) as [e|w'] eqn:E.
  - vm_compute in E. discriminate.
  - exists (bad ++ [1; 1]), bad, w'. split; [exact E|]. split; [|split; [|done]].
    + assert (match run_threads kDefaultStackSize ((bad ++ [1; 1]) ++ [2; 2; 2; 2; 2]) w with
              | inr w' => trace w' | inl _ => [] end = [$"resumed"]) as H by (vm_compute; reflexivity).
      by rewrite E in H.
    + vm_compute. reflexivity.
Qed.

(** ** Witness *)

(** A fiber is created, scheduled, and taken by a thread. *)
Lemma disciplined_never_faults_witness :
  let w := started [1; 2] [] in
  let '(f, w1) := new_fiber kDefaultStackSize (Some Return) w in
  let w2 := schedule_fiber f (-1) w1 in
  reachable kDefaultStackSize [1; 2] [] w2 ∧
  ∀ self e, allowed w2 self → thread_step kDefaultStackSize self w2 ≠ Some (inl e).
Proof.
  intros w. destruct (new_fiber kDefaultStackSize (Some Return) w) as [f w1] eqn:E. intros w2.
  assert (reachable kDefaultStackSize [1; 2] [] w2) as Hr.
  { apply (rtc_l _ w w1).
    - replace w1 with (new_fiber kDefaultStackSize (Some Return) w).2 by (by rewrite E). apply step_create.
    - apply rtc_once, step_schedule_fiber. unfold new_fiber in E. injection E as <- <-. split.
      + vm_compute. intros H. inversion H.
      + eexists. split; [apply lookup_insert_eq|]. split; [by left|done]. }
  split; [exact Hr|]. by destruct (disciplined_never_faults kDefaultStackSize _ _ _ Hr) as (H&_&_).
Defined.
End SchedulerRuns.
