(* ===== verification/SchedulerOrder.v ===== *)
(** Order and liveness of the [Scheduler]: one thread runs callbacks as a
    round-robin queue does and drains it, and a task no thread may take keeps
    every thread from leaving. *)

From stdpp Require Import gmap.
From S2P Require Import Prelude Totals Fiber Scheduler SchedulerProofs SchedulerRuns.
Import Totals Fiber Scheduler SchedulerProofs SchedulerRuns.

Module SchedulerOrder.

(** ** The specification: a queue of callbacks *)

(** What a callback does until it leaves its thread: its effects, the callbacks
    it schedules, and how it wants to go on at once. *)
Fixpoint burst (c : code) : list str * list code * option code :=
  match c with
  | Return | Throw => ([], [], None)
  | YieldToHold _ => ([], [], None)
  | YieldToReady k => ([], [], Some k)
  | Effect e k => let '(tr, new, again) := burst k in (e :: tr, new, again)
  | ScheduleCb d _ k => let '(tr, new, again) := burst k in (tr, d :: new, again)
  | GetThis _ | ScheduleFiber _ _ _ => ([], [], None)
  end.

Fixpoint size (c : code) : nat :=
  match c with
  | YieldToHold k | YieldToReady k | Effect _ k => S (size k)
  | ScheduleCb d _ k => S (size d + size k)
  | _ => 1
  end.

Definition total (q : list code) : nat := sum_list (size <$> q).

(** Takes the first callback, runs it until it leaves, and puts what it
    scheduled and then itself behind the others. *)
Fixpoint round_robin (fuel : nat) (q : list code) : list str :=
  match fuel, q with
  | S fuel, c :: q =>
      let '(tr, new, again) := burst c in
      tr ++ round_robin fuel (q ++ new ++ option_list again)
  | _, _ => []
  end.

Lemma total_app q1 q2 : total (q1 ++ q2) = (total q1 + total q2)%nat.
Proof. unfold total. induction q1; cbn in *; lia. Qed.

Lemma burst_shrinks c :
  let '(_, new, again) := burst c in (total new + total (option_list again) < size c)%nat.
Proof.
  induction c as [| |k IH|k IH|e k IH|k IH|d IHd tid k IH|g tid k IH]; cbn; try lia.
  - by destruct (burst k) as [[tr new] again]; lia.
  - destruct (burst k) as [[tr new] again]. change (total (d :: new)) with (size d + total new)%nat. lia.
Qed.

(** A callback that pins nothing and handles no fibers: what it schedules, any
    thread may take. *)
Fixpoint local (c : code) : Prop :=
  match c with
  | Return | Throw => True
  | YieldToHold k | YieldToReady k | Effect _ k => local k
  | ScheduleCb d tid k => tid = -1 ∧ local d ∧ local k
  | GetThis _ | ScheduleFiber _ _ _ => False
  end.

Lemma burst_local c :
  local c → let '(_, new, again) := burst c in
  Forall local new ∧ Forall local (option_list again).
Proof.
  induction c as [| |k IH|k IH|e k IH|k IH|d IHd tid k IH|g tid k IH]; cbn; try done.
  - intros H. split; [constructor|]. by repeat constructor.
  - intros H. specialize (IH H). by destruct (burst k) as [[tr new] again].
  - intros (_&Hd&H). specialize (IH H). destruct (burst k) as [[tr new] again].
    destruct IH. split; [by constructor|done].
Qed.

Section one_thread.
Context (configured : Z) (self : Z).
Implicit Types (w : world).

(** ** Steps of the one thread *)

Definition runs (n : nat) w w' : Prop :=
  run_threads configured (replicate n self) w = inr w'.

Lemma runs_step w w1 n w' :
  thread_step configured self w = Some (inr w1) → runs n w1 w' → runs (S n) w w'.
Proof. unfold runs. intros H1 H2. cbn. by rewrite H1. Qed.

Lemma runs_app n m w w1 w' : runs n w w1 → runs m w1 w' → runs (n + m) w w'.
Proof.
  unfold runs. revert w. induction n as [|n IH]; cbn; intros w.
  - by intros [= ->].
  - destruct (thread_step configured self w) as [[e|w2]|]; [done|apply IH..].
Qed.

Lemma runs_stuck n w : thread_step configured self w = None → runs n w w.
Proof. unfold runs. intros H. induction n as [|n IH]; cbn; [done|]. by rewrite H. Qed.

(** ** The queue of the model against the queue of the specification *)

Definition represents (fibers : fibers_t) (t : ScheduleTask) (c : code) : Prop :=
  (thread_id t = -1 ∨ thread_id t = self) ∧
  match fiber t with
  | None => cb t = Some c
  | Some f => ∃ x, fibers !! f = Some x ∧ ctx_ x = Some (At c)
  end.

Definition queue w : list code → Prop := Forall2 (represents (fibers w)) (tasks_ w).

(** The one thread is at [p]; the invariant of all interleavings holds. *)
Record at_phase (p : phase) (cbf : option fid) (stopping : bool) (q : list code) w : Prop := {
  at_owned : well_owned w;
  at_thread : threads w !! self = Some (mkThread p cbf);
  at_stopping : stopping_ w = stopping;
  at_queue : queue w q;
}.

Lemma step_owned w w1 :
  well_owned w → allowed w self → thread_step configured self w = Some (inr w1) → well_owned w1.
Proof. intros Hw Ha Hs. by destruct (thread_step_fine configured self w _ Hw Ha Hs) as (?&[= <-]&?). Qed.

(** A fiber the thread runs is not in the queue. *)
Lemma queue_without f s t w p cbf :
  well_owned w → threads w !! self = Some (mkThread p cbf) → (f, s) ∈ thread_claims (mkThread p cbf) →
  t ∈ tasks_ w → fiber t ≠ Some f.
Proof.
  intros Hw Ht Hf Hin Ef. pose proof (owned_once w Hw) as Hnd.
  rewrite (claims_split _ _ _ Ht), !fmap_app in Hnd.
  apply NoDup_app in Hnd as (Hnd&_&_). apply NoDup_app in Hnd as (_&Hd&_). apply (Hd f).
  - apply list_elem_of_fmap. by exists (f, s).
  - unfold queue_claims. rewrite <- list_fmap_compose, list_fmap_id.
    apply list_elem_of_omap. by exists t.
Qed.

Lemma queue_set_fiber f x w q :
  queue w q → (∀ t, t ∈ tasks_ w → fiber t ≠ Some f) → queue (set_fiber f x w) q.
Proof.
  unfold queue. cbn [tasks_ fibers set_fiber]. intros Hq. generalize (tasks_ w) Hq. clear.
  intros l Hl. induction Hl as [|t c l q [Hp Hc] Hl IH]; intros Hno; constructor.
  - split; [done|]. destruct (fiber t) as [g|] eqn:Eg; [|done]. rewrite lookup_insert_ne; [done|].
    intros ->. apply (Hno t); [by left|done].
  - apply IH. intros u Hu. apply Hno. by right.
Qed.

Definition ours (o : origin) : Prop :=
  match o with FromQueue pin => pin = -1 ∨ pin = self | FromCb => True end.

(** One step, with what it does to the thread and the queue. *)
Lemma at_phase_step p cbf b q w p' cbf' q' w1 :
  at_phase p cbf b q w → allowed w self → thread_step configured self w = Some (inr w1) →
  threads w1 !! self = Some (mkThread p' cbf') → stopping_ w1 = b → queue w1 q' →
  at_phase p' cbf' b q' w1.
Proof. intros [Hw _ _ _] Ha Hs Ht Hb Hq. split; try done. by apply (step_owned w). Qed.

(** The end of an iteration. *)
Lemma back_runs f o cbf b q w x again :
  at_phase (Back f o) cbf b q w → ours o → fibers w !! f = Some x →
  match again with
  | Some k => state_ x = READY ∧ ctx_ x = Some (At k)
  | None => state_ x ≠ READY
  end →
  ∃ cbf' w', runs 1 w w' ∧ at_phase Looping cbf' b (q ++ option_list again) w' ∧ trace w' = trace w.
Proof.
  intros Hp Ho Hx Ha. pose proof (at_thread _ _ _ _ _ Hp) as Ht.
  assert (allowed w self) as Hal by (unfold allowed; by rewrite Ht).
  assert (∃ w', thread_step configured self w = Some (inr w') ∧
    threads w' = <[self := mkThread Looping (match o with FromQueue _ => cbf | FromCb =>
      if decide (state_ x = READY ∨ state_ x = HOLD) then None else cbf end)]> (threads w) ∧
    stopping_ w' = b ∧ queue w' (q ++ option_list again) ∧ trace w' = trace w)
    as (w'&Hs&Ht'&Hb&Hq&Htr).
  { unfold thread_step. rewrite Ht. cbn [mbind option_bind at_ cb_fiber]. unfold after_resume. rewrite Hx.
    pose proof (at_stopping _ _ _ _ _ Hp) as Hb. pose proof (at_queue _ _ _ _ _ Hp) as Hq.
    destruct again as [k|]; cbn [option_list option_rect].
    - destruct Ha as [E Hc]. rewrite (bool_decide_eq_true_2 _ E).
      assert (∀ pin, pin = -1 ∨ pin = self → queue (schedule_fiber f pin w) (q ++ [k])) as Hk.
      { intros pin Hpin. apply Forall2_app; [done|]. constructor; [|constructor].
        split; [done|]. by exists x. }
      destruct o as [pin|]; (eexists; split; [done|]); (split_and!; [|done| |done]).
      + done.
      + by apply Hk.
      + by rewrite decide_True by (by left).
      + apply Hk. by left.
    - rewrite (bool_decide_eq_false_2 _ Ha), app_nil_r.
      destruct o as [pin|]; [by eexists|]. destruct (decide (state_ x = HOLD)) as [E|E].
      + rewrite bool_decide_eq_true_2, decide_True by naive_solver. by eexists.
      + rewrite bool_decide_eq_false_2, decide_False by naive_solver. by eexists. }
  eexists _, w'. split; [|split; [|done]].
  - by apply (runs_step w w').
  - apply (at_phase_step _ _ _ _ _ _ _ _ _ Hp Hal Hs); [|done..]. by rewrite Ht', lookup_insert_eq.
Qed.

(** Leaving the callback: the context is stored, then the iteration ends. *)
Lemma leave_runs f pt o cbf b q w x again :
  at_phase (Switching f pt o) cbf b q w → ours o → fibers w !! f = Some x →
  match again with
  | Some k => state_ x = READY ∧ pt = Some (At k)
  | None => state_ x ≠ READY
  end →
  ∃ cbf' w', runs 2 w w' ∧ at_phase Looping cbf' b (q ++ option_list again) w' ∧ trace w' = trace w.
Proof.
  intros Hp Ho Hx Ha. pose proof (at_thread _ _ _ _ _ Hp) as Ht.
  assert (allowed w self) as Hal by (unfold allowed; by rewrite Ht).
  set (w1 := set_thread self (mkThread (Back f o) cbf) (set_fiber f (store_context pt x) w)).
  assert (thread_step configured self w = Some (inr w1)) as Hs.
  { unfold thread_step. rewrite Ht. cbn [mbind option_bind at_ cb_fiber]. by rewrite Hx. }
  assert (at_phase (Back f o) cbf b q w1) as Hp1.
  { apply (at_phase_step _ _ _ _ _ _ _ _ _ Hp Hal Hs); [apply lookup_insert_eq|apply Hp|].
    apply (queue_set_fiber f (store_context pt x) w); [apply Hp|]. intros t Hin.
    apply (queue_without f (Leaving pt) t w _ _ (at_owned _ _ _ _ _ Hp) Ht); [by left|done]. }
  destruct (back_runs f o cbf b q w1 (store_context pt x) again Hp1 Ho) as (cbf'&w'&Hr&Hp'&Htr).
  - cbn. apply lookup_insert_eq.
  - by destruct again.
  - exists cbf', w'. split; [|done]. by apply (runs_step w w1).
Qed.

(** The step by which a callback leaves its thread, and what follows. *)
Lemma exit_runs f k o cbf b q w y pt again :
  at_phase (Running f k o) cbf b q w → allowed w self → ours o →
  thread_step configured self w =
    Some (inr (set_thread self (mkThread (Switching f pt o) cbf) (set_fiber f y w))) →
  match again with
  | Some k => state_ y = READY ∧ pt = Some (At k)
  | None => state_ y ≠ READY
  end →
  ∃ n cbf' w', runs n w w' ∧ at_phase Looping cbf' b (q ++ option_list again) w' ∧
    trace w' = trace w ++ [].
Proof.
  intros Hp Hal Ho Hs Ha. pose proof (at_thread _ _ _ _ _ Hp) as Ht.
  set (w1 := set_thread self _ _) in Hs.
  assert (at_phase (Switching f pt o) cbf b q w1) as Hp1.
  { apply (at_phase_step _ _ _ _ _ _ _ _ _ Hp Hal Hs); [apply lookup_insert_eq|apply Hp|].
    apply (queue_set_fiber f y w); [apply Hp|]. intros t Hin.
    apply (queue_without f OnThread t w _ _ (at_owned _ _ _ _ _ Hp) Ht); [by left|done]. }
  destruct (leave_runs f pt o cbf b q w1 y again Hp1 Ho) as (cbf'&w'&Hr&Hp'&Htr);
    [apply lookup_insert_eq|done|].
  exists 3%nat, cbf', w'. rewrite app_nil_r. split; [by apply (runs_step w w1)|done].
Qed.

(** Evaluates a step of the thread inside a callback. *)
Ltac now_running Ht Hx :=
  unfold thread_step; rewrite Ht; cbn [mbind option_bind at_ cb_fiber]; unfold run_code;
  rewrite Hx; try done.

(** A callback runs until it leaves the thread, as [burst] says. *)
Lemma burst_runs k : ∀ f o cbf b q w,
  local k → at_phase (Running f k o) cbf b q w → ours o →
  let '(tr, new, again) := burst k in
  ∃ n cbf' w', runs n w w' ∧ at_phase Looping cbf' b (q ++ new ++ option_list again) w' ∧
    trace w' = trace w ++ tr.
Proof.
  induction k as [| |k IH|k IH|e k IH|k IH|d IHd tid k IH|g tid k IH];
    intros f o cbf b q w Hl Hp Ho; cbn [burst local] in *; try done;
    pose proof (at_thread _ _ _ _ _ Hp) as Ht;
    assert (allowed w self) as Hal by (unfold allowed; by rewrite Ht);
    destruct (claimed w self _ f OnThread (at_owned _ _ _ _ _ Hp) Ht) as (x&Hx&Hex);
    try (by left); cbn in Hex.
  - apply (exit_runs f Return o cbf b q w (finish false x) None None Hp Hal Ho); [|done].
    now_running Ht Hx.
  - apply (exit_runs f Throw o cbf b q w (finish true x) None None Hp Hal Ho); [|done].
    now_running Ht Hx.
  - apply (exit_runs f (YieldToHold k) o cbf b q w (set_state HOLD x) (Some (At k)) None Hp Hal Ho);
      [|done].
    now_running Ht Hx. unfold yield_to. by rewrite bool_decide_eq_true_2.
  - apply (exit_runs f (YieldToReady k) o cbf b q w (set_state READY x) (Some (At k)) (Some k) Hp Hal Ho);
      [|done].
    now_running Ht Hx. unfold yield_to. by rewrite bool_decide_eq_true_2.
  - specialize (IH f o cbf b q (set_thread self (mkThread (Running f k o) cbf) (emit e w)) Hl).
    destruct (burst k) as [[tr new] again].
    assert (thread_step configured self w =
      Some (inr (set_thread self (mkThread (Running f k o) cbf) (emit e w)))) as Hs.
    { now_running Ht Hx. }
    destruct IH as (n&cbf'&w'&Hr&Hp'&Htr); [|done|].
    { apply (at_phase_step _ _ _ _ _ _ _ _ _ Hp Hal Hs); [apply lookup_insert_eq|apply Hp..]. }
    exists (S n), cbf', w'. split; [by eapply runs_step|]. split; [done|].
    rewrite Htr. cbn. by rewrite <- app_assoc.
  - destruct Hl as (Htid&_&Hl).
    set (w1 := set_thread self (mkThread (Running f k o) cbf) (schedule_cb d tid w)).
    specialize (IH f o cbf b (q ++ [d]) w1 Hl).
    destruct (burst k) as [[tr new] again].
    assert (thread_step configured self w = Some (inr w1)) as Hs.
    { now_running Ht Hx. }
    destruct IH as (n&cbf'&w'&Hr&Hp'&Htr); [|done|].
    { apply (at_phase_step _ _ _ _ _ _ _ _ _ Hp Hal Hs); [apply lookup_insert_eq|apply Hp|].
      apply Forall2_app; [apply Hp|]. constructor; [split; [by left|done]|constructor]. }
    exists (S n), cbf', w'. split; [by eapply runs_step|].
    split; [by rewrite <- app_assoc in Hp'|done].
Qed.

(** The task at the head of the queue is taken. *)
Lemma head_taken cbf b c q w :
  at_phase Looping cbf b (c :: q) w →
  ∃ t w1, runs 1 w w1 ∧ at_phase (Taken t) cbf b q w1 ∧ represents (fibers w1) t c ∧
    trace w1 = trace w.
Proof.
  intros Hp. pose proof (at_thread _ _ _ _ _ Hp) as Ht. pose proof (at_queue _ _ _ _ _ Hp) as Hq.
  unfold queue in Hq. destruct (tasks_ w) as [|t ts] eqn:Ets; inversion Hq as [|??? ? Hc Hqs]; subst.
  assert (getNextTask self (fibers w) (tasks_ w) = Some (t, ts)) as Hg.
  { rewrite Ets. destruct (getNextTask_skip self (fibers w) t ts) as [[Hsk _]|[_ E]]; [|done].
    exfalso. destruct Hc as [Hpin Hc], Hsk as [?|Hex]; [naive_solver|].
    unfold is_exec in Hex. destruct (fiber t) as [f|] eqn:Ef; [|done].
    destruct (owned_stage w (at_owned _ _ _ _ _ Hp) f Suspended) as (x&Hx&[Hs _]).
    { unfold claims. rewrite Ets, queue_claims_cons, Ef. by left. }
    rewrite Hx in Hex. apply bool_decide_eq_true in Hex. destruct Hs as [?|[?|?]]; congruence. }
  set (w1 := set_thread self (mkThread (Taken t) cbf) (set_tasks ts w)).
  assert (thread_step configured self w = Some (inr w1)) as Hs.
  { unfold thread_step. rewrite Ht. cbn [mbind option_bind at_ cb_fiber]. by rewrite Hg. }
  exists t, w1. split; [by apply (runs_step w w1)|]. split; [|done].
  apply (at_phase_step _ _ _ _ _ _ _ _ _ Hp); [unfold allowed; by rewrite Ht|done|
    apply lookup_insert_eq|apply Hp|done].
Qed.

(** The fiber that runs a callback, just made or used again. *)
Lemma fiber_for_fresh c t cbf b q w :
  at_phase (Taken t) cbf b q w → fiber t = None →
  ∃ f w1 x, fiber_for configured (Some c) cbf w = inr (f, w1) ∧ queue w1 q ∧
    fibers w1 !! f = Some x ∧ state_ x = INIT ∧ ctx_ x = Some Entry ∧ cb_ x = Some c ∧
    (∀ u, u ∈ tasks_ w1 → fiber u ≠ Some f) ∧
    threads w1 = threads w ∧ stopping_ w1 = stopping_ w ∧ trace w1 = trace w.
Proof.
  intros Hp Ef. pose proof (at_thread _ _ _ _ _ Hp) as Ht. pose proof (at_queue _ _ _ _ _ Hp) as Hq.
  assert (∀ u, u ∈ tasks_ w → fiber u ≠ Some (fresh (dom (fibers w)))) as Hfresh.
  { intros u Hu Eu. pose proof (fresh_unclaimed w (at_owned _ _ _ _ _ Hp)) as H. apply H.
    apply list_elem_of_fmap. exists (fresh (dom (fibers w)), Suspended). split; [done|].
    unfold claims. apply elem_of_app. left. unfold queue_claims. apply list_elem_of_fmap.
    eexists. split; [done|]. apply list_elem_of_omap. by exists u. }
  assert (∀ w0, fibers w0 = fibers w → tasks_ w0 = tasks_ w → threads w0 = threads w →
    stopping_ w0 = stopping_ w → trace w0 = trace w → ∃ f w1 x,
    inr (new_fiber configured (Some c) w0) = (inr (f, w1) : fault + _) ∧ queue w1 q ∧
    fibers w1 !! f = Some x ∧ state_ x = INIT ∧ ctx_ x = Some Entry ∧ cb_ x = Some c ∧
    (∀ u, u ∈ tasks_ w1 → fiber u ≠ Some f) ∧
    threads w1 = threads w ∧ stopping_ w1 = stopping_ w ∧ trace w1 = trace w) as Hnew.
  { intros w0 E1 E2 E3 E4 E5. unfold new_fiber. cbv zeta. eexists _, _, _. split; [done|]. rewrite E1.
    split; [apply queue_set_fiber|split; [apply lookup_insert_eq|split_and!; try done]].
    - unfold queue, count_fiber. cbn [fibers tasks_]. by rewrite E1, E2.
    - cbn [tasks_ count_fiber]. by rewrite E2.
    - cbn [tasks_ set_fiber count_fiber]. by rewrite E2. }
  unfold fiber_for. destruct cbf as [g|]; cbn [mbind option_bind]; [|by apply Hnew].
  destruct (claimed w self _ g Done (at_owned _ _ _ _ _ Hp) Ht) as (x&Hx&Hend).
  { unfold thread_claims. apply elem_of_app. right. by left. }
  rewrite Hx. cbn [mbind option_bind]. destruct (decide (state_ x = TERM)) as [E|E].
  - rewrite bool_decide_eq_true_2 by done. unfold reset.
    rewrite (bool_decide_eq_true_2 (state_ x = TERM)), orb_true_r by done. cbn [orb].
    assert (∀ u, u ∈ tasks_ w → fiber u ≠ Some g) as Hno.
    { intros u. apply (queue_without g Done u w _ _ (at_owned _ _ _ _ _ Hp) Ht).
      unfold thread_claims. apply elem_of_app. right. by left. }
    eexists _, _, _. split; [done|]. split; [by apply queue_set_fiber|].
    split; [apply lookup_insert_eq|]. done.
  - rewrite bool_decide_eq_false_2 by done. by apply Hnew.
Qed.

(** The task at the head of the queue is run up to its first call. *)
Lemma head_runs cbf b c q w :
  at_phase Looping cbf b (c :: q) w →
  ∃ f o cbf' w', runs 2 w w' ∧ at_phase (Running f c o) cbf' b q w' ∧ ours o ∧ trace w' = trace w.
Proof.
  intros Hp0. destruct (head_taken cbf b c q w Hp0) as (t&w1&Hr1&Hp&Hc&Htr1).
  pose proof (at_thread _ _ _ _ _ Hp) as Ht. pose proof (at_queue _ _ _ _ _ Hp) as Hq.
  assert (allowed w1 self) as Hal by (unfold allowed; by rewrite Ht).
  assert (∃ f o cbf' w', thread_step configured self w1 = Some (inr w') ∧ ours o ∧
    threads w' !! self = Some (mkThread (Running f c o) cbf') ∧ stopping_ w' = b ∧ queue w' q ∧
    trace w' = trace w1) as (f&o&cbf'&w'&Hs&Ho&Ht'&Hb&Hq'&Htr).
  { unfold thread_step. rewrite Ht. cbn [mbind option_bind at_ cb_fiber]. destruct Hc as [Hpin Hc].
    pose proof (at_stopping _ _ _ _ _ Hp) as Hb. destruct (fiber t) as [f|] eqn:Ef.
    - destruct Hc as (x&Hx&Hctx).
      assert ((f, Suspended) ∈ thread_claims (mkThread (Taken t) cbf)) as Hcl.
      { unfold thread_claims. cbn. rewrite Ef. by left. }
      destruct (claimed w1 self _ f Suspended (at_owned _ _ _ _ _ Hp) Ht Hcl) as (y&Hy&[Hst _]).
      rewrite Hx in Hy. injection Hy as <-. unfold resume_fiber. rewrite Hx. unfold resume.
      rewrite !bool_decide_eq_false_2 by (intros E; rewrite E in Hst; naive_solver). cbn [orb].
      rewrite Hctx. cbn [code_at]. eexists f, (FromQueue (thread_id t)), cbf, _.
      split; [done|]. split_and!; [done|apply lookup_insert_eq|done| |done].
      apply (queue_set_fiber f _ w1 q Hq). intros u.
      by apply (queue_without f Suspended u w1 _ _ (at_owned _ _ _ _ _ Hp) Ht).
    - rewrite Hc. destruct (fiber_for_fresh c t cbf b q w1 Hp Ef)
        as (f&w2&x&->&Hq2&Hx&Hst&Hctx&Hcb&Hno&Et&Es&Etr).
      unfold resume_fiber. rewrite Hx. unfold resume.
      rewrite !bool_decide_eq_false_2 by congruence. cbn [orb].
      rewrite Hctx. cbn [code_at]. rewrite Hcb. eexists f, FromCb, (Some f), _.
      split; [done|]. split_and!; [done|apply lookup_insert_eq| | |done].
      + cbn. congruence.
      + by apply (queue_set_fiber f _ w2 q Hq2). }
  exists f, o, cbf', w'. split; [|split; [|split; [done|congruence]]].
  - apply (runs_app 1 1 w w1 w' Hr1). by apply (runs_step w1 w').
  - by apply (at_phase_step _ _ _ _ _ _ _ _ _ Hp Hal Hs).
Qed.

(** With an empty queue the thread goes to sleep, or leaves when stopped. *)
Lemma empty_runs cbf b w m :
  at_phase Looping cbf b [] w →
  ∃ w', runs (3 + m) w w' ∧ tasks_ w' = [] ∧ trace w' = trace w ∧
    threads w' !! self = Some (mkThread (if b then Exited else Waiting) cbf).
Proof.
  intros Hp. pose proof (at_thread _ _ _ _ _ Hp) as Ht. pose proof (at_queue _ _ _ _ _ Hp) as Hq.
  pose proof (at_stopping _ _ _ _ _ Hp) as Hb. apply Forall2_nil_inv_r in Hq as Eq.
  set (goes p := set_thread self (mkThread p cbf)).
  assert (thread_step configured self w = Some (inr (goes Waiting w))) as H1.
  { unfold thread_step. rewrite Ht. cbn [mbind option_bind at_ cb_fiber]. by rewrite Eq. }
  assert (∀ p v, threads (goes p v) !! self = Some (mkThread p cbf)) as Hg
    by (intros; apply lookup_insert_eq).
  destruct b.
  - exists (goes Exited (goes Woken (goes Waiting w))). split_and!; [|done|done|apply Hg].
    eapply runs_step; [exact H1|]. eapply runs_step.
    { unfold thread_step. rewrite Hg. cbn [mbind option_bind at_ cb_fiber].
      change (stopping_ (goes Waiting w)) with (stopping_ w). by rewrite Hb. }
    eapply runs_step.
    { unfold thread_step. fold (goes Woken). rewrite Hg. cbn [mbind option_bind at_ cb_fiber].
      change (stopping_ (goes Woken (goes Waiting w))) with (stopping_ w).
      change (tasks_ (goes Woken (goes Waiting w))) with (tasks_ w). by rewrite Hb, Eq. }
    apply runs_stuck. unfold thread_step. fold (goes Exited). by rewrite Hg.
  - exists (goes Waiting w). split_and!; [|done|done|apply Hg].
    eapply runs_step; [exact H1|]. apply runs_stuck. unfold thread_step. rewrite Hg.
    cbn [mbind option_bind at_ cb_fiber]. change (stopping_ (goes Waiting w)) with (stopping_ w).
    change (tasks_ (goes Waiting w)) with (tasks_ w). by rewrite Hb, Eq.
Qed.

(** Enough steps empty the queue in the order of the specification. *)
Lemma drains fuel : ∀ q w cbf b,
  (total q <= fuel)%nat → Forall local q → at_phase Looping cbf b q w →
  ∃ n, ∀ m, ∃ w', runs (n + m) w w' ∧ trace w' = trace w ++ round_robin fuel q ∧ tasks_ w' = [] ∧
    at_ <$> threads w' !! self = Some (if b then Exited else Waiting).
Proof.
  induction fuel as [|fuel IH]; intros [|c q] w cbf b Hf Hl Hp;
    try (exists 3%nat; intros m; destruct (empty_runs cbf b w m Hp) as (w'&Hr&Ht&Htr&Hth);
      exists w'; split_and!; [done|by rewrite Htr, app_nil_r|done|by rewrite Hth]).
  - exfalso. change (total (c :: q)) with (size c + total q)%nat in Hf.
    pose proof (burst_shrinks c). destruct (burst c) as [[? ?] ?]. lia.
  - apply Forall_cons in Hl as [Hc Hq]. change (total (c :: q)) with (size c + total q)%nat in Hf.
    destruct (head_runs cbf b c q w Hp) as (f&o&cbf1&w1&Hr1&Hp1&Ho&Htr1).
    pose proof (burst_runs c f o cbf1 b q w1 Hc Hp1 Ho) as H. pose proof (burst_shrinks c) as Hs.
    pose proof (burst_local c Hc) as Hb. cbn [round_robin].
    destruct (burst c) as [[tr new] again]. destruct H as (n&cbf2&w2&Hr2&Hp2&Htr2), Hb as [Hb1 Hb2].
    destruct (IH (q ++ new ++ option_list again) w2 cbf2 b) as (n3&H3).
    + rewrite !total_app. lia.
    + by rewrite !Forall_app.
    + done.
    + exists (2 + n + n3)%nat. intros m. destruct (H3 m) as (w'&Hr3&Htr3&Ht3&Hth).
      exists w'. split; [|split; [|done]].
      * replace (2 + n + n3 + m)%nat with (2 + (n + (n3 + m)))%nat by lia.
        apply (runs_app 2 _ _ _ _ Hr1), (runs_app n _ _ _ _ Hr2), Hr3.
      * by rewrite Htr3, Htr2, Htr1, <- app_assoc.
Qed.
End one_thread.

(** ** Tasks no thread may take *)

Section foreign.
Context (configured : Z).
Implicit Types (w : world).

(** A task pinned to a thread the scheduler does not have. *)
Definition foreign w (t : ScheduleTask) : Prop :=
  thread_id t ≠ -1 ∧ threads w !! thread_id t = None.

(** A step of another thread than the pinned one leaves the task in the queue,
    and does not leave the loop. *)
Lemma thread_step_keeps self w w' t :
  thread_step configured self w = Some (inr w') → t ∈ tasks_ w →
  thread_id t ≠ -1 → thread_id t ≠ self →
  t ∈ tasks_ w' ∧ ∃ th, at_ th ≠ Exited ∧ threads w' = <[self := th]> (threads w).
Proof.
  intros Hs Hin H1 H2. unfold thread_step in Hs.
  destruct (threads w !! self) as [[p cbf]|]; [|done]. cbn [mbind option_bind at_ cb_fiber] in Hs.
  assert (∀ w1 th, t ∈ tasks_ w1 → at_ th ≠ Exited → threads w1 = threads w →
    t ∈ tasks_ (set_thread self th w1) ∧
    ∃ th', at_ th' ≠ Exited ∧ threads (set_thread self th w1) = <[self := th']> (threads w)) as Hgo.
  { intros w1 th Hw1 Hth Et. split; [done|]. exists th. split; [done|]. cbn. by rewrite Et. }
  assert (∀ f o c w1 w2, t ∈ tasks_ w1 → threads w1 = threads w →
    resume_fiber self f o c w1 = inr w2 → t ∈ tasks_ w2 ∧
    ∃ th', at_ th' ≠ Exited ∧ threads w2 = <[self := th']> (threads w)) as Hres.
  { intros f o c w1 w2 Hw1 Et Hr. unfold resume_fiber in Hr.
    destruct (fibers w1 !! f) as [x|]; [|done]. destruct (resume x) as [e|[k y]]; [done|].
    injection Hr as <-. by apply Hgo. }
  destruct p as [|task|f k o|f pt o|f o| | |].
  - destruct (getNextTask self (fibers w) (tasks_ w)) as [[u rest]|] eqn:Eg; injection Hs as <-;
      [|by apply Hgo]. apply getNextTask_split in Eg as (bf&af&Et&->&_&Hu). apply Hgo; [|done..].
    cbn. rewrite Et in Hin. set_unfold. destruct Hin as [?|[->|?]]; [by left| |by right].
    exfalso. apply Hu. by left.
  - destruct (fiber task) as [f|]; [by injection Hs; apply Hres|].
    unfold fiber_for in Hs.
    destruct (g ← cbf; x ← fibers w !! g; Some (g, x)) as [[g x]|].
    + destruct (bool_decide _); [|by injection Hs; apply Hres].
      destruct (reset _ x); [done|]. by injection Hs; apply Hres.
    + by injection Hs; apply Hres.
  - unfold run_code in Hs. destruct (fibers w !! f) as [x|]; [|done].
    destruct k; try (destruct (yield_to _ x); [done|]); injection Hs as <-; apply Hgo; try done;
      cbn; set_solver.
  - destruct (fibers w !! f) as [x|]; [|done]. injection Hs as <-. by apply Hgo.
  - unfold after_resume in Hs. destruct (fibers w !! f) as [x|]; [|done].
    destruct o; repeat destruct (bool_decide _); injection Hs as <-; apply Hgo; try done;
      cbn; set_solver.
  - destruct (_ || _); [|done]. injection Hs as <-. by apply Hgo.
  - destruct (stopping_ w && _) eqn:E; injection Hs as <-; [|by apply Hgo].
    exfalso. destruct (tasks_ w); [by apply elem_of_nil in Hin|]. by rewrite andb_false_r in E.
  - done.
Qed.

Lemma step_keeps w w' t :
  step configured w w' → t ∈ tasks_ w → foreign w t →
  t ∈ tasks_ w' ∧ foreign w' t ∧
  ∀ i th', threads w' !! i = Some th' → at_ th' = Exited → threads w !! i = Some th'.
Proof.
  intros Hs Hin [H1 H2]. destruct Hs as [self w' _ Hs|f tid _|c tid|cs|c|];
    try (split; [cbn; set_solver|done]).
  assert (is_Some (threads w !! self)) as Hself.
  { unfold thread_step in Hs. by destruct (threads w !! self). }
  assert (thread_id t ≠ self) as H3 by (intros E; rewrite <- E, H2 in Hself; by destruct Hself).
  destruct (thread_step_keeps self w w' t Hs Hin H1 H3) as (Hin'&th&Hth&Et).
  split; [done|]. split; [split; [done|]|]; rewrite Et.
  - by rewrite lookup_insert_ne.
  - intros i th'. destruct (decide (i = self)) as [->|Hne].
    + rewrite lookup_insert_eq. intros [= <-]. done.
    + by rewrite lookup_insert_ne.
Qed.
End foreign.

(** ** Main theorems *)

(** The callbacks, each for a thread id or -1, as the queue of the
    specification. *)
Definition callbacks (cs : list (code * Z)) : list code := cs.*1.

(** C10: one thread runs callbacks that are pinned to no thread, pin nothing,
    schedule callbacks and yield, exactly as a round-robin queue does: first in
    first out, what a callback schedules and
    then the callback itself (when it yields to ready) behind the others; after
    enough steps the queue is empty and the thread sleeps, or has left its loop
    when the scheduler is being stopped. *)
Theorem one_thread_round_robin configured self (cs : list (code * Z)) (stopped : bool) :
  Forall (λ p, p.2 = -1 ∧ local p.1) cs →
  let w := if stopped then stop (started [self] cs) else started [self] cs in
  ∃ n, ∀ m, ∃ w',
    run_threads configured (replicate (n + m) self) w = inr w' ∧
    trace w' = round_robin (total (callbacks cs)) (callbacks cs) ∧
    tasks_ w' = [] ∧
    at_ <$> threads w' !! self = Some (if stopped then Exited else Waiting).
Proof.
  intros Hcs w.
  assert (at_phase self Looping None stopped (callbacks cs) w) as Hp.
  { assert (threads w !! self = Some (mkThread Looping None)) as Ht.
    { unfold w. destruct stopped; cbn; apply lookup_insert_eq. }
    split; [|done|by unfold w; destruct stopped|].
    - pose proof (started_well_owned [self] cs). unfold w. destruct stopped; [|done].
      by apply (step_well_owned configured _ _ H), step_stop.
    - unfold queue. replace (tasks_ w) with (tasks_ (started [self] cs)) by (by unfold w; destruct stopped).
      clear Ht. cbn. unfold callbacks. generalize (fibers w). clear w. intros w.
      induction Hcs as [|[c tid] cs [Htid _] _ IH]; cbn; [constructor|]. constructor; [split; [by left|done]|done]. }
  destruct (drains configured self (total (callbacks cs)) (callbacks cs) w None stopped) as (n&Hn).
  - done.
  - unfold callbacks. apply Forall_fmap. eapply Forall_impl; [exact Hcs|]. by intros [c tid] [_ ?].
  - done.
  - exists n. intros m. destruct (Hn m) as (w'&Hr&Htr&Hrest). exists w'. split; [done|].
    split; [|done]. rewrite Htr. by unfold w; destruct stopped.
Qed.

(** A task for a thread the scheduler does not have stays in the queue for
    ever and keeps every thread in its loop, whatever happens - so [stop], which
    joins the threads, never returns; a thread that sleeps wakes up at once. *)
Theorem foreign_task_blocks_stop configured w w' t :
  rtc (step configured) w w' → t ∈ tasks_ w → foreign w t →
  t ∈ tasks_ w' ∧
  (∀ i th, threads w' !! i = Some th → at_ th = Exited → threads w !! i = Some th) ∧
  (∀ i cbf, threads w' !! i = Some (mkThread Waiting cbf) →
    run_threads configured [i; i] w' =
      inr (set_thread i (mkThread Looping cbf) (set_thread i (mkThread Woken cbf) w'))).
Proof.
  intros Hr. induction Hr as [w|w w1 w' Hs _ IH]; intros Hin Hf.
  - split; [done|]. split; [done|]. intros i cbf Hi. unfold run_threads, thread_step.
    rewrite Hi. cbn [mbind option_bind at_ cb_fiber].
    destruct (tasks_ w) as [|u l] eqn:El; [by apply elem_of_nil in Hin|].
    cbn [length Nat.eqb negb]. rewrite orb_true_r. cbn [threads set_thread].
    rewrite lookup_insert_eq. cbn [mbind option_bind at_ cb_fiber tasks_ stopping_ set_thread].
    rewrite El. cbn [length Nat.eqb]. by rewrite andb_false_r.
  - destruct (step_keeps configured w w1 t Hs Hin Hf) as (Hin1&Hf1&Hex).
    destruct (IH Hin1 Hf1) as (Hin'&Hex'&Hw). split; [done|]. split; [|done].
    intros i th Hi He. apply Hex; [by apply Hex'|done].
Qed.

(** [scheduler.h] says that tasks pinned to the thread are preferred; a task for
    any thread in front of such a task is taken first, so that with pinned tasks
    among the others the order is that of the queue, not of the comment. *)
Example pinned_task_not_preferred :
  let anyone := mkTask None (Some Return) (-1) in
  let pinned := mkTask None (Some Throw) 7 in
  getNextTask 7 ∅ [anyone; pinned] = Some (anyone, [pinned]).
Proof. reflexivity. Qed.

(** ** Witnesses *)

Definition greedy : code :=
  Effect $"a" (ScheduleCb (Effect $"c" Return) (-1) (YieldToReady (Effect $"d" Throw))).

Lemma one_thread_round_robin_witness :
  Forall (λ p, p.2 = -1 ∧ local p.1) [(greedy, -1); (Effect $"b" Return, -1)] ∧
  round_robin 20 [greedy; Effect $"b" Return] = [$"a"; $"b"; $"c"; $"d"] ∧
  ∃ n, ∀ m, ∃ w',
    run_threads kDefaultStackSize (replicate (n + m) 7)
      (stop (started [7] [(greedy, -1); (Effect $"b" Return, -1)])) = inr w' ∧
    trace w' = [$"a"; $"b"; $"c"; $"d"] ∧ tasks_ w' = [] ∧
    at_ <$> threads w' !! 7 = Some Exited.
Proof.
  assert (Forall (λ p, p.2 = -1 ∧ local p.1) [(greedy, -1); (Effect $"b" Return, -1)])
    as H by (repeat constructor; cbn; auto).
  split; [exact H|]. split; [vm_compute; reflexivity|].
  exact (one_thread_round_robin kDefaultStackSize 7 _ true H).
Defined.

(** A task for the thread 9 of a scheduler with the thread 1. *)
Lemma foreign_task_blocks_stop_witness :
  let w := started [1] [(Return, 9)] in
  let t := mkTask None (Some Return) 9 in
  rtc (step kDefaultStackSize) w (stop w) ∧ t ∈ tasks_ (stop w) ∧
  ∀ i th, threads (stop w) !! i = Some th → at_ th = Exited → threads w !! i = Some th.
Proof.
  intros w t.
  assert (rtc (step kDefaultStackSize) w (stop w)) as Hr by (apply rtc_once, step_stop).
  split; [exact Hr|].
  destruct (foreign_task_blocks_stop kDefaultStackSize w (stop w) t Hr) as (H1&H2&_).
  - by left.
  - split; [done|]. reflexivity.
  - split; [exact H1|exact H2].
Defined.
End SchedulerOrder.
