(* ===== verification/IOManager.v ===== *)
(** [IOManager] ([droplet/src/scheduler/iomanager.cc], [iomanager_events.cc],
    [iomanager_idle.cc]): the table of descriptors with the handlers that wait
    for them, cut where other threads can act - each critical section, the
    subtraction from the counter, each scheduling of a handler and each wake-up.
    The kernel's epoll instance is an argument. *)

From stdpp Require Import gmap.
From S2P Require Import Prelude Totals Fiber Scheduler.
Import Fiber Scheduler.

Module IOManager.

(** ** Masks *)

Definition NONE : Z := 0.
Definition READ : Z := Z.shiftl 1 0.
Definition WRITE : Z := Z.shiftl 1 2.
Definition kAllEvents : Z := Z.lor READ WRITE.
Definition kMaxTrackedFd : Z := Z.shiftl 1 20.

(** The kernel's bits ([sys/epoll.h]). *)
Definition EPOLLIN : Z := 1.
Definition EPOLLOUT : Z := 4.
Definition EPOLLERR : Z := 8.
Definition EPOLLHUP : Z := 16.
Definition EPOLLRDHUP : Z := 8192.

(** A test [events & mask]. *)
Definition has (events mask : Z) : bool := negb (Z.land events mask =? 0).
(** [events & ~mask] in 32 bits. *)
Definition without (events mask : Z) : Z := Z.land events (wrap 32 (Z.lnot mask)).

Definition validEvent (event : Z) : bool := (event =? READ) || (event =? WRITE).

Definition toEpollEvents (events : Z) : Z :=
  let result := 0 in
  let result := if has events READ then Z.lor result EPOLLIN else result in
  if has events WRITE then Z.lor result EPOLLOUT else result.

(** ** The table of descriptors *)

(** Who waits: a fiber or a callback. *)
Record EventContext := mkEventContext { fiber : option fid; cb : option code }.
Definition no_context : EventContext := mkEventContext None None.
Definition empty_context (c : EventContext) : bool :=
  match fiber c, cb c with None, None => true | _, _ => false end.

Record FdContext := mkFdContext {
  fd : Z;
  events : Z;
  read : EventContext;
  write : EventContext;
}.

(** The vector of pointers; a pointer is never null again. *)
Abbreviation fd_contexts_t := (list (option FdContext)).

Definition resize (n : nat) (v : fd_contexts_t) : fd_contexts_t :=
  v ++ replicate (n - length v) None.

(** The table afterwards and the context, [None] for a null pointer. *)
Definition getFdContext (fd : Z) (auto_create : bool) (v : fd_contexts_t)
    : fd_contexts_t * option FdContext :=
  if (fd <? 0) || (kMaxTrackedFd <? fd) then (v, None)
  else
    let n := Z.to_nat fd in
    if Nat.leb (length v) n && negb auto_create then (v, None)
    else
      let v := if Nat.leb (length v) n then resize (S n) v else v in
      match v !! n with
      | Some (Some c) => (v, Some c)
      | Some None =>
          if auto_create then
            let c := mkFdContext fd NONE no_context no_context in (<[n := Some c]> v, Some c)
          else (v, None)
      | None => (v, None)
      end.

Inductive errno := EINVAL | EPERM | EEXIST | ENOENT | EKernel (e : Z).

Inductive operation := EPOLL_CTL_ADD | EPOLL_CTL_MOD | EPOLL_CTL_DEL.

(** An operation between its critical section and its end: the count it still
    has to subtract, or the handlers it still has to schedule. *)
Inductive flight :=
  | Subtract (removed : nat) (handlers : list EventContext)
  | Trigger (handlers : list EventContext).

Section iomanager.
(** The kernel: the state of the epoll instance and [epoll_ctl], which fails
    with an error number. *)
Context {kernel : Type} (epoll_ctl : kernel → operation → Z → Z → kernel * option Z).

Record iom := mkIom {
  fd_contexts_ : fd_contexts_t;
  pending_event_count_ : Z;
  epoll_ : kernel;
  tasks_ : list ScheduleTask;
}.

Definition set_contexts (v : fd_contexts_t) (m : iom) : iom :=
  mkIom v (pending_event_count_ m) (epoll_ m) (tasks_ m).
Definition set_pending (n : Z) (m : iom) : iom :=
  mkIom (fd_contexts_ m) n (epoll_ m) (tasks_ m).
Definition set_epoll (k : kernel) (m : iom) : iom :=
  mkIom (fd_contexts_ m) (pending_event_count_ m) k (tasks_ m).
Definition set_tasks (l : list ScheduleTask) (m : iom) : iom :=
  mkIom (fd_contexts_ m) (pending_event_count_ m) (epoll_ m) l.
Definition set_context (c : FdContext) (m : iom) : iom :=
  set_contexts (<[Z.to_nat (fd c) := Some c]> (fd_contexts_ m)) m.

Definition updateEpoll (c : FdContext) (new_events : Z) (k : kernel) : kernel * option Z :=
  let op :=
    if new_events =? NONE then EPOLL_CTL_DEL
    else if events c =? NONE then EPOLL_CTL_ADD else EPOLL_CTL_MOD in
  epoll_ctl k op (fd c) (toEpollEvents new_events).

Definition trigger (h : EventContext) (m : iom) : iom :=
  match cb h with
  | Some c => set_tasks (tasks_ m ++ [mkTask None (Some c) (-1)]) m
  | None =>
      match fiber h with
      | Some f => set_tasks (tasks_ m ++ [mkTask (Some f) None (-1)]) m
      | None => m
      end
  end.

(** [fetch_sub] on a [size_t]. *)
Definition subtract (removed : nat) (m : iom) : iom :=
  set_pending (wrap 64 (pending_event_count_ m - Z.of_nat removed)) m.

(** The checks of [addEvent] before its handler is made: the current fiber, and
    whether it has a stack of its own. *)
Definition make_handler (callback : option code) (current : fid * bool) : option EventContext :=
  match callback with
  | Some c => Some (mkEventContext None (Some c))
  | None => if current.2 then Some (mkEventContext (Some current.1) None) else None
  end.

(** [addEvent] up to [tickle]. *)
Definition addEvent (fd event : Z) (callback : option code) (current : fid * bool) (m : iom)
    : (errno + unit) * iom :=
  if negb (validEvent event) then (inl EINVAL, m)
  else
    match make_handler callback current with
    | None => (inl EPERM, m)
    | Some handler =>
        match getFdContext fd true (fd_contexts_ m) with
        | (v, None) => (inl EINVAL, set_contexts v m)
        | (v, Some c) =>
            let m := set_contexts v m in
            if has (events c) event then (inl EEXIST, m)
            else
              let new_events := Z.lor (events c) event in
              match updateEpoll c new_events (epoll_ m) with
              | (k, Some e) => (inl (EKernel e), set_epoll k m)
              | (k, None) =>
                  let c :=
                    if event =? READ
                    then mkFdContext (IOManager.fd c) new_events handler (write c)
                    else mkFdContext (IOManager.fd c) new_events (read c) handler in
                  let m := set_context c (set_epoll k m) in
                  (inr tt, set_pending (wrap 64 (pending_event_count_ m + 1)) m)
              end
        end
    end.

(** Takes the handlers of [actual] out of a context. *)
Definition take_handlers (c : FdContext) (actual new_events : Z)
    : FdContext * list EventContext * nat :=
  let r := has actual READ in
  let w := has actual WRITE in
  (mkFdContext (fd c) new_events (if r then no_context else read c)
     (if w then no_context else write c),
   [if r then read c else no_context; if w then write c else no_context],
   (Nat.b2n r + Nat.b2n w)%nat).

(** The critical section [delEvent] and [cancelEvent] share: the handlers and
    their number. *)
Definition remove_events (fd event : Z) (m : iom) : (errno + (list EventContext * nat)) * iom :=
  if (event =? NONE) || negb (without event kAllEvents =? 0) then (inl EINVAL, m)
  else
    match getFdContext fd false (fd_contexts_ m) with
    | (v, None) => (inl ENOENT, set_contexts v m)
    | (v, Some c) =>
        let m := set_contexts v m in
        let actual := Z.land (events c) event in
        if actual =? NONE then (inl ENOENT, m)
        else
          let new_events := without (events c) event in
          match updateEpoll c new_events (epoll_ m) with
          | (k, Some e) => (inl (EKernel e), set_epoll k m)
          | (k, None) =>
              let '(c, handlers, removed) := take_handlers c actual new_events in
              (inr (handlers, removed), set_context c (set_epoll k m))
          end
    end.

(** [delEvent] drops the handlers; both leave the counter to a second step. *)
Definition delEvent_locked (fd event : Z) (m : iom) : (errno + flight) * iom :=
  match remove_events fd event m with
  | (inl e, m) => (inl e, m)
  | (inr (_, removed), m) => (inr (Subtract removed []), m)
  end.

Definition cancelEvent_locked (fd event : Z) (m : iom) : (errno + flight) * iom :=
  match remove_events fd event m with
  | (inl e, m) => (inl e, m)
  | (inr (handlers, removed), m) => (inr (Subtract removed handlers), m)
  end.

(** The events an answer of the kernel stands for. *)
Definition ready_events (epoll_events : Z) : Z :=
  let epoll_events :=
    if has epoll_events (Z.lor EPOLLERR (Z.lor EPOLLHUP EPOLLRDHUP))
    then Z.lor epoll_events (Z.lor EPOLLIN EPOLLOUT) else epoll_events in
  let ready := NONE in
  let ready := if has epoll_events EPOLLIN then Z.lor ready READ else ready in
  if has epoll_events EPOLLOUT then Z.lor ready WRITE else ready.

(** [processEvent] up to the end of the critical section; [None] when it returns
    false.  The result of [epoll_ctl] is ignored. *)
Definition processEvent_locked (fd epoll_events : Z) (m : iom) : option flight * iom :=
  match getFdContext fd false (fd_contexts_ m) with
  | (_, None) => (None, m)
  | (_, Some c) =>
      let ready := Z.land (ready_events epoll_events) (events c) in
      if ready =? NONE then (None, m)
      else
        let new_events := without (events c) ready in
        let '(k, _) := updateEpoll c new_events (epoll_ m) in
        let '(c, handlers, removed) := take_handlers c ready new_events in
        (Some (Subtract removed handlers), set_context c (set_epoll k m))
  end.

(** The next step of an operation in flight; [None] when it is over. *)
Definition fly (f : flight) (m : iom) : option flight * iom :=
  match f with
  | Subtract removed handlers => (Some (Trigger handlers), subtract removed m)
  | Trigger (h :: handlers) => (Some (Trigger handlers), trigger h m)
  | Trigger [] => (None, m)
  end.

(** An operation without interference. *)
Fixpoint land (handlers : list EventContext) (m : iom) : iom :=
  match handlers with [] => m | h :: handlers => land handlers (trigger h m) end.
Definition complete (f : flight) (m : iom) : iom :=
  match f with
  | Subtract removed handlers => land handlers (subtract removed m)
  | Trigger handlers => land handlers m
  end.

Definition finish_op (r : (errno + flight) * iom) : (errno + unit) * iom :=
  match r with
  | (inl e, m) => (inl e, m)
  | (inr f, m) => (inr tt, complete f m)
  end.
Definition delEvent (fd event : Z) (m : iom) : (errno + unit) * iom :=
  finish_op (delEvent_locked fd event m).
Definition cancelEvent (fd event : Z) (m : iom) : (errno + unit) * iom :=
  finish_op (cancelEvent_locked fd event m).
Definition cancelAll (fd : Z) : iom → (errno + unit) * iom := cancelEvent fd kAllEvents.
Definition processEvent (fd epoll_events : Z) (m : iom) : bool * iom :=
  match processEvent_locked fd epoll_events m with
  | (None, m) => (false, m)
  | (Some f, m) => (true, complete f m)
  end.

(** The end of the destructor. *)
Fixpoint clear_contexts (v : fd_contexts_t) (k : kernel) : fd_contexts_t * kernel :=
  match v with
  | [] => ([], k)
  | None :: v => let '(v, k) := clear_contexts v k in (None :: v, k)
  | Some c :: v =>
      let k := if events c =? NONE then k else (epoll_ctl k EPOLL_CTL_DEL (fd c) 0).1 in
      let '(v, k) := clear_contexts v k in
      (Some (mkFdContext (fd c) NONE no_context no_context) :: v, k)
  end.
Definition clearAllEventsWithoutResume (m : iom) : iom :=
  let '(v, k) := clear_contexts (fd_contexts_ m) (epoll_ m) in mkIom v 0 k (tasks_ m).

(** [stopping]: the flags, the counter, the timers and the queue. *)
Definition stopping (stopping_ force_stop_ hasTimer : bool) (m : iom) : bool :=
  if negb stopping_ then false
  else if force_stop_ then true
  else if negb (pending_event_count_ m =? 0) || hasTimer then false
  else match tasks_ m with [] => true | _ => false end.

(** ** One pass of [idle] *)

(** An entry of the answer of [epoll_wait]: the eventfd or a descriptor. *)
Inductive ready_entry := Tickled | ReadyFd (fd epoll_events : Z).

(** [epoll_wait] is interrupted, fails otherwise or answers. *)
Inductive epoll_answer := Interrupted | Failed | Answered (entries : list ready_entry).

(** The idle fiber ends, yields to [run], or waits again. *)
Inductive idle_outcome := Leave | Yield | Again.

(** The flag [ready] behind an entry, for what [processEvent] returned. *)
Definition ready_after (e : ready_entry) (processed ready : bool) : bool :=
  match e with
  | Tickled => true
  | ReadyFd _ _ => if processed then true else ready
  end.

Fixpoint idle_entries (entries : list ready_entry) (ready : bool) (m : iom) : bool * iom :=
  match entries with
  | [] => (ready, m)
  | e :: entries =>
      let '(processed, m) :=
        match e with
        | Tickled => (false, m)
        | ReadyFd fd epoll_events => processEvent fd epoll_events m
        end in
      idle_entries entries (ready_after e processed ready) m
  end.

Fixpoint schedule_expired (expired : list code) (m : iom) : iom :=
  match expired with
  | [] => m
  | c :: expired => schedule_expired expired (set_tasks (tasks_ m ++ [mkTask None (Some c) (-1)]) m)
  end.

Definition ready_expired (expired : list code) (ready : bool) : bool :=
  match expired with [] => ready | _ => true end.

(** How the pass ends. *)
Definition idle_end (stop ready : bool) : idle_outcome :=
  if stop then Leave else if ready then Yield else Again.

(** The body of the loop behind [epoll_wait], with the callbacks of expired
    timers and the flags [stopping] reads. *)
Definition idle_pass (answer : epoll_answer) (expired : list code)
    (stopping_ force_stop_ hasTimer : bool) (m : iom) : idle_outcome * iom :=
  match answer with
  | Interrupted => (Again, m)
  | Failed => (Leave, m)
  | Answered entries =>
      let '(ready, m) := idle_entries entries false m in
      let ready := ready_expired expired ready in
      let m := schedule_expired expired m in
      (idle_end (stopping stopping_ force_stop_ hasTimer m) ready, m)
  end.
End iomanager.

(** ** Waiting *)

Definition INT_MAX : Z := 2 ^ 31 - 1.

(** The timeout of [epoll_wait] for what [getNextTimer] returns. *)
Definition idle_timeout (next_timer : Z) : Z :=
  if next_timer =? u64_max then -1
  else if INT_MAX <? next_timer then INT_MAX else to_signed 32 (wrap 32 next_timer).

(** [tickle]: a write to the eventfd, which fails when the counter would
    overflow. *)
Definition tickle (stopping_ : bool) (wake_count_ tokens : Z) : Z :=
  let value := if stopping_ then wake_count_ else 1 in
  if tokens + value <=? 2 ^ 64 - 2 then tokens + value else tokens.

(** [drainTickle] on an eventfd that counts down by one. *)
Definition drainTickle (tokens : Z) : Z := if tokens =? 0 then tokens else tokens - 1.
End IOManager.
