(* ===== verification/IOManagerProofs.v ===== *)
(** What the operations of the [IOManager] keep one by one: masks and handlers of
    a context agree, the table has a context for every descriptor below its
    size, and an operation moves handlers without losing or copying any. *)

From stdpp Require Import gmap.
From S2P Require Import Prelude Totals Fiber Scheduler IOManager.
Import Totals Fiber Scheduler IOManager.

Module IOManagerProofs.

(** ** Masks *)

Inductive valid_mask : Z → Prop :=
  | mask_none : valid_mask 0
  | mask_read : valid_mask 1
  | mask_write : valid_mask 4
  | mask_both : valid_mask 5.

#[local] Hint Constructors valid_mask : core.

Lemma land_both e : valid_mask (Z.land e 5).
Proof.
  assert (Z.land e 5 = Z.land (e mod 8) 5) as ->.
  { change 8 with (2 ^ 3). rewrite <- Z.land_ones by lia. change 5 with (Z.land (Z.ones 3) 5) at 1.
    by rewrite Z.land_assoc. }
  pose proof (Z.mod_pos_bound e 8 ltac:(lia)).
  generalize dependent (e mod 8). intros r Hr.
  assert (r = 0 ∨ r = 1 ∨ r = 2 ∨ r = 3 ∨ r = 4 ∨ r = 5 ∨ r = 6 ∨ r = 7) as Hin by lia.
  destruct_or! Hin; subst r; constructor.
Qed.

(** A mask of 32 bits without other bits than the two. *)
Lemma without_both e : 0 <= e < 2 ^ 32 → without e kAllEvents = 0 → valid_mask e.
Proof.
  intros He Hw. assert (e = Z.land e 5) as ->; [|apply land_both].
  unfold without in Hw. change (wrap 32 (Z.lnot kAllEvents)) with (Z.ldiff (Z.ones 32) 5) in Hw.
  assert (Z.land e (Z.ones 32) = e) as E by (rewrite Z.land_ones by lia; by apply Z.mod_small).
  rewrite <- E at 1. change (Z.ones 32) with (Z.lor (Z.ldiff (Z.ones 32) 5) 5).
  by rewrite Z.land_lor_distr_r, Hw.
Qed.

Lemma valid_mask_land e f : valid_mask e → valid_mask (Z.land f e).
Proof.
  intros He. pose proof (land_both (Z.land f e)) as H.
  assert (Z.land (Z.land f e) 5 = Z.land f e) as E; [|by rewrite E in H].
  rewrite <- Z.land_assoc. f_equal. by destruct He.
Qed.

Lemma valid_mask_without e f : valid_mask e → valid_mask (without e f).
Proof. intros He. unfold without. rewrite Z.land_comm. by apply valid_mask_land. Qed.

Lemma valid_mask_lor e f : valid_mask e → validEvent f = true → valid_mask (Z.lor e f).
Proof.
  unfold validEvent. intros He. rewrite orb_true_iff, !Z.eqb_eq. by intros [->| ->]; destruct He.
Qed.

(** The kernel's bits are the program's own. *)
Lemma toEpollEvents_id e : valid_mask e → toEpollEvents e = e.
Proof. by destruct 1. Qed.

Lemma ready_events_valid e : valid_mask (ready_events e).
Proof.
  unfold ready_events. cbv zeta. destruct (has _ EPOLLIN), (has _ EPOLLOUT); vm_compute; auto.
Qed.

Lemma valid_mask_range e : valid_mask e → 0 <= e < 2 ^ 32.
Proof. destruct 1; lia. Qed.

Lemma without_ldiff e x : valid_mask e → without e x = Z.ldiff e (Z.land x 5).
Proof.
  intros He. pose proof (valid_mask_range e He) as Hr. unfold without, wrap.
  rewrite <- Z.land_ones by lia. apply Z.bits_inj'. intros n Hn.
  rewrite Z.ldiff_spec, !Z.land_spec, Z.lnot_spec by lia.
  destruct (Z.testbit e n) eqn:Eb; [|done]. cbn [andb].
  assert (Z.testbit (Z.ones 32) n = true ∧ Z.testbit 5 n = true) as [-> ->].
  { split.
    - apply Z.ones_spec_iff; [lia|]. split; [done|]. destruct (Z.lt_ge_cases n 32); [done|].
      rewrite Z.bits_above_log2 in Eb; [done|lia|]. destruct (decide (e = 0)) as [->|?]; [cbn; lia|].
      apply Z.log2_lt_pow2; [lia|]. apply Z.lt_le_trans with (2 ^ 32); [lia|]. apply Z.pow_le_mono_r; lia.
    - assert (e = Z.land e 5) as E by (by destruct He). rewrite E, Z.land_spec in Eb.
      by apply andb_true_iff in Eb as [_ ?]. }
  by rewrite andb_true_r, andb_true_r.
Qed.

Lemma land_mask e x : valid_mask e → Z.land e x = Z.land e (Z.land x 5).
Proof. intros He. rewrite (Z.land_comm x), Z.land_assoc. f_equal. by destruct He. Qed.

(** ** Contexts *)

Definition registered (c : FdContext) : list EventContext :=
  (if has (events c) READ then [read c] else []) ++ (if has (events c) WRITE then [write c] else []).

Definition registered_in (v : fd_contexts_t) : list EventContext :=
  v ≫= from_option registered [].

(** A context belongs to its place, its mask is one of the four, and it holds a
    handler exactly for the events of the mask. *)
Record context_wf (n : nat) (c : FdContext) : Prop := {
  context_fd : fd c = Z.of_nat n;
  context_mask : valid_mask (events c);
  context_read : empty_context (read c) = negb (has (events c) READ);
  context_write : empty_context (write c) = negb (has (events c) WRITE);
}.

Record table_wf (v : fd_contexts_t) : Prop := {
  table_size : Z.of_nat (length v) <= kMaxTrackedFd + 1;
  table_contexts n c : v !! n = Some (Some c) → context_wf n c;
}.

(** The handlers that are there. *)
Definition live (handlers : list EventContext) : list EventContext :=
  filter (λ h, empty_context h = false) handlers.

(** The context if only the events of a mask were registered. *)
Definition masked (mask : Z) (c : FdContext) : FdContext :=
  mkFdContext (fd c) mask (read c) (write c).

(** Evaluates the tests of constant masks. *)
Ltac eval_masks :=
  repeat match goal with
  | |- context [has ?a ?b] =>
      let v := eval vm_compute in (has a b) in
      lazymatch v with true => idtac | false => idtac end; change (has a b) with v
  end.

Lemma take_handlers_facts n c x c' handlers removed :
  context_wf n c →
  take_handlers c (Z.land (events c) x) (without (events c) x) = (c', handlers, removed) →
  context_wf n c' ∧ fd c' = fd c ∧ events c' = without (events c) x ∧
  registered c ≡ₚ live handlers ++ registered c' ∧ removed = length (live handlers) ∧
  live handlers = registered (masked (Z.land (events c) x) c).
Proof.
  unfold masked. intros [Hfd Hm Hr Hw]. rewrite (land_mask _ x Hm), (without_ldiff _ x Hm).
  intros [= <- <- <-]. unfold registered, live. cbn [fd events read write].
  generalize dependent (read c). generalize dependent (write c).
  destruct Hm, (land_both x); eval_masks; cbn; intros w Hw r Hr;
    (split; [split; [done|cbn; once constructor|done|done]|]); (split; [done|]); (split; [done|]);
    rewrite ?Hr, ?Hw; (split; [first [done|apply (perm_swap w r [])]|split; done]).
Qed.

Lemma registered_in_app v1 v2 : registered_in (v1 ++ v2) = registered_in v1 ++ registered_in v2.
Proof. apply bind_app. Qed.

Lemma registered_none n : registered_in (replicate n None) = [].
Proof. by induction n. Qed.

(** One place of the table changes. *)
Lemma registered_insert v n o c :
  v !! n = Some o →
  from_option registered [] o ++ registered_in (<[n := Some c]> v) ≡ₚ registered c ++ registered_in v.
Proof.
  intros Hn. assert (n < length v)%nat as Hlt by (by apply lookup_lt_Some in Hn).
  rewrite insert_take_drop by done. rewrite <- (take_drop_middle v n o) at 3 by done.
  rewrite !registered_in_app. unfold registered_in at 2 4. cbn [mbind list_bind from_option].
  fold (registered_in (drop (S n) v)). solve_Permutation.
Qed.

(** A new context at a null pointer of the table. *)
Lemma created fd v n c :
  table_wf v → v !! n = Some None → c = mkFdContext fd NONE no_context no_context →
  fd = Z.of_nat n →
  table_wf (<[n := Some c]> v) ∧ registered_in (<[n := Some c]> v) = registered_in v ∧
  <[n := Some c]> v !! n = Some (Some c).
Proof.
  intros Hv Hn -> Hfd. assert (n < length v)%nat as Hlt by (by apply lookup_lt_Some in Hn).
  split_and!; [split| |by apply list_lookup_insert_eq].
  - rewrite length_insert. apply Hv.
  - intros m d. destruct (decide (m = n)) as [->|Hne].
    + rewrite list_lookup_insert_eq by done. intros [= <-]. split; [done|constructor|done|done].
    + rewrite list_lookup_insert_ne by done. apply (table_contexts v Hv).
  - rewrite insert_take_drop by done. rewrite <- (take_drop_middle _ _ _ Hn) at 3.
    by rewrite !registered_in_app.
Qed.

Lemma resized v n :
  table_wf v → (length v <= n)%nat → Z.of_nat n <= kMaxTrackedFd →
  table_wf (resize (S n) v) ∧ registered_in (resize (S n) v) = registered_in v ∧
  resize (S n) v !! n = Some None.
Proof.
  intros Hv Hlen Hn. unfold resize. split_and!; [split| |].
  - rewrite length_app, length_replicate. lia.
  - intros m d Hd. apply lookup_app_Some in Hd as [Hd|[_ Hd]]; [by apply (table_contexts v Hv)|].
    by apply lookup_replicate in Hd as [? _].
  - by rewrite registered_in_app, registered_none, app_nil_r.
  - rewrite lookup_app_r by lia. apply lookup_replicate. split; [done|lia].
Qed.

Lemma getFdContext_facts fd auto v v' r :
  getFdContext fd auto v = (v', r) → table_wf v →
  table_wf v' ∧ registered_in v' = registered_in v ∧
  (auto = false → v' = v) ∧
  match r with
  | Some c => 0 <= fd <= kMaxTrackedFd ∧ v' !! Z.to_nat fd = Some (Some c)
  | None => (fd < 0 ∨ kMaxTrackedFd < fd) ∨ auto = false
  end.
Proof.
  intros Hg Hv. unfold getFdContext in Hg.
  destruct (Z.ltb_spec fd 0), (Z.ltb_spec kMaxTrackedFd fd); cbn [orb] in Hg;
    try (injection Hg as <- <-; split_and!; [done..|by left; lia]).
  set (n := Z.to_nat fd) in *. destruct (Nat.leb_spec (length v) n) as [Hlen|Hlen]; cbn [andb] in Hg.
  - destruct auto; cbn [negb] in Hg; [|injection Hg as <- <-; split_and!; [done..|by right]].
    destruct (resized v n) as (Hv1&Hr1&Hn); [done|done|lia|].
    rewrite Hn in Hg. injection Hg as <- <-.
    destruct (created fd _ n _ Hv1 Hn eq_refl) as (Hv2&Hr2&Hn2); [lia|].
    split_and!; [done|by rewrite Hr2|done|lia|lia|done].
  - destruct (lookup_lt_is_Some_2 v n Hlen) as [o Hn]. rewrite Hn in Hg.
    destruct o as [c|]; [injection Hg as <- <-; split_and!; [done..|lia|lia|done]|].
    destruct auto; injection Hg as <- <-; [|split_and!; [done..|by right]].
    destruct (created fd _ n _ Hv Hn eq_refl) as (Hv2&Hr2&Hn2); [lia|].
    split_and!; [done|by rewrite Hr2|done|lia|lia|done].
Qed.

(** A context of the table changes its handlers. *)
Lemma replaced v n c c' :
  table_wf v → v !! n = Some (Some c) → context_wf n c' →
  table_wf (<[n := Some c']> v) ∧
  registered c ++ registered_in (<[n := Some c']> v) ≡ₚ registered c' ++ registered_in v.
Proof.
  intros Hv Hn Hc. split; [split|by apply (registered_insert v n (Some c))].
  - rewrite length_insert. apply Hv.
  - intros m d. destruct (decide (m = n)) as [->|Hne].
    + rewrite list_lookup_insert_eq by (by eapply lookup_lt_Some). by intros [= <-].
    + rewrite list_lookup_insert_ne by done. apply (table_contexts v Hv).
Qed.

(** ** Operations *)

Section operations.
Context {kernel : Type} (epoll_ctl : kernel → operation → Z → Z → kernel * option Z).
Implicit Types (m : @iom kernel).

Definition wf m : Prop := table_wf (fd_contexts_ m).
Definition waiting m : list EventContext := registered_in (fd_contexts_ m).

Lemma taken_facts v n c x c' handlers removed :
  table_wf v → v !! n = Some (Some c) →
  take_handlers c (Z.land (events c) x) (without (events c) x) = (c', handlers, removed) →
  fd c' = Z.of_nat n ∧ table_wf (<[n := Some c']> v) ∧
  registered_in v ≡ₚ live handlers ++ registered_in (<[n := Some c']> v) ∧
  removed = length (live handlers) ∧ live handlers = registered (masked (Z.land (events c) x) c).
Proof.
  intros Hv Hn Ht. pose proof (table_contexts v Hv n c Hn) as Hc.
  destruct (take_handlers_facts n c x c' handlers removed Hc Ht) as (Hc'&Hfd&_&Hr&Hlen&Hreg).
  destruct (replaced v n c c' Hv Hn Hc') as [Hv' Hp].
  split_and!; [by rewrite Hfd; apply (context_fd n c Hc)|done| |done|done].
  rewrite Hr in Hp. apply (Permutation_app_inv_l (registered c')). rewrite <- Hp. solve_Permutation.
Qed.

Lemma remove_events_facts fd event m r m' :
  remove_events epoll_ctl fd event m = (r, m') → wf m →
  wf m' ∧ pending_event_count_ m' = pending_event_count_ m ∧ tasks_ m' = tasks_ m ∧
  match r with
  | inl _ => waiting m' = waiting m
  | inr (handlers, removed) =>
      waiting m ≡ₚ live handlers ++ waiting m' ∧ removed = length (live handlers)
  end.
Proof.
  intros Hr Hm. unfold remove_events in Hr. destruct (_ || _); [by injection Hr as <- <-|].
  destruct (getFdContext fd false (fd_contexts_ m)) as [v oc] eqn:Eg.
  destruct (getFdContext_facts _ _ _ _ _ Eg Hm) as (Hv&Hreg&_&Hc).
  destruct oc as [c|]; [|by injection Hr as <- <-]. destruct Hc as [Hfd Hc].
  destruct (_ =? _); [by injection Hr as <- <-|].
  destruct (updateEpoll _ _ _ _) as [k [e|]]; [by injection Hr as <- <-|].
  destruct (take_handlers _ _ _) as [[c' handlers] removed] eqn:Et. injection Hr as <- <-.
  destruct (taken_facts _ _ _ _ _ _ _ Hv Hc Et) as (Hfd'&Hv'&Hp&Hlen&_).
  unfold wf, waiting. cbn [fd_contexts_ set_context set_contexts set_epoll pending_event_count_ tasks_].
  rewrite Hfd', Nat2Z.id. rewrite <- Hreg. done.
Qed.

Lemma processEvent_facts fd epoll_events m r m' :
  processEvent_locked epoll_ctl fd epoll_events m = (r, m') → wf m →
  wf m' ∧ pending_event_count_ m' = pending_event_count_ m ∧ tasks_ m' = tasks_ m ∧
  match r with
  | None => m' = m
  | Some f => ∃ handlers, f = Subtract (length (live handlers)) handlers ∧
      waiting m ≡ₚ live handlers ++ waiting m'
  end.
Proof.
  intros Hr Hm. unfold processEvent_locked in Hr.
  destruct (getFdContext fd false (fd_contexts_ m)) as [v oc] eqn:Eg.
  destruct (getFdContext_facts _ _ _ _ _ Eg Hm) as (Hv&Hreg&Hsame&Hc). specialize (Hsame eq_refl).
  subst v. destruct oc as [c|]; [|by injection Hr as <- <-]. destruct Hc as [Hfd Hc].
  set (ready := Z.land _ _) in Hr. destruct (ready =? NONE); [by injection Hr as <- <-|].
  destruct (updateEpoll _ _ _ _) as [k ?].
  destruct (take_handlers _ _ _) as [[c' handlers] removed] eqn:Et. injection Hr as <- <-.
  assert (ready = Z.land (events c) ready) as E.
  { unfold ready. rewrite (Z.land_comm (ready_events _)), Z.land_assoc. by rewrite Z.land_diag. }
  rewrite E in Et at 1. destruct (taken_facts _ _ _ _ _ _ _ Hm Hc Et) as (Hfd'&Hv'&Hp&Hlen&_).
  unfold wf, waiting. cbn [fd_contexts_ set_context set_contexts set_epoll pending_event_count_ tasks_].
  rewrite Hfd', Nat2Z.id. split_and!; [done..|]. exists handlers. by rewrite Hlen.
Qed.

Lemma make_handler_live callback current h :
  make_handler callback current = Some h → empty_context h = false.
Proof.
  unfold make_handler. destruct callback; [by intros [= <-]|]. destruct current.2; [|done].
  by intros [= <-].
Qed.

Lemma registered_add n c event h :
  context_wf n c → validEvent event = true → has (events c) event = false →
  empty_context h = false →
  let c' := if event =? READ then mkFdContext (fd c) (Z.lor (events c) event) h (write c)
            else mkFdContext (fd c) (Z.lor (events c) event) (read c) h in
  context_wf n c' ∧ fd c' = fd c ∧ registered c' ≡ₚ h :: registered c.
Proof.
  intros [Hfd Hm Hr Hw] Hev Hhas Hh. unfold validEvent in Hev. apply orb_true_iff in Hev.
  rewrite !Z.eqb_eq in Hev. unfold registered.
  destruct Hev as [-> | ->]; (destruct c as [f e r w]; cbn [fd events read write] in *);
    revert Hhas Hr Hw; destruct Hm; eval_masks; try done; intros _ Hr Hw; cbn [negb Z.eqb READ WRITE] in *.
  all: cbn; (split; [split; [done|cbn; once constructor|done|done]|split; [done|]]); eval_masks; cbn;
    first [done|apply perm_swap].
Qed.

Lemma addEvent_facts fd event callback current m r m' :
  addEvent epoll_ctl fd event callback current m = (r, m') → wf m →
  wf m' ∧ tasks_ m' = tasks_ m ∧
  match r with
  | inl _ => waiting m' = waiting m ∧ pending_event_count_ m' = pending_event_count_ m
  | inr _ => ∃ h, make_handler callback current = Some h ∧ waiting m' ≡ₚ h :: waiting m ∧
      pending_event_count_ m' = wrap 64 (pending_event_count_ m + 1)
  end.
Proof.
  intros Hr Hm. unfold addEvent in Hr.
  destruct (validEvent event) eqn:Ev; cbn [negb] in Hr; [|by injection Hr as <- <-].
  destruct (make_handler callback current) as [h|] eqn:Eh; [|by injection Hr as <- <-].
  destruct (getFdContext fd true (fd_contexts_ m)) as [v oc] eqn:Eg.
  destruct (getFdContext_facts _ _ _ _ _ Eg Hm) as (Hv&Hreg&_&Hc).
  destruct oc as [c|]; [|by injection Hr as <- <-]. destruct Hc as [Hfd Hc].
  destruct (has (events c) event) eqn:Ehas; [by injection Hr as <- <-|].
  destruct (updateEpoll _ _ _ _) as [k [e|]]; [by injection Hr as <- <-|].
  injection Hr as <- <-. pose proof (table_contexts v Hv _ c Hc) as Hcw.
  destruct (registered_add _ c event h Hcw Ev Ehas (make_handler_live _ _ _ Eh)) as (Hc'&Hfd'&Hreg').
  set (c' := if event =? READ then _ else _) in *.
  destruct (replaced v _ c c' Hv Hc Hc') as [Hv' Hp].
  unfold wf, waiting. cbn [fd_contexts_ set_context set_contexts set_epoll set_pending pending_event_count_ tasks_].
  rewrite Hfd', (context_fd _ _ Hcw), Nat2Z.id. split_and!; [done..|]. exists h. split_and!; [done| |done].
  apply (Permutation_app_inv_l (registered c)). rewrite Hp, Hreg', Hreg. solve_Permutation.
Qed.
End operations.
End IOManagerProofs.
