(* ===== verification/IOManagerRuns.v ===== *)
(** Runs of the [IOManager]: the interleavings of its operations, what they
    keep, one-shot readiness, when [stopping] may be believed, and which
    wake-ups are lost. *)

From stdpp Require Import gmap.
From S2P Require Import Prelude Totals Fiber Scheduler SchedulerProofs IOManager IOManagerProofs.
Import Totals Fiber Scheduler SchedulerProofs IOManager IOManagerProofs.

Module IOManagerRuns.
Section runs.
Context {kernel : Type} (epoll_ctl : kernel → operation → Z → Z → kernel * option Z).

(** ** Interleavings *)

(** The state, the operations in flight, and what has happened to handlers. *)
Record world := mkWorld {
  state : @iom kernel;
  flights : gmap positive flight;
  added : list EventContext;
  deleted : list EventContext;
  triggered : list EventContext;
}.
Implicit Types (w : world) (m : @iom kernel).

Definition start (m : @iom kernel) : world := mkWorld m ∅ [] [] [].

Definition launch (i : positive) (f : option flight) (fs : gmap positive flight) : gmap positive flight :=
  match f with Some f => <[i := f]> fs | None => delete i fs end.

Definition from_locked (r : errno + flight) : option flight :=
  match r with inr f => Some f | inl _ => None end.

Definition carried (f : flight) : list EventContext :=
  match f with Subtract _ hs | Trigger hs => live hs end.
Definition to_subtract (f : flight) : nat :=
  match f with Subtract n _ => n | Trigger _ => 0 end.

(** The handlers [delEvent] drops. *)
Definition dropped_by fd event m : list EventContext :=
  match (remove_events epoll_ctl fd event m).1 with inr (hs, _) => live hs | inl _ => [] end.

(** The handler the next step of an operation schedules. *)
Definition scheduled_by (f : flight) : list EventContext :=
  match f with Trigger (h :: _) => live [h] | _ => [] end.

(** Callers call the operations, the kernel reports events, operations go on,
    and the queue of tasks changes as its threads work. *)
Inductive step w : world → Prop :=
  | step_add fd event callback current r m :
      addEvent epoll_ctl fd event callback current (state w) = (r, m) →
      step w (mkWorld m (flights w)
        (match r with inr _ => option_list (make_handler callback current) | inl _ => [] end ++ added w)
        (deleted w) (triggered w))
  | step_delete i fd event r m :
      flights w !! i = None → delEvent_locked epoll_ctl fd event (state w) = (r, m) →
      step w (mkWorld m (launch i (from_locked r) (flights w)) (added w)
        (dropped_by fd event (state w) ++ deleted w) (triggered w))
  | step_cancel i fd event r m :
      flights w !! i = None → cancelEvent_locked epoll_ctl fd event (state w) = (r, m) →
      step w (mkWorld m (launch i (from_locked r) (flights w)) (added w) (deleted w) (triggered w))
  | step_process i fd epoll_events f m :
      flights w !! i = None → processEvent_locked epoll_ctl fd epoll_events (state w) = (f, m) →
      step w (mkWorld m (launch i f (flights w)) (added w) (deleted w) (triggered w))
  | step_fly i f f' m :
      flights w !! i = Some f → fly f (state w) = (f', m) →
      step w (mkWorld m (launch i f' (flights w)) (added w) (deleted w)
        (scheduled_by f ++ triggered w))
  | step_tasks l :
      step w (mkWorld (set_tasks l (state w)) (flights w) (added w) (deleted w) (triggered w)).

(** A new manager. *)
Definition fresh_state (k : kernel) : @iom kernel := mkIom [] 0 k [].
Definition reachable (k : kernel) : world → Prop := rtc step (start (fresh_state k)).

Record inv w : Prop := {
  inv_wf : wf (state w);
  inv_pending : pending_event_count_ (state w) =
    wrap 64 (Z.of_nat (length (waiting (state w)) + count to_subtract (flights w)));
  inv_handlers : added w ≡ₚ
    waiting (state w) ++ collect carried (flights w) ++ deleted w ++ triggered w;
}.

Lemma start_inv k : inv (start (fresh_state k)).
Proof.
  split; [split; [by vm_compute|by intros n c]| |].
  - cbn. by rewrite count_empty.
  - cbn. by rewrite collect_empty.
Qed.

(** Launching an operation from an unused place. *)
Lemma launched i f fs :
  fs !! i = None →
  count to_subtract (launch i f fs) = (from_option to_subtract 0 f + count to_subtract fs)%nat ∧
  collect carried (launch i f fs) ≡ₚ from_option carried [] f ++ collect carried fs.
Proof.
  intros Hi. destruct f as [f|]; cbn [launch from_option].
  - by rewrite count_insert, collect_insert.
  - by rewrite delete_id.
Qed.

Lemma wrap_add_l a b : wrap 64 (wrap 64 a + b) = wrap 64 (a + b).
Proof. apply Zplus_mod_idemp_l. Qed.

Lemma live_cons h hs : live (h :: hs) = live [h] ++ live hs.
Proof. unfold live. change (h :: hs) with ([h] ++ hs). by rewrite filter_app. Qed.

(** Handlers move from the table to an operation. *)
Lemma inv_moved w m i f hs dropped :
  inv w → flights w !! i = None → wf m → pending_event_count_ m = pending_event_count_ (state w) →
  from_option to_subtract 0%nat f = length hs → from_option carried [] f ++ dropped ≡ₚ hs →
  waiting (state w) ≡ₚ hs ++ waiting m →
  inv (mkWorld m (launch i f (flights w)) (added w) (dropped ++ deleted w) (triggered w)).
Proof.
  intros [Hw Hp Ha] Hi Hm Epend Hsub Hc Hwait. destruct (launched i f (flights w) Hi) as [Hn Hl].
  split; [done| |]; cbn [state flights added deleted triggered].
  - rewrite Epend, Hp, Hn, Hsub. apply Permutation_length in Hwait. rewrite length_app in Hwait.
    f_equal. lia.
  - rewrite Ha, Hl, Hwait, <- Hc. solve_Permutation.
Qed.

Lemma trigger_facts h m :
  fd_contexts_ (trigger h m) = fd_contexts_ m ∧
  pending_event_count_ (trigger h m) = pending_event_count_ m ∧
  epoll_ (trigger h m) = epoll_ m.
Proof. unfold trigger. by destruct (cb h), (fiber h). Qed.

(** An operation goes on. *)
Lemma inv_fly w i f f' m :
  inv w → flights w !! i = Some f → fly f (state w) = (f', m) →
  inv (mkWorld m (launch i f' (flights w)) (added w) (deleted w) (scheduled_by f ++ triggered w)).
Proof.
  intros [Hwf Hp Ha] Hi Hr. rewrite (count_lookup to_subtract _ _ _ Hi) in Hp.
  rewrite (collect_lookup carried _ _ _ Hi) in Ha.
  destruct f as [n hs|[|h hs]]; cbn [fly] in Hr; injection Hr as <- <-;
    (split; cbn [state flights added deleted triggered launch];
     [|rewrite ?count_update|rewrite ?collect_update]); try done.
  - cbn [pending_event_count_ subtract set_pending to_subtract] in *.
    rewrite Hp. unfold wrap. rewrite Zminus_mod_idemp_l. f_equal.
    change (waiting (subtract n (state w))) with (waiting (state w)). lia.
  - unfold wf. by rewrite (proj1 (trigger_facts h (state w))).
  - destruct (trigger_facts h (state w)) as (E1&E2&_). rewrite E2, Hp. unfold waiting. by rewrite E1.
  - unfold waiting. rewrite (proj1 (trigger_facts h (state w))), Ha. cbn [carried scheduled_by].
    rewrite (live_cons h hs). unfold waiting. solve_Permutation.
Qed.

Lemma step_inv w w' : inv w → step w w' → inv w'.
Proof.
  intros Hw Hs. pose proof (inv_wf w Hw) as Hwf. destruct Hs as
    [fd event callback current r m Hr|i fd event r m Hi Hr|i fd event r m Hi Hr
    |i fd ev f m Hi Hr|i f f' m Hi Hr|l].
  - destruct (addEvent_facts epoll_ctl _ _ _ _ _ _ _ Hr Hwf) as (Hm&_&H).
    destruct Hw as [_ Hp Ha]. destruct r as [e|[]].
    + destruct H as [Hwait Hpend]. split; cbn [state flights added deleted triggered]; [done| |].
      * by rewrite Hpend, Hwait.
      * by rewrite Hwait.
    + destruct H as (h&->&Hwait&Hpend). split; cbn [state flights added deleted triggered]; [done| |].
      * rewrite Hpend, Hp, wrap_add_l, Hwait. f_equal. cbn [length]. lia.
      * by rewrite Ha, Hwait.
  - unfold delEvent_locked in Hr. unfold dropped_by.
    destruct (remove_events epoll_ctl fd event (state w)) as [r0 m0] eqn:Er.
    destruct (remove_events_facts epoll_ctl _ _ _ _ _ Er Hwf) as (Hm&Hpend&_&H).
    destruct r0 as [e|[hs n]]; injection Hr as <- <-; cbn [from_locked fst].
    + apply (inv_moved w _ i None [] []); try done. by rewrite H.
    + destruct H as [Hwait ->].
      by apply (inv_moved w _ i (Some _) (live hs) (live hs)).
  - unfold cancelEvent_locked in Hr.
    destruct (remove_events epoll_ctl fd event (state w)) as [r0 m0] eqn:Er.
    destruct (remove_events_facts epoll_ctl _ _ _ _ _ Er Hwf) as (Hm&Hpend&_&H).
    destruct r0 as [e|[hs n]]; injection Hr as <- <-; cbn [from_locked].
    + apply (inv_moved w _ i None [] []); try done. by rewrite H.
    + destruct H as [Hwait ->]. apply (inv_moved w _ i (Some _) (live hs) []); try done.
      by rewrite app_nil_r.
  - destruct (processEvent_facts epoll_ctl _ _ _ _ _ Hr Hwf) as (Hm&Hpend&_&H).
    destruct f as [f|].
    + destruct H as (hs&->&Hwait). apply (inv_moved w _ i (Some _) (live hs) []); try done.
      by rewrite app_nil_r.
    + subst m. by apply (inv_moved w _ i None [] []).
  - by apply (inv_fly w i f).
  - by destruct Hw.
Qed.

Lemma reachable_inv k w : reachable k w → inv w.
Proof.
  unfold reachable. pose proof (start_inv k) as H. revert H. generalize (start (fresh_state k)).
  intros w0 H Hr. induction Hr as [|w1 w2 w3 H12 _ IH]; [done|]. by apply IH, (step_inv w1).
Qed.

Lemma registered_length c : (length (registered c) <= 2)%nat.
Proof. unfold registered. destruct (has _ READ), (has _ WRITE); cbn; lia. Qed.

Lemma registered_in_length v : (length (registered_in v) <= 2 * length v)%nat.
Proof.
  induction v as [|[c|] v IH]; [done| |]; unfold registered_in; cbn [mbind list_bind from_option];
    fold (registered_in v); rewrite ?length_app; cbn [length app].
  - pose proof (registered_length c). lia.
  - lia.
Qed.

Lemma waiting_bound m : wf m → Z.of_nat (length (waiting m)) <= 2 * (kMaxTrackedFd + 1).
Proof.
  intros [Hs _]. pose proof (registered_in_length (fd_contexts_ m)). unfold waiting.
  rewrite Nat2Z.inj_le, Nat2Z.inj_mul in H. lia.
Qed.

(** With nothing in flight the counter is exact. *)
Lemma pending_exact w :
  inv w → flights w = ∅ → pending_event_count_ (state w) = Z.of_nat (length (waiting (state w))).
Proof.
  intros [Hwf Hp _] Hf. pose proof (waiting_bound _ Hwf) as Hb. rewrite Hp, Hf, count_empty, Nat.add_0_r.
  apply wrap_small. change (kMaxTrackedFd) with 1048576 in Hb. lia.
Qed.

(** ** Operations without interference *)

Definition task_of (h : EventContext) : ScheduleTask :=
  match cb h with
  | Some c => mkTask None (Some c) (-1)
  | None => mkTask (fiber h) None (-1)
  end.

Lemma trigger_tasks h m : tasks_ (trigger h m) = tasks_ m ++ (task_of <$> live [h]).
Proof.
  unfold trigger, task_of, live, empty_context. rewrite filter_cons.
  destruct h as [[f|] [c|]]; cbn; rewrite ?app_nil_r; done.
Qed.

Lemma land_facts hs m :
  fd_contexts_ (land hs m) = fd_contexts_ m ∧
  pending_event_count_ (land hs m) = pending_event_count_ m ∧
  epoll_ (land hs m) = epoll_ m ∧
  tasks_ (land hs m) = tasks_ m ++ (task_of <$> live hs).
Proof.
  revert m. induction hs as [|h hs IH]; intros m; cbn [land].
  - by rewrite app_nil_r.
  - destruct (IH (trigger h m)) as (E1&E2&E3&E4), (trigger_facts h m) as (T1&T2&T3).
    rewrite E1, E2, E3, E4, T1, T2, T3, trigger_tasks, (live_cons h hs), fmap_app, app_assoc. done.
Qed.

Lemma complete_facts n hs m :
  fd_contexts_ (complete (Subtract n hs) m) = fd_contexts_ m ∧
  pending_event_count_ (complete (Subtract n hs) m) = wrap 64 (pending_event_count_ m - Z.of_nat n) ∧
  epoll_ (complete (Subtract n hs) m) = epoll_ m ∧
  tasks_ (complete (Subtract n hs) m) = tasks_ m ++ (task_of <$> live hs).
Proof. cbn [complete]. by destruct (land_facts hs (subtract n m)) as (->&->&->&->). Qed.

(** The handlers a ready descriptor wakes: read, then write. *)
Definition ready_handlers fd epoll_events m : list EventContext :=
  match getFdContext fd false (fd_contexts_ m) with
  | (_, Some c) => registered (masked (Z.land (ready_events epoll_events) (events c)) c)
  | (_, None) => []
  end.

(** What is found at the place of a changed context. *)
Lemma getFdContext_insert fd v c c' :
  getFdContext fd false v = (v, Some c) →
  getFdContext fd false (<[Z.to_nat fd := Some c']> v) = (<[Z.to_nat fd := Some c']> v, Some c').
Proof.
  unfold getFdContext. destruct (_ || _); [done|]. rewrite length_insert. cbn [negb]. rewrite andb_true_r.
  destruct (Nat.leb_spec (length v) (Z.to_nat fd)); [done|]. intros _.
  by rewrite list_lookup_insert_eq by done.
Qed.

Lemma ready_consumed e r :
  valid_mask e → valid_mask r → Z.land r (without e (Z.land r e)) =? NONE = true.
Proof. by destruct 1, 1. Qed.

Lemma land_none_no_handlers c : registered (masked NONE c) = [].
Proof. done. Qed.

Lemma masked_handlers n c x :
  context_wf n c → Z.land (events c) x ≠ NONE → registered (masked (Z.land (events c) x) c) ≠ [].
Proof.
  intros Hc Hx. pose proof (valid_mask_land _ x (context_mask n c Hc)) as H. rewrite Z.land_comm in H.
  unfold registered, masked. cbn [events read write]. by destruct H.
Qed.

(** One call of [processEvent] on a context of the table. *)
Lemma processEvent_context fd epoll_events m c :
  wf m → getFdContext fd false (fd_contexts_ m) = (fd_contexts_ m, Some c) →
  let x := Z.land (ready_events epoll_events) (events c) in
  x ≠ NONE →
  ∃ c' hs k, processEvent_locked epoll_ctl fd epoll_events m =
      (Some (Subtract (length (live hs)) hs),
       set_contexts (<[Z.to_nat fd := Some c']> (fd_contexts_ m)) (set_epoll k m)) ∧
    events c' = without (events c) x ∧ live hs = registered (masked x c) ∧ valid_mask (events c) ∧
    table_wf (<[Z.to_nat fd := Some c']> (fd_contexts_ m)) ∧
    waiting m ≡ₚ live hs ++ registered_in (<[Z.to_nat fd := Some c']> (fd_contexts_ m)).
Proof.
  intros Hm Eg x Hx. unfold processEvent_locked. rewrite Eg. fold x.
  destruct (Z.eqb_spec x NONE); [done|].
  destruct (getFdContext_facts _ _ _ _ _ Eg Hm) as (_&_&_&Hfd&Hc).
  pose proof (table_contexts _ Hm _ _ Hc) as Hcw.
  destruct (updateEpoll _ _ _ _) as [k ?].
  destruct (take_handlers _ _ _) as [[c' hs] removed] eqn:Et.
  assert (x = Z.land (events c) x) as E.
  { unfold x. rewrite (Z.land_comm (ready_events _)), Z.land_assoc. by rewrite Z.land_diag. }
  rewrite E in Et at 1. destruct (taken_facts _ _ _ _ _ _ _ Hm Hc Et) as (Hfd'&Hv'&Hp&->&Hl).
  destruct (take_handlers_facts _ _ _ _ _ _ Hcw Et) as (_&_&Hev&_).
  rewrite <- E in Hl. exists c', hs, k. split_and!; try done.
  - unfold set_context. by rewrite Hfd', Nat2Z.id.
  - apply Hcw.
Qed.

(** A call of [processEvent] that finds nothing ready. *)
Lemma processEvent_nothing fd epoll_events m c :
  getFdContext fd false (fd_contexts_ m) = (fd_contexts_ m, Some c) →
  Z.land (ready_events epoll_events) (events c) = NONE →
  processEvent epoll_ctl fd epoll_events m = (false, m).
Proof. intros Eg E. unfold processEvent, processEvent_locked. by rewrite Eg, E. Qed.

(** What [processEvent] does to the handlers, the queue and the counter. *)
Lemma processEvent_effect fd epoll_events m :
  wf m →
  let '(b, m') := processEvent epoll_ctl fd epoll_events m in
  let hs := ready_handlers fd epoll_events m in
  wf m' ∧ (b = true ↔ hs ≠ []) ∧ waiting m ≡ₚ hs ++ waiting m' ∧
  tasks_ m' = tasks_ m ++ (task_of <$> hs) ∧
  (b = true → pending_event_count_ m' = wrap 64 (pending_event_count_ m - Z.of_nat (length hs))).
Proof.
  intros Hm. unfold ready_handlers.
  destruct (getFdContext fd false (fd_contexts_ m)) as [v oc] eqn:Eg.
  destruct (getFdContext_facts _ _ _ _ _ Eg Hm) as (_&_&Hsame&Hc). specialize (Hsame eq_refl). subst v.
  destruct oc as [c|].
  - destruct (decide (Z.land (ready_events epoll_events) (events c) = NONE)) as [Hx|Hx].
    + rewrite (processEvent_nothing _ _ _ _ Eg Hx), Hx. cbn. by rewrite app_nil_r.
    + destruct (processEvent_context fd epoll_events m c Hm Eg Hx)
        as (c'&hs&k&E&_&Hl&_&Hv'&Hw). unfold processEvent. rewrite E, <- Hl.
      set (m1 := set_contexts _ _). destruct (complete_facts (length (live hs)) hs m1) as (F1&F2&_&F3).
      assert (live hs ≠ []) as Hne.
      { destruct Hc as [_ Hc]. rewrite Hl, Z.land_comm. rewrite Z.land_comm in Hx.
        by apply (masked_handlers (Z.to_nat fd)); [apply (table_contexts _ Hm)|]. }
      unfold wf, waiting. by rewrite F1, F2, F3.
  - unfold processEvent, processEvent_locked. rewrite Eg. cbn. by rewrite app_nil_r.
Qed.

(** Asked again, it finds nothing. *)
Lemma processEvent_again fd epoll_events m :
  wf m → let m' := (processEvent epoll_ctl fd epoll_events m).2 in
  processEvent epoll_ctl fd epoll_events m' = (false, m').
Proof.
  intros Hm. destruct (getFdContext fd false (fd_contexts_ m)) as [v oc] eqn:Eg.
  destruct (getFdContext_facts _ _ _ _ _ Eg Hm) as (_&_&Hsame&_). specialize (Hsame eq_refl). subst v.
  destruct oc as [c|].
  - destruct (decide (Z.land (ready_events epoll_events) (events c) = NONE)) as [Hx|Hx].
    + rewrite (processEvent_nothing _ _ _ _ Eg Hx). by apply (processEvent_nothing _ _ _ c).
    + destruct (processEvent_context fd epoll_events m c Hm Eg Hx) as (c'&hs&k&E&Hev&_&Hmask&_&_).
      set (m1 := set_contexts _ _) in E.
      assert (processEvent epoll_ctl fd epoll_events m = (true, complete (Subtract (length (live hs)) hs) m1))
        as -> by (unfold processEvent; by rewrite E). cbn [snd]. destruct (complete_facts (length (live hs)) hs m1) as (F1&_).
      apply (processEvent_nothing _ _ _ c'); rewrite ?F1.
      * by apply (getFdContext_insert fd _ c).
      * rewrite Hev. by apply Z.eqb_eq, ready_consumed, ready_events_valid.
  - assert (processEvent epoll_ctl fd epoll_events m = (false, m)) as E
      by (unfold processEvent, processEvent_locked; by rewrite Eg).
    by rewrite E.
Qed.

(** Readiness is consumed once.  [processEvent] schedules the handlers of
    the events that are ready and registered, read before write, at the end of
    the queue, takes them out of the table and off the counter, and leaves every
    other handler; asked again about the same readiness it does nothing. *)
Theorem readiness_is_one_shot fd epoll_events m :
  wf m →
  let '(b, m') := processEvent epoll_ctl fd epoll_events m in
  let hs := ready_handlers fd epoll_events m in
  wf m' ∧ (b = true ↔ hs ≠ []) ∧
  waiting m ≡ₚ hs ++ waiting m' ∧
  tasks_ m' = tasks_ m ++ (task_of <$> hs) ∧
  (b = true → pending_event_count_ m' = wrap 64 (pending_event_count_ m - Z.of_nat (length hs))) ∧
  processEvent epoll_ctl fd epoll_events m' = (false, m').
Proof.
  intros Hm. pose proof (processEvent_effect fd epoll_events m Hm) as H.
  pose proof (processEvent_again fd epoll_events m Hm) as Hagain.
  destruct (processEvent epoll_ctl fd epoll_events m) as [b m']. naive_solver.
Qed.

(** The error of asking for events nobody waits for. *)
Lemma remove_again fd event m hs n m' :
  remove_events epoll_ctl fd event m = (inr (hs, n), m') → wf m →
  (remove_events epoll_ctl fd event m').1 = inl ENOENT ∧ live hs ≠ [].
Proof.
  intros Hr Hm. unfold remove_events in *. destruct (_ || _); [done|].
  destruct (getFdContext fd false (fd_contexts_ m)) as [v oc] eqn:Eg.
  destruct (getFdContext_facts _ _ _ _ _ Eg Hm) as (Hv&_&Hsame&Hc). specialize (Hsame eq_refl). subst v.
  destruct oc as [c|]; [|done]. destruct Hc as [_ Hc].
  destruct (Z.eqb_spec (Z.land (events c) event) NONE) as [|Hne]; [done|].
  destruct (updateEpoll _ _ _ _) as [k [e|]]; [done|].
  destruct (take_handlers _ _ _) as [[c' hs'] n'] eqn:Et. injection Hr as <- <- <-.
  pose proof (table_contexts _ Hm _ _ Hc) as Hcw.
  destruct (taken_facts _ _ _ _ _ _ _ Hm Hc Et) as (Hfd'&_&_&_&Hl).
  destruct (take_handlers_facts _ _ _ _ _ _ Hcw Et) as (_&_&Hev&_).
  cbn [fd_contexts_ set_context set_contexts set_epoll]. rewrite Hfd', Nat2Z.id.
  rewrite (getFdContext_insert fd _ c c' Eg). split.
  - rewrite Hev, (without_ldiff _ event (context_mask _ _ Hcw)), land_mask by
      (rewrite <- without_ldiff by apply Hcw; apply valid_mask_without, Hcw).
    pose proof (context_mask _ _ Hcw) as Hmask. by destruct Hmask, (land_both event).
  - rewrite Hl. by apply (masked_handlers (Z.to_nat fd)).
Qed.

Lemma remove_events_same fd event m1 m2 :
  fd_contexts_ m1 = fd_contexts_ m2 → epoll_ m1 = epoll_ m2 →
  (remove_events epoll_ctl fd event m1).1 = (remove_events epoll_ctl fd event m2).1.
Proof.
  intros E1 E2. unfold remove_events. rewrite <- E1. destruct (_ || _); [done|].
  destruct (getFdContext fd false (fd_contexts_ m1)) as [v [c|]]; [|done].
  destruct (_ =? _); [done|]. cbn [epoll_ set_contexts]. rewrite E2.
  destruct (updateEpoll _ _ _ _) as [k [e|]]; [done|]. by destruct (take_handlers _ _ _) as [[? ?] ?].
Qed.

(** [cancelEvent] and [delEvent] fail in the same cases, and then keep every
    handler, the counter and the queue; when they succeed they take the same
    handlers - at least one - out of the table and off the counter, which
    [cancelEvent] schedules and [delEvent] drops; asking again is an error. *)
Theorem removal_outcome fd event m :
  wf m →
  let '(rc, mc) := cancelEvent epoll_ctl fd event m in
  let '(rd, md) := delEvent epoll_ctl fd event m in
  rc = rd ∧ wf mc ∧ fd_contexts_ md = fd_contexts_ mc ∧ epoll_ md = epoll_ mc ∧
  pending_event_count_ md = pending_event_count_ mc ∧ tasks_ md = tasks_ m ∧
  match rc with
  | inl _ => waiting mc = waiting m ∧ tasks_ mc = tasks_ m ∧
      pending_event_count_ mc = pending_event_count_ m
  | inr _ => ∃ hs, hs ≠ [] ∧ waiting m ≡ₚ hs ++ waiting mc ∧ tasks_ mc = tasks_ m ++ (task_of <$> hs) ∧
      pending_event_count_ mc = wrap 64 (pending_event_count_ m - Z.of_nat (length hs)) ∧
      (cancelEvent epoll_ctl fd event mc).1 = inl ENOENT
  end.
Proof.
  intros Hm. unfold cancelEvent, delEvent, cancelEvent_locked, delEvent_locked.
  destruct (remove_events epoll_ctl fd event m) as [r m1] eqn:Er.
  destruct (remove_events_facts epoll_ctl _ _ _ _ _ Er Hm) as (Hm1&Hpend&Htasks&H).
  destruct r as [e|[hs n]]; cbn [finish_op]; [by split_and!|]. destruct H as [Hw ->].
  destruct (remove_again _ _ _ _ _ _ Er Hm) as [Hagain Hne].
  destruct (complete_facts (length (live hs)) hs m1) as (F1&F2&F3&F4).
  destruct (complete_facts (length (live hs)) [] m1) as (D1&D2&D3&D4).
  unfold wf, waiting. rewrite F1, F2, F3, F4, D1, D2, D3, D4, Hpend, Htasks.
  split_and!; try done; [by rewrite app_nil_r|].
  exists (live hs). split_and!; try done.
  rewrite <- (remove_events_same fd event _ _ F1 F3) in Hagain.
  by destruct (remove_events _ _ _ (complete _ _)) as [[?|[? ?]] ?]; cbn in *; simplify_eq.
Qed.

(** ** Interleaved operations *)

(** C8: whatever operations interleave, and whatever the kernel answers, the
    masks, handlers and places of the table agree; the counter is the number of
    waiting handlers plus what operations in flight still have to subtract, so it
    never runs below zero, and is exact when nothing is in flight; and every
    handler that was ever added is in exactly one of four places: waiting, in
    flight, deleted or scheduled - so it is scheduled at most once. *)
Theorem handlers_conserved k w :
  reachable k w →
  wf (state w) ∧
  pending_event_count_ (state w) =
    wrap 64 (Z.of_nat (length (waiting (state w)) + count to_subtract (flights w))) ∧
  (flights w = ∅ → pending_event_count_ (state w) = Z.of_nat (length (waiting (state w)))) ∧
  added w ≡ₚ waiting (state w) ++ collect carried (flights w) ++ deleted w ++ triggered w.
Proof.
  intros Hr. pose proof (reachable_inv k w Hr) as Hw.
  split_and!; [apply Hw|apply Hw|by apply pending_exact|apply Hw].
Qed.

(** C11: when [stopping] says that the manager may stop, without force and with
    no operation in flight, nothing is left behind: no handler waits, no timer
    runs, the queue is empty and every handler ever added has been scheduled or
    deleted. *)
Theorem stopping_abandons_nothing k w hasTimer :
  reachable k w → flights w = ∅ → stopping true false hasTimer (state w) = true →
  hasTimer = false ∧ tasks_ (state w) = [] ∧ waiting (state w) = [] ∧
  added w ≡ₚ deleted w ++ triggered w.
Proof.
  intros Hr Hf Hs. pose proof (reachable_inv k w Hr) as Hw. pose proof (pending_exact w Hw Hf) as Hp.
  unfold stopping in Hs. cbn [negb] in Hs. destruct (Z.eqb_spec (pending_event_count_ (state w)) 0) as [Hz|];
    [|done]. destruct hasTimer; [done|]. cbn [orb negb] in Hs. destruct (tasks_ (state w)); [|done].
  assert (waiting (state w) = []) as Hn by (apply length_zero_iff_nil; lia).
  split_and!; [done..|]. pose proof (inv_handlers w Hw) as Ha. by rewrite Hn, Hf, collect_empty in Ha.
Qed.
End runs.

(** A kernel that accepts everything. *)
Definition accepting (k : unit) (_ : operation) (_ _ : Z) : unit * option Z := (k, None).

Definition reader : option code := Some Return.

(** [stopping] is too early for a caller that is not one of the manager's
    threads: between the subtraction from the counter and the scheduling of the
    handler the manager seems to have nothing left, so its threads may leave
    before the cancelled handler reaches the queue. *)
Theorem cancel_races_with_stop :
  ∃ w, reachable accepting tt w ∧ stopping true false false (state w) = true ∧
    collect carried (flights w) = [mkEventContext None reader] ∧ triggered w = [].
Proof.
  set (m0 := fresh_state tt).
  set (r1 := addEvent accepting 5 READ reader (1%positive, false) m0).
  set (r2 := cancelEvent_locked accepting 5 READ r1.2).
  set (f2 := from_locked r2.1).
  set (r3 := fly (default (Trigger []) f2) r2.2).
  eexists. split.
  - apply (rtc_l _ _ _ _ (step_add accepting (start m0) 5 READ reader (1%positive, false) r1.1 r1.2
      (surjective_pairing _))).
    eapply rtc_l; [eapply (step_cancel accepting _ 1 5 READ r2.1 r2.2); [done|apply surjective_pairing]|].
    eapply rtc_once. eapply (step_fly accepting _ 1 (default (Trigger []) f2) r3.1 r3.2);
      [reflexivity|apply surjective_pairing].
  - vm_compute. done.
Qed.

(** ** Witnesses *)

Lemma fresh_wf : wf (fresh_state tt).
Proof. split; [by vm_compute|by intros n c]. Defined.

(** A descriptor with a reader becomes readable. *)
Lemma readiness_is_one_shot_witness :
  let m := (addEvent accepting 5 READ reader (1%positive, false) (fresh_state tt)).2 in
  wf m ∧ length (tasks_ (processEvent accepting 5 EPOLLIN m).2) = 1%nat ∧
  (processEvent accepting 5 EPOLLIN (processEvent accepting 5 EPOLLIN m).2).1 = false.
Proof.
  intros m. assert (wf m) as Hm.
  { destruct (addEvent_facts accepting 5 READ reader (1%positive, false) (fresh_state tt) _ _
      (surjective_pairing _) fresh_wf) as [H _]. exact H. }
  split; [exact Hm|]. split; [vm_compute; reflexivity|].
  pose proof (readiness_is_one_shot accepting 5 EPOLLIN m Hm) as H.
  destruct (processEvent accepting 5 EPOLLIN m) as [b m'].
  destruct H as (_&_&_&_&_&E). cbn [snd]. rewrite E. reflexivity.
Defined.

(** The reader is cancelled. *)
Lemma removal_outcome_witness :
  let m := (addEvent accepting 5 READ reader (1%positive, false) (fresh_state tt)).2 in
  wf m ∧ (cancelEvent accepting 5 READ m).1 = inr tt ∧
  (cancelEvent accepting 5 READ m).1 = (delEvent accepting 5 READ m).1.
Proof.
  intros m. assert (wf m) as Hm.
  { destruct (addEvent_facts accepting 5 READ reader (1%positive, false) (fresh_state tt) _ _
      (surjective_pairing _) fresh_wf) as [H _]. exact H. }
  split; [exact Hm|]. split; [vm_compute; reflexivity|].
  pose proof (removal_outcome accepting 5 READ m Hm) as H.
  destruct (cancelEvent accepting 5 READ m) as [rc mc], (delEvent accepting 5 READ m) as [rd md].
  destruct H as (E&_). exact E.
Defined.

(** The reader waits, nothing is in flight. *)
Lemma handlers_conserved_witness :
  ∃ w, reachable accepting tt w ∧ flights w = ∅ ∧ pending_event_count_ (state w) = 1.
Proof.
  set (m0 := fresh_state tt).
  set (r1 := addEvent accepting 5 READ reader (1%positive, false) m0).
  assert (∃ w, reachable accepting tt w ∧ flights w = ∅ ∧ length (waiting (state w)) = 1%nat)
    as (w&Hr&Hf&Hl).
  { eexists. split; [|split].
    - apply rtc_once, (step_add accepting (start m0) 5 READ reader (1%positive, false) r1.1 r1.2),
        surjective_pairing.
    - reflexivity.
    - vm_compute. reflexivity. }
  exists w. split; [exact Hr|]. split; [exact Hf|].
  destruct (handlers_conserved accepting tt w Hr) as (_&_&E&_). rewrite (E Hf), Hl. reflexivity.
Defined.

(** A reader has been added, cancelled, scheduled and run. *)
Lemma stopping_abandons_nothing_witness :
  ∃ w, reachable accepting tt w ∧ flights w = ∅ ∧ stopping true false false (state w) = true ∧
    added w = [mkEventContext None reader] ∧ added w ≡ₚ deleted w ++ triggered w.
Proof.
  assert (∃ w, reachable accepting tt w ∧ flights w = ∅ ∧ stopping true false false (state w) = true ∧
    added w = [mkEventContext None reader]) as (w&Hr&Hf&Hs&Ha).
  { set (m0 := fresh_state tt).
    set (r1 := addEvent accepting 5 READ reader (1%positive, false) m0).
    set (r2 := cancelEvent_locked accepting 5 READ r1.2).
    eexists. split.
    - eapply rtc_l; [exact (step_add accepting (start m0) 5 READ reader (1%positive, false) r1.1 r1.2
        (surjective_pairing _))|].
      eapply rtc_l; [eapply (step_cancel accepting _ 1 5 READ r2.1 r2.2); [reflexivity|apply surjective_pairing]|].
      do 4 (eapply rtc_l; [eapply (step_fly accepting _ 1); [vm_compute; reflexivity|apply surjective_pairing]|]).
      apply rtc_once, (step_tasks accepting _ []).
    - vm_compute. done. }
  exists w. split; [exact Hr|]. split; [exact Hf|]. split; [exact Hs|]. split; [exact Ha|].
  destruct (stopping_abandons_nothing accepting tt w false Hr Hf Hs) as (_&_&_&H). exact H.
Defined.
End IOManagerRuns.
