(* ===== verification/IOManagerWaking.v ===== *)
(** How the threads of an [IOManager] wake each other: the passes of [idle] and
    the eventfd that [tickle] writes to.  Tasks for any thread are never left
    while all threads sleep; a task for one thread may be. *)

From stdpp Require Import gmap.
From S2P Require Import Prelude Totals Fiber Scheduler SchedulerProofs.
From S2P Require Import IOManager IOManagerProofs IOManagerRuns.
Import Totals Fiber Scheduler SchedulerProofs IOManager IOManagerProofs IOManagerRuns.

Module IOManagerWaking.

(** ** One pass of [idle] *)

Section pass.
Context {kernel : Type} (epoll_ctl : kernel → operation → Z → Z → kernel * option Z).
Implicit Types (m : @iom kernel).

Lemma idle_entries_facts entries : ∀ ready m,
  wf m → let '(ready', m') := idle_entries epoll_ctl entries ready m in
  wf m' ∧ ∃ hs, waiting m ≡ₚ hs ++ waiting m' ∧ IOManager.tasks_ m' = IOManager.tasks_ m ++ (task_of <$> hs) ∧
    (ready' = false → ready = false ∧ hs = [] ∧ Tickled ∉ entries).
Proof.
  induction entries as [|[|fd ev] entries IH]; intros ready m Hm; cbn [idle_entries ready_after].
  - split; [done|]. exists []. rewrite app_nil_r. split_and!; [done|done|].
    intros ->. split_and!; [done|done|]. by intros ?%elem_of_nil.
  - specialize (IH true m Hm). destruct (idle_entries _ _ _ _) as [r' m'].
    destruct IH as (Hm'&hs&Hw&Ht&Hr). split; [done|]. exists hs. split_and!; [done|done|].
    intros E. by destruct (Hr E).
  - pose proof (processEvent_effect epoll_ctl fd ev m Hm) as H.
    destruct (processEvent epoll_ctl fd ev m) as [b m1].
    destruct H as (Hm1&Hb&Hw1&Ht1&_). set (h1 := ready_handlers _ _ _) in *.
    specialize (IH (if b then true else ready) m1 Hm1). destruct (idle_entries _ _ _ _) as [r' m'].
    destruct IH as (Hm'&hs&Hw&Ht&Hr). split; [done|]. exists (h1 ++ hs).
    rewrite Hw1, Hw, Ht, Ht1, fmap_app, !app_assoc. split_and!; [done|done|].
    intros E. destruct (Hr E) as (Hb'&->&Hn). destruct b; [done|]. split; [done|].
    assert (h1 = []) as ->.
    { destruct h1; [done|]. exfalso. assert (false = true) as ?; [by apply Hb|done]. }
    split; [done|]. rewrite not_elem_of_cons. done.
Qed.

Lemma schedule_expired_facts expired : ∀ m,
  fd_contexts_ (schedule_expired expired m) = fd_contexts_ m ∧
  IOManager.tasks_ (schedule_expired expired m) =
    IOManager.tasks_ m ++ ((λ c, mkTask None (Some c) (-1)) <$> expired).
Proof.
  induction expired as [|c expired IH]; intros m; cbn [schedule_expired].
  - by rewrite app_nil_r.
  - destruct (IH (IOManager.set_tasks (IOManager.tasks_ m ++ [mkTask None (Some c) (-1)]) m)) as [-> ->].
    split; [done|]. cbn. by rewrite <- app_assoc.
Qed.

(** A pass of [idle] over an answer of [epoll_wait] schedules the handlers
    of the ready descriptors and then the callbacks of the expired timers; it
    waits again only when it has scheduled nothing and was not woken on purpose,
    and it leaves only when stopping is due - unless that is forced, with an
    empty queue. *)
Theorem idle_pass_outcome entries expired stopping_ force_stop_ hasTimer m :
  wf m →
  let '(o, m') := idle_pass epoll_ctl (Answered entries) expired stopping_ force_stop_ hasTimer m in
  wf m' ∧ ∃ hs,
    waiting m ≡ₚ hs ++ waiting m' ∧
    IOManager.tasks_ m' =
      IOManager.tasks_ m ++ (task_of <$> hs) ++ ((λ c, mkTask None (Some c) (-1)) <$> expired) ∧
    (o = Again → hs = [] ∧ expired = [] ∧ Tickled ∉ entries) ∧
    (o = Leave → stopping_ = true ∧ (force_stop_ = true ∨
       IOManager.tasks_ m' = [] ∧ pending_event_count_ m' = 0 ∧ hasTimer = false)).
Proof.
  intros Hm. unfold idle_pass. pose proof (idle_entries_facts entries false m Hm) as H.
  destruct (idle_entries epoll_ctl entries false m) as [ready m1]. destruct H as (Hm1&hs&Hw&Ht&Hr).
  set (r := ready_expired expired ready). set (m2 := schedule_expired expired m1).
  destruct (schedule_expired_facts expired m1) as [E1 E2]. fold m2 in E1, E2.
  assert (r = false → ready = false ∧ expired = []) as E3 by (unfold r; by destruct expired).
  assert (∀ o : idle_outcome, wf m2 ∧ (∃ hs, waiting m ≡ₚ hs ++ waiting m2 ∧
    IOManager.tasks_ m2 = IOManager.tasks_ m ++ (task_of <$> hs) ++
      ((λ c, mkTask None (Some c) (-1)) <$> expired) ∧
    (r = false → hs = [] ∧ expired = [] ∧ Tickled ∉ entries))) as Hall.
  { intros _. unfold wf, waiting. rewrite E1. split; [done|]. exists hs.
    rewrite E2, Ht, app_assoc. split_and!; [done|done|]. intros E. destruct (E3 E) as [-> ->].
    destruct (Hr eq_refl) as (_&->&?). done. }
  destruct (Hall Again) as (Hm2&hs'&Hw'&Ht'&Hr').
  unfold idle_end. destruct (stopping stopping_ force_stop_ hasTimer m2) eqn:Es; [|destruct r];
    (split; [done|]; exists hs'; split_and!; [done|done|..]); try (intros; discriminate).
  2: { intros _. by apply Hr'. }
  intros _. unfold stopping in Es. destruct stopping_; [|done]. split; [done|]. cbn [negb] in Es.
  destruct force_stop_; [by left|right].
  destruct (Z.eqb_spec (pending_event_count_ m2) 0); [|done]. destruct hasTimer; [done|].
  cbn [negb orb] in Es. by destruct (IOManager.tasks_ m2).
Qed.
End pass.

(** The timeout handed to [epoll_wait] is an [int], -1 exactly without timers,
    and never later than the next timer. *)
Lemma idle_timeout_bounds next_timer :
  0 <= next_timer <= u64_max →
  -1 <= idle_timeout next_timer <= INT_MAX ∧
  (idle_timeout next_timer = -1 ↔ next_timer = u64_max) ∧
  (next_timer ≠ u64_max → 0 <= idle_timeout next_timer <= next_timer).
Proof.
  intros Hn. unfold idle_timeout. destruct (Z.eqb_spec next_timer u64_max); [unfold INT_MAX; lia|].
  destruct (Z.ltb_spec INT_MAX next_timer); [unfold INT_MAX in *; lia|].
  assert (to_signed 32 (wrap 32 next_timer) = next_timer) as ->.
  { unfold to_signed, INT_MAX in *. rewrite wrap_small by lia.
    change (2 ^ (32 - 1)) with (2 ^ 31). destruct (_ <? _) eqn:E; lia. }
  unfold INT_MAX in *. lia.
Qed.

(** ** Waking *)

(** Where a thread is: before [getNextTask]; in a task, with the fibers it is
    in, innermost first; in [epoll_wait] or on its way there; behind it, with
    the entries still to look at and the flag [ready]; in [processEvent] behind
    its critical section; among the expired callbacks; gone. *)
Inductive whereabouts :=
  | Looping
  | InTask (stack : list fid)
  | InEpoll
  | Scanning (entries : list ready_entry) (ready : bool)
  | Processing (f : flight) (e : ready_entry) (entries : list ready_entry) (ready : bool)
  | Expiring (expired : list code) (ready : bool)
  | Gone.

(** A thread that is going to look at the queue before it sleeps again. *)
Definition will_look (p : whereabouts) : bool :=
  match p with
  | Looping | InTask _ | Processing _ _ _ _ => true
  | Scanning entries ready => ready || existsb (λ e, match e with Tickled => true | _ => false end) entries
  | Expiring _ ready => ready
  | InEpoll | Gone => false
  end.

Section hall.
Context {kernel : Type} (epoll_ctl : kernel → operation → Z → Z → kernel * option Z).

(** The manager with its queue, the fibers, the eventfd, the threads, and how
    many calls of [schedule] have queued their tasks and not yet written to the
    eventfd. *)
Record hall := mkHall {
  manager : @iom kernel;
  store : fibers_t;
  tokens : Z;
  workers : gmap Z whereabouts;
  posting : nat;
}.
Implicit Types (h : hall) (m : @iom kernel).

Definition queue h : list ScheduleTask := IOManager.tasks_ (manager h).
Definition with_queue (l : list ScheduleTask) h : hall :=
  mkHall (IOManager.set_tasks l (manager h)) (store h) (tokens h) (workers h) (posting h).
Definition with_manager (m : @iom kernel) h : hall :=
  mkHall m (store h) (tokens h) (workers h) (posting h).
Definition with_fiber (f : fid) (x : Fiber) h : hall :=
  mkHall (manager h) (<[f := x]> (store h)) (tokens h) (workers h) (posting h).
Definition with_tokens (n : Z) h : hall :=
  mkHall (manager h) (store h) n (workers h) (posting h).
Definition with_posting (n : nat) h : hall :=
  mkHall (manager h) (store h) (tokens h) (workers h) n.
Definition move (self : Z) (p : whereabouts) h : hall :=
  mkHall (manager h) (store h) (tokens h) (<[self := p]> (workers h)) (posting h).

(** The moves, as long as [stop] has not been called and [epoll_wait] does not
    fail.  Callers queue tasks, then write to the eventfd; other operations
    change the table at will, and fibers change, short of being executed. *)
Inductive caller_move (ok : ScheduleTask → Prop) (h : hall) : hall → Prop :=
  | move_queue ts : ts ≠ [] → Forall ok ts →
      caller_move ok h (with_posting (S (posting h)) (with_queue (queue h ++ ts) h))
  | move_tickle n : posting h = S n →
      caller_move ok h (with_posting n (with_tokens (tickle false 1 (tokens h)) h))
  | move_table m : IOManager.tasks_ m = queue h → caller_move ok h (with_manager m h)
  | move_fiber f x : state_ x ≠ EXEC → caller_move ok h (with_fiber f x h).

(** Thread [self] takes a task, resumes fibers and comes back from them, goes to
    sleep when it finds none, wakes with an answer of [epoll_wait] - which names
    the eventfd only if that is readable - and makes the pass of [idle] over it. *)
Inductive thread_move (self : Z) (h : hall) : hall → Prop :=
  (** the loop of [run] *)
  | move_take t rest : workers h !! self = Some Looping →
      getNextTask self (store h) (queue h) = Some (t, rest) →
      thread_move self h (move self (InTask []) (with_queue rest h))
  | move_resume stack f x : workers h !! self = Some (InTask stack) → state_ x = EXEC →
      thread_move self h (move self (InTask (f :: stack)) (with_fiber f x h))
  | move_leave stack f x : workers h !! self = Some (InTask (f :: stack)) → state_ x ≠ EXEC →
      thread_move self h (move self (InTask stack) (with_fiber f x h))
  | move_back : workers h !! self = Some (InTask []) → thread_move self h (move self Looping h)
  | move_sleep : workers h !! self = Some Looping →
      getNextTask self (store h) (queue h) = None → thread_move self h (move self InEpoll h)
  (** the loop of [idle] *)
  | move_answer entries : workers h !! self = Some InEpoll →
      (Tickled ∈ entries → 0 < tokens h) → thread_move self h (move self (Scanning entries false) h)
  | move_drain entries ready : workers h !! self = Some (Scanning (Tickled :: entries) ready) →
      thread_move self h (move self (Scanning entries (ready_after Tickled false ready))
        (with_tokens (drainTickle (tokens h)) h))
  | move_process fd epoll_events entries ready f m :
      workers h !! self = Some (Scanning (ReadyFd fd epoll_events :: entries) ready) →
      processEvent_locked epoll_ctl fd epoll_events (manager h) = (f, m) →
      let e := ReadyFd fd epoll_events in
      thread_move self h (move self
        match f with
        | None => Scanning entries (ready_after e false ready)
        | Some f => Processing f e entries ready
        end (with_manager m h))
  | move_fly f e entries ready f' m :
      workers h !! self = Some (Processing f e entries ready) → fly f (manager h) = (f', m) →
      thread_move self h (move self
        match f' with
        | None => Scanning entries (ready_after e true ready)
        | Some f' => Processing f' e entries ready
        end (with_posting (posting h + length (scheduled_by f)) (with_manager m h)))
  | move_expired ready expired : workers h !! self = Some (Scanning [] ready) →
      thread_move self h (move self (Expiring expired (ready_expired expired ready)) h)
  | move_callback c expired ready : workers h !! self = Some (Expiring (c :: expired) ready) →
      thread_move self h (move self (Expiring expired ready)
        (with_posting (S (posting h)) (with_manager (schedule_expired [c] (manager h)) h)))
  | move_end ready force_stop_ hasTimer : workers h !! self = Some (Expiring [] ready) →
      thread_move self h (move self
        match idle_end (stopping false force_stop_ hasTimer (manager h)) ready with
        | Leave => Gone
        | Yield => Looping
        | Again => InEpoll
        end h).

Inductive move_step (ok : ScheduleTask → Prop) (h h' : hall) : Prop :=
  | by_caller : caller_move ok h h' → move_step ok h h'
  | by_thread self : thread_move self h h' → move_step ok h h'.

Definition open_hall (m : @iom kernel) (ids : list Z) : hall :=
  mkHall m ∅ 0 (list_to_map ((λ i, (i, Looping)) <$> ids)) 0.

(** A task any thread may take: its fiber may be anything. *)
Definition for_any (t : ScheduleTask) : Prop := thread_id t = -1.

(** Somebody will look at the queue. *)
Definition attended h : Prop :=
  (∃ i p, workers h !! i = Some p ∧ will_look p = true) ∨ 0 < tokens h ∨ posting h ≠ 0%nat.

(** A fiber that executes is on the stack of a thread. *)
Definition on_a_stack (store : fibers_t) (ws : gmap Z whereabouts) : Prop :=
  ∀ f x, store !! f = Some x → state_ x = EXEC → ∃ i stack, ws !! i = Some (InTask stack) ∧ f ∈ stack.

Record awake h : Prop := {
  awake_tokens : 0 <= tokens h;
  awake_queue : Forall for_any (queue h);
  awake_fibers : on_a_stack (store h) (workers h);
  awake_someone : queue h ≠ [] → attended h;
}.

Lemma tickle_positive n : 0 <= n → 0 < tickle false 1 n.
Proof. intros Ht. unfold tickle. destruct (Z.leb_spec (n + 1) (2 ^ 64 - 2)); lia. Qed.

(** A thread that moves on without leaving a fiber. *)
Lemma on_a_stack_move store ws self p p' :
  on_a_stack store ws → ws !! self = Some p →
  (∀ stack f, p = InTask stack → f ∈ stack → ∃ stack', p' = InTask stack' ∧ f ∈ stack') →
  on_a_stack store (<[self := p']> ws).
Proof.
  intros H Hp Hkeep f x Hf Hx. destruct (H f x Hf Hx) as (i&stack&Hi&Hin).
  destruct (decide (i = self)) as [->|Hne].
  - rewrite Hp in Hi. injection Hi as ->. destruct (Hkeep _ _ eq_refl Hin) as (stack'&->&?).
    exists self, stack'. by rewrite lookup_insert_eq.
  - exists i, stack. by rewrite lookup_insert_ne.
Qed.

Lemma on_a_stack_fiber store ws f x :
  on_a_stack store ws → (state_ x = EXEC → ∃ i stack, ws !! i = Some (InTask stack) ∧ f ∈ stack) →
  on_a_stack (<[f := x]> store) ws.
Proof.
  intros H Hx g y [[<- <-]|[Hne Hg]]%lookup_insert_Some; [done|]. by apply H.
Qed.

(** Another thread keeps attending. *)
Lemma attended_move h self p p' m store n k :
  workers h !! self = Some p → attended h →
  (will_look p = true → will_look p' = true ∨ 0 < n) →
  (0 < tokens h → 0 < n ∨ will_look p' = true) → (posting h ≤ k)%nat →
  attended (mkHall m store n (<[self := p']> (workers h)) k).
Proof.
  intros Hp H Hlook Htok Hk. unfold attended. cbn [workers tokens posting].
  assert (will_look p' = true → ∃ i q, <[self := p']> (workers h) !! i = Some q ∧ will_look q = true)
    as Hself by (intros; exists self, p'; by rewrite lookup_insert_eq).
  destruct H as [(i&q&Hi&Hq)|[H|H]]; [|naive_solver|right; right; lia].
  destruct (decide (i = self)) as [->|Hne].
  - rewrite Hp in Hi. injection Hi as ->. naive_solver.
  - left. exists i, q. by rewrite lookup_insert_ne.
Qed.

Lemma attended_self h self p : will_look p = true → workers h !! self = Some p → attended h.
Proof. intros. left. by exists self, p. Qed.

Lemma processEvent_locked_tasks fd epoll_events m f m' :
  processEvent_locked epoll_ctl fd epoll_events m = (f, m') → IOManager.tasks_ m' = IOManager.tasks_ m.
Proof.
  unfold processEvent_locked. destruct (getFdContext _ _ _) as [v [c|]]; [|by intros [= <- <-]].
  destruct (_ =? _); [by intros [= <- <-]|]. destruct (updateEpoll _ _ _ _).
  destruct (take_handlers _ _ _) as [[? ?] ?]. by intros [= <- <-].
Qed.

Lemma fly_tasks f m f' m' :
  fly f m = (f', m') → IOManager.tasks_ m' = IOManager.tasks_ m ++ (task_of <$> scheduled_by f).
Proof.
  destruct f as [n hs|[|h hs]]; cbn [fly scheduled_by]; intros [= <- <-]; try by rewrite app_nil_r.
  apply trigger_tasks.
Qed.

Lemma task_of_for_any (c : EventContext) : for_any (task_of c).
Proof. unfold for_any, task_of. by destruct (cb c). Qed.

(** A thread finds no task for any thread only while a fiber of the queue runs
    on another one. *)
Lemma sleeper_not_alone h self :
  awake h → workers h !! self = Some Looping → queue h ≠ [] →
  getNextTask self (store h) (queue h) = None →
  ∃ i stack, i ≠ self ∧ workers h !! i = Some (InTask stack).
Proof.
  intros [_ Hq Hf _] Hs Hne Hg%getNextTask_none. destruct (queue h) as [|t l]; [done|].
  apply Forall_cons in Hq as [Hq _]. apply Forall_cons in Hg as [[[? _]|Hex] _]; [done|].
  unfold is_exec in Hex. destruct (Scheduler.fiber t) as [f|]; [|done].
  destruct (store h !! f) as [x|] eqn:Ex; [|done]. apply bool_decide_eq_true in Hex.
  destruct (Hf f x Ex Hex) as (i&stack&Hi&_). exists i, stack. split; [|done].
  intros ->. rewrite Hs in Hi. discriminate Hi.
Qed.

(** A thread goes on in [idle]. *)
Lemma awake_pass h self p p' m n k :
  awake h → workers h !! self = Some p → (∀ stack, p ≠ InTask stack) →
  0 <= n → Forall for_any (IOManager.tasks_ m) →
  (will_look p = true → will_look p' = true ∨ 0 < n) →
  (0 < tokens h → 0 < n ∨ will_look p' = true) → (posting h ≤ k)%nat →
  IOManager.tasks_ m = queue h ∨ k ≠ 0%nat →
  awake (mkHall m (store h) n (<[self := p']> (workers h)) k).
Proof.
  intros [Ht Hq Hf Hs] Hp Hnt Hn Hm Hlook Htok Hk Hqueue. split; [done|done| |].
  - eapply on_a_stack_move; [done..|]. intros stack f ->. by destruct (Hnt stack).
  - intros Hne. destruct Hqueue as [E|?]; [|by right; right].
    change (IOManager.tasks_ m ≠ []) in Hne. rewrite E in Hne. by eapply attended_move; [|apply Hs|..].
Qed.

(** A thread is in [run]. *)
Lemma awake_run h self p' m store' :
  awake h → 0 <= tokens h → Forall for_any (IOManager.tasks_ m) → will_look p' = true →
  on_a_stack store' (<[self := p']> (workers h)) →
  awake (mkHall m store' (tokens h) (<[self := p']> (workers h)) (posting h)).
Proof.
  intros H Ht Hq Hl Hf. split; [done..|]. intros _.
  apply (attended_self _ self p'); [done|]. apply lookup_insert_eq.
Qed.

Lemma leave_stack h self stack f x :
  awake h → workers h !! self = Some (InTask (f :: stack)) → state_ x ≠ EXEC →
  on_a_stack (<[f := x]> (store h)) (<[self := InTask stack]> (workers h)).
Proof.
  intros H Hi Hx g y [[<- <-]|[Hne Hg]]%lookup_insert_Some Hy; [done|].
  destruct (awake_fibers _ H g y Hg Hy) as (i&st&Hst&Hin). destruct (decide (i = self)) as [->|Hi'].
  - rewrite Hi in Hst. injection Hst as <-. apply elem_of_cons in Hin as [->|Hin]; [done|].
    exists self, stack. by rewrite lookup_insert_eq.
  - exists i, st. by rewrite lookup_insert_ne.
Qed.

Lemma resume_stack h self stack f x :
  awake h → workers h !! self = Some (InTask stack) →
  on_a_stack (<[f := x]> (store h)) (<[self := InTask (f :: stack)]> (workers h)).
Proof.
  intros H Hi. apply on_a_stack_fiber.
  - eapply on_a_stack_move; [apply H|done|]. intros st g [= ->] Hg. eexists. split; [done|by right].
  - intros _. exists self, (f :: stack). rewrite lookup_insert_eq. split; [done|by left].
Qed.

Lemma caller_awake h h' : awake h → caller_move for_any h h' → awake h'.
Proof.
  intros [Ht Hq Hf Hs] Hm. destruct Hm as [ts Hne Hok|n Hp|m Em|f x Hx];
    unfold move, with_queue, with_manager, with_fiber, with_tokens, with_posting;
    cbn [manager store tokens workers posting].
  - split; cbn [queue tokens store workers posting]; try done.
    + by apply Forall_app.
    + intros _. right. by right.
  - split; cbn [queue tokens store workers posting]; try done.
    + pose proof (tickle_positive _ Ht). lia.
    + intros _. right. left. by apply tickle_positive.
  - split; unfold queue; cbn; rewrite ?Em; done.
  - split; cbn; [done|done| |done]. by apply on_a_stack_fiber.
Qed.

Lemma thread_awake self h h' : awake h → thread_move self h h' → awake h'.
Proof.
  intros Ha Hm. pose proof Ha as [Ht Hq Hf Hs].
  destruct Hm as [t rest Hb Hg|stack f x Hb Hx|stack f x Hb Hx|Hb|Hb Hg|entries Hb Htok
    |entries ready Hb|fd ev entries ready f m Hb Hpr e|f e entries ready f' m Hb Hfl
    |ready expired Hb|c expired ready Hb|ready fs ht Hb];
    unfold move, with_queue, with_manager, with_fiber, with_tokens, with_posting;
    cbn [manager store tokens workers posting].
  - apply getNextTask_split in Hg as (b&a&E&->&_). rewrite E in Hq. apply Forall_app in Hq as [? Hq].
    apply Forall_cons in Hq as [_ ?]. apply awake_run; try done; [by apply Forall_app|].
    by eapply on_a_stack_move.
  - apply awake_run; try done. by apply resume_stack.
  - apply awake_run; try done. by apply leave_stack.
  - apply awake_run; try done. eapply on_a_stack_move; [done..|].
    intros st f [= <-] Hin. by apply elem_of_nil in Hin.
  - split; cbn; [done|done|by eapply on_a_stack_move|]. intros Hne.
    destruct (sleeper_not_alone h self Ha Hb Hne Hg) as (i&stack&Hi&E).
    apply (attended_self _ i (InTask stack)); [done|]. cbn. by rewrite lookup_insert_ne.
  - apply (awake_pass _ _ _ _ _ _ _ Ha Hb); try done; [by left|by left].
  - apply (awake_pass _ _ _ _ _ _ _ Ha Hb); try done; [|by left|by right|by left].
    unfold drainTickle. destruct (Z.eqb_spec (tokens h) 0); lia.
  - apply processEvent_locked_tasks in Hpr as Em.
    destruct f as [f|]; apply (awake_pass _ _ _ _ _ _ _ Ha Hb); try done; try (intros; by left);
      rewrite ?Em; try done; by left.
  - pose proof (fly_tasks _ _ _ _ Hfl) as Em.
    apply (awake_pass _ _ _ _ _ _ _ Ha Hb); try done; try lia.
    + rewrite Em. apply Forall_app. split; [done|]. apply Forall_fmap, Forall_forall.
      intros c _. apply task_of_for_any.
    + intros _. left. destruct f'; [done|]. by destruct e.
    + rewrite Em. destruct (scheduled_by f); [left; by rewrite app_nil_r|right; cbn; lia].
  - apply (awake_pass _ _ _ _ _ _ _ Ha Hb); try done; try (intros; by left).
    cbn. intros Hr. left. rewrite orb_false_r in Hr. rewrite Hr. by destruct expired.
  - apply (awake_pass _ _ _ _ _ _ _ Ha Hb); try done; try lia; try (intros; by left).
    apply Forall_app. split; [done|]. by constructor.
  - apply (awake_pass _ _ _ _ _ _ _ Ha Hb); try done; try (intros; by left).
    cbn. intros ->. by left.
Qed.

Lemma move_awake h h' : awake h → move_step for_any h h' → awake h'.
Proof. intros Ha [Hm|self Hm]; [by eapply caller_awake|by eapply thread_awake]. Qed.
(** ** Looking at the queue *)

(** Thread [i] comes to look at the queue by its own moves, while the others stay
    where they are. *)
Definition looks_next (i : Z) h : Prop :=
  ∃ h', rtc (thread_move i) h h' ∧ workers h' = <[i := Looping]> (workers h).

Lemma looks_later i p h h1 :
  thread_move i h h1 → workers h1 = <[i := p]> (workers h) → looks_next i h1 → looks_next i h.
Proof.
  intros Hs Hw (h'&Hr&Hw'). exists h'. split; [by econstructor|]. rewrite Hw', Hw. apply insert_insert_eq.
Qed.

Lemma expiring_looks i expired : ∀ h,
  workers h !! i = Some (Expiring expired true) → looks_next i h.
Proof.
  induction expired as [|c expired IH]; intros h Hi.
  - eexists. split; [by eapply rtc_once, (move_end i h true false false)|]. done.
  - eapply looks_later; [by eapply move_callback|done|]. apply IH. apply lookup_insert_eq.
Qed.

Lemma processing_looks i entries :
  (∀ h, workers h !! i = Some (Scanning entries true) → looks_next i h) →
  ∀ f h e ready, workers h !! i = Some (Processing f e entries ready) →
  looks_next i h.
Proof.
  intros Hend f h e ready.
  assert (∀ hs h, workers h !! i = Some (Processing (Trigger hs) e entries ready) →
    looks_next i h) as Htrig.
  { clear h. induction hs as [|c hs IH]; intros h Hi;
      (eapply looks_later; [by eapply move_fly|done|]).
    - apply Hend. cbn. rewrite lookup_insert_eq. by destruct e.
    - apply IH. apply lookup_insert_eq. }
  destruct f as [n hs|hs]; [|apply Htrig]. intros Hi.
  eapply looks_later; [by eapply move_fly|done|]. apply (Htrig hs), lookup_insert_eq.
Qed.

Lemma scanning_looks i entries : ∀ h ready,
  workers h !! i = Some (Scanning entries ready) → will_look (Scanning entries ready) = true →
  looks_next i h.
Proof.
  induction entries as [|e entries IH]; intros h ready Hi Hl.
  - cbn in Hl. rewrite orb_false_r in Hl. subst ready.
    eapply looks_later; [by apply (move_expired i h true [])|done|].
    by apply (expiring_looks i []), lookup_insert_eq.
  - destruct e as [|fd ev].
    + eapply looks_later; [by eapply move_drain|done|].
      eapply IH; [apply lookup_insert_eq|done].
    + destruct (processEvent_locked epoll_ctl fd ev (manager h)) as [f m] eqn:E.
      eapply looks_later; [by eapply move_process|done|]. destruct f as [f|].
      * eapply processing_looks; [|apply lookup_insert_eq]. intros h' Hi'. by eapply IH.
      * eapply IH; [apply lookup_insert_eq|done].
Qed.

Lemma idle_looks i p h :
  workers h !! i = Some p →
  (will_look p = true ∧ (∀ stack, p ≠ InTask stack)) ∨ (p = InEpoll ∧ 0 < tokens h) →
  looks_next i h.
Proof.
  intros Hi [[Hl Hn]|[-> Ht]].
  - destruct p as [|stack| |entries ready|f e entries ready|expired ready|]; try done.
    + exists h. split; [constructor|]. by rewrite insert_id.
    + by destruct (Hn stack).
    + by eapply scanning_looks.
    + eapply processing_looks; [|done]. intros h' Hi'. by eapply scanning_looks.
    + cbn in Hl. subst ready. by eapply expiring_looks.
  - eapply looks_later; [by apply (move_answer i h [Tickled])|done|].
    by eapply scanning_looks; [apply lookup_insert_eq|].
Qed.

(** C9: no wake-up is lost for tasks any thread may take, fibers and callbacks:
    as long as [stop] has not been called and [epoll_wait] does not fail, while
    such a task is in the queue, a thread is in a task or on its way to look at
    the queue, or the eventfd is readable, or a caller of [schedule] is about
    to make it so.  And these do lead to the queue: a thread in [idle] that is
    on its way, and every thread that sleeps while the eventfd is readable,
    comes to look at the queue by its own steps. *)
Theorem no_wakeup_lost m ids h :
  IOManager.tasks_ m = [] → rtc (move_step for_any) (open_hall m ids) h →
  (queue h ≠ [] →
     (∃ i p, workers h !! i = Some p ∧ will_look p = true) ∨ 0 < tokens h ∨ posting h ≠ 0%nat) ∧
  (∀ i p, workers h !! i = Some p →
     (will_look p = true ∧ (∀ stack, p ≠ InTask stack)) ∨ (p = InEpoll ∧ 0 < tokens h) →
     looks_next i h).
Proof.
  intros Hm Hr. split; [|intros i p; apply idle_looks]. apply awake_someone.
  assert (awake (open_hall m ids)) as H.
  { split; unfold queue; cbn; rewrite ?Hm; done. }
  revert H. generalize dependent (open_hall m ids). intros h0 Hr H.
  induction Hr as [|h1 h2 h3 H12 _ IH]; [done|]. by apply IH, (move_awake h1).
Qed.
End hall.

(** For a task of one thread the wake-up can be lost: the only token of the
    eventfd may wake another thread, which cannot take the task and sleeps
    again, and then all threads sleep, the eventfd is empty, nobody is about to
    write to it, and the task waits for an event that has nothing to do with it. *)
Theorem pinned_wakeup_lost :
  let t := mkTask None (Some Return) 1 in
  ∃ h, rtc (move_step accepting (eq t)) (open_hall (fresh_state tt) [1; 2]) h ∧
    queue h = [t] ∧ (∀ i p, workers h !! i = Some p → p = InEpoll) ∧ tokens h = 0 ∧ posting h = 0%nat.
Proof.
  intros t. set (h0 := open_hall (fresh_state tt) [1; 2]).
  set (h1 := move 1 InEpoll h0). set (h2 := move 2 InEpoll h1).
  set (h3 := with_posting (S (posting h2)) (with_queue (queue h2 ++ [t]) h2)).
  set (h4 := with_posting 0 (with_tokens (tickle false 1 (tokens h3)) h3)).
  set (h5 := move 2 (Scanning [Tickled] false) h4).
  set (h6 := move 2 (Scanning [] true) (with_tokens (drainTickle (tokens h5)) h5)).
  set (h7 := move 2 (Expiring [] true) h6). set (h8 := move 2 Looping h7).
  exists (move 2 InEpoll h8). split.
  - apply (rtc_l _ h0 h1); [by apply (by_thread _ _ _ _ 1), move_sleep|]. apply (rtc_l _ h1 h2); [by apply (by_thread _ _ _ _ 2), move_sleep|].
    apply (rtc_l _ h2 h3); [apply by_caller, move_queue; [done|by constructor]|].
    apply (rtc_l _ h3 h4); [by apply by_caller, move_tickle|].
    apply (rtc_l _ h4 h5); [by apply (by_thread _ _ _ _ 2), move_answer|].
    apply (rtc_l _ h5 h6); [by apply (by_thread _ _ _ _ 2), (move_drain _ _ h5 [] false)|].
    apply (rtc_l _ h6 h7); [by apply (by_thread _ _ _ _ 2), (move_expired _ _ h6 true [])|].
    apply (rtc_l _ h7 h8); [by apply (by_thread _ _ _ _ 2), (move_end _ _ h7 true false false)|].
    apply rtc_once. by apply (by_thread _ _ _ _ 2), move_sleep.
  - split; [done|]. split; [|done]. intros i p Hi.
    assert (workers (move 2 InEpoll h8) = {[1 := InEpoll; 2 := InEpoll]}) as E by (vm_compute; reflexivity).
    rewrite E in Hi. apply lookup_insert_Some in Hi as [[_ ?]|[_ Hi]]; [done|].
    by apply lookup_singleton_Some in Hi as [_ ?].
Qed.

(** ** Witnesses *)

Lemma idle_pass_outcome_witness :
  wf (fresh_state tt) ∧
  (idle_pass accepting (Answered [Tickled]) [Return] false false false (fresh_state tt)).1 = Yield ∧
  wf (idle_pass accepting (Answered [Tickled]) [Return] false false false (fresh_state tt)).2.
Proof.
  split; [exact fresh_wf|]. split; [reflexivity|].
  pose proof (idle_pass_outcome accepting [Tickled] [Return] false false false _ fresh_wf) as H.
  destruct (idle_pass accepting (Answered [Tickled]) [Return] false false false (fresh_state tt)) as [o m'].
  destruct H as [H _]. exact H.
Defined.

(** A fiber is in the queue and about to be announced while the only
    thread sleeps. *)
Lemma no_wakeup_lost_witness :
  let t := mkTask (Some 7%positive) None (-1) in
  let h0 := open_hall (fresh_state tt) [1] in
  let h1 := move 1 InEpoll h0 in
  let h := with_posting 1 (with_queue [t] h1) in
  rtc (move_step accepting for_any) h0 h ∧ queue h = [t] ∧ workers h = {[1 := InEpoll]} ∧
  ((∃ i p, workers h !! i = Some p ∧ will_look p = true) ∨ 0 < tokens h ∨ posting h ≠ 0%nat).
Proof.
  intros t h0 h1 h. assert (rtc (move_step accepting for_any) h0 h) as Hr.
  { apply (rtc_l _ h0 h1); [apply (by_thread _ _ _ _ 1), move_sleep; reflexivity|]. apply rtc_once.
    apply by_caller, (move_queue for_any h1 [t]); [discriminate|].
    constructor; [reflexivity|constructor]. }
  split; [exact Hr|]. split; [reflexivity|]. split; [vm_compute; reflexivity|].
  apply (no_wakeup_lost accepting (fresh_state tt) [1] h eq_refl Hr). discriminate.
Defined.
End IOManagerWaking.
