(* ===== verification/IOManagerLifecycle.v ===== *)
(** The constructor and the destructor of [IOManager]
    ([droplet/src/scheduler/iomanager.cc]): the descriptors they open and close on
    every path, and what is left of events, handlers and timers. *)

From stdpp Require Import gmap.
From S2P Require Import Prelude Fiber Scheduler Timer TimerProofs IOManager.
Import Fiber Scheduler IOManager.

Module IOManagerLifecycle.

(** ** The operations *)

Section lifecycle.
Context {kernel condition : Type} (epoll_ctl : kernel → operation → Z → Z → kernel * option Z).

Record IOManager := mkIOManager {
  iom_ : @IOManager.iom kernel;
  timers : Timer.TimerManager code condition;
  epoll_fd_ : Z;
  tickle_fd_ : Z;
  wake_count_ : Z;
}.

(** The open descriptors of the process; the kernel never hands out an open one. *)
Definition open_fd (answer : Z + Z) (opened : list Z) : list Z :=
  match answer with inl _ => opened | inr fd => fd :: opened end.
Definition close_fd (fd : Z) (opened : list Z) : list Z := filter (λ x, x ≠ fd) opened.
Definition fd_of (answer : Z + Z) : Z := match answer with inl _ => -1 | inr fd => fd end.

(** The constructor, with the answers of [epoll_create1], [eventfd] and the
    registration of the eventfd: the exception's [errno] or the manager, and the
    descriptors.  Both members are initialized before the body looks at either, so
    [errno] is the last one set. *)
Definition construct (thread_count : Z) (k : kernel) (epoll_create1 eventfd : Z + Z) (register : option Z)
    (opened : list Z) : (Z + IOManager) * list Z :=
  let opened := open_fd eventfd (open_fd epoll_create1 opened) in
  if fd_of epoll_create1 =? -1 then
    (inl (match eventfd, epoll_create1 with inl e, _ => e | inr _, inl e => e | inr _, inr _ => 0 end), opened)
  else if fd_of eventfd =? -1 then
    (inl (match eventfd with inl e => e | inr _ => 0 end), close_fd (fd_of epoll_create1) opened)
  else
    match register with
    | Some e => (inl e, close_fd (fd_of epoll_create1) (close_fd (fd_of eventfd) opened))
    | None =>
        (inr (mkIOManager (mkIom [] 0 k []) Timer.make (fd_of epoll_create1) (fd_of eventfd) (Z.max thread_count 1)),
         opened)
    end.

(** The destructor behind the join of the threads. *)
Definition destroy (m : IOManager) (opened : list Z) : IOManager * list Z :=
  let m' := mkIOManager (clearAllEventsWithoutResume epoll_ctl (iom_ m)) (Timer.clearTimers (timers m)) (-1) (-1)
    (wake_count_ m) in
  let opened := if negb (tickle_fd_ m =? -1) then close_fd (tickle_fd_ m) opened else opened in
  let opened := if negb (epoll_fd_ m =? -1) then close_fd (epoll_fd_ m) opened else opened in
  (m', opened).

(** ** Fibers that lose their last reference *)

(** The references the destructor drops: those of the waiting handlers, of the closures
    of sleeping calls, and of the tasks that are left. *)
Definition handler_fibers (v : fd_contexts_t) : list fid :=
  c ← omap (λ c, c) v; omap (λ h : EventContext, IOManager.fiber h) [read c; write c].
Definition timer_fibers (st : Timer.TimerManager code condition) : list fid :=
  omap (λ t, x ← Timer.heap st !! t;
    match Timer.cb_ x with Some (Timer.Call (ScheduleFiber g _ _)) => Some g | _ => None end) (Timer.timers_ st).
Definition task_fibers (tasks : list ScheduleTask) : list fid := omap Scheduler.fiber tasks.
Definition dropped (m : IOManager) : list fid :=
  handler_fibers (fd_contexts_ (iom_ m)) ++ timer_fibers (timers m) ++ task_fibers (tasks_ (iom_ m)).

(** Dropping references one by one: the last one destroys the fiber.  [others] are the
    fibers something else still points to. *)
Fixpoint drop_references (fibers : gmap fid Fiber) (others l : list fid) : fault + gmap fid Fiber :=
  match l with
  | [] => inr fibers
  | g :: l =>
      match fibers !! g with
      | None => drop_references fibers others l
      | Some x =>
          if bool_decide (g ∈ others ++ l) || Fiber.refs_itself x then drop_references fibers others l
          else
            match Fiber.destroy x with
            | inl e => inl e
            | inr _ => drop_references (delete g fibers) others l
            end
      end
  end.

(** ** The contexts *)

(** The descriptors that are registered in the table. *)
Definition interests (v : fd_contexts_t) : list Z :=
  omap (λ c, c ← c; if events c =? NONE then None else Some (fd c)) v.

(** A context behind the clearing. *)
Definition cleared (c : FdContext) : FdContext := mkFdContext (fd c) NONE no_context no_context.

Lemma clear_contexts_effect v k : clear_contexts epoll_ctl v k =
  (fmap (M:=list) (fmap (M:=option) cleared) v,
   fold_left (λ k fd, (epoll_ctl k EPOLL_CTL_DEL fd 0).1) (interests v) k).
Proof.
  revert k. induction v as [|[c|] v IH]; intros k; [done| |].
  - cbn [clear_contexts]. unfold interests. cbn [omap list_omap]. fold (interests v). rewrite IH. cbn.
    by destruct (events c =? NONE).
  - cbn [clear_contexts]. rewrite IH. done.
Qed.

(** ** Descriptors *)

Lemma close_open fd opened : fd ∉ opened → close_fd fd (fd :: opened) = opened.
Proof.
  intros Hn. unfold close_fd. rewrite filter_cons_False by (intros H; by apply H).
  induction opened as [|x l IH]; [done|]. apply not_elem_of_cons in Hn as [? ?].
  rewrite filter_cons_True by congruence. by rewrite IH.
Qed.

Lemma close_open_under fd fd' opened : fd ∉ opened → fd ≠ fd' → close_fd fd (fd' :: fd :: opened) = fd' :: opened.
Proof.
  intros Hn Hne. unfold close_fd. rewrite filter_cons_True by congruence. f_equal. by apply close_open.
Qed.

(** What the kernel may answer. *)
Definition answers_ok (epoll_create1 eventfd : Z + Z) (opened : list Z) : Prop :=
  match epoll_create1 with inl _ => True | inr fd => 0 <= fd ∧ fd ∉ opened end ∧
  match eventfd with inl _ => True | inr fd => 0 <= fd ∧ fd ∉ open_fd epoll_create1 opened end.

(** A manager owns exactly its two descriptors: the constructor opens both and the
    destructor closes both, and when the constructor throws everything is closed again
    - except in one case: when [epoll_create1] fails and [eventfd] does not, the
    eventfd stays open and nobody has it any more. *)
Theorem descriptors_of_manager thread_count k epoll_create1 eventfd register opened :
  answers_ok epoll_create1 eventfd opened →
  match construct thread_count k epoll_create1 eventfd register opened with
  | (inr m, opened') =>
      opened' = tickle_fd_ m :: epoll_fd_ m :: opened ∧ (destroy m opened').2 = opened ∧
      epoll_create1 = inr (epoll_fd_ m) ∧ eventfd = inr (tickle_fd_ m) ∧ register = None
  | (inl _, opened') =>
      match epoll_create1, eventfd with
      | inl _, inr fd => opened' = fd :: opened
      | _, _ => opened' = opened
      end ∧ ((∃ e, epoll_create1 = inl e) ∨ (∃ e, eventfd = inl e) ∨ is_Some register)
  end.
Proof.
  intros [H1 H2]. unfold construct. destruct epoll_create1 as [e1|fd1]; cbn [fd_of open_fd].
  { cbn. split; [by destruct eventfd|]. left. eauto. }
  destruct H1 as [Hfd1 Hn1]. rewrite (proj2 (Z.eqb_neq _ _)) by lia.
  destruct eventfd as [e2|fd2]; cbn [fd_of open_fd].
  { cbn. split; [by apply close_open|]. right. left. eauto. }
  destruct H2 as [Hfd2 Hn2]. rewrite (proj2 (Z.eqb_neq _ _)) by lia. cbn [open_fd] in Hn2.
  apply not_elem_of_cons in Hn2 as [Hne Hn2].
  destruct register as [e|].
  - split; [|right; right; eauto]. rewrite close_open by (apply not_elem_of_cons; by split). by apply close_open.
  - cbn [tickle_fd_ epoll_fd_]. split; [done|]. split; [|done]. unfold destroy. cbn [tickle_fd_ epoll_fd_ snd].
    rewrite !(proj2 (Z.eqb_neq _ _)) by lia. cbn [negb].
    rewrite close_open by (apply not_elem_of_cons; by split). by apply close_open.
Qed.

(** Nothing of a destroyed manager can wake a fiber: every registered descriptor is
    taken out of epoll, in the order of the table and once, every context is empty and
    keeps its place, the counter of pending events is zero, the queue is left alone,
    and every timer is dead, without its callback. *)
Theorem destroyed_manager_is_silent m opened : TimerProofs.inv (timers m) →
  let m' := (destroy m opened).1 in
  epoll_ (iom_ m') = fold_left (λ k fd, (epoll_ctl k EPOLL_CTL_DEL fd 0).1) (interests (fd_contexts_ (iom_ m))) (epoll_ (iom_ m)) ∧
  (∀ n, fd_contexts_ (iom_ m') !! n =
    fmap (M:=option) (fmap (M:=option) cleared) (fd_contexts_ (iom_ m) !! n)) ∧
  pending_event_count_ (iom_ m') = 0 ∧ tasks_ (iom_ m') = tasks_ (iom_ m) ∧
  ∀ t x, Timer.heap (timers m') !! t = Some x → Timer.manager_ x = false ∧ Timer.cb_ x = None.
Proof.
  intros Hi. cbn [destroy fst iom_ timers]. unfold clearAllEventsWithoutResume. rewrite clear_contexts_effect.
  cbn [epoll_ fd_contexts_ pending_event_count_ tasks_]. split; [done|]. split.
  { intros n. by rewrite list_lookup_fmap. }
  split; [done|]. split; [done|]. destruct (TimerProofs.clearTimers_spec (timers m) Hi) as [Hi' Hh]. intros t x Hx.
  pose proof (TimerProofs.inv_timers _ Hi' t x Hx) as Ht. rewrite Hh in Hx.
  destruct (Timer.heap (timers m) !! t) as [y|]; [|done]. cbn in Hx. injection Hx as <-.
  destruct (Timer.manager_ y) eqn:Ey; cbn; [done|]. split; [done|].
  destruct (Timer.cb_ y) eqn:Ec; [|done]. destruct (TimerProofs.ok_callback _ _ Ht) as [H _].
  rewrite Ec, Ey in H. by specialize (H ltac:(by eexists)).
Qed.

(** A fiber that neither waits nor runs passes its destructor. *)
Lemma destroy_idle x : state_ x ≠ EXEC → Fiber.refs_itself x = false → Fiber.destroy x = inr tt.
Proof.
  unfold Fiber.destroy, Fiber.refs_itself. destruct (stack_size_ x =? 0); [done|]. by destruct (state_ x).
Qed.

Lemma drop_references_spec l : ∀ fibers others,
  (∀ g x, fibers !! g = Some x → state_ x = EXEC → g ∈ others) →
  ∃ fibers', drop_references fibers others l = inr fibers' ∧
    ∀ g, fibers' !! g = (x ← fibers !! g;
      if decide (g ∈ l ∧ g ∉ others ∧ Fiber.refs_itself x = false) then None else Some x).
Proof.
  induction l as [|g l IH]; intros fibers others Hex.
  { exists fibers. split; [done|]. intros g. destruct (fibers !! g); cbn; [|done]. by rewrite decide_False by set_solver. }
  cbn [drop_references]. destruct (fibers !! g) as [x|] eqn:Hx.
  2: { destruct (IH fibers others Hex) as (fs&E&Hfs). exists fs. split; [done|]. intros h. rewrite Hfs.
    destruct (fibers !! h) as [y|] eqn:Hy; [|done]. cbn. assert (h ≠ g) by congruence. apply decide_ext. set_solver. }
  destruct (bool_decide (g ∈ others ++ l) || Fiber.refs_itself x) eqn:Ek.
  - destruct (IH fibers others Hex) as (fs&E&Hfs). exists fs. split; [done|]. intros h. rewrite Hfs.
    destruct (fibers !! h) as [y|] eqn:Hy; [|done]. cbn. apply decide_ext. split; [set_solver|].
    intros ([->|Hh]%elem_of_cons&Ho&Hr); [|done]. rewrite Hx in Hy. injection Hy as <-.
    rewrite Hr, orb_false_r in Ek. apply bool_decide_eq_true, elem_of_app in Ek as [|]; done.
  - apply orb_false_iff in Ek as [Ek Hr]. apply bool_decide_eq_false in Ek.
    rewrite destroy_idle by (done || (intros He; apply Ek, elem_of_app; left; by apply (Hex g x))).
    destruct (IH (delete g fibers) others) as (fs&E&Hfs).
    { intros h y [_ Hy]%lookup_delete_Some. by apply (Hex h y). }
    exists fs. split; [done|]. intros h. rewrite Hfs. destruct (decide (h = g)) as [->|Hne].
    + rewrite lookup_delete_eq, Hx. cbn. rewrite decide_True; [done|]. set_solver.
    + rewrite lookup_delete_ne by done. destruct (fibers !! h); [|done]. cbn. apply decide_ext. set_solver.
Qed.

(** What happens to the fibers of a destroyed manager, while the threads hold those that
    run: the ones that have ended or have not begun, and that nothing else points to,
    are destroyed; the assertion of their destructor never fails; and every fiber that
    still waits stays in memory with its stack, held by itself alone. *)
Theorem waiters_leak fibers others m :
  (∀ g x, fibers !! g = Some x → state_ x = EXEC → g ∈ others) →
  ∃ fibers', drop_references fibers others (dropped m) = inr fibers' ∧
    (∀ g x, fibers !! g = Some x → Fiber.refs_itself x = true → fibers' !! g = Some x) ∧
    (∀ g x, fibers !! g = Some x → Fiber.refs_itself x = false → g ∉ others →
      fibers' !! g = if decide (g ∈ dropped m) then None else Some x).
Proof.
  intros Hex. destruct (drop_references_spec (dropped m) fibers others Hex) as (fs&E&Hfs). exists fs.
  split; [done|]. split; intros g x Hx Hr.
  - rewrite Hfs, Hx. cbn. rewrite decide_False; [done|]. intros (_&_&?). congruence.
  - intros Ho. rewrite Hfs, Hx. cbn. apply decide_ext. tauto.
Qed.
End lifecycle.

(** ** Witnesses *)

Definition no_epoll (k : unit) (o : operation) (fd events : Z) : unit * option Z := (k, None).

(** The leak: descriptor 4 is open behind the failure. *)
Lemma descriptors_of_manager_witness :
  construct (condition := unit) 2 tt (inl 24) (inr 4) None [3] = (inl 24, [4; 3]) ∧ [4; 3] = [4; 3].
Proof.
  split; [reflexivity|].
  exact (proj1 (descriptors_of_manager (condition := unit) no_epoll 2 tt (inl 24) (inr 4) None [3]
    (conj I (conj (ltac:(discriminate) : 0 <= 4) (ltac:(set_solver) : (4 : Z) ∉ [3]))))).
Defined.

Definition small_manager : @IOManager unit unit :=
  mkIOManager (mkIom [None; Some (mkFdContext 1 READ (mkEventContext (Some 1%positive) None) no_context)] 1 tt [])
    Timer.make 3 4 2.

(** A fiber that waits for a descriptor, held by nothing else but itself. *)
Definition waiter : gmap fid Fiber := {[1%positive := mkFiber 1 16384 None HOLD (Some Entry) false]}.
Lemma waiters_leak_witness : match drop_references waiter [] (dropped small_manager) with
  | inr fibers' => fibers' !! 1%positive = Some (mkFiber 1 16384 None HOLD (Some Entry) false)
  | inl _ => False
  end.
Proof.
  destruct (waiters_leak waiter [] small_manager) as (fs&E&H&_).
  - intros g x Hg. unfold waiter in Hg. apply lookup_singleton_Some in Hg as [<- <-]. discriminate.
  - rewrite E. apply H; reflexivity.
Defined.

Lemma destroyed_manager_is_silent_witness : pending_event_count_ (iom_ (destroy no_epoll small_manager [4; 3]).1) = 0.
Proof.
  exact (proj1 (proj2 (proj2 (destroyed_manager_is_silent no_epoll small_manager [4; 3] TimerProofs.make_inv)))).
Defined.
End IOManagerLifecycle.
