(* ===== verification/Address.v ===== *)
(** [Address] ([droplet/src/socket/address.cc]): socket addresses as the memory
    of their [sockaddr] structures, the address arithmetic of prefixes, the
    order of addresses and the texts of hosts and services.  The resolver, the
    list of interfaces and the text conversions of the C library are arguments. *)

From S2P Require Import Prelude ByteArray.
Import ByteArray.

Module Address.

(** ** Texts and masks *)

Definition OPEN : byte := Byte.x5b.
Definition CLOSE : byte := Byte.x5d.
Definition COLON : byte := Byte.x3a.

Definition SplitHostService (host : str) : str * str :=
  let unbracketed :=
    let first_colon := find_char COLON host in
    let last_colon := rfind_char COLON host in
    match first_colon with
    | Some i => if bool_decide (first_colon = last_colon) then (take i host, drop (S i) host) else (host, [])
    | None => (host, [])
    end in
  match host with
  | b :: _ =>
      if Byte.eqb b OPEN then
        match find_char CLOSE host with
        | Some close =>
            let node := substr host 1 (close - 1) in
            let service :=
              match host !! (close + 1)%nat with
              | Some c => if Byte.eqb c COLON then drop (close + 2) host else []
              | None => []
              end in
            (node, service)
        | None => unbracketed
        end
      else unbracketed
  | [] => unbracketed
  end.

(** The inner loop of [CountMaskBits] from [bit] down: [inl] when it returns. *)
Fixpoint count_byte (byte : Z) (bits : nat) (result : nat) (zero_seen : bool) : nat + (nat * bool) :=
  match bits with
  | 0%nat => inr (result, zero_seen)
  | S bit =>
      if negb (Z.land byte (Z.shiftl 1 (Z.of_nat bit)) =? 0) then
        if zero_seen then inl result else count_byte byte bit (S result) zero_seen
      else count_byte byte bit result true
  end.

Fixpoint count_bytes (data : str) (result : nat) (zero_seen : bool) : nat :=
  match data with
  | [] => result
  | b :: data =>
      match count_byte (code b) 8 result zero_seen with
      | inl result => result
      | inr (result, zero_seen) => count_bytes data result zero_seen
      end
  end.
Definition CountMaskBits (data : str) : nat := count_bytes data 0 false.

(** ** The structures *)

Definition AF_UNIX : Z := 1.
Definition AF_INET : Z := 2.
Definition AF_INET6 : Z := 10.

(** Ports and IPv4 addresses in network order. *)
Definition htons (v : Z) : str := encode_fixed false 2 v.
Definition ntohs (s : str) : Z := decode_fixed false 2 s.
Definition htonl (v : Z) : str := encode_fixed false 4 v.
Definition ntohl (s : str) : Z := decode_fixed false 4 s.

Record sockaddr_in := mkIn { sin_family : Z; sin_port : str; sin_addr : str; sin_zero : str }.
Record sockaddr_in6 := mkIn6 {
  sin6_family : Z; sin6_port : str; sin6_flowinfo : str; sin6_addr : str; sin6_scope_id : str }.
Record sockaddr_un := mkUn { sun_family : Z; sun_path : str }.

Inductive Address :=
  | IPv4Address (address_ : sockaddr_in)
  | IPv6Address (address_ : sockaddr_in6)
  | UnixAddress (address_ : sockaddr_un) (length_ : nat) (path_ : str)
  | UnknownAddress (family_ : Z) (address_ : str) (length_ : nat).

Definition zeros (n : nat) : str := replicate n Byte.x00.
(** The first [n] bytes, filled up with zeros. *)
Definition fill (n : nat) (s : str) : str := take n s ++ zeros (n - length s).

Definition family_bytes (family : Z) : str := encode_fixed true 2 family.

Definition sizeof_in : nat := 16.
Definition sizeof_in6 : nat := 28.
Definition sizeof_un : nat := 110.
Definition sizeof_sun_path : nat := 108.
Definition sizeof_storage : nat := 128.

Definition getFamily (a : Address) : Z :=
  match a with
  | IPv4Address _ => AF_INET
  | IPv6Address _ => AF_INET6
  | UnixAddress _ _ _ => AF_UNIX
  | UnknownAddress f _ _ => f
  end.

(** The memory [getAddr] points to. *)
Definition getAddr (a : Address) : str :=
  match a with
  | IPv4Address a => family_bytes (sin_family a) ++ sin_port a ++ sin_addr a ++ sin_zero a
  | IPv6Address a =>
      family_bytes (sin6_family a) ++ sin6_port a ++ sin6_flowinfo a ++ sin6_addr a ++ sin6_scope_id a
  | UnixAddress a _ _ => family_bytes (sun_family a) ++ sun_path a
  | UnknownAddress _ s _ => s
  end.

Definition getAddrLen (a : Address) : nat :=
  match a with
  | IPv4Address _ => sizeof_in
  | IPv6Address _ => sizeof_in6
  | UnixAddress _ n _ | UnknownAddress _ _ n => n
  end.

(** ** Constructors *)

Definition ipv4_of (address port : Z) : Address :=
  IPv4Address (mkIn AF_INET (htons port) (htonl address) (zeros 8)).

Definition ipv6_of (address : str) (port : Z) : Address :=
  IPv6Address (mkIn6 AF_INET6 (htons port) (zeros 4) address (zeros 4)).

Definition ipv6_default : Address :=
  IPv6Address (mkIn6 AF_INET6 (zeros 2) (zeros 4) (zeros 16) (zeros 4)).

Definition unix_default : Address := UnixAddress (mkUn AF_UNIX (zeros 108)) sizeof_un [].

(** The abstract namespace starts with a zero byte. *)
Definition is_abstract (path : str) : bool :=
  match path with b :: _ => Byte.eqb b Byte.x00 | [] => false end.

(** [None] for the exception about a path that is too long. *)
Definition unix_of_path (path : str) : option Address :=
  let abstract := is_abstract path in
  if (negb abstract && Nat.leb sizeof_sun_path (length path)) ||
     (abstract && Nat.ltb sizeof_sun_path (length path))
  then None
  else
    let n := if abstract then (2 + length path)%nat else (2 + length path + 1)%nat in
    Some (UnixAddress (mkUn AF_UNIX (fill 108 path)) n path).

(** A Unix address from a structure: a final zero is not part of the path. *)
Definition unix_of_sockaddr (a : sockaddr_un) (len : nat) : Address :=
  let length_ := Nat.min len sizeof_un in
  let available := if Nat.ltb 2 length_ then (length_ - 2)%nat else 0%nat in
  let used := Nat.min available sizeof_sun_path in
  let used :=
    if Nat.ltb 0 used && negb (bool_decide (sun_path a !! 0%nat = Some Byte.x00)) &&
       bool_decide (sun_path a !! (used - 1)%nat = Some Byte.x00)
    then (used - 1)%nat else used in
  UnixAddress a length_ (take used (sun_path a)).

Definition unknown_of_sockaddr (family : Z) (address : str) : Address :=
  let length_ := Nat.min (length address) sizeof_storage in
  UnknownAddress family (fill sizeof_storage (take length_ address)) length_.

Definition unknown_of_family (family : Z) : Address :=
  UnknownAddress family (family_bytes family ++ zeros 126) 16.

(** [Address::Create] on [length address] bytes of memory. *)
Definition Create (address : option str) : option Address :=
  match address with
  | None => None
  | Some address =>
      if Nat.ltb (length address) 2 then None
      else
        let family := decode_fixed true 2 (take 2 address) in
        let unknown := Some (unknown_of_sockaddr family address) in
        if family =? AF_INET then
          if Nat.leb sizeof_in (length address) then
            Some (IPv4Address (mkIn family (substr address 2 2) (substr address 4 4) (substr address 8 8)))
          else unknown
        else if family =? AF_INET6 then
          if Nat.leb sizeof_in6 (length address) then
            Some (IPv6Address (mkIn6 family (substr address 2 2) (substr address 4 4)
              (substr address 8 16) (substr address 24 4)))
          else unknown
        else if family =? AF_UNIX then
          Some (unix_of_sockaddr (mkUn family (drop 2 (fill sizeof_un address))) (length address))
        else unknown
  end.

(** ** Comparison *)

(** The sign of [memcmp] on equally long memory. *)
Fixpoint memcmp (s t : str) : comparison :=
  match s, t with
  | b :: s, c :: t => match code b ?= code c with Eq => memcmp s t | r => r end
  | _, _ => Eq
  end.

Definition less (a b : Address) : bool :=
  if negb (getFamily a =? getFamily b) then getFamily a <? getFamily b
  else if negb (Nat.eqb (getAddrLen a) (getAddrLen b)) then Nat.ltb (getAddrLen a) (getAddrLen b)
  else
    match memcmp (take (getAddrLen a) (getAddr a)) (take (getAddrLen a) (getAddr b)) with
    | Lt => true | _ => false
    end.

Definition equal (a b : Address) : bool :=
  (getFamily a =? getFamily b) && Nat.eqb (getAddrLen a) (getAddrLen b) &&
  match memcmp (take (getAddrLen a) (getAddr a)) (take (getAddrLen a) (getAddr b)) with
  | Eq => true | _ => false
  end.

(** ** Ports and prefixes *)

Definition getPort (a : Address) : option Z :=
  match a with
  | IPv4Address a => Some (ntohs (sin_port a))
  | IPv6Address a => Some (ntohs (sin6_port a))
  | _ => None
  end.

Definition setPort (port : Z) (a : Address) : Address :=
  match a with
  | IPv4Address a => IPv4Address (mkIn (sin_family a) (htons port) (sin_addr a) (sin_zero a))
  | IPv6Address a =>
      IPv6Address (mkIn6 (sin6_family a) (htons port) (sin6_flowinfo a) (sin6_addr a) (sin6_scope_id a))
  | a => a
  end.

(** The mask of an IPv4 prefix; [prefix] is at most 32. *)
Definition mask4 (prefix : Z) : Z :=
  if prefix =? 0 then 0 else wrap 32 (Z.shiftl 0xffffffff (32 - prefix)).

Definition bytes6 (f : Z → byte → Z → byte) (prefix : Z) (address : str) : str :=
  imap (λ i b, f (Z.of_nat i * 8) b prefix) address.

Definition broadcast_byte (bit : Z) (b : byte) (prefix : Z) : byte :=
  if bit + 8 <=? prefix then b
  else if prefix <=? bit then chr 0xff
  else chr (Z.lor (code b) (wrap 8 (Z.shiftr 0xff (prefix - bit)))).

Definition network_byte (bit : Z) (b : byte) (prefix : Z) : byte :=
  if bit + 8 <=? prefix then b
  else if prefix <=? bit then chr 0
  else chr (Z.land (code b) (wrap 8 (Z.shiftl 0xff (8 - (prefix - bit))))).

Definition mask_byte (bit : Z) (b : byte) (prefix : Z) : byte :=
  if bit + 8 <=? prefix then chr 0xff
  else if bit <? prefix then chr (wrap 8 (Z.shiftl 0xff (8 - (prefix - bit))))
  else b.

Definition set_addr6 (s : str) (a : sockaddr_in6) : sockaddr_in6 :=
  mkIn6 (sin6_family a) (sin6_port a) (sin6_flowinfo a) s (sin6_scope_id a).

(** The three operations of [IPv4Address], in host order, and of [IPv6Address],
    byte by byte. *)
Definition ipv4_broadcastAddress (prefix : Z) (a : sockaddr_in) : option Address :=
  if 32 <? prefix then None
  else Some (ipv4_of (Z.lor (ntohl (sin_addr a)) (wrap 32 (Z.lnot (mask4 prefix)))) (ntohs (sin_port a))).
Definition ipv4_networkAddress (prefix : Z) (a : sockaddr_in) : option Address :=
  if 32 <? prefix then None
  else Some (ipv4_of (Z.land (ntohl (sin_addr a)) (mask4 prefix)) (ntohs (sin_port a))).
Definition ipv4_subnetMask (prefix : Z) : option Address :=
  if 32 <? prefix then None
  else Some (IPv4Address (mkIn AF_INET (zeros 2) (htonl (mask4 prefix)) (zeros 8))).

Definition ipv6_broadcastAddress (prefix : Z) (a : sockaddr_in6) : option Address :=
  if 128 <? prefix then None
  else Some (IPv6Address (set_addr6 (bytes6 broadcast_byte prefix (sin6_addr a)) a)).
Definition ipv6_networkAddress (prefix : Z) (a : sockaddr_in6) : option Address :=
  if 128 <? prefix then None
  else Some (IPv6Address (set_addr6 (bytes6 network_byte prefix (sin6_addr a)) a)).
Definition ipv6_subnetMask (prefix : Z) : option Address :=
  if 128 <? prefix then None else Some (ipv6_of (bytes6 mask_byte prefix (zeros 16)) 0).

(** The virtual calls; only IP addresses have them. *)
Definition broadcastAddress (prefix : Z) (a : Address) : option Address :=
  match a with
  | IPv4Address a => ipv4_broadcastAddress prefix a
  | IPv6Address a => ipv6_broadcastAddress prefix a
  | _ => None
  end.
Definition networkAddress (prefix : Z) (a : Address) : option Address :=
  match a with
  | IPv4Address a => ipv4_networkAddress prefix a
  | IPv6Address a => ipv6_networkAddress prefix a
  | _ => None
  end.
Definition subnetMask (prefix : Z) (a : Address) : option Address :=
  match a with
  | IPv4Address _ => ipv4_subnetMask prefix
  | IPv6Address _ => ipv6_subnetMask prefix
  | _ => None
  end.

(** The bytes of an IP address. *)
Definition ip_bytes (a : Address) : str :=
  match a with
  | IPv4Address a => sin_addr a
  | IPv6Address a => sin6_addr a
  | _ => []
  end.

(** ** The C library *)

Section library.
Context (inet_pton : Z → str → option str) (inet_ntop : Z → str → option str)
  (getaddrinfo : option str → option str → Z → Z → Z → option (list str)).

(** The text a C function sees behind [c_str()]. *)
Definition c_str (s : str) : str :=
  match find_char Byte.x00 s with Some i => take i s | None => s end.

Definition IPv4_Create (address : str) (port : Z) : option Address :=
  s ← inet_pton AF_INET address; Some (IPv4Address (mkIn AF_INET (htons port) s (zeros 8))).

Definition IPv6_Create (address : str) (port : Z) : option Address :=
  s ← inet_pton AF_INET6 address;
  Some (IPv6Address (mkIn6 AF_INET6 (htons port) (zeros 4) s (zeros 4))).

Definition IPAddress_Create (address : option str) (port : Z) : option Address :=
  address ← address;
  match IPv4_Create address port with
  | Some a => Some a
  | None => IPv6_Create address port
  end.

(** What the classes print. *)
Definition ipv4_insert (a : sockaddr_in) : str :=
  match inet_ntop AF_INET (sin_addr a) with
  | None => $"<invalid-ipv4>"
  | Some s => s ++ $":" ++ to_dec (ntohs (sin_port a))
  end.
Definition ipv6_insert (a : sockaddr_in6) : str :=
  match inet_ntop AF_INET6 (sin6_addr a) with
  | None => $"<invalid-ipv6>"
  | Some s => $"[" ++ s ++ $"]" ++ $":" ++ to_dec (ntohs (sin6_port a))
  end.
Definition unix_insert (path : str) : str := if is_abstract path then $"\0" ++ drop 1 path else path.
Definition unknown_insert (family : Z) : str := $"[UnknownAddress family=" ++ to_dec family ++ $"]".

Definition insert (a : Address) : str :=
  match a with
  | IPv4Address a => ipv4_insert a
  | IPv6Address a => ipv6_insert a
  | UnixAddress _ _ path => unix_insert path
  | UnknownAddress f _ _ => unknown_insert f
  end.

(** [Lookup] into an empty vector. *)
Definition Lookup (host : str) (family type protocol : Z) : option (list Address) :=
  let '(node, service) := SplitHostService host in
  let arg s := match s with [] => None | _ => Some (c_str s) end in
  match getaddrinfo (arg node) (arg service) family type protocol with
  | None => None
  | Some results =>
      match omap (λ s, match s with [] => None | _ => Create (Some s) end) results with
      | [] => None
      | l => Some l
      end
  end.

Definition LookupAny (host : str) (family type protocol : Z) : option Address :=
  l ← Lookup host family type protocol; head l.

Definition is_ip (a : Address) : bool :=
  match a with IPv4Address _ | IPv6Address _ => true | _ => false end.

Definition LookupAnyIPAddress (host : str) (family type protocol : Z) : option Address :=
  l ← Lookup host family type protocol; head (filter (λ a, is_ip a = true) l).
End library.

(** ** Interfaces *)

(** What [getifaddrs] lists: a name, an address and a mask. *)
Record ifaddr := mkIfaddr { ifa_name : option str; ifa_addr : option str; ifa_netmask : option str }.

Definition interface_address (family : Z) (it : ifaddr) : option (str * (Address * nat)) :=
  match ifa_addr it, ifa_netmask it with
  | Some addr, Some mask =>
      let actual_family := decode_fixed true 2 (take 2 addr) in
      if negb (family =? 0) && negb (family =? actual_family) then None
      else
        let result len prefix :=
          a ← Create (Some (take len addr)); Some (default [] (ifa_name it), (a, prefix)) in
        if actual_family =? AF_INET then result sizeof_in (CountMaskBits (substr mask 4 4))
        else if actual_family =? AF_INET6 then result sizeof_in6 (CountMaskBits (substr mask 8 16))
        else None
  | _, _ => None
  end.

(** The entries of the multimap in the order of their insertion. *)
Definition GetInterfaceAddresses (interfaces : option (list ifaddr)) (family : Z)
    : option (list (str * (Address * nat))) :=
  match interfaces with
  | None => None
  | Some l => Some (omap (interface_address family) l)
  end.

Definition GetInterfaceAddresses_of (interfaces : option (list ifaddr)) (iface : str) (family : Z)
    : option (list (Address * nat)) :=
  all ← GetInterfaceAddresses interfaces family;
  match filter (λ e, e.1 = iface) all with
  | [] => None
  | l => Some l.*2
  end.
End Address.
