(* ===== verification/AddressProofs.v ===== *)
(** What [Address] promises: the arithmetic of prefixes bit by bit, the memory
    of an address read back, the order of addresses, and the text of an endpoint
    taken apart again. *)

From S2P Require Import Prelude ByteArray ByteArrayProofs ByteArrayCodec Address.
Import ByteArray ByteArrayProofs ByteArrayCodec Address.

Module AddressProofs.

(** ** Bits of an address *)

(** The bit [i], counted from the most significant one. *)
Definition addr_bit (s : str) (i : nat) : bool :=
  match s !! (i / 8)%nat with
  | Some b => Z.testbit (code b) (7 - Z.of_nat (i mod 8)%nat)
  | None => false
  end.

Lemma bit_position n i :
  (i < 8 * n)%nat →
  (i / 8 < n)%nat ∧ 0 <= 7 - Z.of_nat (i mod 8) < 8 ∧
  7 - Z.of_nat (i mod 8) + byte_shift false n (i / 8) = Z.of_nat (8 * n) - 1 - Z.of_nat i.
Proof.
  intros Hi. pose proof (Nat.div_mod i 8 ltac:(lia)). pose proof (Nat.mod_upper_bound i 8 ltac:(lia)).
  assert (i / 8 < n)%nat by (apply Nat.Div0.div_lt_upper_bound; lia).
  unfold byte_shift. lia.
Qed.

Lemma encode_bit n v i :
  (i < 8 * n)%nat → addr_bit (encode_fixed false n v) i = Z.testbit v (Z.of_nat (8 * n) - 1 - Z.of_nat i).
Proof.
  intros Hi. destruct (bit_position n i Hi) as (Hk&Hj&E). unfold addr_bit, encode_fixed. cbv zeta.
  rewrite list_lookup_fmap, lookup_seq_lt by done. cbn [fmap option_fmap option_map].
  rewrite code_chr_wrap, wrap_testbit by lia. rewrite (proj2 (Z.ltb_lt _ 8)) by lia. cbn [andb].
  rewrite Z.shiftr_spec by lia. rewrite Nat.add_0_l, E, wrap_testbit by lia.
  by rewrite (proj2 (Z.ltb_lt _ _)) by lia.
Qed.

Lemma code_high b k : 8 <= k → Z.testbit (code b) k = false.
Proof. intros Hk. apply (high_bits 8); [pose proof (code_range b); lia|lia]. Qed.

Lemma decode_bit n s i :
  length s = n → (i < 8 * n)%nat →
  Z.testbit (decode_fixed false n s) (Z.of_nat (8 * n) - 1 - Z.of_nat i) = addr_bit s i.
Proof.
  intros Hl Hi. destruct (bit_position n i Hi) as (Hk&Hj&E).
  unfold decode_fixed. rewrite gather_bits by lia. rewrite Z.bits_0. cbn [orb].
  unfold addr_bit. destruct (lookup_lt_is_Some_2 s (i / 8)) as [b Hb]; [lia|]. rewrite Hb.
  apply eq_true_iff_eq. rewrite existsb_exists. split.
  - intros ([j c]&Hin&Hbit). cbn [fst snd] in Hbit.
    apply list_elem_of_In, list_elem_of_lookup_1 in Hin as [p Hp].
    apply lookup_zip_Some in Hp as [Hj' Hc]. apply lookup_seq in Hj' as [-> Hp].
    cbn [Nat.add] in *. set (q := Z.of_nat (8 * n) - 1 - Z.of_nat i - byte_shift false n p) in *.
    assert (p = (i / 8)%nat) as ->.
    { destruct (Z.ltb_spec q 0); [by rewrite Z.testbit_neg_r in Hbit by done|].
      destruct (Z.leb_spec 8 q); [by rewrite code_high in Hbit by done|].
      unfold q, byte_shift in *. pose proof (Nat.div_mod i 8 ltac:(lia)).
      pose proof (Nat.mod_upper_bound i 8 ltac:(lia)). lia. }
    rewrite Hb in Hc. injection Hc as <-. rewrite <- Hbit. f_equal. unfold q. lia.
  - intros Hbit. exists ((i / 8)%nat, b). split.
    + apply list_elem_of_In, (list_elem_of_lookup_2 _ (i / 8)%nat), lookup_zip_Some. split; [|done].
      by rewrite lookup_seq_lt.
    + cbn [fst snd]. rewrite <- Hbit. f_equal. lia.
Qed.

(** ** Prefixes *)

Lemma mask4_bit p i :
  0 <= p <= 32 → (i < 32)%nat → Z.testbit (mask4 p) (31 - Z.of_nat i) = (Z.of_nat i <? p).
Proof.
  intros Hp Hi. unfold mask4. destruct (Z.eqb_spec p 0) as [->|].
  - rewrite Z.bits_0. symmetry. apply Z.ltb_ge. lia.
  - rewrite wrap_testbit by lia. rewrite (proj2 (Z.ltb_lt _ 32)) by lia. cbn [andb].
    change 0xffffffff with (Z.ones 32). rewrite Z.shiftl_spec by lia.
    destruct (Z.ltb_spec (Z.of_nat i) p).
    + apply Z.ones_spec_low. lia.
    + apply Z.testbit_neg_r. lia.
Qed.

(** The bits of the changed bytes. *)
Lemma testbit_255 k : 0 <= k < 8 → Z.testbit 255 k = true.
Proof. intros Hk. change 255 with (Z.ones 8). apply Z.ones_spec_low. lia. Qed.

Lemma byte_of_wrap z k : 0 <= k < 8 → Z.testbit (code (chr z)) k = Z.testbit z k.
Proof.
  intros Hk. rewrite code_chr. change 256 with (2 ^ 8). change (z mod 2 ^ 8) with (wrap 8 z).
  rewrite wrap_testbit by lia. by rewrite (proj2 (Z.ltb_lt k 8)) by lia.
Qed.

Lemma broadcast_byte_bit bit b p k :
  0 <= k < 8 → Z.testbit (code (broadcast_byte bit b p)) (7 - k) = (p <=? bit + k) || Z.testbit (code b) (7 - k).
Proof.
  intros Hk. unfold broadcast_byte. destruct (Z.leb_spec (bit + 8) p).
  - by rewrite (proj2 (Z.leb_gt p _)) by lia.
  - destruct (Z.leb_spec p bit).
    + rewrite byte_of_wrap, testbit_255 by lia. by rewrite (proj2 (Z.leb_le p _)) by lia.
    + rewrite byte_of_wrap, Z.lor_spec, wrap_testbit by lia. rewrite orb_comm. f_equal.
      rewrite (proj2 (Z.ltb_lt _ 8)), Z.shiftr_spec by lia. cbn [andb].
      change 255 with (Z.ones 8). destruct (Z.leb_spec p (bit + k)).
      * apply Z.ones_spec_low. lia.
      * apply Z.ones_spec_high. lia.
Qed.

Lemma shifted_bit bit p k :
  0 <= k < 8 → bit < p < bit + 8 →
  Z.testbit (wrap 8 (Z.shiftl 0xff (8 - (p - bit)))) (7 - k) = (bit + k <? p).
Proof.
  intros Hk Hp. rewrite wrap_testbit by lia. rewrite (proj2 (Z.ltb_lt _ 8)) by lia. cbn [andb].
  rewrite Z.shiftl_spec by lia. change 255 with (Z.ones 8). destruct (Z.ltb_spec (bit + k) p).
  - apply Z.ones_spec_low. lia.
  - apply Z.testbit_neg_r. lia.
Qed.

Lemma network_byte_bit bit b p k :
  0 <= k < 8 → Z.testbit (code (network_byte bit b p)) (7 - k) = (bit + k <? p) && Z.testbit (code b) (7 - k).
Proof.
  intros Hk. unfold network_byte. destruct (Z.leb_spec (bit + 8) p).
  - by rewrite (proj2 (Z.ltb_lt _ p)) by lia.
  - destruct (Z.leb_spec p bit).
    + rewrite byte_of_wrap, Z.bits_0 by lia. by rewrite (proj2 (Z.ltb_ge _ p)) by lia.
    + rewrite byte_of_wrap, Z.land_spec, shifted_bit by lia. apply andb_comm.
Qed.

Lemma mask_byte_bit bit p k :
  0 <= k < 8 → Z.testbit (code (mask_byte bit Byte.x00 p)) (7 - k) = (bit + k <? p).
Proof.
  intros Hk. unfold mask_byte. destruct (Z.leb_spec (bit + 8) p).
  - rewrite byte_of_wrap, testbit_255 by lia. by rewrite (proj2 (Z.ltb_lt _ p)) by lia.
  - destruct (Z.ltb_spec bit p).
    + by rewrite byte_of_wrap, shifted_bit by lia.
    + change (code Byte.x00) with 0. rewrite Z.bits_0. symmetry. apply Z.ltb_ge. lia.
Qed.

(** Bytes changed one by one, bit by bit. *)
Lemma bytes6_bit f g p s i :
  (∀ bit b k, 0 <= k < 8 → b ∈ s →
    Z.testbit (code (f bit b p)) (7 - k) = g (bit + k) (Z.testbit (code b) (7 - k))) →
  (i < 8 * length s)%nat →
  addr_bit (bytes6 f p s) i = g (Z.of_nat i) (addr_bit s i).
Proof.
  intros Hf Hi. destruct (bit_position _ i Hi) as (Hk&Hj&_).
  unfold addr_bit, bytes6. rewrite list_lookup_imap.
  destruct (lookup_lt_is_Some_2 s (i / 8) Hk) as [b Hb]. rewrite Hb. cbn [fmap option_fmap option_map].
  rewrite Hf by (try lia; by apply list_elem_of_lookup_2 in Hb). f_equal.
  pose proof (Nat.div_mod i 8 ltac:(lia)). lia.
Qed.

(** The counter inverts the masks: all prefixes are tried. *)
Lemma all_counts (f : Z → str) (n : nat) p :
  forallb (λ k, Nat.eqb (CountMaskBits (f (Z.of_nat k))) k) (seq 0 (S n)) = true →
  0 <= p <= Z.of_nat n → CountMaskBits (f p) = Z.to_nat p.
Proof.
  rewrite forallb_forall. intros H Hp. specialize (H (Z.to_nat p)).
  rewrite Z2Nat.id, Nat.eqb_eq in H by lia. apply H, in_seq. lia.
Qed.

Lemma count_mask4 p : 0 <= p <= 32 → CountMaskBits (htonl (mask4 p)) = Z.to_nat p.
Proof. apply (all_counts (λ p, htonl (mask4 p)) 32). by vm_compute. Qed.

Lemma count_mask6 p : 0 <= p <= 128 → CountMaskBits (bytes6 mask_byte p (zeros 16)) = Z.to_nat p.
Proof. apply (all_counts (λ p, bytes6 mask_byte p (zeros 16)) 128). by vm_compute. Qed.

Lemma decode_range little n s : 0 <= decode_fixed little n s < 2 ^ Z.of_nat (8 * n).
Proof.
  unfold decode_fixed. generalize (zip (seq 0 n) s). intros l.
  assert (∀ acc, 0 <= acc < 2 ^ Z.of_nat (8 * n) →
    0 <= foldl (λ bits p, Z.lor bits
      (wrap (Z.of_nat (8 * n)) (Z.shiftl (code p.2) (byte_shift little n p.1)))) acc l
      < 2 ^ Z.of_nat (8 * n)) as H; [|apply H; lia].
  induction l as [|p l IH]; intros acc Ha; [done|]. cbn [foldl]. apply IH.
  apply lor_bounds; [lia|done|]. apply wrap_bounds. lia.
Qed.

Lemma port_kept s : ntohs (htons (ntohs s)) = ntohs s.
Proof. unfold ntohs, htons. rewrite decode_encode_fixed. apply wrap_small, decode_range. Qed.

Definition ip_wf (a : Address) : Prop :=
  match a with
  | IPv4Address a => length (sin_addr a) = 4%nat
  | IPv6Address a => length (sin6_addr a) = 16%nat
  | _ => False
  end.

(** For both kinds of IP address, bit by bit from the most significant one:
    the network address keeps the bits of the prefix and clears the others, the
    broadcast address sets the others, the subnet mask has exactly the bits of
    the prefix, from which [CountMaskBits] gets the prefix back; the port is
    kept.  A prefix longer than the address gives no address. *)
Theorem prefix_arithmetic prefix a :
  ip_wf a → 0 <= prefix →
  let w := (8 * length (ip_bytes a))%nat in
  if Z.of_nat w <? prefix then
    networkAddress prefix a = None ∧ broadcastAddress prefix a = None ∧ subnetMask prefix a = None
  else ∃ n b m,
    networkAddress prefix a = Some n ∧ broadcastAddress prefix a = Some b ∧
    subnetMask prefix a = Some m ∧
    (∀ i, (i < w)%nat →
      addr_bit (ip_bytes n) i = (Z.of_nat i <? prefix) && addr_bit (ip_bytes a) i ∧
      addr_bit (ip_bytes b) i = (prefix <=? Z.of_nat i) || addr_bit (ip_bytes a) i ∧
      addr_bit (ip_bytes m) i = (Z.of_nat i <? prefix)) ∧
    getPort n = getPort a ∧ getPort b = getPort a ∧
    CountMaskBits (ip_bytes m) = Z.to_nat prefix.
Proof.
  intros Ha Hp w. subst w. destruct a as [a|a|? ? ?|? ? ?]; cbn [ip_wf] in Ha; [| |done..];
    cbn [ip_bytes networkAddress broadcastAddress subnetMask];
    unfold ipv4_broadcastAddress, ipv4_networkAddress, ipv4_subnetMask, ipv6_broadcastAddress, ipv6_networkAddress,
      ipv6_subnetMask; rewrite Ha.
  - change (Z.of_nat (8 * 4)) with 32. destruct (Z.ltb_spec 32 prefix) as [|Hle]; [done|].
    eexists _, _, _. split_and!; [done..| | | |].
    + intros i Hi. cbn [ip_bytes ipv4_of sin_addr]. unfold htonl. rewrite !encode_bit by lia.
      rewrite Z.land_spec, Z.lor_spec, wrap_testbit, Z.lnot_spec by lia.
      rewrite (proj2 (Z.ltb_lt _ 32)) by lia. cbn [andb].
      change (Z.of_nat (8 * 4) - 1 - Z.of_nat i) with (31 - Z.of_nat i).
      rewrite mask4_bit by lia. unfold ntohl.
      change (31 - Z.of_nat i) with (Z.of_nat (8 * 4) - 1 - Z.of_nat i).
      rewrite decode_bit by done. split_and!; [apply andb_comm| |done].
      rewrite orb_comm. f_equal. rewrite Z.leb_antisym. done.
    + cbn [getPort ipv4_of sin_port]. by rewrite port_kept.
    + cbn [getPort ipv4_of sin_port]. by rewrite port_kept.
    + cbn [ip_bytes sin_addr]. apply count_mask4. lia.
  - change (Z.of_nat (8 * 16)) with 128. destruct (Z.ltb_spec 128 prefix) as [|Hle]; [done|].
    eexists _, _, _. split_and!; [done..| |done|done|].
    + intros i Hi. cbn [ip_bytes ipv6_of sin6_addr set_addr6]. split_and!.
      * apply (bytes6_bit _ (λ i b, (i <? prefix) && b)); [|lia]. intros. by apply network_byte_bit.
      * apply (bytes6_bit _ (λ i b, (prefix <=? i) || b)); [|lia]. intros. by apply broadcast_byte_bit.
      * rewrite (bytes6_bit _ (λ i _, i <? prefix)); [done| |unfold zeros; rewrite length_replicate; lia].
        intros bit b k Hk Hb. unfold zeros in Hb. apply elem_of_replicate in Hb as [-> _].
        by apply mask_byte_bit.
    + cbn [ip_bytes ipv6_of sin6_addr]. apply count_mask6. lia.
Qed.

(** ** Memory *)

(** The addresses the constructors make. *)
Inductive made : Address → Prop :=
  | made_ipv4 a : sin_family a = AF_INET → length (sin_port a) = 2%nat → length (sin_addr a) = 4%nat →
      length (sin_zero a) = 8%nat → made (IPv4Address a)
  | made_ipv6 a : sin6_family a = AF_INET6 → length (sin6_port a) = 2%nat →
      length (sin6_flowinfo a) = 4%nat → length (sin6_addr a) = 16%nat →
      length (sin6_scope_id a) = 4%nat → made (IPv6Address a)
  | made_unix path a : path ≠ [] → unix_of_path path = Some a → made a
  | made_unknown s : (2 <= length s <= 128)%nat →
      decode_fixed true 2 (take 2 s) ∉ [AF_INET; AF_INET6; AF_UNIX] →
      made (unknown_of_sockaddr (decode_fixed true 2 (take 2 s)) s).

Lemma length_family f : length (family_bytes f) = 2%nat.
Proof. done. Qed.

Lemma length_zeros n : length (zeros n) = n.
Proof. apply length_replicate. Qed.

Lemma length_fill n s : length (fill n s) = n.
Proof. unfold fill. rewrite length_app, length_take, length_zeros. lia. Qed.

Lemma family_back f s : 0 <= f < 2 ^ 16 → decode_fixed true 2 (take 2 (family_bytes f ++ s)) = f.
Proof.
  intros Hf. rewrite take_app_length' by done. unfold family_bytes. rewrite decode_encode_fixed.
  by apply wrap_small.
Qed.

Lemma unix_of_path_fields path a :
  unix_of_path path = Some a →
  a = UnixAddress (mkUn AF_UNIX (fill 108 path))
        (if is_abstract path then 2 + length path else 2 + length path + 1)%nat path ∧
  (length path <= (if is_abstract path then 108 else 107))%nat.
Proof.
  unfold unix_of_path, sizeof_sun_path. cbv zeta.
  destruct (is_abstract path); cbn [negb andb orb].
  - destruct (Nat.ltb_spec 108 (length path)); [done|]. by intros [= <-].
  - destruct (Nat.leb_spec 108 (length path)); [done|]. intros [= <-]. split; [done|lia].
Qed.

(** The memory of a Unix address of length [n], and what [Create] copies. *)
Lemma unix_memory path n :
  (length path <= 108)%nat → (2 + length path <= n <= 110)%nat →
  let s := take n (family_bytes AF_UNIX ++ fill 108 path) in
  length s = n ∧ s = family_bytes AF_UNIX ++ path ++ zeros (n - 2 - length path) ∧
  drop 2 (fill 110 s) = fill 108 path.
Proof.
  intros Hlen Hn s.
  assert (s = family_bytes AF_UNIX ++ path ++ zeros (n - 2 - length path)) as E.
  { unfold s. rewrite take_app_ge by (rewrite length_family; lia). f_equal. rewrite length_family.
    unfold fill. rewrite (take_ge path), take_app_ge by lia. f_equal.
    unfold zeros. rewrite take_replicate. f_equal. lia. }
  assert (length s = n) as El by (rewrite E, !length_app, length_family, length_zeros; lia).
  split_and!; [done|done|]. unfold fill at 1. rewrite (take_ge s), El, E, <- !app_assoc by lia.
  rewrite drop_app_length' by done. unfold fill. rewrite (take_ge path) by lia. f_equal.
  unfold zeros. rewrite <- replicate_add. f_equal. lia.
Qed.

(** The path without its final zero. *)
Lemma unix_path path n :
  path ≠ [] → n = (if is_abstract path then 2 + length path else 2 + length path + 1)%nat →
  (n <= 110)%nat →
  unix_of_sockaddr (mkUn AF_UNIX (fill 108 path)) n = UnixAddress (mkUn AF_UNIX (fill 108 path)) n path.
Proof.
  intros Hne Hn Hle. destruct path as [|b path]; [done|]. set (l := b :: path) in *.
  assert (1 <= length l)%nat as H1 by (cbn; lia).
  assert (length l <= 108)%nat as H108 by (destruct (is_abstract l); lia).
  unfold unix_of_sockaddr, sizeof_un, sizeof_sun_path. cbn [sun_path]. rewrite Nat.min_l by lia. f_equal.
  destruct (Nat.ltb_spec 2 n) as [_|]; [|destruct (is_abstract l); lia]. rewrite Nat.min_l by lia.
  destruct (Nat.ltb_spec 0 (n - 2)) as [_|]; [|destruct (is_abstract l); lia]. cbn [andb].
  assert (∀ k, k = length l → take k (fill 108 l) = l) as Ht.
  { intros k ->. unfold fill. rewrite (take_ge _ 108) by lia. by rewrite take_app_length. }
  assert (fill 108 l !! 0%nat = Some b) as -> by done.
  change (is_abstract l) with (Byte.eqb b Byte.x00) in Hn. destruct (Byte.eqb b Byte.x00) eqn:Eb.
  - apply byte_eqb_eq in Eb. rewrite bool_decide_eq_true_2 by congruence. cbn [negb andb]. apply Ht. lia.
  - apply byte_eqb_neq in Eb. rewrite bool_decide_eq_false_2 by congruence. cbn [negb andb].
    rewrite bool_decide_eq_true_2; [apply Ht; lia|].
    unfold fill. rewrite (take_ge _ 108), lookup_app_r by lia.
    unfold zeros. apply lookup_replicate. split; [done|]. lia.
Qed.

(** Reading a Unix address back from its memory. *)
Lemma unix_back path a :
  path ≠ [] → unix_of_path path = Some a →
  Create (Some (take (getAddrLen a) (getAddr a))) = Some a.
Proof.
  intros Hne Ha. destruct (unix_of_path_fields path a Ha) as [-> Hlen].
  set (n := if is_abstract path then _ else _).
  cbn [getAddrLen getAddr sun_family sun_path].
  assert (length path <= 108 ∧ 2 + length path <= n <= 110)%nat as [Hl Hb]
    by (unfold n; destruct (is_abstract path); lia).
  destruct (unix_memory path n Hl Hb) as (El&E&Ed). set (s := take n _) in *.
  unfold Create. rewrite El. destruct (Nat.ltb_spec n 2); [lia|].
  rewrite E, family_back by (unfold AF_UNIX; lia). rewrite <- E. cbn [Z.eqb AF_UNIX AF_INET AF_INET6].
  change (Z.to_nat 110) with 110%nat. unfold sizeof_un. f_equal. rewrite Ed. apply unix_path; [done|done|lia].
Qed.

(** Names all bytes of a text whose length [H] gives. *)
Ltac all_bytes s H :=
  repeat (let b := fresh "b" in destruct s as [|b s]; [discriminate H|];
          cbn [length] in H; apply Nat.succ_inj in H);
  destruct s; [clear H|discriminate H].

(** The memory of an address, read with [Address::Create] and the length it
    reports, gives the address back: IPv4, IPv6, Unix paths with and without the
    abstract name space (except the empty path), and unknown families. *)
Theorem sockaddr_round_trip a :
  made a → Create (Some (take (getAddrLen a) (getAddr a))) = Some a.
Proof.
  destruct 1 as [[f p s z] Hf Hp Hs Hz|[f p fl s sc] Hf Hp Hfl Hs Hsc|path a Hne Ha|s Hs Hf].
  - cbn [sin_family sin_port sin_addr sin_zero] in *. subst f.
    all_bytes p Hp. all_bytes s Hs. all_bytes z Hz. reflexivity.
  - cbn [sin6_family sin6_port sin6_flowinfo sin6_addr sin6_scope_id] in *. subst f.
    all_bytes p Hp. all_bytes fl Hfl. all_bytes s Hs. all_bytes sc Hsc. reflexivity.
  - by apply (unix_back path).
  - unfold unknown_of_sockaddr, sizeof_storage. rewrite Nat.min_l by lia. cbn [getAddrLen getAddr].
    rewrite (take_ge s) by lia. unfold fill. rewrite (take_ge s), take_app_length by lia.
    unfold Create. destruct (Nat.ltb_spec (length s) 2); [lia|].
    set (f := decode_fixed true 2 (take 2 s)) in *. set_unfold.
    destruct (Z.eqb_spec f AF_INET); [naive_solver|]. destruct (Z.eqb_spec f AF_INET6); [naive_solver|].
    destruct (Z.eqb_spec f AF_UNIX); [naive_solver|].
    unfold unknown_of_sockaddr, sizeof_storage, fill. rewrite Nat.min_l by lia.
    by rewrite !(take_ge s) by lia.
Qed.

(** ** Order *)

Lemma memcmp_refl s : memcmp s s = Eq.
Proof. induction s as [|b s IH]; [done|]. cbn [memcmp]. by rewrite Z.compare_refl. Qed.

Lemma memcmp_eq s t : length s = length t → memcmp s t = Eq → s = t.
Proof.
  revert t. induction s as [|b s IH]; intros [|c t] Hl; try done. cbn [memcmp].
  destruct (Z.compare_spec (code b) (code c)); [|done..]. intros E.
  f_equal; [by apply code_inj|]. apply IH; [by injection Hl|done].
Qed.

Lemma memcmp_antisym s t : memcmp t s = CompOpp (memcmp s t).
Proof.
  revert t. induction s as [|b s IH]; intros [|c t]; try done. cbn [memcmp].
  rewrite (Z.compare_antisym (code b) (code c)). destruct (code b ?= code c); [apply IH|done..].
Qed.

Lemma memcmp_trans s t u :
  length s = length t → length t = length u → memcmp s t = Lt → memcmp t u = Lt → memcmp s u = Lt.
Proof.
  revert t u. induction s as [|b s IH]; intros [|c t] [|d u] H1 H2; try done. cbn [memcmp].
  destruct (Z.compare_spec (code b) (code c)), (Z.compare_spec (code c) (code d)),
    (Z.compare_spec (code b) (code d)); try done; try lia.
  apply IH; [by injection H1|by injection H2].
Qed.

(** The bytes two addresses are compared by. *)
Definition memory (a : Address) : str := take (getAddrLen a) (getAddr a).

(** The reported length does not exceed the memory. *)
Definition sized (a : Address) : Prop := (getAddrLen a <= length (getAddr a))%nat.

Lemma length_memory a : sized a → length (memory a) = getAddrLen a.
Proof. unfold sized, memory. rewrite length_take. lia. Qed.

Lemma equal_spec a b :
  sized a → sized b → equal a b = true ↔ getFamily a = getFamily b ∧ memory a = memory b.
Proof.
  intros Ha Hb. unfold equal. rewrite !andb_true_iff, Z.eqb_eq, Nat.eqb_eq. split.
  - intros [[Hf Hl] Hm]. split; [done|]. unfold memory. rewrite <- Hl. apply memcmp_eq.
    + rewrite !length_take. unfold sized in *. lia.
    + by destruct (memcmp _ _).
  - intros [Hf Hm]. assert (getAddrLen a = getAddrLen b) as Hl
      by (by rewrite <- !length_memory, Hm by done).
    split_and!; [done|done|]. unfold memory in Hm. rewrite <- Hl in Hm.
    by rewrite <- Hm, memcmp_refl.
Qed.

(** The comparison behind both operators: family, length, memory. *)
Definition lex (r next : comparison) : comparison := match r with Eq => next | _ => r end.
Definition cmp (a b : Address) : comparison :=
  lex (getFamily a ?= getFamily b) (lex (Nat.compare (getAddrLen a) (getAddrLen b))
    (memcmp (take (getAddrLen a) (getAddr a)) (take (getAddrLen a) (getAddr b)))).

Lemma less_cmp a b : less a b = match cmp a b with Lt => true | _ => false end.
Proof.
  unfold less, cmp.
  destruct (Z.compare_spec (getFamily a) (getFamily b)) as [E|E|E];
    [rewrite (proj2 (Z.eqb_eq _ _)) by done
    |rewrite (proj2 (Z.eqb_neq _ _)) by lia; by apply Z.ltb_lt
    |rewrite (proj2 (Z.eqb_neq _ _)) by lia; apply Z.ltb_ge; lia].
  destruct (Nat.compare_spec (getAddrLen a) (getAddrLen b));
    [by rewrite (proj2 (Nat.eqb_eq _ _)) by done
    |rewrite (proj2 (Nat.eqb_neq _ _)) by lia; by apply Nat.ltb_lt
    |rewrite (proj2 (Nat.eqb_neq _ _)) by lia; apply Nat.ltb_ge; lia].
Qed.

Lemma equal_cmp a b : equal a b = match cmp a b with Eq => true | _ => false end.
Proof.
  unfold equal, cmp.
  destruct (Z.compare_spec (getFamily a) (getFamily b));
    [rewrite (proj2 (Z.eqb_eq _ _)) by done|by rewrite (proj2 (Z.eqb_neq _ _)) by lia..].
  by destruct (Nat.compare_spec (getAddrLen a) (getAddrLen b));
    [rewrite (proj2 (Nat.eqb_eq _ _)) by done|rewrite (proj2 (Nat.eqb_neq _ _)) by lia..].
Qed.

Lemma cmp_antisym a b : cmp b a = CompOpp (cmp a b).
Proof.
  unfold cmp. rewrite (Z.compare_antisym (getFamily a)), (Nat.compare_antisym (getAddrLen a)).
  destruct (getFamily a ?= getFamily b); [|done..].
  destruct (Nat.compare_spec (getAddrLen a) (getAddrLen b)) as [->|?|?]; [|done..].
  apply memcmp_antisym.
Qed.

Lemma cmp_trans a b c :
  sized a → sized b → sized c → cmp a b = Lt → cmp b c = Lt → cmp a c = Lt.
Proof.
  unfold cmp, sized. intros Ha Hb Hc.
  destruct (Z.compare_spec (getFamily a) (getFamily b)), (Z.compare_spec (getFamily b) (getFamily c)),
    (Z.compare_spec (getFamily a) (getFamily c)); try done; try lia. cbn [lex].
  destruct (Nat.compare_spec (getAddrLen a) (getAddrLen b)) as [E|?|?],
    (Nat.compare_spec (getAddrLen b) (getAddrLen c)) as [E'|?|?],
    (Nat.compare_spec (getAddrLen a) (getAddrLen c)); try done; try lia. cbn [lex].
  rewrite <- E. apply memcmp_trans; rewrite !length_take; lia.
Qed.

(** [operator<] on addresses of all kinds is a strict total order whose
    equality is [operator==], which is equality of the family and of the memory
    the addresses report; so addresses may be the keys of ordered containers. *)
Theorem addresses_ordered a b c :
  sized a → sized b → sized c →
  (equal a b = true ↔ getFamily a = getFamily b ∧ memory a = memory b) ∧
  less a b = negb (less b a || equal a b) ∧
  (less a b = true → equal a b = false) ∧
  (less a b = true → less b c = true → less a c = true).
Proof.
  intros Ha Hb Hc. split; [by apply equal_spec|].
  rewrite !less_cmp, equal_cmp, (cmp_antisym a b). split; [by destruct (cmp a b)|].
  split; [by destruct (cmp a b)|]. intros H1 H2. rewrite (cmp_trans a b c); [done..| |].
  - by destruct (cmp a b).
  - by destruct (cmp b c).
Qed.

(** ** Texts *)

(** An endpoint without brackets. *)
Lemma split_plain node service :
  COLON ∉ node → COLON ∉ service → OPEN ∉ node →
  SplitHostService (node ++ COLON :: service) = (node, service).
Proof.
  intros Hn Hs Ho.
  assert (find_char COLON (node ++ COLON :: service) = Some (length node)) as E1 by (by apply find_char_here).
  assert (rfind_char COLON (node ++ COLON :: service) = Some (length node)) as E2.
  { apply rfind_char_Some. by exists node, service. }
  unfold SplitHostService. rewrite E1, E2, bool_decide_eq_true_2 by done.
  rewrite take_app_length. replace (drop (S (length node)) (node ++ COLON :: service)) with service.
  - destruct node as [|b node]; [done|]. cbn [app].
    assert (Byte.eqb b OPEN = false) as ->; [|done].
    apply byte_eqb_neq. intros ->. apply Ho. by left.
  - rewrite cons_middle, app_assoc. by rewrite drop_app_length' by (rewrite length_app; cbn; lia).
Qed.

(** An endpoint with brackets. *)
Lemma split_bracketed node service :
  CLOSE ∉ node →
  SplitHostService (OPEN :: node ++ CLOSE :: COLON :: service) = (node, service).
Proof.
  intros Hn. unfold SplitHostService. rewrite byte_eqb_refl.
  assert (find_char CLOSE (OPEN :: node ++ CLOSE :: COLON :: service) = Some (S (length node))) as ->.
  { apply (find_char_here CLOSE (OPEN :: node)). rewrite not_elem_of_cons. done. }
  replace (S (length node) - 1)%nat with (length node) by lia. unfold substr. cbn [drop].
  rewrite drop_0, take_app_length. f_equal. rewrite (cons_middle CLOSE), !app_comm_cons, app_assoc.
  rewrite lookup_app_r by (rewrite length_app; cbn [length]; lia).
  replace (S (length node) + 1 - length ((OPEN :: node) ++ [CLOSE]))%nat with 0%nat
    by (rewrite length_app; cbn [length]; lia).
  cbn [lookup list_lookup]. rewrite byte_eqb_refl, (cons_middle COLON), app_assoc.
  apply drop_app_length'. rewrite !length_app. cbn [length]. lia.
Qed.

(** A text conversion of the C library whose results are those of the usual
    notations: digits and dots, or hexadecimal digits, colons, dots and percent
    signs, but no brackets. *)
Class NtopLaws (inet_ntop : Z → str → option str) := {
  ntop_v4 s t : inet_ntop AF_INET s = Some t → COLON ∉ t ∧ OPEN ∉ t;
  ntop_v6 s t : inet_ntop AF_INET6 s = Some t → CLOSE ∉ t;
}.

Lemma to_dec_no_colon z : 0 <= z → COLON ∉ to_dec z.
Proof.
  intros Hz Hin. pose proof (to_dec_digits z Hz) as H. rewrite Forall_forall in H.
  destruct (H _ Hin) as [d Hd]. by vm_compute in Hd.
Qed.

(** What an IP address prints is taken apart into exactly the text of the
    address and the decimal digits of the port, for both kinds of address, so
    [Lookup] hands the resolver the address and the port that were printed. *)
Theorem endpoint_round_trip inet_ntop a text port :
  NtopLaws inet_ntop → getPort a = Some port →
  inet_ntop (getFamily a) (ip_bytes a) = Some text →
  SplitHostService (insert inet_ntop a) = (text, to_dec port) ∧
  from_chars_all 16 10 (to_dec port) = Some port.
Proof.
  intros Hlaws Hp Ht.
  assert (0 <= port < 2 ^ 16) as Hr.
  { destruct a; cbn [getPort] in Hp; try done; injection Hp as <-; apply (decode_range false 2). }
  split.
  - destruct a as [a|a|? ? ?|? ? ?]; cbn [getPort] in Hp; try done; injection Hp as <-;
      cbn [getFamily ip_bytes] in Ht; cbn [insert]; unfold ipv4_insert, ipv6_insert; rewrite Ht.
    + destruct (ntop_v4 _ _ Ht) as [H1 H2]. apply split_plain; [done| |done].
      apply to_dec_no_colon; lia.
    + apply split_bracketed. by apply (ntop_v6 _ _ Ht).
  - by apply from_chars_to_dec.
Qed.

(** ** Witnesses *)

(** 192.168.77.5 with port 8080. *)
Definition sample : Address := ipv4_of 0xC0A84D05 8080.

Lemma prefix_arithmetic_witness :
  ip_wf sample ∧ networkAddress 20 sample = Some (ipv4_of 0xC0A84000 8080) ∧
  broadcastAddress 20 sample = Some (ipv4_of 0xC0A84FFF 8080) ∧
  ∃ m, subnetMask 20 sample = Some m ∧ CountMaskBits (ip_bytes m) = 20%nat.
Proof.
  split; [reflexivity|]. split; [vm_compute; reflexivity|]. split; [vm_compute; reflexivity|].
  destruct (prefix_arithmetic 20 sample) as (n&b&m&_&_&Hm&_&_&_&Hc); [reflexivity|lia|].
  exists m. split; [exact Hm|exact Hc].
Defined.

Lemma sockaddr_round_trip_witness :
  ∃ a, unix_of_path $"/run/app.sock" = Some a ∧ Create (Some (take (getAddrLen a) (getAddr a))) = Some a.
Proof.
  destruct (unix_of_path $"/run/app.sock") as [a|] eqn:E; [|vm_compute in E; discriminate].
  exists a. split; [reflexivity|].
  apply sockaddr_round_trip, (made_unix $"/run/app.sock"); [discriminate|exact E].
Defined.

Lemma addresses_ordered_witness :
  sized sample ∧ sized ipv6_default ∧ less sample ipv6_default = true ∧
  equal sample ipv6_default = false.
Proof.
  assert (sized sample) as H1 by (vm_compute; lia).
  assert (sized ipv6_default) as H2 by (vm_compute; lia).
  split; [exact H1|]. split; [exact H2|]. split; [reflexivity|].
  destruct (addresses_ordered sample ipv6_default sample H1 H2 H1) as (_&_&H&_).
  apply H. reflexivity.
Defined.

(** A conversion that knows two addresses. *)
Definition two_names (family : Z) (_ : str) : option str :=
  Some (if family =? AF_INET then $"192.168.77.5" else $"fe80::1").

Lemma endpoint_round_trip_witness :
  getPort sample = Some 8080 ∧
  SplitHostService (insert two_names sample) = ($"192.168.77.5", $"8080").
Proof.
  assert (NtopLaws two_names) as Hlaws.
  { split; intros s t [= <-].
    - split; vm_compute; intros H; repeat (inversion H as [|? ? ? H']; subst; clear H; rename H' into H).
    - vm_compute; intros H; repeat (inversion H as [|? ? ? H']; subst; clear H; rename H' into H). }
  split; [vm_compute; reflexivity|].
  destruct (endpoint_round_trip two_names sample $"192.168.77.5" 8080 Hlaws) as [E _];
    [vm_compute; reflexivity|reflexivity|].
  rewrite E. vm_compute. reflexivity.
Defined.
End AddressProofs.
