(* ===== verification/TcpServer.v ===== *)
(** [TcpServer] ([droplet/src/tcpserver/tcp_server.cc]): the listeners of a
    server, bound, started and stopped by calls that may interleave between
    their critical sections, and the loop that accepts clients.  Opening a
    listener and [accept] are system calls whose outcomes are arguments. *)

From S2P Require Import Prelude.

Module TcpServer.

(** IOManagers and sockets are handles. *)
Abbreviation manager := positive.
Abbreviation sock := positive.

Inductive errno := EINVAL | EBUSY | ESystem (e : Z).

(** Tasks the server schedules: to accept on a listener, to serve a client with
    the timeout of its socket, to close listeners. *)
Inductive task :=
  | StartAccept (listener : sock)
  | HandleClient (client : sock) (socket_timeout : Z)
  | CloseListeners (listeners : list sock).

Definition kDefaultRecvTimeoutMs : Z := 120000.

Record TcpServer := mkTcpServer {
  worker_ : option manager;
  io_worker_ : option manager;
  accept_worker_ : option manager;
  listeners_ : list sock;
  name_ : str;
  type_ : str;
  recv_timeout_ms_ : Z;
  stopped_ : bool;
}.

(** The server, the tasks it has handed to managers, the listeners closed. *)
Record world := mkWorld {
  server : TcpServer;
  posted : list (manager * task);
  closed : list sock;
}.

Definition make (worker io_worker accept_worker : option manager) (configured : option Z) : TcpServer :=
  mkTcpServer worker io_worker accept_worker [] $"droplet/0.1.0" $"tcp"
    (default kDefaultRecvTimeoutMs configured) true.

Definition set_listeners (l : list sock) (s : TcpServer) : TcpServer :=
  mkTcpServer (worker_ s) (io_worker_ s) (accept_worker_ s) l (name_ s) (type_ s)
    (recv_timeout_ms_ s) (stopped_ s).
Definition set_stopped (b : bool) (s : TcpServer) : TcpServer :=
  mkTcpServer (worker_ s) (io_worker_ s) (accept_worker_ s) (listeners_ s) (name_ s) (type_ s)
    (recv_timeout_ms_ s) b.
Definition setRecvTimeout (ms : Z) (s : TcpServer) : TcpServer :=
  mkTcpServer (worker_ s) (io_worker_ s) (accept_worker_ s) (listeners_ s) (name_ s) (type_ s)
    ms (stopped_ s).
Definition setName (n : str) (s : TcpServer) : TcpServer :=
  mkTcpServer (worker_ s) (io_worker_ s) (accept_worker_ s) (listeners_ s) n (type_ s)
    (recv_timeout_ms_ s) (stopped_ s).
Definition setType (t : str) (s : TcpServer) : TcpServer :=
  mkTcpServer (worker_ s) (io_worker_ s) (accept_worker_ s) (listeners_ s) (name_ s) t
    (recv_timeout_ms_ s) (stopped_ s).

Definition on_server (f : TcpServer → TcpServer) (w : world) : world :=
  mkWorld (f (server w)) (posted w) (closed w).
Definition post (m : manager) (t : task) (w : world) : world :=
  mkWorld (server w) (posted w ++ [(m, t)]) (closed w).
Definition closeListeners (l : list sock) (w : world) : world :=
  mkWorld (server w) (posted w) (closed w ++ l).

(** ** Binding *)

Section bind.
Context {address : Type}.

(** An address, null or not, with the outcome of opening, binding and listening. *)
Abbreviation attempt := (option address * (sock + Z))%type.

(** The loop: the listeners, the failures and the last error. *)
Fixpoint bind_loop (l : list attempt) (listeners : list sock) (failures : list (option address))
    (last_error : errno) : list sock * list (option address) * errno :=
  match l with
  | [] => (listeners, failures, last_error)
  | (None, _) :: l => bind_loop l listeners (failures ++ [None]) EINVAL
  | (Some a, inr e) :: l => bind_loop l listeners (failures ++ [Some a]) (ESystem e)
  | (Some a, inl s) :: l => bind_loop l (listeners ++ [s]) failures last_error
  end.

(** [bind] before its critical section: an error, or the open listeners. *)
Definition bind_open (l : list attempt) (w : world)
    : (errno + list sock) * list (option address) * world :=
  match l with
  | [] => (inl EINVAL, [], w)
  | _ =>
      if negb (stopped_ (server w)) then (inl EBUSY, [], w)
      else
        let '(listeners, failures, last_error) := bind_loop l [] [] (ESystem 0) in
        match failures with
        | [] => (inr listeners, [], w)
        | _ => (inl last_error, failures, closeListeners listeners w)
        end
  end.

(** The critical section. *)
Definition bind_commit (listeners : list sock) (w : world) : (errno + unit) * world :=
  if negb (stopped_ (server w)) then (inl EBUSY, closeListeners listeners w)
  else (inr tt, on_server (set_listeners (listeners_ (server w) ++ listeners)) w).

Definition bind (l : list attempt) (w : world) : (errno + unit) * list (option address) * world :=
  match bind_open l w with
  | (inl e, failures, w) => (inl e, failures, w)
  | (inr listeners, failures, w) => let '(r, w) := bind_commit listeners w in (r, failures, w)
  end.
End bind.

(** ** Starting and stopping *)

(** [start]: [alive] when the server is held by a shared pointer. *)
Definition start (alive : bool) (w : world) : (errno + unit) * world :=
  match worker_ (server w), io_worker_ (server w), accept_worker_ (server w) with
  | Some _, Some _, Some m =>
      if negb alive then (inl EINVAL, w)
      else if negb (stopped_ (server w)) then (inr tt, w)
      else
        match listeners_ (server w) with
        | [] => (inl EINVAL, w)
        | listeners =>
            (inr tt, foldl (λ w l, post m (StartAccept l) w) (on_server (set_stopped false) w) listeners)
        end
  | _, _, _ => (inl EINVAL, w)
  end.

(** [stop] up to its critical section. *)
Definition stop_flag (w : world) : bool * world :=
  (negb (stopped_ (server w)), on_server (set_stopped true) w).

(** The rest of [stop]: [alive] as for [start], [inside] when the caller runs in
    the accept worker. *)
Definition stop_take (was_running alive inside : bool) (w : world) : world :=
  let listeners := listeners_ (server w) in
  let w := on_server (set_listeners []) w in
  match listeners with
  | [] => w
  | _ =>
      match was_running, accept_worker_ (server w) with
      | true, Some m =>
          if negb alive || inside then closeListeners listeners w
          else post m (CloseListeners listeners) w
      | _, _ => closeListeners listeners w
      end
  end.

Definition stop (alive inside : bool) (w : world) : world :=
  let '(was_running, w) := stop_flag w in stop_take was_running alive inside w.

Definition destroy (w : world) : world :=
  closeListeners (listeners_ (server w)) (on_server (set_listeners []) w).

(** ** Accepting *)

Definition EBADF_number : Z := 9.
Definition EINVAL_number : Z := 22.

(** What one round of the loop sees: the flag and the listener before, the
    outcome of [accept], the flag after a failure. *)
Record round := mkRound {
  stopped_before : bool;
  valid : bool;
  accepted : sock + Z;
  stopped_after : bool;
}.

Definition socket_timeout (timeout : Z) : Z :=
  if timeout =? u64_max then -1 else Z.min timeout (2 ^ 63 - 1).

(** The rounds of [startAccept]: whether the loop has ended. *)
Fixpoint startAccept (io_worker : manager) (rounds : list round) (w : world) : bool * world :=
  match rounds with
  | [] => (false, w)
  | r :: rounds =>
      if stopped_before r || negb (valid r) then (true, w)
      else
        match accepted r with
        | inl client =>
            startAccept io_worker rounds
              (post io_worker (HandleClient client (socket_timeout (recv_timeout_ms_ (server w)))) w)
        | inr error =>
            if stopped_after r || (error =? EBADF_number) || (error =? EINVAL_number)
            then (true, w) else startAccept io_worker rounds w
        end
  end.
End TcpServer.
