(* ===== verification/TcpServerProofs.v ===== *)
(** What [TcpServer] guarantees: binding that takes all addresses or none, no
    listener lost or closed twice however the calls interleave, every client
    handed over once; and the start that overtakes a stop. *)

From stdpp Require Import gmap.
From S2P Require Import Prelude Totals TcpServer.
Import Totals TcpServer.

Module TcpServerProofs.

(** ** Binding *)

Section bind.
Context {address : Type}.
Implicit Types (l : list (option address * (sock + Z))).

(** The listener an attempt opened, and the address of one that failed. *)
Definition opened_by (t : option address * (sock + Z)) : list sock :=
  match t with (Some _, inl s) => [s] | _ => [] end.
Definition failed_by (t : option address * (sock + Z)) : list (option address) :=
  match t with (Some _, inl _) => [] | (a, _) => [a] end.
Definition error_of (t : option address * (sock + Z)) : option errno :=
  match t with (None, _) => Some EINVAL | (Some _, inr e) => Some (ESystem e) | (Some _, inl _) => None end.

Lemma bind_loop_spec l : ∀ listeners failures e,
  bind_loop l listeners failures e =
    (listeners ++ (l ≫= opened_by), failures ++ (l ≫= failed_by),
     default e (last (omap error_of l))).
Proof.
  induction l as [|[[a|] [s|n]] l IH]; intros listeners failures e; cbn [bind_loop].
  - by rewrite !app_nil_r.
  - rewrite IH. cbn [mbind list_bind opened_by failed_by omap list_omap error_of].
    by rewrite <- app_assoc.
  - rewrite IH. cbn [mbind list_bind opened_by failed_by omap list_omap error_of]. rewrite <- app_assoc.
    f_equal. rewrite last_cons. by destruct (last (omap error_of l)).
  - rewrite IH. cbn [mbind list_bind opened_by failed_by omap list_omap error_of]. rewrite <- app_assoc.
    f_equal. rewrite last_cons. by destruct (last (omap error_of l)).
  - rewrite IH. cbn [mbind list_bind opened_by failed_by omap list_omap error_of]. rewrite <- app_assoc.
    f_equal. rewrite last_cons. by destruct (last (omap error_of l)).
Qed.

Lemma failed_error l : (l ≫= failed_by) = [] ↔ omap error_of l = [].
Proof.
  induction l as [|[[a|] [s|n]] l IH]; cbn [mbind list_bind failed_by omap list_omap error_of app]; try done.
Qed.

(** C21: [bind] on a stopped server takes all addresses or none: either every
    address has been opened and the new listeners stand behind the old ones in
    the order of the addresses, or the server keeps its listeners, every listener
    that had been opened is closed, the failures are the addresses that could
    not be opened, in order, and the error is that of the last of them.  On a
    running server nothing is opened. *)
Theorem bind_all_or_nothing l w :
  let '(r, failures, w') := bind l w in
  posted w' = posted w ∧ stopped_ (server w') = stopped_ (server w) ∧
  match l, stopped_ (server w) with
  | [], _ => r = inl EINVAL ∧ failures = [] ∧ w' = w
  | _, false => r = inl EBUSY ∧ failures = [] ∧ w' = w
  | _, true =>
      failures = (l ≫= failed_by) ∧
      match failures with
      | [] => r = inr tt ∧ listeners_ (server w') = listeners_ (server w) ++ (l ≫= opened_by) ∧
          length (l ≫= opened_by) = length l ∧ closed w' = closed w
      | _ => inl <$> last (omap error_of l) = Some r ∧ server w' = server w ∧
          closed w' = closed w ++ (l ≫= opened_by)
      end
  end.
Proof.
  unfold bind, bind_open. destruct l as [|t l]; [done|]. set (l' := t :: l).
  destruct (stopped_ (server w)) eqn:Es; cbn [negb]; [|done].
  rewrite (bind_loop_spec l'). cbn [app]. pose proof (failed_error l') as Hf.
  destruct (l' ≫= failed_by) as [|a fs] eqn:Ef.
  - unfold bind_commit. rewrite Es. cbn [negb]. split_and!; [done|done|done|done|done| |done].
    clear -Ef. revert Ef. generalize l'. clear. induction l' as [|[[a|] [s|n]] l IH]; try done.
    cbn. intros E. f_equal. by apply IH.
  - split_and!; [done|done|done| |done|done].
    destruct (last (omap error_of l')) as [e|] eqn:El; [done|].
    apply last_None in El. apply Hf in El. done.
Qed.
End bind.

(** ** Calls that interleave *)

(** The listeners that tasks in the queues will close. *)
Definition closing_task (p : manager * task) : list sock :=
  match p.2 with CloseListeners l => l | _ => [] end.
Definition closing (w : world) : list sock := posted w ≫= closing_task.

Lemma closing_app l1 l2 : (l1 ++ l2) ≫= closing_task = (l1 ≫= closing_task) ++ (l2 ≫= closing_task).
Proof. apply bind_app. Qed.

Lemma stop_take_facts was_running alive inside w :
  let w' := stop_take was_running alive inside w in
  stopped_ (server w') = stopped_ (server w) ∧ listeners_ (server w') = [] ∧
  closing w' ++ closed w' ≡ₚ listeners_ (server w) ++ closing w ++ closed w.
Proof.
  unfold stop_take. cbv zeta. destruct (listeners_ (server w)) as [|x l] eqn:El; [done|].
  assert (∀ v : world, server v = server (on_server (set_listeners []) w) → posted v = posted w →
    closed v = closed w ++ x :: l → stopped_ (server v) = stopped_ (server w) ∧
    listeners_ (server v) = [] ∧ closing v ++ closed v ≡ₚ (x :: l) ++ closing w ++ closed w) as Hclose.
  { intros v -> E2 E3. split_and!; [done|done|]. unfold closing. rewrite E2, E3. solve_Permutation. }
  destruct was_running; [|by apply Hclose].
  destruct (accept_worker_ (server (on_server (set_listeners []) w))) as [m|]; [|by apply Hclose].
  destruct (negb alive || inside); [by apply Hclose|].
  split_and!; [done|done|]. unfold closing. cbn [posted closed post on_server].
  rewrite closing_app. cbn [mbind list_bind closing_task snd]. solve_Permutation.
Qed.

(** After [stop] the server is stopped and has no listeners, and each of
    them is closed or is in exactly one task that will close it. *)
Theorem stop_closes_all alive inside w :
  let w' := stop alive inside w in
  stopped_ (server w') = true ∧ listeners_ (server w') = [] ∧
  closing w' ++ closed w' ≡ₚ listeners_ (server w) ++ closing w ++ closed w.
Proof.
  unfold stop, stop_flag.
  destruct (stop_take_facts (negb (stopped_ (server w))) alive inside (on_server (set_stopped true) w))
    as (H1&H2&H3). done.
Qed.

(** A call between its critical sections: listeners open and not yet in the
    server, or the flag set and the listeners not yet taken. *)
Inductive call := Binding (listeners : list sock) | Stopping (was_running : bool).

Definition held (c : call) : list sock := match c with Binding l => l | Stopping _ => [] end.

Record life := mkLife { state : world; calls : gmap positive call; opened : list sock }.

(** What [bind] opens. *)
Definition opened_in {address} (l : list (option address * (sock + Z))) (w : world) : list sock :=
  if stopped_ (server w) then l ≫= opened_by else [].

Inductive step (s : life) : life → Prop :=
  | step_bind i (l : list (option unit * (sock + Z))) r failures w :
      calls s !! i = None → bind_open l (state s) = (r, failures, w) →
      step s (mkLife w (match r with inr ls => <[i := Binding ls]> (calls s) | inl _ => calls s end)
        (opened_in l (state s) ++ opened s))
  | step_commit i ls r w :
      calls s !! i = Some (Binding ls) → bind_commit ls (state s) = (r, w) →
      step s (mkLife w (delete i (calls s)) (opened s))
  | step_start alive r w : start alive (state s) = (r, w) → step s (mkLife w (calls s) (opened s))
  | step_stop i b w : calls s !! i = None → stop_flag (state s) = (b, w) →
      step s (mkLife w (<[i := Stopping b]> (calls s)) (opened s))
  | step_stopped i b alive inside : calls s !! i = Some (Stopping b) →
      step s (mkLife (stop_take b alive inside (state s)) (delete i (calls s)) (opened s))
  | step_task m t before behind : posted (state s) = before ++ (m, t) :: behind →
      step s (mkLife (mkWorld (server (state s)) (before ++ behind) (closed (state s) ++ closing_task (m, t)))
        (calls s) (opened s))
  | step_set (f : TcpServer → TcpServer) :
      (∀ x, listeners_ (f x) = listeners_ x ∧ stopped_ (f x) = stopped_ x) →
      step s (mkLife (on_server f (state s)) (calls s) (opened s)).

Definition fresh_life (sv : TcpServer) : life := mkLife (mkWorld (set_listeners [] sv) [] []) ∅ [].

Definition accounted (s : life) : Prop :=
  opened s ≡ₚ listeners_ (server (state s)) ++ collect held (calls s) ++
    closing (state s) ++ closed (state s).

Lemma start_facts alive w :
  let '(_, w') := start alive w in
  listeners_ (server w') = listeners_ (server w) ∧ closing w' = closing w ∧ closed w' = closed w.
Proof.
  unfold start. destruct (worker_ (server w)), (io_worker_ (server w)), (accept_worker_ (server w)) as [m|];
    try done. destruct alive; cbn [negb]; [|done]. destruct (stopped_ (server w)); cbn [negb]; [|done].
  destruct (listeners_ (server w)) as [|x l] eqn:El; [done|]. rewrite <- El at 2.
  assert (∀ ls v, listeners_ (server v) = listeners_ (server w) → closing v = closing w →
    closed v = closed w →
    let v' := foldl (λ w l, post m (StartAccept l) w) v ls in
    listeners_ (server v') = listeners_ (server w) ∧ closing v' = closing w ∧ closed v' = closed w)
    as Hf; [|by rewrite El in *; apply Hf].
  induction ls as [|y ls IH]; intros v E1 E2 E3; [done|]. cbn [foldl]. apply IH; [done| |done].
  unfold closing in *. cbn [posted post]. rewrite closing_app, E2. apply app_nil_r.
Qed.

Lemma step_accounted s s' : accounted s → step s s' → accounted s'.
Proof.
  unfold accounted. intros Ha Hs. destruct Hs as
    [i l r failures w Hi Hb|i ls r w Hi Hb|alive r w Hb|i b w Hi Hb|i b alive inside Hi
    |m t before behind Hp|f Hf]; cbn [state calls opened].
  - unfold bind_open in Hb. unfold opened_in. destruct l as [|t l].
    { injection Hb as <- _ <-. by destruct (stopped_ (server (state s))). }
    destruct (stopped_ (server (state s))) eqn:Es; cbn [negb] in Hb; [|by injection Hb as <- _ <-].
    rewrite bind_loop_spec in Hb. cbn [app] in Hb.
    destruct ((t :: l) ≫= failed_by); injection Hb as <- _ <-.
    + rewrite collect_insert, Ha by done. cbn [held]. solve_Permutation.
    + cbn [closeListeners server posted closed]. rewrite Ha. unfold closing. cbn [posted closeListeners].
      solve_Permutation.
  - rewrite (collect_lookup held _ _ _ Hi) in Ha. cbn [held] in Ha. unfold bind_commit in Hb.
    destruct (stopped_ (server (state s))); cbn [negb] in Hb; injection Hb as <- <-.
    + cbn. rewrite Ha. unfold closing. cbn. solve_Permutation.
    + cbn. rewrite Ha. unfold closing. cbn. solve_Permutation.
  - pose proof (start_facts alive (state s)) as H. rewrite Hb in H. destruct H as (->&->&->). done.
  - injection Hb as <- <-. rewrite collect_insert by done. done.
  - rewrite (collect_lookup held _ _ _ Hi) in Ha. cbn [held app] in Ha.
    destruct (stop_take_facts b alive inside (state s)) as (_&->&Hp). rewrite Ha. cbn [app].
    rewrite Hp. solve_Permutation.
  - unfold closing in *. cbn [posted closed server]. rewrite Ha, Hp, !closing_app.
    cbn [mbind list_bind]. solve_Permutation.
  - cbn. destruct (Hf (server (state s))) as [-> _]. done.
Qed.

(** C20: whatever calls of [bind], [start] and [stop] interleave, and whenever
    the tasks run, every listener that was ever opened is in exactly one place:
    with the server, with a [bind] that has not finished, in a task that will
    close it, or closed; so none is lost and none is closed twice. *)
Theorem listeners_conserved sv s :
  rtc step (fresh_life sv) s →
  opened s ≡ₚ listeners_ (server (state s)) ++ collect held (calls s) ++
    closing (state s) ++ closed (state s).
Proof.
  assert (accounted (fresh_life sv)) as H by (unfold accounted; cbn; by rewrite collect_empty).
  revert H. generalize (fresh_life sv). intros s0 H Hr.
  induction Hr as [|s1 s2 s3 H12 _ IH]; [done|]. by apply IH, (step_accounted s1).
Qed.

(** A call of [start] between the two parts of [stop] leaves a server that
    counts as running without a single listener: nothing can be bound, and a
    further [start] does nothing. *)
Theorem start_overtakes_stop :
  let sv := make (Some 1%positive) (Some 1%positive) (Some 1%positive) None in
  ∃ s, rtc step (fresh_life sv) s ∧ calls s = ∅ ∧
    stopped_ (server (state s)) = false ∧ listeners_ (server (state s)) = [] ∧
    closed (state s) = [7%positive] ∧
    bind [(Some tt, inl 8%positive)] (state s) = (inl EBUSY, [], state s) ∧
    start true (state s) = (inr tt, state s).
Proof.
  intros sv. set (w0 := state (fresh_life sv)).
  set (l := [(Some tt, inl 7%positive)] : list (option unit * (sock + Z))).
  set (w1 := (bind_commit [7%positive] w0).2). set (w2 := (stop_flag w1).2).
  set (w3 := (start true w2).2). set (w4 := stop_take false true false w3).
  exists (mkLife w4 ∅ [7%positive]). split; [|by vm_compute].
  apply (rtc_l _ _ (mkLife w0 {[1%positive := Binding [7%positive]]} [7%positive])).
  { exact (step_bind (fresh_life sv) 1 l (inr [7%positive]) [] w0 eq_refl eq_refl). }
  apply (rtc_l _ _ (mkLife w1 ∅ [7%positive])).
  { exact (step_commit (mkLife w0 {[1%positive := Binding [7%positive]]} [7%positive]) 1 [7%positive]
      (inr tt) w1 eq_refl eq_refl). }
  apply (rtc_l _ _ (mkLife w2 {[1%positive := Stopping false]} [7%positive])).
  { exact (step_stop (mkLife w1 ∅ [7%positive]) 1 false w2 eq_refl eq_refl). }
  apply (rtc_l _ _ (mkLife w3 {[1%positive := Stopping false]} [7%positive])).
  { exact (step_start (mkLife w2 {[1%positive := Stopping false]} [7%positive]) true (inr tt) w3 eq_refl). }
  apply rtc_once.
  exact (step_stopped (mkLife w3 {[1%positive := Stopping false]} [7%positive]) 1 false true false eq_refl).
Qed.

(** ** Accepting *)

(** A round that ends the loop, and the client another one accepts. *)
Definition ends (r : round) : bool :=
  stopped_before r || negb (valid r) ||
  match accepted r with
  | inl _ => false
  | inr e => stopped_after r || (e =? EBADF_number) || (e =? EINVAL_number)
  end.
Definition client_of (r : round) : list sock :=
  match accepted r with inl c => [c] | inr _ => [] end.

(** The accept loop hands over every client it accepts exactly once, in
    order, with the timeout of the server, up to the first round that sees the
    server stopped, the listener invalid or a fatal error, where it ends; other
    errors do not end it. *)
Theorem startAccept_hands_over io_worker rounds w :
  let '(b, w') := startAccept io_worker rounds w in
  let t := socket_timeout (recv_timeout_ms_ (server w)) in
  ∃ before behind, rounds = before ++ behind ∧
    Forall (λ r, ends r = false) before ∧
    (if b then from_option ends false (head behind) = true else behind = []) ∧
    server w' = server w ∧ closed w' = closed w ∧
    posted w' = posted w ++ ((λ c, (io_worker, HandleClient c t)) <$> (before ≫= client_of)).
Proof.
  revert w. induction rounds as [|r rounds IH]; intros w; cbn [startAccept].
  - exists [], []. split_and!; [done|constructor|done|done|done|by rewrite app_nil_r].
  - destruct (stopped_before r || negb (valid r)) eqn:E1.
    { exists [], (r :: rounds). split_and!; try done; [|by rewrite app_nil_r].
      cbn [head from_option]. unfold ends. by rewrite E1. }
    destruct (accepted r) as [c|e] eqn:Ea.
    + specialize (IH (post io_worker (HandleClient c (socket_timeout (recv_timeout_ms_ (server w)))) w)).
      destruct (startAccept _ _ _) as [b w']. destruct IH as (before&behind&->&Hb&He&Es&Ec&Ep).
      exists (r :: before), behind. split_and!; try done.
      * constructor; [|done]. unfold ends. by rewrite E1, Ea.
      * rewrite Ep. cbn [posted post server mbind list_bind]. unfold client_of at 2. rewrite Ea.
        cbn [app fmap list_fmap]. by rewrite <- app_assoc.
    + destruct (stopped_after r || _ || _) eqn:E2.
      { exists [], (r :: rounds). split_and!; try done; [|by rewrite app_nil_r].
        cbn [head from_option]. unfold ends. by rewrite E1, Ea, E2. }
      specialize (IH w). destruct (startAccept _ _ _) as [b w'].
      destruct IH as (before&behind&->&Hb&He&Es&Ec&Ep).
      exists (r :: before), behind. split_and!; try done.
      * constructor; [|done]. unfold ends. by rewrite E1, Ea, E2.
      * rewrite Ep. cbn [mbind list_bind]. unfold client_of at 2. by rewrite Ea.
Qed.

(** The timeout of a client's socket fits its 64-bit type, and only the largest
    value means no timeout. *)
Lemma socket_timeout_bounds timeout :
  0 <= timeout <= u64_max →
  - 2 ^ 63 <= socket_timeout timeout < 2 ^ 63 ∧ (socket_timeout timeout = -1 ↔ timeout = u64_max).
Proof.
  intros Ht. unfold socket_timeout, u64_max in *. destruct (Z.eqb_spec timeout (2 ^ 64 - 1)); lia.
Qed.

(** ** Witness *)

Lemma listeners_conserved_witness :
  ∃ s, rtc step (fresh_life (make None None None None)) s ∧ opened s = [7%positive] ∧
    [7%positive] ≡ₚ listeners_ (server (state s)) ++ collect held (calls s) ++
      closing (state s) ++ closed (state s).
Proof.
  set (l := [(Some tt, inl 7%positive)] : list (option unit * (sock + Z))).
  set (s0 := fresh_life (make None None None None)).
  set (s := mkLife (state s0) {[1%positive := Binding [7%positive]]} [7%positive]).
  assert (rtc step s0 s) as Hr.
  { apply rtc_once. exact (step_bind s0 1 l (inr [7%positive]) [] (state s0) eq_refl eq_refl). }
  exists s. split; [exact Hr|]. split; [reflexivity|].
  exact (listeners_conserved (make None None None None) s Hr).
Defined.
End TcpServerProofs.
