(* ===== verification/Hook.v ===== *)
(** The hooks of the system calls ([droplet/src/hook/hook.cc]) and the contexts
    of descriptors ([droplet/src/socket/fd_manager.cc]): timeouts and the
    non-blocking flag as the program sees them, sleeping as timers, and the loop
    of [DoIo] as a machine whose steps interleave with timers, readiness, closing
    and the rest of the manager.  What the kernel answers is an argument. *)

From stdpp Require Import gmap.
From S2P Require Import Prelude Fiber Scheduler IOManager IOManagerRuns.
Import Fiber Scheduler IOManager.

Module Hook.

(** ** Contexts of descriptors *)

Definition SO_RCVTIMEO : Z := 20.
Definition SO_SNDTIMEO : Z := 21.
Definition O_NONBLOCK : Z := 2048.

Record FdCtx := mkFdCtx {
  fd_ : Z;
  initialized_ : bool;
  socket_ : bool;
  sys_nonblock_ : bool;
  user_nonblock_ : bool;
  closed_ : bool;
  recv_timeout_ : Z;
  send_timeout_ : Z;
}.

Definition setTimeout (option milliseconds : Z) (c : FdCtx) : FdCtx :=
  if option =? SO_RCVTIMEO then
    mkFdCtx (fd_ c) (initialized_ c) (socket_ c) (sys_nonblock_ c) (user_nonblock_ c) (closed_ c)
      milliseconds (send_timeout_ c)
  else if option =? SO_SNDTIMEO then
    mkFdCtx (fd_ c) (initialized_ c) (socket_ c) (sys_nonblock_ c) (user_nonblock_ c) (closed_ c)
      (recv_timeout_ c) milliseconds
  else c.

Definition getTimeout (option : Z) (c : FdCtx) : Z :=
  if option =? SO_RCVTIMEO then recv_timeout_ c
  else if option =? SO_SNDTIMEO then send_timeout_ c
  else u64_max.

Definition setUserNonblock (b : bool) (c : FdCtx) : FdCtx :=
  mkFdCtx (fd_ c) (initialized_ c) (socket_ c) (sys_nonblock_ c) b (closed_ c)
    (recv_timeout_ c) (send_timeout_ c).
Definition setSysNonblock (b : bool) (c : FdCtx) : FdCtx :=
  mkFdCtx (fd_ c) (initialized_ c) (socket_ c) b (user_nonblock_ c) (closed_ c)
    (recv_timeout_ c) (send_timeout_ c).
Definition markClosed (c : FdCtx) : FdCtx :=
  mkFdCtx (fd_ c) (initialized_ c) (socket_ c) (sys_nonblock_ c) (user_nonblock_ c) true
    (recv_timeout_ c) (send_timeout_ c).

(** The milliseconds of a [timeval], rounded up; none for zero. *)
Definition timeval_ms (tv_sec tv_usec : Z) : Z :=
  if (tv_sec =? 0) && (tv_usec =? 0) then u64_max
  else wrap 64 (wrap 64 (wrap 64 tv_sec * 1000) + wrap 64 (tv_usec + 999) / 1000).

(** What the kernel says about a new descriptor: [fstat], the flags, whether
    they can be set, the two timeouts. *)
Record fd_answer := mkAnswer {
  stat_ok : bool;
  is_socket : bool;
  get_flags : option Z;
  set_ok : bool;
  rcv_timeo : option (Z * Z);
  snd_timeo : option (Z * Z);
}.

(** The constructor with [init]. *)
Definition new_context (fd : Z) (a : fd_answer) : FdCtx :=
  let c := mkFdCtx fd false false false false false u64_max u64_max in
  if negb (stat_ok a) then c
  else
    let c := mkFdCtx fd false (is_socket a) false false false u64_max u64_max in
    let c :=
      if is_socket a then
        let c :=
          match get_flags a with
          | Some flags =>
              if negb (Z.land flags O_NONBLOCK =? 0) || set_ok a then setSysNonblock true c else c
          | None => c
          end in
        let timeout option t c :=
          match t with Some (s, u) => setTimeout option (timeval_ms s u) c | None => c end in
        timeout SO_SNDTIMEO (snd_timeo a) (timeout SO_RCVTIMEO (rcv_timeo a) c)
      else c in
    mkFdCtx (fd_ c) true (socket_ c) (sys_nonblock_ c) (user_nonblock_ c) (closed_ c)
      (recv_timeout_ c) (send_timeout_ c).

(** The table holds pointers; an object outlives its place in the table. *)
Record FdManager := mkFdManager {
  objects : gmap positive FdCtx;
  data_ : list (option positive);
}.

Definition get (fd : Z) (auto_create : bool) (a : fd_answer) (m : FdManager)
    : option positive * FdManager :=
  if (fd <? 0) || (kMaxTrackedFd <? fd) then (None, m)
  else
    let n := Z.to_nat fd in
    if Nat.leb (length (data_ m)) n && negb auto_create then (None, m)
    else
      let v := data_ m ++ replicate (S n - length (data_ m)) None in
      match v !! n with
      | Some (Some p) => (Some p, mkFdManager (objects m) v)
      | _ =>
          if auto_create then
            let p := fresh (dom (objects m)) in
            (Some p, mkFdManager (<[p := new_context fd a]> (objects m)) (<[n := Some p]> v))
          else (None, mkFdManager (objects m) v)
      end.

Definition update (f : FdCtx → FdCtx) (p : positive) (m : FdManager) : FdManager :=
  mkFdManager (alter f p (objects m)) (data_ m).

Definition del (fd : Z) (m : FdManager) : FdManager :=
  if fd <? 0 then m
  else
    match data_ m !! Z.to_nat fd with
    | Some (Some p) =>
        let m := update markClosed p m in mkFdManager (objects m) (<[Z.to_nat fd := None]> (data_ m))
    | _ => m
    end.

(** ** Flags *)

(** [fcntl F_SETFL]: the flags handed to the kernel. *)
Definition fcntl_setfl (value : Z) (c : option FdCtx) : option FdCtx * Z :=
  match c with
  | Some c =>
      if socket_ c && negb (closed_ c) then
        let c := setUserNonblock (negb (Z.land value O_NONBLOCK =? 0)) c in
        (Some c, if sys_nonblock_ c then Z.lor value O_NONBLOCK else value)
      else (Some c, value)
  | None => (None, value)
  end.

(** [fcntl F_GETFL]: what the caller sees of the kernel's answer. *)
Definition fcntl_getfl (value : Z) (c : option FdCtx) : Z :=
  match c with
  | Some c =>
      if (0 <=? value) && socket_ c && negb (user_nonblock_ c)
      then Z.land value (Z.lnot O_NONBLOCK) else value
  | None => value
  end.

(** [ioctl FIONBIO]: the context, and whether the kernel's flag is set again. *)
Definition ioctl_fionbio (argument result : Z) (c : FdCtx) : FdCtx * bool :=
  let c := setUserNonblock (negb (argument =? 0)) c in
  (c, socket_ c && sys_nonblock_ c && (result =? 0)).

(** The commands of [fcntl] that hand an [int] on; the others hand nothing on. *)
Definition F_DUPFD : Z := 0.
Definition F_SETFD : Z := 2.
Definition F_GETFL : Z := 3.
Definition F_SETFL : Z := 4.
Definition F_SETOWN : Z := 8.
Definition F_SETSIG : Z := 10.
Definition F_SETLEASE : Z := 1024.
Definition F_NOTIFY : Z := 1026.
Definition F_DUPFD_CLOEXEC : Z := 1030.
Definition F_SETPIPE_SZ : Z := 1031.
Definition FIONBIO : Z := 0x5421.

Definition int_command (command : Z) : bool :=
  bool_decide (command ∈ [F_DUPFD; F_DUPFD_CLOEXEC; F_SETFD; F_SETOWN; F_SETSIG; F_SETLEASE; F_NOTIFY; F_SETPIPE_SZ]).

Section flags.
(** The original functions on the state of the kernel, with the argument behind the
    command, or the [int] behind the pointer of [ioctl]. *)
Context {K : Type} (fcntl_f : Z → option Z → K → Z * K) (ioctl_f : Z → option Z → K → Z * K).

Definition fcntl (command argument : Z) (c : option FdCtx) (k : K) : Z * option FdCtx * K :=
  let value := to_signed 32 (wrap 32 argument) in
  if command =? F_SETFL then
    let '(c, actual) := fcntl_setfl value c in
    let '(r, k) := fcntl_f command (Some actual) k in (r, c, k)
  else if command =? F_GETFL then
    let '(r, k) := fcntl_f command None k in (fcntl_getfl r c, c, k)
  else
    let '(r, k) := fcntl_f command (if int_command command then Some value else None) k in (r, c, k).

Definition ioctl (request : Z) (argument : option Z) (c : option FdCtx) (k : K) : Z * option FdCtx * K :=
  let '(result, k) := ioctl_f request argument k in
  match argument, c with
  | Some v, Some c =>
      if request =? FIONBIO then
        let '(c, again) := ioctl_fionbio v result c in
        if again then
          let '(flags, k) := fcntl_f F_GETFL None k in
          (result, Some c, if 0 <=? flags then (fcntl_f F_SETFL (Some (Z.lor flags O_NONBLOCK)) k).2 else k)
        else (result, Some c, k)
      else (result, Some c, k)
  | _, _ => (result, c, k)
  end.
End flags.

(** ** Descriptors that the hooks create or configure *)

Definition SOCK_NONBLOCK : Z := 2048.
Definition SOL_SOCKET : Z := 1.
Definition sizeof_timeval : Z := 16.

Definition flag_set (flags flag : Z) : bool := negb (Z.land flags flag =? 0).

(** [get(fd, true)] and what the program asked for, when the hooks are on. *)
Definition track (hook_enabled : bool) (fd : Z) (user_nonblock : option bool) (a : fd_answer)
    (m : FdManager) : FdManager :=
  if (0 <=? fd) && hook_enabled then
    match get fd true a m, user_nonblock with
    | (Some p, m), Some b => update (setUserNonblock b) p m
    | (_, m), _ => m
    end
  else m.

(** [socket], [accept] and [accept4] behind the original call. *)
Definition socket (hook_enabled : bool) (type fd : Z) : fd_answer → FdManager → FdManager :=
  track hook_enabled fd (Some (flag_set type SOCK_NONBLOCK)).
Definition accept (hook_enabled : bool) (fd : Z) : fd_answer → FdManager → FdManager :=
  track hook_enabled fd None.
Definition accept4 (hook_enabled : bool) (flags fd : Z) : fd_answer → FdManager → FdManager :=
  track hook_enabled fd (Some (flag_set flags SOCK_NONBLOCK)).

(** [socketpair]: both contexts are looked up before either is changed. *)
Definition socketpair (hook_enabled : bool) (type result first second : Z) (a1 a2 : fd_answer)
    (m : FdManager) : FdManager :=
  if (result =? 0) && hook_enabled then
    let '(p1, m) := get first true a1 m in
    let '(p2, m) := get second true a2 m in
    let set p m :=
      match p with Some p => update (setUserNonblock (flag_set type SOCK_NONBLOCK)) p m | None => m end in
    set p2 (set p1 m)
  else m.

(** [setsockopt] behind the original call, with the [timeval] it was given. *)
Definition setsockopt (result level option_name : Z) (value : option (Z * Z)) (length fd : Z)
    (a : fd_answer) (m : FdManager) : FdManager :=
  match value with
  | Some (tv_sec, tv_usec) =>
      if (result =? 0) && (level =? SOL_SOCKET) &&
         ((option_name =? SO_RCVTIMEO) || (option_name =? SO_SNDTIMEO)) && (sizeof_timeval <=? length)
      then
        match get fd false a m with
        | (Some p, m) => update (setTimeout option_name (timeval_ms tv_sec tv_usec)) p m
        | (None, m) => m
        end
      else m
  | None => m
  end.

(** [close] before the original call, as far as the table is concerned. *)
Definition close_context (fd : Z) (a : fd_answer) (m : FdManager) : FdManager :=
  match get fd false a m with
  | (Some p, m) => del fd (update markClosed p m)
  | (None, m) => m
  end.

(** ** Sleeping *)

(** The delays of the timers. *)
Definition sleep_ms (seconds : Z) : Z := wrap 64 (seconds * 1000).
Definition usleep_ms (usec : Z) : Z := wrap 64 (usec + 999) / 1000.
Definition nanosleep_ms (tv_sec tv_nsec : Z) : Z :=
  wrap 64 (wrap 64 (wrap 64 tv_sec * 1000) + wrap 64 (wrap 64 tv_nsec + 999999) / 1000000).

(** ** [DoIo] *)

Definition EBADF : Z := 9.
Definition EINTR : Z := 4.
Definition EAGAIN : Z := 11.
Definition ENOSYS : Z := 38.
Definition ETIMEDOUT : Z := 110.
Definition EINPROGRESS : Z := 115.

(** What [DoIo] does first: it calls the original function directly, fails, or
    enters its loop with a timeout. *)
Inductive entry := Direct | Fail (e : Z) | Loop (timeout : Z).

Definition DoIo_entry (has_function hook_enabled : bool) (c : option FdCtx) (timeout_option : Z) : entry :=
  if negb has_function then Fail ENOSYS
  else if negb hook_enabled then Direct
  else
    match c with
    | None => Direct
    | Some c =>
        if closed_ c then Fail EBADF
        else if negb (socket_ c) || user_nonblock_ c then Direct
        else Loop (getTimeout timeout_option c)
    end.

(** The functions that go through [DoIo], with the event they wait for, the
    timeout they take, and whether they have flags. *)
Inductive io_function :=
  | Accept | Accept4 | Read | Readv | Recv | Recvfrom | Recvmsg
  | Write | Writev | Send | Sendto | Sendmsg.

Definition io_event (fn : io_function) : Z :=
  match fn with
  | Write | Writev | Send | Sendto | Sendmsg => WRITE
  | _ => READ
  end.
Definition io_timeout_option (fn : io_function) : Z :=
  match fn with
  | Write | Writev | Send | Sendto | Sendmsg => SO_SNDTIMEO
  | _ => SO_RCVTIMEO
  end.
Definition has_flags (fn : io_function) : bool :=
  match fn with Recv | Recvfrom | Recvmsg | Send | Sendto | Sendmsg => true | _ => false end.

Definition MSG_DONTWAIT : Z := 64.

(** What the hook of a function does first. *)
Definition hooked_entry (fn : io_function) (flags : Z) (has_function hook_enabled : bool)
    (c : option FdCtx) : entry :=
  if has_flags fn && flag_set flags MSG_DONTWAIT then Direct
  else
    match fn, has_function with
    | Accept4, false => Fail ENOSYS
    | _, _ => DoIo_entry has_function hook_enabled c (io_timeout_option fn)
    end.

(** [connect_with_timeout] up to its wait: the result and [errno], or [None] when
    it goes on to wait; [answer] is that of the original call. *)
Definition connect_entry (hook_enabled : bool) (c : option FdCtx) (answer : Z * Z) (in_fiber : bool)
    : option (Z * Z) :=
  if negb hook_enabled then Some answer
  else
    match c with
    | None => Some answer
    | Some c =>
        if closed_ c then Some (-1, EBADF)
        else if negb (socket_ c) || user_nonblock_ c then Some answer
        else if (answer.1 =? 0) || ((answer.1 =? -1) && negb (answer.2 =? EINPROGRESS)) then Some answer
        else if negb in_fiber then Some answer
        else None
    end.

(** What it returns behind its wait for an answer of [getsockopt(SO_ERROR)]. *)
Definition connect_answer (query : Z + Z) : Z * Z :=
  match query with
  | inl e => (-1, e)
  | inr error => if negb (error =? 0) then (-1, error) else (0, 0)
  end.

(** Where a call is: at the head of the loop, after an answer that it would
    block, with its timer set, with its event registered and out of the thread,
    behind the yield, at the end. *)
Inductive io_phase := Head | Blocked | Timed | Waiting | Woken | Done (result err : Z).

(** The timer of one round: in the manager, its callback taken out of it, the
    callback behind its compare-and-swap, in [cancelEvent] behind the critical
    section, over. *)
Inductive io_timer := Armed | Dequeued | Cancelling | Flying (fl : flight) | Over.

Section io.
Context {kernel : Type} (epoll_ctl : kernel → operation → Z → Z → kernel * option Z).
(** The fiber of the call, its descriptor, event and timeout; whether it runs in
    a fiber of a manager at all; whether it is [connect_with_timeout], which
    waits once and then asks for the result, and not [DoIo]. *)
Context (f : fid) (fd event timeout : Z) (in_fiber connecting : bool).

Record io_world := mkIo {
  manager : @iom kernel;
  phase : io_phase;
  cancelled : Z;
  timers : list io_timer;
  current : option nat;
  context_closed : bool;
  flights : gmap positive flight;  (** operations of others behind their critical section *)
}.

Definition timed : bool := negb (timeout =? u64_max) && (connecting || negb (timeout =? 0)).

Definition go (p : io_phase) (w : io_world) : io_world :=
  mkIo (manager w) p (cancelled w) (timers w) (current w) (context_closed w) (flights w).
Definition with_manager (m : @iom kernel) (w : io_world) : io_world :=
  mkIo m (phase w) (cancelled w) (timers w) (current w) (context_closed w) (flights w).
Definition set_timers (l : list io_timer) (w : io_world) : io_world :=
  mkIo (manager w) (phase w) (cancelled w) l (current w) (context_closed w) (flights w).
Definition set_timer (i : nat) (t : io_timer) (w : io_world) : io_world :=
  set_timers (<[i := t]> (timers w)) w.
Definition set_cancelled (e : Z) (w : io_world) : io_world :=
  mkIo (manager w) (phase w) e (timers w) (current w) (context_closed w) (flights w).
Definition set_current (o : option nat) (w : io_world) : io_world :=
  mkIo (manager w) (phase w) (cancelled w) (timers w) o (context_closed w) (flights w).
Definition set_flight (k : positive) (o : option flight) (w : io_world) : io_world :=
  mkIo (manager w) (phase w) (cancelled w) (timers w) (current w) (context_closed w)
    (IOManagerRuns.launch k o (flights w)).

Definition arm (w : io_world) : io_world :=
  if timed
  then go Timed (set_current (Some (length (timers w))) (set_timers (timers w ++ [Armed]) w))
  else go Timed (set_current None w).

(** [timer->cancel()] has no effect once the callback has been taken out. *)
Definition cancel_timer (w : io_world) : io_world :=
  match current w with
  | Some i =>
      match timers w !! i with
      | Some Armed => set_timer i Over w
      | _ => w
      end
  | None => w
  end.

(** [addEvent] for the fiber itself. *)
Definition add_self (w : io_world) : (errno + unit) * @iom kernel :=
  addEvent epoll_ctl fd event None (f, true) (manager w).

(** Behind the yield. *)
Definition after_wake (w : io_world) : io_world :=
  let w := cancel_timer w in
  if negb (cancelled w =? 0) then go (Done (-1) (cancelled w)) w else go Head w.

(** The callback up to its compare-and-swap; the shared state dies with the call. *)
Definition timer_swap (i : nat) (w : io_world) : io_world :=
  match phase w with
  | Done _ _ => set_timer i Over w
  | _ =>
      if cancelled w =? 0
      then set_cancelled ETIMEDOUT (set_timer i Cancelling w)
      else set_timer i Over w
  end.

(** The [cancelEvent] of the callback: its critical section, and each step
    behind it. *)
Definition timer_after (o : option flight) : io_timer :=
  match o with Some fl => Flying fl | None => Over end.
Definition timer_cancel (i : nat) (w : io_world) : io_world :=
  let '(r, m) := cancelEvent_locked epoll_ctl fd event (manager w) in
  with_manager m (set_timer i (timer_after (IOManagerRuns.from_locked r)) w).
Definition timer_fly (i : nat) (fl : flight) (w : io_world) : io_world :=
  let '(o, m) := fly fl (manager w) in with_manager m (set_timer i (timer_after o) w).

(** [markClosed], the first thing [close] does. *)
Definition mark_closed (w : io_world) : io_world :=
  mkIo (manager w) (phase w) (cancelled w) (timers w) (current w) true (flights w).

(** The operations of other threads: critical section, and each step behind it. *)
Definition begin_cancel (k : positive) (fd' event' : Z) (w : io_world) : io_world :=
  let '(r, m) := cancelEvent_locked epoll_ctl fd' event' (manager w) in
  with_manager m (set_flight k (IOManagerRuns.from_locked r) w).
Definition begin_process (k : positive) (fd' epoll_events : Z) (w : io_world) : io_world :=
  let '(o, m) := processEvent_locked epoll_ctl fd' epoll_events (manager w) in
  with_manager m (set_flight k o w).
Definition continue (k : positive) (fl : flight) (w : io_world) : io_world :=
  let '(o, m) := fly fl (manager w) in with_manager m (set_flight k o w).

(** A handler of the fiber, and a task of the fiber. *)
Definition is_mine (h : EventContext) : bool :=
  match IOManager.cb h, IOManager.fiber h with
  | None, Some g => bool_decide (g = f)
  | _, _ => false
  end.
Definition is_my_task (t : ScheduleTask) : bool := bool_decide (Scheduler.fiber t = Some f).

(** What the call itself does. *)
Inductive call_step (w : io_world) : io_world → Prop :=
  | io_closed : phase w = Head → context_closed w = true → call_step w (go (Done (-1) EBADF) w)
  | io_result r e : phase w = Head → context_closed w = false →
      (if connecting then ∃ query, (r, e) = connect_answer query else r ≠ -1 ∨ (e ≠ EINTR ∧ e ≠ EAGAIN)) →
      call_step w (go (Done r e) w)
  | io_block : phase w = Head → context_closed w = false → connecting = false →
      call_step w (if in_fiber then go Blocked w else go (Done (-1) EAGAIN) w)
  | io_arm : phase w = Blocked → call_step w (arm w)
  | io_add m : phase w = Timed → add_self w = (inr tt, m) →
      call_step w (go Waiting (with_manager m w))
  | io_add_failed e m n : phase w = Timed → add_self w = (inl e, m) →
      call_step w (go (Done (-1) n) (cancel_timer (with_manager m w)))
  | io_resume t before behind : phase w = Waiting →
      IOManager.tasks_ (manager w) = before ++ t :: behind → is_my_task t = true →
      call_step w (go Woken (with_manager (IOManager.set_tasks (before ++ behind) (manager w)) w))
  | io_woken : phase w = Woken → call_step w (after_wake w).

(** What the timer of round [i] does. *)
Inductive timer_step (i : nat) (w : io_world) : io_world → Prop :=
  | timer_due : timers w !! i = Some Armed → timer_step i w (set_timer i Dequeued w)
  | timer_runs : timers w !! i = Some Dequeued → timer_step i w (timer_swap i w)
  | timer_cancels : timers w !! i = Some Cancelling → timer_step i w (timer_cancel i w)
  | timer_flies fl : timers w !! i = Some (Flying fl) → timer_step i w (timer_fly i fl w).

(** An operation of another thread that has left its critical section goes on. *)
Inductive flight_step (w : io_world) : io_world → Prop :=
  | io_continue k fl : flights w !! k = Some fl → flight_step w (continue k fl w).

(** Everything else: [close] marks the descriptor and, in a thread of a manager,
    cancels its events; the kernel reports readiness, other events are added and
    cancelled, and the rest of the queue changes. *)
Inductive other_step (w : io_world) : io_world → Prop :=
  | io_close : other_step w (mark_closed w)
  | io_close_cancels k : context_closed w = true → flights w !! k = None →
      other_step w (begin_cancel k fd kAllEvents w)
  | io_ready k fd' epoll_events : flights w !! k = None →
      other_step w (begin_process k fd' epoll_events w)
  | io_other_cancel k fd' event' : flights w !! k = None →
      other_step w (begin_cancel k fd' event' w)
  | io_other_add fd' event' callback g stack : g ≠ f →
      other_step w (with_manager (addEvent epoll_ctl fd' event' callback (g, stack) (manager w)).2 w)
  | io_queue l : filter (λ t, is_my_task t = true) l =
        filter (λ t, is_my_task t = true) (IOManager.tasks_ (manager w)) →
      other_step w (with_manager (IOManager.set_tasks l (manager w)) w).

Inductive io_step (w w' : io_world) : Prop :=
  | by_call : call_step w w' → io_step w w'
  | by_timer i : timer_step i w w' → io_step w w'
  | by_flight : flight_step w w' → io_step w w'
  | by_other : other_step w w' → io_step w w'.

(** A call that has entered the loop, or the wait of a connect. *)
Definition enter (m : @iom kernel) : io_world :=
  mkIo m (if connecting then Blocked else Head) 0 [] None false ∅.
End io.
End Hook.
