(* ===== verification/HookProofs.v ===== *)
(** What the hooks guarantee: waits that are never too short, a non-blocking
    flag that looks untouched, a waiting call that is woken exactly once and has
    a timer as long as none has fired - and the runs in which it waits for ever. *)

From stdpp Require Import gmap.
From S2P Require Import Prelude Totals Fiber Scheduler SchedulerProofs.
From S2P Require Import IOManager IOManagerProofs IOManagerRuns Hook.
Import Totals Fiber Scheduler IOManager IOManagerProofs IOManagerRuns Hook.

Module HookProofs.

(** ** Times *)

Lemma ceil_div a b : 0 < b → 0 <= a → a <= (a + (b - 1)) / b * b < a + b.
Proof.
  intros Hb Ha. pose proof (Z.div_mod (a + (b - 1)) b ltac:(lia)).
  pose proof (Z.mod_pos_bound (a + (b - 1)) b ltac:(lia)). nia.
Qed.

(** The milliseconds the hooks wait are never shorter than what was asked
    for and longer by less than one millisecond, for [sleep], [usleep],
    [nanosleep] and the timeouts of sockets, where only zero means no timeout -
    as long as the seconds are fewer than 2^53. *)
Theorem waits_are_long_enough sec usec nsec :
  0 <= sec < 2 ^ 53 → 0 <= usec < 2 ^ 32 → 0 <= nsec < 10 ^ 9 →
  sleep_ms sec = sec * 1000 ∧
  usec <= usleep_ms usec * 1000 < usec + 1000 ∧
  sec * 10 ^ 9 + nsec <= nanosleep_ms sec nsec * 10 ^ 6 < sec * 10 ^ 9 + nsec + 10 ^ 6 ∧
  (timeval_ms sec usec = u64_max ↔ sec = 0 ∧ usec = 0) ∧
  (timeval_ms sec usec ≠ u64_max →
    sec * 10 ^ 6 + usec <= timeval_ms sec usec * 1000 < sec * 10 ^ 6 + usec + 1000).
Proof.
  intros Hs Hu Hn. pose proof (ceil_div usec 1000 ltac:(lia) ltac:(lia)) as Cu.
  pose proof (ceil_div nsec 1000000 ltac:(lia) ltac:(lia)) as Cn.
  change (usec + (1000 - 1)) with (usec + 999) in Cu.
  change (nsec + (1000000 - 1)) with (nsec + 999999) in Cn.
  assert (sleep_ms sec = sec * 1000) as E1 by (apply wrap_small; lia).
  assert (usleep_ms usec = (usec + 999) / 1000) as E2 by (unfold usleep_ms; rewrite wrap_small; lia).
  assert (nanosleep_ms sec nsec = sec * 1000 + (nsec + 999999) / 1000000) as E3.
  { unfold nanosleep_ms. rewrite (wrap_small 64 sec), (wrap_small 64 nsec), (wrap_small 64 (sec * 1000)),
      (wrap_small 64 (nsec + 999999)) by lia. apply wrap_small. lia. }
  assert (¬ (sec = 0 ∧ usec = 0) → timeval_ms sec usec = sec * 1000 + (usec + 999) / 1000 ∧
    timeval_ms sec usec < u64_max) as E4.
  { intros Hne. assert (timeval_ms sec usec = sec * 1000 + (usec + 999) / 1000) as E.
    { unfold timeval_ms. destruct (Z.eqb_spec sec 0), (Z.eqb_spec usec 0); cbn [andb]; try lia;
        rewrite (wrap_small 64 sec), (wrap_small 64 (usec + 999)), (wrap_small 64 (sec * 1000)) by lia;
        apply wrap_small; lia. }
    split; [done|]. rewrite E. unfold u64_max. lia. }
  rewrite E1, E2, E3. split_and!; try lia.
  - split.
    + intros E. destruct (decide (sec = 0 ∧ usec = 0)) as [|Hne]; [done|]. destruct (E4 Hne). lia.
    + intros [-> ->]. done.
  - intros Hne. destruct (decide (sec = 0 ∧ usec = 0)) as [[-> ->]|Hn0]; [done|].
    destruct (E4 Hn0) as [-> _]. lia.
Qed.

(** ** Flags *)

Lemma without_nonblock v : Z.land v O_NONBLOCK = 0 → Z.land (Z.lor v O_NONBLOCK) (Z.lnot O_NONBLOCK) = v ∧
  Z.land v (Z.lnot O_NONBLOCK) = v.
Proof.
  intros Hv. rewrite Z.land_lor_distr_l, Z.land_lnot_diag, Z.lor_0_r.
  assert (Z.land v (Z.lnot O_NONBLOCK) = v) as E; [|done].
  rewrite <- Z.ldiff_land. apply Z.bits_inj'. intros n Hn. rewrite Z.ldiff_spec.
  assert (Z.testbit (Z.land v O_NONBLOCK) n = false) as Hb by (by rewrite Hv, Z.bits_0).
  rewrite Z.land_spec in Hb. by destruct (Z.testbit v n), (Z.testbit O_NONBLOCK n).
Qed.

Lemma with_nonblock v : Z.land v O_NONBLOCK ≠ 0 → Z.lor v O_NONBLOCK = v.
Proof.
  intros Hv. change O_NONBLOCK with (2 ^ 11) in *.
  assert (Z.testbit v 11 = true) as Hb.
  { destruct (Z.testbit v 11) eqn:E; [done|]. exfalso. apply Hv. apply Z.bits_inj'. intros n Hn.
    rewrite Z.land_spec, Z.pow2_bits_eqb, Z.bits_0 by lia.
    destruct (Z.eqb_spec 11 n) as [<-|]; [by rewrite E|by rewrite andb_false_r]. }
  apply Z.bits_inj'. intros n Hn. rewrite Z.lor_spec, Z.pow2_bits_eqb by lia.
  destruct (Z.eqb_spec 11 n) as [<-|]; [by rewrite Hb|by rewrite orb_false_r].
Qed.

(** The program cannot tell that its sockets are non-blocking: what it sets
    with [fcntl F_SETFL] is what [F_GETFL] answers, whatever the kernel keeps,
    and a socket that has been switched stays non-blocking in the kernel; other
    descriptors go straight to the kernel. *)
Theorem nonblock_flag_transparent value c :
  0 <= value →
  let '(c', k) := fcntl_setfl value (Some c) in
  (closed_ c = false → fcntl_getfl k c' = value) ∧
  (socket_ c && negb (closed_ c) = true → sys_nonblock_ c = true → Z.land k O_NONBLOCK ≠ 0) ∧
  (socket_ c = false → k = value ∧ c' = Some c).
Proof.
  intros Hv. unfold fcntl_setfl, fcntl_getfl. destruct (socket_ c) eqn:Es; cbn [andb].
  2: { split_and!; [|done|done]. intros _. by rewrite Es, andb_false_r. }
  destruct (closed_ c) eqn:Ec; cbn [negb]; [done|].
  cbn [socket_ user_nonblock_ sys_nonblock_ setUserNonblock]. rewrite Es, andb_true_r.
  destruct (Z.eqb_spec (Z.land value O_NONBLOCK) 0) as [E|E]; cbn [negb].
  - destruct (without_nonblock value E) as [E1 E2]. split_and!; [|intros _ Hsys; rewrite ?Hsys|done].
    + intros _. rewrite andb_true_r. destruct (sys_nonblock_ c).
      * rewrite (proj2 (Z.leb_le 0 _)) by (apply Z.lor_nonneg; done || lia). done.
      * by rewrite (proj2 (Z.leb_le 0 _)) by lia.
    + rewrite Z.land_lor_distr_l, E, Z.lor_0_l, Z.land_diag. done.
  - rewrite andb_false_r. split_and!; [|intros _ Hsys; rewrite ?Hsys|done].
    + intros _. destruct (sys_nonblock_ c); [by apply with_nonblock|done].
    + by destruct (sys_nonblock_ c); rewrite ?with_nonblock.
Qed.

(** ** Who wakes a call *)

Section call.
Context {kernel : Type} (epoll_ctl : kernel → operation → Z → Z → kernel * option Z).
Context (f : fid) (fd event timeout : Z) (in_fiber connecting : bool).
Implicit Types (m : @iom kernel) (w : @io_world kernel).
Abbreviation step := (io_step epoll_ctl f fd event timeout in_fiber connecting).

(** Handlers and tasks of the fiber. *)
Definition my_handlers (hs : list EventContext) : nat := length (filter (λ h, is_mine f h = true) hs).
Definition my_tasks (l : list ScheduleTask) : nat := length (filter (λ t, is_my_task f t = true) l).

(** The handlers an operation or a timer is carrying to the queue. *)
Definition in_flight (t : io_timer) : list EventContext :=
  match t with Flying fl => carried fl | _ => [] end.

(** In how many places the fiber of the call is: registered in the table, on
    its way to the queue with an operation of another thread or of one of its
    own timers, in the queue. *)
Definition places w : nat :=
  (my_handlers (waiting (manager w)) + my_handlers (collect carried (flights w)) +
   my_handlers (timers w ≫= in_flight) + my_tasks (IOManager.tasks_ (manager w)))%nat.

Lemma my_handlers_app l1 l2 : my_handlers (l1 ++ l2) = (my_handlers l1 + my_handlers l2)%nat.
Proof. unfold my_handlers. by rewrite filter_app, length_app. Qed.
Lemma my_tasks_app l1 l2 : my_tasks (l1 ++ l2) = (my_tasks l1 + my_tasks l2)%nat.
Proof. unfold my_tasks. by rewrite filter_app, length_app. Qed.

Lemma my_handlers_perm l1 l2 : l1 ≡ₚ l2 → my_handlers l1 = my_handlers l2.
Proof. unfold my_handlers. by intros ->. Qed.

Lemma my_tasks_of hs : my_tasks (task_of <$> hs) = my_handlers hs.
Proof.
  unfold my_tasks, my_handlers. induction hs as [|h hs IH]; [done|].
  rewrite fmap_cons, !filter_cons. assert (is_my_task f (task_of h) = is_mine f h) as ->.
  { unfold is_my_task, task_of, is_mine. destruct (IOManager.cb h); cbn; [done|].
    destruct (IOManager.fiber h); [|done]. apply bool_decide_ext. naive_solver. }
  destruct (decide (is_mine f h = true)); cbn [length]; by rewrite IH.
Qed.

(** Handlers in a changed timer, and with a changed operation. *)
Lemma timers_update l i t t' :
  l !! i = Some t →
  (my_handlers (in_flight t) + my_handlers (<[i := t']> l ≫= in_flight) =
   my_handlers (in_flight t') + my_handlers (l ≫= in_flight))%nat.
Proof.
  intros Hi. pose proof (lookup_lt_Some _ _ _ Hi) as Hlt.
  rewrite insert_take_drop by done. rewrite <- (take_drop_middle l i t) at 3 by done.
  rewrite !bind_app, !bind_cons, !my_handlers_app. lia.
Qed.

Lemma flights_update (fs : gmap positive flight) k o o' :
  fs !! k = o →
  (my_handlers (from_option carried [] o) + my_handlers (collect carried (launch k o' fs)) =
   my_handlers (from_option carried [] o') + my_handlers (collect carried fs))%nat.
Proof.
  intros Hk. assert (my_handlers (collect carried (launch k o' fs)) =
    (my_handlers (from_option carried [] o') + my_handlers (collect carried (delete k fs)))%nat) as ->.
  { destruct o' as [fl|]; cbn [launch from_option]; [|done].
    by rewrite (my_handlers_perm _ _ (collect_update carried fs k fl)), my_handlers_app. }
  destruct o as [fl|]; cbn [from_option].
  - rewrite (my_handlers_perm _ _ (collect_lookup carried fs k fl Hk)), my_handlers_app. lia.
  - rewrite delete_id by done. unfold my_handlers at 1. cbn. lia.
Qed.

(** A critical section takes handlers out of the table. *)
Definition takes (o : option flight) m m' : Prop :=
  wf m' ∧ IOManager.tasks_ m' = IOManager.tasks_ m ∧
  my_handlers (waiting m) = (my_handlers (from_option carried [] o) + my_handlers (waiting m'))%nat.

Lemma cancel_takes_handlers fd' ev m r m' :
  cancelEvent_locked epoll_ctl fd' ev m = (r, m') → wf m → takes (from_locked r) m m'.
Proof.
  unfold cancelEvent_locked. intros Hr Hm.
  destruct (remove_events epoll_ctl fd' ev m) as [r1 m1] eqn:Er.
  destruct (remove_events_facts epoll_ctl _ _ _ _ _ Er Hm) as (Hm1&_&Ht&H).
  destruct r1 as [e|[hs n]]; injection Hr as <- <-; (split; [done|]); (split; [done|]).
  - by rewrite H.
  - destruct H as [Hw _]. by rewrite (my_handlers_perm _ _ Hw), my_handlers_app.
Qed.

Lemma process_takes_handlers fd' ev m o m' :
  processEvent_locked epoll_ctl fd' ev m = (o, m') → wf m → takes o m m'.
Proof.
  intros Hr Hm. destruct (processEvent_facts epoll_ctl _ _ _ _ _ Hr Hm) as (Hm'&_&Ht&H).
  split; [done|]. split; [done|]. destruct o as [fl|]; [|by subst].
  destruct H as (hs&->&Hw). by rewrite (my_handlers_perm _ _ Hw), my_handlers_app.
Qed.

(** A step of an operation moves handlers to the queue. *)
Lemma fly_moves fl m o m' :
  fly fl m = (o, m') → fd_contexts_ m' = fd_contexts_ m ∧
  (my_handlers (carried fl) + my_tasks (IOManager.tasks_ m) =
   my_handlers (from_option carried [] o) + my_tasks (IOManager.tasks_ m'))%nat.
Proof.
  destruct fl as [n hs|[|h hs]]; cbn [fly]; intros [= <- <-]; [done..|].
  split; [by apply trigger_facts|]. rewrite trigger_tasks, my_tasks_app, my_tasks_of. cbn [carried from_option].
  rewrite (live_cons h hs), my_handlers_app. lia.
Qed.

(** [addEvent] by the fiber itself adds its handler, by others none of its. *)
Lemma addEvent_handlers fd' ev callback g stack m r m' :
  addEvent epoll_ctl fd' ev callback (g, stack) m = (r, m') → wf m →
  wf m' ∧ IOManager.tasks_ m' = IOManager.tasks_ m ∧
  (g ≠ f ∨ (∃ e, r = inl e) → my_handlers (waiting m') = my_handlers (waiting m)) ∧
  (callback = None → g = f → r = inr tt → my_handlers (waiting m') = S (my_handlers (waiting m))).
Proof.
  intros Hr Hm. destruct (addEvent_facts epoll_ctl _ _ _ _ _ _ _ Hr Hm) as (Hm'&Ht&H).
  split; [done|]. split; [done|]. destruct r as [e|[]].
  - destruct H as [-> _]. done.
  - destruct H as (h&Hh&Hw&_). rewrite (my_handlers_perm _ _ Hw).
    change (h :: waiting m) with ([h] ++ waiting m). rewrite my_handlers_app.
    unfold make_handler in Hh. split.
    + intros [Hg|[e He]]; [|discriminate He]. assert (my_handlers [h] = 0%nat) as ->; [|done].
      unfold my_handlers. rewrite filter_cons_False; [done|]. unfold is_mine.
      destruct callback; [by injection Hh as <-|]. destruct stack; [|done]. injection Hh as <-. cbn.
      by rewrite bool_decide_eq_false_2.
    + intros -> -> _. destruct stack; [|done]. injection Hh as <-. unfold my_handlers.
      rewrite filter_cons_True; [done|]. unfold is_mine. cbn. by apply bool_decide_eq_true_2.
Qed.

(** ** Interleavings of a call *)

Definition reachable m w : Prop := rtc step (enter connecting m) w.

(** The fiber is registered, on its way or queued exactly while its call waits. *)
Record call_inv w : Prop := {
  call_wf : wf (manager w);
  call_places : places w = match phase w with Waiting => 1%nat | _ => 0%nat end;
}.

(** A step that leaves the manager and the operations alone. *)
Lemma call_inv_same w w' :
  call_inv w → manager w' = manager w → flights w' = flights w →
  my_handlers (timers w' ≫= in_flight) = my_handlers (timers w ≫= in_flight) →
  match phase w with Waiting => phase w' = Waiting | _ => phase w' ≠ Waiting end → call_inv w'.
Proof.
  intros [H1 H2] E1 E2 E3 Hp. split; [by rewrite E1|]. unfold places in *. rewrite E1, E2, E3, H2.
  by destruct (phase w), (phase w').
Qed.

Lemma set_timer_handlers i t t' w :
  timers w !! i = Some t → in_flight t = [] → in_flight t' = [] →
  my_handlers (timers (set_timer i t' w) ≫= in_flight) = my_handlers (timers w ≫= in_flight).
Proof. intros Hi E E'. pose proof (timers_update _ i t t' Hi) as H. rewrite E, E' in H. exact H. Qed.

Lemma cancel_timer_same w :
  manager (cancel_timer w) = manager w ∧ phase (cancel_timer w) = phase w ∧
  cancelled (cancel_timer w) = cancelled w ∧ flights (cancel_timer w) = flights w ∧
  my_handlers (timers (cancel_timer w) ≫= in_flight) = my_handlers (timers w ≫= in_flight).
Proof.
  unfold cancel_timer. destruct (current w) as [i|]; [|done].
  destruct (timers w !! i) as [[]|] eqn:Hi; try done. split_and!; try done.
  by apply (set_timer_handlers i Armed).
Qed.

Lemma call_step_inv w w' :
  call_inv w → call_step epoll_ctl f fd event timeout in_fiber connecting w w' → call_inv w'.
Proof.
  intros Hw Hs. pose proof Hw as [Hwf Hpl]. destruct Hs as
    [Hp Hc|r e Hp Hc Hr|Hp Hc Hco|Hp|m Hp Ha|e m n Hp Ha|t before behind Hp Ht Hmine|Hp].
  - apply (call_inv_same w); try done. by rewrite Hp.
  - apply (call_inv_same w); try done. by rewrite Hp.
  - destruct in_fiber; (apply (call_inv_same w); try done); by rewrite Hp.
  - unfold arm. destruct (timed timeout connecting); (apply (call_inv_same w); try done); rewrite ?Hp; try done.
    cbn [timers go set_current set_timers]. rewrite bind_app, my_handlers_app.
    change (my_handlers ([Armed] ≫= in_flight)) with 0%nat. lia.
  - destruct (addEvent_handlers _ _ _ _ _ _ _ _ Ha Hwf) as (Hm&Ht&_&Hadd). split; [done|].
    unfold places in *. cbn [phase manager flights timers go with_manager].
    rewrite Hadd, Ht by done. rewrite Hp in Hpl. lia.
  - destruct (addEvent_handlers _ _ _ _ _ _ _ _ Ha Hwf) as (Hm&Ht&Hsame&_).
    destruct (cancel_timer_same (with_manager m w)) as (E1&E2&_&E4&E5).
    split; unfold places in *; cbn [phase manager flights timers go]; rewrite ?E1, ?E4, ?E5;
      cbn [manager flights timers with_manager]; [done|].
    rewrite Hsame, Ht by (right; by eexists). by rewrite Hp in Hpl.
  - split; cbn [phase manager go with_manager]; [done|]. rewrite Hp in Hpl.
    unfold places in *. rewrite Ht, my_tasks_app in Hpl.
    cbn [manager flights timers go with_manager IOManager.tasks_ IOManager.set_tasks].
    change (waiting (IOManager.set_tasks _ _)) with (waiting (manager w)).
    rewrite my_tasks_app. unfold my_tasks in Hpl at 2. rewrite filter_cons_True in Hpl by done.
    cbn [length] in Hpl. fold (my_tasks behind) in Hpl. lia.
  - unfold after_wake. destruct (cancel_timer_same w) as (E1&E2&E3&E4&E5). rewrite E3.
    destruct (negb _); (apply (call_inv_same w); try done); by rewrite Hp.
Qed.

Lemma timer_step_inv i w w' :
  call_inv w → timer_step epoll_ctl fd event i w w' → call_inv w'.
Proof.
  intros Hw Hs. pose proof Hw as [Hwf Hpl]. destruct Hs as [Hi|Hi|Hi|fl Hi].
  - apply (call_inv_same w); try done; [by apply (set_timer_handlers i Armed)|]. by destruct (phase w) eqn:E; cbn; rewrite E.
  - unfold timer_swap. destruct (phase w) eqn:E; try destruct (cancelled w =? 0);
      (apply (call_inv_same w); [done|done|done|by apply (set_timer_handlers i Dequeued)|]); cbn; by rewrite E.
  - unfold timer_cancel. destruct (cancelEvent_locked epoll_ctl fd event (manager w)) as [r m] eqn:Er.
    destruct (cancel_takes_handlers _ _ _ _ _ Er Hwf) as (Hm&Ht&Hh).
    split; [done|]. unfold places in *. cbn [phase manager flights timers with_manager set_timer set_timers].
    pose proof (timers_update _ i Cancelling (timer_after (from_locked r)) Hi) as Hu.
    assert (in_flight (timer_after (from_locked r)) = from_option carried [] (from_locked r)) as E
      by (by destruct (from_locked r)).
    rewrite E in Hu. change (my_handlers (in_flight Cancelling)) with 0%nat in Hu. rewrite <- Hpl, Ht. lia.
  - unfold timer_fly. destruct (fly fl (manager w)) as [o m] eqn:Ef.
    destruct (fly_moves _ _ _ _ Ef) as (Hc&Hh). unfold wf in Hwf.
    split; [unfold wf; cbn; by rewrite Hc|].
    unfold places in *. cbn [phase manager flights timers with_manager set_timer set_timers].
    pose proof (timers_update _ i (Flying fl) (timer_after o) Hi) as Hu.
    assert (in_flight (timer_after o) = from_option carried [] o) as E by (by destruct o).
    rewrite E in Hu. cbn [in_flight] in Hu. unfold waiting in *. rewrite Hc, <- Hpl. lia.
Qed.

(** An operation of another thread begins or goes on. *)
Lemma begun_inv k o m w :
  call_inv w → flights w !! k = None → takes o (manager w) m →
  call_inv (with_manager m (set_flight k o w)).
Proof.
  intros [Hwf Hpl] Hk (Hm&Ht&Hh). split; [done|].
  unfold places in *. cbn [phase manager flights timers with_manager set_flight].
  pose proof (flights_update _ k None o Hk) as Hu. change (my_handlers (from_option carried [] None)) with 0%nat in Hu.
  rewrite <- Hpl, Ht. lia.
Qed.

Lemma flight_step_inv w w' : call_inv w → flight_step w w' → call_inv w'.
Proof.
  intros [Hwf Hpl] [k fl Hk]. unfold continue. destruct (fly fl (manager w)) as [o m] eqn:Ef.
  destruct (fly_moves _ _ _ _ Ef) as (Hc&Hh). unfold wf in Hwf. split; [unfold wf; cbn; by rewrite Hc|].
  unfold places in *. cbn [phase manager flights timers with_manager set_flight].
  pose proof (flights_update _ k (Some fl) o Hk) as Hu. cbn [from_option] in Hu.
  unfold waiting in *. rewrite Hc, <- Hpl. lia.
Qed.

Lemma other_step_inv w w' : call_inv w → other_step epoll_ctl f fd w w' → call_inv w'.
Proof.
  intros Hw Hs. pose proof Hw as [Hwf Hpl]. destruct Hs as
    [|k Hc Hk|k fd' ev Hk|k fd' ev Hk|fd' ev callback g stack Hg|l Hl].
  - by split.
  - unfold begin_cancel. destruct (cancelEvent_locked _ _ _ _) as [r m] eqn:Er.
    apply begun_inv; [done|done|]. by eapply cancel_takes_handlers.
  - unfold begin_process. destruct (processEvent_locked _ _ _ _) as [o m] eqn:Er.
    apply begun_inv; [done|done|]. by eapply process_takes_handlers.
  - unfold begin_cancel. destruct (cancelEvent_locked _ _ _ _) as [r m] eqn:Er.
    apply begun_inv; [done|done|]. by eapply cancel_takes_handlers.
  - destruct (addEvent epoll_ctl fd' ev callback (g, stack) (manager w)) as [r m] eqn:Ea.
    destruct (addEvent_handlers _ _ _ _ _ _ _ _ Ea Hwf) as (Hm&Ht&Hsame&_).
    split; [done|]. unfold places in *. cbn [phase manager flights timers with_manager snd].
    by rewrite Hsame, Ht by (by left).
  - split; [done|]. cbn [phase with_manager]. rewrite <- Hpl. unfold places, my_tasks.
    cbn [manager flights timers with_manager IOManager.tasks_ IOManager.set_tasks]. by rewrite Hl.
Qed.

Lemma step_call_inv w w' : call_inv w → step w w' → call_inv w'.
Proof.
  intros Hw [Hs|i Hs|Hs|Hs]; [by eapply call_step_inv|by eapply timer_step_inv|
    by eapply flight_step_inv|by eapply other_step_inv].
Qed.

Lemma reachable_call_inv m w :
  wf m → places (enter connecting m) = 0%nat → reachable m w → call_inv w.
Proof.
  intros Hm Hpl. unfold reachable.
  assert (call_inv (enter connecting m)) as H by (split; [done|rewrite Hpl; by destruct connecting]).
  revert H. generalize (enter connecting m). intros w0 H Hr.
  induction Hr as [|w1 w2 w3 H12 _ IH]; [done|]. by apply IH, (step_call_inv w1).
Qed.

(** C19: the fiber of a call is in exactly one place while it waits - its handler
    in the table, its handler with an operation that has taken it out of the
    table and not yet scheduled it, or its task in the queue - and in none
    otherwise, whatever happens meanwhile, step by step: readiness, the call's own
    timers and those of earlier rounds, cancellation, closing, other fibers.
    So it is woken exactly once for every wait, and never scheduled while it
    runs. *)
Theorem waiting_call_in_one_place m w :
  wf m → places (enter connecting m) = 0%nat → reachable m w →
  places w = match phase w with Waiting => 1%nat | _ => 0%nat end.
Proof. intros Hm Hpl Hr. by apply call_places, (reachable_call_inv m). Qed.

(** ** A wait with a timer *)

(** The timer of the round is alive until it has fired once in this call. *)
Definition timer_alive w : Prop :=
  timed timeout connecting = true → cancelled w = 0 →
  match phase w with
  | Timed | Waiting => ∃ i t, current w = Some i ∧ timers w !! i = Some t ∧ (t = Armed ∨ t = Dequeued)
  | _ => True
  end.

(** A timer that is not about to cancel anything. *)
Definition idle_timer (t : io_timer) : Prop :=
  match t with Cancelling | Flying _ => False | _ => True end.

(** Only a timer that has marked the call cancels. *)
Definition unmarked w : Prop := cancelled w = 0 → Forall idle_timer (timers w).

Lemma timer_alive_same w w' :
  timer_alive w → phase w' = phase w → cancelled w' = cancelled w → timers w' = timers w →
  current w' = current w → timer_alive w'.
Proof. unfold timer_alive. by intros H -> -> -> ->. Qed.

Lemma timer_alive_due w i :
  timer_alive w → timers w !! i = Some Armed → timer_alive (set_timer i Dequeued w).
Proof.
  intros Hw Hi Htm Hc. specialize (Hw Htm Hc). cbn [set_timer set_timers phase current timers].
  destruct (phase w); try done; destruct Hw as (j&u&Hj&Hu&Hd); exists j;
    (destruct (decide (i = j)) as [->|Hne];
     [exists Dequeued; rewrite list_lookup_insert_eq by (by eapply lookup_lt_Some)
     |exists u; rewrite list_lookup_insert_ne by done]); auto.
Qed.

Lemma idle_insert l i t : Forall idle_timer l → idle_timer t → Forall idle_timer (<[i := t]> l).
Proof. apply Forall_insert. Qed.

Lemma cancel_timer_unmarked w : unmarked w → unmarked (cancel_timer w).
Proof.
  intros Hw. unfold cancel_timer. destruct (current w) as [i|]; [|done].
  destruct (timers w !! i) as [[]|]; try done. intros Hc. by apply idle_insert; [apply Hw|].
Qed.

Lemma step_unmarked w w' : unmarked w → step w w' → unmarked w'.
Proof.
  intros Hw [Hs|i Hs|Hs|Hs].
  - destruct Hs as [Hp Hc|r e Hp Hc Hr|Hp Hc Hco|Hp|m Hp Ha|e m n Hp Ha|t b a Hp Ht Hmine|Hp]; try done.
    + by destruct in_fiber.
    + unfold arm. destruct (timed _ _); [|done]. intros Hc. apply Forall_app. split; [by apply Hw|].
      by constructor.
    + by apply (cancel_timer_unmarked (with_manager m w)).
    + unfold after_wake. pose proof (cancel_timer_unmarked w Hw). by destruct (negb _).
  - destruct Hs as [Hi|Hi|Hi|fl Hi].
    + intros Hc. by apply idle_insert; [apply Hw|].
    + unfold timer_swap. destruct (phase w); try (intros Hc; by apply idle_insert; [apply Hw|]);
        (destruct (cancelled w =? 0); [done|]; intros Hc; by apply idle_insert; [apply Hw|]).
    + unfold timer_cancel. destruct (cancelEvent_locked _ _ _ _) as [r m]. intros Hc.
      specialize (Hw Hc). rewrite Forall_lookup in Hw. by specialize (Hw _ _ Hi).
    + unfold timer_fly. destruct (fly _ _) as [o m]. intros Hc.
      specialize (Hw Hc). rewrite Forall_lookup in Hw. by specialize (Hw _ _ Hi).
  - destruct Hs as [k fl Hk]. unfold continue. by destruct (fly _ _).
  - destruct Hs as [|k Hc Hk|k fd' ev Hk|k fd' ev Hk|fd' ev callback g stack Hg|l Hl]; try done;
      unfold begin_cancel, begin_process; (by destruct (cancelEvent_locked _ _ _ _)) || by destruct (processEvent_locked _ _ _ _).
Qed.

Lemma step_timer_alive w w' : timer_alive w → unmarked w → step w w' → timer_alive w'.
Proof.
  intros Hw Hu [Hs|i Hs|Hs|Hs].
  - destruct Hs as [Hp Hc|r e Hp Hc Hr|Hp Hc Hco|Hp|m Hp Ha|e m n Hp Ha|t b a Hp Ht Hmine|Hp]; try done.
    + by destruct in_fiber.
    + intros Htm _. unfold arm. rewrite Htm. cbn. exists (length (timers w)), Armed.
      split_and!; [done| |by left]. by apply list_lookup_middle.
    + intros Htm Hc. specialize (Hw Htm Hc). by rewrite Hp in Hw.
    + intros Htm Hc. unfold after_wake. by destruct (negb _).
  - destruct Hs as [Hi|Hi|Hi|fl Hi].
    + by apply timer_alive_due.
    + unfold timer_swap. destruct (phase w) eqn:E; try (destruct (Z.eqb_spec (cancelled w) 0));
        intros Htm Hc; try done; cbn in *; rewrite ?E; done.
    + unfold timer_cancel. destruct (cancelEvent_locked _ _ _ _) as [r m]. intros Htm Hc.
      specialize (Hu Hc). rewrite Forall_lookup in Hu. by specialize (Hu _ _ Hi).
    + unfold timer_fly. destruct (fly _ _) as [o m]. intros Htm Hc.
      specialize (Hu Hc). rewrite Forall_lookup in Hu. by specialize (Hu _ _ Hi).
  - destruct Hs as [k fl Hk]. unfold continue. destruct (fly _ _). by apply (timer_alive_same w).
  - destruct Hs as [|k Hc Hk|k fd' ev Hk|k fd' ev Hk|fd' ev callback g stack Hg|l Hl]; try done;
      unfold begin_cancel, begin_process; 
      (destruct (cancelEvent_locked _ _ _ _) || destruct (processEvent_locked _ _ _ _)); by apply (timer_alive_same w).
Qed.

Lemma reachable_timer_alive m w : reachable m w → timer_alive w ∧ unmarked w.
Proof.
  unfold reachable. assert (timer_alive (enter connecting m) ∧ unmarked (enter connecting m)) as H
    by (split; [by destruct connecting|constructor]).
  revert H. generalize (enter connecting m). intros w0 H Hr.
  induction Hr as [|w1 w2 w3 H12 _ IH]; [done|]. apply IH. destruct H as [Ha Hu].
  split; [by apply (step_timer_alive w1)|by apply (step_unmarked w1)].
Qed.

(** ** Where the handler is *)

(** Handlers of the fiber stand only at its descriptor and event. *)
Definition placed m : Prop := ∀ n c, fd_contexts_ m !! n = Some (Some c) →
  (is_mine f (read c) = true → n = Z.to_nat fd ∧ event = READ) ∧
  (is_mine f (write c) = true → n = Z.to_nat fd ∧ event = WRITE).

(** Nothing of the fiber is new in the table. *)
Definition no_new (v v' : fd_contexts_t) : Prop := ∀ n c', v' !! n = Some (Some c') →
  (is_mine f (read c') = true → ∃ c, v !! n = Some (Some c) ∧ read c = read c') ∧
  (is_mine f (write c') = true → ∃ c, v !! n = Some (Some c) ∧ write c = write c').

Lemma placed_no_new m m' : placed m → no_new (fd_contexts_ m) (fd_contexts_ m') → placed m'.
Proof.
  intros Hp Hn n c' Hc'. destruct (Hn n c' Hc') as [H1 H2]. split.
  - intros Hm. destruct (H1 Hm) as (c&Hc&E). apply (proj1 (Hp n c Hc)). by rewrite E.
  - intros Hm. destruct (H2 Hm) as (c&Hc&E). apply (proj2 (Hp n c Hc)). by rewrite E.
Qed.

Lemma no_new_refl v : no_new v v.
Proof. intros n c Hc. split; intros _; by exists c. Qed.

Lemma no_new_trans v1 v2 v3 : no_new v1 v2 → no_new v2 v3 → no_new v1 v3.
Proof.
  intros H12 H23 n c Hc. destruct (H23 n c Hc) as [Hr Hw]. split; intros Hm.
  - destruct (Hr Hm) as (c2&Hc2&E). rewrite <- E in Hm. destruct (proj1 (H12 n c2 Hc2) Hm) as (c1&?&?).
    exists c1. split; [done|congruence].
  - destruct (Hw Hm) as (c2&Hc2&E). rewrite <- E in Hm. destruct (proj2 (H12 n c2 Hc2) Hm) as (c1&?&?).
    exists c1. split; [done|congruence].
Qed.

Lemma no_new_insert v n c c' :
  v !! n = Some (Some c) →
  (is_mine f (read c') = true → read c = read c') → (is_mine f (write c') = true → write c = write c') →
  no_new v (<[n := Some c']> v).
Proof.
  intros Hn Hr Hw k d. destruct (decide (k = n)) as [->|Hne].
  - rewrite list_lookup_insert_eq by (by eapply lookup_lt_Some). intros [= <-].
    split; intros Hm; exists c; auto.
  - rewrite list_lookup_insert_ne by done. apply no_new_refl.
Qed.

Lemma no_new_getFdContext fd' auto v v' r : getFdContext fd' auto v = (v', r) → no_new v v'.
Proof.
  unfold getFdContext. destruct (_ || _); [intros [= <- _]; apply no_new_refl|].
  destruct (_ && _); [intros [= <- _]; apply no_new_refl|].
  set (v1 := if Nat.leb _ _ then _ else v).
  assert (no_new v v1) as H1.
  { unfold v1, resize. destruct (Nat.leb _ _); [|apply no_new_refl]. intros n c Hc.
    apply lookup_app_Some in Hc as [Hc|[_ Hc]]; [by split; intros _; exists c|].
    by apply lookup_replicate in Hc as [? _]. }
  destruct (v1 !! Z.to_nat fd') as [[c|]|] eqn:E; [by intros [= <- _]| |by intros [= <- _]].
  destruct auto; intros [= <- _]; [|done]. apply (no_new_trans _ v1); [done|]. intros n d.
  destruct (decide (n = Z.to_nat fd')) as [->|Hne].
  - rewrite list_lookup_insert_eq by (by eapply lookup_lt_Some). by intros [= <-].
  - rewrite list_lookup_insert_ne by done. apply no_new_refl.
Qed.

(** Taking handlers out of a context of the table. *)
Lemma no_new_taken v n c actual new_events c' hs k :
  table_wf v → v !! n = Some (Some c) → take_handlers c actual new_events = (c', hs, k) →
  no_new v (<[Z.to_nat (IOManager.fd c') := Some c']> v).
Proof.
  intros Hv Hn [= <- _ _]. cbn [IOManager.fd]. rewrite (context_fd _ _ (table_contexts v Hv n c Hn)), Nat2Z.id.
  apply (no_new_insert v n c); [done|cbn [read write]..].
  - by destruct (has actual READ).
  - by destruct (has actual WRITE).
Qed.

Lemma no_new_cancel fd' ev m :
  wf m → no_new (fd_contexts_ m) (fd_contexts_ (cancelEvent_locked epoll_ctl fd' ev m).2).
Proof.
  intros Hm. unfold cancelEvent_locked, remove_events.
  destruct (_ || _); [apply no_new_refl|].
  destruct (getFdContext fd' false (fd_contexts_ m)) as [v oc] eqn:Eg.
  destruct (getFdContext_facts _ _ _ _ _ Eg Hm) as (_&_&Hsame&Hc). specialize (Hsame eq_refl). subst v.
  destruct oc as [c|]; [|apply no_new_refl]. destruct (_ =? _); [apply no_new_refl|].
  destruct (updateEpoll _ _ _ _) as [k [e|]]; [apply no_new_refl|].
  destruct (take_handlers _ _ _) as [[c' hs] n] eqn:Et. cbn [snd].
  by apply (no_new_taken _ _ _ _ _ _ _ _ Hm (proj2 Hc) Et).
Qed.

Lemma no_new_process fd' ev m :
  wf m → no_new (fd_contexts_ m) (fd_contexts_ (processEvent_locked epoll_ctl fd' ev m).2).
Proof.
  intros Hm. unfold processEvent_locked.
  destruct (getFdContext fd' false (fd_contexts_ m)) as [v oc] eqn:Eg.
  destruct (getFdContext_facts _ _ _ _ _ Eg Hm) as (_&_&Hsame&Hc). specialize (Hsame eq_refl). subst v.
  destruct oc as [c|]; [|apply no_new_refl]. destruct (_ =? _); [apply no_new_refl|].
  destruct (updateEpoll _ _ _ _) as [k ?].
  destruct (take_handlers _ _ _) as [[c' hs] n] eqn:Et. cbn [snd].
  by apply (no_new_taken _ _ _ _ _ _ _ _ Hm (proj2 Hc) Et).
Qed.

(** A handler is added: its place, when it is the fiber's. *)
Lemma placed_add fd' ev callback g stack m :
  wf m → placed m → (callback = None → g = f → fd' = fd ∧ ev = event) →
  placed (addEvent epoll_ctl fd' ev callback (g, stack) m).2.
Proof.
  intros Hm Hp Hg. unfold addEvent. destruct (validEvent ev) eqn:Ev; cbn [negb]; [|done].
  destruct (make_handler callback (g, stack)) as [h|] eqn:Eh; [|done].
  destruct (getFdContext fd' true (fd_contexts_ m)) as [v oc] eqn:Eg.
  destruct (getFdContext_facts _ _ _ _ _ Eg Hm) as (Hv&_&_&Hc).
  assert (placed (set_contexts v m)) as Hpv.
  { apply (placed_no_new m); [done|]. by apply (no_new_getFdContext fd' true _ _ oc). }
  destruct oc as [c|]; [|done]. destruct Hc as [Hfd Hc]. destruct (has (events c) ev); [done|].
  destruct (updateEpoll _ _ _ _) as [k [e|]]; [done|]. cbn [snd].
  assert (is_mine f h = true → fd' = fd ∧ ev = event) as Hh.
  { unfold make_handler in Eh. destruct callback; [by injection Eh as <-|]. destruct stack; [|done].
    injection Eh as <-. intros E%bool_decide_eq_true. by apply Hg. }
  pose proof (context_fd _ _ (table_contexts v Hv _ c Hc)) as Hcf.
  intros n d. cbn [fd_contexts_ set_pending set_context set_contexts set_epoll].
  assert (Z.to_nat (IOManager.fd (if ev =? READ
    then mkFdContext (IOManager.fd c) (Z.lor (events c) ev) h (write c)
    else mkFdContext (IOManager.fd c) (Z.lor (events c) ev) (read c) h)) = Z.to_nat fd') as ->.
  { destruct (ev =? READ); cbn [IOManager.fd]; by rewrite Hcf, Nat2Z.id. }
  destruct (decide (n = Z.to_nat fd')) as [->|Hne];
    [|rewrite list_lookup_insert_ne by done; apply (Hpv n d)].
  rewrite list_lookup_insert_eq by (by eapply lookup_lt_Some). intros [= <-].
  destruct (Hpv _ c Hc) as [Hr Hw]. unfold validEvent in Ev. apply orb_true_iff in Ev.
  rewrite !Z.eqb_eq in Ev. destruct (Z.eqb_spec ev READ) as [->|Hne']; cbn [read write]; split; try done.
  - intros Hmine. by destruct (Hh Hmine) as [-> <-].
  - intros Hmine. destruct (Hh Hmine) as [-> <-]. split; [done|]. naive_solver.
Qed.

Lemma my_handlers_zero hs : (∀ h, h ∈ hs → is_mine f h = false) → my_handlers hs = 0%nat.
Proof.
  intros H. unfold my_handlers. induction hs as [|h hs IH]; [done|].
  rewrite filter_cons_False by (rewrite H by (by left); done). apply IH. intros g Hg. apply H. by right.
Qed.

(** A table in which the event is not registered at the descriptor. *)
Lemma nothing_registered m :
  wf m → placed m →
  (∀ c, fd_contexts_ m !! Z.to_nat fd = Some (Some c) → has (events c) event = false) →
  my_handlers (waiting m) = 0%nat.
Proof.
  intros Hm Hp Hno. apply my_handlers_zero. intros h Hh. unfold waiting, registered_in in Hh.
  apply list_elem_of_bind in Hh as (o&Hh&Ho). destruct o as [c|]; [|by apply elem_of_nil in Hh].
  cbn [from_option] in Hh. apply list_elem_of_lookup_1 in Ho as [n Hn].
  destruct (Hp n c Hn) as [Hr Hw]. destruct (is_mine f h) eqn:Emine; [|done]. exfalso.
  unfold registered in Hh. apply elem_of_app in Hh as [Hh|Hh].
  - destruct (has (events c) READ) eqn:Eh; [|by apply elem_of_nil in Hh].
    apply list_elem_of_singleton in Hh as ->. destruct (Hr Emine) as [-> ->].
    by rewrite (Hno c Hn) in Eh.
  - destruct (has (events c) WRITE) eqn:Eh; [|by apply elem_of_nil in Hh].
    apply list_elem_of_singleton in Hh as ->. destruct (Hw Emine) as [-> ->].
    by rewrite (Hno c Hn) in Eh.
Qed.

Lemma getFdContext_found v c :
  0 <= fd <= kMaxTrackedFd → v !! Z.to_nat fd = Some (Some c) → getFdContext fd false v = (v, Some c).
Proof.
  intros Hfd Hc. unfold getFdContext. rewrite (proj2 (Z.ltb_ge fd 0)), (proj2 (Z.ltb_ge kMaxTrackedFd fd)) by lia.
  apply lookup_lt_Some in Hc as Hlt. cbn [orb]. destruct (Nat.leb_spec (length v) (Z.to_nat fd)); [lia|].
  cbn [andb]. by rewrite Hc.
Qed.

Lemma event_cleared e : valid_mask e → validEvent event = true →
  has (without e event) event = false ∧ (Z.land e event = NONE → has e event = false).
Proof.
  unfold validEvent. rewrite orb_true_iff, !Z.eqb_eq. by intros [] [-> | ->].
Qed.

(** Cancelling the event takes the handler of the fiber out of the table. *)
Lemma cancel_takes m :
  wf m → placed m → validEvent event = true → 0 <= fd <= kMaxTrackedFd →
  (∀ k op a b, (epoll_ctl k op a b).2 = None) →
  my_handlers (waiting (cancelEvent_locked epoll_ctl fd event m).2) = 0%nat.
Proof.
  intros Hm Hp Hev Hfd Hk.
  destruct (cancel_takes_handlers fd event m _ _ (surjective_pairing _) Hm) as [Hm' _].
  apply nothing_registered; [done|by apply (placed_no_new m), no_new_cancel|].
  intros c' Hc'. revert Hc'. unfold cancelEvent_locked, remove_events.
  assert ((event =? NONE) || negb (without event kAllEvents =? 0) = false) as ->.
  { unfold validEvent in Hev. rewrite orb_true_iff, !Z.eqb_eq in Hev. by destruct Hev as [-> | ->]. }
  destruct (getFdContext fd false (fd_contexts_ m)) as [v oc] eqn:Eg.
  destruct (getFdContext_facts _ _ _ _ _ Eg Hm) as (_&_&Hsame&Hc). specialize (Hsame eq_refl). subst v.
  destruct oc as [c|].
  2: { cbn [snd set_contexts fd_contexts_]. intros Hc'.
       by rewrite (getFdContext_found _ _ Hfd Hc') in Eg. }
  destruct Hc as [_ Hc]. pose proof (table_contexts _ Hm _ c Hc) as Hcw.
  pose proof (event_cleared _ (context_mask _ _ Hcw) Hev) as [Hclear Hnone].
  destruct (Z.eqb_spec (Z.land (events c) event) NONE) as [E|E].
  { cbn [snd set_contexts fd_contexts_]. rewrite Hc. intros [= <-]. by apply Hnone. }
  unfold updateEpoll. cbn [epoll_ set_contexts]. set (op := if without _ _ =? NONE then _ else _).
  destruct (epoll_ctl (epoll_ m) op (IOManager.fd c) (toEpollEvents (without (events c) event)))
    as [k [e|]] eqn:Ek.
  { pose proof (Hk (epoll_ m) op (IOManager.fd c) (toEpollEvents (without (events c) event))) as H.
    by rewrite Ek in H. }
  destruct (take_handlers _ _ _) as [[d hs] n] eqn:Et. cbn [snd].
  destruct (take_handlers_facts _ _ _ _ _ _ Hcw Et) as (_&Hdf&Hde&_).
  cbn [fd_contexts_ set_context set_contexts set_epoll]. rewrite Hdf, (context_fd _ _ Hcw), Nat2Z.id.
  rewrite list_lookup_insert_eq by (by eapply lookup_lt_Some). intros [= <-]. by rewrite Hde.
Qed.

Lemma placed_fly fl m : placed m → placed (fly fl m).2.
Proof.
  intros Hp. destruct (fly fl m) as [o m'] eqn:Ef. destruct (fly_moves _ _ _ _ Ef) as [E _].
  apply (placed_no_new m); [done|]. cbn. rewrite E. apply no_new_refl.
Qed.

Lemma call_step_placed w w' :
  wf (manager w) → placed (manager w) →
  call_step epoll_ctl f fd event timeout in_fiber connecting w w' → placed (manager w').
Proof.
  intros Hwf Hp Hs. destruct Hs as
    [Hph Hc|r e Hph Hc Hr|Hph Hc|Hph|m Hph Ha|e m n Hph Ha|t b a Hph Ht Hmine|Hph]; try done.
  - by destruct in_fiber.
  - unfold arm. by destruct (timed timeout connecting).
  - pose proof (placed_add fd event None f true (manager w) Hwf Hp) as H. unfold add_self in Ha.
    rewrite Ha in H. by apply H.
  - pose proof (placed_add fd event None f true (manager w) Hwf Hp) as H. unfold add_self in Ha.
    rewrite Ha in H. cbn [manager go]. destruct (cancel_timer_same (with_manager m w)) as (->&_).
    by apply H.
  - unfold after_wake. destruct (cancel_timer_same w) as (E&_). destruct (negb _); cbn; by rewrite E.
Qed.

Lemma begin_cancel_placed k fd' ev w :
  wf (manager w) → placed (manager w) → placed (manager (begin_cancel epoll_ctl k fd' ev w)).
Proof.
  intros Hwf Hp. unfold begin_cancel. pose proof (no_new_cancel fd' ev (manager w) Hwf) as H.
  destruct (cancelEvent_locked _ _ _ _). by apply (placed_no_new (manager w)).
Qed.

Lemma step_placed w w' : call_inv w → placed (manager w) → step w w' → placed (manager w').
Proof.
  intros [Hwf _] Hp [Hs|i Hs|Hs|Hs].
  - by eapply call_step_placed.
  - destruct Hs as [Hi|Hi|Hi|fl Hi].
    + done.
    + unfold timer_swap. destruct (phase w); by try destruct (cancelled w =? 0).
    + unfold timer_cancel. pose proof (no_new_cancel fd event (manager w) Hwf) as H.
      destruct (cancelEvent_locked _ _ _ _). by apply (placed_no_new (manager w)).
    + unfold timer_fly. pose proof (placed_fly fl (manager w) Hp). by destruct (fly _ _).
  - destruct Hs as [k fl Hk]. unfold continue. pose proof (placed_fly fl (manager w) Hp). by destruct (fly _ _).
  - destruct Hs as [|k Hc Hk|k fd' ev Hk|k fd' ev Hk|fd' ev callback g stack Hg|l Hl].
    + done.
    + by apply begin_cancel_placed.
    + unfold begin_process. pose proof (no_new_process fd' ev (manager w) Hwf) as H.
      destruct (processEvent_locked _ _ _ _). by apply (placed_no_new (manager w)).
    + by apply begin_cancel_placed.
    + cbn. apply placed_add; [done|done|]. by intros _ ->.
    + done.
Qed.

Lemma placed_start m : wf m → places (enter connecting m) = 0%nat → placed m.
Proof.
  intros Hm Hpl n c Hc. pose proof (table_contexts _ Hm n c Hc) as Hcw.
  assert (∀ h, h ∈ registered c → is_mine f h = false) as Hno.
  { intros h Hh. destruct (is_mine f h) eqn:E; [|done]. exfalso.
    assert (h ∈ waiting m) as Hw.
    { unfold waiting, registered_in. apply list_elem_of_bind. exists (Some c). split; [done|].
      by apply list_elem_of_lookup_2 in Hc. }
    unfold places in Hpl. cbn [manager enter] in Hpl. assert (my_handlers (waiting m) = 0%nat) as Hz by lia.
    unfold my_handlers in Hz. apply nil_length_inv in Hz.
    assert (h ∈ filter (λ h, is_mine f h = true) (waiting m)) as Hin by (by apply list_elem_of_filter).
    rewrite Hz in Hin. by apply elem_of_nil in Hin. }
  assert (∀ h, is_mine f h = true → empty_context h = false) as Hlive.
  { intros h. unfold is_mine, empty_context. by destruct (IOManager.cb h), (IOManager.fiber h). }
  unfold registered in Hno. split; intros E; exfalso.
  - pose proof (context_read n c Hcw) as Hr. rewrite (Hlive _ E) in Hr.
    destruct (has (events c) READ); [|done]. by rewrite Hno in E by (by left).
  - pose proof (context_write n c Hcw) as Hr. rewrite (Hlive _ E) in Hr.
    destruct (has (events c) WRITE); [|done].
    rewrite Hno in E; [done|]. apply elem_of_app. right. by left.
Qed.

Lemma reachable_placed m w :
  wf m → places (enter connecting m) = 0%nat → reachable m w → placed (manager w).
Proof.
  intros Hm Hpl. unfold reachable.
  assert (call_inv (enter connecting m) ∧ placed (manager (enter connecting m))) as H
    by (split; [split; [done|rewrite Hpl; by destruct connecting]|by apply placed_start]).
  revert H. generalize (enter connecting m). intros w0 H Hr.
  induction Hr as [|w1 w2 w3 H12 _ IH]; [apply H|]. apply IH. destruct H as [H1 H2].
  split; [by apply (step_call_inv w1)|by apply (step_placed w1)].
Qed.

(** ** The end of a wait *)

(** A task of the fiber in the queue. *)
Lemma my_task_found l : (0 < my_tasks l)%nat → ∃ before t behind, l = before ++ t :: behind ∧ is_my_task f t = true.
Proof.
  induction l as [|t l IH]; unfold my_tasks; [cbn; lia|]. rewrite filter_cons.
  destruct (decide (is_my_task f t = true)) as [E|E]; intros Hl.
  - by exists [], t, l.
  - destruct (IH Hl) as (b&u&a&->&Hu). by exists (t :: b), u, a.
Qed.

Lemma my_handler_found hs : (0 < my_handlers hs)%nat → ∃ h, h ∈ hs ∧ is_mine f h = true.
Proof.
  unfold my_handlers. destruct (filter _ hs) as [|h l] eqn:E; [cbn; lia|]. intros _. exists h.
  assert (h ∈ filter (λ h, is_mine f h = true) hs) as [? ?]%list_elem_of_filter; [|done].
  rewrite E. by left.
Qed.

(** Two states between which only timer [i], or an operation of another thread,
    has moved. *)
Record timer_done (i : nat) w w' : Prop := {
  done_timers : timers w' = <[i := Over]> (timers w);
  done_flights : flights w' = flights w;
  done_phase : phase w' = phase w;
  done_cancelled : cancelled w' = cancelled w;
  done_contexts : fd_contexts_ (manager w') = fd_contexts_ (manager w);
}.

(** The steps of a timer behind its critical section lead to its end. *)
Lemma timer_lands i fl : ∀ w, timers w !! i = Some (Flying fl) →
  ∃ w', rtc (timer_step epoll_ctl fd event i) w w' ∧ timer_done i w w'.
Proof.
  assert (∀ hs w, timers w !! i = Some (Flying (Trigger hs)) →
    ∃ w', rtc (timer_step epoll_ctl fd event i) w w' ∧ timer_done i w w') as Htrig.
  { induction hs as [|h hs IH]; intros w Hi; pose proof (timer_flies epoll_ctl fd event i w _ Hi) as Hs.
    - eexists. split; [by apply rtc_once|done].
    - destruct (IH (timer_fly i (Trigger (h :: hs)) w)) as (w'&Hr&[E1 E2 E3 E4 E5]).
      { cbn. apply list_lookup_insert_eq. by eapply lookup_lt_Some. }
      exists w'. split; [by eapply rtc_l|]. split; try done.
      + rewrite E1. cbn. apply list_insert_insert_eq.
      + rewrite E5. apply (trigger_facts h (manager w)). }
  intros w Hi. destruct fl as [n hs|hs]; [|by apply (Htrig hs)].
  destruct (Htrig hs (timer_fly i (Subtract n hs) w)) as (w'&Hr&[E1 E2 E3 E4 E5]).
  { cbn. apply list_lookup_insert_eq. by eapply lookup_lt_Some. }
  exists w'. split; [eapply rtc_l; [by apply timer_flies|done]|]. split; try done.
  rewrite E1. cbn. apply list_insert_insert_eq.
Qed.

(** The same for an operation of another thread. *)
Record flight_done (k : positive) w w' : Prop := {
  landed_timers : timers w' = timers w;
  landed_flights : flights w' = delete k (flights w);
  landed_phase : phase w' = phase w;
  landed_cancelled : cancelled w' = cancelled w;
  landed_contexts : fd_contexts_ (manager w') = fd_contexts_ (manager w);
}.

Lemma flight_lands k fl : ∀ w, flights w !! k = Some fl →
  ∃ w', rtc (flight_step (kernel := kernel)) w w' ∧ flight_done k w w'.
Proof.
  assert (∀ hs w, flights w !! k = Some (Trigger hs) →
    ∃ w', rtc (flight_step (kernel := kernel)) w w' ∧ flight_done k w w') as Htrig.
  { induction hs as [|h hs IH]; intros w Hi; pose proof (io_continue w k _ Hi) as Hs.
    - eexists. split; [by apply rtc_once|done].
    - destruct (IH (continue k (Trigger (h :: hs)) w)) as (w'&Hr&[E1 E2 E3 E4 E5]).
      { cbn. apply lookup_insert_eq. }
      exists w'. split; [by eapply rtc_l|]. split; try done.
      + rewrite E2. cbn. apply delete_insert_eq.
      + rewrite E5. apply (trigger_facts h (manager w)). }
  intros w Hi. destruct fl as [n hs|hs]; [|by apply (Htrig hs)].
  destruct (Htrig hs (continue k (Subtract n hs) w)) as (w'&Hr&[E1 E2 E3 E4 E5]).
  { cbn. apply lookup_insert_eq. }
  exists w'. split; [eapply rtc_l; [by apply io_continue|done]|]. split; try done.
  rewrite E2. cbn. apply delete_insert_eq.
Qed.

(** With its task in the queue, a marked call ends. *)
Lemma queued_ends w :
  phase w = Waiting → cancelled w = ETIMEDOUT → (0 < my_tasks (IOManager.tasks_ (manager w)))%nat →
  ∃ w', rtc (call_step epoll_ctl f fd event timeout in_fiber connecting) w w' ∧ phase w' = Done (-1) ETIMEDOUT.
Proof.
  intros Hp Hc Hq. destruct (my_task_found _ Hq) as (b&t&a&Et&Ht).
  set (w2 := go Woken (with_manager (IOManager.set_tasks (b ++ a) (manager w)) w)).
  exists (after_wake w2). split.
  - apply (rtc_l _ _ w2); [by eapply io_resume|]. apply rtc_once. by apply io_woken.
  - unfold after_wake. destruct (cancel_timer_same w2) as (_&_&->&_).
    change (cancelled w2) with (cancelled w). by rewrite Hc.
Qed.

Lemma idle_in_flight l : Forall idle_timer l → my_handlers (l ≫= in_flight) = 0%nat.
Proof.
  intros H. assert (l ≫= in_flight = []) as ->; [|done].
  induction H as [|t l Ht _ IH]; [done|]. rewrite bind_cons, IH. by destruct t.
Qed.

(** The timer cancels the event: nothing of the call is left in the table. *)
Lemma cancelling_lands w i :
  wf (manager w) → placed (manager w) → validEvent event = true → 0 <= fd <= kMaxTrackedFd →
  (∀ k op a b, (epoll_ctl k op a b).2 = None) → timers w !! i = Some Cancelling →
  ∃ w', rtc (timer_step epoll_ctl fd event i) w w' ∧ phase w' = phase w ∧ cancelled w' = cancelled w ∧
    timers w' = <[i := Over]> (timers w) ∧ flights w' = flights w ∧
    my_handlers (waiting (manager w')) = 0%nat.
Proof.
  intros Hwf Hp Hev Hfd Hk Hi. pose proof (cancel_takes (manager w) Hwf Hp Hev Hfd Hk) as Hz.
  pose proof (timer_cancels epoll_ctl fd event i w Hi) as Hs. unfold timer_cancel in Hs.
  destruct (cancelEvent_locked epoll_ctl fd event (manager w)) as [r m]. cbn [snd] in Hz.
  destruct (from_locked r) as [fl|]; cbn [timer_after] in Hs.
  - destruct (timer_lands i fl (with_manager m (set_timer i (Flying fl) w))) as (w'&Hr&[E1 E2 E3 E4 E5]).
    { cbn. apply list_lookup_insert_eq. by eapply lookup_lt_Some. }
    exists w'. split; [by eapply rtc_l|]. split_and!; try done.
    + rewrite E1. cbn. apply list_insert_insert_eq.
    + unfold waiting in *. by rewrite E5.
  - eexists. split; [by apply rtc_once|done].
Qed.

(** From a timer of the round to its end. *)
Lemma timer_fires w i :
  wf (manager w) → placed (manager w) → validEvent event = true → 0 <= fd <= kMaxTrackedFd →
  (∀ k op a b, (epoll_ctl k op a b).2 = None) →
  phase w = Waiting → cancelled w = 0 → timers w !! i = Some Armed ∨ timers w !! i = Some Dequeued →
  ∃ w', rtc (timer_step epoll_ctl fd event i) w w' ∧ phase w' = Waiting ∧ cancelled w' = ETIMEDOUT ∧
    timers w' = <[i := Over]> (timers w) ∧ flights w' = flights w ∧
    my_handlers (waiting (manager w')) = 0%nat.
Proof.
  intros Hwf Hp Hev Hfd Hk Hph Hc Hi.
  assert (∀ v, manager v = manager w → phase v = Waiting → cancelled v = 0 → flights v = flights w →
    timers v !! i = Some Dequeued → <[i := Over]> (timers v) = <[i := Over]> (timers w) →
    ∃ w', rtc (timer_step epoll_ctl fd event i) v w' ∧ phase w' = Waiting ∧ cancelled w' = ETIMEDOUT ∧
      timers w' = <[i := Over]> (timers w) ∧ flights w' = flights w ∧
      my_handlers (waiting (manager w')) = 0%nat) as Hend.
  { intros v Em Hpv Hcv Efv Hiv Etv. pose proof (lookup_lt_Some _ _ _ Hiv) as Hlt.
    assert (timer_swap i v = set_cancelled ETIMEDOUT (set_timer i Cancelling v)) as Esw
      by (unfold timer_swap; by rewrite Hpv, Hcv).
    pose proof (timer_runs epoll_ctl fd event i v Hiv) as Hs. rewrite Esw in Hs.
    destruct (cancelling_lands (set_cancelled ETIMEDOUT (set_timer i Cancelling v)) i)
      as (w'&Hr&E1&E2&E3&E4&Hz); cbn; rewrite ?Em; try done; [by apply list_lookup_insert_eq|].
    exists w'. split; [by eapply rtc_l|]. rewrite E1, E2, E3, E4. cbn. split_and!; try done.
    by rewrite list_insert_insert_eq. }
  destruct Hi as [Hi|Hi]; [|by apply Hend].
  destruct (Hend (set_timer i Dequeued w)) as (w'&Hr&H); try done.
  - cbn. apply list_lookup_insert_eq. by eapply lookup_lt_Some.
  - cbn. apply list_insert_insert_eq.
  - exists w'. split; [|done]. eapply rtc_l; [by apply timer_due|done].
Qed.

(** The handler of the call is with an operation of another thread, which has
    taken it out of the table and not yet scheduled it. *)
Definition taken_by_another w : Prop := my_handlers (collect carried (flights w)) ≠ 0%nat.

(** The steps that end a wait: of the call, of its timer, and of operations that
    were under way, when one of them has the handler. *)
Definition ending_step (i : nat) (taken : Prop) w w' : Prop :=
  call_step epoll_ctl f fd event timeout in_fiber connecting w w' ∨
  timer_step epoll_ctl fd event i w w' ∨ (taken ∧ flight_step w w').

Lemma ending_is_step i taken w w' : ending_step i taken w w' → step w w'.
Proof. intros [H|[H|[_ H]]]; [by apply by_call|by eapply by_timer|by apply by_flight]. Qed.

(** The operation that has the handler puts the task into the queue. *)
Lemma taken_lands w :
  call_inv w → phase w = Waiting → my_handlers (waiting (manager w)) = 0%nat →
  Forall idle_timer (timers w) → taken_by_another w →
  ∃ w', rtc (flight_step (kernel := kernel)) w w' ∧ phase w' = Waiting ∧ cancelled w' = cancelled w ∧
    (0 < my_tasks (IOManager.tasks_ (manager w')))%nat.
Proof.
  intros Hinv Hph Hz Hidle Htaken.
  destruct (my_handler_found (collect carried (flights w))) as (h&Hh&Hmine).
  { unfold taken_by_another in Htaken. lia. }
  apply collect_elem in Hh as (k&fl&Hk&Hin).
  destruct (flight_lands k fl w Hk) as (w'&Hr&[E1 E2 E3 E4 E5]).
  exists w'. split; [done|]. split; [by rewrite E3|]. split; [done|].
  assert (call_inv w') as [_ Hpl'].
  { clear - Hinv Hr. induction Hr as [|w1 w2 w3 H _ IH]; [done|]. by apply IH, (flight_step_inv w1). }
  pose proof (call_places _ Hinv) as Hpl. rewrite E3, Hph in Hpl'. rewrite Hph in Hpl.
  unfold places in *. unfold waiting in *. rewrite E1, E2, E5, Hz, (idle_in_flight _ Hidle) in Hpl'.
  rewrite Hz, (idle_in_flight _ Hidle), (my_handlers_perm _ _ (collect_lookup carried _ k fl Hk)),
    my_handlers_app in Hpl.
  assert (0 < my_handlers (carried fl))%nat; [|lia].
  unfold my_handlers. assert (h ∈ filter (λ h, is_mine f h = true) (carried fl)) as Hf
    by (by apply list_elem_of_filter).
  destruct (filter _ (carried fl)); [by apply elem_of_nil in Hf|cbn; lia].
Qed.

(** C12: a timeout ends the wait.  Provided that [epoll_ctl] does not fail - then
    [cancelEvent] would leave the event registered - from every reachable state
    in which a call with a timeout waits and none of its timers has marked it
    yet, the timer of the round is still there, in the manager or just taken out
    of it, and its expiry leads to the return of the call with ETIMEDOUT: through
    the steps of that timer and of the call alone or, when another thread has
    just taken the handler of the call, with the remaining steps of the
    operations that were under way. *)
Theorem timeout_ends_wait m w :
  wf m → places (enter connecting m) = 0%nat → validEvent event = true → 0 <= fd <= kMaxTrackedFd →
  (∀ k op a b, (epoll_ctl k op a b).2 = None) →
  timed timeout connecting = true → reachable m w → phase w = Waiting → cancelled w = 0 →
  ∃ i, current w = Some i ∧ (timers w !! i = Some Armed ∨ timers w !! i = Some Dequeued) ∧
    ∃ w', rtc (ending_step i (taken_by_another w)) w w' ∧ phase w' = Done (-1) ETIMEDOUT.
Proof.
  intros Hm Hpl Hev Hfd Hk Htm Hr Hph Hc.
  pose proof (reachable_call_inv m w Hm Hpl Hr) as Hinv.
  destruct (reachable_timer_alive m w Hr) as [Hal Hun].
  specialize (Hal Htm Hc). rewrite Hph in Hal. destruct Hal as (i&t&Hcur&Hi&Ht).
  assert (timers w !! i = Some Armed ∨ timers w !! i = Some Dequeued) as Hi'
    by (destruct Ht as [-> | ->]; auto).
  exists i. split; [done|]. split; [done|].
  destruct (timer_fires w i (call_wf _ Hinv) (reachable_placed m w Hm Hpl Hr) Hev Hfd Hk Hph Hc Hi')
    as (w1&Hr1&Hph1&Hc1&Et1&Ef1&Hz1).
  set (R := ending_step i (taken_by_another w)).
  assert (rtc R w w1) as HR1 by (eapply rtc_subrel; [|exact Hr1]; intros; right; by left).
  assert (call_inv w1) as Hinv1.
  { clear - Hinv Hr1. induction Hr1 as [|a b c H _ IH]; [done|]. by apply IH, (timer_step_inv i a). }
  assert (Forall idle_timer (timers w1)) as Hidle by (rewrite Et1; by apply idle_insert; [apply Hun|]).
  assert (∀ v, rtc R w v → phase v = Waiting → cancelled v = ETIMEDOUT →
    (0 < my_tasks (IOManager.tasks_ (manager v)))%nat →
    ∃ w', rtc R w w' ∧ phase w' = Done (-1) ETIMEDOUT) as Hend.
  { intros v Hv Hpv Hcv Hq. destruct (queued_ends v Hpv Hcv Hq) as (w'&Hr'&Hd).
    exists w'. split; [|done]. etrans; [exact Hv|]. eapply rtc_subrel; [|exact Hr']. intros. by left. }
  pose proof (call_places _ Hinv1) as Hpl1. rewrite Hph1 in Hpl1. unfold places in Hpl1.
  rewrite Hz1, (idle_in_flight _ Hidle), Ef1 in Hpl1.
  destruct (decide (0 < my_tasks (IOManager.tasks_ (manager w1)))%nat) as [Hq|Hq]; [by apply (Hend w1)|].
  assert (taken_by_another w) as Htaken by (unfold taken_by_another; lia).
  destruct (taken_lands w1) as (w2&Hr2&Hph2&Hc2&Hq2); try done.
  { unfold taken_by_another. by rewrite Ef1. }
  apply (Hend w2); [|done|by rewrite Hc2|done]. etrans; [exact HR1|].
  eapply rtc_subrel; [|exact Hr2]. intros. right; by right.
Qed.
End call.

(** ** Waits without an end *)

(** No task of the call is queued, no operation is under way and none of its
    timers will act again. *)
Definition left_alone (w : @io_world unit) : Prop :=
  phase w = Waiting ∧ Forall (eq Over) (timers w) ∧ IOManager.tasks_ (manager w) = [] ∧ flights w = ∅.

(** A timeout can be lost.  The callback of the timer of an earlier round,
    taken out of the manager before the wake-up could cancel it, may run after
    the next attempt has again found nothing and before the event is registered:
    it marks the call as timed out and finds no event to cancel, and the timer
    of the new round then sees the mark and does nothing.  The call waits with a
    timeout that has passed and no timer left. *)
Theorem stale_timer_loses_timeout :
  ∃ w, reachable accepting 1%positive 5 READ 100 true false (fresh_state tt) w ∧
    left_alone w ∧ timed 100 false = true ∧ cancelled w = ETIMEDOUT.
Proof.
  eexists. split.
  - eapply rtc_l; [apply by_call, io_block; reflexivity|]. eapply rtc_l; [apply by_call, io_arm; reflexivity|].
    eapply rtc_l; [eapply by_call, io_add; reflexivity|].
    eapply rtc_l; [apply (by_timer _ _ _ _ _ _ _ _ _ 0), timer_due; reflexivity|].
    eapply rtc_l; [apply by_other, (io_ready _ _ _ _ 1 5 EPOLLIN); reflexivity|].
    do 4 (eapply rtc_l; [eapply by_flight, (io_continue _ 1); reflexivity|]).
    eapply rtc_l; [apply by_call, (io_resume _ _ _ _ _ _ _ _ (mkTask (Some 1%positive) None (-1)) [] []); reflexivity|].
    eapply rtc_l; [apply by_call, io_woken; reflexivity|].
    eapply rtc_l; [apply by_call, io_block; reflexivity|].
    eapply rtc_l; [apply (by_timer _ _ _ _ _ _ _ _ _ 0), timer_runs; reflexivity|].
    eapply rtc_l; [apply (by_timer _ _ _ _ _ _ _ _ _ 0), timer_cancels; reflexivity|].
    eapply rtc_l; [apply by_call, io_arm; reflexivity|]. eapply rtc_l; [eapply by_call, io_add; reflexivity|].
    eapply rtc_l; [apply (by_timer _ _ _ _ _ _ _ _ _ 1), timer_due; reflexivity|].
    apply rtc_once. apply (by_timer _ _ _ _ _ _ _ _ _ 1), timer_runs; reflexivity.
  - vm_compute. split; [|done]. split; [done|]. split; [by repeat constructor|done].
Qed.

(** The same happens in the first round, to a connect as well: a timer that fires
    before the event is registered has nothing to cancel. *)
Theorem early_timer_loses_timeout connecting :
  ∃ w, reachable accepting 1%positive 5 WRITE 100 true connecting (fresh_state tt) w ∧
    left_alone w ∧ cancelled w = ETIMEDOUT.
Proof.
  assert (reachable accepting 1%positive 5 WRITE 100 true connecting (fresh_state tt)
    (go Blocked (enter false (fresh_state tt)))) as Hb.
  { destruct connecting; [apply rtc_refl|]. apply rtc_once.
    by apply by_call, (io_block accepting 1%positive 5 WRITE 100 true false (enter false (fresh_state tt))). }
  eexists. split.
  - eapply rtc_trans; [exact Hb|]. eapply rtc_l; [apply by_call, io_arm; reflexivity|].
    eapply rtc_l; [apply (by_timer _ _ _ _ _ _ _ _ _ 0), timer_due; by destruct connecting|].
    eapply rtc_l; [apply (by_timer _ _ _ _ _ _ _ _ _ 0), timer_runs; by destruct connecting|].
    eapply rtc_l; [apply (by_timer _ _ _ _ _ _ _ _ _ 0), timer_cancels; by destruct connecting|].
    apply rtc_once. eapply by_call, io_add; by destruct connecting.
  - destruct connecting; vm_compute; (split; [split; [done|]|done]); split; by repeat constructor.
Qed.

(** A descriptor that is closed between the failed attempt and the registration
    of the event leaves its reader behind: [close] finds no event to cancel, and
    the call waits on a descriptor that nobody will report. *)
Theorem close_misses_waiter :
  ∃ w, reachable accepting 1%positive 5 READ u64_max true false (fresh_state tt) w ∧
    left_alone w ∧ context_closed w = true.
Proof.
  eexists. split.
  - eapply rtc_l; [apply by_call, io_block; reflexivity|]. eapply rtc_l; [apply by_call, io_arm; reflexivity|].
    eapply rtc_l; [apply by_other, io_close|].
    eapply rtc_l; [apply by_other, (io_close_cancels _ _ _ _ 1); reflexivity|].
    apply rtc_once. eapply by_call, io_add; reflexivity.
  - vm_compute. split; [|done]. split; [done|]. split; [constructor|done].
Qed.

(** ** Witnesses *)

Lemma waits_are_long_enough_witness :
  usleep_ms 1 = 1 ∧ timeval_ms 1 500 = 1001 ∧
  1 * 10 ^ 6 + 500 <= timeval_ms 1 500 * 1000 < 1 * 10 ^ 6 + 500 + 1000.
Proof.
  split; [reflexivity|]. split; [reflexivity|].
  destruct (waits_are_long_enough 1 500 0) as (_&_&_&_&H); [lia|lia|lia|]. apply H. discriminate.
Defined.

(** A socket of the kernel's making, set by the program to block. *)
Definition hooked_socket : FdCtx := mkFdCtx 5 true true true false false u64_max u64_max.

Lemma nonblock_flag_transparent_witness :
  fcntl_getfl (fcntl_setfl 2 (Some hooked_socket)).2 (fcntl_setfl 2 (Some hooked_socket)).1 = 2.
Proof.
  pose proof (nonblock_flag_transparent 2 hooked_socket ltac:(lia)) as H.
  destruct (fcntl_setfl 2 (Some hooked_socket)) as [c' k]. destruct H as (H&_&_). apply H. reflexivity.
Defined.

(** A call that has just gone to sleep, with a timeout. *)
Definition asleep : @io_world unit :=
  let w := arm 100 false (go Blocked (enter false (fresh_state tt))) in
  go Waiting (with_manager (add_self accepting 1%positive 5 READ w).2 w).

Lemma asleep_reachable : reachable accepting 1%positive 5 READ 100 true false (fresh_state tt) asleep.
Proof.
  eapply rtc_l; [apply by_call, io_block; reflexivity|]. eapply rtc_l; [apply by_call, io_arm; reflexivity|].
  apply rtc_once. apply by_call, io_add; reflexivity.
Defined.

Lemma waiting_call_in_one_place_witness :
  reachable accepting 1%positive 5 READ 100 true false (fresh_state tt) asleep ∧
  phase asleep = Waiting ∧ places 1%positive asleep = 1%nat.
Proof.
  split; [exact asleep_reachable|]. split; [reflexivity|].
  exact (waiting_call_in_one_place accepting 1%positive 5 READ 100 true false (fresh_state tt) asleep
    fresh_wf eq_refl asleep_reachable).
Defined.

Lemma timeout_ends_wait_witness :
  phase asleep = Waiting ∧
  ∃ i, current asleep = Some i ∧
    (timers asleep !! i = Some Armed ∨ timers asleep !! i = Some Dequeued) ∧
    ∃ w', rtc (ending_step accepting 1%positive 5 READ 100 true false i (taken_by_another 1%positive asleep))
        asleep w' ∧ phase w' = Done (-1) ETIMEDOUT.
Proof.
  split; [reflexivity|].
  apply (timeout_ends_wait accepting 1%positive 5 READ 100 true false (fresh_state tt) asleep);
    try reflexivity; [exact fresh_wf|vm_compute; split; discriminate|exact asleep_reachable].
Defined.
End HookProofs.
