(* ===== verification/HookFlags.v ===== *)
(** The non-blocking flag the program sees: over any sequence of [F_SETFL],
    [F_GETFL] and [FIONBIO] calls that the kernel does not refuse, a socket the
    hooks have switched answers as one they never touched. *)

From S2P Require Import Prelude Hook.
Import Hook.

Module HookFlags.

(** ** The calls of a program *)

Inductive flag_call := SetFl (argument : Z) | GetFl | SetFionbio (v : Z).

Definition nonblocking (flags : Z) : bool := Z.testbit flags 11.
Definition strip (flags : Z) : Z := Z.land flags (Z.lnot O_NONBLOCK).

(** What is used of the original calls on an open socket, as fcntl(2) and ioctl(2)
    describe them.  The kernel has file status flags, of which [F_SETFL] can
    change some, O_NONBLOCK among them; it may refuse a change, but not because of
    O_NONBLOCK and not when nothing changes, and then leaves the flags;
    [F_GETFL] returns them and [FIONBIO] sets or clears O_NONBLOCK. *)
Record FlagLaws {K : Type} (fcntl_f ioctl_f : Z → option Z → K → Z * K)
    (status : K → Z) (settable : Z) (refuses : Z → Z → bool) : Prop := {
  law_status k : 0 <= status k;
  law_settable : 0 <= settable;
  law_nonblock : nonblocking settable = true;
  law_same flags : refuses flags flags = false;
  law_getfl k : fcntl_f F_GETFL None k = (status k, k);
  law_setfl k v : let '(r, k') := fcntl_f F_SETFL (Some v) k in
    if refuses (strip (status k)) (strip v) then r = -1 ∧ status k' = status k
    else r = 0 ∧ status k' = Z.lor (Z.land (status k) (Z.lnot settable)) (Z.land v settable);
  law_fionbio k v : let '(r, k') := ioctl_f FIONBIO (Some v) k in
    r = 0 ∧ status k' = if v =? 0 then strip (status k) else Z.lor (status k) O_NONBLOCK;
}.

Section kernel.
Context {K : Type} (fcntl_f ioctl_f : Z → option Z → K → Z * K).
Context (status : K → Z) (settable : Z) (refuses : Z → Z → bool).

(** One call through the hooks, and one without them. *)
Definition hooked (a : flag_call) (s : option FdCtx * K) : Z * (option FdCtx * K) :=
  let '(r, c, k) :=
    match a with
    | SetFl v => fcntl fcntl_f F_SETFL v s.1 s.2
    | GetFl => fcntl fcntl_f F_GETFL 0 s.1 s.2
    | SetFionbio v => ioctl fcntl_f ioctl_f FIONBIO (Some v) s.1 s.2
    end in (r, (c, k)).
Definition to_int (v : Z) : Z := to_signed 32 (wrap 32 v).
Definition untouched (a : flag_call) (k : K) : Z * K :=
  match a with
  | SetFl v => fcntl_f F_SETFL (Some (to_int v)) k
  | GetFl => fcntl_f F_GETFL None k
  | SetFionbio v => ioctl_f FIONBIO (Some v) k
  end.

Fixpoint answers {S} (f : flag_call → S → Z * S) (l : list flag_call) (s : S) : list Z :=
  match l with
  | [] => []
  | a :: l => let '(r, s) := f a s in r :: answers f l s
  end.

(** No call that would switch O_NONBLOCK is refused, on the descriptor the hooks
    never touched. *)
Fixpoint switches_granted (l : list flag_call) (k : K) : Prop :=
  match l with
  | [] => True
  | a :: l =>
      match a with
      | SetFl v => refuses (strip (status k)) (strip (to_int v)) = false ∨
                   nonblocking (to_int v) = nonblocking (status k)
      | _ => True
      end ∧ switches_granted l (untouched a k).2
  end.

(** The flags of the two descriptors: equal but for the bit the hooks keep set, which
    the context remembers. *)
Definition same_flags (c : FdCtx) (k plain : K) : Prop :=
  socket_ c = true ∧ closed_ c = false ∧ sys_nonblock_ c = true ∧
  status k = Z.lor (status plain) O_NONBLOCK ∧ user_nonblock_ c = nonblocking (status plain).

Context (Hlaws : FlagLaws fcntl_f ioctl_f status settable refuses).

Lemma settable_nonblock : Z.testbit settable 11 = true.
Proof. apply Hlaws. Qed.

Lemma nonblock_bit n : 0 <= n → Z.testbit O_NONBLOCK n = (n =? 11).
Proof. intros Hn. change O_NONBLOCK with (2 ^ 11). rewrite Z.pow2_bits_eqb by lia. apply Z.eqb_sym. Qed.

Lemma has_nonblock v : negb (Z.land v O_NONBLOCK =? 0) = nonblocking v.
Proof.
  unfold nonblocking. destruct (Z.eqb_spec (Z.land v O_NONBLOCK) 0) as [E|E]; cbn [negb].
  - assert (Z.testbit (Z.land v O_NONBLOCK) 11 = false) as H by (by rewrite E, Z.bits_0).
    rewrite Z.land_spec, nonblock_bit, andb_true_r in H by lia. done.
  - destruct (Z.testbit v 11) eqn:Hb; [done|]. exfalso. apply E. apply Z.bits_inj'. intros n Hn.
    rewrite Z.land_spec, nonblock_bit, Z.bits_0 by lia. destruct (Z.eqb_spec n 11) as [->|]; [by rewrite Hb|].
    by rewrite andb_false_r.
Qed.

(** Equalities of flags, bit by bit. *)
Ltac flag_bits :=
  apply Z.bits_inj'; let n := fresh "n" in intros n ?; unfold strip;
  repeat first [rewrite Z.lor_spec | rewrite Z.land_spec]; rewrite ?Z.lnot_spec, ?nonblock_bit by lia;
  destruct (Z.eqb_spec n 11) as [->|]; rewrite ?settable_nonblock.

Lemma strip_lor v : strip (Z.lor v O_NONBLOCK) = strip v.
Proof. flag_bits; cbn; by rewrite ?andb_false_r, ?andb_true_r, ?orb_false_r. Qed.

Lemma lor_nonblock_nonneg v : 0 <= v → 0 <= Z.lor v O_NONBLOCK.
Proof. intros Hv. by apply Z.lor_nonneg. Qed.

(** What [F_SETFL] does on the two descriptors. *)
Lemma setfl_alike k plain v :
  status k = Z.lor (status plain) O_NONBLOCK →
  let '(r, k') := fcntl_f F_SETFL (Some (Z.lor v O_NONBLOCK)) k in
  let '(r', plain') := fcntl_f F_SETFL (Some v) plain in
  r = r' ∧ status k' = Z.lor (status plain') O_NONBLOCK ∧
  (refuses (strip (status plain)) (strip v) = true → status plain' = status plain) ∧
  (refuses (strip (status plain)) (strip v) = false → nonblocking (status plain') = nonblocking v).
Proof.
  intros E. pose proof (law_setfl _ _ _ _ _ Hlaws k (Z.lor v O_NONBLOCK)) as H1.
  pose proof (law_setfl _ _ _ _ _ Hlaws plain v) as H2.
  destruct (fcntl_f F_SETFL (Some (Z.lor v O_NONBLOCK)) k) as [r k'].
  destruct (fcntl_f F_SETFL (Some v) plain) as [r' plain'].
  rewrite E, !strip_lor in H1. destruct (refuses (strip (status plain)) (strip v)).
  - destruct H1 as [-> ->], H2 as [-> ->]. done.
  - destruct H1 as [-> ->], H2 as [-> ->]. split_and!; try done.
    + flag_bits; [by rewrite !orb_true_r|]. by rewrite !orb_false_r.
    + intros _. unfold nonblocking. rewrite Z.lor_spec, !Z.land_spec, Z.lnot_spec, settable_nonblock by lia.
      by rewrite andb_false_r, andb_true_r.
Qed.

Lemma setfl_step v c k plain : same_flags c k plain → switches_granted [SetFl v] plain →
  ∃ c' k', hooked (SetFl v) (Some c, k) = ((untouched (SetFl v) plain).1, (Some c', k')) ∧
    same_flags c' k' (untouched (SetFl v) plain).2.
Proof.
  intros (H1&H2&H3&E&Hu) [Hg _]. unfold hooked, untouched, fcntl, fcntl_setfl. cbn [fst snd].
  rewrite !Z.eqb_refl, H1, H2. cbn [andb negb]. fold (to_int v).
  cbn [setUserNonblock sys_nonblock_]. rewrite H3.
  pose proof (setfl_alike k plain (to_int v) E) as H.
  destruct (fcntl_f F_SETFL (Some (Z.lor (to_int v) O_NONBLOCK)) k) as [r k'].
  destruct (fcntl_f F_SETFL (Some (to_int v)) plain) as [r' plain'].
  destruct H as (->&Ek&Href&Hok). eexists _, _. split; [done|].
  split_and!; cbn [socket_ closed_ sys_nonblock_ user_nonblock_ setUserNonblock snd]; try done.
  rewrite has_nonblock. destruct (refuses _ _); [|by rewrite Hok].
  rewrite Href by done. by destruct Hg.
Qed.

Lemma getfl_step c k plain : same_flags c k plain →
  ∃ c' k', hooked GetFl (Some c, k) = ((untouched GetFl plain).1, (Some c', k')) ∧
    same_flags c' k' (untouched GetFl plain).2.
Proof.
  intros H. pose proof H as (H1&H2&H3&E&Hu). pose proof (law_status _ _ _ _ _ Hlaws plain) as Hp.
  unfold hooked, untouched, fcntl, fcntl_getfl. change (F_GETFL =? F_SETFL) with false. rewrite Z.eqb_refl.
  cbn [fst snd]. rewrite !(law_getfl _ _ _ _ _ Hlaws). exists c, k. split; [|done]. rewrite E.
  rewrite (proj2 (Z.leb_le _ _)) by (by apply lor_nonblock_nonneg). rewrite H1, Hu. cbn [andb fst].
  repeat f_equal. unfold nonblocking. destruct (Z.testbit (status plain) 11) eqn:Eb; cbn [negb];
    flag_bits; rewrite ?Eb; cbn; try done; by rewrite ?orb_false_r, ?andb_true_r.
Qed.

Lemma fionbio_step v c k plain : same_flags c k plain →
  ∃ c' k', hooked (SetFionbio v) (Some c, k) = ((untouched (SetFionbio v) plain).1, (Some c', k')) ∧
    same_flags c' k' (untouched (SetFionbio v) plain).2.
Proof.
  intros (H1&H2&H3&E&Hu). unfold hooked, untouched, ioctl, ioctl_fionbio. cbn [fst snd].
  pose proof (law_fionbio _ _ _ _ _ Hlaws k v) as Hk. pose proof (law_fionbio _ _ _ _ _ Hlaws plain v) as Hplain.
  destruct (ioctl_f FIONBIO (Some v) k) as [r k1], (ioctl_f FIONBIO (Some v) plain) as [r' plain'].
  destruct Hk as [-> Ek], Hplain as [-> Ep]. rewrite !Z.eqb_refl.
  cbn [setUserNonblock socket_ sys_nonblock_]. rewrite H1, H3. cbn [andb fst snd].
  rewrite (law_getfl _ _ _ _ _ Hlaws), (proj2 (Z.leb_le _ _)) by apply Hlaws.
  pose proof (law_setfl _ _ _ _ _ Hlaws k1 (Z.lor (status k1) O_NONBLOCK)) as Hs.
  destruct (fcntl_f F_SETFL (Some (Z.lor (status k1) O_NONBLOCK)) k1) as [r2 k2].
  rewrite strip_lor, (law_same _ _ _ _ _ Hlaws) in Hs. destruct Hs as [_ Ek2].
  eexists _, _. split; [done|]. split_and!;
    cbn [socket_ closed_ sys_nonblock_ user_nonblock_ setUserNonblock snd]; try done.
  - rewrite Ek2, Ek, Ep, E. destruct (v =? 0); flag_bits; cbn;
      rewrite ?orb_true_r, ?andb_true_r, ?andb_false_r, ?orb_false_r; try done;
      by destruct (Z.testbit (status plain) n), (Z.testbit settable n).
  - rewrite Ep. unfold nonblocking, strip. destruct (v =? 0);
      rewrite ?Z.land_spec, ?Z.lor_spec, ?Z.lnot_spec, ?nonblock_bit by lia; cbn;
      by rewrite ?andb_false_r, ?orb_true_r.
Qed.

(** C25: the program cannot tell that the hooks keep its sockets non-blocking: over
    any sequence of [fcntl F_SETFL], [fcntl F_GETFL] and [ioctl FIONBIO] calls on
    an open socket, in which the kernel refuses no [F_SETFL] that would switch
    O_NONBLOCK, every call answers what it would answer on a socket with the same
    flags that the hooks never touched. *)
Theorem flags_look_untouched l c k plain : same_flags c k plain → switches_granted l plain →
  answers hooked l (Some c, k) = answers untouched l plain.
Proof.
  revert c k plain. induction l as [|a l IH]; intros c k plain H Hg; [done|]. cbn [answers].
  destruct Hg as [Hg Hl].
  assert (∃ c' k', hooked a (Some c, k) = ((untouched a plain).1, (Some c', k')) ∧
    same_flags c' k' (untouched a plain).2) as (c'&k'&->&H').
  { destruct a as [v| |v]; [by apply setfl_step|by apply getfl_step|by apply fionbio_step]. }
  destruct (untouched a plain) as [r plain']. f_equal. by apply (IH c' k').
Qed.
End kernel.

(** ** A kernel *)

(** The flags of one descriptor.  O_APPEND, O_NONBLOCK, O_ASYNC and O_NOATIME can
    be changed, but O_NOATIME cannot be set. *)
Definition sample_settable : Z := 1024 + 2048 + 8192 + 262144.
Definition sample_refuses (flags v : Z) : bool := Z.testbit v 18 && negb (Z.testbit flags 18).
Definition sample_fcntl (command : Z) (argument : option Z) (k : N) : Z * N :=
  let flags := Z.of_N k in
  if command =? F_SETFL then
    match argument with
    | Some v =>
        if sample_refuses (strip flags) (strip v) then (-1, k)
        else (0, Z.to_N (Z.lor (Z.land flags (Z.lnot sample_settable)) (Z.land v sample_settable)))
    | None => (0, k)
    end
  else (flags, k).
Definition sample_ioctl (request : Z) (argument : option Z) (k : N) : Z * N :=
  match argument with
  | Some v => (0, Z.to_N (if v =? 0 then strip (Z.of_N k) else Z.lor (Z.of_N k) O_NONBLOCK))
  | None => (-1, k)
  end.

Lemma sample_laws : FlagLaws sample_fcntl sample_ioctl Z.of_N sample_settable sample_refuses.
Proof.
  split.
  - intros k. lia.
  - discriminate.
  - reflexivity.
  - intros flags. unfold sample_refuses. by destruct (Z.testbit flags 18).
  - intros k. reflexivity.
  - intros k v. unfold sample_fcntl. rewrite Z.eqb_refl. destruct (sample_refuses _ _); [done|].
    split; [done|]. apply Z2N.id. apply Z.lor_nonneg. split; apply Z.land_nonneg; [left; lia|by right].
  - intros k v. unfold sample_ioctl. split; [done|]. apply Z2N.id.
    destruct (v =? 0); [apply Z.land_nonneg; left; lia|apply lor_nonblock_nonneg; lia].
Qed.

Definition hooked_socket : FdCtx := mkFdCtx 5 true true true false false u64_max u64_max.

(** Flags set and cleared, and a refused call that leaves O_NONBLOCK as it is. *)
Lemma flags_look_untouched_witness :
  answers (hooked sample_fcntl sample_ioctl)
    [GetFl; SetFl 3074; GetFl; SetFl 264192; SetFionbio 0; GetFl] (Some hooked_socket, 2050%N) =
  [2; 0; 3074; -1; 0; 1026].
Proof.
  rewrite (flags_look_untouched sample_fcntl sample_ioctl Z.of_N sample_settable sample_refuses
    sample_laws _ hooked_socket 2050%N 2%N).
  - vm_compute. reflexivity.
  - repeat split; vm_compute; reflexivity.
  - vm_compute. auto 10.
Defined.

(** The hook of [F_SETFL] records the user's flag before it knows the answer of the
    kernel: a refused call that would switch O_NONBLOCK shows afterwards. *)
Theorem refused_setfl_shows :
  let calls := [SetFl (O_NONBLOCK + 262144); GetFl] in
  same_flags Z.of_N hooked_socket 2050%N 2%N ∧
  answers (hooked sample_fcntl sample_ioctl) calls (Some hooked_socket, 2050%N) = [-1; 2050] ∧
  answers (untouched sample_fcntl sample_ioctl) calls 2%N = [-1; 2].
Proof. repeat split; vm_compute; reflexivity. Qed.

(** A command with a pointer loses it on the way. *)
Theorem fcntl_drops_pointers (lock : Z) : int_command 6 = false ∧
  ∀ (f : Z → option Z → Z → Z * Z) c k, fcntl f 6 lock c k = let '(r, k) := f 6 None k in (r, c, k).
Proof. split; [reflexivity|]. intros f c k. unfold fcntl. rewrite (eq_refl : int_command 6 = false).
  change (6 =? F_SETFL) with false. change (6 =? F_GETFL) with false. cbn. by destruct (f 6 None k). Qed.
End HookFlags.
