(* ===== verification/Sleeping.v ===== *)
(** The hooks of [sleep], [usleep] and [nanosleep] ([droplet/src/hook/hook.cc]) over
    the timers of the manager and its queue: when a call becomes a timer, and the way
    of its fiber from the timer through the queue back to its code, while the clock,
    the other timers and the rest of the queue go on.  A call adds its timer and yields
    in one step; what another thread can do in between is the race of
    [early_wakeup_races] in [SchedulerRuns]. *)

From stdpp Require Import gmap.
From S2P Require Import Prelude Fiber Scheduler Timer TimerLifecycle Hook.
Import Fiber.

Module Sleeping.

(** ** The calls *)

(** The three functions, with the arguments of the program. *)
Inductive call :=
  | Sleep (seconds : Z)
  | Usleep (usec : Z)
  | Nanosleep (request : option (Z * Z)).

(** The milliseconds of the timer; [None] calls the original function.  [in_fiber]
    says that there is a manager and a fiber with a stack of its own. *)
Definition sleep (hook_enabled in_fiber : bool) (seconds : Z) : option Z :=
  if negb hook_enabled then None
  else if negb in_fiber then None
  else Some (Hook.sleep_ms seconds).
Definition usleep (hook_enabled in_fiber : bool) (usec : Z) : option Z :=
  if negb hook_enabled then None
  else if negb in_fiber || (usec =? 0) then None
  else Some (Hook.usleep_ms usec).
Definition nanosleep (hook_enabled in_fiber : bool) (request : option (Z * Z)) : option Z :=
  match request with
  | None => None
  | Some (tv_sec, tv_nsec) =>
      if negb hook_enabled then None
      else if negb in_fiber then None
      else Some (Hook.nanosleep_ms tv_sec tv_nsec)
  end.

Definition delay (hook_enabled in_fiber : bool) (c : call) : option Z :=
  match c with
  | Sleep seconds => sleep hook_enabled in_fiber seconds
  | Usleep usec => usleep hook_enabled in_fiber usec
  | Nanosleep request => nanosleep hook_enabled in_fiber request
  end.

(** What the program asks for, in nanoseconds, and the range of its arguments. *)
Definition asked (c : call) : Z :=
  match c with
  | Sleep seconds => seconds * 10 ^ 9
  | Usleep usec => usec * 1000
  | Nanosleep (Some (tv_sec, tv_nsec)) => tv_sec * 10 ^ 9 + tv_nsec
  | Nanosleep None => 0
  end.
Definition in_range (c : call) : Prop :=
  match c with
  | Sleep seconds => 0 <= seconds < 2 ^ 32
  | Usleep usec => 0 <= usec < 2 ^ 32
  | Nanosleep (Some (tv_sec, tv_nsec)) => 0 <= tv_sec < 2 ^ 53 ∧ 0 <= tv_nsec < 10 ^ 9
  | Nanosleep None => True
  end.

(** ** The way of the fiber *)

(** The steady clock counts nanoseconds in 63 bits. *)
Definition NowMilliseconds (ns : Z) : Z := wrap 64 (ns / 10 ^ 6).

(** The callback of the timer. *)
Definition wake (f : fid) : code := ScheduleFiber f (-1) Return.

Section sleeping.
Context {condition : Type}.
Abbreviation function := (Timer.function code condition).

(** A task of the queue: the callback of a timer, as it was taken out, or another. *)
Inductive task := Timed (fn : option function) | Queued (t : Scheduler.ScheduleTask).

(** Before the call; behind [yield_to_hold], with the reading of the clock at the
    call and its timer; behind the return. *)
Inductive sleep_phase := Before | Asleep (since : Z) (t : nat) | Awake (since until : Z).

Record world := mkWorld {
  now : Z;
  manager : Timer.TimerManager code condition;
  queue : list task;
  phase : sleep_phase;
}.

(** [listExpiredCallbacks] in [idle], and the scheduling of what it hands out. *)
Definition expire (w : world) : world :=
  match Timer.listExpiredCallbacks (NowMilliseconds (now w)) (manager w) with
  | None => w
  | Some (cbs, m) => mkWorld (now w) m (queue w ++ ((λ p, Timed p.2) <$> cbs)) (phase w)
  end.

Section fiber.
(** The fiber that sleeps and the delay of its call. *)
Context (f : fid) (ms : Z).

Definition is_wake (c : code) : bool :=
  match c with
  | ScheduleFiber g thread_id Return => bool_decide (g = f) && (thread_id =? -1)
  | _ => false
  end.
Definition wakes (fn : function) : bool :=
  match fn with Timer.Call c => is_wake c | Timer.Guarded _ c => is_wake c end.
Definition mine (t : task) : bool :=
  match t with
  | Timed (Some fn) => wakes fn
  | Timed None => false
  | Queued t => bool_decide (Scheduler.fiber t = Some f)
  end.

(** [addTimer] and [yield_to_hold]. *)
Definition fall_asleep (w : world) : world :=
  match Timer.addTimer (NowMilliseconds (now w)) ms (Some (Timer.Call (wake f))) false (manager w) with
  | (Some t, _, m) => mkWorld (now w) m (queue w) (Asleep (now w) t)
  | (None, _, m) => mkWorld (now w) m (queue w) (phase w)
  end.

(** What the others do with the timers: they do not wake this fiber, and they have no
    pointer to its timer. *)
Definition others (w : world) (o : TimerLifecycle.op) : Prop :=
  TimerLifecycle.op_ok o ∧
  match o with
  | TimerLifecycle.Add _ _ fn _ => wakes fn = false ∧ Timer.next_sequence_ (manager w) + 1 < 2 ^ 64
  | TimerLifecycle.Cancel t | TimerLifecycle.Refresh _ t | TimerLifecycle.Reset _ t _ _ =>
      match phase w with Asleep _ t' => t ≠ t' | _ => True end
  | TimerLifecycle.Scan _ | TimerLifecycle.Clear => False
  end.

Inductive step (w : world) : world → Prop :=
  | clock_ticks d : 0 <= d → now w + d < 2 ^ 63 →
      step w (mkWorld (now w + d) (manager w) (queue w) (phase w))
  | sleep_begins : phase w = Before → Timer.next_sequence_ (manager w) + 1 < 2 ^ 64 →
      step w (fall_asleep w)
  | timers_expire : step w (expire w)
  | callback_runs fn before behind : queue w = before ++ Timed (Some fn) :: behind → wakes fn = true →
      step w (mkWorld (now w) (manager w)
        (before ++ behind ++ [Queued (Scheduler.mkTask (Some f) None (-1))]) (phase w))
  | sleep_ends since t u before behind : phase w = Asleep since t →
      queue w = before ++ Queued u :: behind → mine (Queued u) = true →
      step w (mkWorld (now w) (manager w) (before ++ behind) (Awake since (now w)))
  | other_timers o es notify m : others w o → TimerLifecycle.step o (manager w) = Some (es, notify, m) →
      step w (mkWorld (now w) m (queue w) (phase w))
  | other_tasks q : filter (λ t, mine t = true) q = filter (λ t, mine t = true) (queue w) →
      step w (mkWorld (now w) (manager w) q (phase w)).

(** A manager in which nothing wakes the fiber yet. *)
Definition fresh_world (start : Z) : world := mkWorld start Timer.make [] Before.
End fiber.
End sleeping.
End Sleeping.
