(* ===== verification/SleepingProofs.v ===== *)
(** What the sleeping hooks guarantee: a call returns less than a millisecond early and
    exactly once, and the sleeper can always be woken - and how short a sleep can be. *)

From stdpp Require Import gmap.
From S2P Require Import Prelude Fiber Scheduler Timer TimerProofs TimerLifecycle Hook HookProofs Sleeping.
Import Fiber Timer TimerProofs TimerLifecycle Sleeping.


Module SleepingProofs.

Lemma filter_last {A} (P : A → Prop) `{∀ x, Decision (P x)} (l : list A) x :
  filter P (l ++ [x]) = filter P l ++ (if decide (P x) then [x] else []).
Proof. rewrite filter_app, filter_cons. by destruct (decide (P x)). Qed.

(** One element of a duplicate-free list. *)
Lemma filter_single {A B} (P : B → Prop) `{∀ x, Decision (P x)} `{EqDecision A} (g : A → B) (t : A) (l : list A) :
  NoDup l → (∀ a, a ∈ l → P (g a) → a = t) →
  length (filter P (g <$> l)) = if decide (t ∈ l ∧ P (g t)) then 1%nat else 0%nat.
Proof.
  induction l as [|a l IH]; intros Hnd Ht; [by rewrite decide_False by set_solver|].
  apply NoDup_cons in Hnd as [Hn Hnd]. rewrite fmap_cons, filter_cons.
  pose proof (IH Hnd ltac:(intros b Hb; apply Ht; set_solver)) as IH'.
  destruct (decide (P (g a))) as [Ha|Ha].
  - assert (a = t) as -> by (apply Ht; [set_solver|done]).
    cbn [length]. rewrite IH', decide_False by tauto. by rewrite decide_True by set_solver.
  - rewrite IH'. destruct (decide (t ∈ l ∧ P (g t))) as [[? ?]|Hno].
    + by rewrite decide_True by set_solver.
    + rewrite decide_False; [done|]. intros [[->|]%elem_of_cons ?]; tauto.
Qed.

Section sleeping.
Context {condition : Type} (f : fid) (ms start : Z).
Context (Hms : 0 <= ms < 2 ^ 63) (Hstart : 0 <= start < 2 ^ 63).
Abbreviation manager_t := (TimerManager code condition).
Implicit Types (w : @world condition) (m : manager_t).

(** The timers and the tasks that wake the fiber. *)
Definition waker (y : Timer.Timer code condition) : bool :=
  match cb_ y with Some fn => wakes f fn | None => false end.
Definition live_waker m (a : nat) : Prop :=
  ∃ y, heap m !! a = Some y ∧ manager_ y = true ∧ waker y = true.
Definition pending (q : list (@task condition)) : nat := length (filter (λ t, mine f t = true) q).

Lemma pending_app q1 q2 : pending (q1 ++ q2) = (pending q1 + pending q2)%nat.
Proof. unfold pending. by rewrite filter_app, length_app. Qed.
Lemma pending_cons t q : pending (t :: q) = ((if mine f t then 1 else 0) + pending q)%nat.
Proof. unfold pending. rewrite filter_cons. by destruct (mine f t). Qed.

Lemma pending_none q : (∀ t, t ∈ q → mine f t = true → False) → pending q = 0%nat.
Proof.
  induction q as [|t q IH]; intros Hn; [done|]. rewrite pending_cons, IH by (intros u Hu; apply Hn; set_solver).
  destruct (mine f t) eqn:E; [|done]. destruct (Hn t); [set_solver|done].
Qed.

Lemma now_ms n : 0 <= n < 2 ^ 63 → NowMilliseconds n = n / 10 ^ 6 ∧ 0 <= n / 10 ^ 6 < 2 ^ 62.
Proof.
  intros Hn. assert (0 <= n / 10 ^ 6 < 2 ^ 62) as Hr.
  { split; [apply Z.div_pos; lia|]. apply Z.div_lt_upper_bound; lia. }
  split; [|done]. unfold NowMilliseconds. apply wrap_small. lia.
Qed.

Definition deadline (since : Z) : Z := since / 10 ^ 6 + ms.

(** Where the wake-up of the fiber is. *)
Definition placed w : Prop :=
  match phase w with
  | Before => (∀ a, ¬ live_waker (manager w) a) ∧ pending (queue w) = 0%nat
  | Asleep since t =>
      0 <= since <= now w ∧ (∀ a, live_waker (manager w) a → a = t) ∧
      ∃ x, heap (manager w) !! t = Some x ∧ recurring_ x = false ∧
        if manager_ x
        then cb_ x = Some (Call (wake f)) ∧ next_ x = deadline since ∧ pending (queue w) = 0%nat
        else pending (queue w) = 1%nat ∧ deadline since <= now w / 10 ^ 6
  | Awake since until =>
      0 <= since <= until ∧ (∀ a, ¬ live_waker (manager w) a) ∧ pending (queue w) = 0%nat ∧
      deadline since <= until / 10 ^ 6
  end.

Record sleep_inv w : Prop := {
  sleep_timers : inv (manager w);
  sleep_clock : 0 <= now w < 2 ^ 63;
  sleep_placed : placed w;
}.

Lemma fresh_inv : sleep_inv (fresh_world start).
Proof.
  split; [apply make_inv|done|]. split; [|done]. intros a (y&Hy&_). change (heap Timer.make !! a = Some y) in Hy. unfold Timer.make in Hy. cbn [heap] in Hy. by rewrite lookup_empty in Hy.
Qed.

(** The call. *)
Lemma fall_asleep_inv w : sleep_inv w → phase w = Before → next_sequence_ (manager w) + 1 < 2 ^ 64 →
  sleep_inv (fall_asleep f ms w).
Proof.
  intros [Hi Hc Hp] Eb Hroom. unfold placed in Hp. rewrite Eb in Hp. destruct Hp as [Hno Hq].
  destruct (addTimer_spec (NowMilliseconds (now w)) ms (Call (wake f)) false (manager w) Hi Hms Hroom)
    as (Hnone&front&m&E&Hi'&Hh&_).
  unfold fall_asleep. rewrite E. set (t := fresh (dom (heap (manager w)))) in *. clearbody t.
  split; [done|done|]. cbn [placed phase now manager queue].
  split; [lia|]. split.
  - intros a (y&Hy&Hm&Hw). rewrite Hh in Hy. destruct (decide (a = t)) as [|Hne]; [done|].
    rewrite lookup_insert_ne in Hy by done. destruct (Hno a). by exists y.
  - eexists. split; [rewrite Hh; apply lookup_insert_eq|]. split; [done|]. cbn [manager_ cb_ next_].
    split; [done|]. split; [|done]. destruct (now_ms (now w) Hc) as [-> ?]. unfold deadline. apply wrap_small. lia.
Qed.

(** The scan. *)
Lemma expire_inv w : sleep_inv w → sleep_inv (expire w).
Proof.
  intros [Hi Hc Hp]. destruct (now_ms (now w) Hc) as [En Hn].
  destruct (scan_spec (NowMilliseconds (now w)) (manager w) Hi) as (m&E&Hi'&Hh&_); [rewrite En; lia|].
  unfold expire. rewrite E. rewrite En in Hh. rewrite En in *. clear En.
  set (n := now w / 10 ^ 6) in *. set (due := due_timers n (manager w)) in *.
  assert (∀ a, live_waker m a → live_waker (manager w) a) as Hback.
  { intros a (y&Hy&Hm&Hw). rewrite Hh in Hy. destruct (heap (manager w) !! a) as [z|] eqn:Ez; [|done].
    cbn in Hy. injection Hy as <-. exists z. unfold fire, waker in *.
    destruct (manager_ z && (next_ z <=? n)) eqn:Eb; [|done].
    apply andb_true_iff in Eb as [Ez' _]. by destruct (recurring_ z). }
  set (g := λ a, Timed (heap (manager w) !! a ≫= cb_)).
  assert (((λ p, Timed p.2) <$> ((λ t, (t, heap (manager w) !! t ≫= cb_)) <$> due)) = (g <$> due)) as ->
    by by rewrite <- list_fmap_compose.
  assert (∀ a, a ∈ due → mine f (g a) = true → live_waker (manager w) a) as Hmine.
  { intros a (x&Hx&Hm&_)%due_timers_elem; [|done]. unfold g. rewrite Hx. cbn. intros Hw. exists x.
    split_and!; [done..|]. unfold waker. by destruct (cb_ x). }
  assert (NoDup due) as Hnd by (apply NoDup_filter; eapply ordered_NoDup, (inv_ordered _ Hi)).
  split; [done|done|]. revert Hp. unfold placed. cbn [phase now manager queue].
  destruct (phase w) as [|since t|since until].
  - intros [Hno Hq]. split; [by intros a ?%Hback%Hno|]. rewrite pending_app, Hq.
    apply pending_none. intros t' (a&->&Ha)%list_elem_of_fmap Hm. by apply (Hno a), Hmine.
  - intros (Hs&Hone&x&Hx&Hr&Hcase). split; [done|]. split; [by intros a ?%Hback%Hone|].
    assert (pending (g <$> due) = if decide (t ∈ due ∧ mine f (g t) = true) then 1%nat else 0%nat) as Eg.
    { apply filter_single; [done|]. intros a Ha Hm. by apply Hone, Hmine. }
    exists (fire n x). split; [by rewrite Hh, Hx|]. rewrite pending_app, Eg. unfold fire. destruct (manager_ x) eqn:Em; cbn [andb].
    + destruct Hcase as (Ecb&Enext&Hq).
      assert (mine f (g t) = true) as Hmt.
      { unfold g. rewrite Hx. cbn. rewrite Ecb. cbn. by rewrite bool_decide_eq_true_2. }
      destruct (Z.leb_spec (next_ x) n) as [Hle|Hgt].
      * rewrite decide_True by (split; [apply due_timers_elem; eauto|done]).
        rewrite Hr. split; [exact Hr|]. cbn. rewrite Hq. split; [done|]. by rewrite <- Enext.
      * rewrite decide_False by (intros [(y&Hy&_&?)%due_timers_elem _]; [|done]; simplify_eq; lia).
        split; [done|]. rewrite Em. by rewrite Hq.
    + rewrite decide_False by (intros [(y&Hy&?&_)%due_timers_elem _]; [congruence|done]).
      split; [done|]. rewrite Em. by rewrite Nat.add_0_r.
  - intros (Hs&Hno&Hq&Hd). split; [done|]. split; [by intros a ?%Hback%Hno|]. split; [|done]. rewrite pending_app, Hq.
    apply pending_none. intros t' (a&->&Ha)%list_elem_of_fmap Hm. by apply (Hno a), Hmine.
Qed.

(** A timer of the others that is moved. *)
Lemma moved_effect w next k t x : inv (manager w) → heap (manager w) !! t = Some x → manager_ x = true →
  0 <= next < 2 ^ 64 → 0 <= k < 2 ^ 63 → match phase w with Asleep _ t' => t ≠ t' | _ => True end →
  let m := (moved_timer t (rescheduled next k x) (manager w)).2 in
  inv m ∧ (∀ a, live_waker m a → live_waker (manager w) a) ∧
  (∀ since a y, phase w = Asleep since a → heap (manager w) !! a = Some y → heap m !! a = Some y).
Proof.
  intros Hi Hx Hm Hn Hk Ho m. split; [by apply rescheduled_inv|]. split.
  - intros a (y&Hy&Hym&Hwk). cbn in Hy. apply lookup_insert_Some in Hy as [[<- <-]|[_ Hy]]; by eexists.
  - intros since a y Hp Hy. rewrite Hp in Ho. cbn. by rewrite lookup_insert_ne.
Qed.

Lemma result_state (p : bool * bool * manager_t) (es : list (@event code condition)) notify m :
  (let '(_, n, st') := p in Some ([], n, st')) = Some (es, notify, m) → m = p.2.
Proof. destruct p as [[? ?] ?]. by intros [= _ _ ->]. Qed.

(** The others. *)
Lemma others_effect w o es notify m : inv (manager w) → others f w o →
  TimerLifecycle.step o (manager w) = Some (es, notify, m) →
  inv m ∧ (∀ a, live_waker m a → live_waker (manager w) a) ∧
  (∀ since t x, phase w = Asleep since t → heap (manager w) !! t = Some x → heap m !! t = Some x).
Proof.
  intros Hi [Hok Ho] Hs. destruct o as [n k fn r|n|t|n t|n t k b|]; [|done| | | |done]; cbn [op_ok] in Hok.
  - destruct Ho as [Hw Hroom].
    destruct (addTimer_spec n k fn r (manager w) Hi (proj2 Hok) Hroom) as (Hnone&front&m'&E&Hi'&Hh&_).
    cbn [TimerLifecycle.step] in Hs. rewrite E in Hs. simplify_eq.
    set (t := fresh (dom (heap (manager w)))) in *. clearbody t. split; [done|]. split.
    + intros a (y&Hy&Hm&Hwk). rewrite Hh in Hy. apply lookup_insert_Some in Hy as [[<- <-]|[_ Hy]].
      * unfold waker in Hwk. cbn in Hwk. congruence.
      * by exists y.
    + intros since a x _ Hx. rewrite Hh, lookup_insert_ne; [done|]. intros ->. congruence.
  - cbn [TimerLifecycle.step] in Hs. destruct (cancel_spec t (manager w) Hi) as [(x&Hx&Hm&E)|[E _]]; rewrite E in Hs; simplify_eq.
    + split; [by apply detach_inv|]. split.
      * intros a (y&Hy&Hym&Hwk). cbn in Hy. apply lookup_insert_Some in Hy as [[<- <-]|[_ Hy]]; [done|by exists y].
      * intros since a z Hp Hz. rewrite Hp in Ho. cbn. by rewrite lookup_insert_ne.
    + split; [done|]. split; [done|]. naive_solver.
  - cbn [TimerLifecycle.step] in Hs. destruct (refresh_spec n t (manager w) Hi) as [(x&Hx&Hm&E)|[E _]]; rewrite E in Hs.
    + destruct (inv_timers _ Hi t x Hx) as [_ _ _ _ Hmsx]. apply result_state in Hs as ->.
      apply (moved_effect w (wrap 64 (n + ms_ x)) (ms_ x) t x); try done. apply wrap_range. lia.
    + simplify_eq. split; [done|]. split; [done|]. naive_solver.
  - cbn [TimerLifecycle.step] in Hs. destruct (reset_spec n t k b (manager w) Hi) as [(x&Hx&Hm&E)|[E _]]; rewrite E in Hs.
    + apply result_state in Hs as ->. apply (moved_effect w (reset_next n k b x) k t x); try done; [|apply Hok]. apply wrap_range. lia.
    + simplify_eq. split; [done|]. split; [done|]. naive_solver.
Qed.

Lemma step_sleep_inv w w' : sleep_inv w → step f ms w w' → sleep_inv w'.
Proof.
  intros Hw Hs. pose proof Hw as [Hi Hc Hp]. destruct Hs as
    [d Hd Hmax|Hb Hroom| |fn before behind Hq Hfn|since t u before behind Ha Hq Hu|o es notify m Ho Hs|q Hq].
  - split; [done|cbn; lia|]. unfold placed in *. cbn [phase now manager queue] in *.
    destruct (phase w) as [|since t|since until]; [done| |done].
    destruct Hp as (Hr&Hone&x&Hx&Hrec&Hcase). split; [lia|]. split; [done|]. exists x. split_and!; [done..|].
    destruct (manager_ x); [done|]. destruct Hcase as [? Hle]. split; [done|]. etransitivity; [apply Hle|].
    apply Z.div_le_mono; lia.
  - by apply fall_asleep_inv.
  - by apply expire_inv.
  - split; [done|done|]. assert (pending (before ++ behind ++ [Queued (Scheduler.mkTask (Some f) None (-1))]) = pending (queue w)) as E.
    { rewrite Hq, !pending_app, !pending_cons. cbn [mine Scheduler.fiber]. rewrite Hfn, bool_decide_eq_true_2 by done.
      cbn. lia. }
    unfold placed in *. cbn [phase now manager queue]. by rewrite E.
  - assert (pending (queue w) = S (pending (before ++ behind))) as E.
    { rewrite Hq, !pending_app, pending_cons, Hu. lia. }
    split; [done|done|]. unfold placed in *. cbn [phase now manager queue]. rewrite Ha in Hp.
    destruct Hp as (Hr&Hone&x&Hx&Hrec&Hcase). rewrite E in Hcase.
    destruct (manager_ x) eqn:Em; [by destruct Hcase as (_&_&?)|]. destruct Hcase as [Ep Hd].
    split; [lia|]. split; [|split; [by injection Ep as ->|done]].
    intros a Hl. pose proof (Hone a Hl) as ->. destruct Hl as (y&Hy&Hm&_). congruence.
  - destruct (others_effect w o es notify m Hi Ho Hs) as (Hi'&Hback&Hkeep). split; [done|done|].
    unfold placed in *. cbn [phase now manager queue]. destruct (phase w) as [|since t|since until].
    + destruct Hp as [Hno Hq]. split; [|done]. by intros a ?%Hback%Hno.
    + destruct Hp as (Hr&Hone&x&Hx&Hcase). split; [done|]. split; [by intros a ?%Hback%Hone|].
      exists x. split; [by eapply Hkeep|done].
    + destruct Hp as (Hr&Hno&Hq&Hd). split; [done|]. split; [by intros a ?%Hback%Hno|done].
  - split; [done|done|]. assert (pending q = pending (queue w)) as E by (unfold pending; by rewrite Hq).
    unfold placed in *. cbn [phase now manager queue]. by rewrite E.
Qed.

Lemma reachable_sleep_inv w : rtc (step f ms) (fresh_world start) w → sleep_inv w.
Proof.
  pose proof fresh_inv as H0. revert H0. generalize (fresh_world (condition := condition) start). intros w0 H0 Hr.
  induction Hr as [|w1 w2 w3 H12 _ IH]; [done|]. by apply IH, (step_sleep_inv w1).
Qed.

(** A task that wakes the fiber. *)
Lemma pending_split q n : pending q = S n → ∃ t before behind, q = before ++ t :: behind ∧ mine f t = true.
Proof.
  induction q as [|t q IH]; [done|]. rewrite pending_cons. destruct (mine f t) eqn:E.
  - intros _. by exists t, [], q.
  - intros (u&before&behind&->&Hu)%IH. by exists u, (t :: before), behind.
Qed.

(** A task of the queue that wakes the fiber does, in at most two steps. *)
Lemma queued_wakes since t w : phase w = Asleep since t → (0 < pending (queue w))%nat →
  ∃ w', rtc (step f ms) w w' ∧ phase w' = Awake since (now w).
Proof.
  intros Ha Hq. destruct (pending (queue w)) as [|k] eqn:E; [lia|].
  destruct (pending_split _ _ E) as (u&before&behind&Eq&Hu). destruct u as [[fn|]|u]; [|done|].
  - eexists. split.
    + eapply rtc_l; [by apply (callback_runs _ _ _ fn before behind)|].
      apply rtc_once. eapply (sleep_ends _ _ _ since t _ (before ++ behind) []).
      * exact Ha.
      * cbn [queue]. by rewrite app_assoc.
      * cbn. by rewrite bool_decide_eq_true_2.
    + done.
  - eexists. split; [apply rtc_once; by apply (sleep_ends _ _ _ since t u before behind)|done].
Qed.

(** ** The theorems *)

(** C24: a sleeping hook never returns a millisecond or more too early: whatever the
    clock, the other timers, the scans of the event loop and the rest of the queue do,
    when the call has returned the time between the two readings of the clock is more
    than what was asked for less one millisecond; and it returns once - its timer is
    gone and nothing is left that would wake the fiber again. *)
Theorem sleeps_long_enough c w since until :
  in_range c → delay true true c = Some ms → rtc (step f ms) (fresh_world (condition := condition) start) w →
  phase w = Awake since until →
  asked c - 10 ^ 6 < until - since ∧ pending (queue w) = 0%nat ∧ ∀ a, ¬ live_waker (manager w) a.
Proof.
  intros Hc Hd [_ _ Hp]%reachable_sleep_inv Ha. unfold placed in Hp. rewrite Ha in Hp.
  destruct Hp as (Hr&Hno&Hq&Hle). split; [|done].
  assert (asked c <= ms * 10 ^ 6) as Hask.
  { destruct c as [s|u|[[s n]|]]; cbn in Hd; [| | |done].
    - injection Hd as <-. destruct (HookProofs.waits_are_long_enough s 0 0) as (->&_); cbn in *; lia.
    - destruct (u =? 0); [done|]. injection Hd as <-.
      destruct (HookProofs.waits_are_long_enough 0 u 0) as (_&?&_); cbn in *; lia.
    - injection Hd as <-. destruct Hc as [H1 H2]. destruct (HookProofs.waits_are_long_enough s 0 n) as (_&_&?&_); cbn in *; lia. }
  unfold deadline in Hle. pose proof (Z.div_mod since (10 ^ 6) ltac:(lia)).
  pose proof (Z.mod_pos_bound since (10 ^ 6) ltac:(lia)). pose proof (Z.div_mod until (10 ^ 6) ltac:(lia)).
  pose proof (Z.mod_pos_bound until (10 ^ 6) ltac:(lia)). lia.
Qed.

(** No sleep is lost: from every reachable state in which the call sleeps, and for
    every later reading of the clock at which its delay has passed, the scan of the
    event loop, the callback and the resumption alone make the call return at that
    reading. *)
Theorem sleeper_wakes w since t n :
  rtc (step f ms) (fresh_world (condition := condition) start) w → phase w = Asleep since t →
  now w <= n < 2 ^ 63 → deadline since <= n / 10 ^ 6 →
  ∃ w', rtc (step f ms) w w' ∧ phase w' = Awake since n.
Proof.
  intros Hw%reachable_sleep_inv Ha Hn Hd.
  set (w1 := mkWorld n (manager w) (queue w) (phase w)).
  assert (step f ms w w1) as S1.
  { pose proof (clock_ticks f ms w (n - now w)) as S1. replace (now w + (n - now w)) with n in S1 by lia.
    apply S1; lia. }
  pose proof (step_sleep_inv _ _ Hw S1) as Hw1. pose proof (expire_inv w1 Hw1) as [_ _ Hp2].
  assert (phase (expire w1) = Asleep since t ∧ now (expire w1) = n) as [Ha2 Hn2].
  { unfold expire. by destruct (listExpiredCallbacks _ _) as [[? ?]|]. }
  destruct (queued_wakes since t (expire w1)) as (w'&Hr&Hw'); [done| |].
  - unfold placed in Hp2. rewrite Ha2 in Hp2. destruct Hp2 as (_&_&x&Hx&_&Hcase).
    destruct (manager_ x) eqn:Em; [|lia]. exfalso. destruct Hcase as (_&Hnext&_). rewrite <- Hnext in Hd.
    destruct Hw1 as [Hi Hc _]. destruct (now_ms n Hc) as [En ?].
    destruct (scan_spec (NowMilliseconds (now w1)) (manager w1) Hi) as (m&E&_&Hh&_); [cbn; rewrite En; lia|].
    unfold expire in Hx. rewrite E in Hx. cbn [manager] in Hx. rewrite Hh in Hx.
    destruct Hw as [_ _ Hp]. unfold placed in Hp. rewrite Ha in Hp. destruct Hp as (_&_&z&Hz&Hrec&_).
    change (manager w1) with (manager w) in Hx. rewrite Hz in Hx. cbn in Hx. injection Hx as <-.
    change (now w1) with n in *. rewrite En in *. unfold fire in *.
    destruct (manager_ z) eqn:Ez; cbn [andb] in *; [|congruence].
    destruct (Z.leb_spec (next_ z) (n / 10 ^ 6)); [by rewrite Hrec in Em|lia].
  - exists w'. rewrite Hn2 in Hw'. split; [|done]. eapply rtc_l; [exact S1|]. eapply rtc_l; [apply timers_expire|done].
Qed.
End sleeping.

(** ** How short a sleep can be *)

(** A sleep of a millisecond that takes a nanosecond: the call reads the clock just
    before its millisecond ends. *)
Definition fiber1 : fid := 1%positive.
Definition short_sleep : @world unit := fresh_world 1999999.
Definition short_asleep : @world unit := fall_asleep fiber1 1 short_sleep.
Definition first_timer : nat := fresh (dom (heap (manager short_sleep))).
Definition short_due : @world unit :=
  expire (mkWorld 2000000 (manager short_asleep) (queue short_asleep) (phase short_asleep)).
Definition short_awake : @world unit := mkWorld 2000000 (manager short_due) [] (Awake 1999999 2000000).

Lemma short_sleeps : rtc (step fiber1 1) short_sleep short_asleep.
Proof. apply rtc_once. by apply sleep_begins. Qed.

Lemma short_wakes : rtc (step fiber1 1) short_sleep short_awake.
Proof.
  eapply rtc_l; [by apply sleep_begins|]. eapply rtc_l; [by apply (clock_ticks _ _ _ 1)|].
  eapply rtc_l; [apply timers_expire|].
  eapply rtc_l; [by apply (callback_runs _ _ _ (Call (wake fiber1)) [] [])|].
  apply rtc_once. match goal with |- step _ _ ?W _ =>
    change short_awake with (mkWorld (now W) (manager W) ([] ++ []) (Awake 1999999 (now W))) end.
  by apply (sleep_ends _ _ _ 1999999 first_timer (Scheduler.mkTask (Some fiber1) None (-1)) [] []).
Qed.

(** The delay is rounded up and the clock down: usleep of a millisecond can return one
    nanosecond later. *)
Theorem usleep_returns_early : ∃ w, rtc (step fiber1 1) short_sleep w ∧
  delay true true (Usleep 1000) = Some 1 ∧ phase w = Awake 1999999 2000000.
Proof. exists short_awake. split; [apply short_wakes|done]. Qed.

Lemma sleeps_long_enough_witness :
  phase short_awake = Awake 1999999 2000000 ∧ asked (Usleep 1000) - 10 ^ 6 < 2000000 - 1999999.
Proof.
  split; [reflexivity|].
  refine (proj1 (sleeps_long_enough fiber1 1 1999999 _ _ (Usleep 1000) short_awake 1999999 2000000 _ _ short_wakes _));
    first [reflexivity | split; reflexivity | (split; [discriminate|reflexivity])].
Defined.

Lemma sleeper_wakes_witness :
  ∃ w', rtc (step fiber1 1) short_asleep w' ∧ phase w' = Awake 1999999 2000000.
Proof.
  refine (sleeper_wakes fiber1 1 1999999 _ _ short_asleep 1999999 first_timer 2000000 short_sleeps _ _ _);
    first [reflexivity | (split; [discriminate|reflexivity]) | discriminate].
Defined.
End SleepingProofs.
