(* ===== verification/FdManagerProofs.v ===== *)
(** The table of descriptor contexts ([Hook.FdManager]): every place holds the
    context of its own descriptor, a number that is reused gets a context of its
    own, and the timeout of a descriptor governs the calls on it and on no other. *)

From stdpp Require Import gmap.
From S2P Require Import Prelude Totals IOManager Hook.
Import IOManager Hook.

Module FdManagerProofs.

(** The context at a place is that of the descriptor. *)
Definition table_ok (m : FdManager) : Prop :=
  ∀ n p, data_ m !! n = Some (Some p) → ∃ c, objects m !! p = Some c ∧ fd_ c = Z.of_nat n.

(** The context [get] finds, without creating one. *)
Definition context_of (fd : Z) (m : FdManager) : option FdCtx :=
  if (fd <? 0) || (kMaxTrackedFd <? fd) then None
  else match data_ m !! Z.to_nat fd with Some (Some p) => objects m !! p | _ => None end.

Definition no_contexts : FdManager := mkFdManager ∅ [].
Lemma no_contexts_ok : table_ok no_contexts.
Proof. by intros n p. Qed.

(** A function that keeps the number of a context. *)
Definition keeps_fd (f : FdCtx → FdCtx) : Prop := ∀ c, fd_ (f c) = fd_ c.

Lemma keeps_setTimeout o ms : keeps_fd (setTimeout o ms).
Proof. intros c. unfold setTimeout. by repeat case_match. Qed.
Lemma keeps_setUserNonblock b : keeps_fd (setUserNonblock b).
Proof. done. Qed.
Lemma keeps_markClosed : keeps_fd markClosed.
Proof. done. Qed.

Lemma new_context_fd fd a : fd_ (new_context fd a) = fd.
Proof.
  assert (∀ o t c, fd_ (match t with Some (s, u) => setTimeout o (timeval_ms s u) c | None => c end) = fd_ c) as Ht.
  { intros o [[s u]|] c; [apply keeps_setTimeout|done]. }
  unfold new_context. destruct (negb (stat_ok a)); [done|]. destruct (is_socket a); cbn [fd_]; [|done].
  rewrite !Ht. destruct (get_flags a); [|done]. by destruct (_ || _).
Qed.

(** A new context is open, and its flag is that of a blocking socket. *)
Lemma new_context_open fd a :
  closed_ (new_context fd a) = false ∧ user_nonblock_ (new_context fd a) = false.
Proof.
  assert (∀ o t c, let c' := match t with Some (s, u) => setTimeout o (timeval_ms s u) c | None => c end in
    closed_ c' = closed_ c ∧ user_nonblock_ c' = user_nonblock_ c) as Ht.
  { intros o [[s u]|] c; [|done]. cbn. unfold setTimeout. by repeat case_match. }
  unfold new_context. destruct (negb (stat_ok a)); [done|]. destruct (is_socket a); cbn [closed_ user_nonblock_]; [|done].
  split.
  - rewrite !(proj1 (Ht _ _ _)). destruct (get_flags a); [|done]. by destruct (_ || _).
  - rewrite !(proj2 (Ht _ _ _)). destruct (get_flags a); [|done]. by destruct (_ || _).
Qed.

Lemma update_ok f p m : keeps_fd f → table_ok m → table_ok (update f p m).
Proof.
  intros Hf Hm n q Hq. destruct (Hm n q Hq) as (c&Hc&Hn). cbn [update objects].
  destruct (decide (q = p)) as [->|Hne].
  - exists (f c). rewrite lookup_alter_eq, Hc. split; [done|]. by rewrite Hf.
  - exists c. by rewrite lookup_alter_ne.
Qed.

(** Two places never share a context. *)
Lemma table_ok_inj m n1 n2 p :
  table_ok m → data_ m !! n1 = Some (Some p) → data_ m !! n2 = Some (Some p) → n1 = n2.
Proof.
  intros Hm H1 H2. destruct (Hm n1 p H1) as (c&Hc&E1). destruct (Hm n2 p H2) as (c'&Hc'&E2).
  assert (c = c') as <- by congruence. lia.
Qed.

(** [get] keeps the table, returns the context at the place or a new one, and
    leaves every other place and every object alone. *)
Lemma get_spec fd auto a m p m' :
  table_ok m → get fd auto a m = (p, m') →
  table_ok m' ∧
  (∀ q, is_Some (objects m !! q) → objects m' !! q = objects m !! q) ∧
  (∀ n q, data_ m !! n = Some (Some q) → data_ m' !! n = Some (Some q)) ∧
  match p with
  | Some p =>
      0 <= fd <= kMaxTrackedFd ∧ data_ m' !! Z.to_nat fd = Some (Some p) ∧
      (data_ m !! Z.to_nat fd = Some (Some p) ∨
       (auto = true ∧ objects m !! p = None ∧ objects m' !! p = Some (new_context fd a)))
  | None => context_of fd m = None ∧ objects m' = objects m
  end.
Proof.
  intros Hm. unfold get, context_of. destruct ((fd <? 0) || (kMaxTrackedFd <? fd)) eqn:Er.
  { by intros [= <- <-]. }
  apply orb_false_iff in Er as [E0%Z.ltb_ge E1%Z.ltb_ge]. set (n := Z.to_nat fd).
  destruct (Nat.leb (length (data_ m)) n && negb auto) eqn:Ea.
  { intros [= <- <-]. apply andb_true_iff in Ea as [Ea%Nat.leb_le _].
    rewrite lookup_ge_None_2 by done. done. }
  set (v := data_ m ++ _).
  assert (∀ k x, data_ m !! k = Some x → v !! k = Some x) as Hv by (intros; by apply lookup_app_l_Some).
  assert (∀ k q, v !! k = Some (Some q) → data_ m !! k = Some (Some q)) as Hv'.
  { intros k q [H|[_ H]]%lookup_app_Some; [done|]. by apply lookup_replicate in H as [? _]. }
  destruct (v !! n) as [[q|]|] eqn:Ev.
  - intros [= <- <-]. cbn [objects data_]. split_and!; try done.
    + intros k r Hr. by apply Hm, Hv'.
    + intros k r Hr. by apply Hv.
    + left. by apply Hv'.
  - destruct auto.
    + set (q := fresh (dom (objects m))). intros [= <- <-]. cbn [objects data_].
      assert (objects m !! q = None) as Hq by (apply not_elem_of_dom, is_fresh).
      assert (n < length v)%nat as Hlt by (by eapply lookup_lt_Some).
      split_and!.
      * intros k r. cbn [objects data_]. destruct (decide (k = n)) as [->|Hne].
        -- rewrite list_lookup_insert_eq by done. intros [= <-]. rewrite lookup_insert_eq.
           eexists. split; [done|]. rewrite new_context_fd. unfold n. lia.
        -- rewrite list_lookup_insert_ne by done. intros Hr. destruct (Hm k r (Hv' _ _ Hr)) as (c&Hc&Hn).
           exists c. split; [|done]. rewrite lookup_insert_ne; [done|]. intros ->. congruence.
      * intros r [c Hc]. rewrite lookup_insert_ne; [done|]. intros ->. congruence.
      * intros k r Hr. rewrite list_lookup_insert_ne; [by apply Hv|]. intros ->. apply Hv in Hr. congruence.
      * done.
      * done.
      * by rewrite list_lookup_insert_eq.
      * right. by rewrite lookup_insert_eq.
    + intros [= <- <-]. cbn [objects data_]. split_and!; try done.
      * intros k r Hr. by apply Hm, Hv'.
      * intros k r Hr. by apply Hv.
      * destruct (data_ m !! n) as [[r|]|] eqn:En; try done. apply Hv in En. congruence.
  - exfalso. apply lookup_ge_None in Ev. unfold v in Ev. rewrite length_app, length_replicate in Ev. lia.
Qed.

Lemma context_of_place fd m c : context_of fd m = Some c ↔
  0 <= fd <= kMaxTrackedFd ∧ ∃ p, data_ m !! Z.to_nat fd = Some (Some p) ∧ objects m !! p = Some c.
Proof.
  unfold context_of. destruct (_ || _) eqn:E.
  - split; [done|]. intros [H _]. apply orb_true_iff in E as [E%Z.ltb_lt|E%Z.ltb_lt]; lia.
  - apply orb_false_iff in E as [E0%Z.ltb_ge E1%Z.ltb_ge]. split.
    + destruct (data_ m !! Z.to_nat fd) as [[p|]|]; [|done..]. intros H. by split; [|exists p].
    + by intros (_&p&->&?).
Qed.

(** Looking up a context that is there. *)
Lemma get_found fd auto a m p :
  0 <= fd <= kMaxTrackedFd → data_ m !! Z.to_nat fd = Some (Some p) → get fd auto a m = (Some p, m).
Proof.
  intros Hfd Hp. unfold get. rewrite (proj2 (Z.ltb_ge fd 0)), (proj2 (Z.ltb_ge kMaxTrackedFd fd)) by lia.
  cbn [orb]. apply lookup_lt_Some in Hp as Hlt. rewrite (proj2 (Nat.leb_gt _ _)) by done. cbn [andb].
  replace (S (Z.to_nat fd) - length (data_ m))%nat with 0%nat by lia. cbn [replicate].
  rewrite app_nil_r, Hp. by destruct m.
Qed.

(** Changing the context of one descriptor. *)
Lemma update_context f fd p m c :
  keeps_fd f → table_ok m → data_ m !! Z.to_nat fd = Some (Some p) → objects m !! p = Some c →
  0 <= fd <= kMaxTrackedFd →
  context_of fd (update f p m) = Some (f c) ∧
  ∀ fd', fd' ≠ fd → context_of fd' (update f p m) = context_of fd' m.
Proof.
  intros Hf Hm Hp Hc Hfd. split.
  - apply context_of_place. split; [done|]. exists p. cbn [update data_ objects].
    by rewrite lookup_alter_eq, Hc.
  - intros fd' Hne. unfold context_of. destruct (_ || _) eqn:E; [done|]. cbn [update data_ objects].
    destruct (data_ m !! Z.to_nat fd') as [[q|]|] eqn:Eq; [|done..].
    rewrite lookup_alter_ne; [done|]. intros <-. apply orb_false_iff in E as [E0%Z.ltb_ge _].
    pose proof (table_ok_inj m _ _ p Hm Hp Eq). lia.
Qed.

(** Closing takes the context out of the table, marked, and touches no other. *)
Lemma del_spec fd m :
  table_ok m → table_ok (del fd m) ∧ (0 <= fd → context_of fd (del fd m) = None) ∧
  (∀ fd', fd' ≠ fd → context_of fd' (del fd m) = context_of fd' m) ∧
  (∀ p c, 0 <= fd → data_ m !! Z.to_nat fd = Some (Some p) → objects m !! p = Some c →
    objects (del fd m) !! p = Some (markClosed c)).
Proof.
  intros Hm. unfold del. destruct (Z.ltb_spec fd 0) as [Hn|Hn].
  { split_and!; [done|lia|done|]. intros. lia. }
  assert ((∀ p, data_ m !! Z.to_nat fd ≠ Some (Some p)) → context_of fd m = None) as Hnone.
  { intros H. unfold context_of. destruct (_ || _); [done|].
    destruct (data_ m !! Z.to_nat fd) as [[p|]|]; [|done..]. by destruct (H p). }
  destruct (data_ m !! Z.to_nat fd) as [[p|]|] eqn:Ep; try (split_and!; try done; by intros _; apply Hnone).
  destruct (Hm _ _ Ep) as (c&Hc&_). split_and!.
  - intros n q. cbn [data_ objects]. destruct (decide (n = Z.to_nat fd)) as [->|Hne].
    + by rewrite list_lookup_insert_eq by (by eapply lookup_lt_Some).
    + rewrite list_lookup_insert_ne by done. apply (update_ok _ _ _ keeps_markClosed Hm).
  - intros _. unfold context_of. destruct (_ || _); [done|]. cbn [data_].
    by rewrite list_lookup_insert_eq by (by eapply lookup_lt_Some).
  - intros fd' Hne. unfold context_of. destruct (_ || _) eqn:E; [done|]. cbn [data_ objects update].
    apply orb_false_iff in E as [E0%Z.ltb_ge _]. rewrite list_lookup_insert_ne by lia.
    destruct (data_ m !! Z.to_nat fd') as [[q|]|] eqn:Eq; [|done..].
    rewrite lookup_alter_ne; [done|]. intros <-. pose proof (table_ok_inj m _ _ p Hm Ep Eq). lia.
  - intros q d _ [= <-] Hd. cbn [objects update]. by rewrite lookup_alter_eq, Hd.
Qed.

(** The number of a closed descriptor can be reused at once: the context the
    next descriptor with this number gets is new, open and without the settings
    of the old one, while a call that still holds the old context keeps seeing it
    closed; no other descriptor is touched by either step. *)
Theorem reused_descriptor_is_separate fd a m p c q m' :
  table_ok m → 0 <= fd <= kMaxTrackedFd →
  data_ m !! Z.to_nat fd = Some (Some p) → objects m !! p = Some c →
  get fd true a (del fd m) = (Some q, m') →
  q ≠ p ∧ objects m' !! p = Some (markClosed c) ∧ context_of fd m' = Some (new_context fd a) ∧
  closed_ (new_context fd a) = false ∧
  (∀ fd', fd' ≠ fd → context_of fd' m ≠ None → context_of fd' m' = context_of fd' m).
Proof.
  intros Hm Hfd Hp Hc Hg. destruct (del_spec fd m Hm) as (Hd&Hnone&Hother&Hmark).
  destruct (get_spec _ _ _ _ _ _ Hd Hg) as (_&Hobj&Hdata&_&Hq&Hnew).
  pose proof (Hmark p c ltac:(lia) Hp Hc) as Hpc.
  destruct Hnew as [Hold|(_&Hfresh&Hnew)].
  { specialize (Hnone ltac:(lia)). unfold context_of in Hnone.
    rewrite (proj2 (Z.ltb_ge fd 0)), (proj2 (Z.ltb_ge kMaxTrackedFd fd)), Hold in Hnone by lia. cbn in Hnone.
    destruct (Hd _ _ Hold) as (?&?&_). congruence. }
  split_and!.
  - intros ->. congruence.
  - by rewrite Hobj by (by eexists).
  - apply context_of_place. by split; [|exists q].
  - apply new_context_open.
  - intros fd' Hne Hsome. rewrite <- Hother in Hsome |- * by done.
    destruct (context_of fd' (del fd m)) as [d|] eqn:E; [|done].
    apply context_of_place in E as (Hr&r&Hr1&Hr2). apply context_of_place. split; [done|].
    exists r. split; [by apply Hdata|]. by rewrite Hobj by (by eexists).
Qed.

(** What a successful [setsockopt] of a timeout does to the table. *)
Lemma setsockopt_context fd o tv_sec tv_usec len a m c :
  table_ok m → context_of fd m = Some c → o = SO_RCVTIMEO ∨ o = SO_SNDTIMEO → sizeof_timeval <= len →
  let m' := setsockopt 0 SOL_SOCKET o (Some (tv_sec, tv_usec)) len fd a m in
  table_ok m' ∧ context_of fd m' = Some (setTimeout o (timeval_ms tv_sec tv_usec) c) ∧
  (∀ fd', fd' ≠ fd → context_of fd' m' = context_of fd' m).
Proof.
  intros Hm Hc Ho Hlen. apply context_of_place in Hc as (Hfd&p&Hp&Hc). unfold setsockopt.
  assert ((0 =? 0) && (SOL_SOCKET =? SOL_SOCKET) && ((o =? SO_RCVTIMEO) || (o =? SO_SNDTIMEO)) &&
    (sizeof_timeval <=? len) = true) as ->.
  { rewrite (proj2 (Z.leb_le _ _)) by done. by destruct Ho as [-> | ->]. }
  rewrite (get_found fd false a m p) by done.
  pose proof (keeps_setTimeout o (timeval_ms tv_sec tv_usec)) as Hk.
  destruct (update_context _ fd p m c Hk Hm Hp Hc Hfd) as [Hsame Hother].
  split; [by apply update_ok|]. by split.
Qed.

(** The timeout a program sets on a socket is what the hooked calls on this
    socket wait for, in the direction of the option, rounded up to milliseconds,
    with a zero [timeval] for no limit; the other direction and the other
    descriptors keep theirs. *)
Theorem timeout_governs_calls fd o tv_sec tv_usec len a m c :
  table_ok m → context_of fd m = Some c → socket_ c = true → closed_ c = false →
  user_nonblock_ c = false → o = SO_RCVTIMEO ∨ o = SO_SNDTIMEO → sizeof_timeval <= len →
  let m' := setsockopt 0 SOL_SOCKET o (Some (tv_sec, tv_usec)) len fd a m in
  (∀ fn flags, has_flags fn && flag_set flags MSG_DONTWAIT = false →
    hooked_entry fn flags true true (context_of fd m') =
    Loop (if io_timeout_option fn =? o then timeval_ms tv_sec tv_usec
          else getTimeout (io_timeout_option fn) c)) ∧
  (∀ fd', fd' ≠ fd → context_of fd' m' = context_of fd' m).
Proof.
  intros Hm Hc Hs Hcl Hu Ho Hlen.
  destruct (setsockopt_context fd o tv_sec tv_usec len a m c Hm Hc Ho Hlen) as (_&Hsame&Hother). cbv zeta.
  split; [|done]. intros fn flags Hfl. unfold hooked_entry. rewrite Hfl, Hsame.
  assert (∀ t, DoIo_entry true true (Some (setTimeout o (timeval_ms tv_sec tv_usec) c)) t =
    Loop (getTimeout t (setTimeout o (timeval_ms tv_sec tv_usec) c))) as He.
  { intros t. unfold DoIo_entry. cbn [negb].
    assert (closed_ (setTimeout o (timeval_ms tv_sec tv_usec) c) = false ∧
      socket_ (setTimeout o (timeval_ms tv_sec tv_usec) c) = true ∧
      user_nonblock_ (setTimeout o (timeval_ms tv_sec tv_usec) c) = false) as (->&->&->); [|done].
    unfold setTimeout. destruct Ho as [-> | ->]; done. }
  destruct Ho as [-> | ->], fn; cbn [io_timeout_option]; by rewrite He.
Qed.

(** ** Witnesses *)

(** Descriptor 3 is a socket, and a second one has just been configured. *)
Definition socket_answer : fd_answer := mkAnswer true true (Some 2) true None None.
Definition sample_table : FdManager :=
  (get 3 true socket_answer no_contexts).2.

Lemma sample_table_ok : table_ok sample_table.
Proof.
  unfold sample_table. destruct (get 3 true socket_answer no_contexts) as [p m] eqn:E.
  by destruct (get_spec _ _ _ _ _ _ no_contexts_ok E) as [H _].
Qed.

Lemma reused_descriptor_is_separate_witness :
  context_of 3 (get 3 true socket_answer (del 3 sample_table)).2 = Some (new_context 3 socket_answer).
Proof.
  destruct (get 3 true socket_answer (del 3 sample_table)) as [q m'] eqn:E.
  destruct q as [q|]; [|vm_compute in E; discriminate E].
  destruct (reused_descriptor_is_separate 3 socket_answer sample_table 1 (new_context 3 socket_answer) q m')
    as (_&_&H&_); [exact sample_table_ok|vm_compute; split; discriminate|reflexivity|reflexivity|exact E|].
  exact H.
Defined.

Lemma timeout_governs_calls_witness :
  hooked_entry Recv 0 true true
    (context_of 3 (setsockopt 0 SOL_SOCKET SO_RCVTIMEO (Some (1, 500)) 16 3 socket_answer sample_table)) =
  Loop 1001.
Proof.
  apply (timeout_governs_calls 3 SO_RCVTIMEO 1 500 16 socket_answer sample_table
    (new_context 3 socket_answer) sample_table_ok eq_refl eq_refl eq_refl eq_refl (or_introl eq_refl)
    ltac:(vm_compute; discriminate)).
  reflexivity.
Defined.
End FdManagerProofs.
