(* ===== verification/Sockets.v ===== *)
(** [Socket] ([droplet/src/socket/socket.cc]): the object around a descriptor,
    over the system calls as the hooks wrap them.  The calls of the kernel are
    the class [Kernel]; the table of descriptor contexts is that of [Hook]. *)

From stdpp Require Import gmap.
From S2P Require Import Prelude Address Hook.
Import Address Hook.

Module Sockets.

Definition TCP : Z := 1.
Definition UDP : Z := 2.
Definition SO_REUSEADDR : Z := 2.
Definition SO_ERROR : Z := 4.
Definition IPPROTO_TCP : Z := 6.
Definition TCP_NODELAY : Z := 1.
Definition EAFNOSUPPORT : Z := 97.
Definition EINVAL : Z := 22.
Definition ENOTCONN : Z := 107.

(** The values of socket options the class handles. *)
Inductive sockopt := Int (value : Z) | Timeval (tv_sec tv_usec : Z).

(** The original system calls.  Those that may wait are whole calls, as [DoIo]
    and [connect_with_timeout] present them; addresses are memory. *)
Class Kernel (K : Type) := {
  k_errno : K → Z;
  k_set_errno : Z → K → K;
  k_answer : Z → K → fd_answer * K;
  k_socket : Z → Z → Z → K → Z * K;
  k_close : Z → K → Z * K;
  k_unlink : str → K → K;
  k_bind : Z → str → nat → K → Z * K;
  k_listen : Z → Z → K → Z * K;
  k_connect : Z → str → nat → Z → K → Z * K;
  k_accept : Z → K → Z * K;
  k_getpeername : Z → K → option str * K;
  k_getsockname : Z → K → option str * K;
  k_getsockopt : Z → Z → Z → K → option sockopt * K;
  k_setsockopt : Z → Z → Z → sockopt → K → Z * K;
  k_send : Z → str → Z → K → Z * K;
  k_sendmsg : Z → list str → option (str * nat) → Z → K → Z * K;
  k_sendto : Z → str → Z → str → nat → K → Z * K;
  k_recv : Z → nat → Z → K → Z * str * K;
  k_recvmsg : Z → list nat → nat → Z → K → Z * str * str * K;
  k_recvfrom : Z → nat → Z → nat → K → Z * str * str * K;
}.

(** The kernel and the table of the hooks. *)
Record sys (K : Type) := mkSys { kernel : K; fds : FdManager }.
Arguments mkSys {K}.
Arguments kernel {K}.
Arguments fds {K}.

Record Socket := mkSocket {
  socket_ : Z;
  family_ : Z;
  type_ : Z;
  protocol_ : Z;
  connected_ : bool;
  local_address_ : option Address;
  remote_address_ : option Address;
}.

Definition make (family type protocol : Z) : Socket :=
  mkSocket (-1) family type protocol false None None.

Definition set_fd (fd : Z) (s : Socket) : Socket :=
  mkSocket fd (family_ s) (type_ s) (protocol_ s) (connected_ s) (local_address_ s) (remote_address_ s).
Definition set_connected (b : bool) (s : Socket) : Socket :=
  mkSocket (socket_ s) (family_ s) (type_ s) (protocol_ s) b (local_address_ s) (remote_address_ s).
Definition set_local (a : option Address) (s : Socket) : Socket :=
  mkSocket (socket_ s) (family_ s) (type_ s) (protocol_ s) (connected_ s) a (remote_address_ s).
Definition set_remote (a : option Address) (s : Socket) : Socket :=
  mkSocket (socket_ s) (family_ s) (type_ s) (protocol_ s) (connected_ s) (local_address_ s) a.

Definition isValid (s : Socket) : bool := negb (socket_ s =? -1).

Section socket.
Context {K : Type} `{!Kernel K} (hook_enabled : bool).

(** A method: the object and the system are threaded through. *)
Definition M (A : Type) : Type := Socket → sys K → A * Socket * sys K.

#[global] Instance M_ret : MRet M := λ A x s w, (x, s, w).
#[global] Instance M_bind : MBind M := λ A B f m s w, let '(x, s, w) := m s w in f x s w.

Definition self : M Socket := λ s w, (s, s, w).
Definition modify (f : Socket → Socket) : M unit := λ s w, (tt, f s, w).
Definition call {A} (f : K → A * K) : M A :=
  λ s w, let '(x, k) := f (kernel w) in (x, s, mkSys k (fds w)).
Definition on_fds (f : FdManager → FdManager) : M unit := λ s w, (tt, s, mkSys (kernel w) (f (fds w))).
Definition set_errno (e : Z) : M unit := call (λ k, (tt, k_set_errno e k)).

(** ** The hooked calls *)

(** A context is only created with [auto_create], so no answer is needed. *)
Definition no_answer : fd_answer := mkAnswer false false None false None None.

(** [FdMgr::get(fd)] without creating a context. *)
Definition find_context (fd : Z) : M (option FdCtx) := λ s w,
  let '(p, m) := Hook.get fd false no_answer (fds w) in
  (match p with Some p => objects m !! p | None => None end, s, mkSys (kernel w) m).

(** [get(fd, true)] when the hooks are on: the kernel is only asked about a
    descriptor without a context. *)
Definition track_call (fd : Z) (user_nonblock : option bool) : M unit :=
  if hook_enabled && (0 <=? fd) then
    c ← find_context fd;
    a ← (match c with Some _ => mret no_answer | None => call (k_answer fd) end);
    on_fds (track hook_enabled fd user_nonblock a)
  else mret tt.

(** A hooked call that may wait; its context is looked up, or created, first. *)
Definition do_io {A} (fd flags : Z) (f : K → A * K) : M A :=
  _ ← (if flag_set flags MSG_DONTWAIT then mret tt else track_call fd None);
  call f.

Definition sys_socket (family type protocol : Z) : M Z :=
  fd ← call (k_socket family type protocol);
  _ ← track_call fd (Some (flag_set type SOCK_NONBLOCK));
  mret fd.

Definition sys_accept (fd : Z) : M Z :=
  r ← do_io fd 0 (k_accept fd);
  _ ← track_call r None;
  mret r.

Definition sys_close (fd : Z) : M Z :=
  _ ← on_fds (close_context fd no_answer);
  call (k_close fd).

Definition sys_setsockopt (fd level option_name : Z) (value : sockopt) : M Z :=
  r ← call (k_setsockopt fd level option_name value);
  _ ← on_fds (match value with
              | Timeval s u => Hook.setsockopt r level option_name (Some (s, u)) sizeof_timeval fd no_answer
              | Int _ => id
              end);
  mret r.

(** ** Options *)

Definition getOption (level option_name : Z) : M (option sockopt) :=
  s ← self;
  if socket_ s =? -1 then mret None else call (k_getsockopt (socket_ s) level option_name).

Definition setOption (level option_name : Z) (value : sockopt) : M bool :=
  s ← self;
  if socket_ s =? -1 then mret false
  else r ← sys_setsockopt (socket_ s) level option_name value; mret (r =? 0).

(** [getSendTimeout] and [getRecvTimeout]. *)
Definition getTimeout_of (option_name : Z) : M Z :=
  s ← self;
  c ← find_context (socket_ s);
  match c with
  | Some c =>
      let timeout := Hook.getTimeout option_name c in
      mret (if timeout =? u64_max then -1 else to_signed 64 timeout)
  | None =>
      v ← getOption SOL_SOCKET option_name;
      mret match v with
           | Some (Timeval s u) =>
               if (s =? 0) && (u =? 0) then -1 else to_signed 64 (wrap 64 (s * 1000 + Z.quot u 1000))
           | _ => -1
           end
  end.
Definition getSendTimeout : M Z := getTimeout_of SO_SNDTIMEO.
Definition getRecvTimeout : M Z := getTimeout_of SO_RCVTIMEO.

(** [setSendTimeout] and [setRecvTimeout]. *)
Definition setTimeout_of (option_name milliseconds : Z) : M unit :=
  let milliseconds := if milliseconds <? 0 then 0 else milliseconds in
  _ ← setOption SOL_SOCKET option_name
        (Timeval (Z.quot milliseconds 1000) (Z.rem milliseconds 1000 * 1000));
  mret tt.
Definition setSendTimeout : Z → M unit := setTimeout_of SO_SNDTIMEO.
Definition setRecvTimeout : Z → M unit := setTimeout_of SO_RCVTIMEO.

Definition getError : M Z :=
  v ← getOption SOL_SOCKET SO_ERROR;
  match v with Some (Int e) => mret e | _ => call (λ k, (k_errno k, k)) end.

(** ** Addresses *)

(** [getRemoteAddress] and [getLocalAddress]: the cached address or the answer of
    the kernel, which is cached when there is one. *)
Definition address_of (cached : Socket → option Address) (cache : option Address → Socket → Socket)
    (query : Z → K → option str * K) : M (option Address) :=
  s ← self;
  match cached s with
  | Some a => mret (Some a)
  | None =>
      if socket_ s =? -1 then mret None
      else
        answer ← call (query (socket_ s));
        match answer with
        | None => mret (Some (unknown_of_family (family_ s)))
        | Some memory =>
            let a := Create (Some memory) in
            _ ← modify (cache a); mret a
        end
  end.
Definition getRemoteAddress : M (option Address) := address_of remote_address_ set_remote k_getpeername.
Definition getLocalAddress : M (option Address) := address_of local_address_ set_local k_getsockname.

(** ** Life *)

Definition initSock : M unit :=
  _ ← setOption SOL_SOCKET SO_REUSEADDR (Int 1);
  s ← self;
  if type_ s =? TCP then _ ← setOption IPPROTO_TCP TCP_NODELAY (Int 1); mret tt else mret tt.

Definition newSock : M unit :=
  s ← self;
  if negb (socket_ s =? -1) then mret tt
  else
    fd ← sys_socket (family_ s) (type_ s) (protocol_ s);
    _ ← modify (set_fd fd);
    if negb (fd =? -1) then initSock else mret tt.

Definition init (fd : Z) : M bool :=
  if fd <? 0 then mret false
  else
    _ ← modify (λ s, set_connected true (set_fd fd s));
    _ ← track_call fd None;
    _ ← initSock;
    local ← getLocalAddress;
    _ ← modify (set_local local);
    remote ← getRemoteAddress;
    _ ← modify (set_remote remote);
    mret true.

Definition close : M bool :=
  s ← self;
  if socket_ s =? -1 then _ ← modify (set_connected false); mret true
  else
    r ← sys_close (socket_ s);
    _ ← modify (λ s, set_connected false (set_fd (-1) s));
    mret (r =? 0).

(** Running a method of another object in the same system. *)
Definition run_on {A} (other : Socket) (m : M A) : M (A * Socket) := λ s w,
  let '(x, other, w) := m other w in ((x, other), s, w).

Definition accept : M (option Socket) :=
  s ← self;
  if socket_ s =? -1 then _ ← set_errno EBADF; mret None
  else
    accepted ← sys_accept (socket_ s);
    if accepted =? -1 then mret None
    else
      r ← run_on (make (family_ s) (type_ s) (protocol_ s)) (init accepted);
      if r.1 : bool then mret (Some r.2)
      else _ ← sys_close accepted; mret None.

(** The file a Unix address names. *)
Definition unix_file (a : Address) : option str :=
  match a with
  | UnixAddress u _ _ =>
      if is_abstract (sun_path u) then None else Some (c_str (sun_path u))
  | _ => None
  end.

Definition bind (address : option Address) : M bool :=
  s ← self;
  match address with
  | None => _ ← set_errno EAFNOSUPPORT; mret false
  | Some a =>
      if negb (getFamily a =? family_ s) then _ ← set_errno EAFNOSUPPORT; mret false
      else
        _ ← (if socket_ s =? -1 then newSock else mret tt);
        s ← self;
        if socket_ s =? -1 then mret false
        else
          _ ← (if family_ s =? AF_UNIX
               then match unix_file a with
                    | Some path => call (λ k, (tt, k_unlink path k))
                    | None => mret tt
                    end
               else mret tt);
          r ← call (k_bind (socket_ s) (getAddr a) (getAddrLen a));
          if negb (r =? 0) then mret false
          else local ← getLocalAddress; _ ← modify (set_local local); mret true
  end.

Definition connect (address : option Address) (timeout_ms : Z) : M bool :=
  match address with
  | None => _ ← set_errno EINVAL; mret false
  | Some a =>
      _ ← modify (set_remote (Some a));
      s ← self;
      if negb (getFamily a =? family_ s) then _ ← set_errno EAFNOSUPPORT; mret false
      else
        _ ← (if socket_ s =? -1 then newSock else mret tt);
        s ← self;
        if socket_ s =? -1 then mret false
        else
          r ← do_io (socket_ s) 0 (k_connect (socket_ s) (getAddr a) (getAddrLen a) timeout_ms);
          if negb (r =? 0) then _ ← close; mret false
          else
            _ ← modify (set_connected true);
            remote ← getRemoteAddress; _ ← modify (set_remote remote);
            local ← getLocalAddress; _ ← modify (set_local local);
            mret true
  end.

Definition reconnect (timeout_ms : Z) : M bool :=
  s ← self;
  match remote_address_ s with
  | None => _ ← set_errno ENOTCONN; mret false
  | Some a =>
      _ ← modify (λ s, set_connected false (set_local None s));
      connect (Some a) timeout_ms
  end.

Definition listen (backlog : Z) : M bool :=
  s ← self;
  if socket_ s =? -1 then _ ← set_errno EBADF; mret false
  else r ← call (k_listen (socket_ s) backlog); mret (r =? 0).

(** ** Factories; the object is then the new one. *)

Definition CreateTCP (address : option Address) : option Socket :=
  a ← address; Some (make (getFamily a) TCP 0).

Definition CreateUDP (address : Address) : Socket := make (getFamily address) UDP 0.
Definition open_udp : M unit :=
  _ ← newSock; s ← self; modify (set_connected (isValid s)).

Definition CreateTCPSocket : Socket := make AF_INET TCP 0.
Definition CreateTCPSocket6 : Socket := make AF_INET6 TCP 0.
Definition CreateUnixTCPSocket : Socket := make AF_UNIX TCP 0.
Definition CreateUnixUDPSocket : Socket := make AF_UNIX UDP 0.

(** ** Transfers *)

Definition send (buffer : str) (flags : Z) : M Z :=
  s ← self; if socket_ s =? -1 then mret (-1) else do_io (socket_ s) flags (k_send (socket_ s) buffer flags).

Definition send_iov (buffers : list str) (flags : Z) : M Z :=
  s ← self;
  if socket_ s =? -1 then _ ← set_errno EBADF; mret (-1)
  else do_io (socket_ s) flags (k_sendmsg (socket_ s) buffers None flags).

Definition sendTo (buffer : str) (to : option Address) (flags : Z) : M Z :=
  s ← self;
  match to with
  | Some a =>
      if socket_ s =? -1 then _ ← set_errno EBADF; mret (-1)
      else do_io (socket_ s) flags (k_sendto (socket_ s) buffer flags (getAddr a) (getAddrLen a))
  | None => _ ← set_errno EBADF; mret (-1)
  end.

Definition sendTo_iov (buffers : list str) (to : option Address) (flags : Z) : M Z :=
  s ← self;
  match to with
  | Some a =>
      if socket_ s =? -1 then _ ← set_errno EBADF; mret (-1)
      else do_io (socket_ s) flags (k_sendmsg (socket_ s) buffers (Some (getAddr a, getAddrLen a)) flags)
  | None => _ ← set_errno EBADF; mret (-1)
  end.

(** A receive returns its result, the bytes, and the memory of the sender; the
    space for it is that of the address the caller passes. *)
Definition recv (length : nat) (flags : Z) : M (Z * str) :=
  s ← self; if socket_ s =? -1 then mret (-1, []) else do_io (socket_ s) flags (k_recv (socket_ s) length flags).

Definition recv_iov (lengths : list nat) (flags : Z) : M (Z * str) :=
  s ← self;
  if socket_ s =? -1 then _ ← set_errno EBADF; mret (-1, [])
  else r ← do_io (socket_ s) flags (k_recvmsg (socket_ s) lengths 0 flags); mret r.1.

Definition recvFrom (length : nat) (from : option Address) (flags : Z) : M (Z * str * str) :=
  s ← self;
  match from with
  | Some a =>
      if socket_ s =? -1 then _ ← set_errno EBADF; mret (-1, [], [])
      else do_io (socket_ s) flags (k_recvfrom (socket_ s) length flags (getAddrLen a))
  | None => _ ← set_errno EBADF; mret (-1, [], [])
  end.

Definition recvFrom_iov (lengths : list nat) (from : option Address) (flags : Z) : M (Z * str * str) :=
  s ← self;
  match from with
  | Some a =>
      if socket_ s =? -1 then _ ← set_errno EBADF; mret (-1, [], [])
      else do_io (socket_ s) flags (k_recvmsg (socket_ s) lengths (getAddrLen a) flags)
  | None => _ ← set_errno EBADF; mret (-1, [], [])
  end.
End socket.
End Sockets.
