(* ===== verification/SocketsProofs.v ===== *)
(** What [Socket] objects guarantee over any lawful kernel: every descriptor has
    one owner and is closed once, timeouts are read back as they were set, and
    the object keeps the promises streams rely on. *)

From stdpp Require Import gmap.
From S2P Require Import Prelude Totals Address Hook FdManagerProofs Sockets.
Import Totals Address Hook FdManagerProofs Sockets.

Module SocketsProofs.

(** ** What the kernel promises about descriptors *)

Class KernelLaws (K : Type) `{Kernel K} := {
  k_open : K → gset Z;
  socket_opens family type protocol k : let '(r, k') := k_socket family type protocol k in
    (r = -1 ∧ k_open k' = k_open k) ∨ (0 <= r ∧ r ∉ k_open k ∧ k_open k' = {[r]} ∪ k_open k);
  accept_opens fd k : let '(r, k') := k_accept fd k in
    (r = -1 ∧ k_open k' = k_open k) ∨ (0 <= r ∧ r ∉ k_open k ∧ k_open k' = {[r]} ∪ k_open k);
  close_closes fd k : k_open (k_close fd k).2 = k_open k ∖ {[fd]};
  set_errno_open e k : k_open (k_set_errno e k) = k_open k;
  answer_open fd k : k_open (k_answer fd k).2 = k_open k;
  unlink_open path k : k_open (k_unlink path k) = k_open k;
  bind_open fd a n k : k_open (k_bind fd a n k).2 = k_open k;
  listen_open fd b k : k_open (k_listen fd b k).2 = k_open k;
  connect_open fd a n t k : k_open (k_connect fd a n t k).2 = k_open k;
  getpeername_open fd k : k_open (k_getpeername fd k).2 = k_open k;
  getsockname_open fd k : k_open (k_getsockname fd k).2 = k_open k;
  getsockopt_open fd l o k : k_open (k_getsockopt fd l o k).2 = k_open k;
  setsockopt_open fd l o v k : k_open (k_setsockopt fd l o v k).2 = k_open k;
  send_open fd b fl k : k_open (k_send fd b fl k).2 = k_open k;
  sendmsg_open fd b a fl k : k_open (k_sendmsg fd b a fl k).2 = k_open k;
  sendto_open fd b fl a n k : k_open (k_sendto fd b fl a n k).2 = k_open k;
  recv_open fd n fl k : k_open (k_recv fd n fl k).2 = k_open k;
  recvmsg_open fd n c fl k : k_open (k_recvmsg fd n c fl k).2 = k_open k;
  recvfrom_open fd n fl c k : k_open (k_recvfrom fd n fl c k).2 = k_open k;
}.

Section ownership.
Context {K : Type} `{KernelLaws K} (hook_enabled : bool).
Implicit Types (s : Socket) (w : sys K) (F : gset Z).

(** The descriptor of an object; everything else that is open is its frame. *)
Definition held s : gset Z := if socket_ s =? -1 then ∅ else {[socket_ s]}.
Definition opened w : gset Z := k_open (kernel w).
Definition owns s F w : Prop := opened w = F ∪ held s ∧ held s ## F.

(** A method keeps the object the owner of its descriptor, in any frame. *)
Definition preserves {A} (m : M (K := K) A) : Prop :=
  ∀ s w F, owns s F w → let '(_, s', w') := m s w in owns s' F w'.

(** A method leaves descriptors alone. *)
Definition quiet {A} (m : M (K := K) A) : Prop :=
  ∀ s w, let '(_, s', w') := m s w in socket_ s' = socket_ s ∧ opened w' = opened w.

Lemma quiet_preserves {A} (m : M A) : quiet m → preserves m.
Proof.
  intros Hq s w F. specialize (Hq s w). destruct (m s w) as [[x s'] w']. destruct Hq as [E1 E2].
  unfold owns, held. by rewrite E1, E2.
Qed.

Lemma quiet_ret {A} (x : A) : quiet (mret x).
Proof. by intros s w. Qed.
Lemma quiet_bind {A B} (m : M A) (f : A → M B) : quiet m → (∀ x, quiet (f x)) → quiet (m ≫= f).
Proof.
  intros Hm Hf s w. specialize (Hm s w). unfold mbind, M_bind.
  destruct (m s w) as [[x s1] w1]. destruct Hm as [E1 E2]. specialize (Hf x s1 w1).
  destruct (f x s1 w1) as [[y s2] w2]. by rewrite <- E1, <- E2.
Qed.
Lemma preserves_bind {A B} (m : M A) (f : A → M B) :
  preserves m → (∀ x, preserves (f x)) → preserves (m ≫= f).
Proof.
  intros Hm Hf s w F Ho. specialize (Hm s w F Ho). unfold mbind, M_bind.
  destruct (m s w) as [[x s1] w1]. by apply Hf.
Qed.
Lemma quiet_self_bind {A} (f : Socket → M A) : (∀ s, quiet (f s)) → quiet (self ≫= f).
Proof. intros Hf. by apply quiet_bind. Qed.
Lemma quiet_call {A} (f : K → A * K) : (∀ k, k_open (f k).2 = k_open k) → quiet (call f).
Proof.
  intros Hf s w. unfold call. specialize (Hf (kernel w)). destruct (f (kernel w)) as [x k]. by split.
Qed.
Lemma quiet_modify f : (∀ s, socket_ (f s) = socket_ s) → quiet (modify f).
Proof. intros Hf s w. by split. Qed.
Lemma quiet_fds f : quiet (on_fds f).
Proof. by intros s w. Qed.
Lemma quiet_find fd : quiet (find_context fd).
Proof. intros s w. unfold find_context. by destruct (get fd false no_answer (fds w)). Qed.
Lemma quiet_errno e : quiet (set_errno e).
Proof. apply quiet_call. intros k. apply set_errno_open. Qed.

Create HintDb descriptors discriminated.
Hint Resolve quiet_ret quiet_fds quiet_find quiet_errno : descriptors.

(** The law of a system call that opens and closes nothing. *)
Ltac kernel_law :=
  intros;
  solve [apply answer_open | apply bind_open | apply listen_open | apply connect_open
        | apply getsockopt_open | apply setsockopt_open | apply send_open | apply sendmsg_open
        | apply sendto_open | apply recv_open | apply recvmsg_open | apply recvfrom_open
        | apply unlink_open | reflexivity].

(** Through the structure of a method down to its calls. *)
Ltac quietly :=
  repeat lazymatch goal with
    | |- ∀ _, _ => intros
    | |- quiet (let x := _ in _) => cbv zeta
    | |- quiet (mbind _ self) => apply quiet_self_bind; intros
    | |- quiet (mbind _ _) => apply quiet_bind
    | |- quiet (modify _) => apply quiet_modify; intros; reflexivity
    | |- quiet (call _) => apply quiet_call; kernel_law
    | |- quiet (if ?b then _ else _) => destruct b
    | |- quiet (match ?x with _ => _ end) => destruct x
    | |- quiet _ => solve [auto with descriptors nocore]
    end.

Lemma quiet_track fd b : quiet (track_call hook_enabled fd b).
Proof. unfold track_call. quietly. Qed.
Lemma quiet_do_io {A} fd flags (f : K → A * K) :
  (∀ k, k_open (f k).2 = k_open k) → quiet (do_io hook_enabled fd flags f).
Proof.
  intros Hf. unfold do_io. apply quiet_bind.
  - destruct (flag_set flags MSG_DONTWAIT); [apply quiet_ret|apply quiet_track].
  - intros _. by apply quiet_call.
Qed.
Hint Extern 1 (quiet (do_io _ _ _ _)) => apply quiet_do_io; kernel_law : descriptors.
Lemma quiet_setsockopt fd l o v : quiet (sys_setsockopt fd l o v).
Proof. unfold sys_setsockopt. quietly. Qed.
Hint Resolve quiet_track quiet_setsockopt : descriptors.
Lemma quiet_getOption l o : quiet (getOption l o).
Proof. unfold getOption. quietly. Qed.
Lemma quiet_setOption l o v : quiet (setOption l o v).
Proof. unfold setOption. quietly. Qed.
Hint Resolve quiet_getOption quiet_setOption : descriptors.
Lemma quiet_initSock : quiet initSock.
Proof. unfold initSock. quietly. Qed.
Lemma quiet_address cached cache query :
  (∀ a s, socket_ (cache a s) = socket_ s) → (∀ fd k, k_open (query fd k).2 = k_open k) →
  quiet (address_of cached cache query).
Proof.
  intros Hc Hq. unfold address_of. quietly.
  - apply quiet_call. intros k. apply Hq.
  - apply quiet_modify. intros. apply Hc.
Qed.
Lemma quiet_remote : quiet getRemoteAddress.
Proof. apply quiet_address; [done|]. intros. apply getpeername_open. Qed.
Lemma quiet_local : quiet getLocalAddress.
Proof. apply quiet_address; [done|]. intros. apply getsockname_open. Qed.
Hint Resolve quiet_initSock quiet_remote quiet_local : descriptors.

Lemma quiet_setTimeout_of o ms : quiet (setTimeout_of o ms).
Proof. unfold setTimeout_of. quietly. Qed.
Lemma quiet_getTimeout_of o : quiet (getTimeout_of o).
Proof. unfold getTimeout_of. quietly. Qed.
Lemma quiet_listen b : quiet (listen b).
Proof. unfold listen. quietly. Qed.

(** Taking and giving back a descriptor. *)
Lemma owns_none s F w : socket_ s = -1 → owns s F w ↔ opened w = F.
Proof.
  intros E. unfold owns, held. rewrite E, Z.eqb_refl. split; [intros [-> _]; set_solver|].
  intros ->. set_solver.
Qed.

Lemma owns_some s F w : socket_ s ≠ -1 → owns s F w ↔ opened w = {[socket_ s]} ∪ F ∧ socket_ s ∉ F.
Proof.
  intros E. unfold owns, held. rewrite (proj2 (Z.eqb_neq _ _)) by done. set_solver.
Qed.

Lemma preserves_newSock : preserves (newSock hook_enabled).
Proof.
  intros s w F Ho. unfold newSock, mbind, M_bind, self, mret, M_ret.
  destruct (negb (socket_ s =? -1)) eqn:E; [done|].
  apply negb_false_iff, Z.eqb_eq in E. apply (owns_none s F w E) in Ho.
  unfold sys_socket, call, mbind, M_bind, mret, M_ret.
  pose proof (socket_opens (family_ s) (type_ s) (protocol_ s) (kernel w)) as Hs.
  destruct (k_socket _ _ _ _) as [fd k]. cbn [modify].
  pose proof (quiet_track fd (Some (flag_set (type_ s) SOCK_NONBLOCK)) s (mkSys k (fds w))) as Ht.
  destruct (track_call _ _ _ s _) as [[x s1] w1]. destruct Ht as [E1 E2]. unfold opened in *. cbn [kernel] in E2.
  destruct Hs as [[-> Hk]|(Hfd&Hnew&Hk)].
  - cbn [Z.eqb negb]. apply owns_none; [done|]. unfold opened. congruence.
  - rewrite (proj2 (Z.eqb_neq fd (-1))) by lia. cbn [negb].
    apply (quiet_preserves _ quiet_initSock). apply owns_some; [cbn; lia|]. cbn [socket_ set_fd].
    unfold opened. rewrite E2, Hk, Ho in *. split; [done|]. congruence.
Qed.

Lemma preserves_close : preserves close.
Proof.
  intros s w F Ho. unfold close, mbind, M_bind, self, mret, M_ret. cbn [modify].
  destruct (Z.eqb_spec (socket_ s) (-1)) as [E|E]; [done|].
  apply (owns_some s F w E) in Ho as [Ho Hn].
  unfold sys_close, mbind, M_bind, on_fds, call. cbn [kernel].
  pose proof (close_closes (socket_ s) (kernel w)) as Hc. destruct (k_close _ _) as [r k]. cbn [snd] in Hc.
  apply owns_none; [done|]. unfold opened in *. cbn [kernel]. rewrite Hc, Ho. set_solver.
Qed.

Lemma preserves_bind_address a : preserves (bind hook_enabled a).
Proof.
  unfold bind. apply preserves_bind; [by apply quiet_preserves|]. intros s.
  destruct a as [a|]; [|apply quiet_preserves; quietly].
  destruct (negb (getFamily a =? family_ s)); [apply quiet_preserves; quietly|].
  apply preserves_bind.
  { destruct (socket_ s =? -1); [apply preserves_newSock|apply quiet_preserves, quiet_ret]. }
  intros _. apply quiet_preserves. quietly.
Qed.

Lemma preserves_connect a timeout : preserves (connect hook_enabled a timeout).
Proof.
  unfold connect. destruct a as [a|]; [|apply quiet_preserves; quietly].
  apply preserves_bind; [apply quiet_preserves; quietly|]. intros _.
  apply preserves_bind; [by apply quiet_preserves|]. intros s.
  destruct (negb (getFamily a =? family_ s)); [apply quiet_preserves; quietly|].
  apply preserves_bind.
  { destruct (socket_ s =? -1); [apply preserves_newSock|apply quiet_preserves, quiet_ret]. }
  intros _. apply preserves_bind; [by apply quiet_preserves|]. intros s'.
  destruct (socket_ s' =? -1); [apply quiet_preserves; quietly|].
  apply preserves_bind; [apply quiet_preserves; quietly|]. intros r.
  destruct (negb (r =? 0)); [|apply quiet_preserves; quietly].
  apply preserves_bind; [apply preserves_close|]. intros _. apply quiet_preserves, quiet_ret.
Qed.

Lemma preserves_reconnect timeout : preserves (reconnect hook_enabled timeout).
Proof.
  unfold reconnect. apply preserves_bind; [by apply quiet_preserves|]. intros s.
  destruct (remote_address_ s) as [a|]; [|apply quiet_preserves; quietly].
  apply preserves_bind; [apply quiet_preserves; quietly|]. intros _. apply preserves_connect.
Qed.

Lemma preserves_open_udp : preserves (open_udp hook_enabled).
Proof.
  unfold open_udp. apply preserves_bind; [apply preserves_newSock|]. intros _.
  apply quiet_preserves. quietly.
Qed.

(** What a method returns in the end. *)
Lemma returns_bind {A B} (m : M A) (f : A → M B) y :
  (∀ x s w, (f x s w).1.1 = y) → ∀ s w, ((m ≫= f) s w).1.1 = y.
Proof. intros Hf s w. unfold mbind, M_bind. destruct (m s w) as [[x s1] w1]. apply Hf. Qed.

(** [init] makes an object without a descriptor the owner of a new one. *)
Lemma init_owns fd s w :
  0 <= fd →
  let '(b, s', w') := init hook_enabled fd s w in b = true ∧ socket_ s' = fd ∧ opened w' = opened w.
Proof.
  intros Hfd. unfold init. rewrite (proj2 (Z.ltb_ge fd 0)) by done.
  set (s0 := set_connected true (set_fd fd s)).
  set (rest := (_ ← track_call hook_enabled fd None; _)).
  assert (quiet rest) as Hq by (unfold rest; quietly).
  assert (∀ s w, (rest s w).1.1 = true) as Ht by (intros; unfold rest; by repeat (apply returns_bind; intros)).
  specialize (Hq s0 w). specialize (Ht s0 w).
  change ((modify (λ s, set_connected true (set_fd fd s)) ≫= λ _, rest) s w) with (rest s0 w).
  destruct (rest s0 w) as [[b s'] w']. by split.
Qed.

(** [accept] keeps the listener, and a client owns its own descriptor. *)
Lemma accept_owns s w :
  let '(r, s', w') := accept hook_enabled s w in
  socket_ s' = socket_ s ∧
  match r with
  | Some n => socket_ n ≠ -1 ∧ socket_ n ∉ opened w ∧ opened w' = {[socket_ n]} ∪ opened w
  | None => opened w' = opened w
  end.
Proof.
  unfold accept, mbind at 1, M_bind at 1, self at 1.
  destruct (Z.eqb_spec (socket_ s) (-1)) as [E|E].
  { unfold set_errno, call, mbind, M_bind, mret, M_ret, opened. cbn [kernel]. by rewrite set_errno_open. }
  unfold sys_accept, do_io, mbind, M_bind, call. change (flag_set 0 MSG_DONTWAIT) with false. cbv iota.
  pose proof (quiet_track (socket_ s) None s w) as H0'.
  destruct (track_call _ (socket_ s) _ s w) as [[x0 s0] w0]. destruct H0' as [E0 Ew0].
  pose proof (accept_opens (socket_ s) (kernel w0)) as Ha.
  destruct (k_accept (socket_ s) (kernel w0)) as [fd k].
  pose proof (quiet_track fd None s0 (mkSys k (fds w0))) as Ht.
  destruct (track_call _ _ _ s0 _) as [[x s1] w1]. destruct Ht as [E1 E2]. unfold opened in *. cbn [kernel] in E2.
  unfold mret, M_ret. destruct Ha as [[-> Hk]|(Hfd&Hnew&Hk)].
  { cbn. split; congruence. }
  rewrite (proj2 (Z.eqb_neq fd (-1))) by lia.
  unfold run_on.
  pose proof (init_owns fd (make (family_ s) (type_ s) (protocol_ s)) w1 Hfd) as Hi.
  destruct (init hook_enabled fd _ w1) as [[b n] w2]. destruct Hi as (->&Hn&Hw2). cbn.
  unfold opened in Hw2. rewrite Hn, Hw2, E2, Hk, <- Ew0. split_and!; [congruence|lia|done|done].
Qed.

(** ** Many objects *)

(** The methods that work on their object alone. *)
Inductive own_method : ∀ A : Type, M (K := K) A → Prop :=
  | own_bind a : own_method bool (bind hook_enabled a)
  | own_connect a timeout : own_method bool (connect hook_enabled a timeout)
  | own_reconnect timeout : own_method bool (reconnect hook_enabled timeout)
  | own_listen backlog : own_method bool (listen backlog)
  | own_close : own_method bool close
  | own_open_udp : own_method unit (open_udp hook_enabled)
  | own_setOption l o v : own_method bool (setOption l o v)
  | own_getOption l o : own_method (option sockopt) (getOption l o)
  | own_setTimeout o ms : own_method unit (setTimeout_of o ms)
  | own_getTimeout o : own_method Z (getTimeout_of o)
  | own_getError : own_method Z getError
  | own_remote : own_method (option Address) getRemoteAddress
  | own_local : own_method (option Address) getLocalAddress
  | own_send b fl : own_method Z (send hook_enabled b fl)
  | own_send_iov b fl : own_method Z (send_iov hook_enabled b fl)
  | own_sendTo b a fl : own_method Z (sendTo hook_enabled b a fl)
  | own_sendTo_iov b a fl : own_method Z (sendTo_iov hook_enabled b a fl)
  | own_recv n fl : own_method (Z * str) (recv hook_enabled n fl)
  | own_recv_iov n fl : own_method (Z * str) (recv_iov hook_enabled n fl)
  | own_recvFrom n a fl : own_method (Z * str * str) (recvFrom hook_enabled n a fl)
  | own_recvFrom_iov n a fl : own_method (Z * str * str) (recvFrom_iov hook_enabled n a fl).

Lemma own_preserves A (m : M A) : own_method A m → preserves m.
Proof.
  destruct 1; try (apply quiet_preserves;
    unfold listen, setOption, getOption, setTimeout_of, getTimeout_of, getError, send, send_iov, sendTo,
      sendTo_iov, recv, recv_iov, recvFrom, recvFrom_iov; quietly; fail).
  - apply preserves_bind_address.
  - apply preserves_connect.
  - apply preserves_reconnect.
  - apply preserves_close.
  - apply preserves_open_udp.
Qed.

(** The objects of the program, the system, the descriptors of everything else. *)
Record heap := mkHeap { live : gmap positive Socket; system : sys K; foreign : gset Z }.

Definition owned (o : gmap positive Socket) (x : Z) : Prop :=
  ∃ p s, o !! p = Some s ∧ socket_ s = x ∧ x ≠ -1.

Inductive step (h : heap) : heap → Prop :=
  | step_make p family type protocol : live h !! p = None →
      step h (mkHeap (<[p := make family type protocol]> (live h)) (system h) (foreign h))
  | step_method A (m : M A) p s r s' w' : own_method A m → live h !! p = Some s →
      m s (system h) = (r, s', w') →
      step h (mkHeap (<[p := s']> (live h)) w' (foreign h))
  | step_accept p s q n s' w' : live h !! p = Some s → live h !! q = None →
      accept hook_enabled s (system h) = (Some n, s', w') →
      step h (mkHeap (<[q := n]> (<[p := s']> (live h))) w' (foreign h))
  | step_accept_failed p s s' w' : live h !! p = Some s →
      accept hook_enabled s (system h) = (None, s', w') →
      step h (mkHeap (<[p := s']> (live h)) w' (foreign h))
  | step_destroy p s r s' w' : live h !! p = Some s → close s (system h) = (r, s', w') →
      step h (mkHeap (delete p (live h)) w' (foreign h))
  | step_rest w' F' : (∀ x, x ∈ opened w' ↔ x ∈ F' ∨ owned (live h) x) →
      (∀ x, owned (live h) x → x ∉ F') → step h (mkHeap (live h) w' F').

Record heap_inv (h : heap) : Prop := {
  inv_open x : x ∈ opened (system h) ↔ x ∈ foreign h ∨ owned (live h) x;
  inv_foreign x : owned (live h) x → x ∉ foreign h;
  inv_unique p q s t : live h !! p = Some s → live h !! q = Some t →
    socket_ s = socket_ t → socket_ s ≠ -1 → p = q;
}.

Lemma elem_of_held x s : x ∈ held s ↔ socket_ s = x ∧ x ≠ -1.
Proof. unfold held. destruct (Z.eqb_spec (socket_ s) (-1)); set_solver. Qed.

(** An object and the rest of the heap. *)
Lemma inv_owns h p s :
  heap_inv h → live h !! p = Some s → owns s (opened (system h) ∖ held s) (system h).
Proof.
  intros Hi Hp. assert (held s ⊆ opened (system h)) as Hsub.
  { intros x [E Hx]%elem_of_held. apply (inv_open h Hi). right. by exists p, s. }
  split; [|set_solver]. apply set_eq. intros x. destruct (decide (x ∈ held s)); set_solver.
Qed.

(** Replacing an object whose method has kept the rest. *)
Lemma inv_update h p s s' w' :
  heap_inv h → live h !! p = Some s → owns s' (opened (system h) ∖ held s) w' →
  heap_inv (mkHeap (<[p := s']> (live h)) w' (foreign h)).
Proof.
  intros Hi Hp [Hw Hd].
  assert (∀ q t, q ≠ p → live h !! q = Some t → socket_ t ≠ -1 →
    socket_ t ∈ opened (system h) ∖ held s) as Hothers.
  { intros q t Hq Ht Hne. apply elem_of_difference. split.
    - apply (inv_open h Hi). right. by exists q, t.
    - intros [E _]%elem_of_held. apply Hq. by apply (inv_unique h Hi q p t s). }
  split; cbn [live system foreign].
  - intros x. rewrite Hw, elem_of_union, elem_of_difference, (inv_open h Hi), !elem_of_held. split.
    + intros [[[Hf|(q&t&Ht&E&Hx)] Hns]|[E Hx]].
      * by left.
      * right. exists q, t. split; [|done]. rewrite lookup_insert_ne; [done|]. intros <-. naive_solver.
      * right. exists p, s'. by rewrite lookup_insert_eq.
    + intros [Hf|(q&t&Ht&E&Hx)].
      * left. split; [by left|]. intros [E Hx]. apply (inv_foreign h Hi x); [|done]. by exists p, s.
      * destruct (decide (q = p)) as [->|Hq].
        -- rewrite lookup_insert_eq in Ht. injection Ht as ->. by right.
        -- rewrite lookup_insert_ne in Ht by done. left. subst x.
           pose proof (Hothers q t Hq Ht Hx) as Ho. rewrite elem_of_difference, elem_of_held in Ho.
           split; [|naive_solver]. right. by exists q, t.
  - intros x (q&t&Ht&E&Hx) Hf. destruct (decide (q = p)) as [->|Hq].
    + rewrite lookup_insert_eq in Ht. injection Ht as ->.
      assert (x ∈ opened (system h) ∖ held s) as Hin; [|set_solver by (by apply elem_of_held)].
      apply elem_of_difference. split; [apply (inv_open h Hi); by left|].
      intros [E' _]%elem_of_held. apply (inv_foreign h Hi x); [|done]. by exists p, s.
    + rewrite lookup_insert_ne in Ht by done. apply (inv_foreign h Hi x); [|done]. by exists q, t.
  - assert (∀ q t, q ≠ p → live h !! q = Some t → socket_ s' = socket_ t → socket_ s' ≠ -1 → False) as Hno.
    { intros q t Hq Ht E Hne. assert (socket_ t ≠ -1) as Hne' by congruence.
      pose proof (Hothers q t Hq Ht Hne') as Ho. rewrite <- E in Ho.
      assert (socket_ s' ∈ held s') by (by apply elem_of_held). set_solver. }
    intros q1 q2 t1 t2 H1 H2 E Hne.
    destruct (decide (q1 = p)) as [->|Hq1], (decide (q2 = p)) as [->|Hq2]; try done;
      rewrite ?lookup_insert_eq in *; rewrite ?lookup_insert_ne in * by done; simplify_eq.
    + by destruct (Hno q2 t2).
    + destruct (Hno q1 t1); try done; congruence.
    + by apply (inv_unique h Hi q1 q2 t1 t2).
Qed.

(** A new object, with or without a descriptor. *)
Lemma inv_insert o w w' F q n :
  heap_inv (mkHeap o w F) → o !! q = None →
  (socket_ n = -1 ∧ opened w' = opened w ∨
   socket_ n ≠ -1 ∧ socket_ n ∉ opened w ∧ opened w' = {[socket_ n]} ∪ opened w) →
  heap_inv (mkHeap (<[q := n]> o) w' F).
Proof.
  intros [H1 H2 H3] Hq Hn. cbn [live system foreign] in *.
  assert (∀ x, owned (<[q := n]> o) x ↔ owned o x ∨ (socket_ n = x ∧ x ≠ -1)) as Ho.
  { intros x. split.
    - intros (p&s&Hp&E&Hx). destruct (decide (p = q)) as [->|Hne].
      + rewrite lookup_insert_eq in Hp. injection Hp as ->. by right.
      + rewrite lookup_insert_ne in Hp by done. left. by exists p, s.
    - intros [(p&s&Hp&E&Hx)|[E Hx]].
      + exists p, s. split; [|done]. rewrite lookup_insert_ne; [done|]. intros <-. congruence.
      + exists q, n. by rewrite lookup_insert_eq. }
  assert (∀ p s, o !! p = Some s → socket_ s = socket_ n → socket_ s ≠ -1 → False) as Hno.
  { intros p s Hp E Hne. destruct Hn as [[En _]|(_&Hnew&_)]; [congruence|]. apply Hnew, H1. right.
    exists p, s. split_and!; [done|done|congruence]. }
  split; cbn [live system foreign].
  - intros x. rewrite Ho. destruct Hn as [[En ->]|(Hne&Hnew&->)]; [|set_solver].
    rewrite H1. split; [naive_solver|]. intros [?|[?|[E Hx]]]; [by left|by right|congruence].
  - intros x [Hx|[E Hx]]%Ho; [by apply H2|]. destruct Hn as [[En _]|(Hne&Hnew&_)]; [congruence|].
    intros Hf. apply Hnew, H1. left. by subst x.
  - intros p1 p2 s1 s2 Hp1 Hp2 E Hne.
    destruct (decide (p1 = q)) as [->|Hq1], (decide (p2 = q)) as [->|Hq2]; try done;
      rewrite ?lookup_insert_eq in *; rewrite ?lookup_insert_ne in * by done; simplify_eq.
    + exfalso. by apply (Hno p2 s2); [done|congruence|congruence].
    + exfalso. by apply (Hno p1 s1).
    + by apply (H3 p1 p2 s1 s2).
Qed.

Lemma inv_delete o w F p s :
  heap_inv (mkHeap o w F) → o !! p = Some s → socket_ s = -1 → heap_inv (mkHeap (delete p o) w F).
Proof.
  intros [H1 H2 H3] Hp Hs. cbn [live system foreign] in *.
  assert (∀ x, owned (delete p o) x ↔ owned o x) as Ho.
  { intros x. split; intros (q&t&Ht&E&Hx); exists q, t; (split; [|done]).
    - by apply lookup_delete_Some in Ht as [_ Ht].
    - rewrite lookup_delete_ne; [done|]. intros <-. congruence. }
  split; cbn [live system foreign].
  - intros x. by rewrite Ho.
  - intros x Hx%Ho. by apply H2.
  - intros q1 q2 t1 t2 Ht1 Ht2. apply lookup_delete_Some in Ht1 as [_ Ht1]. apply lookup_delete_Some in Ht2 as [_ Ht2].
    by apply (H3 q1 q2 t1 t2).
Qed.

Lemma close_closed s w : let '(_, s', _) := close s w in socket_ s' = -1.
Proof.
  unfold close, mbind, M_bind, self, modify, mret, M_ret.
  destruct (Z.eqb_spec (socket_ s) (-1)) as [E|E]; [by rewrite <- E|]. by destruct (sys_close (socket_ s) s w) as [[r s1] w1].
Qed.

Lemma step_heap_inv h h' : heap_inv h → step h h' → heap_inv h'.
Proof.
  intros Hi Hs. destruct Hs as [p fa ty pr Hp|A m p s r s' w' Hm Hp E|p s q n s' w' Hp Hq E|p s s' w' Hp E
    |p s r s' w' Hp E|w' F' H1 H2].
  - apply (inv_insert _ (system h)); [by destruct h|done|by left].
  - pose proof (own_preserves A m Hm s (system h) _ (inv_owns h p s Hi Hp)) as Ho. rewrite E in Ho.
    by apply (inv_update h p s).
  - pose proof (accept_owns s (system h)) as Ha. rewrite E in Ha. destruct Ha as (Es&Hn&Hnew&Hw).
    assert (heap_inv (mkHeap (<[p := s']> (live h)) (system h) (foreign h))) as Hi'.
    { apply (inv_update h p s); [done|done|]. destruct (inv_owns h p s Hi Hp) as [Ho1 Ho2].
      unfold owns, held in *. by rewrite Es. }
    apply (inv_insert _ (system h)); [done| |by right].
    rewrite lookup_insert_ne; [done|]. intros <-. congruence.
  - pose proof (accept_owns s (system h)) as Ha. rewrite E in Ha. destruct Ha as [Es Hw].
    apply (inv_update h p s); [done|done|]. destruct (inv_owns h p s Hi Hp) as [Ho1 Ho2].
    unfold owns, held in *. by rewrite Es, Hw.
  - pose proof (preserves_close s (system h) _ (inv_owns h p s Hi Hp)) as Ho. rewrite E in Ho.
    pose proof (close_closed s (system h)) as Hc. rewrite E in Hc.
    pose proof (inv_update h p s s' w' Hi Hp Ho) as Hi'.
    rewrite <- (delete_insert_eq (live h) p s').
    apply (inv_delete _ _ _ p s' Hi'); [apply lookup_insert_eq|done].
  - destruct Hi as [_ _ H3]. by split.
Qed.

Definition start (w : sys K) : heap := mkHeap ∅ w (opened w).

(** C22: whatever the program does with its sockets - creating, binding,
    connecting, accepting, failing, closing and destroying them in any order -
    every descriptor that is open belongs to exactly one object or was opened
    elsewhere: no two objects share one, none is closed that is not the
    object's own, and none is lost. *)
Theorem descriptors_conserved w h :
  rtc step (start w) h →
  (∀ p s, live h !! p = Some s → isValid s = true →
    socket_ s ∈ opened (system h) ∧ socket_ s ∉ foreign h) ∧
  (∀ p q s t, live h !! p = Some s → live h !! q = Some t → isValid s = true →
    socket_ s = socket_ t → p = q) ∧
  (∀ x, x ∈ opened (system h) → x ∈ foreign h ∨ ∃ p s, live h !! p = Some s ∧ socket_ s = x).
Proof.
  intros Hr. assert (heap_inv h) as Hi.
  { assert (heap_inv (start w)) as H1.
    { split; cbn [live system foreign start].
      - intros x. split; [by left|]. intros [?|(p&s&Hp&_)]; [done|]. by rewrite lookup_empty in Hp.
      - intros x (p&s&Hp&_). by rewrite lookup_empty in Hp.
      - intros p q s t Hp. by rewrite lookup_empty in Hp. }
    induction Hr as [|h1 h2 h3 H12 _ IH]; [done|]. by apply IH, (step_heap_inv h1). }
  assert (∀ s, isValid s = true → socket_ s ≠ -1) as Hv.
  { intros s. unfold isValid. by rewrite negb_true_iff, Z.eqb_neq. }
  split_and!.
  - intros p s Hp Hs. assert (owned (live h) (socket_ s)) as Ho by (exists p, s; auto).
    split; [apply (inv_open h Hi); by right|by apply (inv_foreign h Hi)].
  - intros p q s t Hp Hq Hs E. apply (inv_unique h Hi p q s t); auto.
  - intros x [Hx|(p&s&Hp&E&_)]%(inv_open h Hi); [by left|right; by exists p, s].
Qed.
End ownership.

(** ** Timeouts *)

Section timeouts.
Context {K : Type} `{!Kernel K} (hook_enabled : bool).

Lemma find_context_of fd s (w : sys K) c :
  context_of fd (fds w) = Some c → find_context fd s w = (Some c, s, w).
Proof.
  intros (Hfd&p&Hp&Hc)%context_of_place. unfold find_context. rewrite (get_found fd false _ _ p Hfd Hp), Hc.
  by destruct w.
Qed.

Lemma getTimeout_context o s (w : sys K) c :
  context_of (socket_ s) (fds w) = Some c →
  (getTimeout_of o s w).1.1 =
    (if getTimeout o c =? u64_max then -1 else to_signed 64 (getTimeout o c)).
Proof.
  intros Hc. unfold getTimeout_of, mbind, M_bind, self. by rewrite (find_context_of _ s w c Hc).
Qed.

(** Whole milliseconds survive the [timeval]. *)
Lemma timeval_of_ms ms : 0 < ms < 2 ^ 63 →
  timeval_ms (Z.quot ms 1000) (Z.rem ms 1000 * 1000) = ms.
Proof.
  intros H. rewrite Z.quot_div_nonneg, Z.rem_mod_nonneg by lia.
  pose proof (Z.div_mod ms 1000 ltac:(lia)) as Hd. pose proof (Z.mod_pos_bound ms 1000 ltac:(lia)) as Hb.
  assert (0 <= ms / 1000) by (apply Z.div_pos; lia). unfold timeval_ms.
  assert ((ms / 1000 =? 0) && (ms mod 1000 * 1000 =? 0) = false) as ->.
  { apply andb_false_iff. rewrite !Z.eqb_neq. lia. }
  rewrite (wrap_small 64 (ms / 1000)), (wrap_small 64 (_ + 999)), (wrap_small 64 (ms / 1000 * 1000)) by lia.
  rewrite Z.div_add_l, (Z.div_small 999) by lia. rewrite wrap_small; lia.
Qed.

(** A timeout set on a socket the hooks know is read back in milliseconds as
    it was set, with -1 for zero and negative numbers, which mean no limit; the
    timeout of the other direction stays as it was. *)
Theorem timeout_round_trip o ms s (w : sys K) c :
  table_ok (fds w) → context_of (socket_ s) (fds w) = Some c → o = SO_RCVTIMEO ∨ o = SO_SNDTIMEO →
  - 2 ^ 63 <= ms < 2 ^ 63 → (∀ v k, (k_setsockopt (socket_ s) SOL_SOCKET o v k).1 = 0) →
  let '(_, s', w') := setTimeout_of o ms s w in
  s' = s ∧ (getTimeout_of o s' w').1.1 = (if ms <=? 0 then -1 else ms) ∧
  ∀ o', o' ≠ o → (getTimeout_of o' s' w').1.1 = (getTimeout_of o' s w).1.1.
Proof.
  intros Hm Hc Ho Hms Hk. unfold setTimeout_of, setOption, sys_setsockopt, mbind, M_bind, self, call, on_fds, mret, M_ret.
  assert (socket_ s =? -1 = false) as ->.
  { apply Z.eqb_neq. apply context_of_place in Hc as [Hr _]. lia. }
  set (ms' := if ms <? 0 then 0 else ms).
  specialize (Hk (Timeval (Z.quot ms' 1000) (Z.rem ms' 1000 * 1000)) (kernel w)).
  destruct (k_setsockopt _ _ _ _ _) as [r k]. cbn [fst] in Hk. subst r. cbn [fds kernel].
  destruct (setsockopt_context (socket_ s) o (Z.quot ms' 1000) (Z.rem ms' 1000 * 1000) sizeof_timeval
    no_answer (fds w) c Hm Hc Ho ltac:(lia)) as (_&Hc'&_).
  split; [done|]. split.
  - erewrite getTimeout_context by (exact Hc').
    assert (∀ t, getTimeout o (setTimeout o t c) = t) as -> by (intros t; by destruct Ho as [-> | ->]).
    unfold ms'. destruct (Z.leb_spec ms 0), (Z.ltb_spec ms 0); try lia; try done.
    + assert (ms = 0) as -> by lia. done.
    + rewrite timeval_of_ms by lia. rewrite (proj2 (Z.eqb_neq ms u64_max)) by (unfold u64_max; lia).
      unfold to_signed. rewrite (proj2 (Z.ltb_lt ms _)); lia.
  - intros o' Hne. erewrite !getTimeout_context by done.
    assert (∀ t, getTimeout o' (setTimeout o t c) = getTimeout o' c) as ->; [|done].
    intros t. unfold getTimeout, setTimeout.
    destruct Ho as [-> | ->]; cbn; destruct (Z.eqb_spec o' SO_RCVTIMEO), (Z.eqb_spec o' SO_SNDTIMEO); congruence.
Qed.
End timeouts.

(** ** Connecting *)

Section connecting.
Context {K : Type} `{!Kernel K} (hook_enabled : bool).

(** A method that keeps what [f] sees of the object. *)
Definition keeps {A B} (f : Socket → B) (m : M (K := K) A) : Prop :=
  ∀ s w, let '(_, s', _) := m s w in f s' = f s.

Lemma keeps_bind {A B C} (f : Socket → C) (m : M A) (g : A → M B) :
  keeps f m → (∀ x, keeps f (g x)) → keeps f (m ≫= g).
Proof.
  intros Hm Hg s w. specialize (Hm s w). unfold mbind, M_bind. destruct (m s w) as [[x s1] w1].
  specialize (Hg x s1 w1). destruct (g x s1 w1) as [[y s2] w2]. congruence.
Qed.
Lemma keeps_call {A B} (f : Socket → B) (g : K → A * K) : keeps f (call g).
Proof. intros s w. unfold call. by destruct (g (kernel w)). Qed.
Lemma keeps_find {B} (f : Socket → B) fd : keeps f (find_context fd).
Proof. intros s w. unfold find_context. by destruct (get fd false no_answer (fds w)). Qed.
Lemma keeps_same {A B} (f : Socket → B) (g : sys K → A) (h : sys K → sys K) :
  keeps f (λ s w, (g w, s, h w)).
Proof. by intros s w. Qed.

Create HintDb kept discriminated.
Hint Resolve keeps_call keeps_find : kept.

Ltac kept :=
  repeat lazymatch goal with
    | |- ∀ _, _ => intros
    | |- keeps _ (mbind _ _) => apply keeps_bind
    | |- keeps _ (if ?b then _ else _) => destruct b
    | |- keeps _ (match ?x with _ => _ end) => destruct x
    | |- keeps _ _ => solve [auto with kept nocore | by intros ? ?]
    end.

(** Options do not change the object. *)
Lemma keeps_track {B} (f : Socket → B) fd b : keeps f (track_call hook_enabled fd b).
Proof. unfold track_call. kept. Qed.
Lemma keeps_initSock {B} (f : Socket → B) : keeps f initSock.
Proof. unfold initSock, setOption, sys_setsockopt. kept. Qed.
Hint Resolve keeps_track keeps_initSock : kept.

Lemma keeps_do_io {A B} (f : Socket → B) fd flags (g : K → A * K) : keeps f (do_io hook_enabled fd flags g).
Proof. unfold do_io. kept. Qed.

(** [newSock] only sets the descriptor. *)
Lemma keeps_newSock {B} (f : Socket → B) : (∀ fd s, f (set_fd fd s) = f s) → keeps f (newSock hook_enabled).
Proof.
  intros Hf. unfold newSock, sys_socket. kept.
  all: intros s w; apply Hf.
Qed.

Lemma address_cached cached cache query s (w : sys K) a :
  cached s = Some a → address_of cached cache query s w = (Some a, s, w).
Proof. intros E. unfold address_of, mbind, M_bind, self. by rewrite E. Qed.

(** What [connect] leaves behind.  On success the object is valid, connected
    and remembers the address it was given as that of the peer, of its own
    family.  A refused connection leaves no descriptor behind.  A local address
    known from before is kept: only [reconnect] asks for it again. *)
Theorem connect_outcome a timeout s w :
  let '(r, s', w') := connect hook_enabled (Some a) timeout s w in
  remote_address_ s' = Some a ∧ family_ s' = family_ s ∧
  (r = true → getFamily a = family_ s ∧ isValid s' = true ∧ connected_ s' = true) ∧
  (r = false → getFamily a = family_ s → isValid s' = false) ∧
  (∀ b, local_address_ s = Some b → local_address_ s' = Some b).
Proof.
  unfold connect. unfold mbind at 1, M_bind at 1, modify at 1.
  unfold mbind at 1, M_bind at 1, self at 1. set (s0 := set_remote (Some a) s).
  destruct (Z.eqb_spec (getFamily a) (family_ s0)) as [Ef|Ef]; cbn [negb].
  2: { unfold set_errno, mbind, M_bind, call, mret, M_ret. cbn. by split_and!. }
  set (opening := if socket_ s0 =? -1 then newSock hook_enabled else mret tt).
  assert (∀ B (f : Socket → B), (∀ fd s, f (set_fd fd s) = f s) → keeps f opening) as Hopen.
  { intros B f Hf. unfold opening. destruct (socket_ s0 =? -1); [by apply keeps_newSock|by intros ? ?]. }
  unfold mbind at 1, M_bind at 1.
  pose proof (Hopen _ remote_address_ ltac:(done) s0 w) as Hr. pose proof (Hopen _ family_ ltac:(done) s0 w) as Hf.
  pose proof (Hopen _ local_address_ ltac:(done) s0 w) as Hl.
  destruct (opening s0 w) as [[x s1] w1]. cbn [remote_address_ family_ local_address_ s0 set_remote] in *.
  unfold mbind at 1, M_bind at 1, self at 1.
  destruct (Z.eqb_spec (socket_ s1) (-1)) as [Es|Es].
  { unfold mret, M_ret. split_and!; try done; [intros _ _; unfold isValid; by rewrite Es|by rewrite Hl]. }
  unfold mbind at 1, M_bind at 1.
  pose proof (keeps_do_io (@id Socket) (socket_ s1) 0
    (k_connect (socket_ s1) (getAddr a) (getAddrLen a) timeout) s1 w1) as Hio.
  destruct (do_io _ _ _ _ s1 w1) as [[r s1'] w1']. cbn [id] in Hio. subst s1'.
  destruct (negb (r =? 0)).
  - unfold close, mbind, M_bind, self, mret, M_ret, modify. rewrite (proj2 (Z.eqb_neq _ _)) by done.
    pose proof (keeps_call id (k_close (socket_ s1))) as Hk.
    unfold sys_close, mbind, M_bind, on_fds, call. cbn [kernel].
    destruct (k_close _ _) as [r' k']. cbn. by rewrite Hr, Hf, Hl.
  - unfold mbind at 1, M_bind at 1, modify at 1. set (s2 := set_connected true s1).
    unfold mbind at 1, M_bind at 1, getRemoteAddress at 1.
    rewrite (address_cached _ _ _ s2 _ a) by done.
    unfold mbind at 1, M_bind at 1, modify at 1. set (s3 := set_remote (Some a) s2).
    unfold mbind at 1, M_bind at 1.
    assert (∀ B (f : Socket → B), (∀ b s, f (set_local b s) = f s) → keeps f getLocalAddress) as Hloc.
    { intros B f Hfl. unfold getLocalAddress, address_of. kept. intros ? ?. apply Hfl. }
    pose proof (Hloc _ remote_address_ ltac:(done) s3 w1') as L1.
    pose proof (Hloc _ family_ ltac:(done) s3 w1') as L2.
    pose proof (Hloc _ socket_ ltac:(done) s3 w1') as L3.
    pose proof (Hloc _ connected_ ltac:(done) s3 w1') as L4.
    destruct (getLocalAddress s3 _) as [[l s4] w4] eqn:El.
    unfold mbind, M_bind, modify, mret, M_ret. cbn [remote_address_ family_ connected_ local_address_ set_local].
    split_and!; try done.
    + by rewrite L2, <- Hf.
    + intros _. split; [done|]. unfold isValid. cbn [socket_ set_local]. rewrite L3. cbn [socket_ s3 s2 set_remote set_connected].
      split; [by rewrite (proj2 (Z.eqb_neq _ _))|by rewrite L4].
    + intros b Hb. unfold getLocalAddress in El. rewrite (address_cached _ _ _ s3 _ b) in El; [by injection El as <- _ _|].
      cbn. by rewrite Hl.
Qed.
End connecting.

(** ** A small kernel, and the witnesses *)

Record small := mkSmall { small_open : gset Z; small_next : Z; small_errno : Z; small_sent : str }.

Definition small_allocate (k : small) : Z * small :=
  if bool_decide (small_next k ∈ small_open k) || (small_next k <? 0) then (-1, k)
  else (small_next k,
        mkSmall ({[small_next k]} ∪ small_open k) (small_next k + 1) (small_errno k) (small_sent k)).
Definition small_send (data : str) (k : small) : Z * small :=
  (Z.of_nat (length (take 100 data)),
   mkSmall (small_open k) (small_next k) (small_errno k) (small_sent k ++ take 100 data)).

#[export] Instance small_kernel : Kernel small := {
  k_errno := small_errno;
  k_set_errno e k := mkSmall (small_open k) (small_next k) e (small_sent k);
  k_answer _ k := (mkAnswer true true (Some 2) true None None, k);
  k_socket _ _ _ := small_allocate;
  k_close fd k := (0, mkSmall (small_open k ∖ {[fd]}) (small_next k) (small_errno k) (small_sent k));
  k_unlink _ k := k;
  k_bind _ _ _ k := (0, k);
  k_listen _ _ k := (0, k);
  k_connect _ _ _ _ k := (0, k);
  k_accept _ := small_allocate;
  k_getpeername _ k := (None, k);
  k_getsockname _ k := (None, k);
  k_getsockopt _ _ _ k := (None, k);
  k_setsockopt _ _ _ _ k := (0, k);
  k_send _ data _ := small_send data;
  k_sendmsg _ data _ _ := small_send (mjoin data);
  k_sendto _ data _ _ _ := small_send data;
  k_recv _ _ _ k := (0, [], k);
  k_recvmsg _ _ _ _ k := (0, [], [], k);
  k_recvfrom _ _ _ _ k := (0, [], [], k);
}.

Lemma small_allocates k : let '(r, k') := small_allocate k in
  (r = -1 ∧ small_open k' = small_open k) ∨
  (0 <= r ∧ r ∉ small_open k ∧ small_open k' = {[r]} ∪ small_open k).
Proof.
  unfold small_allocate. destruct (_ || _) eqn:E; [by left|]. right.
  apply orb_false_iff in E as [E1%bool_decide_eq_false E2%Z.ltb_ge]. done.
Qed.

#[export] Program Instance small_laws : KernelLaws small := { k_open := small_open }.
Next Obligation. intros. apply small_allocates. Qed.
Next Obligation. intros. apply small_allocates. Qed.
Solve All Obligations with done.

Definition small_sys : sys small := mkSys (mkSmall {[0; 1; 2]} 3 0 []) no_contexts.
Definition localhost : Address := ipv4_of 2130706433 80.

(** A program that connects a socket. *)
Definition client : Socket := make AF_INET TCP 0.
Definition connected_client := connect true (Some localhost) u64_max client small_sys.

Lemma client_reachable :
  rtc (step true) (start small_sys)
    (mkHeap {[1%positive := connected_client.1.2]} connected_client.2 (opened small_sys)).
Proof.
  eapply rtc_l; [apply (step_make true _ 1 AF_INET TCP 0); reflexivity|].
  eapply rtc_l; [|apply rtc_refl].
  pose proof (step_method true (mkHeap {[1%positive := client]} small_sys (opened small_sys)) bool
    (connect true (Some localhost) u64_max) 1 client connected_client.1.1 connected_client.1.2 connected_client.2) as H.
  cbn [live system foreign] in H. rewrite insert_singleton_eq in H. apply H; [constructor|by rewrite lookup_singleton_eq|].
  assert (∀ x : bool * Socket * sys small, x = (x.1.1, x.1.2, x.2)) as Hx by (by intros [[]]). apply Hx.
Qed.

Lemma descriptors_conserved_witness :
  socket_ connected_client.1.2 = 3 ∧ 3 ∈ opened connected_client.2 ∧ 3 ∉ opened small_sys.
Proof.
  split; [vm_compute; reflexivity|].
  destruct (descriptors_conserved true small_sys _ client_reachable) as [H _].
  exact (H 1%positive connected_client.1.2 (lookup_singleton_eq _ _) eq_refl).
Defined.

(** The hooks know the socket, and its timeout is set. *)
Lemma timeout_round_trip_witness :
  let '(_, s, w) := setTimeout_of SO_RCVTIMEO 1500 connected_client.1.2 connected_client.2 in
  (getTimeout_of SO_RCVTIMEO s w).1.1 = 1500.
Proof.
  assert (table_ok (fds connected_client.2)) as Hm.
  { intros n p Hp. destruct n as [|[|[|[|n]]]]; try discriminate Hp.
    assert (p = 1%positive) as -> by (vm_compute in Hp; congruence).
    eexists. split; vm_compute; reflexivity. }
  pose proof (timeout_round_trip SO_RCVTIMEO 1500 connected_client.1.2 connected_client.2
    (new_context 3 (mkAnswer true true (Some 2) true None None)) Hm eq_refl (or_introl eq_refl)
    ltac:(lia) (λ v k, eq_refl)) as H.
  destruct (setTimeout_of _ _ _ _) as [[x s] w]. destruct H as (_&H&_). exact H.
Defined.
End SocketsProofs.
