(* ===== verification/SocketStreams.v ===== *)
(** The [Socket] object offers streams what they rely on: over a kernel whose
    transfers keep what [recv] and [send] document, it is an instance of the
    interface the streams, sessions and connections are proved against. *)

From stdpp Require Import gmap.
From S2P Require Import Prelude Stream Hook Address Sockets SocketsProofs.
Import Hook Sockets SocketsProofs.

Module SocketStreams.

(** The promises of the kernel about transfers; [k_sent] is everything it has been
    handed through the object's descriptor. *)
Class TransferLaws (K : Type) `{Kernel K} := {
  k_sent : K → str;
  recv_law fd n fl k : let '(r, data, k') := k_recv fd n fl k in
    -1 <= r <= Stream.transfer_max ∧ k_sent k' = k_sent k ∧
    (length data ≤ n)%nat ∧ (r <= 0 → data = []) ∧ (0 < r → r = Z.of_nat (length data));
  recvmsg_law fd ns c fl k : let '(r, data, _, k') := k_recvmsg fd ns c fl k in
    -1 <= r <= Stream.transfer_max ∧ k_sent k' = k_sent k ∧
    (length data ≤ sum_list ns)%nat ∧ (r <= 0 → data = []) ∧ (0 < r → r = Z.of_nat (length data));
  send_law fd data fl k : let '(r, k') := k_send fd data fl k in
    -1 <= r <= Stream.transfer_max ∧ r <= Z.of_nat (length data) ∧
    k_sent k' = k_sent k ++ take (Z.to_nat r) data;
  sendmsg_law fd bs a fl k : let '(r, k') := k_sendmsg fd bs a fl k in
    -1 <= r <= Stream.transfer_max ∧ r <= Z.of_nat (length (mjoin bs)) ∧
    k_sent k' = k_sent k ++ take (Z.to_nat r) (mjoin bs);
  set_errno_sent e k : k_sent (k_set_errno e k) = k_sent k;
  close_sent fd k : k_sent (k_close fd k).2 = k_sent k;
  answer_sent fd k : k_sent (k_answer fd k).2 = k_sent k;
}.

Section object.
Context {K : Type} `{TransferLaws K} (hook_enabled : bool).

(** An object in its system. *)
Record object := mkObject { socket : Socket; system : sys K }.

Definition run {A} (m : M (K := K) A) (o : object) : A * object :=
  let '(x, s, w) := m (socket o) (system o) in (x, mkObject s w).

(** The addresses of a stream: none without an object, and their texts. *)
Definition on_stream {A} (d : A) (m : M (K := K) A) (st : @Stream.SocketStream object)
    : A * @Stream.SocketStream object :=
  match Stream.socket_ st with
  | None => (d, st)
  | Some o => let '(x, o) := run m o in (x, Stream.set_socket o st)
  end.
Definition getRemoteAddress := on_stream None Sockets.getRemoteAddress.
Definition getLocalAddress := on_stream None Sockets.getLocalAddress.

Definition address_text (inet_ntop : Z → str → option str) (a : option Address.Address) : str :=
  match a with Some a => Address.insert inet_ntop a | None => [] end.
Definition getRemoteAddressString inet_ntop st :=
  let '(a, st) := getRemoteAddress st in (address_text inet_ntop a, st).
Definition getLocalAddressString inet_ntop st :=
  let '(a, st) := getLocalAddress st in (address_text inet_ntop a, st).

Definition sent_by (o : object) : str := k_sent (kernel (system o)).

#[export] Instance object_socket : Stream.Socket object := {
  Stream.isConnected o := connected_ (socket o);
  Stream.recv n o := run (recv hook_enabled n 0) o;
  Stream.recv_iov ns o := run (recv_iov hook_enabled ns 0) o;
  Stream.send data o := run (send hook_enabled data 0) o;
  Stream.send_iov bs o := run (send_iov hook_enabled bs 0) o;
  Stream.close_socket o := (run close o).2;
  Stream.errno o := k_errno (kernel (system o));
  Stream.set_errno e o := (run (set_errno e) o).2;
}.

(** Looking up the context of the descriptor sends nothing. *)
Lemma do_io_kernel {A} fd flags (f : K → A * K) s w :
  ∃ k m, k_sent k = k_sent (kernel w) ∧
    do_io hook_enabled fd flags f s w = ((f k).1, s, mkSys (f k).2 m).
Proof.
  unfold do_io, mbind, M_bind, mret, M_ret, call.
  destruct (flag_set flags MSG_DONTWAIT).
  { exists (kernel w), (fds w). by destruct (f (kernel w)). }
  unfold track_call, find_context, on_fds, call, mbind, M_bind, mret, M_ret.
  destruct (hook_enabled && (0 <=? fd)).
  2: { exists (kernel w), (fds w). by destruct (f (kernel w)). }
  destruct (get fd false no_answer (fds w)) as [p m].
  destruct (match p with Some p => objects m !! p | None => None end).
  { eexists (kernel w), _. split; [done|]. cbn [kernel fds]. by destruct (f (kernel w)). }
  cbn [kernel fds]. pose proof (answer_sent fd (kernel w)) as Ha.
  destruct (k_answer fd (kernel w)) as [a k]. eexists k, _. split; [exact Ha|].
  cbn [kernel fds]. by destruct (f k).
Qed.

Lemma object_recv n o : let '(r, data, o') := run (recv hook_enabled n 0) o in
  -1 <= r <= Stream.transfer_max ∧ sent_by o' = sent_by o ∧
  (length data ≤ n)%nat ∧ (r <= 0 → data = []) ∧ (0 < r → r = Z.of_nat (length data)).
Proof.
  unfold run, recv, mbind, M_bind, self, mret, M_ret, sent_by.
  destruct (socket_ (socket o) =? -1); [cbn; unfold Stream.transfer_max; split_and!; (done || lia)|].
  destruct (do_io_kernel (socket_ (socket o)) 0 (k_recv (socket_ (socket o)) n 0) (socket o) (system o))
    as (k0&m0&Ek&->).
  pose proof (recv_law (socket_ (socket o)) n 0 k0) as Hk. rewrite <- Ek.
  by destruct (k_recv (socket_ (socket o)) n 0 k0) as [[r data] k].
Qed.

Lemma object_recv_iov ns o : let '(r, data, o') := run (recv_iov hook_enabled ns 0) o in
  -1 <= r <= Stream.transfer_max ∧ sent_by o' = sent_by o ∧
  (length data ≤ sum_list ns)%nat ∧ (r <= 0 → data = []) ∧ (0 < r → r = Z.of_nat (length data)).
Proof.
  unfold run, recv_iov, mbind, M_bind, self, mret, M_ret, set_errno, sent_by.
  destruct (socket_ (socket o) =? -1).
  { cbn. rewrite set_errno_sent. unfold Stream.transfer_max. split_and!; (done || lia). }
  destruct (do_io_kernel (socket_ (socket o)) 0 (k_recvmsg (socket_ (socket o)) ns 0 0) (socket o) (system o))
    as (k0&m0&Ek&->).
  pose proof (recvmsg_law (socket_ (socket o)) ns 0 0 k0) as Hk. rewrite <- Ek.
  by destruct (k_recvmsg (socket_ (socket o)) ns 0 0 k0) as [[[r data] a] k].
Qed.

Lemma object_send data o : let '(r, o') := run (send hook_enabled data 0) o in
  -1 <= r <= Stream.transfer_max ∧ r <= Z.of_nat (length data) ∧
  sent_by o' = sent_by o ++ take (Z.to_nat r) data.
Proof.
  unfold run, send, mbind, M_bind, self, mret, M_ret, sent_by.
  destruct (socket_ (socket o) =? -1).
  { cbn. rewrite app_nil_r. unfold Stream.transfer_max. split_and!; (done || lia). }
  destruct (do_io_kernel (socket_ (socket o)) 0 (k_send (socket_ (socket o)) data 0) (socket o) (system o))
    as (k0&m0&Ek&->).
  pose proof (send_law (socket_ (socket o)) data 0 k0) as Hk. rewrite <- Ek.
  by destruct (k_send (socket_ (socket o)) data 0 k0) as [r k].
Qed.

Lemma object_send_iov bs o : let '(r, o') := run (send_iov hook_enabled bs 0) o in
  -1 <= r <= Stream.transfer_max ∧ r <= Z.of_nat (length (mjoin bs)) ∧
  sent_by o' = sent_by o ++ take (Z.to_nat r) (mjoin bs).
Proof.
  unfold run, send_iov, mbind, M_bind, self, mret, M_ret, set_errno, sent_by.
  destruct (socket_ (socket o) =? -1).
  { cbn. rewrite set_errno_sent, app_nil_r. unfold Stream.transfer_max. split_and!; (done || lia). }
  destruct (do_io_kernel (socket_ (socket o)) 0 (k_sendmsg (socket_ (socket o)) bs None 0) (socket o) (system o))
    as (k0&m0&Ek&->).
  pose proof (sendmsg_law (socket_ (socket o)) bs None 0 k0) as Hk. rewrite <- Ek.
  by destruct (k_sendmsg (socket_ (socket o)) bs None 0 k0) as [r k].
Qed.

Lemma object_close o : sent_by (run close o).2 = sent_by o.
Proof.
  unfold run, close, sys_close, mbind, M_bind, self, mret, M_ret, modify, on_fds, call, sent_by.
  destruct (socket_ (socket o) =? -1); [done|]. cbn [kernel].
  pose proof (close_sent (socket_ (socket o)) (kernel (system o))) as Hk. by destruct (k_close _ _) as [r k].
Qed.

(** The interface is discharged: what is proved of streams, sessions and
    connections over lawful sockets holds over these objects. *)
#[export] Program Instance object_laws : Stream.SocketLaws object := {
  Stream.sent := sent_by;
  Stream.recv_result := object_recv;
  Stream.recv_iov_result := object_recv_iov;
  Stream.send_result := object_send;
  Stream.send_iov_result := object_send_iov;
  Stream.close_sent := object_close;
}.
Next Obligation. intros e o. apply set_errno_sent. Qed.
End object.
End SocketStreams.
