(* ===== verification/StringUtils.v ===== *)
(** [StringUtils] ([droplet/src/utils/string_utils.cc]): the conversions between
    UTF-8 and the wide strings of the platform, which hold UTF-16 or UTF-32, and
    the trimming of texts. *)

From S2P Require Import Prelude.

Module StringUtils.

(** ** Code points *)

Definition MAX_UNICODE_CODE_POINT : Z := 0x10FFFF.
Definition HIGH_SURROGATE_FIRST : Z := 0xD800.
Definition HIGH_SURROGATE_LAST : Z := 0xDBFF.
Definition LOW_SURROGATE_FIRST : Z := 0xDC00.
Definition LOW_SURROGATE_LAST : Z := 0xDFFF.

Definition IsHighSurrogate (value : Z) : bool :=
  (HIGH_SURROGATE_FIRST <=? value) && (value <=? HIGH_SURROGATE_LAST).
Definition IsLowSurrogate (value : Z) : bool :=
  (LOW_SURROGATE_FIRST <=? value) && (value <=? LOW_SURROGATE_LAST).

(** The bytes [AppendUtf8] pushes back. *)
Definition AppendUtf8 (code_point : Z) : str :=
  if code_point <=? 0x7F then [chr code_point]
  else if code_point <=? 0x7FF then
    [chr (Z.lor 0xC0 (Z.shiftr code_point 6));
     chr (Z.lor 0x80 (Z.land code_point 0x3F))]
  else if code_point <=? 0xFFFF then
    [chr (Z.lor 0xE0 (Z.shiftr code_point 12));
     chr (Z.lor 0x80 (Z.land (Z.shiftr code_point 6) 0x3F));
     chr (Z.lor 0x80 (Z.land code_point 0x3F))]
  else
    [chr (Z.lor 0xF0 (Z.shiftr code_point 18));
     chr (Z.lor 0x80 (Z.land (Z.shiftr code_point 12) 0x3F));
     chr (Z.lor 0x80 (Z.land (Z.shiftr code_point 6) 0x3F));
     chr (Z.lor 0x80 (Z.land code_point 0x3F))].

(** The loop over the continuation bytes: the code point, or a failure. *)
Fixpoint continuations (count : nat) (text : str) (offset : nat) (code_point : Z) : option Z * nat :=
  match count with
  | O => (Some code_point, offset)
  | S count =>
      let continuation := code (nth offset text x00) in
      let offset := (offset + 1)%nat in
      if negb (Z.land continuation 0xC0 =? 0x80) then (None, offset)
      else
        continuations count text offset
          (Z.lor (wrap 32 (Z.shiftl code_point 6)) (Z.land continuation 0x3F))
  end.

(** Bits of the first byte, least code point, continuation bytes. *)
Definition first_byte (first : Z) : option (Z * Z * nat) :=
  if (0xC2 <=? first) && (first <=? 0xDF) then Some (Z.land first 0x1F, 0x80, 1%nat)
  else if (0xE0 <=? first) && (first <=? 0xEF) then Some (Z.land first 0x0F, 0x800, 2%nat)
  else if (0xF0 <=? first) && (first <=? 0xF4) then Some (Z.land first 0x07, 0x10000, 3%nat)
  else None.

(** The code point at an offset inside the text, and the offset left behind. *)
Definition DecodeUtf8CodePoint (text : str) (offset : nat) : option Z * nat :=
  let first := code (nth offset text x00) in
  let offset := (offset + 1)%nat in
  if first <=? 0x7F then (Some first, offset)
  else
    match first_byte first with
    | None => (None, offset)
    | Some (code_point, minimum_code_point, continuation_count) =>
        if (length text - offset <? continuation_count)%nat then (None, offset)
        else
          match continuations continuation_count text offset code_point with
          | (None, offset) => (None, offset)
          | (Some code_point, offset) =>
              if (code_point <? minimum_code_point) || (MAX_UNICODE_CODE_POINT <? code_point) ||
                 IsHighSurrogate code_point || IsLowSurrogate code_point
              then (None, offset) else (Some code_point, offset)
          end
    end.

(** ** Wide strings *)

(** [utf16] is [sizeof(wchar_t) == 2], otherwise it is 4.  [None] is a failed
    assertion, behind which a release build returns an empty string. *)
Section wide.
Context (utf16 : bool).

Definition wchar_bits : Z := if utf16 then 16 else 32.

Fixpoint encode_loop (text : list Z) (result : str) : option str :=
  match text with
  | [] => Some result
  | code_point :: text =>
      if utf16 then
        if IsHighSurrogate code_point then
          match text with
          | [] => None
          | low_surrogate :: text =>
              if negb (IsLowSurrogate low_surrogate) then None
              else
                encode_loop text (result ++ AppendUtf8
                  (0x10000 + Z.shiftl (code_point - HIGH_SURROGATE_FIRST) 10 +
                   (low_surrogate - LOW_SURROGATE_FIRST)))
          end
        else if IsLowSurrogate code_point then None
        else encode_loop text (result ++ AppendUtf8 code_point)
      else if (code_point <=? MAX_UNICODE_CODE_POINT) && negb (IsHighSurrogate code_point) &&
              negb (IsLowSurrogate code_point)
      then encode_loop text (result ++ AppendUtf8 code_point)
      else None
  end.

(** A wide string is the list of its characters as unsigned numbers. *)
Definition WStringToString (text : list Z) : option str := encode_loop text [].

(** The characters a code point becomes. *)
Definition push_wide (code_point : Z) : list Z :=
  if utf16 then
    if code_point <=? 0xFFFF then [code_point]
    else
      let code_point := code_point - 0x10000 in
      [HIGH_SURROGATE_FIRST + Z.shiftr code_point 10; LOW_SURROGATE_FIRST + Z.land code_point 0x3FF]
  else [code_point].

(** Each round consumes a byte, so the length of the text is enough fuel. *)
Fixpoint decode_loop (fuel : nat) (text : str) (offset : nat) (result : list Z) : option (list Z) :=
  match fuel with
  | O => Some result
  | S fuel =>
      if negb (offset <? length text)%nat then Some result
      else
        match DecodeUtf8CodePoint text offset with
        | (None, _) => None
        | (Some code_point, offset) => decode_loop fuel text offset (result ++ push_wide code_point)
        end
  end.

Definition StringToWString (text : str) : option (list Z) :=
  decode_loop (length text) text 0 [].
End wide.

(** ** Trimming *)

Definition ASCII_WHITESPACE : str := [x20; x09; x0a; x0d; x0c; x0b].

Definition is_one_of (delimiters : str) (b : byte) : bool := existsb (Byte.eqb b) delimiters.

Fixpoint find_first_not_of (delimiters text : str) : option nat :=
  match text with
  | [] => None
  | b :: text => if is_one_of delimiters b then S <$> find_first_not_of delimiters text else Some 0%nat
  end.
Fixpoint find_last_not_of (delimiters text : str) : option nat :=
  match text with
  | [] => None
  | b :: text =>
      match find_last_not_of delimiters text with
      | Some i => Some (S i)
      | None => if is_one_of delimiters b then None else Some 0%nat
      end
  end.

Definition Trim (text delimiters : str) : str :=
  match find_first_not_of delimiters text with
  | None => []
  | Some begin =>
      let end_ := default 0%nat (find_last_not_of delimiters text) in
      substr text begin (end_ - begin + 1)
  end.
Definition TrimLeft (text delimiters : str) : str :=
  match find_first_not_of delimiters text with
  | None => []
  | Some begin => drop begin text
  end.
Definition TrimRight (text delimiters : str) : str :=
  match find_last_not_of delimiters text with
  | None => []
  | Some end_ => substr text 0 (end_ + 1)
  end.
End StringUtils.
