(* ===== verification/StringUtilsProofs.v ===== *)
(** What [StringUtils] guarantees: the two conversions are inverse to each other
    and accept exactly the well-formed texts, and trimming removes exactly the
    delimiters at the ends. *)

From S2P Require Import Prelude HeaderText StringUtils.
Import HeaderText StringUtils.

Module StringUtilsProofs.

(** ** Bits *)

Lemma lor_add a n x : 0 <= n → 0 <= x < 2 ^ n → Z.lor (a * 2 ^ n) x = a * 2 ^ n + x.
Proof.
  intros Hn Hx. assert (Z.land (a * 2 ^ n) x = 0) as E.
  { apply Z.bits_inj'. intros i Hi. rewrite Z.land_spec, Z.bits_0.
    destruct (Z.lt_ge_cases i n) as [Hl|Hl]; [by rewrite Z.mul_pow2_bits_low|].
    rewrite <- (Z.mod_small x (2 ^ n)) by done.
    rewrite Z.mod_pow2_bits_high by lia. apply andb_false_r. }
  rewrite Z.add_nocarry_lxor by done. by rewrite Z.lxor_lor.
Qed.

Lemma shiftl_lor6 a x : 0 <= x < 64 → Z.lor (a * 64) x = a * 64 + x.
Proof. intros. by apply (lor_add a 6). Qed.

(** A continuation byte, and the value of bytes behind a first one. *)
Definition continuation (b : byte) : Prop := 128 <= code b < 192.
Definition more (cp : Z) (b : byte) : Z := cp * 64 + (code b - 128).

Definition is_continuation (b : byte) : bool := (128 <=? code b) && (code b <? 192).
Lemma is_continuation_spec b : is_continuation b = true ↔ continuation b.
Proof. unfold is_continuation, continuation. rewrite andb_true_iff, Z.leb_le, Z.ltb_lt. done. Qed.

Lemma continuation_bits b : (Z.land (code b) 0xC0 =? 0x80) = is_continuation b.
Proof. by destruct b. Qed.
Lemma continuation_low b : continuation b → Z.land (code b) 0x3F = code b - 128.
Proof.
  rewrite <- is_continuation_spec. intros H.
  assert (negb (is_continuation b) || (Z.land (code b) 0x3F =? code b - 128) = true) as E
    by (by destruct b).
  rewrite H in E. by apply Z.eqb_eq.
Qed.

Lemma first_byte_spec b :
  first_byte (code b) =
  (if (0xC2 <=? code b) && (code b <=? 0xDF) then Some (code b - 192, 0x80, 1%nat)
   else if (0xE0 <=? code b) && (code b <=? 0xEF) then Some (code b - 224, 0x800, 2%nat)
   else if (0xF0 <=? code b) && (code b <=? 0xF4) then Some (code b - 240, 0x10000, 3%nat)
   else None).
Proof. by destruct b. Qed.

(** ** One code point *)

Definition scalar (cp : Z) : Prop := 0 <= cp <= 0x10FFFF ∧ ¬ (0xD800 <= cp <= 0xDFFF).

Lemma surrogates cp : IsHighSurrogate cp || IsLowSurrogate cp = true ↔ 0xD800 <= cp <= 0xDFFF.
Proof.
  unfold IsHighSurrogate, IsLowSurrogate, HIGH_SURROGATE_FIRST, HIGH_SURROGATE_LAST,
    LOW_SURROGATE_FIRST, LOW_SURROGATE_LAST.
  rewrite orb_true_iff, !andb_true_iff, !Z.leb_le. lia.
Qed.

(** The bytes of a code point by division. *)
Definition tail_byte (x : Z) : byte := chr (128 + x mod 64).
Lemma AppendUtf8_eq cp :
  0 <= cp < 2 ^ 21 →
  AppendUtf8 cp =
    (if cp <=? 0x7F then [chr cp]
     else if cp <=? 0x7FF then [chr (192 + cp / 64); tail_byte cp]
     else if cp <=? 0xFFFF then [chr (224 + cp / 4096); tail_byte (cp / 64); tail_byte cp]
     else [chr (240 + cp / 262144); tail_byte (cp / 4096); tail_byte (cp / 64); tail_byte cp]).
Proof.
  intros H. unfold AppendUtf8, tail_byte. rewrite !Z.shiftr_div_pow2 by lia.
  change (2 ^ 6) with 64. change (2 ^ 12) with 4096. change (2 ^ 18) with 262144.
  assert (∀ x, Z.land x 0x3F = x mod 64) as Em by (intros x; by apply (Z.land_ones x 6)).
  rewrite !Em.
  assert (∀ x, Z.lor 0x80 (x mod 64) = 128 + x mod 64) as Ec.
  { intros x. apply (lor_add 2 6); [lia|]. apply Z.mod_pos_bound. lia. }
  rewrite !Ec.
  pose proof (Z.div_lt_upper_bound cp 64 32) as B1. pose proof (Z.div_lt_upper_bound cp 4096 16) as B2.
  pose proof (Z.div_lt_upper_bound cp 262144 8) as B3.
  assert (∀ d, 0 < d → 0 <= cp / d) as B0 by (intros; apply Z.div_pos; lia).
  pose proof (B0 64). pose proof (B0 4096). pose proof (B0 262144).
  destruct (Z.leb_spec cp 0x7F); [done|]. destruct (Z.leb_spec cp 0x7FF).
  { assert (Z.lor 0xC0 (cp / 64) = 192 + cp / 64) as -> by (apply (lor_add 6 5); lia). done. }
  destruct (Z.leb_spec cp 0xFFFF).
  { assert (Z.lor 0xE0 (cp / 4096) = 224 + cp / 4096) as -> by (apply (lor_add 14 4); lia). done. }
  assert (Z.lor 0xF0 (cp / 262144) = 240 + cp / 262144) as -> by (apply (lor_add 30 3); lia). done.
Qed.

Lemma nth_drop_cons text offset (b : byte) rest :
  drop offset text = b :: rest →
  nth offset text x00 = b ∧ drop (offset + 1) text = rest ∧ (length text - (offset + 1) = length rest)%nat.
Proof.
  intros E. assert (text !! offset = Some b) as Hl.
  { rewrite <- (Nat.add_0_r offset), <- lookup_drop, E. done. }
  split_and!.
  - by apply nth_lookup_Some.
  - rewrite <- drop_drop, E. done.
  - pose proof (length_drop text offset) as Hd. rewrite E in Hd. cbn in Hd.
    apply lookup_lt_Some in Hl. lia.
Qed.

(** Six more bits fit as long as there is room for all that follow. *)
Lemma room cp n x : 0 <= cp → (cp + 1) * 64 ^ Z.of_nat (S n) <= 2 ^ 32 → 0 <= x < 64 →
  0 <= cp * 64 < 2 ^ 32 ∧ 0 <= cp * 64 + x ∧ (cp * 64 + x + 1) * 64 ^ Z.of_nat n <= 2 ^ 32.
Proof.
  rewrite Nat2Z.inj_succ, Z.pow_succ_r by lia. intros H0 H Hx.
  pose proof (Z.pow_pos_nonneg 64 (Z.of_nat n) ltac:(lia) ltac:(lia)) as Hp.
  set (p := 64 ^ Z.of_nat n) in *. change (2 ^ 32) with 4294967296 in *.
  assert ((cp * 64 + x + 1) * p <= (cp + 1) * 64 * p) by (apply Z.mul_le_mono_nonneg_r; lia).
  assert ((cp + 1) * 64 * 1 <= (cp + 1) * 64 * p) by (apply Z.mul_le_mono_nonneg_l; lia).
  lia.
Qed.

Lemma one_more cp b : continuation b → 0 <= cp * 64 < 2 ^ 32 →
  Z.lor (wrap 32 (Z.shiftl cp 6)) (Z.land (code b) 0x3F) = more cp b.
Proof.
  intros Hb Hcp. unfold more. rewrite (continuation_low b Hb), Z.shiftl_mul_pow2 by lia.
  change (2 ^ 6) with 64. rewrite wrap_small by lia. apply shiftl_lor6.
  unfold continuation in Hb. lia.
Qed.

Lemma continuations_ok bs : ∀ text offset cp rest,
  drop offset text = bs ++ rest → Forall continuation bs → 0 <= cp →
  (cp + 1) * 64 ^ Z.of_nat (length bs) <= 2 ^ 32 →
  continuations (length bs) text offset cp = (Some (foldl more cp bs), (offset + length bs)%nat).
Proof.
  induction bs as [|b bs IH]; intros text offset cp rest E Hc H0 Hlt; cbn [length continuations foldl].
  { by rewrite Nat.add_0_r. }
  inversion Hc as [|? ? Hb Hbs]; subst. cbn in E.
  destruct (nth_drop_cons _ _ _ _ E) as (->&E'&_).
  rewrite continuation_bits, (proj2 (is_continuation_spec b) Hb). cbn [negb].
  destruct (room cp (length bs) (code b - 128) H0 Hlt) as (H1&H2&H3); [unfold continuation in Hb; lia|].
  rewrite one_more by done. rewrite (IH _ _ (more cp b) rest E' Hbs H2 H3). f_equal. lia.
Qed.

Lemma continuations_inv n : ∀ text offset cp v o,
  (n <= length text - offset)%nat → 0 <= cp → (cp + 1) * 64 ^ Z.of_nat n <= 2 ^ 32 →
  continuations n text offset cp = (Some v, o) →
  ∃ bs, drop offset text = bs ++ drop o text ∧ length bs = n ∧ Forall continuation bs ∧
    v = foldl more cp bs ∧ o = (offset + n)%nat.
Proof.
  induction n as [|n IH]; intros text offset cp v o Hle H0 Hlt; cbn [continuations].
  { intros [= <- <-]. exists []. rewrite Nat.add_0_r. done. }
  destruct (drop offset text) as [|b rest] eqn:E.
  { pose proof (length_drop text offset) as Hd. rewrite E in Hd. cbn in Hd. lia. }
  destruct (nth_drop_cons _ _ _ _ E) as (->&E'&Hr). rewrite continuation_bits.
  destruct (is_continuation b) eqn:Eb; cbn [negb]; [|done].
  apply is_continuation_spec in Eb.
  destruct (room cp n (code b - 128) H0 Hlt) as (H1&H2&H3); [unfold continuation in Eb; lia|].
  rewrite one_more by done. intros Hk.
  destruct (IH text (offset + 1)%nat (more cp b) _ _ ltac:(lia) H2 H3 Hk) as (bs&Ebs&Hn&Hf&->&->).
  exists (b :: bs). rewrite E' in Ebs. cbn. rewrite <- Ebs. split_and!; try done; [by rewrite Hn|by constructor|lia].
Qed.

(** The final tests refuse what is not a scalar value or has a shorter form. *)
Lemma final_test m cp : 0 <= cp →
  (cp <? m) || (MAX_UNICODE_CODE_POINT <? cp) || IsHighSurrogate cp || IsLowSurrogate cp = false ↔
  m <= cp ∧ scalar cp.
Proof.
  intros H0. rewrite <- orb_assoc. pose proof (surrogates cp) as Hs. unfold MAX_UNICODE_CODE_POINT, scalar.
  destruct (IsHighSurrogate cp || IsLowSurrogate cp).
  - rewrite orb_true_r. split; [done|]. intros (_&_&Hn). by destruct Hn; apply Hs.
  - rewrite orb_false_r, orb_false_iff, !Z.ltb_ge. split; [|lia]. intros [H1 H2].
    split_and!; try done. intros Hn. by apply Hs in Hn.
Qed.

(** A sequence of several bytes. *)
Lemma decode_many b bs m c0 cp text offset rest :
  drop offset text = b :: bs ++ rest → 0x7F < code b →
  first_byte (code b) = Some (c0, m, length bs) → Forall continuation bs → 0 <= c0 →
  (c0 + 1) * 64 ^ Z.of_nat (length bs) <= 2 ^ 32 → foldl more c0 bs = cp → m <= cp → scalar cp →
  DecodeUtf8CodePoint text offset = (Some cp, (offset + length (b :: bs))%nat).
Proof.
  intros E H7 Hf Hc H0 Hlt Hv Hm Hs. unfold DecodeUtf8CodePoint.
  destruct (nth_drop_cons _ _ _ _ E) as (->&E'&Hl).
  rewrite (proj2 (Z.leb_gt _ _)), Hf by done.
  rewrite (proj2 (Nat.ltb_ge _ _)) by (rewrite Hl, length_app; lia).
  rewrite (continuations_ok bs _ _ _ rest E' Hc H0 Hlt), Hv.
  destruct Hs as [Hr Hs]. rewrite (proj2 (final_test m cp ltac:(lia))) by done.
  cbn [length]. f_equal. lia.
Qed.

Lemma decode_many_inv text offset b rest cp o :
  drop offset text = b :: rest → 0x7F < code b → DecodeUtf8CodePoint text offset = (Some cp, o) →
  ∃ c0 m bs, first_byte (code b) = Some (c0, m, length bs) ∧ drop offset text = b :: bs ++ drop o text ∧
    Forall continuation bs ∧ cp = foldl more c0 bs ∧ m <= cp ∧ scalar cp ∧ o = (offset + length (b :: bs))%nat.
Proof.
  intros E H7. unfold DecodeUtf8CodePoint. destruct (nth_drop_cons _ _ _ _ E) as (->&E'&Hl).
  rewrite (proj2 (Z.leb_gt _ _)) by done.
  destruct (first_byte (code b)) as [[[c0 m] n]|] eqn:Ef; [|done].
  destruct (Nat.ltb_spec (length text - (offset + 1)) n) as [|Hn]; [done|].
  assert (0 <= c0 ∧ (c0 + 1) * 64 ^ Z.of_nat n <= 2 ^ 32) as [H0 Hlt].
  { rewrite first_byte_spec in Ef. repeat case_match; simplify_eq; lia. }
  destruct (continuations n text (offset + 1) c0) as [[v|] o'] eqn:Ek; [|done].
  destruct (continuations_inv n _ _ _ _ _ Hn H0 Hlt Ek) as (bs&Eb&<-&Hc&->&->).
  assert (0 <= foldl more c0 bs) as Hv.
  { clear -Hc H0. revert c0 H0. induction Hc as [|x bs Hx _ IH]; intros c0 H0; [done|].
    cbn. apply IH. unfold more, continuation in *. lia. }
  destruct (_ || IsLowSurrogate _) eqn:Et; [done|]. intros [= <- <-].
  destruct (proj1 (final_test m _ Hv) Et) as [Hm Hs].
  exists c0, m, bs. split_and!; try done; [|cbn; lia]. by rewrite E, <- E', Eb.
Qed.

(** Taking six bits off and putting them back. *)
Lemma code_tail x : code (tail_byte x) = 128 + x mod 64.
Proof. unfold tail_byte. apply code_chr_small. pose proof (Z.mod_pos_bound x 64). lia. Qed.
Lemma tail_continuation x : continuation (tail_byte x).
Proof. unfold continuation. rewrite code_tail. pose proof (Z.mod_pos_bound x 64). lia. Qed.
Lemma more_tail x : more (x / 64) (tail_byte x) = x.
Proof. unfold more. rewrite code_tail. pose proof (Z.div_mod x 64). lia. Qed.
Lemma more_div a b : continuation b → more a b / 64 = a.
Proof. unfold continuation, more. intros H. rewrite Z.div_add_l, Z.div_small by lia. lia. Qed.
Lemma tail_more a b : continuation b → tail_byte (more a b) = b.
Proof.
  intros H. unfold tail_byte. rewrite <- (chr_code b) at 2. f_equal. unfold continuation, more in *.
  rewrite (Z.add_comm (a * 64)), Z.mod_add, Z.mod_small by lia. lia.
Qed.
Lemma more_range a b lo hi :
  continuation b → lo <= a < hi → lo * 64 <= more a b < hi * 64.
Proof. unfold continuation, more. lia. Qed.

Lemma div64 x : x / 4096 = x / 64 / 64 ∧ x / 262144 = x / 4096 / 64.
Proof. rewrite !Z.div_div by lia. done. Qed.

Lemma code_lead base x n : 0 <= base → base + n <= 256 → 0 <= x < n → code (chr (base + x)) = base + x.
Proof. intros. apply code_chr_small. lia. Qed.

Lemma decode_append cp text offset rest :
  scalar cp → drop offset text = AppendUtf8 cp ++ rest →
  DecodeUtf8CodePoint text offset = (Some cp, (offset + length (AppendUtf8 cp))%nat).
Proof.
  intros Hs E. assert (0 <= cp <= 0x10FFFF) as Hr by apply Hs. destruct (div64 cp) as [D2 D3].
  rewrite AppendUtf8_eq in * by lia.
  destruct (Z.leb_spec cp 0x7F).
  { unfold DecodeUtf8CodePoint. destruct (nth_drop_cons _ _ _ _ E) as (->&_&_).
    rewrite code_chr_small, (proj2 (Z.leb_le _ _)) by lia. done. }
  pose proof (Z.div_pos cp 64). pose proof (Z.div_pos cp 4096). pose proof (Z.div_pos cp 262144).
  assert (∀ l, Forall continuation (map tail_byte l)) as Hc
    by (intros l; apply Forall_fmap, Forall_true, tail_continuation).
  destruct (Z.leb_spec cp 0x7FF); [|destruct (Z.leb_spec cp 0xFFFF)].
  - pose proof (Z.div_lt_upper_bound cp 64 32). pose proof (Z.div_le_lower_bound cp 64 2).
    apply (decode_many _ (map tail_byte [cp]) 0x80 (cp / 64) _ _ _ rest E);
      rewrite ?first_byte_spec, ?(code_lead 192 _ 32) by lia; [lia| |apply Hc|lia|cbn; lia| |lia|done].
    + by rewrite !(proj2 (Z.leb_le _ _)), Z.add_simpl_l by lia.
    + apply more_tail.
  - pose proof (Z.div_lt_upper_bound cp 4096 16).
    apply (decode_many _ (map tail_byte [cp / 64; cp]) 0x800 (cp / 4096) _ _ _ rest E);
      rewrite ?first_byte_spec, ?(code_lead 224 _ 16) by lia; [lia| |apply Hc|lia|cbn; lia| |lia|done].
    + rewrite (proj2 (Z.leb_gt _ 0xDF)), andb_false_r by lia.
      by rewrite !(proj2 (Z.leb_le _ _)), Z.add_simpl_l by lia.
    + cbn. by rewrite D2, !more_tail.
  - pose proof (Z.div_lt_upper_bound cp 262144 5).
    apply (decode_many _ (map tail_byte [cp / 4096; cp / 64; cp]) 0x10000 (cp / 262144) _ _ _ rest E);
      rewrite ?first_byte_spec, ?(code_lead 240 _ 5) by lia; [lia| |apply Hc|lia|cbn; lia| |lia|done].
    + rewrite (proj2 (Z.leb_gt _ 0xDF)), (proj2 (Z.leb_gt _ 0xEF)), !andb_false_r by lia.
      by rewrite !(proj2 (Z.leb_le _ _)), Z.add_simpl_l by lia.
    + cbn. by rewrite D3, D2, !more_tail.
Qed.

Lemma decode_inv text offset b rest cp o :
  drop offset text = b :: rest → DecodeUtf8CodePoint text offset = (Some cp, o) →
  scalar cp ∧ drop offset text = AppendUtf8 cp ++ drop o text ∧
  o = (offset + length (AppendUtf8 cp))%nat.
Proof.
  intros E. destruct (Z.le_gt_cases (code b) 0x7F) as [H7|H7].
  { unfold DecodeUtf8CodePoint. destruct (nth_drop_cons _ _ _ _ E) as (->&E'&_).
    rewrite (proj2 (Z.leb_le _ _)) by done. intros [= <- <-]. pose proof (code_range b).
    rewrite AppendUtf8_eq, (proj2 (Z.leb_le _ _)), chr_code, E, E' by lia.
    split_and!; [unfold scalar; lia|done|done]. }
  intros Hd. destruct (decode_many_inv _ _ _ _ _ _ E H7 Hd) as (c0&m&bs&Hf&Eb&Hc&->&Hm&Hs&->).
  assert (AppendUtf8 (foldl more c0 bs) = b :: bs) as ->; [|done]. clear Eb Hd E.
  rewrite AppendUtf8_eq by (destruct Hs; lia). rewrite first_byte_spec in Hf.
  assert (∀ base, chr (base + (code b - base)) = b) as Hb.
  { intros base. rewrite Z.add_sub_assoc, Z.add_simpl_l. apply chr_code. }
  destruct (_ && _) eqn:E1 in Hf; [|destruct (_ && _) eqn:E2 in Hf; [|destruct (_ && _) eqn:E3 in Hf; [|done]]];
    injection Hf as <- <- Hn; destruct bs as [|b1 [|b2 [|b3 [|]]]]; try done; clear Hn;
    rewrite ?Forall_cons in Hc; destruct_and?; cbn [foldl] in *.
  - pose proof (more_range (code b - 192) b1 2 32 ltac:(done) ltac:(lia)).
    rewrite (proj2 (Z.leb_gt _ 0x7F)), (proj2 (Z.leb_le _ 0x7FF)) by lia.
    by rewrite more_div, tail_more, Hb.
  - pose proof (more_range (code b - 224) b1 0 16 ltac:(done) ltac:(lia)).
    pose proof (more_range (more (code b - 224) b1) b2 0 1024 ltac:(done) ltac:(lia)).
    rewrite (proj2 (Z.leb_gt _ 0x7F)), (proj2 (Z.leb_gt _ 0x7FF)), (proj2 (Z.leb_le _ 0xFFFF)) by lia.
    destruct (div64 (more (more (code b - 224) b1) b2)) as [-> _].
    by rewrite !more_div, !tail_more, Hb.
  - rewrite (proj2 (Z.leb_gt _ 0x7F)), (proj2 (Z.leb_gt _ 0x7FF)), (proj2 (Z.leb_gt _ 0xFFFF)) by lia.
    destruct (div64 (more (more (more (code b - 240) b1) b2) b3)) as [D2 ->]. rewrite D2.
    by rewrite !more_div, !tail_more, Hb.
Qed.

(** ** Whole texts *)

Section wide.
Context (utf16 : bool).

Definition wchar (c : Z) : Prop := 0 <= c < 2 ^ wchar_bits utf16.

Lemma high_spec v : IsHighSurrogate v = true ↔ 0xD800 <= v <= 0xDBFF.
Proof. unfold IsHighSurrogate, HIGH_SURROGATE_FIRST, HIGH_SURROGATE_LAST. lia. Qed.
Lemma low_spec v : IsLowSurrogate v = true ↔ 0xDC00 <= v <= 0xDFFF.
Proof. unfold IsLowSurrogate, LOW_SURROGATE_FIRST, LOW_SURROGATE_LAST. lia. Qed.
Lemma not_surrogate cp : scalar cp → IsHighSurrogate cp = false ∧ IsLowSurrogate cp = false.
Proof.
  intros [_ H]. rewrite <- !not_true_iff_false, high_spec, low_spec. lia.
Qed.

(** A pair of surrogates and the code point it stands for. *)
Lemma push_pair cp :
  utf16 = true → 0xFFFF < cp <= 0x10FFFF →
  push_wide utf16 cp = [0xD800 + (cp - 0x10000) / 1024; 0xDC00 + (cp - 0x10000) mod 1024] ∧
  0 <= (cp - 0x10000) / 1024 < 1024 ∧ 0 <= (cp - 0x10000) mod 1024 < 1024.
Proof.
  intros -> H. unfold push_wide. rewrite (proj2 (Z.leb_gt _ _)) by lia. cbv zeta.
  rewrite Z.shiftr_div_pow2 by lia. change 0x3FF with (Z.ones 10). rewrite Z.land_ones by lia.
  split_and!; [done|apply Z.div_pos; lia|apply Z.div_lt_upper_bound; lia|apply Z.mod_pos_bound; lia..].
Qed.

Lemma push_wide_wchar cp : scalar cp → Forall wchar (push_wide utf16 cp).
Proof.
  intros [Hr _]. unfold wchar, wchar_bits. destruct utf16 eqn:E.
  - destruct (Z.le_gt_cases cp 0xFFFF) as [Hl|Hl].
    + unfold push_wide. rewrite (proj2 (Z.leb_le _ _)) by done. repeat constructor; lia.
    + pose proof (push_pair cp E ltac:(lia)) as Hp. rewrite E in Hp. destruct Hp as (->&?&?).
      repeat constructor; lia.
  - repeat constructor; lia.
Qed.

Lemma encode_push cp rest acc :
  scalar cp → encode_loop utf16 (push_wide utf16 cp ++ rest) acc =
    encode_loop utf16 rest (acc ++ AppendUtf8 cp).
Proof.
  intros Hs. destruct (not_surrogate cp Hs) as [Hh Hl]. destruct Hs as [Hr _].
  destruct utf16 eqn:E.
  - destruct (Z.le_gt_cases cp 0xFFFF) as [Hle|Hgt].
    + unfold push_wide. rewrite (proj2 (Z.leb_le _ _)) by done. cbn [app encode_loop]. by rewrite Hh, Hl.
    + pose proof (push_pair cp E ltac:(lia)) as Hp. rewrite E in Hp. destruct Hp as (->&?&?).
      cbn [app encode_loop]. rewrite (proj2 (high_spec _)) by lia.
      rewrite (proj2 (low_spec _)) by lia. cbn [negb]. do 3 f_equal.
      rewrite Z.shiftl_mul_pow2 by lia. unfold HIGH_SURROGATE_FIRST, LOW_SURROGATE_FIRST.
      rewrite !Z.add_simpl_l. pose proof (Z.div_mod (cp - 0x10000) 1024). lia.
  - cbn [push_wide app encode_loop]. unfold MAX_UNICODE_CODE_POINT.
    by rewrite Hh, Hl, (proj2 (Z.leb_le _ _)) by lia.
Qed.

Lemma encode_all cps : ∀ acc, Forall scalar cps →
  encode_loop utf16 (cps ≫= push_wide utf16) acc = Some (acc ++ (cps ≫= AppendUtf8)).
Proof.
  induction cps as [|cp cps IH]; intros acc Hs; cbn [mbind list_bind]; [by rewrite app_nil_r|].
  inversion Hs; subst. rewrite encode_push, IH, <- app_assoc by done. done.
Qed.

(** Every accepted text starts with the characters of a code point. *)
Lemma encode_head c text acc s :
  Forall wchar (c :: text) → encode_loop utf16 (c :: text) acc = Some s →
  ∃ cp rest, scalar cp ∧ c :: text = push_wide utf16 cp ++ rest.
Proof.
  intros Hw. inversion Hw as [|? ? Hc Hw']; subst. revert Hc. unfold wchar, wchar_bits.
  destruct utf16 eqn:E; cbn [encode_loop]; intros Hc.
  - destruct (IsHighSurrogate c) eqn:Eh; [|destruct (IsLowSurrogate c) eqn:El; [done|]].
    + destruct text as [|low text]; [done|]. destruct (IsLowSurrogate low) eqn:El; [|done]. intros _.
      apply high_spec in Eh. apply low_spec in El.
      set (cp := 0x10000 + ((c - 0xD800) * 1024 + (low - 0xDC00))). exists cp, text.
      assert (scalar cp) as Hs by (unfold scalar, cp; lia). split; [done|].
      pose proof (push_pair cp E ltac:(unfold cp; lia)) as Hp. rewrite E in Hp. destruct Hp as (->&_&_).
      unfold cp. rewrite Z.add_simpl_l, Z.div_add_l, Z.div_small by lia.
      rewrite (Z.add_comm ((c - 0xD800) * 1024)), Z.mod_add, Z.mod_small by lia.
      cbn [app]. f_equal; [lia|f_equal; lia].
    + intros _. exists c, text. assert (scalar c) as Hs.
      { rewrite <- not_true_iff_false, high_spec in Eh. rewrite <- not_true_iff_false, low_spec in El.
        unfold scalar. lia. }
      split; [done|]. unfold push_wide. by rewrite (proj2 (Z.leb_le _ _)) by lia.
  - destruct (_ && _) eqn:Ec; [|done]. intros _. exists c, text. split; [|done].
    apply andb_true_iff in Ec as [Ec El]. apply andb_true_iff in Ec as [Ec Eh].
    rewrite negb_true_iff, <- not_true_iff_false, high_spec in Eh.
    rewrite negb_true_iff, <- not_true_iff_false, low_spec in El. apply Z.leb_le in Ec.
    unfold scalar, MAX_UNICODE_CODE_POINT in *. lia.
Qed.

Lemma push_wide_nonempty cp : (1 <= length (push_wide utf16 cp))%nat.
Proof. unfold push_wide. repeat case_match; cbn; lia. Qed.
Lemma AppendUtf8_nonempty cp : (1 <= length (AppendUtf8 cp))%nat.
Proof. unfold AppendUtf8. repeat case_match; cbn; lia. Qed.

Lemma encode_inv n : ∀ text acc s, (length text <= n)%nat → Forall (wchar) text →
  encode_loop utf16 text acc = Some s →
  ∃ cps, Forall scalar cps ∧ text = cps ≫= push_wide utf16 ∧ s = acc ++ (cps ≫= AppendUtf8).
Proof.
  induction n as [|n IH]; intros [|c text] acc s Hn Hw He; cbn [length] in Hn; try lia.
  1, 2: exists []; injection He as <-; cbn; by rewrite app_nil_r.
  destruct (encode_head c text acc s Hw He) as (cp&rest&Hs&E). rewrite E in *.
  rewrite encode_push in He by done.
  pose proof (push_wide_nonempty cp) as Hp. pose proof (f_equal length E) as Hl.
  rewrite length_app in Hl. cbn [length] in Hl.
  destruct (IH rest _ s ltac:(lia) (proj2 (proj1 (Forall_app _ _ _) Hw)) He) as (cps&Hcs&->&->).
  exists (cp :: cps). cbn [mbind list_bind]. rewrite <- app_assoc. split_and!; try done. by constructor.
Qed.

Lemma decode_all cps : ∀ fuel text offset acc,
  Forall scalar cps → drop offset text = cps ≫= AppendUtf8 → (length (drop offset text) <= fuel)%nat →
  decode_loop utf16 fuel text offset acc = Some (acc ++ (cps ≫= push_wide utf16)).
Proof.
  induction cps as [|cp cps IH]; intros fuel text offset acc Hs E Hf.
  - cbn [mbind list_bind] in *. rewrite app_nil_r. destruct fuel; [done|]. cbn [decode_loop].
    rewrite (proj2 (Nat.ltb_ge _ _)); [done|]. pose proof (f_equal length E) as Hl.
    rewrite length_drop in Hl. cbn in Hl. lia.
  - inversion Hs as [|? ? Hc Hcs]; subst. cbn [mbind list_bind] in *.
    pose proof (AppendUtf8_nonempty cp) as H1. pose proof (f_equal length E) as Hl.
    rewrite length_drop, length_app in Hl. rewrite length_drop in Hf.
    destruct fuel as [|fuel]; [lia|]. cbn [decode_loop].
    rewrite (proj2 (Nat.ltb_lt _ _)) by lia. cbn [negb]. rewrite (decode_append cp _ _ _ Hc E).
    rewrite IH, <- app_assoc; [done|done| |].
    + by rewrite <- drop_drop, E, drop_app_length.
    + rewrite length_drop. lia.
Qed.

Lemma decode_loop_inv fuel : ∀ text offset acc w,
  (length (drop offset text) <= fuel)%nat → decode_loop utf16 fuel text offset acc = Some w →
  ∃ cps, Forall scalar cps ∧ drop offset text = cps ≫= AppendUtf8 ∧ w = acc ++ (cps ≫= push_wide utf16).
Proof.
  induction fuel as [|fuel IH]; intros text offset acc w Hf; cbn [decode_loop].
  { intros [= <-]. exists []. cbn. rewrite app_nil_r. split_and!; try done. apply nil_length_inv. lia. }
  destruct (Nat.ltb_spec offset (length text)) as [Hlt|Hge]; cbn [negb].
  2: { intros [= <-]. exists []. cbn. rewrite app_nil_r. split_and!; try done. by apply drop_ge. }
  destruct (drop offset text) as [|b rest] eqn:E.
  { pose proof (length_drop text offset) as Hl. rewrite E in Hl. cbn in Hl. lia. }
  destruct (DecodeUtf8CodePoint text offset) as [[cp|] o] eqn:Ed; [|done]. intros Hw.
  destruct (decode_inv _ _ _ _ _ _ E Ed) as (Hs&E'&->). pose proof (AppendUtf8_nonempty cp) as H1.
  assert (length (drop (offset + length (AppendUtf8 cp)) text) <= fuel)%nat as Hf'.
  { rewrite length_drop. pose proof (length_drop text offset) as Hl. rewrite E in Hl. cbn [length] in *. lia. }
  destruct (IH _ _ _ _ Hf' Hw) as (cps&Hcs&E2&->). exists (cp :: cps). cbn [mbind list_bind].
  rewrite <- app_assoc, <- E, E', E2. split_and!; try done. by constructor.
Qed.

(** C23: the conversions between UTF-8 and wide strings are inverse to each other
    on everything they accept, for both widths of [wchar_t]: a text is accepted
    with a result if and only if the result is a wide string and is accepted with
    the text.  The accepted texts are exactly the sequences of encoded scalar
    values, so overlong forms, surrogates and cut sequences are refused, and
    equal results come from equal texts. *)
Theorem utf8_wide_inverse s w :
  (StringToWString utf16 s = Some w ↔ Forall wchar w ∧ WStringToString utf16 w = Some s) ∧
  ((∃ w', StringToWString utf16 s = Some w') ↔
    ∃ cps, Forall scalar cps ∧ s = cps ≫= AppendUtf8).
Proof.
  assert (∀ s' w', StringToWString utf16 s' = Some w' →
    ∃ cps, Forall scalar cps ∧ s' = cps ≫= AppendUtf8 ∧ w' = cps ≫= push_wide utf16) as Hd.
  { intros s' w' H. by apply decode_loop_inv in H. }
  assert (∀ cps, Forall scalar cps →
    StringToWString utf16 (cps ≫= AppendUtf8) = Some (cps ≫= push_wide utf16)) as Hall.
  { intros cps Hcs. by apply (decode_all cps _ _ 0 []). }
  split; split.
  - intros (cps&Hcs&->&->)%Hd. split; [|by apply (encode_all cps [])].
    apply Forall_bind. apply (Forall_impl _ _ _ Hcs). apply push_wide_wchar.
  - intros [Hw He]. apply (encode_inv (length w)) in He as (cps&Hcs&->&->); [|done|done].
    by apply Hall.
  - intros [w' (cps&Hcs&->&_)%Hd]. by exists cps.
  - intros (cps&Hcs&->). eexists. by apply Hall.
Qed.
End wide.

(** ** Trimming *)

Lemma find_first_not_of_spec d s :
  match find_first_not_of d s with
  | Some i => drop i s = drop_front (is_one_of d) s ∧ drop_front (is_one_of d) s ≠ []
  | None => drop_front (is_one_of d) s = []
  end.
Proof.
  induction s as [|b s IH]; [done|]. cbn. destruct (is_one_of d b); [|by split].
  destruct (find_first_not_of d s) as [i|]; done.
Qed.

Lemma find_last_not_of_spec d s :
  match find_last_not_of d s with
  | Some i => take (i + 1) s = drop_back (is_one_of d) s ∧ (i < length s)%nat
  | None => drop_back (is_one_of d) s = []
  end.
Proof.
  induction s as [|b s IH]; [done|]. cbn. destruct (find_last_not_of d s) as [i|].
  - destruct IH as [IH Hi]. cbn. rewrite IH. split; [|lia].
    destruct (drop_back (is_one_of d) s) eqn:E; [|done].
    rewrite Nat.add_1_r in IH. destruct s; [cbn in Hi; lia|done].
  - rewrite IH. destruct (is_one_of d b); [done|]. cbn. rewrite take_0. split; [done|lia].
Qed.

Lemma find_last_not_of_app d pre s i :
  find_last_not_of d s = Some i → find_last_not_of d (pre ++ s) = Some (length pre + i)%nat.
Proof. intros H. induction pre as [|b pre IH]; [done|]. cbn. by rewrite IH. Qed.

(** The three functions remove the delimiters at the front, at the back and at
    both ends, no more and no less. *)
Theorem trimming s d :
  TrimLeft s d = drop_front (is_one_of d) s ∧ TrimRight s d = drop_back (is_one_of d) s ∧
  Trim s d = drop_back (is_one_of d) (drop_front (is_one_of d) s).
Proof.
  unfold TrimLeft, TrimRight, Trim, substr.
  pose proof (find_first_not_of_spec d s) as Hf. pose proof (find_last_not_of_spec d s) as Hl.
  split_and!.
  - destruct (find_first_not_of d s); [by destruct Hf|done].
  - destruct (find_last_not_of d s); [by destruct Hl|done].
  - destruct (find_first_not_of d s) as [i|]; [|by rewrite Hf]. destruct Hf as [Ef Hne].
    rewrite <- Ef. pose proof (find_last_not_of_spec d (drop i s)) as Hd.
    destruct (find_last_not_of d (drop i s)) as [k|] eqn:Ek.
    + destruct Hd as [<- Hk]. apply (find_last_not_of_app _ (take i s)) in Ek.
      rewrite length_drop in Hk. rewrite take_drop, length_take_le in Ek by lia. rewrite Ek.
      unfold id, from_option. f_equal. lia.
    + exfalso. rewrite Ef in Hd. destruct (drop_front (is_one_of d) s) as [|b r] eqn:E; [done|].
      apply drop_front_first in E. cbn in Hd. by destruct (drop_back _ r); rewrite ?E in Hd.
Qed.

(** ** Witness *)

(** One code point of every length: U+0024, U+00E9, U+20AC, U+1F600. *)
Definition sample_text : str := $"$é€😀".
Lemma utf8_wide_inverse_witness :
  StringToWString true sample_text = Some [0x24; 0xE9; 0x20AC; 0xD83D; 0xDE00] ∧
  WStringToString true [0x24; 0xE9; 0x20AC; 0xD83D; 0xDE00] = Some sample_text ∧
  StringToWString false [xc0; x80] = None.
Proof.
  split; [vm_compute; reflexivity|]. split; [|vm_compute; reflexivity].
  apply (utf8_wide_inverse true sample_text [0x24; 0xE9; 0x20AC; 0xD83D; 0xDE00]). vm_compute. reflexivity.
Defined.
End StringUtilsProofs.
