(* ===== verification/LogFormat.v ===== *)
(** Log levels and the formatter of log records ([droplet/src/logger/log_level.cc],
    [formatter.cc], [buffer.h]): the parser of patterns, the items it makes and
    the text they append.  The conversion to local time and [strftime] are an
    argument. *)

From S2P Require Import Prelude.

Module LogFormat.

(** ** Levels: the underlying byte, so that other values are possible. *)

Definition LOG_LV_DEBUG : Z := 1.
Definition LOG_LV_INFO : Z := 2.
Definition LOG_LV_WARN : Z := 3.
Definition LOG_LV_ERROR : Z := 4.
Definition LOG_LV_FATAL : Z := 5.
Definition LOG_LV_OFF : Z := 6.

Definition ToString (level : Z) : str :=
  if level =? LOG_LV_DEBUG then $"DEBUG"
  else if level =? LOG_LV_INFO then $"INFO"
  else if level =? LOG_LV_WARN then $"WARN"
  else if level =? LOG_LV_ERROR then $"ERROR"
  else if level =? LOG_LV_FATAL then $"FATAL"
  else if level =? LOG_LV_OFF then $"OFF"
  else $"UNKNOWN".

Definition toupper (b : byte) : byte :=
  if (97 <=? code b) && (code b <=? 122) then chr (code b - 32) else b.

(** [None] when the transformed text is written behind the array of six bytes. *)
Definition FromString (value : str) : option Z :=
  if Nat.ltb 6 (length value) then None
  else
    let upper_value := map toupper value in
    Some (if str_eqb upper_value $"DEBUG" then LOG_LV_DEBUG
          else if str_eqb upper_value $"INFO" then LOG_LV_INFO
          else if str_eqb upper_value $"WARN" then LOG_LV_WARN
          else if str_eqb upper_value $"ERROR" then LOG_LV_ERROR
          else if str_eqb upper_value $"FATAL" then LOG_LV_FATAL
          else LOG_LV_OFF).

(** ** The buffer of a record *)

Record InlineBuffer := mkBuffer { inline_ : str; overflow_ : str; size_ : nat }.

Definition empty_buffer : InlineBuffer := mkBuffer [] [] 0.

(** Bytes that fit stay inline; the first that do not move everything. *)
Definition append (capacity : nat) (data : str) (b : InlineBuffer) : InlineBuffer :=
  match data with
  | [] => b
  | _ =>
      match overflow_ b with
      | [] =>
          if Nat.leb (size_ b + length data) capacity
          then mkBuffer (take (size_ b) (inline_ b) ++ data) [] (size_ b + length data)
          else
            let o := take (size_ b) (inline_ b) ++ data in
            mkBuffer (inline_ b) o (length o)
      | o => mkBuffer (inline_ b) (o ++ data) (length (o ++ data))
      end
  end.

Definition view (b : InlineBuffer) : str :=
  take (size_ b) (match overflow_ b with [] => inline_ b | o => o end).

(** ** Patterns *)

Definition DEFAULT_DATE_FORMAT : str := $"%Y-%m-%d %H:%M:%S".

Inductive FormatItem :=
  | Literal (value : str) | Message | Level | Elapsed | LoggerName | ThreadId | NewLine
  | DateTime (format : str) | Microseconds | FileName | Line | Tab | FiberId | ThreadName.

(** The factories by their letter. *)
Definition CreateFormatItem (directive : byte) (format : str) : option FormatItem :=
  if Byte.eqb directive "m" then Some Message
  else if Byte.eqb directive "p" then Some Level
  else if Byte.eqb directive "r" then Some Elapsed
  else if Byte.eqb directive "c" then Some LoggerName
  else if Byte.eqb directive "t" then Some ThreadId
  else if Byte.eqb directive "n" then Some NewLine
  else if Byte.eqb directive "d" then
    Some (DateTime (match format with [] => DEFAULT_DATE_FORMAT | _ => format end))
  else if Byte.eqb directive "u" then Some Microseconds
  else if Byte.eqb directive "f" then Some FileName
  else if Byte.eqb directive "l" then Some Line
  else if Byte.eqb directive "T" then Some Tab
  else if Byte.eqb directive "F" then Some FiberId
  else if Byte.eqb directive "N" then Some ThreadName
  else None.

Definition PERCENT : byte := x25.
Definition OPEN_BRACE : byte := x7b.
Definition CLOSE_BRACE : byte := x7d.

Abbreviation items := (list (option FormatItem)).

Definition addLiteral (literal : str) (l : items) : items :=
  match literal with [] => l | _ => l ++ [Some (Literal literal)] end.

(** The loop of [parse]: an error code, or the items and the pending literal. *)
Fixpoint parse_loop (fuel : nat) (pattern : str) (index : nat) (literal : str) (l : items)
    : Z + (str * items) :=
  match fuel with
  | O => inr (literal, l)
  | S fuel =>
      match pattern !! index with
      | None => inr (literal, l)
      | Some b =>
          if negb (Byte.eqb b PERCENT) then parse_loop fuel pattern (index + 1) (literal ++ [b]) l
          else
            match pattern !! (index + 1)%nat with
            | None => inl (-1)
            | Some directive =>
                let index := (index + 1)%nat in
                if Byte.eqb directive PERCENT
                then parse_loop fuel pattern (index + 1) (literal ++ [PERCENT]) l
                else
                  let l := addLiteral literal l in
                  match pattern !! (index + 1)%nat with
                  | Some b =>
                      if Byte.eqb b OPEN_BRACE then
                        match find_char_at CLOSE_BRACE pattern (index + 2) with
                        | Some closing_brace =>
                            if Nat.eqb closing_brace (index + 2) then inl (-2)
                            else
                              let item_format := substr pattern (index + 2) (closing_brace - index - 2) in
                              parse_loop fuel pattern (closing_brace + 1) []
                                (l ++ [CreateFormatItem directive item_format])
                        | None => inl (-2)
                        end
                      else parse_loop fuel pattern (index + 1) [] (l ++ [CreateFormatItem directive []])
                  | None => parse_loop fuel pattern (index + 1) [] (l ++ [CreateFormatItem directive []])
                  end
            end
      end
  end.

(** Each round consumes a byte of the pattern. *)
Definition parse (pattern : str) : Z * items :=
  match parse_loop (length pattern) pattern 0 [] [] with
  | inl e => (e, [])
  | inr (literal, l) =>
      let l := addLiteral literal l in
      if existsb (λ i, match i with None => true | Some _ => false end) l then (-3, l) else (0, l)
  end.

(** The constructor; [None] when it throws. *)
Definition Formatter (pattern : str) : option (list FormatItem) :=
  let '(r, l) := parse pattern in if r =? 0 then mapM id l else None.

(** ** Formatting *)

(** Time points and durations count nanoseconds. *)
Record LogRecordView := mkRecord {
  level_ : Z;
  loggerName_ : str;
  message_ : str;
  timestamp_ : Z;
  elapsed_ : Z;
  threadId_ : Z;
  fiberId_ : Z;
  threadName_ : str;
  fileName_ : str;
  line_ : Z;
}.

Definition integer_text (z : Z) : str := if z <? 0 then $"-" ++ to_dec (- z) else to_dec z.

(** The last [n] decimal digits. *)
Fixpoint digits (n : nat) (remaining : Z) : str :=
  match n with
  | O => []
  | S n => digits n (remaining / 10) ++ [chr (48 + remaining mod 10)]
  end.

Definition microseconds (timestamp : Z) : Z :=
  let microseconds := Z.rem (Z.quot timestamp 1000) 1000000 in
  if microseconds <? 0 then microseconds + 1000000 else microseconds.

(** The second and the text the thread has formatted last. *)
Record date_cache := mkCache { last_second : Z; cached_date_time : str }.
Definition new_cache : date_cache := mkCache 0 [].

Section format.
(** [strftime] of the local time of a second, without the limit of the buffer;
    [None] when there is no such time.  What a failed call leaves in the buffer. *)
Context (strftime : str → Z → option str) (leftover : str → Z → str).

Definition cached_size : nat := 20.

Definition format_date (format : str) (timestamp : Z) (c : date_cache) : str * date_cache :=
  let current_second := Z.quot timestamp 1000000000 in
  if negb (current_second =? last_second c) then
    match strftime format current_second with
    | None => ([], c)
    | Some text =>
        if Nat.eqb (length text) 0 || Nat.leb cached_size (length text)
        then ([], mkCache (last_second c) (leftover format current_second))
        else (text, mkCache current_second text)
    end
  else (cached_date_time c, c).

Definition format_item (i : FormatItem) (r : LogRecordView) (c : date_cache) : str * date_cache :=
  match i with
  | Literal value => (value, c)
  | Message => (message_ r, c)
  | Level => (ToString (level_ r), c)
  | Elapsed => (integer_text (Z.quot (elapsed_ r) 1000000), c)
  | LoggerName => (loggerName_ r, c)
  | ThreadId => (integer_text (threadId_ r), c)
  | NewLine => ([x0a], c)
  | DateTime format => format_date format (timestamp_ r) c
  | Microseconds => (digits 6 (microseconds (timestamp_ r)), c)
  | FileName => (fileName_ r, c)
  | Line => (integer_text (line_ r), c)
  | Tab => ([x09], c)
  | FiberId => (integer_text (fiberId_ r), c)
  | ThreadName => (threadName_ r, c)
  end.

Definition FORMATTED_RECORD_INLINE_CAPACITY : nat := 256.

Fixpoint format (l : list FormatItem) (r : LogRecordView) (output : InlineBuffer) (c : date_cache)
    : InlineBuffer * date_cache :=
  match l with
  | [] => (output, c)
  | i :: l =>
      let '(text, c) := format_item i r c in
      format l r (append FORMATTED_RECORD_INLINE_CAPACITY text output) c
  end.
End format.
End LogFormat.
