(* ===== verification/LogFormatProofs.v ===== *)
(** What the formatter of log records guarantees: patterns and lists of items
    correspond, the buffer of a record is the concatenation of what was appended,
    and the cached date is that of the record as long as one format is used. *)

From S2P Require Import Prelude LogFormat.
Import LogFormat.

Module LogFormatProofs.

(** ** The parser on the rest of the pattern *)

Fixpoint scan (fuel : nat) (s literal : str) (l : items) : Z + (str * items) :=
  match fuel with
  | O => inr (literal, l)
  | S fuel =>
      match s with
      | [] => inr (literal, l)
      | b :: s =>
          if negb (Byte.eqb b PERCENT) then scan fuel s (literal ++ [b]) l
          else
            match s with
            | [] => inl (-1)
            | d :: s =>
                if Byte.eqb d PERCENT then scan fuel s (literal ++ [PERCENT]) l
                else
                  match s with
                  | c :: s' =>
                      if Byte.eqb c OPEN_BRACE then
                        match find_char CLOSE_BRACE s' with
                        | Some (S k) =>
                            scan fuel (drop (S (S k)) s') []
                              (addLiteral literal l ++ [CreateFormatItem d (take (S k) s')])
                        | _ => inl (-2)
                        end
                      else scan fuel s [] (addLiteral literal l ++ [CreateFormatItem d []])
                  | [] => scan fuel s [] (addLiteral literal l ++ [CreateFormatItem d []])
                  end
            end
      end
  end.

Lemma drop_lookup_cons (s : str) i b r : drop i s = b :: r → s !! i = Some b ∧ drop (i + 1) s = r.
Proof.
  intros E. split.
  - rewrite <- (Nat.add_0_r i), <- lookup_drop, E. done.
  - by rewrite <- drop_drop, E.
Qed.
Lemma drop_lookup_nil (s : str) i : drop i s = [] → s !! i = None.
Proof. intros E. rewrite <- (Nat.add_0_r i), <- lookup_drop, E. done. Qed.

Lemma parse_loop_scan fuel : ∀ pattern index literal l,
  parse_loop fuel pattern index literal l = scan fuel (drop index pattern) literal l.
Proof.
  induction fuel as [|fuel IH]; intros pattern index literal l; [done|]. cbn [parse_loop scan].
  destruct (drop index pattern) as [|b s] eqn:E; [by rewrite (drop_lookup_nil _ _ E)|].
  destruct (drop_lookup_cons _ _ _ _ E) as [-> E1].
  destruct (Byte.eqb b PERCENT); cbn [negb]; [|by rewrite IH, E1].
  destruct s as [|d s]; [by rewrite (drop_lookup_nil _ _ E1)|].
  destruct (drop_lookup_cons _ _ _ _ E1) as [-> E2].
  destruct (Byte.eqb d PERCENT); [by rewrite IH, E2|].
  destruct s as [|c s]; [rewrite (drop_lookup_nil _ _ E2); by rewrite IH, E2|].
  destruct (drop_lookup_cons _ _ _ _ E2) as [-> E3].
  destruct (Byte.eqb c OPEN_BRACE); [|by rewrite IH, E2].
  unfold find_char_at. replace (index + 1 + 2)%nat with (index + 1 + 1 + 1)%nat by lia. rewrite E3.
  destruct (find_char CLOSE_BRACE s) as [[|k]|]; cbn [fmap option_fmap option_map]; [|..|done].
  - by rewrite Nat.add_0_r, Nat.eqb_refl.
  - rewrite (proj2 (Nat.eqb_neq _ _)) by lia. rewrite IH. unfold substr. rewrite E3. f_equal.
    + rewrite <- E3, drop_drop. f_equal. lia.
    + do 3 f_equal. f_equal. lia.
Qed.

(** Enough fuel makes no difference. *)
Lemma scan_fuel fuel1 : ∀ fuel2 s literal l,
  (length s <= fuel1)%nat → (length s <= fuel2)%nat →
  scan fuel1 s literal l = scan fuel2 s literal l.
Proof.
  induction fuel1 as [|fuel1 IH]; intros fuel2 s literal l H1 H2.
  - destruct s; [|cbn in H1; lia]. by destruct fuel2.
  - destruct s as [|b s]; [by destruct fuel2|]. destruct fuel2 as [|fuel2]; [cbn in H2; lia|].
    cbn [length scan] in *. destruct (negb _); [apply IH; lia|]. destruct s as [|d s]; [done|].
    cbn [length] in *. destruct (Byte.eqb d PERCENT); [apply IH; lia|].
    destruct s as [|c s]; [apply IH; cbn; lia|]. cbn [length] in *.
    destruct (Byte.eqb c OPEN_BRACE); [|apply IH; cbn [length]; lia].
    destruct (find_char CLOSE_BRACE s) as [[|k]|]; try done. apply IH; rewrite length_drop; lia.
Qed.

Definition scan_all (s literal : str) (l : items) : Z + (str * items) := scan (length s) s literal l.

Lemma scan_no_zero n : ∀ s lit l, scan n s lit l ≠ inl 0.
Proof.
  induction n as [|n IH]; intros s lit l; cbn [scan]; [done|].
  destruct s as [|b s]; [done|]. destruct (negb _); [apply IH|]. destruct s as [|d s]; [done|].
  destruct (Byte.eqb d PERCENT); [apply IH|]. destruct s as [|c s]; [apply IH|].
  destruct (Byte.eqb c OPEN_BRACE); [|apply IH].
  destruct (find_char CLOSE_BRACE s) as [[|k]|]; [done|apply IH|done].
Qed.

Lemma Formatter_scan pattern :
  Formatter pattern =
  match scan_all pattern [] [] with
  | inl _ => None
  | inr (literal, l) => mapM id (addLiteral literal l)
  end.
Proof.
  unfold Formatter, parse. rewrite parse_loop_scan, drop_0. fold (scan_all pattern [] []).
  assert (∀ l, existsb (λ i : option FormatItem, match i with None => true | Some _ => false end) l = true →
    mapM id l = None) as Hnone.
  { induction l as [|[i|] l IH]; cbn; [done| |done]. intros H. by rewrite (IH H). }
  destruct (scan_all pattern [] []) as [e|[literal l]] eqn:E.
  - cbn beta iota zeta. destruct (Z.eqb_spec e 0) as [->|]; [|done]. by apply scan_no_zero in E.
  - cbn beta iota zeta. destruct (existsb _ _) eqn:Ex; [|done]. by rewrite (Hnone _ Ex).
Qed.

(** ** Items that a pattern can stand for *)

Definition is_literal (i : FormatItem) : bool := match i with Literal _ => true | _ => false end.

Definition item_ok (i : FormatItem) : Prop :=
  match i with
  | Literal s => s ≠ []
  | DateTime f => f ≠ [] ∧ CLOSE_BRACE ∉ f
  | _ => True
  end.

(** No literal is empty or follows another one, no date format is empty or holds a
    closing brace. *)
Definition normal (l : list FormatItem) : Prop :=
  Forall item_ok l ∧
  ∀ n i j, l !! n = Some i → l !! S n = Some j → is_literal i && is_literal j = false.

Lemma normal_cons i l : normal (i :: l) →
  item_ok i ∧ normal l ∧ (is_literal i = true → ∀ j l', l = j :: l' → is_literal j = false).
Proof.
  intros [Hf Ha]. inversion Hf; subst. split; [done|]. split.
  - split; [done|]. intros n. apply (Ha (S n)).
  - intros Hi j l' ->. specialize (Ha 0%nat i j eq_refl eq_refl). by rewrite Hi in Ha.
Qed.

Lemma normal_snoc l i : normal l → item_ok i →
  (is_literal i = true → ∀ j, last l = Some j → is_literal j = false) → normal (l ++ [i]).
Proof.
  intros [Hf Ha] Hi Hl. split; [by apply Forall_app; auto|]. intros n a b Hna Hnb.
  destruct (decide (S n < length l)%nat) as [Hlt|Hge].
  - rewrite lookup_app_l in Hna by lia. rewrite lookup_app_l in Hnb by lia. by apply (Ha n).
  - apply lookup_lt_Some in Hnb as Hlen. rewrite length_app in Hlen. cbn in Hlen.
    assert (S n = length l) as En by lia. rewrite En, list_lookup_middle in Hnb by done. injection Hnb as <-.
    rewrite lookup_app_l in Hna by lia. destruct (is_literal i) eqn:Ei; [|apply andb_false_r].
    rewrite (Hl eq_refl a); [done|]. rewrite last_lookup, <- En. done.
Qed.

(** The text of a list of items; a dummy argument keeps a brace behind a directive. *)
Fixpoint escape (s : str) : str :=
  match s with
  | [] => []
  | b :: s => if Byte.eqb b PERCENT then PERCENT :: PERCENT :: escape s else b :: escape s
  end.
Definition letter (i : FormatItem) : byte :=
  match i with
  | Literal _ => PERCENT | Message => "m" | Level => "p" | Elapsed => "r" | LoggerName => "c"
  | ThreadId => "t" | NewLine => "n" | DateTime _ => "d" | Microseconds => "u" | FileName => "f"
  | Line => "l" | Tab => "T" | FiberId => "F" | ThreadName => "N"
  end%byte.
Definition starts_with_brace (l : list FormatItem) : bool :=
  match l with Literal (b :: _) :: _ => Byte.eqb b OPEN_BRACE | _ => false end.
Definition argument (i : FormatItem) (l : list FormatItem) : str :=
  match i with
  | DateTime f => [OPEN_BRACE] ++ f ++ [CLOSE_BRACE]
  | _ => if starts_with_brace l then $"{-}" else []
  end.
Fixpoint print (l : list FormatItem) : str :=
  match l with
  | [] => []
  | Literal s :: l => escape s ++ print l
  | i :: l => PERCENT :: letter i :: argument i l ++ print l
  end.

Lemma CreateFormatItem_letter i f : is_literal i = false →
  (match i with DateTime g => f = g ∧ g ≠ [] | _ => True end) →
  CreateFormatItem (letter i) f = Some i ∧ Byte.eqb (letter i) PERCENT = false.
Proof.
  destruct i as [s| | | | | | |g| | | | | |]; intros Hl Hf; try discriminate Hl; try by split.
  destruct Hf as [-> Hg]. split; [|done]. by destruct g as [|b g].
Qed.

Lemma CreateFormatItem_ok d f i : CreateFormatItem d f = Some i → CLOSE_BRACE ∉ f →
  item_ok i ∧ is_literal i = false.
Proof.
  unfold CreateFormatItem. intros H Hf. repeat case_match; simplify_eq; try done.
  split; [|done]. split; [done|]. apply not_elem_of_cons. split; [done|].
  by repeat (apply not_elem_of_cons; split; [done|]).
Qed.

(** One step of the parser, whatever the fuel. *)
Lemma scan_char b s lit l : Byte.eqb b PERCENT = false →
  scan_all (b :: s) lit l = scan_all s (lit ++ [b]) l.
Proof. intros E. unfold scan_all. cbn [length scan]. by rewrite E. Qed.
Lemma scan_percent s lit l : scan_all (PERCENT :: PERCENT :: s) lit l = scan_all s (lit ++ [PERCENT]) l.
Proof.
  unfold scan_all. cbn [length]. set (n := S (length s)). assert (length s <= n)%nat as Hn by lia. clearbody n.
  cbn [scan]. rewrite !byte_eqb_refl. cbn [negb]. apply scan_fuel; lia.
Qed.
Lemma scan_escape t : ∀ s lit l, scan_all (escape t ++ s) lit l = scan_all s (lit ++ t) l.
Proof.
  induction t as [|b t IH]; intros s lit l; [by rewrite app_nil_r|]. cbn [escape].
  destruct (Byte.eqb b PERCENT) eqn:E; cbn [app].
  - apply byte_eqb_eq in E as ->. rewrite scan_percent, IH, <- app_assoc. done.
  - rewrite scan_char, IH, <- app_assoc by done. done.
Qed.

Lemma scan_plain d s lit l : Byte.eqb d PERCENT = false →
  (∀ s', s ≠ OPEN_BRACE :: s') →
  scan_all (PERCENT :: d :: s) lit l = scan_all s [] (addLiteral lit l ++ [CreateFormatItem d []]).
Proof.
  intros Ed Hs. unfold scan_all. cbn [length]. set (n := S (length s)).
  assert (length s <= n)%nat as Hn by lia. clearbody n.
  cbn [scan]. rewrite byte_eqb_refl, Ed. cbn [negb].
  destruct s as [|c s]; [by destruct n|]. destruct (Byte.eqb c OPEN_BRACE) eqn:Ec.
  { apply byte_eqb_eq in Ec as ->. by destruct (Hs s). }
  apply scan_fuel; cbn in *; lia.
Qed.

Lemma find_char_behind c f s : c ∉ f → find_char c (f ++ c :: s) = Some (length f).
Proof.
  induction f as [|b f IH]; intros Hf; cbn; [by rewrite byte_eqb_refl|].
  apply not_elem_of_cons in Hf as [Hb Hf]. rewrite (proj2 (byte_eqb_neq b c)) by done. by rewrite IH.
Qed.

Lemma scan_argument d f s lit l : Byte.eqb d PERCENT = false → f ≠ [] → CLOSE_BRACE ∉ f →
  scan_all (PERCENT :: d :: ([OPEN_BRACE] ++ f ++ [CLOSE_BRACE]) ++ s) lit l =
  scan_all s [] (addLiteral lit l ++ [CreateFormatItem d f]).
Proof.
  intros Ed Hf Hc. unfold scan_all. rewrite <- !app_assoc. cbn [app length].
  match goal with |- scan (S ?m) _ _ _ = _ => set (n := m) end.
  assert (length s <= n)%nat as Hn by (unfold n; rewrite length_app; cbn; lia). clearbody n.
  cbn [scan]. rewrite !byte_eqb_refl, Ed. cbn [negb].
  rewrite find_char_behind by done. destruct f as [|b f]; [done|]. cbn [length].
  change (b :: f ++ CLOSE_BRACE :: s) with ((b :: f) ++ CLOSE_BRACE :: s).
  rewrite take_app_length' by done.
  assert (drop (S (S (length f))) ((b :: f) ++ CLOSE_BRACE :: s) = s) as ->.
  { cbn. rewrite <- Nat.add_1_r, <- drop_drop, drop_app_length. done. }
  apply scan_fuel; lia.
Qed.

(** ** Patterns and items correspond *)

Lemma print_head l s : normal l → print l = OPEN_BRACE :: s → starts_with_brace l = true.
Proof.
  destruct l as [|i l]; intros Hn; [done|]. destruct (normal_cons _ _ Hn) as (Hi&_&_).
  destruct i; try discriminate. destruct value as [|b v]; [done|]. cbn [print escape starts_with_brace].
  destruct (Byte.eqb b PERCENT); [discriminate|]. intros [= -> _]. done.
Qed.

Lemma print_scan l : ∀ lit acc, normal l → (lit ≠ [] → ∀ j l', l = j :: l' → is_literal j = false) →
  ∃ lit' acc', scan_all (print l) lit acc = inr (lit', acc') ∧
    addLiteral lit' acc' = addLiteral lit acc ++ map Some l.
Proof.
  induction l as [|i l IH]; intros lit acc Hn Hlit.
  { exists lit, acc. by rewrite app_nil_r. }
  destruct (normal_cons _ _ Hn) as (Hi&Hl&Hnext). destruct (is_literal i) eqn:Ei.
  - destruct i as [s| | | | | | | | | | | | |]; try discriminate Ei. cbn [print]. rewrite scan_escape.
    destruct lit as [|b lit]; [|by specialize (Hlit ltac:(done) _ _ eq_refl)]. cbn [app].
    destruct (IH s acc Hl) as (lit'&acc'&Es&Ea); [intros _; by apply Hnext|].
    exists lit', acc'. split; [done|]. rewrite Ea. destruct s; [done|]. cbn. by rewrite <- app_assoc.
  - assert (∃ f, scan_all (print (i :: l)) lit acc =
      scan_all (print l) [] (addLiteral lit acc ++ [CreateFormatItem (letter i) f]) ∧
      CreateFormatItem (letter i) f = Some i) as (f&Ef&Ei').
    { assert (∀ f, (match i with DateTime g => f = g ∧ g ≠ [] | _ => True end) →
        CreateFormatItem (letter i) f = Some i ∧ Byte.eqb (letter i) PERCENT = false) as Hc
        by (intros; by apply CreateFormatItem_letter).
      assert (print (i :: l) = PERCENT :: letter i :: argument i l ++ print l) as -> by (by destruct i).
      assert ((∃ f, i = DateTime f) ∨ ∀ f, i ≠ DateTime f) as [[f ->]|Hd]
        by (destruct i; try (by right); by left; eexists).
      { destruct Hi as [Hf Hcl]. exists f. destruct (Hc f) as [E1 E2]; [done|]. split; [|done].
        by apply scan_argument. }
      assert (∀ f, CreateFormatItem (letter i) f = Some i ∧ Byte.eqb (letter i) PERCENT = false) as Hc'.
      { intros f. apply Hc. destruct i; try done. by edestruct Hd. }
      assert (argument i l = if starts_with_brace l then $"{-}" else []) as ->.
      { destruct i; try done. by edestruct Hd. }
      destruct (starts_with_brace l) eqn:Eb.
      - exists $"-". destruct (Hc' $"-") as [E1 E2]. split; [|done].
        apply (scan_argument (letter i) $"-"); [done|done|]. apply not_elem_of_cons. split; [done|].
        apply not_elem_of_nil.
      - exists []. destruct (Hc' []) as [E1 E2]. split; [|done]. apply scan_plain; [done|].
        intros s' E. by rewrite (print_head l s' Hl E) in Eb. }
    rewrite Ef, Ei'. destruct (IH [] (addLiteral lit acc ++ [Some i]) Hl) as (lit'&acc'&Es&Ea); [done|].
    exists lit', acc'. split; [done|]. rewrite Ea. cbn [addLiteral map]. by rewrite <- app_assoc.
Qed.

Lemma mapM_snoc (l : items) x la : mapM id (l ++ [x]) = Some la →
  ∃ l0 i, mapM id l = Some l0 ∧ x = Some i ∧ la = l0 ++ [i].
Proof.
  revert la. induction l as [|y l IH]; intros la; cbn.
  - destruct x as [i|]; [|done]. intros [= <-]. by exists [], i.
  - destruct y as [j|]; [|done]. cbn. destruct (mapM id (l ++ [x])) as [l'|] eqn:E; [|done].
    intros [= <-]. destruct (IH l' eq_refl) as (l0&i&->&->&->). by exists (j :: l0), i.
Qed.

(** What is collected stays normal, and its last item is a directive. *)
Definition collected (acc : items) : Prop := ∀ la, mapM id acc = Some la →
  normal la ∧ ∀ j, last la = Some j → is_literal j = false.

Lemma collected_flush lit acc la : collected acc → mapM id (addLiteral lit acc) = Some la → normal la.
Proof.
  intros H. destruct lit as [|b lit]; [by intros Hl; apply H|]. intros Hl.
  apply (mapM_snoc acc) in Hl as (l0&i&Hl0&Hi&->). injection Hi as <-. destruct (H l0 Hl0) as [Hn Hlast].
  by apply normal_snoc.
Qed.

Lemma collected_directive lit acc d f : collected acc → CLOSE_BRACE ∉ f →
  collected (addLiteral lit acc ++ [CreateFormatItem d f]).
Proof.
  intros H Hf la Hla. apply mapM_snoc in Hla as (l0&i&Hl0&Hi&->).
  pose proof (collected_flush lit acc l0 H Hl0) as Hn. destruct (CreateFormatItem_ok d f i Hi Hf) as [Hok Hli].
  split; [apply normal_snoc; [done|done|by rewrite Hli]|]. intros j. rewrite last_snoc. by intros [= <-].
Qed.

Lemma find_char_before c s k : find_char c s = Some k → c ∉ take k s.
Proof.
  revert k. induction s as [|b s IH]; intros k; cbn; [done|].
  destruct (Byte.eqb b c) eqn:E; [intros [= <-]; apply not_elem_of_nil|].
  destruct (find_char c s) as [j|]; [|done]. intros [= <-]. cbn. apply not_elem_of_cons. split.
  - intros ->. by rewrite byte_eqb_refl in E.
  - by apply IH.
Qed.

Lemma scan_collected n : ∀ s lit acc lit' acc', collected acc → scan n s lit acc = inr (lit', acc') →
  collected acc'.
Proof.
  induction n as [|n IH]; intros s lit acc lit' acc' H; cbn [scan]; [by intros [= _ <-]|].
  destruct s as [|b s]; [by intros [= _ <-]|]. destruct (negb _); [by apply IH|].
  destruct s as [|d s]; [done|]. destruct (Byte.eqb d PERCENT); [by apply IH|].
  destruct s as [|c s]; [by apply IH, collected_directive; [|apply not_elem_of_nil]|].
  destruct (Byte.eqb c OPEN_BRACE); [|by apply IH, collected_directive; [|apply not_elem_of_nil]].
  destruct (find_char CLOSE_BRACE s) as [[|k]|] eqn:Ek; try done.
  apply IH, collected_directive; [done|]. by apply find_char_before.
Qed.

Lemma mapM_Some l : mapM id (map Some l : items) = Some l.
Proof. induction l as [|i l IH]; [done|]. cbn. by rewrite IH. Qed.

(** Patterns and lists of items correspond: every pattern the formatter
    accepts gives a list in normal form - no empty literal, no two in a row, no
    empty date format - and every such list has a pattern that gives exactly it,
    with escaped percent signs and with arguments in braces. *)
Theorem pattern_round_trip l : normal l ↔ ∃ pattern, Formatter pattern = Some l ∧
  Formatter (print l) = Some l.
Proof.
  assert (normal l → Formatter (print l) = Some l) as Hp.
  { intros Hn. rewrite Formatter_scan. destruct (print_scan l [] [] Hn) as (lit&acc&->&->); [done|].
    apply mapM_Some. }
  split; [by intros Hn; exists (print l); auto|]. intros (pattern&Hf&_). rewrite Formatter_scan in Hf.
  destruct (scan_all pattern [] []) as [e|[lit acc]] eqn:E; [done|].
  assert (collected []) as H0.
  { intros la Hla. injection Hla as <-. split; [by split|done]. }
  apply (collected_flush lit acc); [|done]. apply (scan_collected _ _ _ _ _ _ H0 E).
Qed.

(** ** Buffers, dates and digits *)

(** The invariant of the buffer of a record. *)
Definition buffer_ok (b : InlineBuffer) : Prop :=
  match overflow_ b with [] => size_ b = length (inline_ b) | o => size_ b = length o end.

Lemma append_view capacity data b : buffer_ok b →
  buffer_ok (append capacity data b) ∧ view (append capacity data b) = view b ++ data.
Proof.
  unfold buffer_ok, view, append. intros H. destruct data as [|x data]; [by rewrite app_nil_r|].
  destruct (overflow_ b) as [|y o] eqn:Eo.
  - rewrite H, firstn_all. destruct (Nat.leb _ _).
    + cbn [overflow_ size_ inline_]. rewrite length_app. split; [done|].
      by rewrite take_ge by (rewrite length_app; lia).
    + cbn [overflow_ size_]. destruct (inline_ b ++ x :: data) as [|z r] eqn:E.
      { by apply app_nil in E as [_ ?]. }
      split; [done|]. by rewrite firstn_all.
  - cbn [overflow_ size_ app]. split; [done|]. rewrite H. by rewrite !firstn_all.
Qed.

Section dates.
Context (strftime : str → Z → option str) (leftover : str → Z → str).

(** What is appended for a record is the concatenation of the texts of its items. *)
Fixpoint texts (l : list FormatItem) (r : LogRecordView) (c : date_cache) : str * date_cache :=
  match l with
  | [] => ([], c)
  | i :: l =>
      let '(t, c) := format_item strftime leftover i r c in
      let '(ts, c) := texts l r c in (t ++ ts, c)
  end.

Lemma format_view l : ∀ r output c, buffer_ok output →
  let '(output', c') := format strftime leftover l r output c in
  buffer_ok output' ∧ view output' = view output ++ (texts l r c).1 ∧ c' = (texts l r c).2.
Proof.
  induction l as [|i l IH]; intros r output c Hb; cbn [format texts]; [by rewrite app_nil_r|].
  destruct (format_item _ _ _ _ _) as [t c1].
  destruct (append_view FORMATTED_RECORD_INLINE_CAPACITY t output Hb) as [Hb' Hv].
  specialize (IH r _ c1 Hb'). destruct (format _ _ l r _ c1) as [o c']. destruct (texts l r c1) as [ts c2].
  destruct IH as (H1&H2&H3). split_and!; [done| |done]. by rewrite H2, Hv, <- app_assoc.
Qed.

(** The text of an item for a record, without a cache. *)
Definition item_text (i : FormatItem) (r : LogRecordView) : str :=
  match i with
  | DateTime f => default [] (strftime f (Z.quot (timestamp_ r) 1000000000))
  | _ => (format_item strftime leftover i r new_cache).1
  end.

(** One date format that always fits the buffer of the cache. *)
Definition one_format (f : str) (l : list FormatItem) : Prop :=
  Forall (λ i, match i with DateTime g => g = f | _ => True end) l.
Definition fits (f : str) : Prop :=
  ∀ second, ∃ t, strftime f second = Some t ∧ (0 < length t < cached_size)%nat.

Definition cache_ok (f : str) (c : date_cache) : Prop :=
  last_second c ≠ 0 → strftime f (last_second c) = Some (cached_date_time c).

Lemma texts_cached f l : ∀ r c, one_format f l → fits f → cache_ok f c →
  Z.quot (timestamp_ r) 1000000000 ≠ 0 →
  (texts l r c).1 = l ≫= (λ i, item_text i r) ∧ cache_ok f (texts l r c).2.
Proof.
  induction l as [|i l IH]; intros r c Hl Hf Hc Hr; [done|]. inversion Hl as [|? ? Hi Hl']; subst.
  cbn [texts mbind list_bind].
  assert (∃ c1, format_item strftime leftover i r c = (item_text i r, c1) ∧ cache_ok f c1) as (c1&->&Hc1).
  { destruct i; try (by exists c). cbn [format_item item_text]. subst format0. unfold format_date.
    destruct (Hf (Z.quot (timestamp_ r) 1000000000)) as (t&Et&Ht).
    destruct (Z.eqb_spec (Z.quot (timestamp_ r) 1000000000) (last_second c)) as [E|E]; cbn [negb].
    - exists c. split; [|done]. rewrite E in Hr |- *. by rewrite (Hc Hr).
    - rewrite Et, (proj2 (Nat.eqb_neq _ _)), (proj2 (Nat.leb_gt _ _)) by lia. cbn [orb].
      eexists. split; [done|]. intros _. done. }
  destruct (IH r c1 Hl' Hf Hc1 Hr) as [E H]. destruct (texts l r c1) as [ts c2]. cbn [fst snd] in *.
  by rewrite E.
Qed.

(** What a formatter appends for a record is the concatenation of what its
    items say about this record, dates included: the date a thread has cached is
    never that of another second, as long as the thread uses one date format whose
    text fits the buffer, and no record is of the first second of the epoch. *)
Theorem records_formatted_exactly f l r output c :
  buffer_ok output → one_format f l → fits f → cache_ok f c →
  Z.quot (timestamp_ r) 1000000000 ≠ 0 →
  let '(output', c') := format strftime leftover l r output c in
  buffer_ok output' ∧ view output' = view output ++ (l ≫= (λ i, item_text i r)) ∧ cache_ok f c'.
Proof.
  intros Hb Hl Hf Hc Hr. pose proof (format_view l r output c Hb) as Hv.
  destruct (texts_cached f l r c Hl Hf Hc Hr) as [E H].
  destruct (format _ _ l r output c) as [o c']. destruct Hv as (H1&H2&->). by rewrite H2, E.
Qed.
End dates.

(** Six digits that are the microseconds of the second. *)
Lemma length_digits n z : length (digits n z) = n.
Proof. revert z. induction n as [|n IH]; intros z; cbn; [done|]. rewrite length_app, IH. cbn. lia. Qed.

Lemma microseconds_range t : 0 <= microseconds t < 1000000.
Proof.
  unfold microseconds. pose proof (Z.rem_bound_abs (Z.quot t 1000) 1000000 ltac:(lia)) as Hb.
  destruct (Z.ltb_spec (Z.rem (Z.quot t 1000) 1000000) 0); lia.
Qed.

(** Levels are read back from their names, up to case; longer texts are written
    behind the array. *)
Lemma levels_read_back : Forall (λ l, FromString (ToString l) = Some l ∧
  FromString (map (λ b, if (65 <=? code b) && (code b <=? 90) then chr (code b + 32) else b) (ToString l)) = Some l)
  [LOG_LV_DEBUG; LOG_LV_INFO; LOG_LV_WARN; LOG_LV_ERROR; LOG_LV_FATAL; LOG_LV_OFF].
Proof. by repeat constructor. Qed.

Lemma FromString_overflows value : FromString value = None ↔ (6 < length value)%nat.
Proof. unfold FromString. destruct (Nat.ltb_spec 6 (length value)); split; (done || lia). Qed.

(** ** Witness *)

Definition plain_strftime (f : str) (second : Z) : option str := Some ($"s" ++ digits 6 second).

Lemma records_formatted_exactly_witness :
  let r := mkRecord LOG_LV_INFO $"root" $"hello" 3000000007 0 1 2 $"main" $"a.cc" 10 in
  view (format plain_strftime (λ _ _, []) [DateTime $"%s"; Tab; Message] r empty_buffer new_cache).1 =
  $"s000003" ++ [x09] ++ $"hello".
Proof.
  intros r.
  assert (one_format $"%s" [DateTime $"%s"; Tab; Message]) as Hl by (by repeat constructor).
  assert (fits plain_strftime $"%s") as Hf.
  { intros second. eexists. split; [reflexivity|]. rewrite length_app, length_digits.
    change (length $"s") with 1%nat. unfold cached_size. lia. }
  assert (cache_ok plain_strftime $"%s" new_cache) as Hc by (intros Hne; by destruct Hne).
  pose proof (records_formatted_exactly plain_strftime (λ _ _, []) $"%s" [DateTime $"%s"; Tab; Message] r
    empty_buffer new_cache eq_refl Hl Hf Hc ltac:(vm_compute; discriminate)) as H.
  destruct (format _ _ _ _ _ _) as [o c] eqn:E in H. destruct H as (_&H&_).
  transitivity (view o); [exact (eq_sym (f_equal (λ x, view x.1) (eq_sym E)))|].
  rewrite H. vm_compute. reflexivity.
Defined.
End LogFormatProofs.
