(* ===== verification/Logger.v ===== *)
(** Loggers and appenders ([droplet/src/logger/logger.cc], [appender.cc],
    [log_line.cc]): levels, the lines of the program, the way of a record from a
    logger, or the root in its place, through the formatter to the appenders, and
    the table of loggers by name. *)

From stdpp Require Import gmap.
From S2P Require Import Prelude LogFormat.
Import LogFormat.

Module Logger.

(** ** Appenders *)

(** What reaches the stream or file of an appender. *)
Inductive output_event := Write (formatted_record : str) | Flush | Sync.

Record Appender := mkAppender { appender_level : Z; written : list output_event }.

Definition emit (e : list output_event) (a : Appender) : Appender :=
  mkAppender (appender_level a) (written a ++ e).

(** [Appender::Impl::append]. *)
Definition append_record (level : Z) (formatted_record : str) (a : Appender) : Appender :=
  if level <? appender_level a then a
  else
    let a := emit [Write formatted_record] a in
    if level =? LOG_LV_FATAL then emit [Flush] a else a.

Definition appender_flush : Appender → Appender := emit [Flush].
Definition appender_sync : Appender → Appender := emit [Sync].
Definition set_appender_level (level : Z) (a : Appender) : Appender := mkAppender level (written a).

(** ** Loggers *)

Definition DEFAULT_LOG_PATTERN : str :=
  $"%d{%Y-%m-%d %H:%M:%S}.%u%Tthread=%t%Tfiber=%F%T[%p]%T%f:%l%T%m%n".

Record Logger := mkLogger {
  name_ : str;
  logger_level : Z;
  pattern_ : str;
  items_ : list FormatItem;
  appenders_ : list positive;
  root_ : option positive;
}.

(** The constructor; [None] when it throws. *)
Definition make (name : str) (root : option positive) : option Logger :=
  match name with
  | [] => None
  | _ =>
      items ← Formatter DEFAULT_LOG_PATTERN;
      Some (mkLogger name LOG_LV_DEBUG DEFAULT_LOG_PATTERN items [] root)
  end.

Definition setLevel (level : Z) (l : Logger) : Logger :=
  mkLogger (name_ l) level (pattern_ l) (items_ l) (appenders_ l) (root_ l).
(** A pattern that is refused throws and leaves the logger alone. *)
Definition setFormatter (pattern : str) (l : Logger) : bool * Logger :=
  match Formatter pattern with
  | None => (false, l)
  | Some items => (true, mkLogger (name_ l) (logger_level l) pattern items (appenders_ l) (root_ l))
  end.
Definition set_appenders (a : list positive) (l : Logger) : Logger :=
  mkLogger (name_ l) (logger_level l) (pattern_ l) (items_ l) a (root_ l).
Definition addAppender (a : option positive) (l : Logger) : Logger :=
  match a with None => l | Some a => set_appenders (appenders_ l ++ [a]) l end.
Definition removeAppender (a : positive) (l : Logger) : Logger :=
  set_appenders (filter (λ b, b ≠ a) (appenders_ l)) l.
Definition clearAppenders (l : Logger) : Logger := set_appenders [] l.

(** The loggers and appenders by pointer, and the date cache of the thread. *)
Record world := mkWorld {
  loggers : gmap positive Logger;
  appenders : gmap positive Appender;
  cache : date_cache;
}.

Definition on_appenders (f : Appender → Appender) (l : list positive) (w : world) : world :=
  mkWorld (loggers w) (foldl (λ m a, alter f a m) (appenders w) l) (cache w).
Definition on_logger (f : Logger → Logger) (p : positive) (w : world) : world :=
  mkWorld (alter f p (loggers w)) (appenders w) (cache w).

Section logging.
Context (strftime : str → Z → option str) (leftover : str → Z → str).

(** The loops over the chain of roots; [None] when the fuel is used up or a
    pointer is none of a logger. *)
Fixpoint shouldLog (fuel : nat) (level : Z) (p : positive) (w : world) : option bool :=
  match fuel with
  | O => None
  | S fuel =>
      l ← loggers w !! p;
      if level <? logger_level l then Some false
      else
        match appenders_ l, root_ l with
        | _ :: _, _ => Some true
        | [], None => Some false
        | [], Some root => shouldLog fuel level root w
        end
  end.

Fixpoint submit (fuel : nat) (r : LogRecordView) (p : positive) (w : world) : option world :=
  match fuel with
  | O => None
  | S fuel =>
      l ← loggers w !! p;
      if level_ r <? logger_level l then Some w
      else
        match appenders_ l, root_ l with
        | [], None => Some w
        | [], Some root => submit fuel r root w
        | targets, _ =>
            let '(formatted_record, c) := format strftime leftover (items_ l) r empty_buffer (cache w) in
            let w := mkWorld (loggers w) (appenders w) c in
            Some (on_appenders (append_record (level_ r) (view formatted_record)) targets w)
        end
  end.

(** [flush] and [sync]. *)
Fixpoint for_appenders (fuel : nat) (f : Appender → Appender) (p : positive) (w : world) : option world :=
  match fuel with
  | O => None
  | S fuel =>
      l ← loggers w !! p;
      match appenders_ l, root_ l with
      | [], None => Some w
      | [], Some root => for_appenders fuel f root w
      | targets, _ => Some (on_appenders f targets w)
      end
  end.
Definition flush (fuel : nat) : positive → world → option world := for_appenders fuel appender_flush.
Definition sync (fuel : nat) : positive → world → option world := for_appenders fuel appender_sync.

(** ** Lines of the program *)

(** What the constructor of a line reads from the clocks and the thread. *)
Record surroundings := mkSurroundings {
  timestamp : Z;
  elapsed : Z;
  threadId : Z;
  fiberId : Z;
  threadName : str;
}.

Record LogLine := mkLine {
  m_logger : positive;
  m_level : Z;
  m_line : Z;
  m_fileName : str;
  m_at : surroundings;
  m_inlineBuffer : InlineBuffer;
}.

Definition LOG_MESSAGE_INLINE_CAPACITY : nat := 128.
Definition PRINTF_FORMAT_INLINE_CAPACITY : nat := 128.

(** [SmallStreamBuffer::xsputn] and [overflow], where [None] is the end of file. *)
Definition xsputn (data : str) (l : LogLine) : LogLine :=
  mkLine (m_logger l) (m_level l) (m_line l) (m_fileName l) (m_at l)
    (append LOG_MESSAGE_INLINE_CAPACITY data (m_inlineBuffer l)).
Definition overflow (character : option byte) (l : LogLine) : LogLine :=
  match character with None => l | Some b => xsputn [b] l end.

Definition getRecord (name : str) (l : LogLine) : LogRecordView :=
  mkRecord (m_level l) name (view (m_inlineBuffer l)) (timestamp (m_at l)) (elapsed (m_at l))
    (threadId (m_at l)) (fiberId (m_at l)) (threadName (m_at l)) (m_fileName l) (m_line l).

(** The destructor. *)
Definition end_line (fuel : nat) (l : LogLine) (w : world) : option world :=
  logger ← loggers w !! m_logger l;
  submit fuel (getRecord (name_ logger) l) (m_logger l) w.

(** [LogPrintf] between the constructor and the destructor of its line.
    [vsnprintf i n] is the result of the first or second call with an array of
    [n] bytes and what the array then holds. *)
Definition LogPrintf (has_format : bool) (vsnprintf : nat → nat → Z * str) (l : LogLine) : LogLine :=
  if negb has_format then xsputn $"<null-format>" l
  else
    let '(required_size, inline_buffer) := vsnprintf 0%nat PRINTF_FORMAT_INLINE_CAPACITY in
    if required_size <? 0 then xsputn $"<format-error>" l
    else
      let message_size := Z.to_nat required_size in
      if Nat.ltb message_size PRINTF_FORMAT_INLINE_CAPACITY
      then xsputn (take message_size inline_buffer) l
      else
        let '(second_result, overflow_buffer) := vsnprintf 1%nat (message_size + 1)%nat in
        if second_result <? 0 then xsputn $"<format-error>" l
        else xsputn (take message_size overflow_buffer) l.

(** The macros: a line is only made when it should be logged; [message] is what
    the program writes to it. *)
Definition log (fuel : nat) (logger : option positive) (level line : Z) (file_name : str)
    (at_ : surroundings) (message : LogLine → LogLine) (w : world) : option world :=
  match logger with
  | None => Some w
  | Some p =>
      b ← shouldLog fuel level p w;
      if b : bool
      then end_line fuel (message (mkLine p level line file_name at_ empty_buffer)) w
      else Some w
  end.
End logging.

(** ** The manager *)

Record LoggerManager := mkManager { heap : world; table : gmap str positive; root : positive }.

(** The constructor: the root with an appender of the standard output. *)
Definition make_manager (c : date_cache) : option LoggerManager :=
  l ← make $"root" None;
  Some (mkManager (mkWorld {[1%positive := addAppender (Some 1%positive) l]}
                     {[1%positive := mkAppender LOG_LV_DEBUG []]} c)
          {[$"root" := 1%positive]} 1%positive).

Definition getLogger (name : str) (m : LoggerManager) : option positive * LoggerManager :=
  match name with
  | [] => (None, m)
  | _ =>
      match table m !! name with
      | Some p => (Some p, m)
      | None =>
          match make name (Some (root m)) with
          | None => (None, m)
          | Some l =>
              let p := fresh (dom (loggers (heap m))) in
              (Some p, mkManager (mkWorld (<[p := l]> (loggers (heap m))) (appenders (heap m)) (cache (heap m)))
                         (<[name := p]> (table m)) (root m))
          end
      end
  end.
End Logger.
