(* ===== verification/LoggerProofs.v ===== *)
(** What the loggers guarantee: one logger for a name, and a record that reaches
    the appenders of its logger, or of the root in its place, exactly when
    [shouldLog] says so. *)

From stdpp Require Import gmap.
From S2P Require Import Prelude LogFormat LogFormatProofs Logger.
Import LogFormat LogFormatProofs Logger.

Module LoggerProofs.

(** ** The table of the manager *)

Record manager_ok (m : LoggerManager) : Prop := {
  ok_root : table m !! $"root" = Some (root m);
  ok_names n p : table m !! n = Some p → ∃ l, loggers (heap m) !! p = Some l ∧ name_ l = n;
  ok_roots p l : loggers (heap m) !! p = Some l → root_ l = if decide (p = root m) then None else Some (root m);
}.

Lemma default_pattern_accepted : ∃ items, Formatter DEFAULT_LOG_PATTERN = Some items.
Proof. eexists. vm_compute. reflexivity. Qed.

Lemma make_logger n r : n ≠ [] → ∃ l, make n r = Some l ∧ name_ l = n ∧ root_ l = r ∧ appenders_ l = [].
Proof.
  intros Hn. unfold make. destruct default_pattern_accepted as [items ->]. cbn. destruct n; [done|].
  eexists. by split_and!.
Qed.

Lemma manager_made c : ∃ m, make_manager c = Some m ∧ manager_ok m.
Proof.
  unfold make_manager. destruct (make_logger $"root" None) as (l&->&Hn&Hr&_); [done|].
  eexists. split; [done|]. split; cbn [table heap root loggers].
  - apply lookup_singleton_eq.
  - intros n p [<- <-]%lookup_singleton_Some. eexists. rewrite lookup_singleton_eq. by split.
  - intros p k [<- <-]%lookup_singleton_Some. by rewrite decide_True.
Qed.

(** Changing a logger without its name and its root keeps the table. *)
Lemma on_logger_ok f p m : (∀ l, name_ (f l) = name_ l ∧ root_ (f l) = root_ l) → manager_ok m →
  manager_ok (mkManager (on_logger f p (heap m)) (table m) (root m)).
Proof.
  intros Hf [H1 H2 H3]. split; cbn [table heap root on_logger loggers]; [done|..].
  - intros n q Hq. destruct (H2 n q Hq) as (l&Hl&Hn). destruct (decide (q = p)) as [->|Hne].
    + exists (f l). rewrite lookup_alter_eq, Hl. split; [done|]. by rewrite (proj1 (Hf l)).
    + exists l. by rewrite lookup_alter_ne.
  - intros q l. destruct (decide (q = p)) as [->|Hne].
    + rewrite lookup_alter_eq. destruct (loggers (heap m) !! p) as [k|] eqn:E; [|done].
      intros [= <-]. rewrite (proj2 (Hf k)). by apply H3.
    + rewrite lookup_alter_ne by done. apply H3.
Qed.

(** The manager keeps one logger for every name: [getLogger] gives a logger
    of that name, the same one for the same name ever after and different ones
    for different names; only the empty name is refused. *)
Theorem one_logger_per_name m n : manager_ok m →
  let '(r, m') := getLogger n m in
  manager_ok m' ∧ getLogger n m' = (r, m') ∧ (r = None ↔ n = []) ∧
  (∀ p, r = Some p → ∃ l, loggers (heap m') !! p = Some l ∧ name_ l = n) ∧
  (∀ n' p', (getLogger n' m').1 = Some p' → r = Some p' → n' = n) ∧
  (∀ n' p', table m !! n' = Some p' → table m' !! n' = Some p').
Proof.
  intros Hm. pose proof Hm as [H1 H2 H3].
  assert (∀ k n1 n2 p, manager_ok k → table k !! n1 = Some p → table k !! n2 = Some p → n1 = n2) as Hinj.
  { intros k n1 n2 p Hk Ha Hb. destruct (ok_names k Hk n1 p Ha) as (l&Hl&<-).
    destruct (ok_names k Hk n2 p Hb) as (l'&Hl'&<-). congruence. }
  assert (∀ k n' p', manager_ok k → n ≠ [] → (∃ p, table k !! n = Some p ∧ p = p') →
    (getLogger n' k).1 = Some p' → n' = n) as Huniq.
  { intros k n' p' Hk Hn (p&Hp&->) Hg. unfold getLogger in Hg. destruct n' as [|b n']; [done|].
    destruct (table k !! (b :: n')) as [q|] eqn:E; [injection Hg as ->; by apply (Hinj k _ _ p')|].
    destruct (make _ _) as [l|]; [|done]. injection Hg as Hg.
    destruct (ok_names k Hk n p' Hp) as (l'&Hl'&_). exfalso.
    apply (is_fresh (dom (loggers (heap k)))). rewrite Hg. by apply elem_of_dom_2 in Hl'. }
  destruct n as [|b n]; [by split_and!|]. unfold getLogger at 1.
  destruct (table m !! (b :: n)) as [p|] eqn:Ep.
  { split_and!; try done.
    - unfold getLogger. by rewrite Ep.
    - intros q [= <-]. by apply H2.
    - intros n' p' Hg [= <-]. apply (Huniq m n' p); [done|done|by exists p|done]. }
  destruct (make_logger (b :: n) (Some (root m)) ltac:(done)) as (l&->&Hn&Hr&_).
  set (p := fresh (dom (loggers (heap m)))).
  assert (loggers (heap m) !! p = None) as Hp by (apply not_elem_of_dom, is_fresh).
  set (m' := mkManager _ _ _).
  assert (table m' !! (b :: n) = Some p) as Ht by apply lookup_insert_eq.
  assert (loggers (heap m') !! p = Some l) as Hl by apply lookup_insert_eq.
  assert (p ≠ root m) as Hpr.
  { intros E. destruct (H2 _ _ H1) as (k&Hk&_). rewrite <- E in Hk. congruence. }
  assert (manager_ok m') as Hm'.
  { split; cbn [table heap root m' loggers].
    - rewrite lookup_insert_ne; [done|]. intros E. congruence.
    - intros n' q. destruct (decide (n' = b :: n)) as [->|Hne].
      + rewrite lookup_insert_eq. intros [= <-]. by exists l.
      + rewrite lookup_insert_ne by done. intros Hq. destruct (H2 _ _ Hq) as (k&Hk&Hkn). exists k.
        split; [|done]. rewrite lookup_insert_ne; [done|]. intros <-. congruence.
    - intros q k. destruct (decide (q = p)) as [->|Hne].
      + rewrite lookup_insert_eq. intros [= <-]. by rewrite decide_False.
      + rewrite lookup_insert_ne by done. apply H3. }
  split_and!; try done.
  - unfold getLogger. by rewrite Ht.
  - intros q [= <-]. by exists l.
  - intros n' p' Hg [= <-]. apply (Huniq m' n' p); [done|done|by exists p|done].
  - intros n' p' Hp'. cbn [table m']. rewrite lookup_insert_ne; [done|]. intros <-. congruence.
Qed.

(** ** The way of a record *)

(** An appender listed once is given the record once, the others nothing. *)
Lemma on_appenders_once f l w a : NoDup l →
  appenders (on_appenders f l w) !! a = (if decide (a ∈ l) then f <$> appenders w !! a else appenders w !! a).
Proof.
  intros Hl. cbn [on_appenders appenders]. generalize (appenders w). induction Hl as [|x l Hx _ IH]; intros m; [done|].
  cbn [foldl]. rewrite IH. destruct (decide (a = x)) as [->|Hne].
  - rewrite decide_False by done. rewrite decide_True by (by left). by rewrite lookup_alter_eq.
  - rewrite lookup_alter_ne by done. destruct (decide (a ∈ l)) as [Hin|Hin].
    + by rewrite decide_True by (by right).
    + rewrite decide_False; [done|]. by intros [?|?]%elem_of_cons.
Qed.

Section logging.
Context (strftime : str → Z → option str) (leftover : str → Z → str).

(** A record has an effect exactly when [shouldLog] answers yes for its
    level: it is then formatted once, by the nearest logger with appenders - the
    one it was logged to or the root - and handed to all appenders of that logger
    in order; both questions are always answered, with a chain of at most two. *)
Theorem submitted_as_announced m p l r : manager_ok m → loggers (heap m) !! p = Some l →
  ∃ b w', shouldLog 2 (level_ r) p (heap m) = Some b ∧
    submit strftime leftover 2 r p (heap m) = Some w' ∧
    (b = false → w' = heap m) ∧
    (b = true → logger_level l <= level_ r ∧ ∃ q t,
      (q = p ∨ (q = root m ∧ appenders_ l = [])) ∧ loggers (heap m) !! q = Some t ∧
      appenders_ t ≠ [] ∧ logger_level t <= level_ r ∧
      let '(o, c) := format strftime leftover (items_ t) r empty_buffer (cache (heap m)) in
      w' = on_appenders (append_record (level_ r) (view o)) (appenders_ t)
             (mkWorld (loggers (heap m)) (appenders (heap m)) c)).
Proof.
  intros [H1 H2 H3] Hl. cbn [shouldLog submit]. rewrite Hl. cbn [mbind option_bind].
  destruct (Z.ltb_spec (level_ r) (logger_level l)) as [Hlt|Hge]; [by exists false, (heap m)|].
  destruct (appenders_ l) as [|a targets] eqn:Ea.
  2: { destruct (format _ _ (items_ l) r empty_buffer (cache (heap m))) as [o c] eqn:Eo.
       eexists true, _. split; [done|]. split; [done|]. split; [done|]. intros _. split; [done|]. exists p, l. rewrite Ea, Eo.
       split_and!; try done. by left. }
  rewrite (H3 p l Hl). destruct (decide (p = root m)) as [->|Hne]; [by exists false, (heap m)|].
  destruct (H2 _ _ H1) as (k&Hk&_). rewrite Hk. cbn [mbind option_bind].
  destruct (Z.ltb_spec (level_ r) (logger_level k)) as [Hlt|Hge']; [by exists false, (heap m)|].
  destruct (appenders_ k) as [|a targets] eqn:Ek.
  { rewrite (H3 _ k Hk), decide_True by done. by exists false, (heap m). }
  destruct (format _ _ (items_ k) r empty_buffer (cache (heap m))) as [o c] eqn:Eo.
  eexists true, _. split; [done|]. split; [done|]. split; [done|]. intros _. split; [done|]. exists (root m), k. rewrite Ek, Eo.
  split_and!; try done. by right.
Qed.
End logging.

(** ** Lines *)

(** Whatever the length of the text [vsnprintf] makes, in the first array or in
    the second of its size, all of it becomes the message. *)
Theorem printf_message vsnprintf text l :
  buffer_ok (m_inlineBuffer l) →
  (∀ i n, (vsnprintf i n).1 = Z.of_nat (length text) ∧ take (n - 1) (vsnprintf i n).2 = take (n - 1) text) →
  view (m_inlineBuffer (LogPrintf true vsnprintf l)) = view (m_inlineBuffer l) ++ text.
Proof.
  intros Hb Hv. assert (∀ data, data = text →
    view (m_inlineBuffer (xsputn data l)) = view (m_inlineBuffer l) ++ text) as Hx.
  { intros data ->. by apply append_view. }
  assert (∀ i n, (length text < n)%nat → take (length text) (vsnprintf i n).2 = text) as Ht.
  { intros i n Hn. destruct (Hv i n) as [_ E]. apply (f_equal (take (length text))) in E.
    rewrite !take_take, Nat.min_l in E by lia. by rewrite E, firstn_all. }
  unfold LogPrintf. cbn [negb].
  pose proof (Hv 0%nat PRINTF_FORMAT_INLINE_CAPACITY) as [E0 _].
  pose proof (Ht 0%nat PRINTF_FORMAT_INLINE_CAPACITY) as T0.
  destruct (vsnprintf 0%nat _) as [r out]. cbn [fst snd] in E0, T0. subst r.
  rewrite (proj2 (Z.ltb_ge _ 0)), Nat2Z.id by lia.
  destruct (Nat.ltb_spec (length text) PRINTF_FORMAT_INLINE_CAPACITY) as [Hlt|Hge]; [by apply Hx, T0|].
  pose proof (Hv 1%nat (length text + 1)%nat) as [E1 _].
  pose proof (Ht 1%nat (length text + 1)%nat ltac:(lia)) as T1.
  destruct (vsnprintf 1%nat _) as [r out']. cbn [fst snd] in E1, T1. subst r.
  rewrite (proj2 (Z.ltb_ge _ 0)) by lia. by apply Hx.
Qed.

(** ** Witnesses *)

Definition sample_manager : LoggerManager := default (mkManager (mkWorld ∅ ∅ new_cache) ∅ 1) (make_manager new_cache).
Lemma sample_manager_ok : manager_ok sample_manager.
Proof. unfold sample_manager. destruct (manager_made new_cache) as (m&->&Hm). exact Hm. Qed.

Lemma one_logger_per_name_witness :
  let '(r, m) := getLogger $"system" sample_manager in
  r ≠ None ∧ getLogger $"system" m = (r, m).
Proof.
  pose proof (one_logger_per_name sample_manager $"system" sample_manager_ok) as H.
  destruct (getLogger $"system" sample_manager) as [r m]. destruct H as (_&H&Hn&_).
  split; [|exact H]. intros E. apply Hn in E. discriminate E.
Defined.

Lemma submitted_as_announced_witness :
  let r := mkRecord LOG_LV_INFO $"root" $"hello" 3000000007 0 1 2 $"main" $"a.cc" 10 in
  ∃ b w', shouldLog 2 (level_ r) 1 (heap sample_manager) = Some b ∧
    submit plain_strftime (λ _ _, []) 2 r 1 (heap sample_manager) = Some w'.
Proof.
  intros r. destruct (loggers (heap sample_manager) !! 1%positive) as [l|] eqn:E; [|discriminate E].
  destruct (submitted_as_announced plain_strftime (λ _ _, []) sample_manager 1 l r sample_manager_ok E)
    as (b&w'&Hb&Hw&_). exists b, w'. split; [exact Hb|exact Hw].
Defined.
End LoggerProofs.
