(* ===== verification/Appenders.v ===== *)
(** Where records go ([droplet/src/logger/appender.cc]): the appenders of [Logger] with the
    stream or file behind them.  A file has what the kernel holds of it and how much of
    that is on the disk; the buffers of the C library may be written out at any time,
    and every transfer can fail. *)

From S2P Require Import Prelude LogFormat Logger.

Module Appenders.
Import LogFormat.

(** ** State *)

Record File := mkFile { contents : str; durable : nat }.

(** [std::cout] has one buffer for all; a file appender has a [FILE] of its own. *)
Inductive output := ToStdout | ToFile (name : str) (buffer : str).

Record Impl := mkImpl { level_ : Z; out : output }.

Record world := mkWorld {
  files : gmap str File;
  cout_buffer : str;
  terminal : str;
  error_output : str;
  impls : gmap positive Impl;
}.

(** The answers of the system to the calls of one operation: how many bytes [fwrite] takes, how many
    [fflush] and [fclose] write ([None]: all), whether [fdatasync] and locking
    succeed. *)
Record answers := mkAnswers {
  accepts : option nat;
  moves : option nat;
  closes : option nat;
  syncs : bool;
  locks : bool;
}.

Definition all_well : answers := mkAnswers None None None true true.

Definition count (n : option nat) (s : str) : nat := match n with None => length s | Some n => n end.

Definition set_files (f : gmap str File) (w : world) : world :=
  mkWorld f (cout_buffer w) (terminal w) (error_output w) (impls w).
Definition set_cout (b t : str) (w : world) : world :=
  mkWorld (files w) b t (error_output w) (impls w).
Definition set_error (e : str) (w : world) : world :=
  mkWorld (files w) (cout_buffer w) (terminal w) e (impls w).
Definition set_impls (i : gmap positive Impl) (w : world) : world :=
  mkWorld (files w) (cout_buffer w) (terminal w) (error_output w) i.

(** ** The operations behind the lock *)

(** [std::cout] takes bytes and writes some out. *)
Definition cout_write (bytes : str) (w : world) : world :=
  set_cout (cout_buffer w ++ bytes) (terminal w) w.
Definition cout_drain (n : nat) (w : world) : world :=
  set_cout (drop n (cout_buffer w)) (terminal w ++ take n (cout_buffer w)) w.

(** A [FILE] takes bytes and writes some out. *)
Definition file_write (p : positive) (l : Z) (name buffer bytes : str) (w : world) : world :=
  set_impls (<[p := mkImpl l (ToFile name (buffer ++ bytes))]> (impls w)) w.
Definition file_drain (p : positive) (l : Z) (name buffer : str) (n : nat) (w : world) : world :=
  set_files (alter (λ f, mkFile (contents f ++ take n buffer) (durable f)) name (files w))
    (set_impls (<[p := mkImpl l (ToFile name (drop n buffer))]> (impls w)) w).

(** [writeUnlocked]; nobody looks at how much was taken. *)
Definition writeUnlocked (p : positive) (i : Impl) (formatted_record : str) (a : answers) (w : world) : world :=
  let taken := take (count (accepts a) formatted_record) formatted_record in
  match out i with
  | ToStdout => cout_write taken w
  | ToFile name buffer => file_write p (level_ i) name buffer taken w
  end.

(** [n] bytes of the buffer are written, when the library finds it full or is asked
    to. *)
Definition drain (p : positive) (n : nat) (w : world) : world :=
  match impls w !! p with
  | Some (mkImpl l ToStdout) => cout_drain n w
  | Some (mkImpl l (ToFile name buffer)) => file_drain p l name buffer n w
  | None => w
  end.

(** What the library still holds for an appender. *)
Definition pending (p : positive) (w : world) : str :=
  match impls w !! p with
  | Some (mkImpl _ ToStdout) => cout_buffer w
  | Some (mkImpl _ (ToFile _ buffer)) => buffer
  | None => []
  end.

Definition flushUnlocked (p : positive) (a : answers) (w : world) : world :=
  drain p (count (moves a) (pending p w)) w.

Definition fdatasync (name : str) (w : world) : world :=
  set_files (alter (λ f, mkFile (contents f) (length (contents f))) name (files w)) w.

Definition syncUnlocked (p : positive) (a : answers) (w : world) : world :=
  let w := flushUnlocked p a w in
  match impls w !! p with
  | Some (mkImpl _ (ToFile name _)) => if syncs a then fdatasync name w else w
  | _ => w
  end.

(** ** The operations *)

Definition failure_message : str := $"pans logger: appender operation failed" ++ [LF].

(** [Appender::Impl::append]. *)
Definition append (p : positive) (level : Z) (formatted_record : str) (a : answers) (w : world) : world :=
  match impls w !! p with
  | None => w
  | Some i =>
      if level <? level_ i then w
      else if negb (locks a) then set_error (error_output w ++ failure_message) w
      else
        let w := writeUnlocked p i formatted_record a w in
        if level =? LOG_LV_FATAL then flushUnlocked p a w else w
  end.

(** [AppenderAccess::Append]: a null pointer is no appender. *)
Definition Append (appender : option positive) (level : Z) (formatted_record : str) (a : answers) (w : world) : world :=
  match appender with Some p => append p level formatted_record a w | None => w end.

Definition setLevel (p : positive) (level : Z) (w : world) : world :=
  set_impls (alter (λ i, mkImpl level (out i)) p (impls w)) w.

Definition flush (p : positive) (a : answers) (w : world) : world := flushUnlocked p a w.
Definition sync (p : positive) (a : answers) (w : world) : world := syncUnlocked p a w.

(** What the constructors throw. *)
Inductive error := InvalidArgument | SystemError (errno : Z).

(** The name [fopen] sees ends at the first zero byte. *)
Definition c_str (s : str) : str :=
  match find_char Byte.x00 s with Some i => take i s | None => s end.

(** [fopen] in mode "ab" makes the file when there is none; [refused] is its [errno]. *)
Definition MakeFileAppender (p : positive) (file_name : str) (refused : option Z) (w : world) : error + world :=
  match file_name with
  | [] => inl InvalidArgument
  | _ =>
      match refused with
      | Some errno => inl (SystemError errno)
      | None =>
          let name := c_str file_name in
          let f := default (mkFile [] 0) (files w !! name) in
          inr (set_files (<[name := f]> (files w))
                 (set_impls (<[p := mkImpl LOG_LV_DEBUG (ToFile name [])]> (impls w)) w))
      end
  end.

Definition MakeStdoutAppender (p : positive) (w : world) : world :=
  set_impls (<[p := mkImpl LOG_LV_DEBUG ToStdout]> (impls w)) w.

(** The destructor: [fflush], then [fclose], which writes what is left if it can. *)
Definition destroy (p : positive) (a : answers) (w : world) : world :=
  let w :=
    match impls w !! p with
    | Some (mkImpl _ (ToFile _ _)) =>
        let w := flushUnlocked p a w in drain p (count (closes a) (pending p w)) w
    | _ => w
    end in
  set_impls (delete p (impls w)) w.

(** ** Runs: the operations of all threads in the order of their locks *)

Inductive label :=
  | LAppend (appender : option positive) (level : Z) (formatted_record : str) (a : answers)
  | LFlush (p : positive) (a : answers)
  | LSync (p : positive) (a : answers)
  | LSetLevel (p : positive) (level : Z)
  | LMakeFile (p : positive) (file_name : str) (refused : option Z)
  | LMakeStdout (p : positive)
  | LDestroy (p : positive) (a : answers)
  | LSpill (p : positive) (n : nat).

Definition step (l : label) (w : world) : world :=
  match l with
  | LAppend appender level formatted_record a => Append appender level formatted_record a w
  | LFlush p a => flush p a w
  | LSync p a => sync p a w
  | LSetLevel p level => setLevel p level w
  | LMakeFile p file_name refused =>
      match MakeFileAppender p file_name refused w with inr w => w | inl _ => w end
  | LMakeStdout p => MakeStdoutAppender p w
  | LDestroy p a => destroy p a w
  | LSpill p n => drain p n w
  end.

Definition run (ls : list label) (w : world) : world := foldl (λ w l, step l w) w ls.

(** What an operation adds to what an appender has taken, and its level behind it. *)
Definition taken (p : positive) (lvl : Z) (l : label) : str :=
  match l with
  | LAppend (Some q) level r a =>
      if bool_decide (q = p) && negb (level <? lvl) && locks a then take (count (accepts a) r) r else []
  | _ => []
  end.

Definition level_after (p : positive) (lvl : Z) (l : label) : Z :=
  match l with LSetLevel q level => if decide (q = p) then level else lvl | _ => lvl end.

Fixpoint all_taken (p : positive) (lvl : Z) (ls : list label) : str :=
  match ls with
  | [] => []
  | l :: ls => taken p lvl l ++ all_taken p (level_after p lvl l) ls
  end.

(** The records an appender lets through. *)
Fixpoint records (p : positive) (lvl : Z) (ls : list label) : list str :=
  match ls with
  | [] => []
  | LAppend (Some q) level r _ :: ls =>
      (if bool_decide (q = p) && negb (level <? lvl) then [r] else []) ++ records p lvl ls
  | l :: ls => records p (level_after p lvl l) ls
  end.

(** The operation neither ends the appender, nor takes its pointer, nor opens its file
    again. *)
Definition keeps (p : positive) (name : str) (l : label) : bool :=
  match l with
  | LMakeFile q n _ => negb (bool_decide (q = p)) && negb (bool_decide (c_str n = name))
  | LMakeStdout q | LDestroy q _ => negb (bool_decide (q = p))
  | _ => true
  end.

(** The system takes whole records. *)
Definition well (p : positive) (l : label) : bool :=
  match l with
  | LAppend (Some q) _ _ a => negb (bool_decide (q = p)) || (bool_decide (accepts a = None) && locks a)
  | _ => true
  end.

End Appenders.
