(* ===== verification/AppendersProofs.v ===== *)
(** Appenders: the file of a sole appender and the buffer behind it hold what was taken
    of the records it let through, in order, whatever other appenders do and whenever
    buffers are written out; what flushing, syncing, fatal records and the destructor add to that,
    and what is lost when the system refuses. *)

From S2P Require Import Prelude LogFormat Logger Appenders.

Module AppendersProofs.
Import LogFormat Appenders.

Definition file_of (o : output) : option str :=
  match o with ToStdout => None | ToFile name _ => Some name end.

(** No other appender writes to the file. *)
Definition sole (p : positive) (name : str) (w : world) : Prop :=
  ∀ q i, q ≠ p → impls w !! q = Some i → file_of (out i) ≠ Some name.

(** The appender has this level and file; the kernel and the buffer together have the
    bytes [total]. *)
Definition holds (p : positive) (name : str) (lvl : Z) (total : str) (w : world) : Prop :=
  (∃ buf f, impls w !! p = Some (mkImpl lvl (ToFile name buf)) ∧ files w !! name = Some f ∧
    contents f ++ buf = total ∧ (durable f ≤ length (contents f))%nat) ∧
  sole p name w.

(** Changes elsewhere do not matter. *)
Lemma holds_frame p name lvl total w w' :
  holds p name lvl total w → impls w' !! p = impls w !! p → files w' !! name = files w !! name →
  sole p name w' → holds p name lvl total w'.
Proof.
  intros [(buf&f&Hi&Hf&?&?) _] E1 E2 Hs. split; [|done]. exists buf, f. by rewrite E1, E2.
Qed.

Lemma sole_insert p name q l o w :
  sole p name w → file_of o ≠ Some name → sole p name (set_impls (<[q := mkImpl l o]> (impls w)) w).
Proof. intros Hs Ho r i Hr. cbn. intros [[<- <-]|[? ?]]%lookup_insert_Some; [done|by apply (Hs r)]. Qed.

Lemma drain_holds p name lvl total q n w :
  holds p name lvl total w → holds p name lvl total (drain q n w).
Proof.
  intros Hh. pose proof Hh as [(buf&f&Hi&Hf&Ht&Hd) Hs]. unfold drain.
  destruct (impls w !! q) as [[l [|name' buf']]|] eqn:Hq; [| |done].
  { by apply (holds_frame _ _ _ _ w). }
  destruct (decide (q = p)) as [->|Hne].
  - rewrite Hi in Hq. injection Hq as <- <- <-. split.
    + eexists _, _. cbn. rewrite lookup_insert_eq, lookup_alter_eq, Hf. split_and!; [done|reflexivity| |].
      * cbn. by rewrite <- app_assoc, take_drop.
      * cbn. rewrite length_app. lia.
    + intros r i Hr. cbn. rewrite lookup_insert_ne by done. by apply Hs.
  - pose proof (Hs q _ Hne Hq) as Hne'. cbn in Hne'.
    apply (holds_frame _ _ _ _ w); [done|..].
    + cbn. by rewrite lookup_insert_ne.
    + cbn. rewrite lookup_alter_ne; congruence.
    + apply (sole_insert p name q l (ToFile name' (drop n buf'))); done.
Qed.

Lemma sync_holds p name lvl total q a w :
  holds p name lvl total w → holds p name lvl total (sync q a w).
Proof.
  intros Hh. unfold sync, syncUnlocked. assert (holds p name lvl total (flushUnlocked q a w)) as Hf
    by by apply drain_holds.
  destruct (impls (flushUnlocked q a w) !! q) as [[l [|name' buf']]|]; [done| |done].
  destruct (syncs a); [|done]. destruct Hf as [(buf&f&Hi&Hf&Ht&Hd) Hs]. split; [|done].
  destruct (decide (name' = name)) as [->|Hne].
  - eexists _, _. cbn. rewrite lookup_alter_eq, Hf. split_and!; [done|reflexivity|done|]. cbn. lia.
  - exists buf, f. cbn. rewrite lookup_alter_ne; done.
Qed.

Lemma write_holds p name lvl total i r a w :
  impls w !! p = Some i → holds p name lvl total w →
  holds p name lvl (total ++ take (count (accepts a) r) r) (writeUnlocked p i r a w).
Proof.
  intros Hp [(buf&f&Hi&Hf&Ht&Hd) Hs]. rewrite Hp in Hi. injection Hi as ->. split.
  - eexists _, f. cbn. rewrite lookup_insert_eq. split_and!; [reflexivity|done| |done].
    rewrite app_assoc. by f_equal.
  - intros r' i Hr. cbn. rewrite lookup_insert_ne by done. by apply Hs.
Qed.

Lemma append_holds p name lvl total o level r a w :
  holds p name lvl total w →
  holds p name lvl (total ++ taken p lvl (LAppend o level r a)) (Append o level r a w).
Proof.
  intros Hh. pose proof Hh as [(buf&f&Hi&Hf&Ht&Hd) Hs].
  destruct o as [q|]; cbn [Append taken]; [|by rewrite app_nil_r]. unfold append.
  assert (holds p name lvl
    (total ++ if bool_decide (q = p) && negb (level <? lvl) && locks a then take (count (accepts a) r) r else [])
    match impls w !! q with
    | Some i => if level <? level_ i then w
        else if negb (locks a) then set_error (error_output w ++ failure_message) w else writeUnlocked q i r a w
    | None => w
    end) as Hw.
  { destruct (decide (q = p)) as [->|Hne].
    - rewrite bool_decide_eq_true_2, Hi by done. cbn [level_].
      destruct (level <? lvl); cbn [negb andb]; [by rewrite app_nil_r|].
      destruct (locks a); cbn [negb].
      + by apply write_holds.
      + rewrite app_nil_r. by apply (holds_frame _ _ _ _ w).
    - rewrite bool_decide_eq_false_2 by done. cbn [andb]. rewrite app_nil_r.
      destruct (impls w !! q) as [[l o']|] eqn:Hq; [|done]. cbn [level_].
      destruct (level <? l); [done|]. destruct (locks a); cbn [negb]; [|by apply (holds_frame _ _ _ _ w)].
      unfold writeUnlocked. cbn [out level_]. destruct o' as [|name' buf']; [by apply (holds_frame _ _ _ _ w)|].
      apply (holds_frame _ _ _ _ w); [done|cbn; by rewrite lookup_insert_ne|done|].
      apply (sole_insert p name q l (ToFile name' _)); [done|]. exact (Hs q _ Hne Hq). }
  destruct (impls w !! q) as [i|]; [|done]. destruct (level <? level_ i); [done|].
  destruct (negb (locks a)); [done|]. destruct (level =? LOG_LV_FATAL); [|done]. by apply drain_holds.
Qed.

Lemma destroy_holds p name lvl total q a w :
  q ≠ p → holds p name lvl total w → holds p name lvl total (destroy q a w).
Proof.
  intros Hne Hh. unfold destroy.
  assert (∀ w, holds p name lvl total w → holds p name lvl total (set_impls (delete q (impls w)) w)) as Hdel.
  { intros v Hv. apply (holds_frame _ _ _ _ v); [done|cbn; by rewrite lookup_delete_ne|done|].
    intros r i Hr. cbn. intros [? ?]%lookup_delete_Some. by apply (proj2 Hv r). }
  apply Hdel. destruct (impls w !! q) as [[l [|name' buf']]|]; [done| |done]. by do 2 apply drain_holds.
Qed.

Lemma make_file_holds p name lvl total q n refused w :
  q ≠ p → c_str n ≠ name → holds p name lvl total w →
  holds p name lvl total match MakeFileAppender q n refused w with inr w => w | inl _ => w end.
Proof.
  intros Hq Hn Hh. unfold MakeFileAppender. destruct n as [|b n]; [done|]. destruct refused; [done|].
  apply (holds_frame _ _ _ _ w); [done|..].
  - cbn [impls set_files set_impls]. by rewrite lookup_insert_ne.
  - cbn [files set_files set_impls]. by rewrite lookup_insert_ne.
  - apply (sole_insert p name q); [apply Hh|]. cbn [file_of]. congruence.
Qed.

Lemma step_holds p name lvl total l w :
  keeps p name l → holds p name lvl total w →
  holds p name (level_after p lvl l) (total ++ taken p lvl l) (step l w).
Proof.
  intros Hk Hh. destruct l as [o level r a|q a|q a|q level|q n refused|q|q a|q n];
    cbn [step level_after]; [by apply append_holds|..]; cbn [taken]; rewrite app_nil_r; cbn [keeps] in Hk.
  - by apply drain_holds.
  - by apply sync_holds.
  - destruct Hh as [(buf&f&Hi&Hf&?&?) Hs]. split.
    + exists buf, f. unfold setLevel. cbn. case_decide as E.
      * subst q. by rewrite lookup_alter_eq, Hi.
      * by rewrite lookup_alter_ne.
    + intros r i Hr. cbn. rewrite lookup_alter_Some.
      intros [(_&j&Hj&->)|[_ ?]]; [exact (Hs r j Hr Hj)|by apply (Hs r)].
  - apply andb_prop_elim in Hk as [H1 H2]. apply negb_prop_elim in H1, H2. rewrite bool_decide_spec in H1, H2.
    by apply make_file_holds.
  - apply negb_prop_elim in Hk. rewrite bool_decide_spec in Hk.
    apply (holds_frame _ _ _ _ w); [done|cbn; by rewrite lookup_insert_ne|done|]. apply (sole_insert p name q); [apply Hh|done].
  - apply negb_prop_elim in Hk. rewrite bool_decide_spec in Hk. by apply destroy_holds.
  - by apply drain_holds.
Qed.

Definition final_level (p : positive) (lvl : Z) (ls : list label) : Z := foldl (level_after p) lvl ls.

Lemma run_holds p name lvl total ls w :
  Forall (keeps p name) ls → holds p name lvl total w →
  holds p name (final_level p lvl ls) (total ++ all_taken p lvl ls) (run ls w).
Proof.
  intros Hls. revert lvl total w. induction Hls as [|l ls Hl _ IH]; intros lvl total w Hh.
  - by rewrite app_nil_r.
  - cbn [all_taken]. rewrite app_assoc. apply IH. by apply step_holds.
Qed.

(** When the system takes whole records, they are all there. *)
Lemma all_taken_records p lvl ls : Forall (well p) ls → all_taken p lvl ls = concat (records p lvl ls).
Proof.
  intros Hls. revert lvl. induction Hls as [|l ls Hl _ IH]; intros lvl; [done|].
  destruct l as [[q|] level r a| | | | | | |]; cbn [all_taken records taken level_after app]; try apply IH.
  rewrite concat_app, <- IH. f_equal. cbn [well] in Hl. destruct (bool_decide (q = p)); [|done].
  cbn [negb orb] in Hl. apply andb_prop_elim in Hl as [Ha Hk]. apply bool_decide_spec in Ha.
  apply Is_true_true in Hk. rewrite Hk, Ha, andb_true_r. cbn [andb count].
  destruct (negb (level <? lvl)); cbn; [|done]. by rewrite app_nil_r, take_ge.
Qed.

Lemma run_app ls ls' w : run (ls ++ ls') w = run ls' (run ls w).
Proof. apply foldl_app. Qed.

(** A flush the system carries out leaves nothing in the buffer. *)
Lemma flush_empties p name lvl total a w :
  moves a = None → holds p name lvl total w →
  ∃ f, impls (flush p a w) !! p = Some (mkImpl lvl (ToFile name [])) ∧
    files (flush p a w) !! name = Some f ∧ contents f = total.
Proof.
  intros Ha [(buf&f&Hi&Hf&Ht&_) _]. unfold flush, flushUnlocked, pending, drain. rewrite Ha, Hi. cbn.
  rewrite lookup_insert_eq, lookup_alter_eq, Hf, drop_all, take_ge by done. eauto.
Qed.

Lemma sync_empties p name lvl total a w :
  moves a = None → syncs a = true → holds p name lvl total w →
  ∃ f, files (sync p a w) !! name = Some f ∧ contents f = total ∧ durable f = length total.
Proof.
  intros Ha Hs Hh. destruct (flush_empties p name lvl total a w Ha Hh) as (f&Hi&Hf&Ht).
  unfold sync, syncUnlocked. unfold flush in *. rewrite Hi, Hs. cbn. rewrite lookup_alter_eq, Hf.
  eexists. split; [reflexivity|]. cbn. by rewrite Ht.
Qed.

Lemma destroy_empties p name lvl total a w :
  moves a = None → holds p name lvl total w →
  ∃ f, files (destroy p a w) !! name = Some f ∧ contents f = total.
Proof.
  intros Ha Hh. destruct (flush_empties p name lvl total a w Ha Hh) as (f&Hi&Hf&Ht).
  pose proof Hh as [(buf&_&Hp&_) _]. unfold destroy. rewrite Hp. unfold flush in *. unfold drain, pending.
  rewrite Hi. cbn. rewrite lookup_alter_eq, Hf. eexists. split; [reflexivity|]. cbn.
  by rewrite take_nil, app_nil_r.
Qed.

(** C18: an appender that is the only one of its file.  Over any operations of a
    program on its appenders that neither open the file again nor end the
    appender, at any moments at which the C library writes buffers out and
    whatever the system refuses, the file and the buffer together hold what the
    library took of the records the appender let through, in order and behind
    what the file had - the whole records, if the library takes them whole and
    the lock works; a flush, a fatal record or the destructor that the system
    carries out brings all of it to the kernel and a sync to the disk.  Without
    the first assumption see [shared_file_tears_records], without the last
    [torn_record]. *)
Theorem file_holds_records p name lvl f ls w :
  impls w !! p = Some (mkImpl lvl (ToFile name [])) → files w !! name = Some f →
  (durable f ≤ length (contents f))%nat → sole p name w →
  Forall (keeps p name) ls →
  let all := contents f ++ all_taken p lvl ls in
  (Forall (well p) ls → all = contents f ++ concat (records p lvl ls)) ∧
  (∃ g, files (run ls w) !! name = Some g ∧ contents g ++ pending p (run ls w) = all) ∧
  (∃ g, files (flush p all_well (run ls w)) !! name = Some g ∧ contents g = all) ∧
  (∃ g, files (sync p all_well (run ls w)) !! name = Some g ∧ contents g = all ∧ durable g = length all) ∧
  (∃ g, files (destroy p all_well (run ls w)) !! name = Some g ∧ contents g = all) ∧
  (∀ r, final_level p lvl ls <= LOG_LV_FATAL →
     ∃ g, files (append p LOG_LV_FATAL r all_well (run ls w)) !! name = Some g ∧ contents g = all ++ r).
Proof.
  intros Hi Hf Hd Hs Hk. cbv zeta.
  assert (holds p name lvl (contents f) w) as Hh.
  { split; [|done]. exists [], f. by rewrite app_nil_r. }
  apply (run_holds _ _ _ _ ls) in Hh; [|done].
  split; [intros Hw; by rewrite all_taken_records|].
  set (all := contents f ++ all_taken p lvl ls) in *. split_and!.
  - destruct Hh as [(buf&g&Hi'&Hf'&Ht&_) _]. exists g. split; [done|]. unfold pending. by rewrite Hi'.
  - destruct (flush_empties p name _ all all_well _ eq_refl Hh) as (g&_&?&?). eauto.
  - by apply (sync_empties p name (final_level p lvl ls)).
  - by apply (destroy_empties p name (final_level p lvl ls)).
  - intros r Hl. pose proof Hh as [(buf&g&Hi'&_) _]. unfold append. rewrite Hi'. cbn [level_].
    rewrite (proj2 (Z.ltb_ge _ _) Hl). cbn [negb locks all_well]. change (LOG_LV_FATAL =? LOG_LV_FATAL) with true.
    apply (write_holds _ _ _ _ _ r all_well _ Hi') in Hh. cbn [accepts all_well count] in Hh.
    rewrite firstn_all in Hh. destruct (flush_empties p name _ _ all_well _ eq_refl Hh) as (g'&_&?&?). eauto.
Qed.

(** Two threads log to a file that has a line; the library writes in the middle of a record. *)
Definition demo_world : world :=
  mkWorld {[$"app.log" := mkFile $"old;" 0]} [] [] [] {[1%positive := mkImpl LOG_LV_DEBUG (ToFile $"app.log" [])]}.
Definition demo_run : list label :=
  [LAppend (Some 1%positive) 2 $"one;" all_well; LSpill 1 2; LMakeStdout 2;
   LAppend (Some 2%positive) 2 $"two;" all_well; LSetLevel 1 3; LAppend (Some 1%positive) 2 $"three;" all_well;
   LAppend (Some 1%positive) 3 $"four;" all_well; LFlush 2 all_well].

Lemma demo_sole : sole 1 $"app.log" demo_world.
Proof. intros q i Hq. cbn. intros [E _]%lookup_singleton_Some. by destruct Hq. Qed.

Lemma file_holds_records_witness :
  ∃ g, files (sync 1 all_well (run demo_run demo_world)) !! $"app.log" = Some g ∧
    contents g = $"old;" ++ concat [$"one;"; $"four;"].
Proof.
  destruct (file_holds_records 1 $"app.log" LOG_LV_DEBUG (mkFile $"old;" 0) demo_run demo_world
    eq_refl eq_refl (Nat.le_0_l _) demo_sole) as (Hall&_&_&(g&Hg&Hc&_)&_).
  - repeat constructor.
  - exists g. split; [exact Hg|]. rewrite Hc. apply Hall. repeat constructor.
Defined.

(** A full disk: the end of a record and all of the next one are lost, later records follow the torn
    one, and no call reports anything. *)
Definition refusing (n : nat) : answers := mkAnswers (Some n) None None true true.

Example torn_record :
  let w := run [LAppend (Some 1%positive) 2 $"one;" (refusing 2); LAppend (Some 1%positive) 2 $"two;" (refusing 0);
                LAppend (Some 1%positive) 2 $"three;" all_well; LFlush 1 all_well] demo_world in
  contents <$> files w !! $"app.log" = Some $"old;onthree;" ∧ error_output w = [].
Proof. vm_compute. done. Qed.

(** Two appenders of one file have a buffer each: records are torn where one is written out. *)
Example shared_file_tears_records :
  let w := run [LMakeFile 2 $"app.log" None; LAppend (Some 1%positive) 2 $"one;" all_well; LSpill 1 2;
                LAppend (Some 2%positive) 2 $"two;" all_well; LFlush 2 all_well; LFlush 1 all_well] demo_world in
  contents <$> files w !! $"app.log" = Some $"old;ontwo;e;".
Proof. vm_compute. done. Qed.

(** ** The appenders of [Logger] *)

(** What one output event does to the stream or file. *)
Definition perform (p : positive) (e : Logger.output_event) (w : world) : world :=
  match e with
  | Logger.Write r => match impls w !! p with Some i => writeUnlocked p i r all_well w | None => w end
  | Logger.Flush => flushUnlocked p all_well w
  | Logger.Sync => syncUnlocked p all_well w
  end.

(** An appender of [Logger] is this appender with its events still to be performed. *)
Lemma append_performs_events p level r i w a :
  impls w !! p = Some i → level_ i = Logger.appender_level a →
  ∃ es, Logger.append_record level r a = Logger.emit es a ∧
    append p level r all_well w = foldl (λ w e, perform p e w) w es.
Proof.
  intros Hi Hl. unfold append, Logger.append_record. rewrite Hi, Hl.
  destruct (level <? Logger.appender_level a).
  { exists []. split; [|done]. destruct a. unfold Logger.emit. cbn. by rewrite app_nil_r. }
  cbn [negb locks all_well]. destruct (level =? LOG_LV_FATAL).
  - exists [Logger.Write r; Logger.Flush]. split; [|cbn; by rewrite Hi].
    unfold Logger.emit. cbn. by rewrite <- app_assoc.
  - exists [Logger.Write r]. split; [done|]. cbn. by rewrite Hi.
Qed.

(** Opening an appender: the empty name and a name the system refuses throw and
    change nothing - with the error the system gave; otherwise the file is there,
    with what it had, and the new appender lets everything through. *)
Theorem make_file_outcomes p file_name refused w :
  match MakeFileAppender p file_name refused w with
  | inl InvalidArgument => file_name = []
  | inl (SystemError errno) => file_name ≠ [] ∧ refused = Some errno
  | inr w' =>
      file_name ≠ [] ∧ refused = None ∧
      impls w' !! p = Some (mkImpl LOG_LV_DEBUG (ToFile (c_str file_name) [])) ∧
      (∀ q, q ≠ p → impls w' !! q = impls w !! q) ∧
      files w' !! c_str file_name = Some (default (mkFile [] 0) (files w !! c_str file_name)) ∧
      (∀ n, n ≠ c_str file_name → files w' !! n = files w !! n)
  end.
Proof.
  unfold MakeFileAppender. destruct file_name as [|b n] eqn:E; [done|]. destruct refused as [errno|]; [done|].
  cbn. rewrite !lookup_insert_eq. split_and!; [done..| |done|]; intros; by rewrite lookup_insert_ne.
Qed.

End AppendersProofs.
