(* ===== verification/Convert.v ===== *)
(** Conversions of configuration values ([droplet/include/droplet/config/convert.h],
    [src/config/convert.cc]): truth words, integers, enumerations, sequences, sets
    and maps with string keys, from YAML nodes and to them.  The nodes are those of
    a library and a class here. *)

From S2P Require Import Prelude StringUtils.
Import StringUtils.

Module Convert.

(** ** Nodes *)

(** What the code uses of [YAML::Node]. *)
Class Yaml (node : Type) := {
  IsDefined : node → bool;
  IsNull : node → bool;
  IsScalar : node → bool;
  IsSequence : node → bool;
  IsMap : node → bool;
  Scalar : node → str;
  items : node → list node;
  entries : node → list (node * node);
  scalar_node : str → node;
  bool_node : bool → node;
  sequence_node : node;
  push_back : node → node → node;
  map_node : node;
  set_key : node → str → node → node;
}.

(** ** Words *)

Definition ToLowerAscii (b : byte) : byte :=
  if (65 <=? code b) && (code b <=? 90) then chr (code b - 65 + 97) else b.

Definition TRUE_WORDS : list str := [$"true"; $"yes"; $"on"; $"y"; $"1"; $"t"].
Definition FALSE_WORDS : list str := [$"false"; $"no"; $"off"; $"n"; $"0"; $"f"].

Fixpoint same_lowered (lhs rhs : str) : bool :=
  match lhs, rhs with
  | l :: lhs, r :: rhs =>
      if negb (Byte.eqb (ToLowerAscii l) (ToLowerAscii r)) then false else same_lowered lhs rhs
  | _, _ => true
  end.
Definition EqualsIgnoreCase (lhs rhs : str) : bool :=
  if negb (Nat.eqb (length lhs) (length rhs)) then false else same_lowered lhs rhs.

(** [None] where the code returns false. *)
Definition ParseBool (text : str) : option bool :=
  let body := Trim text ASCII_WHITESPACE in
  if existsb (EqualsIgnoreCase body) TRUE_WORDS then Some true
  else if existsb (EqualsIgnoreCase body) FALSE_WORDS then Some false
  else None.

(** ** Integers *)

Record integer := mkInteger { signed : bool; bits : Z }.

Definition least (i : integer) : Z := if signed i then - 2 ^ (bits i - 1) else 0.
Definition greatest (i : integer) : Z := if signed i then 2 ^ (bits i - 1) - 1 else 2 ^ bits i - 1.
Definition in_range (i : integer) (v : Z) : bool := (least i <=? v) && (v <=? greatest i).

(** [std::from_chars]: the value and the number of characters, or an error. *)
Definition from_chars_integer (i : integer) (base : Z) (s : str) : option (Z * nat) :=
  let '(negative, digits) :=
    match s with
    | b :: rest => if signed i && Byte.eqb b "-" then (true, rest) else (false, s)
    | [] => (false, s)
    end in
  let '(v, n) := scan_digits base 0 0 digits in
  let v := if negative : bool then - v else v in
  if Nat.eqb n 0 then None
  else if in_range i v then Some (v, if negative then S n else n)
  else None.

(** [std::to_chars] in base ten. *)
Definition to_chars_integer (v : Z) : str := if v <? 0 then "-"%byte :: to_dec (- v) else to_dec v.

(** ** Types *)

Inductive sequence := Vector | List | Set_ | UnorderedSet.
Inductive string_map := Map | UnorderedMap.

(** The types the templates are instantiated with; an enumeration has a name of
    its own and an underlying type. *)
Inductive ty :=
  | TBool
  | TString
  | TInteger (i : integer)
  | TEnum (name : str) (underlying : integer)
  | TSequence (k : sequence) (t : ty)
  | TStringMap (k : string_map) (t : ty).

(** Sets and maps are kept in the order of their elements and keys. *)
Fixpoint value (t : ty) : Type :=
  match t with
  | TBool => bool
  | TString => str
  | TInteger _ | TEnum _ _ => Z
  | TSequence _ t => list (value t)
  | TStringMap _ t => list (str * value t)
  end.

(** [operator<] and [==] of the types as one comparison. *)
Fixpoint lexicographic {A} (cmp : A → A → comparison) (l k : list A) : comparison :=
  match l, k with
  | [], [] => Eq
  | [], _ => Lt
  | _, [] => Gt
  | x :: l, y :: k => match cmp x y with Eq => lexicographic cmp l k | c => c end
  end.
Definition compare_bool (a b : bool) : comparison :=
  match a, b with false, true => Lt | true, false => Gt | _, _ => Eq end.
Definition compare_byte (a b : byte) : comparison := code a ?= code b.
Definition compare_str : str → str → comparison := lexicographic compare_byte.
Definition compare_pair {A B} (ca : A → A → comparison) (cb : B → B → comparison) (p q : A * B) : comparison :=
  match ca p.1 q.1 with Eq => cb p.2 q.2 | c => c end.
Fixpoint compare (t : ty) : value t → value t → comparison :=
  match t with
  | TBool => compare_bool
  | TString => compare_str
  | TInteger _ | TEnum _ _ => Z.compare
  | TSequence _ t => lexicographic (compare t)
  | TStringMap _ t => lexicographic (compare_pair compare_str (compare t))
  end.

(** [emplace] of a container with unique elements: one that is there stays. *)
Fixpoint emplace_unique {A} (cmp : A → A → comparison) (x : A) (l : list A) : list A :=
  match l with
  | [] => [x]
  | y :: l' =>
      match cmp x y with
      | Lt => x :: l
      | Eq => l
      | Gt => y :: emplace_unique cmp x l'
      end
  end.

Definition emplace {A} (k : sequence) (cmp : A → A → comparison) (x : A) (l : list A) : list A :=
  match k with
  | Vector | List => l ++ [x]
  | Set_ | UnorderedSet => emplace_unique cmp x l
  end.
Definition compare_key {A} (p q : str * A) : comparison := compare_str p.1 q.1.

(** ** Errors *)

Inductive Reason :=
  | EmptyScalar | NotANumber | NotABool | NoNode | NotAScalar | NotASequence | NotAMap | KeyNotAScalar.

Record ConvertError := mkConvertError { type_name : ty; reason : Reason; text_ : str }.
Definition ThrowConvertError {A} (type_name : ty) (reason : Reason) (text : str) : ConvertError + A :=
  inl (mkConvertError type_name reason text).

#[global] Instance error_ret : MRet (sum ConvertError) := λ A, inr.
#[global] Instance error_bind : MBind (sum ConvertError) := λ A B f m,
  match m with inl e => inl e | inr x => f x end.

(** Decimal or hexadecimal: the base and what is behind its prefix. *)
Definition base_of (body : str) : Z * str :=
  match body with
  | b0 :: b1 :: _ :: _ =>
      if Byte.eqb b0 "0" && (Byte.eqb b1 "x" || Byte.eqb b1 "X") then (16, drop 2 body) else (10, body)
  | _ => (10, body)
  end.

(** [from_chars] of the type is an argument, so that it serves integers and
    floating-point numbers, which have no hexadecimal form. *)
Definition ParseArithmetic {T} (integral : bool) (from_chars : Z → str → option (T * nat))
    (text : str) (type_name : ty) : ConvertError + T :=
  let body := Trim text ASCII_WHITESPACE in
  match body with
  | [] => ThrowConvertError type_name EmptyScalar []
  | front :: rest =>
      let body := if Byte.eqb front "+" then rest else body in
      let '(base, body) := if integral then base_of body else (10, body) in
      match from_chars base body with
      | Some (v, n) =>
          if Nat.eqb n (length body) then inr v else ThrowConvertError type_name NotANumber text
      | None => ThrowConvertError type_name NotANumber text
      end
  end.

Section nodes.
Context {node : Type} `{!Yaml node}.
(** The order in which a hashed container is iterated. *)
Context (hash_order : ∀ A : Type, list A → list A).

Definition ScalarText (n : node) (type_name : ty) : ConvertError + str :=
  if negb (IsDefined n) then ThrowConvertError type_name NoNode []
  else if negb (IsScalar n) then ThrowConvertError type_name NotAScalar []
  else inr (Scalar n).

(** The loops of [SequenceConvert] and [StringMapConvert]. *)
Fixpoint read_items {A} (from_node : node → ConvertError + A) (emplace : A → list A → list A)
    (l : list node) (container : list A) : ConvertError + list A :=
  match l with
  | [] => inr container
  | item :: l => x ← from_node item; read_items from_node emplace l (emplace x container)
  end.
Fixpoint read_entries {A} (type_name : ty) (from_node : node → ConvertError + A)
    (l : list (node * node)) (container : list (str * A)) : ConvertError + list (str * A) :=
  match l with
  | [] => inr container
  | entry :: l =>
      if negb (IsScalar entry.1) then ThrowConvertError type_name KeyNotAScalar []
      else
        x ← from_node entry.2;
        read_entries type_name from_node l (emplace_unique compare_key (Scalar entry.1, x) container)
  end.

(** [ConfigConvert<T>::FromNode]. *)
Fixpoint FromNode (t : ty) (n : node) : ConvertError + value t :=
  match t return ConvertError + value t with
  | TBool =>
      text ← ScalarText n TBool;
      match ParseBool text with
      | Some b => inr b
      | None => ThrowConvertError TBool NotABool text
      end
  | TString => ScalarText n TString
  | TInteger i =>
      text ← ScalarText n (TInteger i); ParseArithmetic true (from_chars_integer i) text (TInteger i)
  | TEnum name i =>
      text ← ScalarText n (TEnum name i);
      ParseArithmetic true (from_chars_integer i) text (TEnum name i)
  | TSequence k t =>
      if negb (IsSequence n) then ThrowConvertError (TSequence k t) NotASequence []
      else read_items (FromNode t) (emplace k (compare t)) (items n) []
  | TStringMap k t =>
      if negb (IsMap n) then ThrowConvertError (TStringMap k t) NotAMap []
      else read_entries (TStringMap k t) (FromNode t) (entries n) []
  end.

Definition ArithmeticToNode (v : Z) : node := scalar_node (to_chars_integer v).

Definition iterate (hashed : bool) {A} (l : list A) : list A := if hashed then hash_order A l else l.
Definition hashed_sequence (k : sequence) : bool := match k with UnorderedSet => true | _ => false end.
Definition hashed_map (k : string_map) : bool := match k with UnorderedMap => true | Map => false end.

(** [ConfigConvert<T>::ToNode]. *)
Fixpoint ToNode (t : ty) : value t → node :=
  match t return value t → node with
  | TBool => bool_node
  | TString => scalar_node
  | TInteger _ | TEnum _ _ => ArithmeticToNode
  | TSequence k t => λ container,
      foldl (λ n item, push_back n (ToNode t item)) sequence_node (iterate (hashed_sequence k) container)
  | TStringMap k t => λ container,
      foldl (λ n entry, set_key n entry.1 (ToNode t entry.2)) map_node (iterate (hashed_map k) container)
  end.
End nodes.
End Convert.
