(* ===== verification/ConvertProofs.v ===== *)
(** What the conversions of configuration values guarantee: the comparison of
    every type is a total order, values survive the way through a node and back,
    every value that is read is a value of its type, and the texts accepted as
    integers and truth values are exactly the documented ones. *)

From Stdlib Require Import Sorted.
From S2P Require Import Prelude HeaderText StringUtils StringUtilsProofs Convert.
Import HeaderText StringUtils StringUtilsProofs Convert.

Module ConvertProofs.

(** ** Orders *)

Record total_order {A} (cmp : A → A → comparison) : Prop := {
  cmp_eq x y : cmp x y = Eq ↔ x = y;
  cmp_anti x y : cmp y x = CompOpp (cmp x y);
  cmp_trans x y z : cmp x y = Lt → cmp y z = Lt → cmp x z = Lt;
}.
Arguments cmp_eq {A cmp} _.
Arguments cmp_anti {A cmp} _.
Arguments cmp_trans {A cmp} _.

Lemma cmp_refl {A} {cmp : A → A → comparison} (H : total_order cmp) x : cmp x x = Eq.
Proof. by apply (cmp_eq H). Qed.

Lemma total_Z : total_order Z.compare.
Proof.
  split; intros x y; [apply Z.compare_eq_iff|apply Z.compare_antisym|].
  intros z. rewrite !Z.compare_lt_iff. lia.
Qed.
Lemma total_bool : total_order compare_bool.
Proof. split; by intros [] []; try intros []. Qed.
Lemma total_byte : total_order compare_byte.
Proof.
  unfold compare_byte. split; intros x y.
  - rewrite Z.compare_eq_iff. split; [apply code_inj|by intros ->].
  - apply Z.compare_antisym.
  - intros z. apply (cmp_trans total_Z).
Qed.

Lemma total_lexicographic {A} (cmp : A → A → comparison) :
  total_order cmp → total_order (lexicographic cmp).
Proof.
  intros H. split.
  - induction x as [|x l IH]; intros [|y k]; cbn; try done.
    destruct (cmp x y) eqn:E; [|split; [done|intros [= -> _]; by rewrite (cmp_refl H) in E]..].
    apply (cmp_eq H) in E as ->. rewrite IH. split; [by intros ->|by intros [= ->]].
  - induction x as [|x l IH]; intros [|y k]; cbn; try done.
    rewrite (cmp_anti H x y). by destruct (cmp x y); cbn.
  - induction x as [|x l IH]; intros [|y k] [|z j]; cbn; try done.
    destruct (cmp x y) eqn:E1; [|intros _|done].
    + apply (cmp_eq H) in E1 as ->. destruct (cmp y z); [apply IH|done..].
    + destruct (cmp y z) eqn:E2; [|intros _|done].
      * apply (cmp_eq H) in E2 as ->. by rewrite E1.
      * by rewrite (cmp_trans H _ _ _ E1 E2).
Qed.

Lemma total_pair {A B} (ca : A → A → comparison) (cb : B → B → comparison) :
  total_order ca → total_order cb → total_order (compare_pair ca cb).
Proof.
  intros Ha Hb. unfold compare_pair. split.
  - intros [a b] [a' b']. cbn. destruct (ca a a') eqn:E.
    + apply (cmp_eq Ha) in E as ->. rewrite (cmp_eq Hb). split; [by intros ->|by intros [= ->]].
    + split; [done|]. intros [= -> _]. by rewrite (cmp_refl Ha) in E.
    + split; [done|]. intros [= -> _]. by rewrite (cmp_refl Ha) in E.
  - intros [a b] [a' b']. cbn. rewrite (cmp_anti Ha a a'). destruct (ca a a'); cbn; [apply (cmp_anti Hb)|done..].
  - intros [a b] [a' b'] [a'' b'']. cbn. destruct (ca a a') eqn:E1; [|intros _|done].
    + apply (cmp_eq Ha) in E1 as ->. destruct (ca a' a''); [apply (cmp_trans Hb)|done..].
    + destruct (ca a' a'') eqn:E2; [|intros _|done].
      * apply (cmp_eq Ha) in E2 as ->. by rewrite E1.
      * by rewrite (cmp_trans Ha _ _ _ E1 E2).
Qed.

Lemma total_str : total_order compare_str.
Proof. apply total_lexicographic, total_byte. Qed.

Lemma total_compare t : total_order (compare t).
Proof.
  induction t as [| | | |k t IH|k t IH]; cbn [compare].
  - apply total_bool.
  - apply total_str.
  - apply total_Z.
  - apply total_Z.
  - by apply total_lexicographic.
  - apply total_lexicographic, total_pair; [apply total_str|done].
Qed.

(** ** Containers with unique elements *)

Section unique.
Context {A : Type} (cmp : A → A → comparison).
Hypothesis Htrans : ∀ x y z, cmp x y = Lt → cmp y z = Lt → cmp x z = Lt.
Hypothesis Hanti : ∀ x y, cmp y x = CompOpp (cmp x y).
Implicit Types l : list A.

Definition below (x y : A) : Prop := cmp x y = Lt.
Definition sorted : list A → Prop := StronglySorted below.

Lemma emplace_elem x y l : y ∈ emplace_unique cmp x l → y = x ∨ y ∈ l.
Proof.
  induction l as [|z l IH]; cbn; [rewrite list_elem_of_singleton; auto|].
  destruct (cmp x z); rewrite ?elem_of_cons; naive_solver.
Qed.
Lemma emplace_keeps x y l : y ∈ l → y ∈ emplace_unique cmp x l.
Proof.
  induction l as [|z l IH]; cbn; [set_solver|].
  destruct (cmp x z); rewrite ?elem_of_cons; naive_solver.
Qed.
Lemma emplace_there x l : ∃ y, y ∈ emplace_unique cmp x l ∧ (y = x ∨ cmp x y = Eq).
Proof.
  induction l as [|z l IH]; cbn; [exists x; set_solver|].
  destruct (cmp x z) eqn:E; [exists z; set_solver|exists x; set_solver|].
  destruct IH as (y&Hy&H). exists y. rewrite elem_of_cons. auto.
Qed.

Lemma emplace_sorted x l : sorted l → sorted (emplace_unique cmp x l).
Proof.
  induction 1 as [|y l Hl IH Hy]; cbn; [repeat constructor|].
  destruct (cmp x y) eqn:E; [by constructor| |].
  - constructor; [by constructor|]. constructor; [done|].
    eapply Forall_impl; [exact Hy|]. intros z. by apply Htrans.
  - constructor; [done|]. apply Forall_forall. intros z [->|Hz]%emplace_elem.
    + unfold below. by rewrite Hanti, E.
    + rewrite Forall_forall in Hy. by apply Hy.
Qed.

(** An element above all others goes to the end. *)
Lemma emplace_last x l : Forall (λ y, below y x) l → emplace_unique cmp x l = l ++ [x].
Proof.
  induction 1 as [|y l Hy _ IH]; cbn; [done|]. rewrite Hanti, Hy. cbn. by rewrite IH.
Qed.

Lemma sorted_app_last l x : sorted (l ++ [x]) → Forall (λ y, below y x) l ∧ sorted l.
Proof.
  intros H. induction l as [|y l IH]; [by repeat constructor|].
  apply StronglySorted_inv in H as [Hl Hy]. apply Forall_app in Hy as [Hy [Hx _]%Forall_cons].
  destruct (IH Hl) as [H1 H2]. split; by constructor.
Qed.

(** Emplacing the elements of a container in its order builds it again. *)
Lemma emplace_all_sorted l : sorted l → foldl (λ c x, emplace_unique cmp x c) [] l = l.
Proof.
  induction l as [|x l IH] using rev_ind; intros H; [done|].
  destruct (sorted_app_last l x H) as [Hx Hl]. rewrite foldl_app. cbn. rewrite IH by done.
  by apply emplace_last.
Qed.

(** The order of emplacing different elements does not matter. *)
Lemma emplace_comm x y l : cmp x y ≠ Eq → sorted l →
  emplace_unique cmp x (emplace_unique cmp y l) = emplace_unique cmp y (emplace_unique cmp x l).
Proof.
  assert (∀ a b, cmp a b = Lt → ∀ l, sorted l →
    emplace_unique cmp a (emplace_unique cmp b l) = emplace_unique cmp b (emplace_unique cmp a l)) as Hlt.
  2: { intros Hne Hl. destruct (cmp x y) eqn:E; [done|by apply Hlt|].
       symmetry. apply Hlt; [|done]. by rewrite Hanti, E. }
  clear x y l. intros a b Hab l Hl.
  assert (cmp b a = Gt) as Hba by (by rewrite Hanti, Hab).
  induction Hl as [|z l Hl IH Hz]; cbn; [by rewrite Hab, Hba|].
  destruct (cmp b z) eqn:Ebz, (cmp a z) eqn:Eaz; cbn; rewrite ?Hab, ?Hba, ?Ebz, ?Eaz; try done; cbn;
    rewrite ?Hab, ?Hba, ?Ebz, ?Eaz; try done.
  - rewrite (Htrans _ _ _ Hab Ebz) in Eaz. done.
  - rewrite (Htrans _ _ _ Hab Ebz) in Eaz. done.
  - by rewrite IH.
Qed.

Context {B : Type} (key : A → B).
Hypothesis Hkey : ∀ x y, cmp x y = Eq ↔ key x = key y.

Lemma emplace_all_perm l1 l2 : l1 ≡ₚ l2 → NoDup (key <$> l1) → ∀ c, sorted c →
  foldl (λ c x, emplace_unique cmp x c) c l1 = foldl (λ c x, emplace_unique cmp x c) c l2.
Proof.
  induction 1 as [|x l1 l2 Hp IH|x y l|l1 l2 l3 Hp1 IH1 _ IH2]; intros Hd c Hc; cbn in *; [done|..].
  - apply NoDup_cons in Hd as [_ Hd]. by apply IH, emplace_sorted.
  - rewrite emplace_comm; [done| |done]. intros E%Hkey. apply NoDup_cons in Hd as [Hn _]. apply Hn.
    rewrite E. left.
  - rewrite IH1 by done. apply IH2; [|done]. by rewrite <- Hp1.
Qed.

Lemma sorted_NoDup l : sorted l → NoDup (key <$> l).
Proof.
  induction 1 as [|x l Hl IH Hx]; cbn; constructor; [|done].
  intros (y&E&Hy)%list_elem_of_fmap. rewrite Forall_forall in Hx.
  specialize (Hx y Hy). apply Hkey in E. unfold below in Hx. congruence.
Qed.

(** A container is built again in whatever order it is iterated. *)
Lemma emplace_all l k : sorted l → k ≡ₚ l → foldl (λ c x, emplace_unique cmp x c) [] k = l.
Proof.
  intros Hl Hp. rewrite (emplace_all_perm k l Hp); [by apply emplace_all_sorted| |constructor].
  rewrite Hp. by apply sorted_NoDup.
Qed.
End unique.

(** ** Values of a type *)

Fixpoint wf (t : ty) : value t → Prop :=
  match t return value t → Prop with
  | TBool | TString => λ _, True
  | TInteger i | TEnum _ i => λ v, in_range i v = true
  | TSequence k t => λ l, Forall (wf t) l ∧
      match k with Vector | List => True | Set_ | UnorderedSet => sorted (compare t) l end
  | TStringMap _ t => λ l, Forall (λ p, wf t p.2) l ∧ sorted compare_key l
  end.

Lemma key_trans {A} (p q r : str * A) : compare_key p q = Lt → compare_key q r = Lt → compare_key p r = Lt.
Proof. apply (cmp_trans total_str). Qed.
Lemma key_anti {A} (p q : str * A) : compare_key q p = CompOpp (compare_key p q).
Proof. apply (cmp_anti total_str). Qed.
Lemma key_eq {A} (p q : str * A) : compare_key p q = Eq ↔ p.1 = q.1.
Proof. apply (cmp_eq total_str). Qed.

(** ** The text of integers *)

Lemma digit_not_blank b : is_Some (digit_value 10 b) →
  is_one_of ASCII_WHITESPACE b = false ∧ b ≠ "+"%byte ∧ b ≠ "x"%byte ∧ b ≠ "X"%byte ∧ b ≠ "-"%byte.
Proof. destruct b; intros [d Hd]; try discriminate Hd; by split_and!. Qed.

Lemma Trim_without_delimiters d s : s ≠ [] → Forall (λ b, is_one_of d b = false) s → Trim s d = s.
Proof.
  intros Hs Hf. destruct (trimming s d) as (_&_&->). rewrite Forall_forall in Hf.
  rewrite drop_front_id; [apply drop_back_id|].
  - intros b s' ->. apply Hf. set_solver.
  - intros b s' ->. apply Hf. left.
Qed.

(** What a run of digits denotes. *)
Definition digits_of (base : Z) (text : str) (ds : list Z) : Prop :=
  Forall2 (λ b d, digit_value base b = Some d) text ds.
Definition number (base : Z) (ds : list Z) : Z := foldl (λ a d, a * base + d) 0 ds.

Lemma scan_digits_spec base s : ∀ acc n,
  let '(v, k) := scan_digits base acc n s in
  (k ≤ n + length s)%nat ∧
  (∀ ds, digits_of base s ds → k = (n + length s)%nat ∧ v = foldl (λ a d, a * base + d) acc ds) ∧
  (k = (n + length s)%nat → ∃ ds, digits_of base s ds).
Proof.
  induction s as [|b s IH]; intros acc n; cbn.
  { split_and!; [lia| |by exists []; constructor]. intros ds Hd. inversion Hd. split; [lia|done]. }
  destruct (digit_value base b) as [d|] eqn:E.
  - specialize (IH (acc * base + d) (S n)). destruct (scan_digits base _ _ s) as [v k].
    destruct IH as (H1&H2&H3). split_and!; [lia| |].
    + intros ds' Hd. inversion Hd as [|? d' ? ds Hb Hd']; subst. destruct (H2 ds Hd') as [-> ->].
      split; [lia|]. by simplify_eq.
    + intros Hk. destruct (H3 ltac:(lia)) as [ds Hd]. exists (d :: ds). by constructor.
  - split_and!; [lia| |lia]. intros ds Hd. inversion Hd; congruence.
Qed.

Lemma digit_value_minus base : digit_value base "-" = None.
Proof. done. Qed.

Definition minus_sign (i : integer) (minus : str) : Prop :=
  minus = [] ∨ (minus = $"-" ∧ signed i = true).
Definition signed_number (minus : str) (v : Z) : Z := match minus with [] => v | _ => - v end.

(** [from_chars] takes the whole text. *)
Lemma from_chars_whole i base s v :
  from_chars_integer i base s = Some (v, length s) ↔
  in_range i v = true ∧ ∃ minus digits ds,
    s = minus ++ digits ∧ minus_sign i minus ∧ digits ≠ [] ∧ digits_of base digits ds ∧
    v = signed_number minus (number base ds).
Proof.
  unfold from_chars_integer.
  set (neg := match s with b :: _ => signed i && Byte.eqb b "-" | [] => false end).
  set (digits := if neg then drop 1 s else s).
  assert ((match s with
    | b :: rest => if signed i && Byte.eqb b "-" then (true, rest) else (false, s)
    | [] => (false, s) end) = (neg, digits)) as ->.
  { unfold digits, neg. destruct s as [|b s]; [done|]. by destruct (signed i && _). }
  assert (s = (if neg then $"-" else []) ++ digits ∧ minus_sign i (if neg then $"-" else [])) as [Hs Hminus].
  { unfold digits. destruct neg eqn:E; [|by split; [|left]]. unfold neg in E. destruct s as [|b s]; [done|].
    apply andb_true_iff in E as [Hi ->%byte_eqb_eq]. by split; [|right]. }
  assert (∀ minus k ds, s = minus ++ k → minus_sign i minus → digits_of base k ds → k ≠ [] →
    k = digits ∧ neg = match minus with [] => false | _ => true end) as Huniq.
  { intros minus k ds E [->|[-> Hsg]] Hd Hk; cbn in E.
    - assert (neg = false) as Hneg; [|unfold digits; by rewrite Hneg].
      unfold neg. rewrite E. destruct k as [|b k]; [done|].
      destruct (Byte.eqb b "-") eqn:Eb; [|apply andb_false_r].
      apply byte_eqb_eq in Eb as ->. inversion Hd as [|? ? ? ? Hb]. by rewrite digit_value_minus in Hb.
    - assert (neg = true) as Hneg by (unfold neg; rewrite E; cbn; by rewrite Hsg).
      unfold digits. rewrite Hneg, E. by split. }
  clearbody digits neg.
  assert (length s = if neg then S (length digits) else length digits) as Hlen.
  { rewrite Hs at 1. by destruct neg. }
  pose proof (scan_digits_spec base digits 0 0) as Hscan. destruct (scan_digits base 0 0 digits) as [m n].
  destruct Hscan as (Hn&Hv&Hall). cbn [Nat.add] in *. split.
  - destruct (Nat.eqb_spec n 0) as [->|Hn0]; [done|]. destruct (in_range i _) eqn:Er; [|done].
    intros [= <- E]. assert (n = length digits) as -> by (destruct neg; lia).
    destruct (Hall eq_refl) as [ds Hd]. destruct (Hv ds Hd) as [_ ->].
    split; [done|]. exists (if neg then $"-" else []), digits, ds.
    split_and!; [exact Hs|exact Hminus|by intros ->|exact Hd|by destruct neg].
  - intros (Er&minus&k&ds&E&Hm&Hk&Hd&->). destruct (Huniq minus k ds E Hm Hd Hk) as [-> ->].
    destruct (Hv ds Hd) as [-> ->]. rewrite (proj2 (Nat.eqb_neq _ 0)) by (by destruct digits).
    change (foldl _ 0 ds) with (number base ds).
    destruct Hm as [->|[-> _]].
    + cbn [signed_number] in *. rewrite Er. by subst s.
    + cbn in Er |- *. rewrite Er. by subst s.
Qed.

Lemma from_chars_le i base s v n : from_chars_integer i base s = Some (v, n) → (n ≤ length s)%nat.
Proof.
  unfold from_chars_integer. destruct s as [|b s].
  { by intros [=]. }
  destruct (signed i && Byte.eqb b "-").
  - pose proof (scan_digits_spec base s 0 0) as Hs. destruct (scan_digits base 0 0 s) as [m k]. destruct Hs as [Hk _].
    destruct (Nat.eqb k 0); [done|]. destruct (in_range i _); [|done]. intros [= <- <-]. cbn. lia.
  - pose proof (scan_digits_spec base (b :: s) 0 0) as Hs. destruct (scan_digits base 0 0 (b :: s)) as [m k].
    destruct Hs as [Hk _]. destruct (Nat.eqb k 0); [done|]. destruct (in_range i _); [|done].
    intros [= <- <-]. done.
Qed.

(** The prefix of a base. *)
Definition base_prefix (prefix : str) (base : Z) : Prop :=
  (prefix = [] ∧ base = 10) ∨ ((prefix = $"0x" ∨ prefix = $"0X") ∧ base = 16).

Lemma base_of_prefix body : ∃ prefix, body = prefix ++ (base_of body).2 ∧ base_prefix prefix (base_of body).1.
Proof.
  unfold base_of. destruct body as [|b0 [|b1 [|b2 b]]]; try (exists []; split; [done|by left]).
  destruct (Byte.eqb b0 "0") eqn:E0; cbn [andb]; [|exists []; split; [done|by left]].
  destruct (Byte.eqb b1 "x" || Byte.eqb b1 "X") eqn:E1; [|exists []; split; [done|by left]].
  exists [b0; b1]. split; [done|]. right. split; [|done]. apply byte_eqb_eq in E0 as ->.
  apply orb_true_iff in E1 as [E1|E1]; apply byte_eqb_eq in E1 as ->; auto.
Qed.

Lemma base_of_text i prefix base minus digits ds :
  base_prefix prefix base → minus_sign i minus → digits ≠ [] → digits_of base digits ds →
  base_of (prefix ++ minus ++ digits) = (base, minus ++ digits).
Proof.
  intros [[-> ->]|[Hp ->]] Hm Hd Hds.
  - cbn [app]. assert (∀ c, c ∈ minus ++ digits → c ≠ "x"%byte ∧ c ≠ "X"%byte) as Hc.
    { intros c [Hc|Hc]%elem_of_app.
      - destruct Hm as [->|[-> _]]; [by apply elem_of_nil in Hc|].
        apply list_elem_of_singleton in Hc as ->. by split.
      - apply list_elem_of_lookup in Hc as [k Hk]. destruct (Forall2_lookup_l _ _ _ _ _ Hds Hk) as (d&_&E).
        destruct (digit_not_blank c) as (_&_&?&?&_); [by rewrite E|]. done. }
    unfold base_of. destruct (minus ++ digits) as [|b0 [|b1 [|b2 b]]]; try done.
    destruct (Hc b1) as [H1%byte_eqb_neq H2%byte_eqb_neq]; [set_solver|]. rewrite H1, H2. by rewrite andb_false_r.
  - assert (∃ c r, minus ++ digits = c :: r) as (c&r&->).
    { destruct Hm as [->|[-> _]]; [destruct digits; [done|by do 2 eexists]|by do 2 eexists]. }
    by destruct Hp as [-> | ->].
Qed.

(** What [ParseArithmetic] does behind the blanks. *)
Lemma plus_sign front rest :
  front :: rest = (if Byte.eqb front "+" then $"+" else []) ++
    (if Byte.eqb front "+" then rest else front :: rest).
Proof. destruct (Byte.eqb front "+") eqn:E; [|done]. by apply byte_eqb_eq in E as ->. Qed.

Lemma no_plus_sign i prefix base minus digits ds rest :
  base_prefix prefix base → minus_sign i minus → digits ≠ [] → digits_of base digits ds →
  "+"%byte :: rest ≠ prefix ++ minus ++ digits.
Proof.
  intros Hp Hm Hd Hds E. destruct Hp as [[-> _]|[[-> | ->] _]]; [|discriminate E..].
  destruct Hm as [->|[-> _]]; [|discriminate E]. destruct digits; [done|]. injection E as <- _.
  inversion Hds as [|? ? ? ? Hb]. discriminate Hb.
Qed.

(** The texts accepted as integers are exactly these: between blanks, an
    optional plus sign, an optional hexadecimal prefix, for signed types an optional
    minus sign - behind the prefix - and at least one digit of the base, where the
    number is in the range of the type; it is then the value. *)
Theorem integer_texts i t text v :
  ParseArithmetic true (from_chars_integer i) text t = inr v ↔
  in_range i v = true ∧ ∃ plus prefix base minus digits ds,
    Trim text ASCII_WHITESPACE = plus ++ prefix ++ minus ++ digits ∧
    (plus = [] ∨ plus = $"+") ∧ base_prefix prefix base ∧ minus_sign i minus ∧
    digits ≠ [] ∧ digits_of base digits ds ∧ v = signed_number minus (number base ds).
Proof.
  unfold ParseArithmetic. generalize (Trim text ASCII_WHITESPACE). intros [|front rest].
  { split; [done|]. intros (_&plus&prefix&base&minus&digits&ds&E&_&_&_&Hd&_). exfalso.
    symmetry in E. by repeat apply app_nil in E as [_ E]. }
  cbv zeta. set (body := if Byte.eqb front "+" then rest else front :: rest). split.
  - destruct (base_of_prefix body) as (prefix&Eb&Hp). destruct (base_of body) as [base b2]. cbn [fst snd] in *.
    destruct (from_chars_integer i base b2) as [[v' n]|] eqn:E; [|done].
    destruct (Nat.eqb_spec n (length b2)) as [->|]; [|done]. intros [= ->].
    apply from_chars_whole in E as (Hr&minus&digits&ds&->&Hm&Hd&Hds&->). split; [done|].
    exists (if Byte.eqb front "+" then $"+" else []), prefix, base, minus, digits, ds.
    split_and!; try done; [|destruct (Byte.eqb front "+"); auto]. rewrite <- Eb. apply plus_sign.
  - intros (Hr&plus&prefix&base&minus&digits&ds&E&Hpl&Hp&Hm&Hd&Hds&Hv).
    assert (body = prefix ++ minus ++ digits) as ->.
    { unfold body. destruct Hpl as [-> | ->]; [|by injection E as -> ->].
      cbn [app] in E. destruct (Byte.eqb front "+") eqn:Ef; [|done]. apply byte_eqb_eq in Ef as ->.
      by destruct (no_plus_sign i prefix base minus digits ds rest). }
    rewrite (base_of_text i prefix base minus digits ds) by done.
    rewrite (proj2 (from_chars_whole i base (minus ++ digits) v)); [by rewrite Nat.eqb_refl|].
    split; [done|]. by exists minus, digits, ds.
Qed.

(** ** Truth words *)

Lemma EqualsIgnoreCase_lower l r : EqualsIgnoreCase l r = true ↔ map ToLowerAscii l = map ToLowerAscii r.
Proof.
  unfold EqualsIgnoreCase. destruct (Nat.eqb_spec (length l) (length r)) as [E|E]; cbn [negb].
  2: { split; [done|]. intros Hm. apply (f_equal length) in Hm. by rewrite !length_map in Hm. }
  revert r E. induction l as [|b l IH]; intros [|c r] E; try discriminate E; cbn; [done|].
  injection E as E. destruct (Byte.eqb (ToLowerAscii b) (ToLowerAscii c)) eqn:Eb; cbn [negb].
  - apply byte_eqb_eq in Eb as ->. rewrite (IH r E). split; [by intros ->|by intros [= ->]].
  - apply byte_eqb_neq in Eb. split; [done|]. by intros [= ? _].
Qed.

(** A text is a truth value when, without blanks and in lower case, it is one of
    the words; no text is both. *)
Theorem truth_texts text b :
  ParseBool text = Some b ↔
  map ToLowerAscii (Trim text ASCII_WHITESPACE) ∈ (if b then TRUE_WORDS else FALSE_WORDS).
Proof.
  unfold ParseBool. set (body := Trim text ASCII_WHITESPACE).
  assert (∀ words, Forall (λ w, map ToLowerAscii w = w) words →
    existsb (EqualsIgnoreCase body) words = true ↔ map ToLowerAscii body ∈ words) as Hw.
  { intros words Hl. rewrite existsb_exists. setoid_rewrite EqualsIgnoreCase_lower. rewrite Forall_forall in Hl.
    split.
    - intros (w&Hin&E). apply list_elem_of_In in Hin. rewrite E. by rewrite (Hl w Hin).
    - intros Hin. exists (map ToLowerAscii body). rewrite <- list_elem_of_In. split; [done|]. symmetry. by apply Hl. }
  assert (Forall (λ w, map ToLowerAscii w = w) TRUE_WORDS) as Ht by (by repeat constructor).
  assert (Forall (λ w, map ToLowerAscii w = w) FALSE_WORDS) as Hf by (by repeat constructor).
  specialize (Hw _ Ht) as Ht'. specialize (Hw _ Hf) as Hf'.
  assert (map ToLowerAscii body ∈ TRUE_WORDS → map ToLowerAscii body ∈ FALSE_WORDS → False) as Hno.
  { assert (Forall (λ w, w ∉ FALSE_WORDS) TRUE_WORDS) as Hdis by (by apply (bool_decide_eq_true_1 _); vm_compute).
    rewrite Forall_forall in Hdis. intros Hx Hy. by apply (Hdis _ Hx). }
  destruct (existsb _ TRUE_WORDS); [|destruct (existsb _ FALSE_WORDS)].
  - split; [by intros [= <-]; apply Ht'|]. destruct b; [done|]. intros H. by destruct Hno; [apply Ht'|].
  - split; [by intros [= <-]; apply Hf'|]. destruct b; [|done]. intros H%Ht'. done.
  - split; [done|]. destruct b; [intros H%Ht'|intros H%Hf']; done.
Qed.

(** ** Round trips *)

(** What the library documents of the nodes it builds. *)
Class YamlLaws (node : Type) `{Yaml node} := {
  scalar_kind s : IsDefined (scalar_node s) = true ∧ IsScalar (scalar_node s) = true ∧
    Scalar (scalar_node s) = s;
  bool_kind b : IsDefined (bool_node b) = true ∧ IsScalar (bool_node b) = true ∧
    Scalar (bool_node b) = if b then $"true" else $"false";
  sequence_empty : IsSequence sequence_node = true ∧ items sequence_node = [];
  sequence_push n x : IsSequence n = true →
    IsSequence (push_back n x) = true ∧ items (push_back n x) = items n ++ [x];
  map_empty : IsMap map_node = true ∧ entries map_node = [];
  map_set n k x : IsMap n = true → (∀ e, e ∈ entries n → Scalar e.1 ≠ k) →
    IsMap (set_key n k x) = true ∧
    ∃ kn, IsScalar kn = true ∧ Scalar kn = k ∧ entries (set_key n k x) = entries n ++ [(kn, x)];
}.

Section roundtrip.
Context {node : Type} `{YamlLaws node}.
Context (hash_order : ∀ A : Type, list A → list A).
Hypothesis hash_order_perm : ∀ A (l : list A), hash_order A l ≡ₚ l.

Lemma iterate_perm b {A} (l : list A) : iterate hash_order b l ≡ₚ l.
Proof. by destruct b; [apply hash_order_perm|]. Qed.

(** The number [ArithmeticToNode] prints is read back. *)
Lemma integer_read i t v : in_range i v = true →
  ParseArithmetic true (from_chars_integer i) (to_chars_integer v) t = inr v.
Proof.
  intros Hr. apply integer_texts. split; [done|].
  assert (∃ minus digits ds, to_chars_integer v = minus ++ digits ∧ minus_sign i minus ∧ digits ≠ [] ∧
    digits_of 10 digits ds ∧ v = signed_number minus (number 10 ds)) as (minus&digits&ds&E&Hm&Hd&Hds&Hv).
  { unfold to_chars_integer. assert (∀ u, 0 <= u → ∃ ds, to_dec u ≠ [] ∧ digits_of 10 (to_dec u) ds ∧ u = number 10 ds) as Hu.
    { intros u Hu. destruct (scan_to_dec u Hu) as (k&Hk&Hl&Hs). pose proof (scan_digits_spec 10 (to_dec u) 0 0) as Hsp.
      rewrite Hs in Hsp. destruct Hsp as (_&Hv&Hall). destruct (Hall ltac:(lia)) as [ds Hds].
      exists ds. split_and!; [by intros E; rewrite E in Hl; cbn in Hl; lia|done|]. by apply (Hv ds). }
    destruct (Z.ltb_spec v 0) as [Hneg|Hpos].
    - destruct (Hu (- v) ltac:(lia)) as (ds&?&?&E). exists $"-", (to_dec (- v)), ds.
      split_and!; [done| |done|done|cbn; lia]. right. split; [done|].
      unfold in_range, least in Hr. destruct (signed i); [done|].
      apply andb_true_iff in Hr as [Hr%Z.leb_le _]. lia.
    - destruct (Hu v ltac:(lia)) as (ds&?&?&E). exists [], (to_dec v), ds. split_and!; try done. by left. }
  exists [], [], 10, minus, digits, ds. split_and!; [|by left|by left|done|done|done|done].
  cbn [app]. rewrite <- E. apply Trim_without_delimiters; rewrite E.
  - destruct Hm as [->|[-> _]]; [done|]. by intros.
  - apply Forall_app. split; [destruct Hm as [->|[-> _]]; by repeat constructor|].
    apply Forall_forall. intros b Hb. apply list_elem_of_lookup in Hb as [k Hk].
    destruct (Forall2_lookup_l _ _ _ _ _ Hds Hk) as (d&_&Ed). apply digit_not_blank. by rewrite Ed.
Qed.

(** The nodes a container becomes. *)
Lemma push_all {A} (f : A → node) l : ∀ n, IsSequence n = true →
  let n' := foldl (λ n x, push_back n (f x)) n l in
  IsSequence n' = true ∧ items n' = items n ++ map f l.
Proof.
  induction l as [|x l IH]; intros n Hn; cbn; [by rewrite app_nil_r|].
  destruct (sequence_push n (f x) Hn) as [H1 H2]. destruct (IH _ H1) as [H3 ->]. split; [done|].
  by rewrite H2, <- app_assoc.
Qed.

Lemma set_all {A} (f : A → node) (l : list (str * A)) : ∀ n,
  IsMap n = true → NoDup (l.*1) → (∀ e p, e ∈ entries n → p ∈ l → Scalar e.1 ≠ p.1) →
  let n' := foldl (λ n p, set_key n p.1 (f p.2)) n l in
  IsMap n' = true ∧ ∃ ks, Forall2 (λ k p, IsScalar k = true ∧ Scalar k = p.1) ks l ∧
    entries n' = entries n ++ zip_with (λ k p, (k, f p.2)) ks l.
Proof.
  induction l as [|p l IH]; intros n Hn Hd Hf; cbn.
  { split; [done|]. exists []. by rewrite app_nil_r. }
  apply NoDup_cons in Hd as [Hp Hd].
  destruct (map_set n p.1 (f p.2) Hn) as (H1&k&Hk&Hks&He); [intros e He; apply (Hf e p He); left|].
  destruct (IH (set_key n p.1 (f p.2)) H1 Hd) as (H2&ks&Hks'&->).
  { intros e q Hin Hq. rewrite He in Hin. apply elem_of_app in Hin as [Hin|Hin]; [by apply Hf; [|right]|].
    apply list_elem_of_singleton in Hin as ->. cbn. rewrite Hks. intros E. apply Hp. rewrite E.
    by apply list_elem_of_fmap_2. }
  split; [done|]. exists (k :: ks). split; [by constructor|]. by rewrite He, <- app_assoc.
Qed.

(** Reading what has been written element by element. *)
Lemma read_items_map {A} (f : node → ConvertError + A) (em : A → list A → list A) (g : A → node) l : ∀ c,
  Forall (λ x, f (g x) = inr x) l → read_items f em (map g l) c = inr (foldl (λ c x, em x c) c l).
Proof. induction l as [|x l IH]; intros c Hl; cbn; [done|]. apply Forall_cons in Hl as [-> Hl]. by apply IH. Qed.

Lemma read_entries_zip {A} t (f : node → ConvertError + A) (g : A → node) ks (l : list (str * A)) :
  Forall2 (λ k p, IsScalar k = true ∧ Scalar k = p.1) ks l → Forall (λ p, f (g p.2) = inr p.2) l → ∀ c,
  read_entries t f (zip_with (λ k p, (k, g p.2)) ks l) c =
    inr (foldl (λ c p, emplace_unique compare_key p c) c l).
Proof.
  induction 1 as [|k [s x] ks l [Hk Hs] _ IH]; intros Hl c; cbn; [done|]. cbn in Hs.
  apply Forall_cons in Hl as [Hx Hl]. cbn in Hx. rewrite Hk, Hx. cbn. rewrite Hs. by apply IH.
Qed.

Lemma foldl_snoc {A} (l : list A) : foldl (λ c x, c ++ [x]) [] l = l.
Proof. induction l as [|x l IH] using rev_ind; [done|]. rewrite foldl_app. cbn. by rewrite IH. Qed.

Lemma FromNode_ToNode t : ∀ v, wf t v → FromNode t (ToNode hash_order t v) = inr v.
Proof.
  assert (∀ A (P : A → Prop) (l k : list A), k ≡ₚ l → Forall P l → Forall P k) as Hperm.
  { intros A P l k Hp. by rewrite Hp. }
  induction t as [| |i|name i|k t IH|k t IH]; intros v Hv.
  - cbn. unfold ScalarText. destruct (bool_kind v) as (->&->&->). by destruct v.
  - cbn. unfold ScalarText. by destruct (scalar_kind v) as (->&->&->).
  - cbn. unfold ScalarText, ArithmeticToNode. destruct (scalar_kind (to_chars_integer v)) as (->&->&->).
    cbn. by apply integer_read.
  - cbn. unfold ScalarText, ArithmeticToNode. destruct (scalar_kind (to_chars_integer v)) as (->&->&->).
    cbn. by apply integer_read.
  - destruct Hv as [Hf Hk]. cbn [FromNode ToNode].
    destruct (push_all (ToNode hash_order t) (iterate hash_order (hashed_sequence k) v) sequence_node
      (proj1 sequence_empty)) as [H1 H2]. rewrite H1, H2, (proj2 sequence_empty). cbn [negb app].
    pose proof (iterate_perm (hashed_sequence k) v) as Hp.
    rewrite read_items_map.
    2: { apply (Hperm _ _ v _ Hp). eapply Forall_impl; [exact Hf|apply IH]. }
    f_equal. destruct k; cbn [hashed_sequence iterate emplace] in *.
    + apply foldl_snoc.
    + apply foldl_snoc.
    + apply emplace_all_sorted; [apply (cmp_anti (total_compare t))|done].
    + apply (emplace_all _ (cmp_trans (total_compare t)) (cmp_anti (total_compare t)) id); [|done|done].
      apply (cmp_eq (total_compare t)).
  - destruct Hv as [Hf Hk]. cbn [FromNode ToNode].
    pose proof (iterate_perm (hashed_map k) v) as Hp. set (l := iterate hash_order (hashed_map k) v) in *.
    destruct map_empty as [Hm1 Hm2].
    destruct (set_all (ToNode hash_order t) l map_node Hm1) as (H1&ks&Hks&H2).
    { rewrite Hp. apply (sorted_NoDup _ _ key_eq). done. }
    { rewrite Hm2. intros e p He. by apply elem_of_nil in He. }
    rewrite H1, H2, Hm2. cbn [negb app]. rewrite read_entries_zip; [|done|].
    2: { apply (Hperm _ _ v _ Hp). eapply Forall_impl; [exact Hf|]. intros p. apply IH. }
    f_equal. by apply (emplace_all _ key_trans key_anti fst key_eq).
Qed.

(** Every value that is read is one of its type. *)
Lemma read_items_inv {A} (f : node → ConvertError + A) em (P : list A → Prop) (Q : A → Prop) l :
  (∀ n x, f n = inr x → Q x) → (∀ x c, Q x → P c → P (em x c)) → ∀ c v,
  P c → read_items f em l c = inr v → P v.
Proof.
  intros Hf Hem. induction l as [|n l IH]; intros c v Hc; cbn; [by intros [= <-]|].
  destruct (f n) as [e|x] eqn:E; cbn; [done|]. apply IH, Hem; [|done]. by apply (Hf n).
Qed.

Lemma read_entries_inv {A} t (f : node → ConvertError + A) (P : list (str * A) → Prop) (Q : A → Prop) l :
  (∀ n x, f n = inr x → Q x) → (∀ k x c, Q x → P c → P (emplace_unique compare_key (k, x) c)) → ∀ c v,
  P c → read_entries t f l c = inr v → P v.
Proof.
  intros Hf Hem. induction l as [|n l IH]; intros c v Hc; cbn; [by intros [= <-]|].
  destruct (negb _); [done|]. destruct (f n.2) as [e|x] eqn:E; cbn; [done|]. apply IH, Hem; [|done].
  by apply (Hf n.2).
Qed.

Lemma ParseArithmetic_range i t text v :
  ParseArithmetic true (from_chars_integer i) text t = inr v → in_range i v = true.
Proof. by intros [Hr _]%integer_texts. Qed.

Lemma FromNode_wf t : ∀ n v, FromNode t n = inr v → wf t v.
Proof.
  induction t as [| |i|name i|k t IH|k t IH]; intros n v; cbn [FromNode wf]; [done|done|..].
  - destruct (ScalarText n _); cbn; [done|]. apply ParseArithmetic_range.
  - destruct (ScalarText n _); cbn; [done|]. apply ParseArithmetic_range.
  - destruct (negb _); [done|].
    apply (read_items_inv _ _ (wf (TSequence k t)) (wf t)); [apply IH| |split; [done|by destruct k; constructor]].
    intros x c Hx [Hc Hs]. destruct k; cbn [emplace].
    1, 2: split; [|done]; apply Forall_app; split; [done|by constructor].
    all: split; [|by apply (emplace_sorted _ (cmp_trans (total_compare t)) (cmp_anti (total_compare t)))].
    all: rewrite Forall_forall in Hc |- *; intros y [->|Hy]%emplace_elem; auto.
  - destruct (negb _); [done|].
    apply (read_entries_inv _ _ (wf (TStringMap k t)) (wf t)); [apply IH| |split; constructor].
    intros key x c Hx [Hc Hs]. split; [|by apply (emplace_sorted _ key_trans key_anti)].
    rewrite Forall_forall in Hc |- *. intros y [->|Hy]%emplace_elem; auto.
Qed.

(** C28: for every type of configuration values - built from truth values, strings,
    integers, enumerations, sequences, sets and maps - a value read from a node is a
    value of the type: numbers in range, sets and maps without duplicates; and the
    values of the type are exactly those that the node they are written to gives
    back, in whatever order hashed containers are iterated. *)
Theorem conversion_round_trip t :
  (∀ n v, FromNode t n = inr v → wf t v) ∧
  (∀ v, wf t v ↔ FromNode t (ToNode hash_order t v) = inr v).
Proof.
  split; [apply FromNode_wf|]. intros v. split; [apply FromNode_ToNode|apply FromNode_wf].
Qed.
End roundtrip.

(** ** Nodes as trees, and the witness *)

Inductive tree := Undefined | Leaf (text : str) | Seq (l : list tree) | Mapping (l : list (tree * tree)).

Fixpoint tree_set (k : str) (x : tree) (l : list (tree * tree)) : list (tree * tree) :=
  match l with
  | [] => [(Leaf k, x)]
  | (Leaf k', y) :: l' => if str_eqb k k' then (Leaf k', x) :: l' else (Leaf k', y) :: tree_set k x l'
  | e :: l' => e :: tree_set k x l'
  end.

#[export] Instance tree_yaml : Yaml tree := {
  IsDefined n := match n with Undefined => false | _ => true end;
  IsNull n := match n with Leaf [] => true | _ => false end;
  IsScalar n := match n with Leaf _ => true | _ => false end;
  IsSequence n := match n with Seq _ => true | _ => false end;
  IsMap n := match n with Mapping _ => true | _ => false end;
  Scalar n := match n with Leaf s => s | _ => [] end;
  items n := match n with Seq l => l | _ => [] end;
  entries n := match n with Mapping l => l | _ => [] end;
  scalar_node := Leaf;
  bool_node b := Leaf (if b then $"true" else $"false");
  sequence_node := Seq [];
  push_back n x := match n with Seq l => Seq (l ++ [x]) | _ => n end;
  map_node := Mapping [];
  set_key n k x := match n with Mapping l => Mapping (tree_set k x l) | _ => n end;
}.

Lemma tree_set_new k x l : (∀ e, e ∈ l → Scalar e.1 ≠ k) → tree_set k x l = l ++ [(Leaf k, x)].
Proof.
  induction l as [|[[|k'|?|?] y] l IH]; intros Hl; cbn; [done|..].
  2: rewrite (proj2 (str_eqb_neq k k')) by (intros ->; by apply (Hl (Leaf k', y)); [left|]).
  all: f_equal; apply IH; intros e He; apply Hl; by right.
Qed.

#[export] Instance tree_laws : YamlLaws tree.
Proof.
  split; try done.
  - intros [] x Hn; try done.
  - intros [| | |l] k x Hn Hl; try done. split; [done|]. exists (Leaf k). split_and!; try done.
    cbn. by apply tree_set_new.
Qed.

Definition sample_type : ty := TStringMap UnorderedMap (TSequence Set_ (TInteger (mkInteger true 32))).
Definition sample_value : value sample_type := [($"a", [-5; 7]); ($"b", [])].

Lemma conversion_round_trip_witness :
  FromNode sample_type (ToNode (λ A, reverse) sample_type sample_value) = inr sample_value.
Proof.
  apply (proj2 (conversion_round_trip (node := tree) (λ A, reverse) (λ A, reverse_Permutation) sample_type)).
  split; repeat constructor.
Defined.
End ConvertProofs.
