(* ===== verification/ConfigVar.v ===== *)
(** One configuration variable ([droplet/include/droplet/config/config_var.h],
    [src/config/config_var.cc]): names, the value with its listeners, and the
    operations as critical sections of threads that interleave: a change is stored,
    the listeners are copied, and each is then called outside of the locks. *)

From S2P Require Import Prelude.

Module ConfigVar.

(** ** Names *)

Definition CONFIG_NAME_CHARSET : str := $"abcdefghijklmnopqrstuvwxyz._0123456789".

Definition NormalizeConfigName : str → str :=
  map (λ ch, if (65 <=? code ch) && (code ch <=? 90) then chr (code ch - 65 + 97) else ch).

Definition IsValidConfigName (name : str) : bool :=
  match name with [] => false | _ => forallb (λ ch, existsb (Byte.eqb ch) CONFIG_NAME_CHARSET) name end.

(** ** The variable *)

(** Identifiers of listeners come from one counter of 64 bits. *)
Definition NextListenerId (s_next : Z) : Z * Z := (s_next, wrap 64 (s_next + 1)).

Record ListenerEntry := mkEntry { m_id : Z; m_callback : positive }.

Section var.
Context {T : Type}.
(** [operator==] of the type, when it has one. *)
Context (equal : option (T → T → bool)).

Record ConfigVar := mkVar { value_ : T; listeners_ : list ListenerEntry }.

(** The critical section of [setValue]: the old value when something changes. *)
Definition store (value : T) (v : ConfigVar) : option T * ConfigVar :=
  let old_value := value_ v in
  match equal with
  | Some eq =>
      if eq old_value value then (None, v) else (Some old_value, mkVar value (listeners_ v))
  | None => (Some old_value, mkVar value (listeners_ v))
  end.

(** [addListener] with a callback: the identifier, the counter. *)
Definition addListener (s_next : Z) (callback : option positive) (v : ConfigVar) : Z * Z * ConfigVar :=
  match callback with
  | None => (0, s_next, v)
  | Some callback =>
      let '(id, s_next) := NextListenerId s_next in
      (id, s_next, mkVar (value_ v) (listeners_ v ++ [mkEntry id callback]))
  end.

Fixpoint erase_id (id : Z) (l : list ListenerEntry) : list ListenerEntry :=
  match l with
  | [] => []
  | entry :: l => if m_id entry =? id then l else entry :: erase_id id l
  end.
Definition removeListener (id : Z) (v : ConfigVar) : ConfigVar := mkVar (value_ v) (erase_id id (listeners_ v)).
Definition clearListeners (v : ConfigVar) : ConfigVar := mkVar (value_ v) [].
Definition listenerCount (v : ConfigVar) : nat := length (listeners_ v).

(** A call of a listener with the old and the new value. *)
Record notification := mkNotification { listener : ListenerEntry; old_value : T; new_value : T }.

(** [notify] for the copy of the listeners; what a callback throws is caught. *)
Definition notify (old_value new_value : T) (snapshot : list ListenerEntry) : list notification :=
  map (λ entry, mkNotification entry old_value new_value) snapshot.

(** [setValue] as one step: whether something changed, and the calls. *)
Definition setValue (value : T) (v : ConfigVar) : bool * ConfigVar * list notification :=
  match store value v with
  | (None, v) => (false, v, [])
  | (Some old_value, v) => (true, v, notify old_value value (listeners_ v))
  end.

(** ** Threads *)

(** A call of [setValue] that has stored a change: what it has left to do. *)
Inductive set_phase := Stored | Notifying (rest : list ListenerEntry) | Returned.
Record change := mkChange { from_ : T; to_ : T; phase : set_phase }.

Record state := mkState {
  var : ConfigVar;
  s_next : Z;
  changes : list change;
  told : list (nat * ListenerEntry);
}.

Definition with_var (v : ConfigVar) (s : state) : state := mkState v (s_next s) (changes s) (told s).
Definition set_phase_of (i : nat) (c : change) (p : set_phase) (s : state) : state :=
  mkState (var s) (s_next s) (<[i := mkChange (from_ c) (to_ c) p]> (changes s)) (told s).

(** What a step does to the listeners, as far as others care. *)
Inductive action := Other | Remove (id : Z) | Clear.

Inductive step (s : state) : action → state → Prop :=
  | step_store value old v : store value (var s) = (Some old, v) →
      step s Other (mkState v (s_next s) (changes s ++ [mkChange old value Stored]) (told s))
  | step_store_same value v : store value (var s) = (None, v) → step s Other (with_var v s)
  | step_snapshot i c : changes s !! i = Some c → phase c = Stored →
      step s Other (set_phase_of i c (Notifying (listeners_ (var s))) s)
  | step_call i c entry rest : changes s !! i = Some c → phase c = Notifying (entry :: rest) →
      step s Other (mkState (var s) (s_next s) (<[i := mkChange (from_ c) (to_ c) (Notifying rest)]> (changes s))
              (told s ++ [(i, entry)]))
  | step_return i c : changes s !! i = Some c → phase c = Notifying [] →
      step s Other (set_phase_of i c Returned s)
  | step_add callback id n v : addListener (s_next s) callback (var s) = (id, n, v) →
      step s Other (mkState v n (changes s) (told s))
  | step_remove id : step s (Remove id) (with_var (removeListener id (var s)) s)
  | step_clear : step s Clear (with_var (clearListeners (var s)) s).

(** The constructor, in a program that has given [n] identifiers so far. *)
Definition create (default_value : T) (n : Z) : state := mkState (mkVar default_value []) n [] [].

Definition any_step (s s' : state) : Prop := ∃ a, step s a s'.
(** Steps that leave a listener registered. *)
Definition step_keeping (id : Z) (s s' : state) : Prop := ∃ a, step s a s' ∧ a ≠ Remove id ∧ a ≠ Clear.
End var.
Arguments ConfigVar : clear implicits.
Arguments state : clear implicits.
Arguments change : clear implicits.
Arguments notification : clear implicits.
End ConfigVar.
