(* ===== verification/ConfigVarProofs.v ===== *)
(** What a configuration variable guarantees while threads set it and change its
    listeners: the changes form a chain, and a listener is told every change once,
    though not always in their order. *)

From S2P Require Import Prelude ConfigVar.
Import ConfigVar.

Module ConfigVarProofs.

Section var.
Context {T : Type} (equal : option (T → T → bool)).
Implicit Types s : state T.

(** ** The chain of changes *)

Fixpoint chain (first : T) (l : list (change T)) (last : T) : Prop :=
  match l with
  | [] => first = last
  | c :: l => from_ c = first ∧ chain (to_ c) l last
  end.

Definition differs (old new : T) : Prop :=
  match equal with Some eq => eq old new = false | None => True end.

Lemma chain_snoc first l last c : chain first l last → from_ c = last → chain first (l ++ [c]) (to_ c).
Proof. revert first. induction l as [|d l IH]; intros first; cbn; [by intros -> ->|naive_solver]. Qed.

Lemma chain_phase first l last i c p :
  l !! i = Some c → chain first (<[i := mkChange (from_ c) (to_ c) p]> l) last ↔ chain first l last.
Proof.
  revert first i. induction l as [|d l IH]; intros first [|i]; cbn; try done.
  - by intros [= ->].
  - intros Hi. by rewrite IH.
Qed.

Record chain_inv (d : T) s : Prop := {
  chain_value : chain d (changes s) (value_ (var s));
  chain_differ : Forall (λ c, differs (from_ c) (to_ c)) (changes s);
}.

Lemma store_chain value old v s :
  store equal value (var s) = (Some old, v) → old = value_ (var s) ∧ value_ v = value ∧
  differs old value ∧ listeners_ v = listeners_ (var s).
Proof.
  unfold store, differs. destruct equal as [eq|]; [destruct (eq _ _) eqn:E|]; intros [= <- <-]; by split_and!.
Qed.
Lemma store_same value v s : store equal value (var s) = (None, v) → v = var s.
Proof. unfold store. destruct equal as [eq|]; [destruct (eq _ _)|]; by intros [=]. Qed.

Lemma chain_step d s a s' : chain_inv d s → step equal s a s' → chain_inv d s'.
Proof.
  intros [Hc Hd] Hs. destruct Hs as [value old v E|value v E|i c Hi Hp|i c e rest Hi Hp|i c Hi Hp
    |cb id n v E|id|]; unfold set_phase_of, with_var; split; cbn [changes var]; try done.
  - destruct (store_chain _ _ _ _ E) as (->&<-&Hdiff&_).
    by apply (chain_snoc d (changes s) (value_ (var s)) (mkChange (value_ (var s)) (value_ v) Stored)).
  - apply Forall_app. split; [done|]. destruct (store_chain _ _ _ _ E) as (->&<-&Hdiff&_). by constructor.
  - by rewrite (store_same _ _ _ E).
  - by apply chain_phase.
  - apply Forall_insert; [done|]. by apply (Forall_lookup_1 _ _ _ _ Hd Hi).
  - by apply chain_phase.
  - apply Forall_insert; [done|]. by apply (Forall_lookup_1 _ _ _ _ Hd Hi).
  - by apply chain_phase.
  - apply Forall_insert; [done|]. by apply (Forall_lookup_1 _ _ _ _ Hd Hi).
  - unfold addListener, NextListenerId in E. destruct cb; by injection E as <- <- <-.
Qed.

(** Whatever threads set a variable, the changes that are announced form a
    chain from the default value to the current one: each starts from the value the
    one before has stored, and none announces two values that compare equal. *)
Theorem changes_form_chain d n s : rtc (any_step equal) (create d n) s →
  chain d (changes s) (value_ (var s)) ∧ Forall (λ c, differs (from_ c) (to_ c)) (changes s).
Proof.
  intros Hr. assert (chain_inv d s) as []; [|done].
  assert (chain_inv d (create d n)) as H0 by (by split).
  induction Hr as [|s1 s2 s3 [a Ha] _ IH]; [done|]. by apply IH, (chain_step d s1 a).
Qed.

(** ** Listeners *)

Definition ids (l : list ListenerEntry) : list Z := m_id <$> l.
Definition told_of (i : nat) s : list ListenerEntry :=
  (filter (λ p, p.1 = i) (told s)).*2.

(** What the listeners of change [i] are or will be, once it has been announced. *)
Definition announced (i : nat) (c : change T) s : option (list Z) :=
  match phase c with
  | Stored => None
  | Notifying rest => Some (ids (told_of i s ++ rest))
  | Returned => Some (ids (told_of i s))
  end.

Record told_inv s : Prop := {
  next_positive : 1 <= s_next s;
  ids_unique : NoDup (ids (listeners_ (var s)));
  ids_old x : x ∈ ids (listeners_ (var s)) → 1 <= x < s_next s;
  told_none i : changes s !! i = None → told_of i s = [];
  told_silent i c : changes s !! i = Some c → phase c = Stored → told_of i s = [];
  told_once i c l : changes s !! i = Some c → announced i c s = Some l → NoDup l;
}.

(** Steps of a program that has not given [2^64] identifiers yet. *)
Definition fresh_step s s' : Prop := any_step equal s s' ∧ s_next s <= s_next s'.

Lemma erase_in id x l : x ∈ ids (erase_id id l) → x ∈ ids l.
Proof.
  induction l as [|e l IH]; cbn; [done|]. destruct (m_id e =? id); cbn; rewrite !elem_of_cons; tauto.
Qed.
Lemma erase_other id x l : x ≠ id → x ∈ ids l → x ∈ ids (erase_id id l).
Proof.
  intros Hx. induction l as [|e l IH]; cbn; [done|]. destruct (Z.eqb_spec (m_id e) id) as [E|E]; cbn;
    rewrite !elem_of_cons; [|tauto]. intros [->|?]; [done|done].
Qed.
Lemma erase_unique id l : NoDup (ids l) → NoDup (ids (erase_id id l)).
Proof.
  induction l as [|e l IH]; cbn; [done|]. intros [Hn Hd]%NoDup_cons.
  destruct (m_id e =? id); cbn; [done|]. apply NoDup_cons. split; [|auto]. by intros ?%erase_in.
Qed.

(** What a step does to what has been told. *)
Lemma told_of_same i s v n cs : told_of i (mkState v n cs (told s)) = told_of i s.
Proof. done. Qed.
Lemma told_of_snoc i j e s v n cs :
  told_of i (mkState v n cs (told s ++ [(j, e)])) = if decide (j = i) then told_of i s ++ [e] else told_of i s.
Proof.
  unfold told_of. cbn [told]. rewrite filter_app, fmap_app. cbn [filter list_filter fst].
  destruct (decide (j = i)); cbn; [done|by rewrite app_nil_r].
Qed.

Lemma announced_same i c s v n cs : announced i c (mkState v n cs (told s)) = announced i c s.
Proof. done. Qed.

(** Changing the phase of one change. *)
Lemma lookup_phase (cs : list (change T)) i c p j d :
  cs !! i = Some c → <[i := mkChange (from_ c) (to_ c) p]> cs !! j = Some d →
  (j = i ∧ d = mkChange (from_ c) (to_ c) p) ∨ (j ≠ i ∧ cs !! j = Some d).
Proof.
  intros Hi. destruct (decide (j = i)) as [->|Hne].
  - rewrite list_lookup_insert_eq by (by apply lookup_lt_Some in Hi). intros [= <-]. by left.
  - rewrite list_lookup_insert_ne by done. by right.
Qed.

Lemma told_update s i c p t :
  told_inv s → changes s !! i = Some c → phase c ≠ Returned →
  (∀ j, j ≠ i → told_of j (mkState (var s) (s_next s) (changes s) t) = told_of j s) →
  let s' := mkState (var s) (s_next s) (<[i := mkChange (from_ c) (to_ c) p]> (changes s)) t in
  p ≠ Stored → (∀ l, announced i (mkChange (from_ c) (to_ c) p) s' = Some l → NoDup l) → told_inv s'.
Proof.
  intros [H1 H2 H3 H4 H5 H6] Hi _ Ht s' Hp Hn. split; cbn [var s_next changes s']; try done.
  - intros j Hj. apply lookup_ge_None in Hj. rewrite length_insert in Hj.
    transitivity (told_of j s); [apply Ht; apply lookup_lt_Some in Hi; lia|by apply H4, lookup_ge_None].
  - intros j d [[-> ->]|[Hne Hj]]%(lookup_phase _ _ _ _ _ _ Hi) Hd; [done|].
    transitivity (told_of j s); [by apply Ht|by apply (H5 j d)].
  - intros j d l [[-> ->]|[Hne Hj]]%(lookup_phase _ _ _ _ _ _ Hi) Hd; [by apply Hn|].
    apply (H6 j d l Hj). rewrite <- Hd. unfold announced.
    assert (told_of j s' = told_of j s) as -> by (by apply Ht). done.
Qed.

Lemma told_step s s' : told_inv s → fresh_step s s' → told_inv s'.
Proof.
  intros Hinv [[a Hs] Hfresh]. pose proof Hinv as [H1 H2 H3 H4 H5 H6].
  destruct Hs as [value old v E|value v E|i c Hi Hp|i c e rest Hi Hp|i c Hi Hp
    |cb id n v E|id|]; unfold set_phase_of, with_var in *; cbn [s_next] in Hfresh.
  - destruct (store_chain _ _ _ _ E) as (->&<-&_&El).
    assert (∀ j d, (changes s ++ [mkChange (value_ (var s)) (value_ v) Stored]) !! j = Some d →
      changes s !! j = Some d ∨ (changes s !! j = None ∧ phase d = Stored)) as Hj.
    { intros j d [Hj|[Hj Hd]]%lookup_app_Some; [by left|right]. apply list_lookup_singleton_Some in Hd as [_ <-].
      split; [by apply lookup_ge_None|done]. }
    split; cbn [var s_next changes]; rewrite ?El; try done.
    + intros j Hn%lookup_ge_None. apply H4, lookup_ge_None. rewrite length_app in Hn. lia.
    + intros j d [Hd|[Hn _]]%Hj Hph; [by apply (H5 j d)|by apply H4].
    + intros j d l [Hd|[Hn Hst]]%Hj Hl; [by apply (H6 j d l)|]. unfold announced in Hl. by rewrite Hst in Hl.
  - by rewrite (store_same _ _ _ E).
  - apply told_update; [done|done|by rewrite Hp|done|done|]. unfold announced. cbn [phase]. intros l [= <-].
    rewrite told_of_same. by rewrite (H5 i c Hi Hp).
  - apply told_update; [done|done|by rewrite Hp| |done|].
    + intros j Hne. rewrite told_of_snoc. by rewrite decide_False.
    + unfold announced. cbn [phase]. intros l [= <-]. rewrite told_of_snoc, decide_True, <- app_assoc by done.
      apply (H6 i c _ Hi). unfold announced. by rewrite Hp.
  - apply told_update; [done|done|by rewrite Hp|done|done|]. unfold announced. cbn [phase]. intros l [= <-].
    rewrite told_of_same. apply (H6 i c _ Hi). unfold announced. by rewrite Hp, app_nil_r.
  - unfold addListener, NextListenerId in E. destruct cb as [cb|].
    2: { injection E as <- <- <-. by destruct s. }
    injection E as <- <- <-. assert (wrap 64 (s_next s + 1) = s_next s + 1) as Hw.
    { unfold wrap in *. destruct (Z.lt_ge_cases (s_next s + 1) (2 ^ 64)) as [Hlt|Hge]; [apply Z.mod_small; lia|].
      exfalso. pose proof (Z.mod_pos_bound (s_next s + 1) (2 ^ 64) ltac:(lia)).
      assert (s_next s + 1 = 2 ^ 64) as E by lia. rewrite E, Z.mod_same in Hfresh by lia. lia. }
    rewrite Hw. split; cbn [var s_next changes listeners_]; try done; [lia| |].
    + unfold ids. rewrite fmap_app. cbn. apply NoDup_app. split_and!; [done| |apply NoDup_singleton].
      intros x Hx%H3 ->%list_elem_of_singleton. lia.
    + unfold ids. rewrite fmap_app. cbn. intros x [Hx%H3| ->%list_elem_of_singleton]%elem_of_app; lia.
  - split; cbn [var s_next changes listeners_ removeListener]; try done; [by apply erase_unique|].
    intros x Hx%erase_in. by apply H3.
  - split; cbn [var s_next changes listeners_ clearListeners]; try done; [constructor|]. intros x Hx. by apply elem_of_nil in Hx.
Qed.

Lemma told_reachable d n s : 1 <= n → rtc fresh_step (create d n) s → told_inv s.
Proof.
  intros Hn Hr. assert (told_inv (create d n)) as H0.
  { split; cbn; try done; [constructor|]. intros x Hx. by apply elem_of_nil in Hx. }
  induction Hr as [|s1 s2 s3 Hs _ IH]; [done|]. by apply IH, (told_step s1).
Qed.

(** Steps that leave listener [id] alone. *)
Definition keeping_step (id : Z) s s' : Prop := step_keeping equal id s s' ∧ s_next s <= s_next s'.

(** The listener is registered, and among those of every change since [k]. *)
Definition keeps_telling (id : Z) (k : nat) s : Prop :=
  id ∈ ids (listeners_ (var s)) ∧ (k ≤ length (changes s))%nat ∧
  ∀ i c l, (k ≤ i)%nat → changes s !! i = Some c → announced i c s = Some l → id ∈ l.

Lemma telling_step id k s s' : told_inv s → keeps_telling id k s → keeping_step id s s' → keeps_telling id k s'.
Proof.
  intros Hinv (Hid&Hk&Htell) [(a&Hs&Hne&Hnc) Hfresh]. pose proof Hinv as [H1 H2 H3 H4 H5 H6].
  assert (∀ i c p t, changes s !! i = Some c →
    (∀ j, j ≠ i → told_of j (mkState (var s) (s_next s) (changes s) t) = told_of j s) →
    let s' := mkState (var s) (s_next s) (<[i := mkChange (from_ c) (to_ c) p]> (changes s)) t in
    ((k ≤ i)%nat → ∀ l, announced i (mkChange (from_ c) (to_ c) p) s' = Some l → id ∈ l) →
    keeps_telling id k s') as Hupd.
  { intros i c p t Hi Ht s1 Hl. split_and!; [done|cbn; by rewrite length_insert|].
    intros j d l Hj [[-> ->]|[Hji Hd]]%(lookup_phase _ _ _ _ _ _ Hi) Ha; [by apply Hl|].
    apply (Htell j d l Hj Hd). rewrite <- Ha. unfold announced.
    assert (told_of j s1 = told_of j s) as -> by (by apply Ht). done. }
  destruct Hs as [value old v E|value v E|i c Hi Hp|i c e rest Hi Hp|i c Hi Hp
    |cb id' n v E|id'|]; unfold set_phase_of, with_var in *; cbn [s_next] in Hfresh.
  - destruct (store_chain _ _ _ _ E) as (->&<-&_&El). split_and!; cbn [var changes]; [by rewrite El|rewrite length_app; cbn; lia|].
    intros j d l Hj [Hd|[_ Hd]]%lookup_app_Some Ha; [by apply (Htell j d l)|].
    apply list_lookup_singleton_Some in Hd as [_ <-]. done.
  - by rewrite (store_same _ _ _ E).
  - apply Hupd; [done|done|]. intros Hj l. unfold announced. cbn [phase]. intros [= <-].
    rewrite told_of_same, (H5 i c Hi Hp). exact Hid.
  - apply Hupd; [done| |].
    + intros j Hji. rewrite told_of_snoc. by rewrite decide_False.
    + intros Hj l. unfold announced. cbn [phase]. intros [= <-]. rewrite told_of_snoc, decide_True, <- app_assoc by done.
      apply (Htell i c _ Hj Hi). unfold announced. by rewrite Hp.
  - apply Hupd; [done|done|]. intros Hj l. unfold announced. cbn [phase]. intros [= <-].
    rewrite told_of_same. apply (Htell i c _ Hj Hi). unfold announced. by rewrite Hp, app_nil_r.
  - unfold addListener, NextListenerId in E. destruct cb as [cb|]; injection E as <- <- <-; [|by destruct s].
    split_and!; [|done|done]. cbn. unfold ids. rewrite fmap_app. apply elem_of_app. by left.
  - split_and!; [|done|done]. apply erase_other; [congruence|done].
  - done.
Qed.

(** C29: a listener that is registered before a change is stored and not removed
    until [setValue] returns is told this change exactly once, whatever threads set
    the variable and add and remove other listeners meanwhile; and no listener is
    ever told a change twice. *)
Theorem listeners_told_once d n s0 s id :
  1 <= n → rtc fresh_step (create d n) s0 → rtc (keeping_step id) s0 s → id ∈ ids (listeners_ (var s0)) →
  ∀ i c, changes s !! i = Some c →
    NoDup (ids (told_of i s)) ∧
    ((length (changes s0) ≤ i)%nat → phase c = Returned → id ∈ ids (told_of i s)).
Proof.
  intros Hn Hr0 Hr Hid i c Hi. pose proof (told_reachable d n s0 Hn Hr0) as Hinv.
  assert (told_inv s ∧ keeps_telling id (length (changes s0)) s) as [Hs (_&_&Htell)].
  { assert (keeps_telling id (length (changes s0)) s0) as H0.
    { split_and!; [done|done|]. intros j d' l Hj Hd. apply lookup_lt_Some in Hd. lia. }
    generalize dependent (length (changes s0)). clear -Hr Hinv. intros k Hk.
    induction Hr as [|s1 s2 s3 Hs _ IH]; [done|]. apply IH; [|by apply (telling_step id k s1)].
    apply (told_step s1); [done|]. destruct Hs as [(a&Hs&_) Hf]. split; [by exists a|done]. }
  split.
  - destruct (phase c) as [|rest|] eqn:Hp.
    + rewrite (told_silent s Hs i c Hi Hp). constructor.
    + pose proof (told_once s Hs i c (ids (told_of i s ++ rest)) Hi) as Ho. unfold announced in Ho. rewrite Hp in Ho.
      specialize (Ho eq_refl). unfold ids in Ho. rewrite fmap_app in Ho. by apply NoDup_app in Ho as [Ho _].
    + apply (told_once s Hs i c _ Hi). unfold announced. by rewrite Hp.
  - intros Hge Hp. apply (Htell i c _ Hge Hi). unfold announced. by rewrite Hp.
Qed.
End var.

(** ** Runs *)

Definition eqb_step : state Z → state Z → Prop := fresh_step (Some Z.eqb).
Definition watched : state Z := mkState (mkVar 0 [mkEntry 1 1%positive]) 2 [] [].

Lemma watched_reachable : rtc eqb_step (create 0 1) watched.
Proof.
  eapply rtc_l; [|apply rtc_refl].
  split; [|cbn; lia]. exists Other. by apply (step_add _ (create 0 1) (Some 1%positive) 1 2).
Qed.

(** Two threads set 1 and then 2; the second is the first to tell. *)
Definition told_late : state Z :=
  mkState (mkVar 2 [mkEntry 1 1%positive]) 2 [mkChange 0 1 Returned; mkChange 1 2 Returned]
    [(1%nat, mkEntry 1 1%positive); (0%nat, mkEntry 1 1%positive)].

(** One step of a run that is written out. *)
Ltac next_step rule := eapply rtc_l; [split; [exists Other; split; [rule|by split]|cbn; lia]|]; cbn.

Lemma late_run : rtc (keeping_step (Some Z.eqb) 1) watched told_late.
Proof.
  next_step ltac:(by apply (step_store _ _ 1 0 (mkVar 1 [mkEntry 1 1%positive]))).
  next_step ltac:(by apply (step_store _ _ 2 1 (mkVar 2 [mkEntry 1 1%positive]))).
  next_step ltac:(by apply (step_snapshot _ _ 0 (mkChange 0 1 Stored))).
  next_step ltac:(by apply (step_snapshot _ _ 1 (mkChange 1 2 Stored))).
  next_step ltac:(by apply (step_call _ _ 1 (mkChange 1 2 (Notifying [mkEntry 1 1%positive])) (mkEntry 1 1%positive) [])).
  next_step ltac:(by apply (step_call _ _ 0 (mkChange 0 1 (Notifying [mkEntry 1 1%positive])) (mkEntry 1 1%positive) [])).
  next_step ltac:(by apply (step_return _ _ 0 (mkChange 0 1 (Notifying [])))).
  next_step ltac:(by apply (step_return _ _ 1 (mkChange 1 2 (Notifying [])))).
  apply rtc_refl.
Qed.

(** The order in which a listener is told the changes is not theirs: there is a run
    after which the value is 2, nothing is left to be told, and the last the
    listener was told is that the value has become 1. *)
Theorem last_told_not_last : ∃ s : state Z,
  rtc eqb_step (create 0 1) s ∧ value_ (var s) = 2 ∧ Forall (λ c, phase c = Returned) (changes s) ∧
  ∃ i e c, last (told s) = Some (i, e) ∧ changes s !! i = Some c ∧ to_ c = 1.
Proof.
  exists told_late. split_and!; [|done|by repeat constructor|by exists 0%nat, (mkEntry 1 1%positive), (mkChange 0 1 Returned)].
  etransitivity; [apply watched_reachable|].
  eapply (rtc_subrel (keeping_step (Some Z.eqb) 1)); [|apply late_run].
  intros s1 s2 [(a&Ha&_) Hf]. split; [by exists a|done].
Qed.

Lemma changes_form_chain_witness :
  chain 0 [mkChange 0 1 Returned; mkChange 1 2 Returned] 2.
Proof.
  assert (rtc (any_step (Some Z.eqb)) (create 0 1) told_late) as Hr.
  { etransitivity.
    - eapply (rtc_subrel eqb_step); [|apply watched_reachable]. by intros s1 s2 [Ha _].
    - eapply (rtc_subrel (keeping_step (Some Z.eqb) 1)); [|apply late_run]. intros s1 s2 [(a&Ha&_) _]. by exists a. }
  exact (proj1 (changes_form_chain (Some Z.eqb) 0 1 told_late Hr)).
Defined.

Lemma listeners_told_once_witness : 1 ∈ ids (told_of 0 told_late) ∧ NoDup (ids (told_of 1 told_late)).
Proof.
  assert (1 ∈ ids (listeners_ (var watched))) as Hid by left.
  split.
  - apply (listeners_told_once (Some Z.eqb) 0 1 watched told_late 1 ltac:(lia) watched_reachable late_run Hid
      0 (mkChange 0 1 Returned) eq_refl); [cbn; lia|done].
  - apply (listeners_told_once (Some Z.eqb) 0 1 watched told_late 1 ltac:(lia) watched_reachable late_run Hid
      1 (mkChange 1 2 Returned) eq_refl).
Defined.
End ConfigVarProofs.
