(* ===== verification/Config.v ===== *)
(** The registry of configuration variables ([droplet/src/config/config.cc],
    [include/droplet/config/config.h]): looking variables up or creating them,
    loading them from a YAML document, and from the files of a directory that have
    changed; with the listing of files ([src/utils/fs_utils.cc]).  Nodes are those
    of [Convert], the file system is an argument. *)

From stdpp Require Import sorting.
From S2P Require Import Prelude Convert ConfigVar.
Import Convert ConfigVar.

Module Config.

(** ** Types as values *)

#[global] Instance integer_eq : EqDecision integer.
Proof. solve_decision. Defined.
#[global] Instance sequence_eq : EqDecision sequence.
Proof. solve_decision. Defined.
#[global] Instance string_map_eq : EqDecision string_map.
Proof. solve_decision. Defined.
#[global] Instance ty_eq : EqDecision ty.
Proof. solve_decision. Defined.

(** [operator==] of the types. *)
Definition equal_of (t : ty) (x y : value t) : bool := match compare t x y with Eq => true | _ => false end.

(** ** Variables of any type *)

Record variable := mkVariable { name_ : str; type_ : ty; var_ : ConfigVar (value type_) }.

(** A call of a listener of the named variable. *)
Record event := mkEvent { source : str; event_type : ty; call : notification (value event_type) }.

Section config.
Context {node : Type} `{!Yaml node}.

(** [fromNode]: whether it succeeds, the variable and the listeners called. *)
Definition fromNode (n : node) (v : variable) : bool * variable * list event :=
  match FromNode (type_ v) n with
  | inl _ => (false, v, [])
  | inr x =>
      let '(_, u, calls) := setValue (Some (equal_of (type_ v))) x (var_ v) in
      (true, mkVariable (name_ v) (type_ v) u, map (mkEvent (name_ v) (type_ v)) calls)
  end.

(** [toNode], and [toString] with the emitter of the library. *)
Definition toNode (hash_order : ∀ A : Type, list A → list A) (v : variable) : node :=
  ToNode hash_order (type_ v) (value_ (var_ v)).
Definition toString (hash_order : ∀ A : Type, list A → list A) (emit : node → option str) (v : variable) : str :=
  let n := toNode hash_order v in if IsScalar n then Scalar n else default [] (emit n).
(** [fromString] with the parser of the library. *)
Definition fromString (load : str → option node) (text : str) (v : variable) : bool * variable * list event :=
  match load text with None => (false, v, []) | Some n => fromNode n v end.

(** ** The registry *)

(** Variables by pointer, pointers by name, the calls of listeners so far, and the
    write times of the files loaded. *)
Record config := mkConfig {
  objects : gmap positive variable;
  datas : gmap str positive;
  events : list event;
  loaded : gmap str Z;
}.

Definition LookupFromMap (name : str) (w : config) : option positive := datas w !! name.
Definition LookupBase (name : str) (w : config) : option positive :=
  LookupFromMap (NormalizeConfigName name) w.
Definition Size (w : config) : nat := base.size (datas w).

(** [None] is the null pointer. *)
Definition CheckType (p : positive) (type_name : ty) (w : config) : option positive :=
  v ← objects w !! p;
  if decide (type_ v = type_name) then Some p else None.

Inductive outcome := Thrown | Got (r : option positive).

(** [LookupOrCreate] up to the creation: an outcome or the name to create. *)
Definition lookup_existing (name : str) (type_name : ty) (w : config) : outcome + str :=
  let normalized := NormalizeConfigName name in
  if negb (IsValidConfigName normalized) then inl Thrown
  else
    match LookupFromMap normalized w with
    | Some old_val => inl (Got (CheckType old_val type_name w))
    | None => inr normalized
    end.

(** Its second critical section: a variable that is there by now stays. *)
Definition emplace_new (normalized : str) (t : ty) (default_value : value t) (w : config) : outcome * config :=
  match datas w !! normalized with
  | Some stored => (Got (CheckType stored t w), w)
  | None =>
      let p := fresh (dom (objects w)) in
      let w := mkConfig (<[p := mkVariable normalized t (mkVar default_value [])]> (objects w))
                 (<[normalized := p]> (datas w)) (events w) (loaded w) in
      (Got (CheckType p t w), w)
  end.

Definition LookupOrCreate (name : str) (t : ty) (default_value : value t) (w : config) : outcome * config :=
  match lookup_existing name t w with
  | inl r => (r, w)
  | inr normalized => emplace_new normalized t default_value w
  end.

(** The names callers may check and normalize. *)
Definition IsValidName (name : str) : bool := IsValidConfigName name.
Definition NormalizeName (name : str) : str := NormalizeConfigName name.

(** [Visit] calls back without the lock, for the variables there are when it is called. *)
Definition Visit (hash_order : ∀ A : Type, list A → list A) (callback : option (positive → config → config))
    (w : config) : config :=
  match callback with
  | None => w
  | Some f => foldl (λ w p, f p w) w (hash_order _ (snd <$> map_to_list (datas w)))
  end.

(** [ClearAllListeners]. *)
Definition clear_variable (v : variable) : variable :=
  mkVariable (name_ v) (type_ v) (clearListeners (var_ v)).
Definition ClearAllListeners (w : config) : config :=
  mkConfig (foldl (λ m p, alter clear_variable p m) (objects w) (map_to_list (datas w)).*2)
    (datas w) (events w) (loaded w).

(** ** Documents *)

Definition join_name (prefix key : str) : str :=
  match prefix with [] => key | _ => prefix ++ "."%byte :: key end.

(** [CollectMembers]; [None] when the fuel is used up, where the recursion of the
    code may go on for ever. *)
Fixpoint CollectMembers (fuel : nat) (prefix : str) (n : node) : option (list (str * node)) :=
  match fuel with
  | O => None
  | S fuel =>
      let output := match prefix with [] => [] | _ => [(prefix, n)] end in
      if negb (IsMap n) then Some output
      else
        (fix for_entries (l : list (node * node)) (output : list (str * node)) :=
           match l with
           | [] => Some output
           | entry :: l =>
               if negb (IsScalar entry.1) then for_entries l output
               else
                 let key := NormalizeConfigName (Scalar entry.1) in
                 if negb (IsValidConfigName key) then for_entries l output
                 else
                   members ← CollectMembers fuel (join_name prefix key) entry.2;
                   for_entries l (output ++ members)
           end) (entries n) output
  end.

(** One round of the loop of [LoadFromYaml]. *)
Definition load_member (w : config) (m : str * node) : config :=
  match LookupFromMap m.1 w with
  | None => w
  | Some p =>
      match objects w !! p with
      | None => w
      | Some v =>
          let '(_, v, calls) := fromNode m.2 v in
          mkConfig (<[p := v]> (objects w)) (datas w) (events w ++ calls) (loaded w)
      end
  end.

Definition LoadFromYaml (fuel : nat) (root : node) (w : config) : option config :=
  if negb (IsDefined root) || IsNull root then Some w
  else nodes ← CollectMembers fuel [] root; Some (foldl load_member w nodes).

(** ** Files *)

(** [FSUtils::ListAllFile]: [walk] is what the iterator visits before it ends or
    throws - the name of every entry and whether it is a regular file - and [None]
    when the path is no directory. *)
Definition str_le (a b : str) : Prop := compare_str a b ≠ Gt.
#[global] Instance str_le_dec : RelDecision str_le.
Proof. intros a b. unfold str_le. destruct (compare_str a b); [left|left|right]; congruence. Defined.

Definition ends_with (suffix s : str) : bool := starts_with (reverse suffix) (reverse s).
Definition ListAllFile (files : list str) (path : str) (walk : option (list (str * bool))) (suffix : str) : list str :=
  match path, walk with
  | [], _ => files
  | _, None => files
  | _, Some visited =>
      files ++ merge_sort str_le
        (map fst (filter (λ e, e.2 = true ∧ (suffix = [] ∨ ends_with suffix e.1 = true)) visited))
  end.

(** The file system as the loader sees it. *)
Record directory := mkDirectory {
  files_of : str → option (list (str * bool));
  last_write_time : str → option Z;
  LoadFile : str → option node;
}.

Definition MarkFileLoaded (path : str) (write_time : Z) (w : config) : config :=
  mkConfig (objects w) (datas w) (events w) (<[path := write_time]> (loaded w)).
Definition IsFileUnchanged (path : str) (write_time : Z) (w : config) : bool :=
  bool_decide (loaded w !! path = Some write_time).

(** One round of [LoadFromConfDir]; [None] only for want of fuel. *)
Definition load_conf_file (fuel : nat) (d : directory) (force : bool) (file_name : str) (w : config) : option config :=
  match last_write_time d file_name with
  | None => Some w
  | Some write_time =>
      if negb force && IsFileUnchanged file_name write_time w then Some w
      else
        match LoadFile d file_name with
        | None => Some w
        | Some root => w ← LoadFromYaml fuel root w; Some (MarkFileLoaded file_name write_time w)
        end
  end.

Fixpoint load_conf_files (fuel : nat) (d : directory) (force : bool) (files : list str) (w : config) : option config :=
  match files with
  | [] => Some w
  | file_name :: files =>
      w ← load_conf_file fuel d force file_name w; load_conf_files fuel d force files w
  end.

(** [path] is absolute and in normal form. *)
Definition LoadFromConfDir (fuel : nat) (d : directory) (path : str) (force : bool) (w : config) : option config :=
  match path with
  | [] => Some w
  | _ =>
      let files := ListAllFile [] path (files_of d path) $".yml" in
      let files := ListAllFile files path (files_of d path) $".yaml" in
      load_conf_files fuel d force files w
  end.

(** ** Threads that look variables up *)

Inductive caller :=
  | Asking (name : str) (t : ty) (default_value : value t)
  | Creating (normalized : str) (t : ty) (default_value : value t)
  | Answered (normalized : str) (t : ty) (r : outcome).

Record lookups := mkLookups { registry : config; callers : list caller }.

Inductive lookup_step (s : lookups) : lookups → Prop :=
  | step_call c : (∃ name t d, c = Asking name t d) → lookup_step s (mkLookups (registry s) (callers s ++ [c]))
  | step_lookup i name t d r : callers s !! i = Some (Asking name t d) →
      lookup_existing name t (registry s) = inl r →
      lookup_step s (mkLookups (registry s) (<[i := Answered (NormalizeConfigName name) t r]> (callers s)))
  | step_missing i name t d n : callers s !! i = Some (Asking name t d) →
      lookup_existing name t (registry s) = inr n →
      lookup_step s (mkLookups (registry s) (<[i := Creating n t d]> (callers s)))
  | step_emplace i n t d r w : callers s !! i = Some (Creating n t d) →
      emplace_new n t d (registry s) = (r, w) →
      lookup_step s (mkLookups w (<[i := Answered n t r]> (callers s)))
  | step_load fuel root w : LoadFromYaml fuel root (registry s) = Some w →
      lookup_step s (mkLookups w (callers s))
  | step_set p v u : objects (registry s) !! p = Some v → name_ u = name_ v → type_ u = type_ v →
      lookup_step s (mkLookups (mkConfig (<[p := u]> (objects (registry s))) (datas (registry s))
        (events (registry s)) (loaded (registry s))) (callers s)).

Definition new_config : config := mkConfig ∅ ∅ [] ∅.
End config.
End Config.
