(* ===== verification/ConfigProofs.v ===== *)
(** What the registry of configuration variables guarantees: one variable for a
    name, whatever threads look it up; loading a document gives every variable the
    last convertible node under its name; and files are loaded when they have
    changed. *)

From stdpp Require Import sorting.
From S2P Require Import Prelude Convert ConvertProofs ConfigVar Config.
Import Convert ConvertProofs ConfigVar Config.

Module ConfigProofs.

Section config.
Context {node : Type} `{!Yaml node}.
Implicit Types w : config.

(** ** The table *)

(** Every name has a variable of that name, and names are in normal form. *)
Record table_ok w : Prop := {
  ok_object n p : datas w !! n = Some p → ∃ v, objects w !! p = Some v ∧ name_ v = n;
  ok_name n : is_Some (datas w !! n) → IsValidConfigName n = true ∧ NormalizeConfigName n = n;
}.

Lemma table_inj w n1 n2 p : table_ok w → datas w !! n1 = Some p → datas w !! n2 = Some p → n1 = n2.
Proof. intros [Ho _] H1 H2. destruct (Ho _ _ H1) as (v&Hv&<-), (Ho _ _ H2) as (v'&Hv'&<-). congruence. Qed.

(** [Visit] calls back once for every variable there was when it was called, whatever the
    calls do to the registry. *)
Theorem visit_each_once (hash_order : ∀ A : Type, list A → list A) f w :
  table_ok w → (∀ A (l : list A), hash_order A l ≡ₚ l) →
  ∃ l, NoDup l ∧ (∀ p, p ∈ l ↔ ∃ n, datas w !! n = Some p) ∧
    Visit hash_order (Some f) w = foldl (λ w p, f p w) w l.
Proof.
  intros Hw Hh. exists (hash_order _ (snd <$> map_to_list (datas w))). split_and!; [| |done].
  - rewrite Hh. apply NoDup_fmap_2_strong; [|apply NoDup_map_to_list].
    intros [n1 p1] [n2 p2] H1 H2 E. cbn in E. subst p2.
    apply elem_of_map_to_list in H1, H2. by rewrite (table_inj w n1 n2 p1).
  - intros p. rewrite Hh, list_elem_of_fmap. split.
    + intros ([n q]&->&H). exists n. by apply elem_of_map_to_list.
    + intros [n Hn]. exists (n, p). split; [done|]. by apply elem_of_map_to_list.
Qed.

Lemma normalize_idem s : NormalizeConfigName (NormalizeConfigName s) = NormalizeConfigName s.
Proof.
  unfold NormalizeConfigName. rewrite map_map. apply map_ext. intros b. by destruct b.
Qed.

(** A later registry: names keep their variables, variables their names and types. *)
Definition extends w w' : Prop :=
  (∀ n p, datas w !! n = Some p → datas w' !! n = Some p) ∧
  (∀ p v, objects w !! p = Some v → ∃ u, objects w' !! p = Some u ∧ name_ u = name_ v ∧ type_ u = type_ v).

#[global] Instance extends_preorder : PreOrder extends.
Proof.
  split.
  - intros w. split; [done|]. intros p v Hv. by exists v.
  - intros w1 w2 w3 [A1 B1] [A2 B2]. split; [auto|]. intros p v Hv.
    destruct (B1 p v Hv) as (u&Hu&<-&<-). destruct (B2 p u Hu) as (u'&?&?&?). by exists u'.
Qed.

(** Replacing a variable by one of the same name and type. *)
Definition set_variable (p : positive) (u : variable) (e : list event) w : config :=
  mkConfig (<[p := u]> (objects w)) (datas w) e (loaded w).

Lemma set_variable_ok p v u e w :
  table_ok w → objects w !! p = Some v → name_ u = name_ v → type_ u = type_ v →
  table_ok (set_variable p u e w) ∧ extends w (set_variable p u e w).
Proof.
  intros [Ho Hn] Hv En Et. split; [split; [|done]|split; [done|]]; cbn [set_variable objects datas].
  - intros n q Hq. destruct (Ho n q Hq) as (x&Hx&<-). destruct (decide (q = p)) as [->|Hne].
    + rewrite lookup_insert_eq. exists u. split; [done|]. congruence.
    + rewrite lookup_insert_ne by done. by exists x.
  - intros q x Hx. destruct (decide (q = p)) as [->|Hne].
    + rewrite lookup_insert_eq. exists u. split; [done|]. split; congruence.
    + rewrite lookup_insert_ne by done. by exists x.
Qed.

Lemma fromNode_same n v : let '(_, u, _) := fromNode n v in name_ u = name_ v ∧ type_ u = type_ v.
Proof.
  unfold fromNode. destruct (FromNode (type_ v) n); [done|]. by destruct (setValue _ _ _) as [[??]?].
Qed.

Lemma load_member_ok w m : table_ok w → table_ok (load_member w m) ∧ extends w (load_member w m).
Proof.
  intros Hw. unfold load_member. destruct (LookupFromMap m.1 w) as [p|]; [|by split].
  destruct (objects w !! p) as [v|] eqn:E; [|by split].
  pose proof (fromNode_same m.2 v) as Hs. destruct (fromNode m.2 v) as [[b u] calls]. destruct Hs as [H1 H2].
  by apply (set_variable_ok p v u (events w ++ calls) w).
Qed.

Lemma load_members_ok l : ∀ w, table_ok w → table_ok (foldl load_member w l) ∧ extends w (foldl load_member w l).
Proof.
  induction l as [|m l IH]; intros w Hw; cbn; [by split|]. destruct (load_member_ok w m Hw) as [H1 H2].
  destruct (IH _ H1) as [H3 H4]. split; [done|]. by transitivity (load_member w m).
Qed.

Lemma load_yaml_ok fuel root w w' : table_ok w → LoadFromYaml fuel root w = Some w' → table_ok w' ∧ extends w w'.
Proof.
  intros Hw. unfold LoadFromYaml. destruct (_ || _); [by intros [= <-]|].
  destruct (CollectMembers fuel [] root) as [l|]; [|done]. intros [= <-]. by apply load_members_ok.
Qed.

(** ** Looking up *)

Lemma emplace_new_ok n t d w r w' :
  table_ok w → IsValidConfigName n = true → NormalizeConfigName n = n → emplace_new n t d w = (r, w') →
  table_ok w' ∧ extends w w' ∧ ∃ p, datas w' !! n = Some p ∧ r = Got (CheckType p t w').
Proof.
  intros Hw Hval Hnorm. unfold emplace_new. destruct (datas w !! n) as [p|] eqn:E.
  { intros [= <- <-]. split_and!; try done. by exists p. }
  cbv zeta. set (p := fresh (dom (objects w))). set (w1 := mkConfig _ _ _ _). intros [= <- <-].
  assert (objects w !! p = None) as Hp by (apply not_elem_of_dom, is_fresh).
  split_and!.
  - destruct Hw as [Ho Hn]. split; cbn [w1 objects datas].
    + intros n' q. destruct (decide (n' = n)) as [->|Hne].
      * rewrite lookup_insert_eq. intros [= <-]. eexists. by rewrite lookup_insert_eq.
      * rewrite lookup_insert_ne by done. intros Hq. destruct (Ho _ _ Hq) as (v&Hv&<-). exists v.
        rewrite lookup_insert_ne; [done|]. intros <-. congruence.
    + intros n'. destruct (decide (n' = n)) as [->|Hne]; [done|]. rewrite lookup_insert_ne by done. apply Hn.
  - split; cbn [w1 objects datas].
    + intros n' q Hq. rewrite lookup_insert_ne; [done|]. intros <-. congruence.
    + intros q v Hv. exists v. rewrite lookup_insert_ne; [done|]. intros <-. congruence.
  - exists p. split; [apply lookup_insert_eq|done].
Qed.

(** What a caller has been told. *)
Definition answered_ok w (c : caller) : Prop :=
  match c with
  | Asking _ _ _ => True
  | Creating n _ _ => IsValidConfigName n = true ∧ NormalizeConfigName n = n
  | Answered n t Thrown => IsValidConfigName n = false
  | Answered n t (Got r) =>
      ∃ p v, datas w !! n = Some p ∧ objects w !! p = Some v ∧
        r = if decide (type_ v = t) then Some p else None
  end.

Lemma answered_extends w w' c : extends w w' → answered_ok w c → answered_ok w' c.
Proof.
  intros [H1 H2]. destruct c as [| |n t [|r]]; cbn; try done.
  intros (p&v&Hp&Hv&->). destruct (H2 p v Hv) as (u&Hu&_&Et). exists p, u. rewrite Et. by split_and!; [apply H1|..].
Qed.

Lemma checked_ok w n p t : table_ok w → datas w !! n = Some p → answered_ok w (Answered n t (Got (CheckType p t w))).
Proof.
  intros Hw Hp. destruct (ok_object w Hw n p Hp) as (v&Hv&_). exists p, v. split_and!; [done..|].
  unfold CheckType. by rewrite Hv.
Qed.

Definition lookups_ok (s : lookups) : Prop :=
  table_ok (registry s) ∧ Forall (answered_ok (registry s)) (callers s).

Lemma lookups_update s w' i c : lookups_ok s → table_ok w' → extends (registry s) w' → answered_ok w' c →
  lookups_ok (mkLookups w' (<[i := c]> (callers s))).
Proof.
  intros [_ Hc] Hw He Ha. split; [done|]. apply Forall_insert; [|done].
  eapply Forall_impl; [exact Hc|]. intros x. by apply answered_extends.
Qed.

Lemma lookup_step_ok s s' : lookups_ok s → lookup_step s s' → lookups_ok s'.
Proof.
  intros Hs H. pose proof Hs as [Hw Hc]. destruct H as [c (n&t&d&->)|i name t d r Hi E|i name t d n Hi E
    |i n t d r w Hi E|fuel root w E|p v u Hv En Et].
  - split; [done|]. apply Forall_app. split; [done|by constructor].
  - apply lookups_update; try done. unfold lookup_existing in E.
    destruct (IsValidConfigName (NormalizeConfigName name)) eqn:Ev; cbn [negb] in E; [|by injection E as <-].
    destruct (LookupFromMap _ _) as [p|] eqn:El; [|done]. injection E as <-. by apply checked_ok.
  - apply lookups_update; try done. unfold lookup_existing in E.
    destruct (IsValidConfigName (NormalizeConfigName name)) eqn:Ev; cbn [negb] in E; [|done].
    destruct (LookupFromMap _ _) as [p|] eqn:El; [done|]. injection E as <-. split; [done|apply normalize_idem].
  - pose proof (Forall_lookup_1 _ _ _ _ Hc Hi) as [Hval Hnorm].
    destruct (emplace_new_ok n t d _ _ _ Hw Hval Hnorm E) as (H1&H2&p&Hp&->).
    apply lookups_update; [done|done|done|by apply checked_ok].
  - destruct (load_yaml_ok _ _ _ _ Hw E) as [H1 H2]. split; [done|].
    eapply Forall_impl; [exact Hc|]. intros x. by apply answered_extends.
  - destruct (set_variable_ok p v u (events (registry s)) (registry s) Hw Hv En Et) as [H1 H2]. split; [done|].
    eapply Forall_impl; [exact Hc|]. intros x. by apply (answered_extends (registry s)).
Qed.

(** Whatever threads look variables up, create, set and load them at the same
    time, all that ask for one name with one type get the same variable, which is
    the one registered under the name, of that name and type; a caller is refused
    only for an invalid name or a variable of another type. *)
Theorem one_variable_per_name s : rtc lookup_step (mkLookups new_config []) s →
  (∀ i n t p, callers s !! i = Some (Answered n t (Got (Some p))) →
    datas (registry s) !! n = Some p ∧
    ∃ v, objects (registry s) !! p = Some v ∧ name_ v = n ∧ type_ v = t) ∧
  (∀ i j n t p q, callers s !! i = Some (Answered n t (Got (Some p))) →
    callers s !! j = Some (Answered n t (Got (Some q))) → p = q) ∧
  (∀ i n t, callers s !! i = Some (Answered n t (Got None)) →
    ∃ p v, datas (registry s) !! n = Some p ∧ objects (registry s) !! p = Some v ∧ type_ v ≠ t) ∧
  (∀ i n t, callers s !! i = Some (Answered n t Thrown) → IsValidConfigName n = false).
Proof.
  intros Hr. assert (lookups_ok s) as [Hw Hc].
  { assert (lookups_ok (mkLookups new_config [])) as H0.
    { split; [split|constructor]; cbn; [intros n p; by rewrite lookup_empty|]. intros n. rewrite lookup_empty. by intros []. }
    induction Hr as [|s1 s2 s3 Hs _ IH]; [done|]. by apply IH, (lookup_step_ok s1). }
  assert (∀ i n t p, callers s !! i = Some (Answered n t (Got (Some p))) →
    datas (registry s) !! n = Some p ∧ ∃ v, objects (registry s) !! p = Some v ∧ name_ v = n ∧ type_ v = t) as Hgot.
  { intros i n t p Hi. destruct (Forall_lookup_1 _ _ _ _ Hc Hi) as (q&v&Hq&Hv&E).
    destruct (decide (type_ v = t)); [|done]. injection E as ->. split; [done|]. exists v.
    destruct (ok_object _ Hw n q Hq) as (v'&Hv'&En). by simplify_eq. }
  split_and!; [done|..].
  - intros i j n t p q Hi Hj. destruct (Hgot i n t p Hi) as [H1 _], (Hgot j n t q Hj) as [H2 _]. congruence.
  - intros i n t Hi. destruct (Forall_lookup_1 _ _ _ _ Hc Hi) as (q&v&Hq&Hv&E). exists q, v.
    by destruct (decide (type_ v = t)).
  - intros i n t Hi. apply (Forall_lookup_1 _ _ _ _ Hc Hi).
Qed.

(** ** Documents *)

(** The nodes a document has under a name: [member p n q m] when [m] is found from
    node [n] of name [p] by keys that make [q]. *)
Inductive member : str → node → str → node → Prop :=
  | member_here p n : p ≠ [] → member p n p n
  | member_below p n key child q m :
      IsMap n = true → (key, child) ∈ entries n → IsScalar key = true →
      IsValidConfigName (NormalizeConfigName (Scalar key)) = true →
      member (join_name p (NormalizeConfigName (Scalar key))) child q m → member p n q m.

(** A document that ends: maps nested at most [d] deep. *)
Inductive bounded : nat → node → Prop :=
  | bounded_node d n : (IsMap n = true → Forall (λ e, bounded d e.2) (entries n)) → bounded (S d) n.

(** The loop over the entries, with what is collected for one of them. *)
Definition collect_entry (fuel : nat) (p : str) (e : node * node) : option (list (str * node)) :=
  if negb (IsScalar e.1) then Some []
  else
    let key := NormalizeConfigName (Scalar e.1) in
    if negb (IsValidConfigName key) then Some [] else CollectMembers fuel (join_name p key) e.2.

Lemma collect_unfold fuel p n :
  CollectMembers (S fuel) p n =
  (let output := match p with [] => [] | _ => [(p, n)] end in
   if negb (IsMap n) then Some output
   else l ← mapM (collect_entry fuel p) (entries n); Some (output ++ mjoin l)).
Proof.
  cbn [CollectMembers]. destruct (negb (IsMap n)); [done|].
  generalize (match p with [] => [] | _ => [(p, n)] end). generalize (entries n).
  intros l. induction l as [|e l IH]; intros o; cbn; [by rewrite app_nil_r|].
  destruct (collect_entry fuel p e) as [k|] eqn:Ec; unfold collect_entry in Ec.
  all: destruct (negb (IsScalar e.1)); [|destruct (negb (IsValidConfigName _))].
  all: try (injection Ec as <-; rewrite IH; by destruct (mapM _ l)).
  all: try rewrite Ec; try done. cbn. rewrite IH. destruct (mapM _ l); [|done]. cbn. by rewrite <- app_assoc.
Qed.

(** Enough fuel is the depth of the document. *)
Lemma collect_ends d n : bounded d n → ∀ p, is_Some (CollectMembers d p n).
Proof.
  revert n. induction d as [|d IH]; intros n Hb; inversion Hb as [d' n' Hn]; subst; intros p.
  rewrite collect_unfold. cbv zeta. destruct (IsMap n); cbn [negb]; [|by eexists].
  specialize (Hn eq_refl).
  assert (is_Some (mapM (collect_entry d p) (entries n))) as [l ->]; [|by eexists].
  apply mapM_is_Some. eapply Forall_impl; [exact Hn|]. intros e He.
    change (is_Some (collect_entry d p e)). unfold collect_entry.
  destruct (negb (IsScalar e.1)); [by eexists|]. destruct (negb (IsValidConfigName _)); [by eexists|]. by apply IH.
Qed.

Lemma mapM_elem {A B : Type} (f : A → option (list B)) (l : list A) (k : list (list B)) (x : B) :
  mapM f l = Some k → (x ∈ mjoin k ↔ ∃ a b, a ∈ l ∧ f a = Some b ∧ x ∈ b).
Proof.
  intros Hm. apply mapM_Some in Hm. induction Hm as [|a b l k Hab _ IH]; cbn.
  - split; [by intros ?%elem_of_nil|]. intros (a&b&Ha&_). by apply elem_of_nil in Ha.
  - rewrite elem_of_app, IH. split.
    + intros [Hx|(a'&b'&?&?&?)]; [exists a, b|exists a', b']; rewrite elem_of_cons; auto.
    + intros (a'&b'&[->|Ha]%elem_of_cons&E&Hx); [left; congruence|right; by exists a', b'].
Qed.

(** What is collected is what is found. *)
Lemma collect_member fuel : ∀ p n l, CollectMembers fuel p n = Some l → ∀ q m, (q, m) ∈ l ↔ member p n q m.
Proof.
  induction fuel as [|fuel IH]; intros p n l; [done|]. rewrite collect_unfold. cbv zeta.
  set (output := match p with [] => [] | _ => [(p, n)] end).
  assert (∀ q m, (q, m) ∈ output ↔ p ≠ [] ∧ q = p ∧ m = n) as Ho.
  { intros q m. unfold output. destruct p; [split; [by intros ?%elem_of_nil|naive_solver]|].
    rewrite list_elem_of_singleton. naive_solver. }
  destruct (IsMap n) eqn:Em; cbn [negb].
  2: { intros [= <-] q m. rewrite Ho. split; [by intros (?&->&->); constructor|].
       intros H. inversion H; subst; [done|congruence]. }
  destruct (mapM _ _) as [k|] eqn:Ek; cbn; [|done]. intros [= <-] q m. rewrite elem_of_app, Ho.
  rewrite (mapM_elem _ _ _ _ Ek). split.
  - intros [(?&->&->)|(e&b&He&Eb&Hx)]; [by constructor|]. destruct e as [key child]. unfold collect_entry in Eb.
    cbn [fst snd] in Eb. destruct (IsScalar key) eqn:Es; cbn [negb] in Eb; [|injection Eb as <-; by apply elem_of_nil in Hx].
    destruct (IsValidConfigName _) eqn:Ev; cbn [negb] in Eb; [|injection Eb as <-; by apply elem_of_nil in Hx].
    apply (member_below p n key child); try done. by apply (IH _ _ _ Eb).
  - intros H. inversion H as [? ? Hp|? ? key child ? ? _ He Es Ev Hm]; subst; [by left|]. right.
    exists (key, child). assert (is_Some (collect_entry fuel p (key, child))) as [b Eb].
    { apply mapM_Some in Ek. apply list_elem_of_lookup in He as [i Hi].
      destruct (Forall2_lookup_l _ _ _ _ _ Ek Hi) as (b&_&Hb). by exists b. }
    exists b. split_and!; [done|done|]. unfold collect_entry in Eb. cbn [fst snd] in Eb.
    rewrite Es, Ev in Eb. cbn [negb] in Eb. by apply (IH _ _ _ Eb).
Qed.

(** A variable behind the nodes that were found for it: those that convert replace
    its value, the others do nothing. *)
Definition read_node (t : ty) (x : value t) (n : node) : value t :=
  match FromNode t n with inr y => y | inl _ => x end.
Definition read_into (v : variable) (n : node) : variable :=
  mkVariable (name_ v) (type_ v) (mkVar (read_node (type_ v) (value_ (var_ v)) n) (listeners_ (var_ v))).

Lemma fromNode_reads n v : (fromNode n v).1.2 = read_into v n.
Proof.
  unfold fromNode, read_into, read_node. destruct v as [s t [x l]]. cbn [type_ var_ name_ value_ listeners_].
  destruct (FromNode t n) as [e|y]; [done|]. unfold setValue, store, equal_of. cbn [value_ listeners_].
  destruct (compare t x y) eqn:E; [|done..]. apply (cmp_eq (total_compare t)) in E as ->. done.
Qed.

Lemma load_member_effect w m n p v :
  table_ok w → datas w !! n = Some p → objects w !! p = Some v →
  datas (load_member w m) = datas w ∧
  objects (load_member w m) !! p = Some (if decide (m.1 = n) then read_into v m.2 else v).
Proof.
  intros Hw Hp Hv. unfold load_member, LookupFromMap. destruct (decide (m.1 = n)) as [->|Hne].
  - rewrite Hp, Hv. rewrite <- fromNode_reads. destruct (fromNode m.2 v) as [[b u] calls]. split; [done|].
    apply lookup_insert_eq.
  - destruct (datas w !! m.1) as [q|] eqn:Hq; [|done]. destruct (objects w !! q) as [x|]; [|done].
    destruct (fromNode m.2 x) as [[b u] calls]. split; [done|]. cbn [objects]. rewrite lookup_insert_ne; [done|].
    intros ->. by apply Hne, (table_inj w _ _ p Hw).
Qed.

Lemma read_into_foldl l : ∀ v, foldl read_into v l =
  mkVariable (name_ v) (type_ v)
    (mkVar (foldl (read_node (type_ v)) (value_ (var_ v)) l) (listeners_ (var_ v))).
Proof. induction l as [|n l IH]; intros [s t [x ls]]; cbn; [done|]. by rewrite IH. Qed.

Lemma load_members_effect l n : ∀ w p v,
  table_ok w → datas w !! n = Some p → objects w !! p = Some v →
  datas (foldl load_member w l) = datas w ∧
  objects (foldl load_member w l) !! p = Some (foldl read_into v (filter (λ m, m.1 = n) l).*2).
Proof.
  induction l as [|m l IH]; intros w p v Hw Hp Hv; cbn; [done|].
  destruct (load_member_effect w m n p v Hw Hp Hv) as [Ed Eo]. destruct (load_member_ok w m Hw) as [Hw' _].
  rewrite <- Ed in Hp. destruct (IH _ p _ Hw' Hp Eo) as [H1 H2]. rewrite H1, H2. split; [done|].
  by destruct (decide (m.1 = n)).
Qed.

(** C30: loading a document that ends gives every registered variable the last value
    among the nodes the document has under its name that convert to its type, and
    leaves it alone when there is none; what the document has under a name is
    exactly what is reached by keys that are valid names and join to it.  Types,
    listeners and the registry stay. *)
Theorem load_effect d root w : bounded d root → table_ok w → IsDefined root = true → IsNull root = false →
  ∃ l w', CollectMembers d [] root = Some l ∧ LoadFromYaml d root w = Some w' ∧
    (∀ q m, (q, m) ∈ l ↔ member [] root q m) ∧ table_ok w' ∧
    ∀ n p v, datas w !! n = Some p → objects w !! p = Some v →
      datas w' !! n = Some p ∧
      objects w' !! p = Some (mkVariable (name_ v) (type_ v)
        (mkVar (foldl (read_node (type_ v)) (value_ (var_ v)) (filter (λ m, m.1 = n) l).*2) (listeners_ (var_ v)))).
Proof.
  intros Hb Hw Hdef Hnull. destruct (collect_ends d root Hb []) as [l El].
  exists l, (foldl load_member w l). unfold LoadFromYaml. rewrite Hdef, Hnull, El. cbn [negb orb].
  split_and!; [done|done|by apply (collect_member d)|by apply load_members_ok|].
  intros n p v Hp Hv. destruct (load_members_effect l n w p v Hw Hp Hv) as [E1 E2].
  rewrite E1, E2, read_into_foldl. by split.
Qed.

(** ** Files *)

(** Nothing is left to load from a file. *)
Definition settled (d : directory (node := node)) (f : str) w : Prop :=
  ∀ t, last_write_time d f = Some t → loaded w !! f = Some t ∨ LoadFile d f = None.

Lemma load_yaml_loaded fuel root w w' : LoadFromYaml fuel root w = Some w' → loaded w' = loaded w.
Proof.
  unfold LoadFromYaml. destruct (_ || _); [by intros [= <-]|]. destruct (CollectMembers fuel [] root) as [l|]; [|done].
  intros [= <-]. revert w. induction l as [|m l IH]; intros w; cbn; [done|]. rewrite IH. unfold load_member.
  destruct (LookupFromMap _ _) as [p|]; [|done]. destruct (objects w !! p) as [v|]; [|done].
  by destruct (fromNode m.2 v) as [[??]?].
Qed.

Lemma load_file_settles fuel (d : directory (node := node)) force f w w' :
  load_conf_file fuel d force f w = Some w' → settled d f w' ∧ ∀ g, settled d g w → settled d g w'.
Proof.
  unfold load_conf_file, settled. destruct (last_write_time d f) as [t|] eqn:Et; [|intros [= <-]; by split].
  destruct (negb force && IsFileUnchanged f t w) eqn:Eu.
  { intros [= <-]. split; [|done]. intros t' [= <-]. left.
    apply andb_true_iff in Eu as [_ Eu]. by apply bool_decide_eq_true in Eu. }
  destruct (LoadFile d f) as [root|] eqn:El; [|intros [= <-]; split; [by right|done]].
  destruct (LoadFromYaml fuel root w) as [w1|] eqn:Ew; [|done]. cbn. intros [= <-]. cbn [MarkFileLoaded loaded].
  rewrite (load_yaml_loaded _ _ _ _ Ew). split.
  - intros t' [= <-]. left. apply lookup_insert_eq.
  - intros g Hg t' Ht'. destruct (decide (g = f)) as [->|Hne].
    + left. rewrite lookup_insert_eq. congruence.
    + rewrite lookup_insert_ne by done. by apply Hg.
Qed.

Lemma settled_idle fuel (d : directory (node := node)) f w : settled d f w → load_conf_file fuel d false f w = Some w.
Proof.
  unfold settled, load_conf_file. destruct (last_write_time d f) as [t|]; [|done]. intros Hs.
  destruct (Hs t eq_refl) as [Hl|Hn].
  - unfold IsFileUnchanged. by rewrite bool_decide_eq_true_2.
  - rewrite Hn. by destruct (negb false && _).
Qed.

(** Once a directory has been loaded, by force or not, loading it again does
    nothing as long as no file is written: every file that could be read is recorded
    with its time, and files that could not be read are tried again in vain. *)
Theorem reload_does_nothing fuel fuel' (d : directory (node := node)) path force w w' :
  LoadFromConfDir fuel d path force w = Some w' → LoadFromConfDir fuel' d path false w' = Some w'.
Proof.
  assert (∀ files w w', load_conf_files fuel d force files w = Some w' →
    Forall (λ f, settled d f w') files ∧ ∀ g, settled d g w → settled d g w') as Hs.
  { induction files as [|f files IH]; intros u u'; cbn; [intros [= <-]; by split|].
    destruct (load_conf_file fuel d force f u) as [u1|] eqn:E; [|done]. cbn. intros Hl.
    destruct (load_file_settles _ _ _ _ _ _ E) as [H1 H2]. destruct (IH _ _ Hl) as [H3 H4].
    split; [constructor; auto|auto]. }
  unfold LoadFromConfDir. destruct path as [|b path]; [by intros [= <-]|].
  generalize (ListAllFile (ListAllFile [] (b :: path) (files_of d (b :: path)) $".yml") (b :: path)
    (files_of d (b :: path)) $".yaml"). intros files Hl. destruct (Hs files w w' Hl) as [Hf _].
  clear -Hf. induction Hf as [|f files Hf _ IH]; cbn; [done|]. by rewrite (settled_idle fuel' d f w' Hf).
Qed.
End config.

(** A listing adds the regular files with the suffix, in the order of their names. *)
#[export] Instance str_le_total : Total str_le.
Proof. intros a b. unfold str_le. rewrite (cmp_anti total_str a b). destruct (compare_str a b); cbn; auto. Qed.
#[export] Instance str_le_trans : Transitive str_le.
Proof.
  intros a b c. unfold str_le. destruct (compare_str a b) eqn:E1; [|intros _|done].
  - by apply (cmp_eq total_str) in E1 as ->.
  - destruct (compare_str b c) eqn:E2; [|intros _|done].
    + apply (cmp_eq total_str) in E2 as ->. by rewrite E1.
    + by rewrite (cmp_trans total_str _ _ _ E1 E2).
Qed.

Theorem listing_sorted files path visited suffix : path ≠ [] →
  ∃ new, ListAllFile files path (Some visited) suffix = files ++ new ∧ StronglySorted str_le new ∧
    ∀ f, f ∈ new ↔ (f, true) ∈ visited ∧ (suffix = [] ∨ ends_with suffix f = true).
Proof.
  intros Hp. destruct path; [done|]. cbn [ListAllFile].
  set (l := map fst (filter (λ e : str * bool, e.2 = true ∧ (suffix = [] ∨ ends_with suffix e.1 = true)) visited)).
  exists (merge_sort str_le l). split; [done|]. split; [apply StronglySorted_merge_sort; apply _|].
  intros f. rewrite (elem_of_Permutation_proper f _ _ (merge_sort_Permutation str_le l)). subst l.
  rewrite list_elem_of_fmap. setoid_rewrite list_elem_of_filter. split.
  - intros ([g b']&->&[Hb' Hs]&Hin). cbn in Hb'. subst b'. by split.
  - intros [Hin Hs]. by exists (f, true).
Qed.

(** ** Witnesses *)

Definition port_type : ty := TInteger (mkInteger false 16).
Definition sample_document : tree := Mapping [(Leaf $"Server", Mapping [(Leaf $"port", Leaf $" 0x1F90 ")])].

(** Two threads find the name missing, and the second creates the variable first. *)
Definition both_created : lookups :=
  let w := (emplace_new $"server.port" port_type 2 new_config).2 in
  mkLookups w [Answered $"server.port" port_type (Got (Some 1%positive));
               Answered $"server.port" port_type (Got (Some 1%positive))].

Lemma both_created_reachable : rtc (lookup_step (node := tree)) (mkLookups new_config []) both_created.
Proof.
  eapply rtc_l; [apply (step_call _ (Asking $"server.port" port_type 1)); by exists $"server.port", port_type, 1|].
  eapply rtc_l; [apply (step_call _ (Asking $"Server.Port" port_type 2)); by exists $"Server.Port", port_type, 2|].
  eapply rtc_l; [by apply (step_missing _ 0 $"server.port" port_type 1 $"server.port")|].
  eapply rtc_l; [by apply (step_missing _ 1 $"Server.Port" port_type 2 $"server.port")|].
  eapply rtc_l; [by eapply (step_emplace _ 1 $"server.port" port_type 2)|].
  eapply rtc_l; [by eapply (step_emplace _ 0 $"server.port" port_type 1)|].
  apply rtc_refl.
Qed.

Lemma one_variable_per_name_witness : 1%positive = 1%positive ∧
  datas (registry both_created) !! ($"server.port" : str) = Some 1%positive.
Proof.
  destruct (one_variable_per_name both_created both_created_reachable) as (H1&H2&_). split.
  - exact (H2 0%nat 1%nat $"server.port" port_type 1%positive 1%positive eq_refl eq_refl).
  - exact (proj1 (H1 0%nat $"server.port" port_type 1%positive eq_refl)).
Defined.

Lemma sample_bounded : bounded 3 sample_document.
Proof.
  by repeat (constructor; cbn; intros).
Qed.

Lemma load_effect_witness : ∃ w' : config, LoadFromYaml 3 sample_document (registry both_created) = Some w' ∧
  objects w' !! 1%positive = Some (mkVariable $"server.port" port_type (mkVar (8080 : value port_type) [])).
Proof.
  assert (table_ok new_config) as H0.
  { split; cbn; [intros n p; by rewrite lookup_empty|]. intros n. rewrite lookup_empty. by intros []. }
  assert (table_ok (registry both_created)) as Hw.
  { exact (proj1 (emplace_new_ok $"server.port" port_type 2 new_config (Got (Some 1%positive)) _ H0
      eq_refl eq_refl eq_refl)). }
  destruct (load_effect 3 sample_document (registry both_created) sample_bounded Hw eq_refl eq_refl)
    as (l&w'&El&Ew&_&_&H). exists w'. split; [exact Ew|].
  destruct (H $"server.port" 1%positive (mkVariable $"server.port" port_type (mkVar 2 [])) eq_refl eq_refl) as [_ E].
  rewrite E. injection El as <-. vm_compute. reflexivity.
Defined.

Definition sample_directory : directory :=
  mkDirectory (λ _, Some [($"/etc/a.yml", true)]) (λ _, Some 7) (λ _, Some sample_document).

Lemma reload_does_nothing_witness : ∃ w' : config,
  LoadFromConfDir 3 sample_directory $"/etc" true (registry both_created) = Some w' ∧
  LoadFromConfDir 3 sample_directory $"/etc" false w' = Some w'.
Proof.
  assert (∃ w', LoadFromConfDir 3 sample_directory $"/etc" true (registry both_created) = Some w') as [w' E]
    by (eexists; vm_compute; reflexivity).
  exists w'. split; [exact E|]. exact (reload_does_nothing 3 3 sample_directory $"/etc" true _ w' E).
Defined.
End ConfigProofs.
