(* ===== verification/Reports.v ===== *)
(** The edges of sockets and servers: cancelling what waits on a socket
    ([socket/socket.cc]) over [IOManager], and the texts sockets and servers print of
    themselves ([socket/socket.cc], [tcpserver/tcp_server.cc]). *)

From S2P Require Import Prelude Convert Address Sockets TcpServer IOManager IOManagerProofs IOManagerRuns.

Module Reports.
Import IOManager IOManagerProofs IOManagerRuns.

(** ** Cancelling *)

Section cancel.
Context {kernel : Type} (epoll_ctl : kernel → operation → Z → Z → kernel * option Z).

(** The manager of the calling thread, if it has one. *)
Abbreviation this_manager := (option (iom (kernel := kernel))).

Definition cancel_on (fd event : Z) (m : this_manager) : bool * this_manager :=
  match m with
  | None => (false, None)
  | Some m =>
      let '(r, m) := cancelEvent epoll_ctl fd event m in
      (match r with inr _ => true | inl _ => false end, Some m)
  end.

Definition cancelRead (s : Sockets.Socket) : this_manager → bool * this_manager :=
  cancel_on (Sockets.socket_ s) READ.
Definition cancelWrite (s : Sockets.Socket) : this_manager → bool * this_manager :=
  cancel_on (Sockets.socket_ s) WRITE.
Definition cancelAccept (s : Sockets.Socket) : this_manager → bool * this_manager := cancelRead s.
Definition cancelAll (s : Sockets.Socket) : this_manager → bool * this_manager :=
  cancel_on (Sockets.socket_ s) kAllEvents.

End cancel.

(** ** Texts *)

Section texts.
Context (inet_ntop : Z → str → option str).

Definition of_bool (b : bool) : str := if b then $"1" else $"0".

Definition socket_dump (s : Sockets.Socket) : str :=
  $"[Socket fd=" ++ Convert.to_chars_integer (Sockets.socket_ s) ++
  $" connected=" ++ of_bool (Sockets.connected_ s) ++
  $" family=" ++ Convert.to_chars_integer (Sockets.family_ s) ++
  $" type=" ++ Convert.to_chars_integer (Sockets.type_ s) ++
  $" protocol=" ++ Convert.to_chars_integer (Sockets.protocol_ s) ++
  (match Sockets.local_address_ s with Some a => $" local=" ++ Address.insert inet_ntop a | None => [] end) ++
  (match Sockets.remote_address_ s with Some a => $" remote=" ++ Address.insert inet_ntop a | None => [] end) ++
  $"]".

(** [TcpServer::toString]: the managers by their names, the listeners by what they point
    to. *)
Definition server_line (manager_name : TcpServer.manager → str) (s : TcpServer.TcpServer) : str :=
  let name_of (m : option TcpServer.manager) := match m with Some m => manager_name m | None => [] end in
  $"[type=" ++ TcpServer.type_ s ++ $" name=" ++ TcpServer.name_ s ++
  $" worker=" ++ name_of (TcpServer.worker_ s) ++ $" io_worker=" ++ name_of (TcpServer.io_worker_ s) ++
  $" accept_worker=" ++ name_of (TcpServer.accept_worker_ s) ++
  $" recv_timeout=" ++ to_dec (TcpServer.recv_timeout_ms_ s) ++
  $" stopped=" ++ of_bool (TcpServer.stopped_ s) ++ $"]".

Definition listener_line (sockets : TcpServer.sock → option Sockets.Socket) (l : TcpServer.sock) : str :=
  match sockets l with Some s => socket_dump s | None => $"<null socket>" end.

Definition server_toString (manager_name : TcpServer.manager → str)
    (sockets : TcpServer.sock → option Sockets.Socket) (prefix : str) (s : TcpServer.TcpServer) : str :=
  prefix ++ server_line manager_name s ++
  concat ((λ l, [LF] ++ (prefix ++ $"  ") ++ listener_line sockets l) <$> TcpServer.listeners_ s).

End texts.

(** [TcpServer::bind] of one address. *)
Definition bind_one {address} (a : option address * (TcpServer.sock + Z)) (w : TcpServer.world) :
    (TcpServer.errno + unit) * TcpServer.world :=
  let '(r, _, w) := TcpServer.bind [a] w in (r, w).

(** ** What cancelling does *)

Section cancelling.
Context {kernel : Type} (epoll_ctl : kernel → operation → Z → Z → kernel * option Z).

(** Cancelling reports whether it took handlers away: then they are scheduled - at least one, each
    once - and cancelling again reports nothing; otherwise nobody stops waiting.  A
    socket without a descriptor and a thread without a manager have nothing to
    cancel. *)
Theorem cancel_outcome fd event m :
  wf m →
  let '(done, m') := cancel_on epoll_ctl fd event (Some m) in
  ∃ m1, m' = Some m1 ∧ wf m1 ∧
    (if done
     then ∃ hs, hs ≠ [] ∧ waiting m ≡ₚ hs ++ waiting m1 ∧ tasks_ m1 = tasks_ m ++ (task_of <$> hs) ∧
       (cancel_on epoll_ctl fd event m').1 = false
     else waiting m1 = waiting m ∧ tasks_ m1 = tasks_ m) ∧
    (fd = -1 → done = false) ∧
    cancel_on epoll_ctl fd event None = (false, None).
Proof.
  intros Hm. pose proof (removal_outcome epoll_ctl fd event m Hm) as H. unfold cancel_on.
  assert (fd = -1 → ∃ e, (cancelEvent epoll_ctl fd event m).1 = inl e) as Hclosed.
  { intros ->. unfold cancelEvent, cancelEvent_locked, remove_events, getFdContext. cbn.
    destruct (_ || _); eexists; reflexivity. }
  destruct (cancelEvent epoll_ctl fd event m) as [[e|[]] mc] eqn:E, (delEvent epoll_ctl fd event m) as [rd md];
    destruct H as (_&Hwf&_&_&_&_&H); exists mc.
  - destruct H as (?&?&_). by split_and!.
  - destruct H as (hs&?&?&?&_&Hagain). split_and!; [done..| | |done].
    + exists hs. split_and!; [done..|]. destruct (cancelEvent epoll_ctl fd event mc) as [r m2]. cbn in *. by subst r.
    + intros Hfd. destruct (Hclosed Hfd) as [e He]. discriminate He.
Qed.

End cancelling.

(** ** One line per listener *)

Definition lines (s : str) : nat := length (filter (λ b, b = LF) s).

Lemma lines_app s t : lines (s ++ t) = (lines s + lines t)%nat.
Proof. unfold lines. by rewrite filter_app, length_app. Qed.

Lemma lines_to_dec z : 0 <= z → lines (to_dec z) = 0%nat.
Proof.
  intros Hz. unfold lines. pose proof (to_dec_digits z Hz) as H. induction H as [|b s Hb _ IH]; [done|].
  rewrite filter_cons_False; [done|]. intros ->. destruct Hb as [v Hv]. discriminate Hv.
Qed.

Lemma lines_integer z : lines (Convert.to_chars_integer z) = 0%nat.
Proof.
  unfold Convert.to_chars_integer. destruct (Z.ltb_spec z 0); [|by apply lines_to_dec].
  change (?b :: ?s) with ([b] ++ s). rewrite lines_app, lines_to_dec by lia. done.
Qed.

Lemma lines_bool b : lines (of_bool b) = 0%nat.
Proof. by destruct b. Qed.

Lemma lines_if (o : option str) : lines (default [] o) = match o with Some s => lines s | None => 0%nat end.
Proof. by destruct o. Qed.

Create HintDb lines.
#[export] Hint Rewrite lines_app lines_integer lines_bool : lines.

Section listed.
Context (inet_ntop : Z → str → option str) (manager_name : TcpServer.manager → str).
Context (sockets : TcpServer.sock → option Sockets.Socket).

(** The addresses of the listeners, and the texts the caller chose, are single lines. *)
Definition one_line_addresses : Prop :=
  ∀ l s a, sockets l = Some s → Sockets.local_address_ s = Some a ∨ Sockets.remote_address_ s = Some a →
    lines (Address.insert inet_ntop a) = 0%nat.

Lemma lines_socket s :
  (∀ a, Sockets.local_address_ s = Some a ∨ Sockets.remote_address_ s = Some a → lines (Address.insert inet_ntop a) = 0%nat) →
  lines (socket_dump inet_ntop s) = 0%nat.
Proof.
  intros H. unfold socket_dump. autorewrite with lines.
  destruct (Sockets.local_address_ s) as [a|], (Sockets.remote_address_ s) as [b|];
    autorewrite with lines; rewrite ?H by auto; reflexivity.
Qed.

(** What a server prints of itself is one line, and one more for every listener, in their
    order. *)
Theorem report_lists_listeners prefix s :
  one_line_addresses → lines prefix = 0%nat → lines (TcpServer.name_ s) = 0%nat → lines (TcpServer.type_ s) = 0%nat →
  (∀ m, lines (manager_name m) = 0%nat) → 0 <= TcpServer.recv_timeout_ms_ s →
  lines (server_toString inet_ntop manager_name sockets prefix s) = length (TcpServer.listeners_ s).
Proof.
  intros Ha Hp Hn Ht Hm Hr. unfold server_toString, server_line.
  assert (∀ m : option TcpServer.manager, lines (match m with Some m => manager_name m | None => [] end) = 0%nat) as Hm'
    by (intros [m|]; auto).
  autorewrite with lines. rewrite Hp, Hn, Ht, !Hm', lines_to_dec by done. change (lines _) with 0%nat at 1 2 3 4 5 6 7 8.
  cbn [Nat.add]. induction (TcpServer.listeners_ s) as [|l ls IH]; [done|].
  cbn [fmap list_fmap concat length]. autorewrite with lines. rewrite Hp.
  assert (lines (listener_line inet_ntop sockets l) = 0%nat) as ->.
  { unfold listener_line. destruct (sockets l) as [x|] eqn:El; [|done]. apply lines_socket. intros a. by apply (Ha l x a). }
  cbn in *. by rewrite IH.
Qed.
End listed.

End Reports.
