(* ===== verification/SystemUtils.v ===== *)
(** Texts about the running program: names of types
    ([droplet/include/droplet/type_name.h]), backtraces
    ([droplet/src/utils/system_utils.cc]) and names of threads
    ([droplet/src/utils/thread_utils.cc]), with what they promise.  The demangler, the
    unwinder and the line tables are arguments. *)

From S2P Require Import Prelude.

Module TypeName.

(** [rfind] of a text. *)
Fixpoint rfind_sub (p s : str) : option nat :=
  match s with
  | [] => if starts_with p [] then Some 0%nat else None
  | _ :: s' =>
      match rfind_sub p s' with
      | Some i => Some (S i)
      | None => if starts_with p s then Some 0%nat else None
      end
  end.

Definition marker : str := $"T = ".
Definition msvc_marker : str := $"TypeNameProbe<".
Definition msvc_suffix : str := $">(void)".

(** The name in a signature of MSVC. *)
Definition ExtractMsvcTypeName (signature : str) : str :=
  match rfind_sub msvc_marker signature with
  | None => signature
  | Some marker_pos =>
      let begin := (marker_pos + length msvc_marker)%nat in
      match rfind_sub msvc_suffix signature with
      | None => signature
      | Some stop => if Nat.leb stop begin then signature else substr signature begin (stop - begin)
      end
  end.

(** The name in a signature of GCC or Clang. *)
Definition ExtractTypeName (signature : str) : str :=
  match find_sub marker signature with
  | None => signature
  | Some marker_pos =>
      let begin := (marker_pos + length marker)%nat in
      let semicolon := find_char_at (Byte.x3b) signature begin in
      let bracket := find_char (Byte.x5d) signature in
      match (match semicolon with Some i => Some i | None => bracket end) with
      | None => drop begin signature
      | Some stop => if Nat.leb stop begin then drop begin signature else substr signature begin (stop - begin)
      end
  end.
End TypeName.

Module Backtrace.

Section backtrace.
(** [__cxa_demangle], and [dwfl_getsrc] with [dwfl_lineinfo]: the file, which may be
    missing, and the line. *)
Context (cxa_demangle : str → option str) (getsrc : Z → option (option str * Z)).

Definition DemangleBacktraceSymbol (symbol : option str) : str :=
  let text := default [] symbol in
  match find_char Byte.x28 text with
  | None => text
  | Some name_begin =>
      let mangled_begin := S name_begin in
      let name_end :=
        match find_char_at Byte.x2b text mangled_begin with
        | Some i => Some i
        | None => find_char_at Byte.x29 text mangled_begin
        end in
      match name_end with
      | None => text
      | Some name_end =>
          if Nat.eqb name_end mangled_begin then text
          else
            let mangled_name := substr text mangled_begin (name_end - mangled_begin) in
            match cxa_demangle mangled_name with Some name => name | None => mangled_name end
      end
  end.

(** [SourceLocationParser::parse]; [loaded] says that the line tables could be read. *)
Definition parse (loaded : bool) (frame : Z) (is_return_address : bool) : str :=
  if negb loaded then []
  else
    let address := if is_return_address && (0 <? frame) then frame - 1 else frame in
    match getsrc address with
    | None => []
    | Some (file_name, line_number) =>
        match file_name with
        | None => []
        | Some file_name => if line_number <=? 0 then [] else file_name ++ $":" ++ to_dec line_number
        end
    end.

(** One line of the backtrace. *)
Definition frame_line (loaded : bool) (prefix : str) (first_frame i : nat) (frame : Z) (symbol : option str) : str :=
  let source_location := parse loaded frame (Nat.ltb 0 i) in
  prefix ++ $"#" ++ to_dec (Z.of_nat (i - first_frame)) ++ $" " ++ DemangleBacktraceSymbol symbol ++
  (match source_location with [] => [] | _ => $" at " ++ source_location end) ++ [LF].

Fixpoint frame_lines (loaded : bool) (prefix : str) (first_frame i : nat) (frames : list (Z * option str)) : list str :=
  match frames with
  | [] => []
  | (frame, symbol) :: frames =>
      frame_line loaded prefix first_frame i frame symbol :: frame_lines loaded prefix first_frame (S i) frames
  end.

(** [GetBacktrace], with the frames the unwinder finds, at most [size], and their
    symbols, if there is memory for them. *)
Definition GetBacktrace (size skip : Z) (prefix : str) (loaded : bool) (frames : list Z) (symbols : option (list (option str)))
    : str :=
  if size <=? 0 then []
  else
    let frames := take (Z.to_nat size) frames in
    match frames, symbols with
    | [], _ | _, None => []
    | _, Some symbols =>
        let first_frame := Z.to_nat (Z.max 0 (Z.min skip (Z.of_nat (length frames)))) in
        mjoin (frame_lines loaded prefix first_frame first_frame (drop first_frame (zip frames symbols)))
    end.
End backtrace.
End Backtrace.

Module ThreadName.

(** What a thread keeps: the name in its variable, and the one the system knows, which
    [pthread_getname_np] may fail to give. *)
Record names := mkNames { t_thread_name : str; native_name : option str }.

Definition DEFAULT_THREAD_NAME : str := $"UNKNOWN".

Definition GetNativeThreadName (n : names) : str := default [] (native_name n).

(** The first 15 bytes, as the C function reads them. *)
Definition SetNativeThreadName (name : str) (n : names) : names :=
  let text := take 15 name in
  mkNames (t_thread_name n)
    (Some (match find_char Byte.x00 text with Some i => take i text | None => text end)).

(** [SetThreadName]; an empty name is reported and gives the name of the system. *)
Definition SetThreadName (name : str) (n : names) : bool * names :=
  match name with
  | [] =>
      let native := GetNativeThreadName n in
      (false, mkNames (match native with [] => DEFAULT_THREAD_NAME | _ => native end) (native_name n))
  | _ => (true, SetNativeThreadName name (mkNames name (native_name n)))
  end.
Definition GetThreadName (n : names) : str := t_thread_name n.
End ThreadName.

Module SystemUtilsProofs.
Import TypeName Backtrace.

(** ** Names of types *)

Lemma marker_at p name r : find_sub marker (p ++ marker) = Some (length p) →
  find_sub marker (p ++ marker ++ name ++ r) = Some (length p).
Proof. intros H. rewrite app_assoc. by apply find_sub_app_l. Qed.

Lemma behind_marker p name c r : c ∉ name →
  find_char_at c (p ++ marker ++ name ++ c :: r) (length p + length marker) = Some (length p + length marker + length name)%nat.
Proof.
  intros Hc. unfold find_char_at. rewrite app_assoc, <- length_app, drop_app_length, find_char_here by done. done.
Qed.

(** The name of a type is what stands behind the first mark, up to the first semicolon
    for GCC - whatever brackets the name has - and for Clang, which writes no
    semicolon, up to the first closing bracket of the whole signature. *)
Theorem type_name_extracted p name r :
  find_sub marker (p ++ marker) = Some (length p) → name ≠ [] → Byte.x3b ∉ name →
  ExtractTypeName (p ++ marker ++ name ++ Byte.x3b :: r) = name ∧
  (Byte.x3b ∉ r → Byte.x5d ∉ p → Byte.x5d ∉ name →
    ExtractTypeName (p ++ marker ++ name ++ Byte.x5d :: r) = name).
Proof.
  intros Hp Hne Hs. assert (0 < length name)%nat as Hl by (destruct name; [done|cbn; lia]). unfold ExtractTypeName.
  assert (∀ b, substr (p ++ marker ++ name ++ b) (length p + length marker)
    (length p + length marker + length name - (length p + length marker)) = name) as Hsub.
  { intros b. replace (length p + length marker + length name - (length p + length marker))%nat with (length name) by lia.
    rewrite app_assoc, <- length_app. apply substr_at. }
  rewrite !marker_at by done. split.
  - rewrite behind_marker by done. rewrite (proj2 (Nat.leb_gt _ _)) by lia. apply Hsub.
  - intros Hr Hp' Hn.
    assert (find_char_at Byte.x3b (p ++ marker ++ name ++ Byte.x5d :: r) (length p + length marker) = None) as ->.
    { unfold find_char_at. rewrite app_assoc, <- length_app, drop_app_length.
      rewrite (proj2 (find_char_None _ _)); [done|]. rewrite elem_of_app, elem_of_cons. naive_solver. }
    assert (find_char Byte.x5d (p ++ marker ++ name ++ Byte.x5d :: r) = Some (length p + length marker + length name)%nat) as ->.
    { rewrite !app_assoc. rewrite find_char_here.
      - by rewrite !length_app.
      - rewrite !elem_of_app. intros [[?|Hm]|?]; [done| |done]. revert Hm. unfold marker. vm_compute.
        repeat (intros [|]%elem_of_cons; [done|]) || set_solver. }
    rewrite (proj2 (Nat.leb_gt _ _)) by lia. apply Hsub.
Qed.

(** Clang's name of an array type loses its end. *)
Example clang_array : ExtractTypeName $"std::string_view droplet::detail::TypeNameProbe() [T = int[3]]" = $"int[3".
Proof. vm_compute. reflexivity. Qed.

(** ** Backtraces *)

(** In the form the C library gives its symbols, module(name+offset)[address], the name
    is found and demangled, or kept when it is the name of a C function. *)
Theorem symbol_found cxa_demangle m name rest :
  Byte.x28 ∉ m → Byte.x2b ∉ name → name ≠ [] →
  DemangleBacktraceSymbol cxa_demangle (Some (m ++ Byte.x28 :: name ++ Byte.x2b :: rest)) =
  default name (cxa_demangle name).
Proof.
  intros Hm Hn Hne. assert (0 < length name)%nat as Hl by (destruct name; [done|cbn; lia]).
  unfold DemangleBacktraceSymbol. cbn [from_option id]. rewrite find_char_here by done.
  assert (drop (S (length m)) (m ++ Byte.x28 :: name ++ Byte.x2b :: rest) = name ++ Byte.x2b :: rest) as Hd
    by (clear; induction m as [|b m IH]; [done|apply IH]).
  unfold find_char_at, substr. rewrite Hd, find_char_here by done. cbn [fmap option_fmap option_map].
  rewrite (proj2 (Nat.eqb_neq _ _)) by lia.
  replace (S (length m) + length name - S (length m))%nat with (length name) by lia.
  rewrite take_app_length. by destruct (cxa_demangle name).
Qed.

(** ** Names of threads *)

Import ThreadName.

(** The program gets the name it set back, whole; the system knows its first 15 bytes,
    up to the first zero byte. *)
Theorem thread_name_kept name n : name ≠ [] →
  let '(ok, n') := SetThreadName name n in
  ok = true ∧ GetThreadName n' = name ∧
  ∃ rest, name = GetNativeThreadName n' ++ rest ∧ (length (GetNativeThreadName n') ≤ 15)%nat ∧
    ((length name ≤ 15)%nat → Byte.x00 ∉ name → rest = []).
Proof.
  intros Hne. destruct name as [|b name]; [done|]. cbn [SetThreadName]. set (s := b :: name).
  split; [done|]. split; [done|]. unfold SetNativeThreadName, GetNativeThreadName. cbn [native_name from_option id].
  assert (s = take 15 s ++ drop 15 s) as Es by (by rewrite take_drop).
  destruct (find_char Byte.x00 (take 15 s)) as [i|] eqn:E; cbn [from_option id].
  - exists (drop i (take 15 s) ++ drop 15 s). split; [by rewrite app_assoc, take_drop|]. split.
    { rewrite !length_take. lia. }
    intros _ H0. apply find_char_Some in E as (p&r&Et&_). destruct H0. rewrite Es, Et. set_solver.
  - exists (drop 15 s). split; [done|]. split; [rewrite length_take; lia|]. intros Hl _. by apply drop_ge.
Qed.
End SystemUtilsProofs.
