(* ===== verification/Mutex.v ===== *)
(** The locks of [droplet/include/droplet/mutex.h] as one machine: the spin lock
    over an atomic flag, [AtomicWaitLock], and [ThreeStageLock], which spins, then
    yields, then sleeps.  Every access to the atomic word is a step of its own, and
    the steps of any number of threads interleave. *)

From S2P Require Import Prelude.

Module Mutex.

Inductive kind := Spinlock | AtomicWaitLock | ThreeStageLock.

Definition kSpinLimit : nat := 64.
Definition kYieldLimit : nat := 8.

(** Where a thread is: outside; in [lock] before it reads the word, before its
    compare-and-swap, behind a failure, before it compares the word in
    [atomic_wait], or asleep there, with the two counts of [ThreeStageLock]; in the
    critical section; in [unlock] before [notify_one]. *)
Inductive pc :=
  | Outside
  | Loading (spin_count yield_count : nat)
  | Swapping (spin_count yield_count : nat)
  | Failed (spin_count yield_count : nat)
  | Waiting
  | Asleep
  | Holding
  | Notifying.

Record state := mkState { locked_ : bool; threads : list pc }.

Definition move (i : nat) (p : pc) (s : state) : state := mkState (locked_ s) (<[i := p]> (threads s)).

Section lock.
Context (k : kind).

(** The head of the loop of [lock]. *)
Definition head (spin_count yield_count : nat) : pc :=
  match k with ThreeStageLock => Loading spin_count yield_count | _ => Swapping spin_count yield_count end.

(** Behind a load that finds the word set. *)
Definition load_failed (spin_count yield_count : nat) : pc :=
  match k with Spinlock => Loading spin_count yield_count | _ => Failed spin_count yield_count end.

(** Behind a compare-and-swap, or [test_and_set], that fails. *)
Definition swap_failed (spin_count yield_count : nat) : pc :=
  match k with
  | Spinlock => Loading spin_count yield_count
  | AtomicWaitLock => Waiting
  | ThreeStageLock => Failed spin_count yield_count
  end.

(** The three stages. *)
Definition next_stage (spin_count yield_count : nat) : pc :=
  if Nat.ltb spin_count kSpinLimit then Loading (S spin_count) yield_count
  else if Nat.ltb yield_count kYieldLimit then Loading spin_count (S yield_count)
  else Waiting.

(** The weak compare-and-swap of the two waiting locks may fail for no reason;
    [test_and_set] does not. *)
Definition may_fail : bool := match k with Spinlock => false | _ => true end.

(** [unlock] of the spin lock notifies nobody. *)
Definition unlocked : pc := match k with Spinlock => Outside | _ => Notifying end.

(** A step of thread [i]. *)
Inductive step (i : nat) (s : state) : state → Prop :=
  | lock_call : threads s !! i = Some Outside → step i s (move i (head 0 0) s)
  | lock_load a b : threads s !! i = Some (Loading a b) →
      step i s (move i (if locked_ s then load_failed a b else Swapping a b) s)
  | lock_swap a b : threads s !! i = Some (Swapping a b) → locked_ s = false →
      step i s (mkState true (<[i := Holding]> (threads s)))
  | lock_swap_failed a b : threads s !! i = Some (Swapping a b) → locked_ s = true ∨ may_fail = true →
      step i s (move i (swap_failed a b) s)
  | lock_next a b : threads s !! i = Some (Failed a b) → step i s (move i (next_stage a b) s)
  | lock_wait : threads s !! i = Some Waiting → step i s (move i (if locked_ s then Asleep else head 0 0) s)
  | lock_spurious : threads s !! i = Some Asleep → step i s (move i Waiting s)
  | try_lock_taken : threads s !! i = Some Outside → locked_ s = false →
      step i s (mkState true (<[i := Holding]> (threads s)))
  | try_lock_failed : threads s !! i = Some Outside → locked_ s = true → step i s s
  | unlock_store : threads s !! i = Some Holding →
      step i s (mkState false (<[i := unlocked]> (threads s)))
  | unlock_notify j : threads s !! i = Some Notifying → threads s !! j = Some Asleep →
      step i s (move j Waiting (move i Outside s))
  | unlock_notify_none : threads s !! i = Some Notifying → Asleep ∉ threads s →
      step i s (move i Outside s).

Definition any_step (s s' : state) : Prop := ∃ i, step i s s'.
Definition start (n : nat) : state := mkState false (replicate n Outside).

(** Steps of the threads that are awake inside [lock] or [unlock] already: no new calls,
    and no spurious wake-ups. *)
Definition inside (p : pc) : Prop := p ≠ Outside ∧ p ≠ Holding ∧ p ≠ Asleep.
Definition inside_step (s s' : state) : Prop :=
  ∃ i p, threads s !! i = Some p ∧ inside p ∧ step i s s'.
End lock.
End Mutex.
