(* ===== verification/MutexProofs.v ===== *)
(** What the locks guarantee: mutual exclusion, no thread that sleeps for good while
    the lock is free, and that some thread gets the lock while one wants it. *)

From S2P Require Import Prelude Mutex.
Import Mutex.

Module MutexProofs.

Section lock.
Context (k : kind).

Definition awake (p : pc) : Prop :=
  match p with Loading _ _ | Swapping _ _ | Failed _ _ | Waiting => True | _ => False end.
(** The counts stay within their limits, and a spin lock only spins. *)
Definition fits (p : pc) : Prop :=
  match p with
  | Loading a b => (a ≤ kSpinLimit)%nat ∧ (b ≤ kYieldLimit)%nat ∧ k ≠ AtomicWaitLock
  | Swapping a b => (a ≤ kSpinLimit)%nat ∧ (b ≤ kYieldLimit)%nat
  | Failed a b => (a ≤ kSpinLimit)%nat ∧ (b ≤ kYieldLimit)%nat ∧ k = ThreeStageLock
  | Waiting | Asleep | Notifying => k ≠ Spinlock
  | Outside | Holding => True
  end.

Record inv (s : state) : Prop := {
  one_holder i j : threads s !! i = Some Holding → threads s !! j = Some Holding → i = j;
  word_holder : locked_ s = true ↔ Holding ∈ threads s;
  sleeper_watched : locked_ s = false → Asleep ∈ threads s →
    Notifying ∈ threads s ∨ ∃ p, p ∈ threads s ∧ awake p;
  all_fit p : p ∈ threads s → fits p;
}.

(** The threads behind a move of one of them. *)
Lemma elem_of_move i p q (l : list pc) x : l !! i = Some q →
  x ∈ <[i := p]> l → x = p ∨ (∃ j, j ≠ i ∧ l !! j = Some x).
Proof.
  intros Hi Hx. apply list_elem_of_lookup in Hx as [j Hj]. destruct (decide (j = i)) as [->|Hne].
  - rewrite list_lookup_insert_eq in Hj by (by apply lookup_lt_Some in Hi). injection Hj as ->. by left.
  - rewrite list_lookup_insert_ne in Hj by done. right. by exists j.
Qed.
Lemma move_new i p q (l : list pc) : l !! i = Some q → p ∈ <[i := p]> l.
Proof.
  intros Hi. apply list_elem_of_lookup. exists i. apply list_lookup_insert_eq. by apply lookup_lt_Some in Hi.
Qed.
Lemma move_other i j p x (l : list pc) : j ≠ i → l !! j = Some x → x ∈ <[i := p]> l.
Proof. intros Hne Hj. apply list_elem_of_lookup. exists j. by rewrite list_lookup_insert_ne. Qed.

(** A move that leaves the word and the critical section alone. *)
Lemma inv_move i p q s :
  inv s → threads s !! i = Some q → q ≠ Holding → p ≠ Holding → fits p →
  (locked_ s = false → Asleep ∈ <[i := p]> (threads s) →
    Notifying ∈ <[i := p]> (threads s) ∨ ∃ x, x ∈ <[i := p]> (threads s) ∧ awake x) →
  inv (move i p s).
Proof.
  intros [H1 H2 H3 H4] Hi Hq Hp Hb Hw.
  assert (∀ j, <[i := p]> (threads s) !! j = Some Holding → threads s !! j = Some Holding) as Hh.
  { intros j Hj. destruct (decide (j = i)) as [->|Hne]; [|by rewrite list_lookup_insert_ne in Hj].
    rewrite list_lookup_insert_eq in Hj by (by apply lookup_lt_Some in Hi). congruence. }
  assert (∀ x, x ∈ <[i := p]> (threads s) → x = p ∨ x ∈ threads s) as Hel.
  { intros x [->|(j&_&Hj)]%(elem_of_move i p q); [by left| |done]. right. by apply list_elem_of_lookup_2 in Hj. }
  split; cbn [move threads locked_].
  - intros a b Ha%Hh Hb'%Hh. by apply H1.
  - rewrite H2. split; intros Hin; apply list_elem_of_lookup in Hin as [j Hj].
    + apply (move_other _ j); [|done]. intros ->. congruence.
    + apply Hh in Hj. by apply list_elem_of_lookup_2 in Hj.
  - done.
  - intros x [->|Hx]%Hel; [done|by apply H4].
Qed.

(** Moves inside [lock] keep somebody awake. *)
Lemma inv_awake i p q s :
  inv s → threads s !! i = Some q → q ≠ Holding → awake p → fits p → inv (move i p s).
Proof.
  intros Hs Hi Hq Hp Hb. apply (inv_move i p q); try done.
  - by intros ->.
  - intros _ _. right. exists p. split; [by apply (move_new i p q)|done].
Qed.

(** Taking the word. *)
Lemma inv_take i q s : inv s → threads s !! i = Some q → q ≠ Holding → locked_ s = false →
  inv (mkState true (<[i := Holding]> (threads s))).
Proof.
  intros [H1 H2 H3 H4] Hi Hq Hl.
  assert (∀ j, threads s !! j ≠ Some Holding) as Hno.
  { intros j Hj. assert (locked_ s = true); [|congruence]. apply H2. by apply list_elem_of_lookup_2 in Hj. }
  assert (∀ j, <[i := Holding]> (threads s) !! j = Some Holding → j = i) as Hone.
  { intros j Hj. destruct (decide (j = i)) as [|Hne]; [done|]. rewrite list_lookup_insert_ne in Hj by done.
    by apply Hno in Hj. }
  split; cbn [threads locked_].
  - intros a b Ha%Hone Hb%Hone. congruence.
  - split; [|done]. intros _. by apply (move_new i Holding q).
  - done.
  - intros x [->|(j&_&Hj)]%(elem_of_move i Holding q); [done| |done]. apply H4. by apply list_elem_of_lookup_2 in Hj.
Qed.

(** Giving it back. *)
Lemma inv_release i s : inv s → threads s !! i = Some Holding →
  inv (mkState false (<[i := unlocked k]> (threads s))).
Proof.
  intros [H1 H2 H3 H4] Hi.
  assert (∀ j, <[i := unlocked k]> (threads s) !! j ≠ Some Holding) as Hno.
  { intros j Hj. destruct (decide (j = i)) as [->|Hne].
    - rewrite list_lookup_insert_eq in Hj by (by apply lookup_lt_Some in Hi). by destruct k.
    - rewrite list_lookup_insert_ne in Hj by done. by apply Hne, H1. }
  split; cbn [threads locked_].
  - intros a b Ha. by apply Hno in Ha.
  - split; [done|]. intros Hin. apply list_elem_of_lookup in Hin as [j Hj]. by apply Hno in Hj.
  - intros _ Hin. destruct k eqn:Ek.
    2, 3: left; by apply (move_new i Notifying Holding).
    exfalso. apply (elem_of_move i Outside Holding) in Hin as [|(j&_&Hj)]; [done| |done].
    apply list_elem_of_lookup_2 in Hj. by apply H4 in Hj.
  - intros x Hin. apply (elem_of_move i _ Holding) in Hin as [->|(j&_&Hj)]; [by unfold fits, unlocked; destruct k| |done].
    apply H4. by apply list_elem_of_lookup_2 in Hj.
Qed.

Lemma next_stage_fits a b : k = ThreeStageLock → (a ≤ kSpinLimit)%nat → (b ≤ kYieldLimit)%nat →
  fits (next_stage a b) ∧ awake (next_stage a b).
Proof.
  intros Ek Ha Hb. unfold next_stage.
  destruct (Nat.ltb_spec a kSpinLimit); [|destruct (Nat.ltb_spec b kYieldLimit)]; unfold fits, awake; split; try done;
    rewrite Ek; by split_and?; try lia.
Qed.

Lemma lock_step_inv i s s' : inv s → step k i s s' → inv s'.
Proof.
  intros Hs H. pose proof Hs as [H1 H2 H3 H4].
  assert (∀ p, threads s !! i = Some p → p ∈ threads s) as Hin by (intros p Hp; by apply list_elem_of_lookup_2 in Hp).
  assert (fits (head k 0 0) ∧ awake (head k 0 0)) as [Hh1 Hh2].
  { unfold head, fits, awake, kSpinLimit, kYieldLimit. destruct k; split; split_and?; (done || lia). }
  destruct H as [Hi|a b Hi|a b Hi Hl|a b Hi Hl|a b Hi|Hi|Hi|Hi Hl|Hi Hl|Hi|j Hi Hj|Hi Hno].
  - by apply (inv_awake i _ Outside).
  - destruct (H4 _ (Hin _ Hi)) as (Ha&Hb&Hk).
    apply (inv_awake i _ (Loading a b)); try done; destruct (locked_ s); try done; unfold load_failed, fits;
      destruct k; by split_and?.
  - by apply (inv_take i (Swapping a b)).
  - destruct (H4 _ (Hin _ Hi)) as (Ha&Hb).
    apply (inv_awake i _ (Swapping a b)); try done; unfold swap_failed, fits; destruct k; by split_and?.
  - destruct (H4 _ (Hin _ Hi)) as (Ha&Hb&Ek). destruct (next_stage_fits a b Ek Ha Hb).
    by apply (inv_awake i _ (Failed a b)).
  - pose proof (H4 _ (Hin _ Hi)) as Hk. destruct (locked_ s) eqn:El; [|by apply (inv_awake i _ Waiting)].
    apply (inv_move i Asleep Waiting); try done. congruence.
  - pose proof (H4 _ (Hin _ Hi)) as Hk. by apply (inv_awake i _ Asleep).
  - by apply (inv_take i Outside).
  - done.
  - by apply inv_release.
  - assert (j ≠ i) as Hne by congruence. pose proof (H4 _ (Hin _ Hi)) as Hk.
    assert (inv (move j Waiting s)) as Hj' by (by apply (inv_awake j _ Asleep)).
    assert (move j Waiting (move i Outside s) = move i Outside (move j Waiting s)) as ->.
    { unfold move. cbn. by rewrite list_insert_insert_ne. }
    apply (inv_move i Outside Notifying); try done.
    { cbn. by rewrite list_lookup_insert_ne. }
    intros _ _. right. exists Waiting. split; [|done]. apply (move_other i j); [done|]. cbn.
    apply list_lookup_insert_eq. by apply lookup_lt_Some in Hj.
  - apply (inv_move i Outside Notifying); try done. intros _ Ha. exfalso.
    apply (elem_of_move i Outside Notifying) in Ha as [|(j&_&Hj)]; [done| |done].
    by apply list_elem_of_lookup_2 in Hj.
Qed.

Lemma lock_reachable_inv n s : rtc (any_step k) (start n) s → inv s.
Proof.
  intros Hr. assert (inv (start n)) as H0.
  { assert (∀ p, p ∈ replicate n Outside → p = Outside) as Ho by (intros p Hp; by apply elem_of_replicate in Hp as [-> _]).
    split; cbn [start threads locked_].
    - intros i j Hi. by apply list_elem_of_lookup_2, Ho in Hi.
    - split; [done|]. by intros ?%Ho.
    - by intros _ ?%Ho.
    - by intros p ->%Ho. }
  induction Hr as [|s1 s2 s3 [i Hi] _ IH]; [done|]. by apply IH, (lock_step_inv i s1).
Qed.

(** C26: mutual exclusion, for each of the three locks and any number of threads: at
    most one thread is between [lock] or a successful [try_lock] and [unlock], and
    the word says whether one is; [ThreeStageLock] counts no more than 64 polls and 8
    yields before it sleeps. *)
Theorem mutual_exclusion n s : rtc (any_step k) (start n) s →
  (∀ i j, threads s !! i = Some Holding → threads s !! j = Some Holding → i = j) ∧
  (locked_ s = true ↔ ∃ i, threads s !! i = Some Holding) ∧
  (∀ i a b, threads s !! i = Some (Loading a b) → (a ≤ kSpinLimit)%nat ∧ (b ≤ kYieldLimit)%nat).
Proof.
  intros [H1 H2 H3 H4]%lock_reachable_inv. split_and!; [done| |].
  - rewrite H2. apply list_elem_of_lookup.
  - intros i a b Hi. apply list_elem_of_lookup_2, H4 in Hi as (?&?&_). done.
Qed.

(** ** Progress *)

Lemma inside_move i p q s : threads s !! i = Some q → inside q → step k i s (move i p s) →
  inside_step k s (move i p s) ∧ threads (move i p s) !! i = Some p.
Proof.
  intros Hi Hq Hs. split; [by exists i, q|]. cbn. apply list_lookup_insert_eq. by apply lookup_lt_Some in Hi.
Qed.

(** A thread awake in [lock] takes a free lock by its own steps. *)
Lemma awake_takes i p s : inv s → locked_ s = false → threads s !! i = Some p → awake p →
  ∃ s', rtc (inside_step k) s s' ∧ threads s' !! i = Some Holding.
Proof.
  intros Hs Hl Hi Hp.
  assert (∀ s a b, locked_ s = false → threads s !! i = Some (Swapping a b) →
    ∃ s', rtc (inside_step k) s s' ∧ threads s' !! i = Some Holding) as Hswap.
  { intros u a b Hu Hiu. eexists. split.
    - apply rtc_once. exists i, (Swapping a b). split_and!; [done|by split_and!|]. by eapply lock_swap.
    - cbn. apply list_lookup_insert_eq. by apply lookup_lt_Some in Hiu. }
  assert (∀ s a b, locked_ s = false → threads s !! i = Some (Loading a b) →
    ∃ s', rtc (inside_step k) s s' ∧ threads s' !! i = Some Holding) as Hload.
  { intros u a b Hu Hiu. pose proof (lock_load k i u a b Hiu) as Hst. rewrite Hu in Hst.
    destruct (inside_move i _ _ u Hiu ltac:(by split_and!) Hst) as [H1 H2].
    destruct (Hswap (move i (Swapping a b) u) a b Hu H2) as (s'&Hr&Hh). exists s'. split; [|done]. by eapply rtc_l. }
  assert (∀ s a b, locked_ s = false → threads s !! i = Some (head k a b) →
    ∃ s', rtc (inside_step k) s s' ∧ threads s' !! i = Some Holding) as Hhead.
  { intros u a b Hu Hiu. unfold head in Hiu. destruct k; eauto. }
  assert (∀ s, locked_ s = false → threads s !! i = Some Waiting →
    ∃ s', rtc (inside_step k) s s' ∧ threads s' !! i = Some Holding) as Hwait.
  { intros u Hu Hiu. pose proof (lock_wait k i u Hiu) as Hst. rewrite Hu in Hst.
    destruct (inside_move i _ _ u Hiu ltac:(by split_and!) Hst) as [H1 H2].
    destruct (Hhead (move i (head k 0 0) u) 0%nat 0%nat Hu H2) as (s'&Hr&Hh). exists s'. split; [|done]. by eapply rtc_l. }
  destruct p as [|a b|a b|a b| | | |]; try done; eauto.
  pose proof (lock_next k i s a b Hi) as Hst.
  destruct (inside_move i _ _ s Hi ltac:(by split_and!) Hst) as [H1 H2].
  assert (∃ s', rtc (inside_step k) (move i (next_stage a b) s) s' ∧ threads s' !! i = Some Holding) as (s'&Hr&Hh).
  { unfold next_stage in *. destruct (Nat.ltb a kSpinLimit); [|destruct (Nat.ltb b kYieldLimit)]; eauto. }
  exists s'. split; [|done]. by eapply rtc_l.
Qed.

(** C27: no wake-up is lost: in every reachable state in which the lock is free and
    some thread is inside [lock] - awake or asleep - some thread takes it, by the
    steps of the threads that are awake inside [lock] and [unlock] alone: without new
    calls, and without a sleeper being woken for no reason. *)
Theorem lock_is_taken n s i p : rtc (any_step k) (start n) s → locked_ s = false →
  threads s !! i = Some p → awake p ∨ p = Asleep →
  ∃ s' j, rtc (inside_step k) s s' ∧ threads s' !! j = Some Holding.
Proof.
  intros Hs%lock_reachable_inv Hl Hi [Hp | ->].
  { destruct (awake_takes i p s Hs Hl Hi Hp) as (s'&Hr&Hh). by exists s', i. }
  destruct (sleeper_watched s Hs Hl) as [Hn|(q&Hq&Ha)]; [by apply list_elem_of_lookup_2 in Hi| |].
  - apply list_elem_of_lookup in Hn as [m Hm]. assert (m ≠ i) by congruence.
    pose proof (unlock_notify k m s i Hm Hi) as Hst.
    destruct (awake_takes i Waiting (move i Waiting (move m Outside s))) as (s'&Hr&Hh); [by apply (lock_step_inv m s)|done| |done|].
    { cbn. apply list_lookup_insert_eq. rewrite length_insert. by apply lookup_lt_Some in Hi. }
    exists s', i. split; [|done]. eapply rtc_l; [|done]. exists m, Notifying. by split_and!.
  - apply list_elem_of_lookup in Hq as [j Hj].
    destruct (awake_takes j q s Hs Hl Hj Ha) as (s'&Hr&Hh). by exists s', j.
Qed.
End lock.

(** ** Witnesses *)

(** The second thread has gone to sleep, and the first is about to notify. *)
Definition slept : state := mkState false [Notifying; Asleep].

Lemma slept_reachable : rtc (any_step AtomicWaitLock) (start 2) slept.
Proof.
  eapply rtc_l; [exists 0%nat; by apply try_lock_taken|].
  eapply rtc_l; [exists 1%nat; by apply lock_call|].
  eapply rtc_l; [exists 1%nat; eapply lock_swap_failed; [done|by left]|].
  eapply rtc_l; [exists 1%nat; by apply lock_wait|].
  eapply rtc_l; [exists 0%nat; by apply unlock_store|].
  apply rtc_refl.
Qed.

Lemma mutual_exclusion_witness : locked_ slept = true ↔ ∃ i, threads slept !! i = Some Holding.
Proof. exact (proj1 (proj2 (mutual_exclusion AtomicWaitLock 2 slept slept_reachable))). Defined.

Lemma lock_is_taken_witness : ∃ s' j, rtc (inside_step AtomicWaitLock) slept s' ∧ threads s' !! j = Some Holding.
Proof.
  exact (lock_is_taken AtomicWaitLock 2 slept 1 Asleep slept_reachable eq_refl eq_refl (or_intror eq_refl)).
Defined.
End MutexProofs.
